(* ===== verification/_CoqProject ===== *)
-Q . S2P
Prelude.v
Common.v
Toy.v
Chains.v
ChainsProps.v
BatchWriter.v
RetryTee.v
Coal.v
Egress.v
EgressFacts.v
ToyKernel.v
EgressProps.v
TeeClose.v
Sha256.v
SubtreeRoot.v
RateLimit.v
RateLimitProps.v
Machine.v
Forwarder.v
Beef.v
Coalesce.v
Dispatch.v
ForwarderFacts.v
Fragmentation.v
BeefFacts.v
ToyLaws.v
DispatchProps.v
FragmentationProps.v
BeefProps.v
CoalesceProps.v
Lane.v
LaneFacts.v
Worker.v
WorkerProps.v
Stream.v
StreamFacts.v
TcpIngress.v
ObjectIngress.v
TcpFacts.v
TcpProps.v
ObjectProps.v
Simulation.v
Delivery.v
DeliveryProps.v
EndToEnd.v
Interleave.v
InterleaveFacts.v
Node.v
NodeFacts.v
NodeProps.v
Config.v
ConfigProps.v
Manifest.v
ManifestProps.v
Latstamp.v
Recorder.v
FlowCounters.v
RecorderProps.v
Logging.v
Admin.v
Sockets.v
SocketProps.v
Lifecycle.v
LifecycleFacts.v
LifecycleProps.v
Wiring.v
WiringProps.v
Floats.v
LatencySink.v
LatencySinkProps.v
PerfText.v
PerfTextProps.v
PerfSend.v
PerfSendProps.v
PerfReport.v
PerfMain.v
PerfMainProps.v
TestFrames.v
ToolMain.v
ToolMainProps.v
