(* ===== verification/Prelude.v ===== *)
(** * shard-proxy: a verification development

    shard-proxy takes Bitcoin SV traffic in (UDP datagrams, TCP streams and
    push lanes), decides which multicast group each frame belongs to, stamps
    it with a per-flow hash and sequence number, splits or bundles it to fit
    the path, and sends it to that group on every egress interface.  This
    library models the repository's own code (src/forwarder, src/worker,
    src/config, src/manifest, src/metrics, src/main.go, and the load and
    measurement tools of src/cmd) and proves what makes it correct.

    ** How the program is put together, and where each part is modelled

    - Per-flow sequence counters (forwarder.go: chainKey, reserveSeq,
      nextSeq): [Chains], [ChainsProps].  A striped map of counters refines
      one counter per flow; concurrent reservations never overlap.
    - Egress (egress.go): [BatchWriter] (writeBatchAll over a kernel that is
      a parameter), [Egress] (queues, address cache, buffer pool, Flush, the
      reliable lane, the sender goroutine, FlushVia), [EgressFacts],
      [EgressProps].
    - Retry tee and local mirror (retrytee.go): [RetryTee], with executions
      as interleavings of its users and its sender; [TeeClose] (wait, close
      and the counters of an egress).
    - Coalescing buffer and bundles (coalesce.go): [Coal], [Coalesce],
      [CoalesceProps].
    - Subtree root verification (subtreeroot.go): [Sha256] (FIPS 180-4, with
      its test vectors), [SubtreeRoot].
    - BEEF rate limiter (ratelimit.go): [RateLimit], [RateLimitProps]; 64-bit
      floats and the clock are the class [GoRuntime].
    - The forwarder (forwarder.go, beef.go): [Machine] (settings, state and
      the state-and-panic monad), [Forwarder] (gates, dedup, stamping,
      fragmentation, emission), [Beef] (submission records), [Dispatch] (the
      routing of a datagram), with the invariant and its preservation by
      every operation in [ForwarderFacts], and the properties in
      [DispatchProps], [Fragmentation], [FragmentationProps], [BeefFacts],
      [BeefProps].
    - Ingress lanes (worker package): [Lane] (what a lane acts on: forwarder,
      sockets, sink, admission hooks), [Worker] (the UDP receive loop),
      [Stream] (connections, bufio, the batcher and the flushing reader),
      [TcpIngress], [ObjectIngress]; facts and properties in [LaneFacts],
      [WorkerProps], [StreamFacts], [TcpFacts], [TcpProps], [ObjectProps].
    - The parts together: [Simulation] (every operation of the pipeline
      respects the relation of two states that differ only in what their
      sockets refused and have queued), [Delivery] (a kernel that logs what
      each socket accepts, and the relation lifted to lanes),
      [DeliveryProps] (a worker and a connection against a perfect network)
      and [EndToEnd] (a transaction from its receive to every interface).
    - Lanes at the same time: [Interleave] derives from every operation of the
      pipeline the program of its accesses to the state lanes share (a
      counter advanced, an address cache entry loaded or stored, a claim, a
      budget charged, the bridging engine loaded), with the proof that run
      alone it is the operation; [InterleaveFacts] is a rely-guarantee logic
      of such programs and the safety of every operation in it; [Node] is the
      step relation in which workers and connections on one forwarder
      interleave those accesses; [NodeFacts] follows transactions through it
      and [NodeProps] states what holds under every interleaving.
    - Configuration (config package): [Config], [ConfigProps].
    - Manifest consumer (manifest package, main.go hooks): [Manifest],
      [ManifestProps]; the evaluator main builds and the listener from its
      socket to its return are at the end of [Wiring].
    - Metrics recorder (metrics package): [Recorder] (every recording method,
      the hot-path caches, readiness, the gauges), [FlowCounters] (workers
      racing on the copy-on-write counters), [RecorderProps]; [Admin]
      (construction, the paths of the HTTP server, shutdown); [Logging]
      (what a failed write logs, the dedup store's callbacks).
    - Sockets (OpenTargets, the Run functions, the tee and beacon sockets):
      [Sockets], over a model of system calls in which any call may fail,
      and [SocketProps].
    - The process (main.go from the first goroutine on, the Run and accept
      loops of the lanes): [Lifecycle], a step relation of main, workers,
      lanes, connections and watchers; invariants in [LifecycleFacts],
      readiness and shutdown in [LifecycleProps].
    - What main builds from a configuration: [Wiring], over the class
      [MainDeps] of what it calls outside the repository; [WiringProps].
    - Tools (src/cmd): the latency stamp [Latstamp]; the latency sink
      [LatencySink], [LatencySinkProps]; the load generator's parsers
      [PerfText], [PerfTextProps], paced senders [PerfSend],
      [PerfSendProps], report [PerfReport] and run [PerfMain],
      [PerfMainProps]; the test-frame sender and receiver [TestFrames];
      the runs of the sink, the receiver and the sender from their flags to
      their exit [ToolMain], [ToolMainProps].  [Floats] is the floating point
      they use, with its laws [ToolFloatLaws] and the rationals as an
      instance.

    [Common] holds the wire constants and the interface [ShardCommon] of the
    external module shard-common (frame codecs, the transaction grammar,
    shard arithmetic, the dedup store): its operations are parameters, and
    what the proxy relies on is stated as law classes next to where it is
    used ([ShardLaws], [FragLaws], [BEEFLaws], [BundleLaws], [ReaderLaws],
    [ReframeLaws], [StoreLaws], [OutsideLaws]).  [Toy], [ToyLaws] and
    [ToyKernel] give one concrete environment that meets them, in which every
    witness is evaluated.

    ** Conventions

    A Go value is modelled at its width: bytes are [Z] in [0, 256), unsigned
    integers wrap through [u8] .. [u64], slices are lists and [Zlen] is
    [len].  An operation that can panic returns [None] in the monad [M]; one
    that can fail returns [option] or [Res].  Stateful code passes the record
    it changes.  Loops that are not structural take fuel, and each has a
    lemma that its fuel is enough: the drain loop sends a message per
    iteration, the reliable lane sends one or spends one of 50 retries, a
    stream reader consumes at least a byte of the stream.  Goroutines are
    steps of a relation at the granularity of the code's atomic operations
    (in [Node] the addition to a counter, a call of the dedup store and a call
    of the rate limiter are one step each; [Chains] has the lock sections of
    the first);
    theorems about them are by induction on any sequence of steps, and
    termination is by a measure every step of the program decreases.

    ** What the theorems show

    - Safety of the pipeline: no input makes it panic, and nothing but an
      admitted frame touches the dedup stores, counters or queues.
    - Sequence numbers: the striped counters refine an abstract counter per
      flow, interleaved reservations are disjoint, stamping and fragmenting
      use consecutive numbers, and reserving apart equals reserving in line.
    - Delivery: batched writes deliver a prefix and account for the rest, the
      reliable lane surrenders only on hard or persistent failure, tees
      conserve datagrams, coalescing and fragmentation lose nothing, the
      sender goroutine writes what an in-line flush writes.
    - End to end: whatever the sockets refuse, a worker differs from one over
      a perfect network only by datagrams missing on the interface that
      refused them; with coalescing off, receive batches and TCP segmentation
      leave no trace on the network; an admissible transaction is written
      once on every interface, to its group and under the next number of its
      flow; closing a tee settles everything it was given.
    - Many lanes: under every interleaving of their accesses no lane panics or
      waits for another and every run ends; the numbers of a flow are given
      out over all lanes without gap or repetition and in order within a
      lane; a transaction received by several lanes is forwarded by exactly
      one; and the sequential models above are schedules of the node.
    - Admission: subtree roots are verified exactly, rate budgets are bounded
      per source and never starve, BEEF records keep their deliver counts.
    - Lanes: a TCP connection submits the reference reading of its bytes
      however they arrive, never blocks with a frame unflushed, and every
      lane leaves its egress drained.
    - Configuration and manifest: what loads is in bounds, the beacon join
      list is the documented one, hooks see every adoption exactly once, and
      live resharding by itself never restarts the process.
    - The process: a positive readiness answer means that workers are
      receiving and nothing drains, [done] is closed only after the recorder
      reports draining, a process told to stop reaches its exit in boundedly
      many steps of its own, and exits with every goroutine gone.
    - Wiring: main gives up only for the documented reasons, what it builds
      satisfies the invariants the pipeline's theorems assume, and a socket
      open to users never admits a privileged class.
    - Resources and measurements: no failing system call leaks a descriptor
      (the listener of a lane without egress sockets apart), the concurrent
      flow counters export exactly what was recorded, the recorder's caches
      change no sample, a logged loss is the counted loss, the admin server
      answers a fixed set of paths, and shutdown loses the last push interval
      (the order of its functions is wrong).
    - Tools: however the load generator's senders interleave they neither
      panic nor exceed their rate nor reuse a stamp; the sink joins every
      group it was given and accounts for every datagram it reads; the load
      tool counts what its receivers print, stops what it starts once its
      senders are done, and reports tables that are rectangular, with totals
      that are what was captured.

    ** Not modelled

    Log output other than the egress write warnings, progress messages and
    tracing; the aggregation and export of samples and the serving of HTTP,
    which are the Prometheus and OpenTelemetry clients' and the standard
    library's; parsing of flag syntax, and the formats of floating-point
    numbers, dates and durations in printed reports, which are parameters.

    ** Possible extensions

    A single step relation in which the goroutines of [Lifecycle] run the
    programs of [Node]; the datagrams of fragments and bundles when several
    lanes share a flow (that their numbers never coincide is
    [NodeFacts.node_reservations]; they need not be consecutive then). *)

From Stdlib Require Export ZArith Lia.
From stdpp Require Export base option list list_numbers gmap strings numbers.

#[global] Open Scope Z_scope.

(** ** Functional record update

    [r <| field := v |>] and [r <| field ::= f |>] rebuild a record with one
    field changed.  A record type takes part by giving its eta expansion; the
    setter of a field is computed from it by abstracting the projection. *)

Class EtaExpand (T : Type) := { eta_of : T → T }.

Class FieldSetter {T E : Type} (proj : T → E) := set_field : (E → E) → T → T.
Arguments set_field {T E} proj {_} f r /.

Ltac derive_setter :=
  lazymatch goal with
  | |- @FieldSetter ?T ?E ?proj =>
      let inst := constr:(_ : EtaExpand T) in
      let eta := eval hnf in (@eta_of T inst) in
      let abstracted := eval pattern proj in eta in
      lazymatch abstracted with
      | ?body _ => exact (λ (f : E → E) (r : T), body (λ x : T, f (proj x)) r)
      end
  end.

#[export] Hint Extern 0 (FieldSetter _) => derive_setter : typeclass_instances.

Declare Scope record_scope.
Open Scope record_scope.
Notation "r <| proj ::= f |>" := (set_field proj f r)
  (at level 1, left associativity) : record_scope.
Notation "r <| proj := v |>" := (set_field proj (λ _, v) r)
  (at level 1, left associativity) : record_scope.

(** ** Machine integers

    A w-bit unsigned Go integer is a [Z] in [0, 2^w); a conversion such as
    [uint16(x)] reduces modulo 2^w. *)

Definition u8 (x : Z) : Z := x mod 2 ^ 8.
Definition u16 (x : Z) : Z := x mod 2 ^ 16.
Definition u32 (x : Z) : Z := x mod 2 ^ 32.
Definition u64 (x : Z) : Z := x mod 2 ^ 64.

Ltac unfold_uint := unfold u8, u16, u32, u64 in *.

(** [lia] with quotients and remainders by constants. *)
Ltac zlia := unfold_uint; Z.div_mod_to_equations; lia.

Lemma u64_range x : 0 ≤ u64 x < 2 ^ 64.
Proof. unfold u64. apply Z.mod_pos_bound. lia. Qed.

Lemma u64_small x : 0 ≤ x < 2 ^ 64 → u64 x = x.
Proof. intros. by apply Z.mod_small. Qed.

Lemma u32_small x : 0 ≤ x < 2 ^ 32 → u32 x = x.
Proof. intros. by apply Z.mod_small. Qed.

Lemma u16_small x : 0 ≤ x < 2 ^ 16 → u16 x = x.
Proof. intros. by apply Z.mod_small. Qed.

Lemma u64_add_l x y : u64 (u64 x + y) = u64 (x + y).
Proof. unfold u64. by rewrite Zplus_mod_idemp_l. Qed.

Lemma u64_idemp x : u64 (u64 x) = u64 x.
Proof. unfold u64. apply Z.mod_mod. lia. Qed.

(** ** Byte strings

    A byte is a [Z] in [0, 256); a Go [[]byte] or [[n]byte] is a list of
    them. [Zlen] is Go's [len]. *)

Abbreviation bytes := (list Z).

Definition Zlen {A} (l : list A) : Z := Z.of_nat (length l).

Definition is_byte (b : Z) : Prop := 0 ≤ b < 256.

(** [l[lo:hi]], for [lo ≤ hi ≤ len l]. *)
Definition slice {A} (lo hi : nat) (l : list A) : list A := take (hi - lo) (drop lo l).

(** The expression [l[lo:hi]] itself: out of range it panics ([None]).  (Go
    lets [hi] run up to the capacity; here the bound is the length, so what is
    proved not to panic also reads nothing past the length.) *)
Definition subslice {A} (lo hi : nat) (l : list A) : option (list A) :=
  if (lo <=? hi)%nat && (hi <=? length l)%nat then Some (slice lo hi l) else None.

(** [copy(l[lo:], new)], for [lo + len new ≤ len l]. *)
Definition splice {A} (lo : nat) (new l : list A) : list A :=
  take lo l ++ new ++ drop (lo + length new) l.

(** Big-endian decoding and encoding ([binary.BigEndian]). *)
Definition be_get (l : bytes) : Z :=
  fold_left (λ acc b, Z.lor (Z.shiftl acc 8) b) l 0.

Fixpoint be_put (n : nat) (v : Z) : bytes :=
  match n with
  | O => []
  | S n => Z.land (Z.shiftr v (8 * Z.of_nat n)) 255 :: be_put n v
  end.

(** Little-endian encoding ([binary.LittleEndian]). *)
Definition le_put (n : nat) (v : Z) : bytes := rev (be_put n v).

(** [raw[i]] with the zero value out of range, for reads the code guards. *)
Definition byte_at (i : nat) (raw : bytes) : Z := nth i raw 0.

(** [binary.BigEndian.Uint16(raw[off:off+2])] and its wider versions. *)
Definition u16_at (off : nat) (raw : bytes) : option Z := (λ b, u16 (be_get b)) <$> subslice off (off + 2) raw.
Definition u32_at (off : nat) (raw : bytes) : option Z := (λ b, u32 (be_get b)) <$> subslice off (off + 4) raw.
Definition u64_at (off : nat) (raw : bytes) : option Z := (λ b, u64 (be_get b)) <$> subslice off (off + 8) raw.

Definition zeros (n : nat) : bytes := replicate n 0.

Definition bytes_eqb (a b : bytes) : bool := bool_decide (a = b).

Lemma bytes_eqb_eq a b : bytes_eqb a b = true ↔ a = b.
Proof. unfold bytes_eqb. by rewrite bool_decide_eq_true. Qed.

Lemma bytes_eqb_neq a b : bytes_eqb a b = false ↔ a ≠ b.
Proof. unfold bytes_eqb. by rewrite bool_decide_eq_false. Qed.

Lemma bytes_eqb_refl a : bytes_eqb a a = true.
Proof. by apply bytes_eqb_eq. Qed.

Lemma Zlen_nonneg {A} (l : list A) : 0 ≤ Zlen l.
Proof. unfold Zlen. lia. Qed.

Lemma Zlen_app {A} (l k : list A) : Zlen (l ++ k) = Zlen l + Zlen k.
Proof. unfold Zlen. rewrite length_app. lia. Qed.

Lemma Zlen_nil {A} : Zlen (@nil A) = 0.
Proof. done. Qed.

Lemma Zlen_cons {A} (x : A) l : Zlen (x :: l) = 1 + Zlen l.
Proof. unfold Zlen. simpl. lia. Qed.

Lemma length_slice {A} lo hi (l : list A) :
  (hi ≤ length l)%nat → length (slice lo hi l) = (hi - lo)%nat.
Proof. intros. unfold slice. rewrite length_take, length_drop. lia. Qed.

Lemma subslice_in {A} lo hi (l : list A) :
  (lo ≤ hi)%nat → (hi ≤ length l)%nat → subslice lo hi l = Some (slice lo hi l).
Proof. intros H1 H2. unfold subslice. by rewrite (proj2 (Nat.leb_le _ _) H1), (proj2 (Nat.leb_le _ _) H2). Qed.

(** A guarded read is in range. *)
Lemma subslice_guarded {A} lo hi (l : list A) :
  (lo ≤ hi)%nat → Z.of_nat hi ≤ Zlen l → subslice lo hi l = Some (slice lo hi l).
Proof. intros Hlo Hl. apply subslice_in; [done|]. unfold Zlen in Hl. lia. Qed.

Lemma u16_at_in off raw :
  Z.of_nat off + 2 ≤ Zlen raw → u16_at off raw = Some (u16 (be_get (slice off (off + 2) raw))).
Proof. intros H. unfold u16_at. by rewrite subslice_guarded by lia. Qed.

Lemma u32_at_in off raw :
  Z.of_nat off + 4 ≤ Zlen raw → u32_at off raw = Some (u32 (be_get (slice off (off + 4) raw))).
Proof. intros H. unfold u32_at. by rewrite subslice_guarded by lia. Qed.

Lemma u64_at_in off raw :
  Z.of_nat off + 8 ≤ Zlen raw → u64_at off raw = Some (u64 (be_get (slice off (off + 8) raw))).
Proof. intros H. unfold u64_at. by rewrite subslice_guarded by lia. Qed.

Lemma length_splice {A} lo (new l : list A) :
  (lo + length new ≤ length l)%nat → length (splice lo new l) = length l.
Proof.
  intros. unfold splice. rewrite !length_app, length_take, length_drop. lia.
Qed.

(** Reading back what was written. *)
Lemma slice_splice_eq {A} lo (new l : list A) :
  (lo ≤ length l)%nat → slice lo (lo + length new) (splice lo new l) = new.
Proof.
  intros. unfold slice, splice.
  rewrite drop_app_ge by (rewrite length_take; lia).
  rewrite length_take, Nat.min_l, Nat.sub_diag, drop_0 by lia.
  replace (lo + length new - lo)%nat with (length new) by lia.
  by rewrite take_app_length.
Qed.

(** A write leaves every byte outside its window alone. *)
Lemma lookup_splice_ne {A} lo (new l : list A) i :
  (lo + length new ≤ length l)%nat →
  (i < lo ∨ lo + length new ≤ i)%nat → splice lo new l !! i = l !! i.
Proof.
  intros Hlen [Hi|Hi]; unfold splice.
  - rewrite lookup_app_l by (rewrite length_take; lia). by apply lookup_take_lt.
  - rewrite lookup_app_r by (rewrite length_take; lia).
    rewrite lookup_app_r by (rewrite length_take; lia).
    rewrite lookup_drop, length_take. f_equal. lia.
Qed.

Lemma length_be_put n v : length (be_put n v) = n.
Proof. induction n; simpl; auto. Qed.

Lemma lor_shiftl_byte a b : 0 ≤ b < 256 → Z.lor (Z.shiftl a 8) b = a * 256 + b.
Proof.
  intros Hb. rewrite Z.shiftl_mul_pow2 by lia. change (2 ^ 8) with 256.
  rewrite <- Z.lxor_lor, <- Z.add_nocarry_lxor; [done| |].
  all: apply Z.bits_inj'; intros n Hn; rewrite Z.land_spec, Z.bits_0.
  all: change 256 with (2 ^ 8); rewrite <- Z.shiftl_mul_pow2 by lia.
  all: destruct (decide (n < 8)); [by rewrite Z.shiftl_spec_low by lia|].
  all: replace b with (b mod 2 ^ 8) by (apply Z.mod_small; lia).
  all: rewrite (Z.mod_pow2_bits_high b) by lia; apply andb_false_r.
Qed.

Lemma land_255 x : Z.land x 255 = x mod 256.
Proof. change 255 with (Z.ones 8). by rewrite Z.land_ones by lia. Qed.

Lemma is_byte_mod x : is_byte (x mod 256).
Proof. unfold is_byte. pose proof (Z.mod_pos_bound x 256). lia. Qed.

Lemma be_put_cons n v :
  be_put (S n) v = (v / 2 ^ (8 * Z.of_nat n)) mod 256 :: be_put n v.
Proof. simpl. by rewrite land_255, Z.shiftr_div_pow2 by lia. Qed.

Lemma be_put_bytes n v : Forall is_byte (be_put n v).
Proof.
  induction n; [constructor|]. rewrite be_put_cons. constructor; [|done].
  apply is_byte_mod.
Qed.

Lemma be_get_acc l a :
  Forall is_byte l →
  fold_left (λ acc b, Z.lor (Z.shiftl acc 8) b) l a = a * 256 ^ Zlen l + be_get l.
Proof.
  intros Hl. unfold be_get. revert a. induction Hl as [|b l Hb Hl IH]; intros a.
  { simpl. rewrite Zlen_nil. lia. }
  simpl fold_left. rewrite IH, (IH (Z.lor _ b)), !lor_shiftl_byte by done.
  rewrite Zlen_cons, Z.pow_add_r by (pose proof (Zlen_nonneg l); lia). lia.
Qed.

Lemma be_get_cons b l :
  is_byte b → Forall is_byte l → be_get (b :: l) = b * 256 ^ Zlen l + be_get l.
Proof.
  intros Hb Hl. unfold be_get at 1. simpl fold_left.
  by rewrite be_get_acc, lor_shiftl_byte.
Qed.

Lemma be_get_range l : Forall is_byte l → 0 ≤ be_get l < 256 ^ Zlen l.
Proof.
  intros Hl. induction Hl as [|b l Hb Hl IH]; [done|].
  rewrite be_get_cons, Zlen_cons, Z.pow_add_r by (done || (pose proof (Zlen_nonneg l); lia)).
  unfold is_byte in Hb. nia.
Qed.

(** Encode then decode is the identity modulo the field's width. *)
Lemma be_get_put n v : be_get (be_put n v) = v mod 2 ^ (8 * Z.of_nat n).
Proof.
  induction n as [|n IH]; [simpl; by rewrite Z.mod_1_r|].
  rewrite be_put_cons, be_get_cons, IH;
    [|apply is_byte_mod|apply be_put_bytes].
  unfold Zlen. rewrite length_be_put.
  replace (8 * Z.of_nat (S n)) with (8 * Z.of_nat n + 8) by lia.
  change 256 with (2 ^ 8) at 2. rewrite <- Z.pow_mul_r, Z.pow_add_r by lia.
  rewrite Z.rem_mul_r by lia. change (2 ^ 8) with 256. lia.
Qed.

Lemma be64_roundtrip v : 0 ≤ v < 2 ^ 64 → be_get (be_put 8 v) = v.
Proof. intros. rewrite be_get_put. by apply Z.mod_small. Qed.

Create HintDb proxy discriminated.
#[export] Hint Resolve Zlen_nonneg u64_range be_put_bytes : proxy.
Create Rewrite HintDb proxy_len.
#[export] Hint Rewrite @Zlen_app @Zlen_nil @Zlen_cons length_be_put @length_app
  @length_take @length_drop : proxy_len.

Ltac simpl_len := autorewrite with proxy_len in *.
