(* ===== verification/Common.v ===== *)
(** * The proxy's environment

    What the proxy is built on and does not define itself: network addresses
    of the Go standard library, the wire constants, the packages of
    shard-common it calls (an interface, [ShardCommon]), and the events it
    reports to its metrics recorder. *)

From S2P Require Import Prelude.

(** ** Addresses (package net)

    A [net.IP] is its bytes: 4 or 16 of them, or none for a nil address.  A
    source address is one of the concrete types the proxy switches on; any
    other implementation of [net.Addr] is known by its string form and what
    [SplitHostPort]/[ParseIP] make of it. *)

Record UDPAddr := mkUDPAddr { addr_ip : bytes; addr_port : Z; addr_zone : string }.

Inductive NetAddr :=
| NetUDP (a : UDPAddr)
| NetTCP (a : UDPAddr)
| NetIP (ip : bytes)
| NetOther (str : string) (parsed : bytes).

#[export] Instance UDPAddr_eq_dec : EqDecision UDPAddr.
Proof. solve_decision. Defined.

Definition v4_in_v6_prefix : bytes := zeros 10 ++ [255; 255].

(** [net.IP.To4] and [net.IP.To16]; the empty list is the nil result. *)
Definition To4 (ip : bytes) : bytes :=
  if decide (length ip = 4%nat) then ip
  else if decide (length ip = 16%nat ∧ take 12 ip = v4_in_v6_prefix)
  then drop 12 ip else [].

Definition To16 (ip : bytes) : bytes :=
  if decide (length ip = 4%nat) then v4_in_v6_prefix ++ ip
  else if decide (length ip = 16%nat) then ip else [].

(** ** Wire constants

    Values of shard-common's [frame], [bundle], [shard], [objfmt] and [pow]
    packages that the proxy's sources and documents state. *)

Definition MagicBSV : Z := 0xE3E1F3E8.
Definition FrameVerV1 : Z := 0x01.
Definition FrameVerV2 : Z := 0x02.
Definition FrameVerV4 : Z := 0x04.
Definition FrameVerV5 : Z := 0x05.
Definition FrameVerV6 : Z := 0x06.
Definition FrameVerV8 : Z := 0x08.
Definition FrameVerV9 : Z := 0x09.
Definition MsgTypeSubtreeGroupAnnounce : Z := 0x30.
Definition HeaderSizeLegacy : Z := 44.
Definition HeaderSize : Z := 92.
Definition HeaderSizeV3 : Z := 104.
Definition SubtreeGroupAnnounceSize : Z := 64.
Definition BlockMsgAnnounce : Z := 0x01.
Definition BlockMsgCoinbase : Z := 0x02.
Definition SubtreeMsgFullNodes : Z := 0x02.
Definition SubtreeNodeHashSize : Z := 32.
Definition SubtreeNodeFullSize : Z := 48.
Definition BundleHeaderSize : Z := 66.
Definition BundleMaxMembers : Z := 65535.
Definition PowHeaderSize : Z := 80.
Definition BEEFRecordTag : Z := 0xBEEF.
Definition DefaultMaxObject : Z := 64 * 2 ^ 20.
Definition GroupBlockBroadcast : Z := 0xFFFE.
Definition GroupBeacon : Z := 0xFFFD.
Definition GroupSubtreeGroupAnnounce : Z := 0xFFFC.
Definition GroupSubtreeDataAnnounce : Z := 0xFFFB.
Definition GroupAnchorFlow : Z := 0xFFF9.
Definition GroupCoinbaseFlow : Z := 0xFFF8.

(** ** Decoded frames

    The fields of shard-common's frame structs that the proxy reads. *)

Record Frame := mkFrame {
  f_version : Z; f_txid : bytes; f_seqnum : Z; f_subtree : bytes; f_payload : bytes }.

Record BlockFrame := mkBlockFrame {
  bk_msgtype : Z; bk_contentid : bytes; bk_payload : bytes }.

Record SubtreeDataFrame := mkSubtreeDataFrame {
  sd_msgtype : Z; sd_subtreeid : bytes; sd_payload : bytes }.

Record BEEFFrame := mkBEEFFrame {
  bf_contentid : bytes; bf_topicid : bytes; bf_deliver : Z; bf_payload : bytes }.

#[export] Instance eta_BEEFFrame : EtaExpand BEEFFrame :=
  {| eta_of := λ x, mkBEEFFrame (bf_contentid x) (bf_topicid x) (bf_deliver x) (bf_payload x) |}.

(** A BRC-149 submission record: its topic names and its object. *)
Record BEEFRecord := mkBEEFRecord { rec_topics : list bytes; rec_object : bytes }.

(** A BRC-142 bundle before encoding. *)
Record Member := mkMember { m_txid : bytes; m_tx : bytes }.

Record Bundle := mkBundle {
  b_group : Z; b_shardbits : Z; b_subtree : bytes; b_flags : Z;
  b_hashkey : Z; b_seqnum : Z; b_members : list Member }.

(** The arguments of [frame.EncodeFragment] other than its buffer. *)
Record FragArgs := mkFragArgs {
  fa_txid : bytes; fa_subtree : bytes; fa_hashkey : Z; fa_seqnum : Z;
  fa_origlen : Z; fa_index : Z; fa_total : Z; fa_origver : Z; fa_data : bytes }.

Inductive ObjClass := ClassTx | ClassSubtree | ClassBlock | ClassBEEF.

#[export] Instance ObjClass_eq_dec : EqDecision ObjClass.
Proof. solve_decision. Defined.

(** ** shard-common

    The packages the proxy imports.  A decoder is a partial function of the
    datagram; [EncodeFragment] is given the size of the buffer it writes into
    and returns the bytes written; the dedup store behind [Claim] is reached
    through a handle, its contents and those of any remote tier being the
    state [Env], so two handles may share one store. *)
Class ShardCommon := {
  Decode : bytes → option Frame;
  DecodeBlock : bytes → option BlockFrame;
  DecodeAnchor : bytes → option Frame;
  DecodeSubtreeData : bytes → option SubtreeDataFrame;
  DecodeBEEF : bytes → option BEEFFrame;
  EncodeFragment : Z → FragArgs → option bytes;
  SubtreeDataPayloadHeaderSize : Z;

  BundleEncode : Bundle → option bytes;
  MemberOverhead : bool → Z;
  FlagTxIDsPresent : Z;

  TxSize : bytes → option Z;
  IsEF : bytes → bool;
  TxID : bytes → option bytes;
  MulticastBytes : ObjClass → bytes → option bytes;
  DecodeBEEFRecord : bytes → option (BEEFRecord * Z);
  IsBEEFObject : bytes → bool;
  BEEFMulticastRecord : bytes → Z → option bytes;
  SplitBEEFPayload : bytes → option (bytes * option (list bytes));
  TopicID : bytes → bytes;
  ContentID : bytes → bytes;
  BEEFRecordMaxEnvelope : Z;

  seqhash_Hash : bytes → Z → bytes → Z;

  Engine : Type;
  GroupIndex : Engine → bytes → Z;
  EngineAddr : Engine → Z → Z → UDPAddr;
  ShardBits : Engine → Z;
  PlaneEngine : Type;
  PlaneGroupIndex : PlaneEngine → bytes → Z;
  GroupAddr : Z → Z → Z → bytes;

  CheckHeader : bytes → option Z → bool;
  CompactToTarget : Z → Z;

  Env : Type;
  StoreId : Type;
  Claim : StoreId → string → bytes → Env → (bool * bool) * Env;
}.

(** ** Recorder events

    One constructor per method of [metrics.Recorder] the data path calls. *)

Inductive IngressFrameClass :=
| IngressClassTx | IngressClassAnchor | IngressClassBlock
| IngressClassCoinbase | IngressClassSubtree | IngressClassBEEF.

Inductive Event :=
| EvPacketReceived (iface : string) (worker size : Z)
| EvPacketDropped (iface : string) (worker : Z) (reason : string)
| EvPacketForwarded (iface : string) (worker group size : Z)
| EvControlFrameForwarded (label : string)
| EvEgressError (iface : string) (worker : Z)
| EvIngressError (iface : string) (worker : Z)
| EvFrameFragmented (worker k : Z)
| EvCoalesceFlushed (iface : string) (worker n : Z) (reason : string)
| EvIngressDeduped (iface : string) (worker : Z) (frameType : string)
| EvIngressMetered (class : IngressFrameClass) (privileged : bool) (size : Z)
| EvPrivilegedFrameRejected (frameType : string)
| EvBlockPoWRejected
| EvSubtreeRootCheck (result : string)
| EvBEEFSubmission (result : string)
| EvBEEFTopics (named deliverable : Z)
| EvTeeFailed (kind : string) (n : Z)
| EvTCPBytesReceived (n : Z)
| EvTCPConnectionAccepted.

#[export] Instance IngressFrameClass_eq_dec : EqDecision IngressFrameClass.
Proof. solve_decision. Defined.
#[export] Instance Event_eq_dec : EqDecision Event.
Proof. solve_decision. Defined.
