(* ===== verification/Toy.v ===== *)
(** * A concrete environment

    One instance of [ShardCommon], with the frame layouts of
    docs/architecture.md and simple stand-ins for the hashes, the transaction
    grammar and the proof-of-work test.  It is what the witnesses evaluate
    the model in; no theorem is about it. *)

From S2P Require Import Prelude Common.

Definition toy_hash (l : bytes) : bytes :=
  zeros 24 ++ be_put 8 (u64 (fold_left (λ h b, u64 (Z.lxor h b * 1099511628211)) l 14695981039346656037)).

Definition toy_payload (hdr : nat) (raw : bytes) (n : Z) : option bytes :=
  if Z.of_nat hdr + n <=? Zlen raw then Some (slice hdr (hdr + Z.to_nat n) raw) else None.

Definition toy_header (ver : Z) (raw : bytes) : bool :=
  (HeaderSize <=? Zlen raw) && (be_get (slice 0 4 raw) =? MagicBSV) && (byte_at 6 raw =? ver).

Definition toy_body (raw : bytes) : option bytes :=
  toy_payload 92 raw (be_get (slice 88 92 raw)).

Definition toy_Decode (raw : bytes) : option Frame :=
  if toy_header FrameVerV2 raw then
    p ← toy_body raw;
    Some (mkFrame FrameVerV2 (slice 8 40 raw) (be_get (slice 48 56 raw)) (slice 56 88 raw) p)
  else if (HeaderSizeLegacy <=? Zlen raw) && (be_get (slice 0 4 raw) =? MagicBSV)
          && (byte_at 6 raw =? FrameVerV1) then
    p ← toy_payload 44 raw (be_get (slice 40 44 raw));
    Some (mkFrame FrameVerV1 (slice 8 40 raw) 0 (zeros 32) p)
  else None.

Definition toy_DecodeBlock (raw : bytes) : option BlockFrame :=
  if toy_header FrameVerV4 raw then
    p ← toy_body raw; Some (mkBlockFrame (byte_at 7 raw) (slice 8 40 raw) p)
  else None.

Definition toy_DecodeAnchor (raw : bytes) : option Frame :=
  if toy_header FrameVerV6 raw then
    p ← toy_body raw;
    Some (mkFrame FrameVerV6 (slice 8 40 raw) (be_get (slice 48 56 raw)) (slice 56 88 raw) p)
  else None.

Definition toy_DecodeSubtreeData (raw : bytes) : option SubtreeDataFrame :=
  if toy_header FrameVerV5 raw then
    p ← toy_body raw; Some (mkSubtreeDataFrame (byte_at 7 raw) (slice 8 40 raw) p)
  else None.

Definition toy_DecodeBEEF (raw : bytes) : option BEEFFrame :=
  if toy_header FrameVerV9 raw then
    p ← toy_body raw;
    Some (mkBEEFFrame (slice 8 40 raw) (slice 56 88 raw) (byte_at 7 raw) p)
  else None.

Definition pad32 (l : bytes) : bytes := take 32 (l ++ zeros 32).

Definition toy_EncodeFragment (buflen : Z) (a : FragArgs) : option bytes :=
  if buflen <? HeaderSizeV3 + Zlen (fa_data a) then None
  else Some (be_put 4 MagicBSV ++ be_put 2 703 ++ [3; 0] ++ pad32 (fa_txid a) ++
             be_put 8 (fa_hashkey a) ++ be_put 8 (fa_seqnum a) ++ pad32 (fa_subtree a) ++
             be_put 4 (fa_origlen a) ++ be_put 2 (fa_index a) ++ be_put 2 (fa_total a) ++
             [fa_origver a] ++ zeros 7 ++ fa_data a).

Definition toy_MemberOverhead (carry : bool) : Z := if carry then 34 else 2.

Definition toy_member (carry : bool) (m : Member) : bytes :=
  be_put 2 (Zlen (m_tx m)) ++ (if carry then pad32 (m_txid m) else []) ++ m_tx m.

Definition toy_BundleEncode (b : Bundle) : option bytes :=
  let body := concat (toy_member (b_flags b =? 1) <$> b_members b) in
  Some (be_put 4 MagicBSV ++ be_put 2 703 ++ [FrameVerV8; 0] ++ pad32 (b_subtree b) ++
        be_put 8 (b_hashkey b) ++ be_put 8 (b_seqnum b) ++ be_put 2 (b_group b) ++
        [b_shardbits b; b_flags b] ++ be_put 2 (Zlen (b_members b)) ++
        be_put 4 (Zlen body) ++ body).

(** A transaction is its length, a format byte (0xEF: Extended Format) and
    a body. *)
Definition toy_TxSize (tx : bytes) : option Z :=
  match tx with
  | n :: _ :: _ => if (2 <=? n) && (n <=? Zlen tx) then Some n else None
  | _ => None
  end.

Definition toy_frame (ver b7 : Z) (id sub payload : bytes) : bytes :=
  be_put 4 MagicBSV ++ be_put 2 703 ++ [ver; b7] ++ id ++ zeros 16 ++ sub ++
  be_put 4 (Zlen payload) ++ payload.

Definition toy_MulticastBytes (c : ObjClass) (obj : bytes) : option bytes :=
  match c with
  | ClassTx => Some (toy_frame FrameVerV2 0 (toy_hash obj) (zeros 32) obj)
  | ClassSubtree => Some (toy_frame FrameVerV5 1 (toy_hash obj) (zeros 32) obj)
  | ClassBlock => Some (toy_frame FrameVerV4 1 (toy_hash obj) (zeros 32) obj)
  | ClassBEEF => None
  end.

(** A record: tag, version, topic count, length-prefixed names, object
    length, object. *)
Fixpoint toy_topics (k : nat) (l : bytes) : option (list bytes * bytes) :=
  match k with
  | O => Some ([], l)
  | S k =>
      match l with
      | [] => None
      | n :: l =>
          if Zlen l <? n then None
          else '(ts, rest) ← toy_topics k (drop (Z.to_nat n) l);
               Some (take (Z.to_nat n) l :: ts, rest)
      end
  end.

Definition toy_DecodeBEEFRecord (r : bytes) : option (BEEFRecord * Z) :=
  match r with
  | 0xBE :: 0xEF :: _ :: k :: l =>
      if (1 <=? k) && (k <=? 15) then
        '(ts, l) ← toy_topics (Z.to_nat k) l;
        let n := be_get (take 4 l) in
        if 4 + n <=? Zlen l then
          Some (mkBEEFRecord ts (slice 4 (4 + Z.to_nat n) l), Zlen r - Zlen l + 4 + n)
        else None
      else None
  | _ => None
  end.

Definition toy_IsBEEFObject (o : bytes) : bool := bool_decide (take 2 o = [1; 0]).

Definition toy_BEEFMulticastRecord (r : bytes) (deliver : Z) : option bytes :=
  '(d, _) ← toy_DecodeBEEFRecord r;
  t ← head (rec_topics d);
  if Zlen r <? 2 ^ 32 then Some (toy_frame FrameVerV9 (u8 deliver) (toy_hash r) (toy_hash t) r) else None.

Definition toy_SplitBEEFPayload (p : bytes) : option (bytes * option (list bytes)) :=
  if bool_decide (take 2 p = [0xBE; 0xEF]) then
    '(d, _) ← toy_DecodeBEEFRecord p; Some (rec_object d, Some (rec_topics d))
  else Some (p, None).

Definition toy_GroupAddr (prefix gid idx : Z) : bytes :=
  be_put 2 prefix ++ zeros 10 ++ be_put 2 gid ++ be_put 2 idx.

Definition toy_Claim (st : nat) (prefix : string) (id : bytes)
    (e : gset (nat * string * bytes)) : (bool * bool) * gset (nat * string * bytes) :=
  if decide ((st, prefix, id) ∈ e) then ((false, false), e)
  else ((true, false), {[ (st, prefix, id) ]} ∪ e).

#[export] Instance toy : ShardCommon := {|
  Decode := toy_Decode;
  DecodeBlock := toy_DecodeBlock;
  DecodeAnchor := toy_DecodeAnchor;
  DecodeSubtreeData := toy_DecodeSubtreeData;
  DecodeBEEF := toy_DecodeBEEF;
  EncodeFragment := toy_EncodeFragment;
  SubtreeDataPayloadHeaderSize := 24;
  BundleEncode := toy_BundleEncode;
  MemberOverhead := toy_MemberOverhead;
  FlagTxIDsPresent := 1;
  TxSize := toy_TxSize;
  IsEF tx := byte_at 1 tx =? 0xEF;
  TxID tx := Some (toy_hash tx);
  MulticastBytes := toy_MulticastBytes;
  DecodeBEEFRecord := toy_DecodeBEEFRecord;
  IsBEEFObject := toy_IsBEEFObject;
  BEEFMulticastRecord := toy_BEEFMulticastRecord;
  SplitBEEFPayload := toy_SplitBEEFPayload;
  TopicID := toy_hash;
  ContentID := toy_hash;
  BEEFRecordMaxEnvelope := 8 + 15 * 256;
  seqhash_Hash ip g sub := be_get (drop 24 (toy_hash (ip ++ be_put 4 g ++ sub)));
  Engine := Z;
  GroupIndex bits id := u16 (Z.shiftr (be_get (take 4 id)) (32 - bits));
  EngineAddr _ idx port := mkUDPAddr (toy_GroupAddr 0xFF05 0x000B idx) port "";
  ShardBits bits := bits;
  PlaneEngine := Z;
  PlaneGroupIndex bits id := 0x1000 + u8 (Z.shiftr (be_get (take 4 id)) (32 - bits));
  GroupAddr := toy_GroupAddr;
  CheckHeader hdr _ := byte_at 0 hdr =? 0;
  CompactToTarget bits := bits;
  Env := gset (nat * string * bytes);
  StoreId := nat;
  Claim := toy_Claim;
|}.
