(* ===== verification/Chains.v ===== *)
(** * Per-flow sequence counters (forwarder.go: chains, reserveSeq, nextSeq)

    The forwarder numbers every datagram of a flow (sender, group, subtree)
    from a 64-bit counter kept in a map striped over 64 locks.  [reserveSeq]
    is the sequential operation, [Flow] the abstract counter it implements,
    and [Concurrent] the two atomic sections a call really runs as. *)

From S2P Require Import Prelude Common.

(** ** Data *)

Record chainKey := mkChainKey { ck_ip : bytes; ck_grp : Z; ck_sub : bytes }.

#[export] Instance chainKey_eq_dec : EqDecision chainKey.
Proof. solve_decision. Defined.

#[export] Instance chainKey_countable : Countable chainKey.
Proof.
  apply (inj_countable' (λ k, (ck_ip k, ck_grp k, ck_sub k))
                        (λ t, mkChainKey t.1.1 t.1.2 t.2)).
  by intros [].
Defined.

Definition chainStripes : Z := 64.

(** One map from flow to counter per stripe. *)
Abbreviation Stripes := (list (gmap chainKey Z)).

(** FNV-1a over the address bytes ([hash/fnv] New32a). *)
Definition fnv32a (l : bytes) : Z :=
  fold_left (λ h b, u32 (Z.lxor h b * 16777619)) l 2166136261.

Definition stripeIndex (ip : bytes) : Z :=
  u8 (Z.land (fnv32a ip) (chainStripes - 1)).

Definition newStripes : Stripes := replicate (Z.to_nat chainStripes) ∅.

Section Reserve.
Context `{ShardCommon}.

(** [fw.reserveSeq]: resolve the flow's counter, creating it at zero, add
    [n] to it, and hand out the first of the [n] numbers. *)
Definition reserveSeq (cs : Stripes) (ip : bytes) (groupIdx : Z)
    (subtreeID : bytes) (n : Z) : (Z * Z) * Stripes :=
  let key := mkChainKey ip groupIdx subtreeID in
  let i := Z.to_nat (stripeIndex ip) in
  let m := default ∅ (cs !! i) in
  let m := match m !! key with Some _ => m | None => <[key := 0]> m end in
  let st := default 0 (m !! key) in
  let hashKey := seqhash_Hash ip groupIdx subtreeID in
  let added := u64 (st + u64 n) in
  ((hashKey, u64 (added - u64 n + 1)), <[i := <[key := added]> m]> cs).

Definition nextSeq (cs : Stripes) (ip : bytes) (groupIdx : Z)
    (subtreeID : bytes) : (Z * Z) * Stripes :=
  reserveSeq cs ip groupIdx subtreeID 1.

(** [k] successive [nextSeq] calls on one flow: the numbers handed out. *)
Fixpoint nextSeqs (k : nat) (cs : Stripes) (ip : bytes) (groupIdx : Z)
    (subtreeID : bytes) : list Z * Stripes :=
  match k with
  | O => ([], cs)
  | S k =>
      let r := nextSeq cs ip groupIdx subtreeID in
      let rest := nextSeqs k r.2 ip groupIdx subtreeID in
      (r.1.2 :: rest.1, rest.2)
  end.
End Reserve.
Arguments reserveSeq : simpl never.
Arguments nextSeq : simpl never.

(** ** Abstract counters *)

Module Flow.
(** The specification: a total map from flow to the last number used. *)
Definition t := chainKey → Z.
Definition reserve (c : t) (k : chainKey) (n : Z) : Z * t :=
  (u64 (c k + 1), λ k', if decide (k' = k) then u64 (c k + n) else c k').
End Flow.

(** The abstraction function: look a flow up in its own stripe. *)
Definition counter_of (cs : Stripes) (k : chainKey) : Z :=
  default 0 (default ∅ (cs !! Z.to_nat (stripeIndex (ck_ip k))) !! k).

(** The 64 stripes exist and counters are 64-bit. *)
Definition stripes_ok (cs : Stripes) : Prop :=
  length cs = Z.to_nat chainStripes ∧ ∀ k, 0 ≤ counter_of cs k < 2 ^ 64.

Lemma stripeIndex_range ip : 0 ≤ stripeIndex ip < chainStripes.
Proof.
  unfold stripeIndex, chainStripes. change (64 - 1) with (Z.ones 6).
  rewrite Z.land_ones by lia. pose proof (Z.mod_pos_bound (fnv32a ip) (2 ^ 6)).
  zlia.
Qed.

Lemma stripe_lt cs ip :
  stripes_ok cs → (Z.to_nat (stripeIndex ip) < length cs)%nat.
Proof. intros [-> _]. pose proof (stripeIndex_range ip). lia. Qed.

Lemma newStripes_ok : stripes_ok newStripes.
Proof.
  split; [done|]. intros k. unfold counter_of, newStripes.
  rewrite lookup_replicate_2 by (pose proof (stripeIndex_range (ck_ip k)); lia).
  simpl. rewrite lookup_empty. simpl. lia.
Qed.

Lemma newStripes_counter k : counter_of newStripes k = 0.
Proof.
  unfold counter_of, newStripes.
  rewrite lookup_replicate_2 by (pose proof (stripeIndex_range (ck_ip k)); lia).
  simpl. by rewrite lookup_empty.
Qed.

Section ReserveFacts.
Context `{ShardCommon}.
Implicit Types (cs : Stripes) (ip sub : bytes) (grp n : Z).

(** The striped map and the resolve step disappear: what is left of a
    reservation is the flow's own counter. *)
Lemma reserveSeq_unfold cs ip grp sub n :
  let key := mkChainKey ip grp sub in
  (reserveSeq cs ip grp sub n).1 =
    (seqhash_Hash ip grp sub,
     u64 (u64 (counter_of cs key + u64 n) - u64 n + 1)).
Proof.
  simpl. unfold reserveSeq, counter_of. simpl.
  destruct (default ∅ (cs !! _) !! mkChainKey ip grp sub) as [c|] eqn:E; simpl.
  - by rewrite E.
  - by rewrite lookup_insert_eq.
Qed.

Lemma reserveSeq_first cs ip grp sub n :
  (reserveSeq cs ip grp sub n).1.2 = u64 (counter_of cs (mkChainKey ip grp sub) + 1).
Proof. rewrite reserveSeq_unfold. simpl. zlia. Qed.

Lemma reserveSeq_hash cs ip grp sub n :
  (reserveSeq cs ip grp sub n).1.1 = seqhash_Hash ip grp sub.
Proof. by rewrite reserveSeq_unfold. Qed.

Lemma reserveSeq_counter cs ip grp sub n k :
  stripes_ok cs →
  counter_of (reserveSeq cs ip grp sub n).2 k =
    if decide (k = mkChainKey ip grp sub)
    then u64 (counter_of cs (mkChainKey ip grp sub) + n) else counter_of cs k.
Proof.
  intros Hok. pose proof (stripe_lt cs ip Hok) as Hlt.
  unfold reserveSeq, counter_of; simpl.
  set (m := default ∅ (cs !! Z.to_nat (stripeIndex ip))).
  set (key := mkChainKey ip grp sub).
  assert (Hsame : Z.to_nat (stripeIndex (ck_ip k)) = Z.to_nat (stripeIndex ip) →
    default ∅ (cs !! Z.to_nat (stripeIndex (ck_ip k))) = m) by (intros ->; done).
  case_decide as Hk.
  - subst k. simpl. rewrite list_lookup_insert_eq by done. simpl.
    rewrite lookup_insert_eq. simpl.
    destruct (m !! key) eqn:E; simpl; [rewrite E|rewrite lookup_insert_eq]; simpl; zlia.
  - destruct (decide (Z.to_nat (stripeIndex (ck_ip k)) = Z.to_nat (stripeIndex ip))) as [Hi|Hi].
    + rewrite (Hsame Hi), Hi, list_lookup_insert_eq by done. simpl.
      rewrite lookup_insert_ne by done.
      destruct (m !! key); [done|]. by rewrite lookup_insert_ne.
    + by rewrite list_lookup_insert_ne.
Qed.

Lemma reserveSeq_ok cs ip grp sub n :
  stripes_ok cs → stripes_ok (reserveSeq cs ip grp sub n).2.
Proof.
  intros Hok. split.
  - unfold reserveSeq. simpl. rewrite length_insert. apply Hok.
  - intros k. rewrite reserveSeq_counter by done.
    case_decide; [apply u64_range|apply Hok].
Qed.

Lemma nextSeqs_ok k cs ip grp sub :
  stripes_ok cs → stripes_ok (nextSeqs k cs ip grp sub).2.
Proof.
  revert cs. induction k as [|k IH]; intros cs Hok; [done|].
  cbn [nextSeqs snd]. by apply IH, reserveSeq_ok.
Qed.

Lemma nextSeqs_spec k cs ip grp sub :
  stripes_ok cs →
  let key := mkChainKey ip grp sub in
  (nextSeqs k cs ip grp sub).1 =
    (λ i, u64 (counter_of cs key + Z.of_nat i + 1)) <$> seq 0 k ∧
  ∀ k', counter_of (nextSeqs k cs ip grp sub).2 k' =
    if decide (k' = key) then u64 (counter_of cs key + Z.of_nat k) else counter_of cs k'.
Proof.
  intros Hok key. revert cs Hok. induction k as [|k IH]; intros cs Hok.
  { split; [done|]. intros k'. simpl. case_decide; [subst|done].
    rewrite Z.add_0_r. symmetry. apply u64_small, Hok. }
  cbn [nextSeqs fst snd]. unfold nextSeq.
  destruct (IH _ (reserveSeq_ok cs ip grp sub 1 Hok)) as [IHl IHc].
  rewrite reserveSeq_first. fold key.
  rewrite reserveSeq_counter, decide_True in IHl by done. fold key in IHl. split.
  - rewrite IHl. cbn [seq fmap list_fmap]. f_equal; [zlia|].
    rewrite <- seq_shift. change (map S) with (fmap (M:=list) S).
    rewrite <- list_fmap_compose. apply list_fmap_ext. intros i x _. simpl. zlia.
  - intros k'. rewrite IHc, !reserveSeq_counter by done. fold key.
    repeat case_decide; try done. zlia.
Qed.
End ReserveFacts.
#[export] Hint Resolve reserveSeq_ok nextSeqs_ok newStripes_ok : proxy.

(** ** Concurrent reservations

    A call of [reserveSeq] is two atomic sections: under the stripe's mutex it
    resolves the flow to a pointer to its counter (allocating one the first
    time), and later, without the mutex, it adds to the counter atomically.
    Calls of different workers interleave between the two. *)

Module Concurrent.
Record call := mkCall { c_key : chainKey; c_n : Z }.

(** A call before the lock, between the sections, and returned with the
    first number of its range. *)
Inductive pc := PStart (c : call) | PHold (p : nat) (c : call) | PDone (first : Z) (c : call).

Record state := mkState {
  ptrs : list (gmap chainKey nat);
  heap : gmap nat Z;
  pcs : list pc;
  log : list (call * Z) (* returned reservations, newest first *) }.

Definition resolve (m : list (gmap chainKey nat)) (k : chainKey) : option nat :=
  default ∅ (m !! Z.to_nat (stripeIndex (ck_ip k))) !! k.

Definition bind_ptr (m : list (gmap chainKey nat)) (k : chainKey) (p : nat) :=
  alter (<[k := p]>) (Z.to_nat (stripeIndex (ck_ip k))) m.

Inductive step : state → state → Prop :=
| step_call s c :
    0 < c_n c < 2 ^ 64 →
    step s (mkState (ptrs s) (heap s) (pcs s ++ [PStart c]) (log s))
| step_found s i c p :
    pcs s !! i = Some (PStart c) →
    resolve (ptrs s) (c_key c) = Some p →
    step s (mkState (ptrs s) (heap s) (<[i := PHold p c]> (pcs s)) (log s))
| step_create s i c p :
    pcs s !! i = Some (PStart c) →
    resolve (ptrs s) (c_key c) = None →
    heap s !! p = None →
    step s (mkState (bind_ptr (ptrs s) (c_key c) p) (<[p := 0]> (heap s))
                    (<[i := PHold p c]> (pcs s)) (log s))
| step_add s i c p v :
    pcs s !! i = Some (PHold p c) →
    heap s !! p = Some v →
    let v' := u64 (v + c_n c) in
    let first := u64 (v' - c_n c + 1) in
    step s (mkState (ptrs s) (<[p := v']> (heap s))
                    (<[i := PDone first c]> (pcs s)) ((c, first) :: log s)).

Definition init : state :=
  mkState (replicate (Z.to_nat chainStripes) ∅) ∅ [] [].

(** How many numbers the log has handed out on a flow. *)
Fixpoint used (l : list (call * Z)) (k : chainKey) : Z :=
  match l with
  | [] => 0
  | (c, _) :: l => (if decide (c_key c = k) then c_n c else 0) + used l k
  end.

Fixpoint log_ok (l : list (call * Z)) : Prop :=
  match l with
  | [] => True
  | (c, first) :: l => 0 < c_n c ∧ first = u64 (used l (c_key c) + 1) ∧ log_ok l
  end.

Definition pc_ok (m : list (gmap chainKey nat)) (q : pc) : Prop :=
  match q with
  | PStart c => 0 < c_n c < 2 ^ 64
  | PHold p c => 0 < c_n c < 2 ^ 64 ∧ resolve m (c_key c) = Some p
  | PDone _ _ => True
  end.

(** A flow's pointer is its own, and the counter behind it is what the log
    has handed out. *)
Record inv (s : state) : Prop := mkInv {
  inv_len : length (ptrs s) = Z.to_nat chainStripes;
  inv_heap k p : resolve (ptrs s) k = Some p → heap s !! p = Some (u64 (used (log s) k));
  inv_inj k k' p : resolve (ptrs s) k = Some p → resolve (ptrs s) k' = Some p → k = k';
  inv_fresh k : resolve (ptrs s) k = None → used (log s) k = 0;
  inv_pcs : Forall (pc_ok (ptrs s)) (pcs s);
  inv_log : log_ok (log s) }.

Lemma resolve_bind m k p k' :
  length m = Z.to_nat chainStripes →
  resolve (bind_ptr m k p) k' = if decide (k' = k) then Some p else resolve m k'.
Proof.
  intros Hlen. unfold resolve, bind_ptr. set (i := Z.to_nat (stripeIndex (ck_ip k))).
  assert (is_Some (m !! i)) as [g Hg].
  { apply lookup_lt_is_Some. pose proof (stripeIndex_range (ck_ip k)). lia. }
  destruct (decide (i = Z.to_nat (stripeIndex (ck_ip k')))) as [Hi|Hi].
  - rewrite <- Hi, list_lookup_alter_eq, Hg. simpl. rewrite lookup_insert.
    repeat case_decide; congruence.
  - rewrite list_lookup_alter_ne by done. case_decide; [subst; done|done].
Qed.

Lemma init_inv : inv init.
Proof.
  assert (Hnone : ∀ k, resolve (ptrs init) k = None).
  { intros k. unfold resolve, init. cbn [ptrs].
    rewrite lookup_replicate_2 by (pose proof (stripeIndex_range (ck_ip k)); lia).
    simpl. by rewrite lookup_empty. }
  split; try done; intros *; rewrite ?Hnone; done.
Qed.

Lemma pc_ok_bind m k p q :
  length m = Z.to_nat chainStripes → resolve m k = None →
  pc_ok m q → pc_ok (bind_ptr m k p) q.
Proof.
  destruct q as [c|p' c|f c]; simpl; [done| |done]. intros Hl Hn [? Hr].
  split; [done|]. rewrite resolve_bind by done. case_decide; congruence.
Qed.

Lemma used_cons_eq c f l k : c_key c = k → used ((c, f) :: l) k = c_n c + used l k.
Proof. intros. simpl. by rewrite decide_True. Qed.

Lemma used_cons_ne c f l k : c_key c ≠ k → used ((c, f) :: l) k = used l k.
Proof. intros. simpl. by rewrite decide_False. Qed.

Lemma inv_step_call s c :
  inv s → 0 < c_n c < 2 ^ 64 →
  inv (mkState (ptrs s) (heap s) (pcs s ++ [PStart c]) (log s)).
Proof.
  intros [] ?. split; simpl; auto. apply Forall_app. split; [done|].
  by constructor.
Qed.

Lemma inv_step_found s i c p :
  inv s → pcs s !! i = Some (PStart c) → resolve (ptrs s) (c_key c) = Some p →
  inv (mkState (ptrs s) (heap s) (<[i := PHold p c]> (pcs s)) (log s)).
Proof.
  intros [] Hi Hr. split; simpl; auto. apply Forall_insert; [done|].
  split; [|done]. by eapply Forall_lookup_1 in inv_pcs0; [|exact Hi].
Qed.

Lemma inv_step_create s i c p :
  inv s → pcs s !! i = Some (PStart c) → resolve (ptrs s) (c_key c) = None →
  heap s !! p = None →
  inv (mkState (bind_ptr (ptrs s) (c_key c) p) (<[p := 0]> (heap s))
               (<[i := PHold p c]> (pcs s)) (log s)).
Proof.
  intros [Hlen Hheap Hinj Hfresh Hpcs Hlog] Hi Hr Hp.
  assert (Hne : ∀ k q, resolve (ptrs s) k = Some q → q ≠ p).
  { intros k q Hk ->. apply Hheap in Hk. congruence. }
  split; simpl; auto.
  - unfold bind_ptr. by rewrite length_alter.
  - intros k q. rewrite resolve_bind by done. case_decide.
    + intros [= <-]. rewrite lookup_insert_eq. subst k. by rewrite Hfresh.
    + intros Hk. rewrite lookup_insert_ne by (symmetry; by eapply Hne). auto.
  - intros k k' q. rewrite !resolve_bind by done.
    repeat case_decide; intros; simplify_eq; try done.
    all: try (exfalso; by eapply Hne). eauto.
  - intros k. rewrite resolve_bind by done. case_decide; [done|auto].
  - apply Forall_insert.
    + eapply Forall_impl; [|exact Hpcs]. intros. by apply pc_ok_bind.
    + split; [by eapply Forall_lookup_1 in Hpcs; [|exact Hi]|].
      rewrite resolve_bind by done. by rewrite decide_True.
Qed.

Lemma inv_step_add s i c p v :
  inv s → pcs s !! i = Some (PHold p c) → heap s !! p = Some v →
  inv (mkState (ptrs s) (<[p := u64 (v + c_n c)]> (heap s))
    (<[i := PDone (u64 (u64 (v + c_n c) - c_n c + 1)) c]> (pcs s))
    ((c, u64 (u64 (v + c_n c) - c_n c + 1)) :: log s)).
Proof.
  intros [Hlen Hheap Hinj Hfresh Hpcs Hlog] Hi Hp.
  pose proof (Forall_lookup_1 _ _ _ _ Hpcs Hi) as [Hn Hr].
  pose proof (Hheap _ _ Hr) as Hv. rewrite Hp in Hv. simplify_eq.
  split; simpl ptrs; simpl heap; simpl pcs; simpl log; auto.
  - intros k q Hk. destruct (decide (c_key c = k)) as [E|E].
    + rewrite used_cons_eq by done. subst k. rewrite Hr in Hk. simplify_eq.
      rewrite lookup_insert_eq. f_equal. zlia.
    + rewrite used_cons_ne by done. rewrite lookup_insert_ne; [auto|].
      intros ->. eauto.
  - intros k Hk. rewrite used_cons_ne; [auto|]. congruence.
  - by apply Forall_insert.
  - simpl. split_and!; [lia| |done]. zlia.
Qed.

Lemma inv_reachable s : rtc step init s → inv s.
Proof.
  intros Hs. pose proof init_inv as Hi. revert Hi.
  induction Hs as [s|s1 s2 s3 H12 _ IH]; [done|]. intros Hinv. apply IH.
  destruct H12; eauto using inv_step_call, inv_step_found, inv_step_create, inv_step_add.
Qed.

Lemma used_nonneg l k : log_ok l → 0 ≤ used l k.
Proof.
  induction l as [|[c f] l IH]; simpl; [lia|]. intros (? & _ & ?).
  case_decide; specialize (IH ltac:(done)); lia.
Qed.

(** An older reservation of a flow lies below what the flow had used by the
    time of any newer one. *)
Lemma older_below l j c f :
  log_ok l → used l (c_key c) < 2 ^ 64 → l !! j = Some (c, f) →
  1 ≤ f ∧ f + c_n c ≤ used l (c_key c) + 1.
Proof.
  revert j. induction l as [|[c' f'] l IH]; intros j; [by rewrite lookup_nil|].
  simpl. intros (Hn & Hf & Hl) Hu Hj. pose proof (used_nonneg l (c_key c) Hl) as Hnn.
  destruct j as [|j]; simpl in Hj.
  - simplify_eq. rewrite decide_True in * by done.
    rewrite u64_small by lia. lia.
  - destruct (IH j Hl) as [??]; [case_decide; lia|done|]. case_decide; lia.
Qed.

Lemma newer_above l i j c1 f1 c2 f2 :
  log_ok l → used l (c_key c1) < 2 ^ 64 → c_key c1 = c_key c2 →
  (i < j)%nat → l !! i = Some (c1, f1) → l !! j = Some (c2, f2) →
  f2 + c_n c2 ≤ f1.
Proof.
  revert i j. induction l as [|[c f] l IH]; intros i j Hok Hu Hk Hij Hi Hj; [done|].
  destruct j as [|j]; [lia|]. simpl in Hok, Hu, Hj. destruct Hok as (Hn & Hf & Hl).
  pose proof (used_nonneg l (c_key c1) Hl) as Hnn.
  destruct i as [|i]; simpl in Hi.
  - simplify_eq. rewrite decide_True in Hu by done.
    destruct (older_below l j c2 f2 Hl) as [_ ?]; [by rewrite <- Hk; lia|done|].
    rewrite Hk in *. rewrite u64_small by lia. lia.
  - eapply (IH i j); eauto; [case_decide; lia|lia].
Qed.
End Concurrent.
