(* ===== verification/ChainsProps.v ===== *)
(** * Properties of the sequence counters

    The striped map implements one counter per flow, a batch reservation is
    the single reservations it stands for, and concurrent reservations of a
    flow never overlap. *)

From S2P Require Import Prelude Common Chains Toy.

Section Props.
Context `{ShardCommon}.

(** C11: the 64-stripe counter map is one abstract counter per (sender,
    group, subtree) flow.  A reservation of [n] numbers returns the flow's
    HashKey and the abstract first number, advances that flow's counter by
    [n] modulo 2^64, leaves every other flow alone (whether or not it shares
    the stripe), and keeps the stripes well formed. *)
Theorem reserveSeq_refines_flow cs ip grp sub n :
  stripes_ok cs →
  let '(first, c') := Flow.reserve (counter_of cs) (mkChainKey ip grp sub) n in
  (reserveSeq cs ip grp sub n).1 = (seqhash_Hash ip grp sub, first) ∧
  (∀ k, counter_of (reserveSeq cs ip grp sub n).2 k = c' k) ∧
  stripes_ok (reserveSeq cs ip grp sub n).2.
Proof.
  intros Hok. cbn [Flow.reserve]. split_and!.
  - rewrite reserveSeq_unfold. f_equal. zlia.
  - intros k. by apply reserveSeq_counter.
  - auto with proxy.
Qed.

(** Reserving [n] numbers at once is what [n] calls of nextSeq do: the
    [i]-th of them returned [first + i], and the counters of all flows end
    up the same. *)
Theorem reserveSeq_is_nextSeqs cs ip grp sub n :
  stripes_ok cs → 0 ≤ n < 2 ^ 64 →
  let r := reserveSeq cs ip grp sub n in
  let l := nextSeqs (Z.to_nat n) cs ip grp sub in
  l.1 = (λ i, u64 (r.1.2 + Z.of_nat i)) <$> seq 0 (Z.to_nat n) ∧
  ∀ k, counter_of l.2 k = counter_of r.2 k.
Proof.
  intros Hok Hn r l. unfold l, r.
  destruct (nextSeqs_spec (Z.to_nat n) cs ip grp sub Hok) as [-> Hc]. split.
  - rewrite reserveSeq_first. apply list_fmap_ext. intros i x _. simpl. zlia.
  - intros k. rewrite Hc, reserveSeq_counter, Z2Nat.id by (done || lia). done.
Qed.
End Props.

(** C12: reservations of one flow made by interleaved callers (each resolving
    the counter under the stripe lock and adding to it later, with any other
    caller's sections in between) are pairwise disjoint: as long as the flow
    has used fewer than 2^64 numbers, the earlier of two returned
    reservations ends before the later one begins, and every number handed
    out is at least 1. *)
Theorem concurrent_reservations_disjoint (s : Concurrent.state) i j c1 f1 c2 f2 :
  rtc Concurrent.step Concurrent.init s →
  Concurrent.used (Concurrent.log s) (Concurrent.c_key c1) < 2 ^ 64 →
  Concurrent.c_key c1 = Concurrent.c_key c2 → (i < j)%nat →
  Concurrent.log s !! i = Some (c1, f1) → Concurrent.log s !! j = Some (c2, f2) →
  1 ≤ f2 ∧ f2 + Concurrent.c_n c2 ≤ f1.
Proof.
  intros Hs Hu Hk Hij Hi Hj.
  pose proof (Concurrent.inv_log s (Concurrent.inv_reachable s Hs)) as Hl. split.
  - rewrite Hk in Hu. apply (Concurrent.older_below _ j c2 f2 Hl Hu Hj).
  - by eapply Concurrent.newer_above.
Qed.

(** ** Witnesses *)

Lemma reserveSeq_refines_flow_witness :
  (reserveSeq newStripes (zeros 16) 3 (zeros 32) 2).1.2 = 1 ∧
  counter_of (reserveSeq newStripes (zeros 16) 3 (zeros 32) 2).2
    (mkChainKey (zeros 16) 3 (zeros 32)) = 2.
Proof.
  pose proof (reserveSeq_refines_flow newStripes (zeros 16) 3 (zeros 32) 2 newStripes_ok)
    as (E & Hc & _).
  rewrite E, Hc. vm_compute. split; reflexivity.
Defined.

Lemma reserveSeq_is_nextSeqs_witness :
  (nextSeqs 3 newStripes (zeros 16) 3 (zeros 32)).1 = [1; 2; 3].
Proof.
  pose proof (reserveSeq_is_nextSeqs newStripes (zeros 16) 3 (zeros 32) 3 newStripes_ok
    ltac:(lia)) as [E _].
  change (Z.to_nat 3) with 3%nat in E. rewrite E. vm_compute. reflexivity.
Defined.

(** Two callers on one new flow: the second resolves the counter the first
    created before the first has added to it. *)
Definition race_key : chainKey := mkChainKey (zeros 16) 3 (zeros 32).
Definition race_a : Concurrent.call := Concurrent.mkCall race_key 2.
Definition race_b : Concurrent.call := Concurrent.mkCall race_key 5.

Definition race_end : Concurrent.state :=
  Concurrent.mkState (Concurrent.bind_ptr (Concurrent.ptrs Concurrent.init) race_key 0)
    (<[0%nat := 7]> (<[0%nat := 5]> (<[0%nat := 0]> ∅)))
    [Concurrent.PDone 6 race_a; Concurrent.PDone 1 race_b] [(race_a, 6); (race_b, 1)].

Lemma race_reachable : rtc Concurrent.step Concurrent.init race_end.
Proof.
  eapply rtc_l; [apply (Concurrent.step_call _ race_a); vm_compute; intuition discriminate|].
  eapply rtc_l; [apply (Concurrent.step_call _ race_b); vm_compute; intuition discriminate|].
  eapply rtc_l; [apply (Concurrent.step_create _ 0 race_a 0); vm_compute; reflexivity|].
  eapply rtc_l; [apply (Concurrent.step_found _ 1 race_b 0); vm_compute; reflexivity|].
  eapply rtc_l; [apply (Concurrent.step_add _ 1 race_b 0 0); vm_compute; reflexivity|].
  eapply rtc_l; [apply (Concurrent.step_add _ 0 race_a 0 5); vm_compute; reflexivity|].
  apply rtc_refl.
Qed.

Lemma concurrent_reservations_disjoint_witness : 1 ≤ 1 ∧ 1 + 5 ≤ 6.
Proof.
  apply (concurrent_reservations_disjoint race_end 0 1 race_a 6 race_b 1 race_reachable);
    vm_compute; reflexivity || lia.
Defined.
