(* ===== verification/BatchWriter.v ===== *)
(** * Batched datagram writes (egress.go: batchWriter, writeBatchAll)

    The kernel is a state machine behind [WriteBatch]: handed a batch it
    accepts some prefix and reports how many messages that was and possibly
    an error.  [writeBatchAll] re-submits the remainder until the batch is
    drained, an error is reported or no progress is made. *)

From S2P Require Import Prelude Common.

Record Message := mkMessage { msg_buf : bytes; msg_addr : UDPAddr }.

#[export] Instance Message_eq_dec : EqDecision Message.
Proof. solve_decision. Defined.

Inductive Errno := ENOBUFS | EAGAIN | EWOULDBLOCK | EINTR | EPERM | EADDRNOTAVAIL | EOther (code : Z).

#[export] Instance Errno_eq_dec : EqDecision Errno.
Proof. solve_decision. Defined.

(** The errors a batched write can end with: an errno, [errNoBatchProgress],
    or an error value that wraps no errno. *)
Inductive SendErr := ErrErrno (e : Errno) | ErrNoBatchProgress | ErrOpaque (msg : string).

#[export] Instance SendErr_eq_dec : EqDecision SendErr.
Proof. solve_decision. Defined.

(** The sockets of an egress: one per target interface, and the loopback
    sockets of its retry tee and its local mirror. *)
Inductive WriterId := WTarget (i : nat) | WTee | WMirror.

Class Kernel := {
  KState : Type;
  WriteBatch : WriterId → KState → list Message → (Z * option SendErr) * KState }.

(** What one [WriteBatch] result advances the drain by: nothing for a
    non-positive count, and never more than it was handed. *)
Definition batch_advance (n : Z) (ms : list Message) : Z :=
  if 0 <? n then (if Zlen ms <? n then Zlen ms else n) else 0.

Section WriteAll.
Context `{Kernel}.

(** The drain loop over the unsent remainder [ms]; the result counts from
    the start of [ms].  [fuel] bounds the iterations; the wrapper below gives
    it one more than the batch has messages, and every iteration that goes on
    has sent at least one. *)
Fixpoint writeBatchLoop (fuel : nat) (w : WriterId) (k : KState) (ms : list Message)
    : (Z * option SendErr) * KState :=
  match ms, fuel with
  | [], _ => ((0, None), k)
  | _, O => ((0, Some ErrNoBatchProgress), k)
  | _, S fuel =>
      let r := WriteBatch w k ms in
      let off := batch_advance r.1.1 ms in
      match r.1.2 with
      | Some err => ((off, Some err), r.2)
      | None =>
          if r.1.1 <=? 0 then ((off, Some ErrNoBatchProgress), r.2)
          else
            let rest := writeBatchLoop fuel w r.2 (drop (Z.to_nat off) ms) in
            ((off + rest.1.1, rest.1.2), rest.2)
      end
  end.

Definition writeBatchAll (w : WriterId) (k : KState) (ms : list Message)
    : (Z * option SendErr) * KState :=
  writeBatchLoop (S (length ms)) w k ms.

(** The datagrams the kernel accepted over the same run, in order. *)
Fixpoint writeBatchWire (fuel : nat) (w : WriterId) (k : KState) (ms : list Message)
    : list Message :=
  match ms, fuel with
  | [], _ => []
  | _, O => []
  | _, S fuel =>
      let r := WriteBatch w k ms in
      let off := batch_advance r.1.1 ms in
      take (Z.to_nat off) ms ++
      match r.1.2 with
      | Some _ => []
      | None => if r.1.1 <=? 0 then []
                else writeBatchWire fuel w r.2 (drop (Z.to_nat off) ms)
      end
  end.

Implicit Types (w : WriterId) (k : KState) (ms : list Message).

Lemma batch_advance_range n ms : 0 ≤ batch_advance n ms ≤ Zlen ms.
Proof. unfold batch_advance. pose proof (Zlen_nonneg ms). repeat case_match; lia. Qed.

Lemma batch_advance_pos n ms : ms ≠ [] → 0 < n → 0 < batch_advance n ms.
Proof.
  intros Hms Hn. unfold batch_advance. destruct ms; [done|].
  rewrite Zlen_cons. pose proof (Zlen_nonneg ms). repeat case_match; lia.
Qed.

Lemma length_drop_advance n ms :
  ms ≠ [] → 0 < n → (length (drop (Z.to_nat (batch_advance n ms)) ms) < length ms)%nat.
Proof.
  intros Hms Hn. pose proof (batch_advance_pos n ms Hms Hn).
  pose proof (batch_advance_range n ms). destruct ms; [done|].
  rewrite length_drop. simpl. lia.
Qed.

(** One unfolding of the loop on a non-empty batch. *)
Lemma writeBatchLoop_S fuel w k ms :
  ms ≠ [] →
  writeBatchLoop (S fuel) w k ms =
    let r := WriteBatch w k ms in
    let off := batch_advance r.1.1 ms in
    match r.1.2 with
    | Some err => ((off, Some err), r.2)
    | None =>
        if r.1.1 <=? 0 then ((off, Some ErrNoBatchProgress), r.2)
        else
          let rest := writeBatchLoop fuel w r.2 (drop (Z.to_nat off) ms) in
          ((off + rest.1.1, rest.1.2), rest.2)
    end.
Proof. by destruct ms. Qed.

Lemma writeBatchLoop_fuel f1 f2 w k ms :
  (length ms < f1)%nat → (length ms < f2)%nat →
  writeBatchLoop f1 w k ms = writeBatchLoop f2 w k ms.
Proof.
  revert f2 k ms. induction f1 as [|f1 IH]; intros [|f2] k ms H1 H2; try lia.
  destruct (decide (ms = [])) as [->|Hms]; [done|].
  rewrite !writeBatchLoop_S by done. cbv zeta.
  destruct (WriteBatch w k ms) as [[n [err|]] k']; simpl; [done|].
  destruct (n <=? 0) eqn:En; [done|].
  pose proof (length_drop_advance n ms Hms ltac:(lia)).
  by rewrite (IH f2) by lia.
Qed.

(** The loop's own equation, with no fuel in it. *)
Lemma writeBatchAll_unfold w k ms :
  ms ≠ [] →
  writeBatchAll w k ms =
    let r := WriteBatch w k ms in
    let off := batch_advance r.1.1 ms in
    match r.1.2 with
    | Some err => ((off, Some err), r.2)
    | None =>
        if r.1.1 <=? 0 then ((off, Some ErrNoBatchProgress), r.2)
        else
          let rest := writeBatchAll w r.2 (drop (Z.to_nat off) ms) in
          ((off + rest.1.1, rest.1.2), rest.2)
    end.
Proof.
  intros Hms. unfold writeBatchAll at 1. rewrite writeBatchLoop_S by done. cbv zeta.
  destruct (WriteBatch w k ms) as [[n [err|]] k']; simpl; [done|].
  destruct (n <=? 0) eqn:En; [done|].
  pose proof (length_drop_advance n ms Hms ltac:(lia)).
  unfold writeBatchAll. by rewrite (writeBatchLoop_fuel (length ms)
    (S (length (drop (Z.to_nat (batch_advance n ms)) ms)))) by lia.
Qed.

Lemma writeBatchAll_nil w k : writeBatchAll w k [] = ((0, None), k).
Proof. done. Qed.

(** Induction along a drain. *)
Lemma writeBatchAll_ind (P : KState → list Message → (Z * option SendErr) * KState → Prop) w :
  (∀ k, P k [] ((0, None), k)) →
  (∀ k ms err, ms ≠ [] → (WriteBatch w k ms).1.2 = Some err →
     P k ms ((batch_advance (WriteBatch w k ms).1.1 ms, Some err), (WriteBatch w k ms).2)) →
  (∀ k ms, ms ≠ [] → (WriteBatch w k ms).1.2 = None → (WriteBatch w k ms).1.1 ≤ 0 →
     P k ms ((0, Some ErrNoBatchProgress), (WriteBatch w k ms).2)) →
  (∀ k ms off r, ms ≠ [] → (WriteBatch w k ms).1.2 = None → 0 < (WriteBatch w k ms).1.1 →
     off = batch_advance (WriteBatch w k ms).1.1 ms →
     r = writeBatchAll w (WriteBatch w k ms).2 (drop (Z.to_nat off) ms) →
     P (WriteBatch w k ms).2 (drop (Z.to_nat off) ms) r →
     P k ms ((off + r.1.1, r.1.2), r.2)) →
  ∀ k ms, P k ms (writeBatchAll w k ms).
Proof.
  intros Hnil Herr Hstop Hgo k ms. remember (length ms) as n eqn:Hn.
  revert k ms Hn. induction n as [n IH] using lt_wf_ind. intros k ms ->.
  destruct (decide (ms = [])) as [->|Hms]; [apply Hnil|].
  rewrite writeBatchAll_unfold by done. cbv zeta.
  destruct ((WriteBatch w k ms).1.2) as [err|] eqn:Ee; [by apply Herr|].
  destruct (_ <=? 0) eqn:En.
  - replace (batch_advance _ ms) with 0; [apply Hstop; auto; lia|].
    unfold batch_advance. by rewrite (proj2 (Z.ltb_ge _ _)) by lia.
  - eapply Hgo; eauto; [lia|]. eapply IH; [|done].
    apply length_drop_advance; [done|lia].
Qed.

Lemma writeBatchAll_range w k ms : 0 ≤ (writeBatchAll w k ms).1.1 ≤ Zlen ms.
Proof.
  apply (writeBatchAll_ind (λ k ms r, 0 ≤ r.1.1 ≤ Zlen ms)); simpl; intros.
  - unfold Zlen. simpl. lia.
  - apply batch_advance_range.
  - pose proof (Zlen_nonneg ms0). lia.
  - subst off. pose proof (batch_advance_range (WriteBatch w k0 ms0).1.1 ms0).
    unfold Zlen in *. rewrite length_drop in *. lia.
Qed.

(** The error is nil exactly when the whole batch went out. *)
Lemma writeBatchAll_none w k ms :
  (writeBatchAll w k ms).1.2 = None → (writeBatchAll w k ms).1.1 = Zlen ms.
Proof.
  apply (writeBatchAll_ind (λ k ms r, r.1.2 = None → r.1.1 = Zlen ms)); simpl; try done.
  intros k0 ms0 off r Hms He Hn Hoff Hr IH Hnone. specialize (IH Hnone).
  pose proof (batch_advance_range (WriteBatch w k0 ms0).1.1 ms0).
  unfold Zlen in *. rewrite length_drop in *. lia.
Qed.

Lemma writeBatchLoop_nonneg fuel w k ms : 0 ≤ (writeBatchLoop fuel w k ms).1.1.
Proof.
  revert k ms. induction fuel as [|fuel IH]; intros k ms.
  { by destruct ms. }
  destruct (decide (ms = [])) as [->|Hms]; [done|].
  rewrite writeBatchLoop_S by done. cbv zeta.
  pose proof (batch_advance_range (WriteBatch w k ms).1.1 ms).
  repeat case_match; simpl; try lia. specialize (IH (WriteBatch w k ms).2
    (drop (Z.to_nat (batch_advance (WriteBatch w k ms).1.1 ms)) ms)). lia.
Qed.

Lemma writeBatchWire_prefix fuel w k ms :
  writeBatchWire fuel w k ms = take (Z.to_nat (writeBatchLoop fuel w k ms).1.1) ms.
Proof.
  revert k ms. induction fuel as [|fuel IH]; intros k ms.
  { by destruct ms. }
  destruct (decide (ms = [])) as [->|Hms]; [done|].
  rewrite writeBatchLoop_S by done.
  assert (writeBatchWire (S fuel) w k ms =
    take (Z.to_nat (batch_advance (WriteBatch w k ms).1.1 ms)) ms ++
    match (WriteBatch w k ms).1.2 with
    | Some _ => []
    | None => if (WriteBatch w k ms).1.1 <=? 0 then []
              else writeBatchWire fuel w (WriteBatch w k ms).2
                     (drop (Z.to_nat (batch_advance (WriteBatch w k ms).1.1 ms)) ms)
    end) as -> by (by destruct ms).
  cbv zeta. repeat case_match; simpl; rewrite ?app_nil_r; try done.
  rewrite IH, take_take_drop, Z2Nat.inj_add; [done| |apply writeBatchLoop_nonneg].
  apply batch_advance_range.
Qed.
End WriteAll.
Arguments writeBatchAll : simpl never.
#[export] Hint Resolve writeBatchAll_range : proxy.
