(* ===== verification/RetryTee.v ===== *)
(** * The retry tee (forwarder/retrytee.go)

    A tee copies the datagrams of an egress to a co-located socket.  [append]
    copies one datagram into the batch being built, [flush] hands the batch to
    the sender goroutine through a channel of [teeQueueDepth] batches and
    drops it when the channel is full or the tee closed, and the sender
    ([run_one], one batch of its loop) writes it.  Every datagram that is not
    sent is counted in [failed]. *)

From S2P Require Import Prelude Common BatchWriter.

Definition teeQueueDepth : Z := 64.
Definition teeBufSize : Z := 16 * 2 ^ 10.

(** One flush's copies, and how many pooled buffers hold them. *)
Record teeBatch := mkTeeBatch { tb_msgs : list Message; tb_bufs : Z }.

Record retryTee := mkTee {
  t_writer : WriterId;
  t_addr : UDPAddr;
  t_owned : bool;
  t_rec : bool;
  t_kind : string;
  t_failed : Z;
  t_logged : bool;
  t_msgs : list Message;      (* the batch being built *)
  t_bufs : Z;                 (* pooled buffers it holds *)
  t_out : Z;                  (* pooled buffers taken and not yet released *)
  t_started : bool;
  t_closed : bool;
  t_batches : list teeBatch }. (* the channel to the sender *)

#[export] Instance eta_retryTee : EtaExpand retryTee :=
  {| eta_of := λ x, mkTee (t_writer x) (t_addr x) (t_owned x) (t_rec x) (t_kind x)
       (t_failed x) (t_logged x) (t_msgs x) (t_bufs x) (t_out x) (t_started x)
       (t_closed x) (t_batches x) |}.

(** [newTee]: an empty tee over an open socket. *)
Definition newTee (w : WriterId) (addr : UDPAddr) (owned rec : bool) (kind : string) : retryTee :=
  mkTee w addr owned rec kind 0 false [] 0 0 false false [].

(** [append]: a copy of [raw], in a pooled buffer when it fits one. *)
Definition tee_append (raw : bytes) (t : retryTee) : retryTee :=
  let pooled := if Zlen raw <=? teeBufSize then 1 else 0 in
  t <| t_bufs ::= Z.add pooled |> <| t_out ::= Z.add pooled |>
    <| t_msgs ::= λ l, l ++ [mkMessage raw (t_addr t)] |>.

(** [missed]: count the unsent datagrams of a batch, log the first time. *)
Definition tee_missed (queued sent : Z) (t : retryTee) : retryTee * list Event :=
  let missed := Z.max (queued - sent) 0 in
  (t <| t_failed ::= λ f, u64 (f + u64 missed) |> <| t_logged := true |>,
   if t_rec t then [EvTeeFailed (t_kind t) missed] else []).

(** [release]: the batch's pooled buffers go back to the pool. *)
Definition tee_release (b : teeBatch) (t : retryTee) : retryTee :=
  t <| t_out ::= λ n, n - tb_bufs b |>.

(** [dropped]: a batch that was never sent. *)
Definition tee_dropped (b : teeBatch) (t : retryTee) : retryTee * list Event :=
  let r := tee_missed (Zlen (tb_msgs b)) 0 t in
  (tee_release b r.1, r.2).

(** [flush]. *)
Definition tee_flush (t : retryTee) : retryTee * list Event :=
  match t_msgs t with
  | [] => (t, [])
  | _ =>
      let b := mkTeeBatch (t_msgs t) (t_bufs t) in
      let t := t <| t_msgs := [] |> <| t_bufs := 0 |> in
      if t_closed t then tee_dropped b t
      else
        let t := t <| t_started := true |> in
        if Zlen (t_batches t) <? teeQueueDepth
        then (t <| t_batches ::= λ q, q ++ [b] |>, [])
        else tee_dropped b t
  end.

(** [close], up to the point where it waits for the sender: no batch is
    accepted any more.  The socket is closed once the sender is done. *)
Definition tee_close (t : retryTee) : retryTee := t <| t_closed := true |>.

Section Sender.
Context `{Kernel}.

(** One iteration of [run]: take a batch off the channel, write it, count
    what was not sent, release it. *)
Definition tee_run_one (k : KState) (t : retryTee) : option ((retryTee * list Event) * KState) :=
  match t_batches t with
  | [] => None
  | b :: q =>
      let t := t <| t_batches := q |> in
      if 0 <? Zlen (tb_msgs b) then
        let r := writeBatchAll (t_writer t) k (tb_msgs b) in
        let bad := match r.1.2 with Some _ => true | None => r.1.1 <? Zlen (tb_msgs b) end in
        let t' := if bad then tee_missed (Zlen (tb_msgs b)) r.1.1 t else (t, []) in
        Some ((tee_release b t'.1, t'.2), r.2)
      else Some ((tee_release b t, []), k)
  end.

(** What the sender's step put on the socket. *)
Definition tee_run_wire (k : KState) (t : retryTee) : list Message :=
  match t_batches t with
  | [] => []
  | b :: _ => take (Z.to_nat (writeBatchAll (t_writer t) k (tb_msgs b)).1.1) (tb_msgs b)
  end.
End Sender.

(** ** Executions

    The tee under an arbitrary interleaving of its users and its sender: the
    state, the datagrams written so far, the events, the kernel. *)

Inductive tee_op := OpAppend (raw : bytes) | OpFlush | OpRun | OpClose.

Record tee_run := mkRun {
  r_tee : retryTee; r_wire : list Message; r_events : list Event }.

Section Exec.
Context `{Kernel}.

Definition tee_step (op : tee_op) (r : tee_run * KState) : tee_run * KState :=
  let t := r_tee r.1 in
  match op with
  | OpAppend raw => (mkRun (tee_append raw t) (r_wire r.1) (r_events r.1), r.2)
  | OpFlush =>
      let f := tee_flush t in
      (mkRun f.1 (r_wire r.1) (r_events r.1 ++ f.2), r.2)
  | OpRun =>
      match tee_run_one r.2 t with
      | None => r (* the sender waits on an empty channel *)
      | Some s =>
          (mkRun s.1.1 (r_wire r.1 ++ tee_run_wire r.2 t) (r_events r.1 ++ s.1.2), s.2)
      end
  | OpClose => (mkRun (tee_close t) (r_wire r.1) (r_events r.1), r.2)
  end.

Definition tee_exec (ops : list tee_op) (r : tee_run * KState) : tee_run * KState :=
  fold_left (λ r op, tee_step op r) ops r.
End Exec.

(** The datagrams given to the tee by a list of operations, in order. *)
Definition tee_given (ops : list tee_op) : list bytes :=
  omap (λ op, match op with OpAppend raw => Some raw | _ => None end) ops.

(** Datagrams still on their way: in the channel, then in the batch being
    built. *)
Definition tee_inflight (t : retryTee) : list Message :=
  concat (tb_msgs <$> t_batches t) ++ t_msgs t.

(** ** Invariant

    [F] datagrams have failed.  What was written or is still on its way is
    what was given, in order, less the failed ones; the counter is [F]; and
    each pooled buffer out is held by a batch. *)

Definition batch_bufs (q : list teeBatch) : Z := foldr (λ b n, tb_bufs b + n) 0 q.

Record tee_inv (given : list bytes) (t : retryTee) (wire : list Message) (F : Z) : Prop := mkTeeInv {
  ti_order : sublist (msg_buf <$> wire ++ tee_inflight t) given;
  ti_count : Zlen given = Zlen wire + Zlen (tee_inflight t) + F;
  ti_failed : t_failed t = u64 F;
  ti_nonneg : 0 ≤ F;
  ti_bufs : t_out t = t_bufs t + batch_bufs (t_batches t) }.

Lemma batch_bufs_app q b : batch_bufs (q ++ [b]) = batch_bufs q + tb_bufs b.
Proof. induction q as [|a q IH]; simpl; lia. Qed.

Lemma tee_inv_new w addr owned rec kind : tee_inv [] (newTee w addr owned rec kind) [] 0.
Proof. by split. Qed.

Lemma tee_inv_append given t wire F raw :
  tee_inv given t wire F → tee_inv (given ++ [raw]) (tee_append raw t) wire F.
Proof.
  intros []. assert (Hin : tee_inflight (tee_append raw t) =
    tee_inflight t ++ [mkMessage raw (t_addr t)]) by (unfold tee_inflight; apply app_assoc).
  split; rewrite ?Hin; try done.
  - rewrite app_assoc, fmap_app. by apply sublist_app.
  - rewrite !Zlen_app. unfold Zlen in *. simpl. lia.
  - unfold tee_append. simpl. lia.
Qed.

Lemma tee_inflight_enqueue t b :
  t_msgs t = [] →
  tee_inflight (t <| t_batches ::= λ q, q ++ [b] |>) =
    concat (tb_msgs <$> t_batches t) ++ tb_msgs b.
Proof.
  intros Hm. unfold tee_inflight. simpl.
  rewrite Hm, (fmap_app tb_msgs), concat_app, app_nil_r. simpl. by rewrite app_nil_r.
Qed.

(** Handing the batch over moves its datagrams and buffers to the channel. *)
Lemma tee_inv_enqueue given t wire F st :
  tee_inv given t wire F →
  tee_inv given (t <| t_msgs := [] |> <| t_bufs := 0 |> <| t_started := st |>
    <| t_batches ::= λ q, q ++ [mkTeeBatch (t_msgs t) (t_bufs t)] |>) wire F.
Proof.
  intros []. assert (Hin := tee_inflight_enqueue
    (t <| t_msgs := [] |> <| t_bufs := 0 |> <| t_started := st |>)
    (mkTeeBatch (t_msgs t) (t_bufs t)) eq_refl).
  split; rewrite ?Hin; try done. simpl. rewrite batch_bufs_app. simpl. lia.
Qed.

(** Dropping a batch instead of queueing it fails its datagrams. *)
Lemma tee_inv_dropped given t wire F b :
  tee_inv given (t <| t_batches ::= λ q, q ++ [b] |>) wire F → t_msgs t = [] →
  tee_inv given (tee_dropped b t).1 wire (F + Zlen (tb_msgs b)).
Proof.
  intros [] Hm. pose proof (Zlen_nonneg (tb_msgs b)).
  rewrite tee_inflight_enqueue in * by done.
  assert (H2 : tee_inflight (tee_dropped b t).1 = concat (tb_msgs <$> t_batches t)).
  { unfold tee_inflight. simpl. by rewrite Hm, app_nil_r. }
  simpl in *. split; rewrite ?H2; simpl; try done.
  - etrans; [|exact ti_order0]. rewrite app_assoc, (fmap_app _ (_ ++ _)).
    by apply sublist_inserts_r.
  - rewrite !Zlen_app in *. lia.
  - rewrite ti_failed0. zlia.
  - lia.
  - rewrite batch_bufs_app in *. lia.
Qed.

Lemma tee_inv_flush given t wire F :
  tee_inv given t wire F → ∃ F', tee_inv given (tee_flush t).1 wire F'.
Proof.
  intros Hi. unfold tee_flush. destruct (t_msgs t) as [|m ms] eqn:Em; [by exists F|].
  rewrite <- Em. destruct (t_closed _).
  - eexists. apply tee_inv_dropped; [|done]. apply (tee_inv_enqueue _ _ _ _ (t_started t) Hi).
  - destruct (_ <? _).
    + exists F. apply (tee_inv_enqueue _ _ _ _ true Hi).
    + eexists. apply tee_inv_dropped; [|done]. apply (tee_inv_enqueue _ _ _ _ true Hi).
Qed.

Section Facts.
Context `{Kernel}.

Lemma tee_inv_run given k t wire F s :
  tee_inv given t wire F → tee_run_one k t = Some s →
  ∃ F', tee_inv given s.1.1 (wire ++ tee_run_wire k t) F'.
Proof.
  intros [] Hs. unfold tee_run_one, tee_run_wire in *.
  destruct (t_batches t) as [|b q] eqn:Eb; [done|].
  set (sent := (writeBatchAll (t_writer t) k (tb_msgs b)).1.1) in *.
  assert (Hsent : 0 ≤ sent ≤ Zlen (tb_msgs b)) by apply writeBatchAll_range.
  assert (Htake : Zlen (take (Z.to_nat sent) (tb_msgs b)) = sent).
  { unfold Zlen in *. rewrite length_take. lia. }
  assert (Hin : tee_inflight t = tb_msgs b ++ concat (tb_msgs <$> q) ++ t_msgs t).
  { unfold tee_inflight. rewrite Eb. simpl. by rewrite app_assoc. }
  rewrite Hin in *. exists (F + (Zlen (tb_msgs b) - sent)).
  assert (Hgen : ∀ t', t_batches t' = q → t_msgs t' = t_msgs t →
    t_failed t' = u64 (t_failed t + (Zlen (tb_msgs b) - sent)) →
    t_out t' = t_out t - tb_bufs b → t_bufs t' = t_bufs t →
    tee_inv given t' (wire ++ take (Z.to_nat sent) (tb_msgs b))
      (F + (Zlen (tb_msgs b) - sent))).
  { intros t' Hq Hm Hf Ho Hbufs. unfold tee_inflight in *. simpl in *.
    split; unfold tee_inflight; rewrite ?Hq, ?Hm, ?Hf, ?Ho, ?Hbufs; simpl; try lia.
    - etrans; [|exact ti_order0]. apply fmap_sublist. rewrite <- app_assoc.
      apply sublist_app; [done|]. apply sublist_app; [apply sublist_take|done].
    - rewrite !Zlen_app in *. lia.
    - rewrite ti_failed0. zlia. }
  destruct (0 <? Zlen (tb_msgs b)) eqn:Ez; injection Hs as <-; simpl.
  - destruct ((writeBatchAll (t_writer t) k (tb_msgs b)).1.2) eqn:Ee; simpl.
    + apply Hgen; simpl; try done. fold sent. zlia.
    + apply writeBatchAll_none in Ee. fold sent in Ee |- *.
      rewrite (proj2 (Z.ltb_ge _ _)) by lia. apply Hgen; simpl; try done.
      rewrite ti_failed0. zlia.
  - apply Hgen; simpl; try done. rewrite ti_failed0. zlia.
Qed.

Lemma tee_inv_step given op (r : tee_run * KState) F :
  tee_inv given (r_tee r.1) (r_wire r.1) F →
  ∃ F', tee_inv (given ++ tee_given [op]) (r_tee (tee_step op r).1) (r_wire (tee_step op r).1) F'.
Proof.
  intros Hi. destruct op as [raw| | |]; simpl; rewrite ?app_nil_r.
  - exists F. by apply tee_inv_append.
  - by eapply tee_inv_flush.
  - destruct (tee_run_one r.2 (r_tee r.1)) as [s|] eqn:Es; simpl; [|by exists F].
    by eapply tee_inv_run.
  - exists F. by destruct Hi.
Qed.

Lemma tee_given_cons op ops : tee_given (op :: ops) = tee_given [op] ++ tee_given ops.
Proof. by destruct op. Qed.

Lemma tee_inv_exec given ops (r : tee_run * KState) F :
  tee_inv given (r_tee r.1) (r_wire r.1) F →
  ∃ F', tee_inv (given ++ tee_given ops) (r_tee (tee_exec ops r).1) (r_wire (tee_exec ops r).1) F'.
Proof.
  revert given r F. induction ops as [|op ops IH]; intros given r F Hi.
  { exists F. by rewrite app_nil_r. }
  rewrite tee_given_cons, app_assoc. destruct (tee_inv_step given op r F Hi) as [F1 H1].
  exact (IH _ (tee_step op r) F1 H1).
Qed.

Lemma tee_queue_step op (r : tee_run * KState) :
  Zlen (t_batches (r_tee r.1)) ≤ teeQueueDepth →
  Zlen (t_batches (r_tee (tee_step op r).1)) ≤ teeQueueDepth.
Proof.
  intros Hq. destruct op; simpl; try done.
  - unfold tee_flush. destruct (t_msgs _); [done|]. destruct (t_closed _); [done|].
    simpl. destruct (_ <? _) eqn:E; [|done]. simpl in *. rewrite Zlen_app.
    unfold Zlen in *. simpl. lia.
  - unfold tee_run_one. destruct (t_batches _) as [|b q] eqn:E; simpl; [by rewrite E|].
    rewrite Zlen_cons in Hq. destruct (0 <? _); simpl; [|lia].
    destruct (match _ with Some _ => _ | None => _ end); simpl; lia.
Qed.

Lemma tee_queue_exec ops (r : tee_run * KState) :
  Zlen (t_batches (r_tee r.1)) ≤ teeQueueDepth →
  Zlen (t_batches (r_tee (tee_exec ops r).1)) ≤ teeQueueDepth.
Proof.
  revert r. induction ops as [|op ops IH]; intros r Hq; [done|].
  by apply (IH (tee_step op r)), tee_queue_step.
Qed.

(** Whatever the interleaving of append, flush, close and the sender, and
    whatever the socket does, the tee loses no datagram silently: what was
    written followed by what is still queued is a subsequence of what was
    appended, in order; the failure counter is exactly the number of appended
    datagrams that are neither written nor queued (modulo 2^64); at most 64
    batches wait for the sender; and every pooled buffer taken is held by a
    queued batch or the one being built. *)
Theorem tee_conservation w addr owned rec kind ops (k : KState) :
  let r := (tee_exec ops (mkRun (newTee w addr owned rec kind) [] [], k)).1 in
  let failed := Zlen (tee_given ops) - Zlen (r_wire r) - Zlen (tee_inflight (r_tee r)) in
  sublist (msg_buf <$> r_wire r ++ tee_inflight (r_tee r)) (tee_given ops) ∧
  0 ≤ failed ∧ t_failed (r_tee r) = u64 failed ∧
  Zlen (t_batches (r_tee r)) ≤ teeQueueDepth ∧
  t_out (r_tee r) = t_bufs (r_tee r) + batch_bufs (t_batches (r_tee r)).
Proof.
  intros r failed. set (r0 := (mkRun (newTee w addr owned rec kind) [] [], k)) in *.
  destruct (tee_inv_exec [] ops r0 0 (tee_inv_new w addr owned rec kind)) as [F' []].
  fold r in ti_order0, ti_count0, ti_failed0, ti_bufs0. simpl in ti_order0, ti_count0.
  replace failed with F' by lia. split_and!; try done. by apply tee_queue_exec.
Qed.
End Facts.
