(* ===== verification/Coal.v ===== *)
(** * The coalescing buffer (forwarder/coalesce.go: coalBuffer)

    During one receive batch an egress buffers eligible transactions per flow
    (sender, group, subtree), in arrival order, for packing into bundles at
    the end of the batch. *)

From S2P Require Import Prelude Common Chains.

Record coalBucket := mkCoalBucket {
  cb_ip : bytes; cb_group : Z; cb_subtree : bytes; cb_members : list Member }.

Record coalBuffer := mkCoalBuffer { c_buckets : list coalBucket; c_maxMembers : Z }.

#[export] Instance eta_coalBucket : EtaExpand coalBucket :=
  {| eta_of := λ x, mkCoalBucket (cb_ip x) (cb_group x) (cb_subtree x) (cb_members x) |}.
#[export] Instance eta_coalBuffer : EtaExpand coalBuffer :=
  {| eta_of := λ x, mkCoalBuffer (c_buckets x) (c_maxMembers x) |}.

Definition newCoalBuffer (maxMembers : Z) : coalBuffer :=
  mkCoalBuffer []
    (if (maxMembers <=? 0) || (BundleMaxMembers <? maxMembers) then BundleMaxMembers else maxMembers).

(** [add]: append to the flow's bucket, opening one at the end if the flow
    has none yet. *)
Fixpoint coal_add_bucket (ip : bytes) (group : Z) (subtree : bytes) (m : Member)
    (bs : list coalBucket) : list coalBucket :=
  match bs with
  | [] => [mkCoalBucket ip group subtree [m]]
  | b :: bs =>
      if (cb_group b =? group) && bytes_eqb (cb_ip b) ip && bytes_eqb (cb_subtree b) subtree
      then b <| cb_members ::= λ l, l ++ [m] |> :: bs
      else b :: coal_add_bucket ip group subtree m bs
  end.

Definition coal_add (ip : bytes) (group : Z) (subtree txid payload : bytes) (c : coalBuffer)
    : coalBuffer :=
  c <| c_buckets ::= coal_add_bucket ip group subtree (mkMember txid payload) |>.

Definition coal_reset (c : coalBuffer) : coalBuffer := c <| c_buckets := [] |>.

(** ** The buffer as a map from flow to its members *)

Definition bucket_key (b : coalBucket) : chainKey :=
  mkChainKey (cb_ip b) (cb_group b) (cb_subtree b).

Definition members_of (k : chainKey) (bs : list coalBucket) : list Member :=
  concat (cb_members <$> filter (λ b, bucket_key b = k) bs).

Definition coal_ok (c : coalBuffer) : Prop :=
  NoDup (bucket_key <$> c_buckets c) ∧ 1 ≤ c_maxMembers c ≤ BundleMaxMembers ∧
  Forall (λ b, cb_members b ≠ []) (c_buckets c).

Lemma newCoalBuffer_ok n : coal_ok (newCoalBuffer n).
Proof.
  split_and!; simpl; try constructor; unfold BundleMaxMembers.
  all: destruct (n <=? 0) eqn:?, (65535 <? n) eqn:?; simpl; lia.
Qed.

Lemma bucket_test b ip group subtree :
  (cb_group b =? group) && bytes_eqb (cb_ip b) ip && bytes_eqb (cb_subtree b) subtree = true
  ↔ bucket_key b = mkChainKey ip group subtree.
Proof.
  rewrite !andb_true_iff, Z.eqb_eq, !bytes_eqb_eq. unfold bucket_key.
  split; [by intros [[-> ->] ->]|by intros [=]].
Qed.

Lemma coal_add_bucket_keys ip g s m bs k :
  k ∈ bucket_key <$> coal_add_bucket ip g s m bs →
  k = mkChainKey ip g s ∨ k ∈ bucket_key <$> bs.
Proof.
  induction bs as [|b bs IH]; simpl.
  - rewrite list_elem_of_singleton. auto.
  - destruct (_ && _ && _); simpl; rewrite !elem_of_cons; intros [?|?]; auto.
    destruct (IH ltac:(done)); auto.
Qed.

Lemma coal_add_ok ip g s txid p c : coal_ok c → coal_ok (coal_add ip g s txid p c).
Proof.
  intros (Hnd & Hm & Hne). unfold coal_add, coal_ok. simpl. split_and!; try done; try lia.
  all: clear Hm; revert Hnd Hne; induction (c_buckets c) as [|b bs IH]; intros Hnd Hne; simpl.
  - apply NoDup_singleton.
  - apply list.NoDup_cons in Hnd as [Hb Hnd]. apply list.Forall_cons in Hne as [_ Hne].
    destruct (_ && _ && _) eqn:E; simpl; apply list.NoDup_cons; split; auto.
    intros [Hk|Hk]%coal_add_bucket_keys; [|done].
    apply not_true_iff_false in E. rewrite bucket_test in E. done.
  - by constructor.
  - apply list.NoDup_cons in Hnd as [_ Hnd]. apply list.Forall_cons in Hne as [Hb Hne].
    destruct (_ && _ && _); constructor; auto. simpl. by destruct (cb_members b).
Qed.

Lemma members_of_cons k b bs :
  members_of k (b :: bs) = (if decide (bucket_key b = k) then cb_members b else []) ++ members_of k bs.
Proof. unfold members_of. rewrite filter_cons. by case_decide. Qed.

Lemma members_of_fresh k bs : k ∉ bucket_key <$> bs → members_of k bs = [].
Proof.
  induction bs as [|b bs IH]; [done|]. rewrite members_of_cons.
  rewrite fmap_cons, not_elem_of_cons. intros [Hb Hbs]. rewrite decide_False by done.
  by rewrite IH.
Qed.

(** Appending extends the flow's member list at the end and changes no other
    flow's. *)
Lemma members_of_add ip g s m bs k :
  NoDup (bucket_key <$> bs) →
  members_of k (coal_add_bucket ip g s m bs) =
    members_of k bs ++ (if decide (k = mkChainKey ip g s) then [m] else []).
Proof.
  induction bs as [|b bs IH]; intros Hnd; simpl.
  - rewrite members_of_cons. unfold members_of. simpl.
    rewrite app_nil_r. repeat case_decide; unfold bucket_key in *; simpl in *; congruence.
  - apply list.NoDup_cons in Hnd as [Hb Hnd]. destruct (_ && _ && _) eqn:E; rewrite !members_of_cons.
    + apply bucket_test in E.
      change (bucket_key (mkCoalBucket _ _ _ (cb_members b ++ [m]))) with (bucket_key b).
      rewrite E in *. destruct (decide (k = mkChainKey ip g s)) as [->|Hne].
      * rewrite !decide_True, members_of_fresh, !app_nil_r by done. done.
      * rewrite !decide_False by congruence. by rewrite app_nil_r.
    + by rewrite IH, app_assoc.
Qed.

Lemma coal_reset_ok c : coal_ok c → coal_ok (coal_reset c).
Proof. intros (_ & Hm & _). split_and!; simpl; [constructor|lia|lia|constructor]. Qed.
