(* ===== verification/Egress.v ===== *)
(** * The egress queue (forwarder/egress.go)

    An [Egress] belongs to one worker: it queues outbound datagrams for every
    target interface in lock-step with their metadata, copies them to its
    tees, and writes them at the end of the batch, in line ([Flush]), through
    another transport ([FlushVia]) or on a sender goroutine. *)

From S2P Require Import Prelude Common Chains BatchWriter RetryTee Coal.

Definition maxGroupCache : Z := 2 ^ 13.
Definition addrCacheInit : Z := 64.
Definition maxReliableRetries : Z := 50.

(** Attributes of one queued datagram, shared by all targets. *)
Record msgMeta := mkMeta {
  mm_group : Z; mm_size : Z; mm_worker : Z; mm_label : string; mm_teeable : bool }.

#[export] Instance msgMeta_eq_dec : EqDecision msgMeta.
Proof. solve_decision. Defined.

(** The pool of fragment buffers: the size of a buffer, the buffers lying in
    the pool and the next one [New] would make. *)
Record Pool := mkPool { pool_size : Z; pool_free : list nat; pool_next : nat }.

#[export] Instance eta_Pool : EtaExpand Pool :=
  {| eta_of := λ x, mkPool (pool_size x) (pool_free x) (pool_next x) |}.

(** One flush's datagrams on their way to the sender goroutine. *)
Record egressBatch := mkBatch {
  eb_msgs : list (list Message); eb_meta : list msgMeta; eb_pooled : list nat }.

(** The sender goroutine's channels: batches to write and batches free. *)
Record senderQ := mkSenderQ { sq_send : list egressBatch; sq_free : list egressBatch; sq_depth : Z }.

#[export] Instance eta_senderQ : EtaExpand senderQ :=
  {| eta_of := λ x, mkSenderQ (sq_send x) (sq_free x) (sq_depth x) |}.

Record Egress := mkEgress {
  e_targets : list string;               (* interface names *)
  e_reliable : bool;
  e_msgs : list (list Message);          (* one queue per target *)
  e_meta : list msgMeta;
  e_pooled : list nat;
  e_tee : option retryTee;
  e_mirror : option retryTee;
  e_addrCache : list (list (option UDPAddr));
  e_pool : option Pool;
  e_coal : option coalBuffer;
  e_rec : bool;
  e_sendQ : option senderQ }.

#[export] Instance eta_Egress : EtaExpand Egress :=
  {| eta_of := λ x, mkEgress (e_targets x) (e_reliable x) (e_msgs x) (e_meta x) (e_pooled x)
       (e_tee x) (e_mirror x) (e_addrCache x) (e_pool x) (e_coal x) (e_rec x) (e_sendQ x) |}.

(** [NewEgress], given the forwarder settings it reads ([None]: no
    forwarder): the fragment data size, whether coalescing is on and its
    member bound. *)
Definition NewEgress (fw : option (Z * bool * Z)) (targets : list string) (batchHint : Z) (rec : bool)
    : Egress :=
  let batchHint := if batchHint <? 1 then 1 else batchHint in
  {| e_targets := targets;
     e_reliable := false;
     e_msgs := replicate (length targets) [];
     e_meta := [];
     e_pooled := [];
     e_tee := None;
     e_mirror := None;
     e_addrCache := replicate (length targets) (replicate (Z.to_nat addrCacheInit) None);
     e_pool := match fw with
               | Some (fragDataSize, _, _) =>
                   if 0 <? fragDataSize then Some (mkPool (HeaderSizeV3 + fragDataSize) [] 0) else None
               | None => None
               end;
     e_coal := match fw with
               | Some (_, true, maxMembers) =>
                   if 1 <? batchHint then Some (newCoalBuffer maxMembers) else None
               | _ => None
               end;
     e_rec := rec;
     e_sendQ := None |}.

Definition SetReliable (v : bool) (e : Egress) : Egress := e <| e_reliable := v |>.
Definition CoalArmed (e : Egress) : bool := match e_coal e with Some _ => true | None => false end.

Definition EnableRetryTee (addr : UDPAddr) (owned : bool) (e : Egress) : Egress :=
  e <| e_tee := Some (newTee WTee addr owned (e_rec e) "retry") |>.
Definition EnableLocalMirror (addr : UDPAddr) (owned : bool) (e : Egress) : Egress :=
  e <| e_mirror := Some (newTee WMirror addr owned (e_rec e) "mirror") |>.

(** [egrIface]: the interface a drop is counted against. *)
Definition egrIface (egr : option Egress) : string :=
  match egr with
  | Some e => match e_targets e with t :: _ => t | [] => "" end
  | None => ""
  end.

(** [PoolGet]: a buffer from the pool, or a new one; [None] with no pool. *)
Definition pool_get (p : Pool) : nat * Pool :=
  match pool_free p with
  | b :: l => (b, p <| pool_free := l |>)
  | [] => (pool_next p, p <| pool_next ::= S |>)
  end.

Definition PoolGet (e : Egress) : option nat * Egress :=
  match e_pool e with
  | None => (None, e)
  | Some p => let r := pool_get p in (Some r.1, e <| e_pool := Some r.2 |>)
  end.

Definition PoolPut (b : nat) (e : Egress) : Egress :=
  e <| e_pool ::= fmap (λ p, p <| pool_free ::= cons b |>) |>.

(** ** Enqueue *)

(** The growth loop of the address cache: double until [g] fits.  A group
    index below [maxGroupCache] fits after at most 13 doublings. *)
Fixpoint cache_double (fuel : nat) (n g : Z) : Z :=
  match fuel with
  | O => n
  | S fuel => if n <=? g then cache_double fuel (n * 2) g else n
  end.

Definition cache_grown (len g : Z) : Z :=
  let n := cache_double 14 (len * 2) g in
  if maxGroupCache <? n then maxGroupCache else n.

Definition grow_cache (g : Z) (cache : list (option UDPAddr)) : list (option UDPAddr) :=
  if Zlen cache <=? g
  then cache ++ replicate (Z.to_nat (cache_grown (Zlen cache) g) - length cache) None
  else cache.

(** One target's cache lookup for group [g], growing and filling it; that
    the grown cache covers [g] is checked by [enqueue_fits] below. *)
Definition cached_addr (g : Z) (dst : UDPAddr) (zone : string) (cache : list (option UDPAddr))
    : UDPAddr * list (option UDPAddr) :=
  let cache := grow_cache g cache in
  match cache !! Z.to_nat g with
  | Some (Some a) => (a, cache)
  | _ =>
      let a := mkUDPAddr (addr_ip dst) (addr_port dst) zone in
      (a, <[Z.to_nat g := Some a]> cache)
  end.

(** The per-target half of [enqueue]: the message appended to this target's
    queue, and its cache. *)
Definition enqueue_target (cacheable : bool) (g : Z) (raw : bytes) (dst : UDPAddr)
    (zone : string) (q : list Message) (cache : list (option UDPAddr))
    : list Message * list (option UDPAddr) :=
  if cacheable then
    let r := cached_addr g dst zone cache in
    (q ++ [mkMessage raw r.1], r.2)
  else (q ++ [mkMessage raw (mkUDPAddr (addr_ip dst) (addr_port dst) zone)], cache).

Fixpoint enqueue_targets (cacheable : bool) (g : Z) (raw : bytes) (dst : UDPAddr)
    (zones : list string) (qs : list (list Message)) (caches : list (list (option UDPAddr)))
    : list (list Message) * list (list (option UDPAddr)) :=
  match zones, qs, caches with
  | z :: zones, q :: qs, c :: caches =>
      let r := enqueue_target cacheable g raw dst z q c in
      let rest := enqueue_targets cacheable g raw dst zones qs caches in
      (r.1 :: rest.1, r.2 :: rest.2)
  | _, _, _ => (qs, caches)
  end.

(** [enqueue]: one datagram to every target, to the retry tee when the cache
    can answer for it and to the mirror when it is data. *)
Definition enqueue (raw : bytes) (dst : UDPAddr) (m : msgMeta) (pooled : option nat) (e : Egress)
    : Egress :=
  let isData := String.eqb (mm_label m) "" in
  let cacheable := isData && (mm_group m <? maxGroupCache) in
  let r := enqueue_targets cacheable (mm_group m) raw dst (e_targets e) (e_msgs e) (e_addrCache e) in
  e <| e_meta ::= λ l, l ++ [m] |>
    <| e_pooled ::= λ l, match pooled with Some p => l ++ [p] | None => l end |>
    <| e_tee ::= fmap (λ t, if mm_teeable m then tee_append raw t else t) |>
    <| e_mirror ::= fmap (λ t, if isData then tee_append raw t else t) |>
    <| e_msgs := r.1 |>
    <| e_addrCache := r.2 |>.

(** Whether every index the loop of [enqueue] takes is in range, for a
    datagram with this label and group: each target has a queue and, when the
    destination is cached, a cache that covers the group once grown.  Out of
    range Go panics, and so does the pipeline's use of [enqueue]. *)
Definition enqueue_fits (label : string) (g : Z) (e : Egress) : bool :=
  let cacheable := String.eqb label "" && (g <? maxGroupCache) in
  (length (e_targets e) <=? length (e_msgs e))%nat &&
  (negb cacheable ||
    (length (e_targets e) <=? length (e_addrCache e))%nat &&
    forallb (λ c, g <? Zlen (grow_cache g c)) (e_addrCache e)).

Definition EnqueueData (raw : bytes) (dst : UDPAddr) (g worker : Z) (e : Egress) : Egress :=
  enqueue raw dst (mkMeta g (Zlen raw) worker "" true) None e.
Definition EnqueueDataPooled (raw : bytes) (dst : UDPAddr) (g worker : Z) (b : nat) (e : Egress) : Egress :=
  enqueue raw dst (mkMeta g (Zlen raw) worker "" true) (Some b) e.
Definition EnqueueControl (raw : bytes) (dst : UDPAddr) (label : string) (worker : Z) (e : Egress) : Egress :=
  enqueue raw dst (mkMeta 0 (Zlen raw) worker label false) None e.
Definition EnqueueControlPooled (raw : bytes) (dst : UDPAddr) (label : string) (worker : Z) (b : nat) (e : Egress) : Egress :=
  enqueue raw dst (mkMeta 0 (Zlen raw) worker label false) (Some b) e.
Definition EnqueueCacheable (raw : bytes) (dst : UDPAddr) (label : string) (worker : Z) (e : Egress) : Egress :=
  enqueue raw dst (mkMeta 0 (Zlen raw) worker label true) None e.
Definition EnqueueCacheablePooled (raw : bytes) (dst : UDPAddr) (label : string) (worker : Z) (b : nat) (e : Egress) : Egress :=
  enqueue raw dst (mkMeta 0 (Zlen raw) worker label true) (Some b) e.

(** ** Flush *)

Definition meta_forwarded (iface : string) (m : msgMeta) : Event :=
  if String.eqb (mm_label m) "" then EvPacketForwarded iface (mm_worker m) (mm_group m) (mm_size m)
  else EvControlFrameForwarded (mm_label m).

Definition meta_dropped (iface : string) (m : msgMeta) : Event :=
  EvPacketDropped iface (mm_worker m) "write_error".

(** [recordMeta]: the metrics of one target's drain. *)
Definition recordMeta (rec : bool) (iface : string) (sent : Z) (err : option SendErr)
    (meta : list msgMeta) : list Event :=
  if rec then
    let sent := if sent <? 0 then 0 else if Zlen meta <? sent then Zlen meta else sent in
    (match err with Some _ => [EvEgressError iface 0] | None => [] end) ++
    (meta_forwarded iface <$> take (Z.to_nat sent) meta) ++
    (meta_dropped iface <$> drop (Z.to_nat sent) meta)
  else [].

Definition isTransientSendErr (err : SendErr) : bool :=
  match err with
  | ErrErrno (ENOBUFS | EAGAIN | EWOULDBLOCK | EINTR) => true
  | _ => false
  end.

Definition is_hard (err : option SendErr) : bool :=
  match err with
  | None | Some ErrNoBatchProgress => false
  | Some e => negb (isTransientSendErr e)
  end.

Section Flush.
Context `{Kernel}.

(** The retry loop of [flushReliable] over the unsent remainder: the number
    sent and the error the remainder was surrendered with. *)
Fixpoint reliableLoop (fuel : nat) (w : WriterId) (k : KState) (ms : list Message) (attempts : Z)
    : (Z * option SendErr) * KState :=
  match ms, fuel with
  | [], _ => ((0, None), k)
  | _, O => ((0, Some ErrNoBatchProgress), k)
  | _, S fuel =>
      let r := writeBatchAll w k ms in
      let sent := r.1.1 in
      let err := r.1.2 in
      let rest := drop (Z.to_nat sent) ms in
      let attempts := if 0 <? sent then 0 else attempts in
      if (0 <? sent) && (Zlen ms <=? sent) then ((sent, None), r.2)
      else if is_hard err then ((sent, err), r.2)
      else if maxReliableRetries <=? attempts
      then ((sent, Some (default ErrNoBatchProgress err)), r.2)
      else
        let r' := reliableLoop fuel w r.2 rest (attempts + 1) in
        ((sent + r'.1.1, r'.1.2), r'.2)
  end.

(** Iterations that are always enough: each one either sends a datagram or
    uses up one of the retries in a row. *)
Definition reliable_fuel (ms : list Message) (attempts : Z) : nat :=
  S (length ms * 51 + Z.to_nat (maxReliableRetries - attempts)).

Definition flushReliable (rec : bool) (w : WriterId) (iface : string) (k : KState)
    (msgs : list Message) (meta : list msgMeta) : list Event * KState :=
  let r := reliableLoop (reliable_fuel msgs 0) w k msgs 0 in
  (recordMeta rec iface r.1.1 r.1.2 meta, r.2).

(** The loop of [Flush] over the targets from index [i] on. *)
Fixpoint flushTargets (reliable rec : bool) (i : nat) (k : KState) (targets : list string)
    (qs : list (list Message)) (meta : list msgMeta) : list Event * KState :=
  match targets, qs with
  | iface :: targets, q :: qs =>
      let r :=
        match q with
        | [] => ([], k)
        | _ =>
            if reliable then flushReliable rec (WTarget i) iface k q meta
            else
              let w := writeBatchAll (WTarget i) k q in
              (recordMeta rec iface w.1.1 w.1.2 meta, w.2)
        end in
      let rest := flushTargets reliable rec (S i) r.2 targets qs meta in
      (r.1 ++ rest.1, rest.2)
  | _, _ => ([], k)
  end.

Definition flush_tee (t : option retryTee) : option retryTee * list Event :=
  match t with
  | Some t => let r := tee_flush t in (Some r.1, r.2)
  | None => (None, [])
  end.

(** Releasing the pooled buffers, in order. *)
Definition put_all (bufs : list nat) (p : option Pool) : option Pool :=
  fmap (λ p, p <| pool_free ::= λ free, rev bufs ++ free |>) p.

(** What every flush ends with: the tees are handed their batches, the
    pooled buffers go back, the queues are empty. *)
Definition flush_reset (e : Egress) : Egress * list Event :=
  let t := flush_tee (e_tee e) in
  let m := flush_tee (e_mirror e) in
  (e <| e_tee := t.1 |> <| e_mirror := m.1 |>
     <| e_msgs ::= fmap (λ _, []) |>
     <| e_pool ::= put_all (e_pooled e) |> <| e_pooled := [] |> <| e_meta := [] |>,
   t.2 ++ m.2).

(** [Flush] with no sender goroutine. *)
Definition FlushInline (k : KState) (e : Egress) : (Egress * list Event) * KState :=
  let r := flushTargets (e_reliable e) (e_rec e) 0 k (e_targets e) (e_msgs e) (e_meta e) in
  let s := flush_reset e in
  ((s.1, r.1 ++ s.2), r.2).

(** [flushToSender]: hand the queues over, taking those of a finished batch.
    [None]: no finished batch, the caller waits. *)
Definition flushToSender (q : senderQ) (e : Egress) : option (Egress * list Event) :=
  let t := flush_tee (e_tee e) in
  let m := flush_tee (e_mirror e) in
  let e := e <| e_tee := t.1 |> <| e_mirror := m.1 |> in
  match e_meta e with
  | [] => Some (e, t.2 ++ m.2)
  | _ =>
      match sq_free q with
      | [] => None
      | b :: free =>
          let handed := mkBatch (e_msgs e) (e_meta e) (e_pooled e) in
          Some (e <| e_msgs := eb_msgs b |> <| e_meta := eb_meta b |> <| e_pooled := eb_pooled b |>
                  <| e_sendQ := Some (q <| sq_free := free |> <| sq_send ::= λ l, l ++ [handed] |>) |>,
                t.2 ++ m.2)
      end
  end.

(** [Flush]. *)
Definition Flush (k : KState) (e : Egress) : option ((Egress * list Event) * KState) :=
  match e_sendQ e with
  | Some q => r ← flushToSender q e; Some (r, k)
  | None => Some (FlushInline k e)
  end.

(** One iteration of [sender]: write the oldest batch, release its buffers,
    return it empty. *)
Definition sender_one (k : KState) (e : Egress) : option ((Egress * list Event) * KState) :=
  q ← e_sendQ e;
  match sq_send q with
  | [] => None
  | b :: rest =>
      let r := flushTargets true (e_rec e) 0 k (e_targets e) (eb_msgs b) (eb_meta b) in
      let done := mkBatch ((λ _, []) <$> eb_msgs b) [] [] in
      Some ((e <| e_pool ::= put_all (eb_pooled b) |>
               <| e_sendQ := Some (q <| sq_send := rest |> <| sq_free ::= λ l, l ++ [done] |>) |>,
             r.1), r.2)
  end.

(** [StartSender] and [StopSender] (the latter once the queue is drained). *)
Definition StartSender (depth : Z) (e : Egress) : Egress :=
  let depth := if depth <? 1 then 1 else depth in
  e <| e_sendQ := Some (mkSenderQ []
         (replicate (S (Z.to_nat depth)) (mkBatch (replicate (length (e_targets e)) []) [] [])) depth) |>.

Definition StopSender (e : Egress) : Egress := e <| e_sendQ := None |>.
End Flush.

(** ** FlushVia *)

Section Via.
Context {V : Type} (via : nat → V → bytes → UDPAddr → option SendErr * V).

Fixpoint viaLoop (fuel : nat) (reliable : bool) (i : nat) (v : V) (ms : list Message) (attempts : Z)
    : (Z * option SendErr) * V :=
  match ms, fuel with
  | [], _ => ((0, None), v)
  | _, O => ((0, Some ErrNoBatchProgress), v)
  | m :: rest, S fuel =>
      let r := via i v (msg_buf m) (msg_addr m) in
      match r.1 with
      | None =>
          let r' := viaLoop fuel reliable i r.2 rest 0 in
          ((1 + r'.1.1, r'.1.2), r'.2)
      | Some err =>
          if negb reliable || (maxReliableRetries <=? attempts) then ((0, Some err), r.2)
          else viaLoop fuel reliable i r.2 (m :: rest) (attempts + 1)
      end
  end.

Fixpoint viaTargets (reliable rec : bool) (i : nat) (v : V) (targets : list string)
    (qs : list (list Message)) (meta : list msgMeta) : list Event * V :=
  match targets, qs with
  | iface :: targets, q :: qs =>
      let r := viaLoop (reliable_fuel q 0) reliable i v q 0 in
      let rest := viaTargets reliable rec (S i) r.2 targets qs meta in
      (recordMeta rec iface r.1.1 r.1.2 meta ++ rest.1, rest.2)
  | _, _ => ([], v)
  end.

Definition FlushVia (v : V) (e : Egress) : (Egress * list Event) * V :=
  let r := viaTargets (e_reliable e) (e_rec e) 0 v (e_targets e) (e_msgs e) (e_meta e) in
  let s := flush_reset e in
  ((s.1, r.1 ++ s.2), r.2).
End Via.
