(* ===== verification/EgressFacts.v ===== *)
(** * Facts about the egress queue

    Invariants of the queue and its address cache, the behaviour of
    [enqueue], and the retry loops of the flushes. *)

From S2P Require Import Prelude Common Chains BatchWriter RetryTee Coal Egress.

(** ** Lock-step queues *)

Record egress_ok (e : Egress) : Prop := mkEgressOk {
  eo_targets : length (e_msgs e) = length (e_targets e);
  eo_lockstep : Forall (λ q : list Message, length q = length (e_meta e)) (e_msgs e);
  eo_caches : length (e_addrCache e) = length (e_targets e);
  eo_cache_len : Forall (λ c : list (option UDPAddr), 0 < Zlen c) (e_addrCache e) }.

Lemma NewEgress_ok fw targets hint rec : egress_ok (NewEgress fw targets hint rec).
Proof.
  split; simpl; rewrite ?length_replicate; auto using Forall_replicate.
  by apply Forall_replicate.
Qed.

Lemma enqueue_targets_length cacheable g raw dst zones qs caches :
  length (enqueue_targets cacheable g raw dst zones qs caches).1 = length qs ∧
  length (enqueue_targets cacheable g raw dst zones qs caches).2 = length caches.
Proof.
  revert qs caches. induction zones as [|z zones IH]; intros [|q qs] [|c caches]; try done.
  simpl. destruct (IH qs caches). lia.
Qed.

Lemma cached_addr_len g dst z c : 0 < Zlen c → 0 < Zlen (cached_addr g dst z c).2.
Proof.
  intros Hc. unfold cached_addr. cbv zeta.
  set (c' := grow_cache g c). assert (0 < Zlen c').
  { unfold c', grow_cache. destruct (_ <=? _); [|done]. rewrite Zlen_app. auto with proxy.
    pose proof (Zlen_nonneg (replicate (Z.to_nat (cache_grown (Zlen c) g) - length c)
      (@None UDPAddr))). lia. }
  unfold Zlen in *. repeat case_match; simpl; rewrite ?length_insert; lia.
Qed.

Lemma enqueue_targets_cache_len cacheable g raw dst zones qs caches :
  Forall (λ c : list (option UDPAddr), 0 < Zlen c) caches →
  Forall (λ c : list (option UDPAddr), 0 < Zlen c)
    (enqueue_targets cacheable g raw dst zones qs caches).2.
Proof.
  intros Hc. revert qs zones. induction Hc as [|c caches Hc Hcs IH]; intros [|q qs] [|z zones];
    simpl; try by constructor.
  constructor; [|apply IH]. unfold enqueue_target. destruct cacheable; [|done].
  by apply cached_addr_len.
Qed.

(** Every target's queue grows by one message. *)
Lemma enqueue_targets_grow cacheable g raw dst zones qs caches n :
  length qs = length zones → length caches = length zones →
  Forall (λ q : list Message, length q = n) qs →
  Forall (λ q : list Message, length q = S n) (enqueue_targets cacheable g raw dst zones qs caches).1.
Proof.
  revert qs caches. induction zones as [|z zones IH]; intros [|q qs] [|c caches] Hq Hc Hn;
    simplify_eq/=; [constructor|].
  apply list.Forall_cons in Hn as [Hq0 Hn]. constructor; [|by apply IH].
  unfold enqueue_target. destruct cacheable; simpl; rewrite length_app; simpl; lia.
Qed.

Lemma enqueue_ok raw dst m pooled e : egress_ok e → egress_ok (enqueue raw dst m pooled e).
Proof.
  intros []. unfold enqueue. split; simpl.
  - by rewrite (proj1 (enqueue_targets_length _ _ _ _ _ _ _)).
  - rewrite length_app, Nat.add_comm. simpl. apply enqueue_targets_grow; congruence || done.
  - by rewrite (proj2 (enqueue_targets_length _ _ _ _ _ _ _)).
  - by apply enqueue_targets_cache_len.
Qed.

Lemma flush_reset_ok e : egress_ok e → egress_ok (flush_reset e).1.
Proof.
  intros []. split; simpl; rewrite ?length_fmap; auto.
  rewrite Forall_fmap. by apply Forall_true.
Qed.

(** ** The address cache *)

Definition with_zone (a : UDPAddr) (z : string) : UDPAddr :=
  mkUDPAddr (addr_ip a) (addr_port a) z.

(** The cache of the target with zone [z] holds only addresses [D] gives. *)
Definition cache_coh (D : Z → UDPAddr) (z : string) (c : list (option UDPAddr)) : Prop :=
  ∀ g a, c !! g = Some (Some a) → a = with_zone (D (Z.of_nat g)) z.

Definition caches_coh (D : Z → UDPAddr) (e : Egress) : Prop :=
  Forall2 (cache_coh D) (e_targets e) (e_addrCache e).

Lemma cache_double_gt fuel n g : 0 < n → g < n * 2 ^ Z.of_nat fuel → g < cache_double fuel n g.
Proof.
  revert n. induction fuel as [|fuel IH]; intros n Hn Hg; simpl.
  - rewrite Z.mul_1_r in Hg. lia.
  - destruct (n <=? g) eqn:E; [|lia]. apply IH; [lia|].
    rewrite Nat2Z.inj_succ, Z.pow_succ_r in Hg by lia. lia.
Qed.

(** The doubling loop has enough fuel: the grown cache covers the index. *)
Lemma cache_grown_covers len g : 0 < len → 0 ≤ g < maxGroupCache → g < cache_grown len g.
Proof.
  unfold cache_grown, maxGroupCache. intros Hl Hg.
  pose proof (cache_double_gt 14 (len * 2) g ltac:(lia)) as Hd.
  change (2 ^ Z.of_nat 14) with 16384 in Hd. specialize (Hd ltac:(lia)).
  destruct (_ <? _); lia.
Qed.

Lemma grow_cache_covers g c : 0 < Zlen c → 0 ≤ g < maxGroupCache → g < Zlen (grow_cache g c).
Proof.
  intros Hc Hg. unfold grow_cache. destruct (Z.leb_spec (Zlen c) g) as [Hle|]; [|lia].
  rewrite Zlen_app. unfold Zlen at 2. rewrite length_replicate.
  pose proof (cache_grown_covers (Zlen c) g Hc Hg). unfold Zlen in *. lia.
Qed.

(** Queues in lock-step and caches that are not empty keep every index of
    [enqueue] in range. *)
Lemma enqueue_fits_ok label g e : egress_ok e → 0 ≤ g → enqueue_fits label g e = true.
Proof.
  intros [Ht _ Hn Hc] Hg. unfold enqueue_fits. rewrite Ht, Hn, Nat.leb_refl. cbn [andb].
  destruct (String.eqb label ""); [|done]. destruct (Z.ltb_spec g maxGroupCache); [|done]. cbn [andb negb orb].
  clear Hn. induction Hc as [|c cs Hc _ IH]; [done|]. cbn [forallb]. rewrite IH, andb_true_r.
  apply Z.ltb_lt, grow_cache_covers; lia.
Qed.

Lemma cached_addr_spec D g dst z c :
  cache_coh D z c → 0 < Zlen c → 0 ≤ g < maxGroupCache → with_zone dst z = with_zone (D g) z →
  (cached_addr g dst z c).1 = with_zone dst z ∧ cache_coh D z (cached_addr g dst z c).2.
Proof.
  intros Hcoh Hlen Hg Hd. unfold cached_addr. cbv zeta.
  set (c' := grow_cache g c).
  assert (Hcoh' : cache_coh D z c').
  { unfold c', grow_cache. destruct (_ <=? _); [|done]. intros i a Hi.
    apply lookup_app_Some in Hi as [Hi|[_ Hi]]; [by apply Hcoh|].
    by apply lookup_replicate in Hi as [[=] _]. }
  assert (Hin : (Z.to_nat g < length c')%nat).
  { pose proof (grow_cache_covers g c Hlen Hg) as Hcov. fold c' in Hcov. unfold Zlen in Hcov. lia. }
  destruct (c' !! Z.to_nat g) as [[a|]|] eqn:E; simpl.
  - apply Hcoh' in E as ->. rewrite Z2Nat.id by lia. by rewrite Hd.
  - split; [done|]. intros i a Hi. destruct (decide (i = Z.to_nat g)) as [->|Hne].
    + rewrite list_lookup_insert_eq in Hi by done. injection Hi as <-.
      rewrite Z2Nat.id by lia. exact Hd.
    + rewrite list_lookup_insert_ne in Hi by done. by apply Hcoh'.
  - apply lookup_ge_None in E. lia.
Qed.

Lemma enqueue_targets_spec D cacheable g raw dst zones qs caches :
  Forall2 (cache_coh D) zones caches → Forall (λ c : list (option UDPAddr), 0 < Zlen c) caches →
  length qs = length zones →
  (cacheable = true → 0 ≤ g < maxGroupCache ∧ ∀ z, with_zone dst z = with_zone (D g) z) →
  (enqueue_targets cacheable g raw dst zones qs caches).1 =
    zip_with (λ z q, q ++ [mkMessage raw (with_zone dst z)]) zones qs ∧
  Forall2 (cache_coh D) zones (enqueue_targets cacheable g raw dst zones qs caches).2.
Proof.
  intros Hcoh. revert qs. induction Hcoh as [|z c zones caches Hc Hcs IH]; intros [|q qs] Hl Hq Hd;
    simplify_eq/=; [by split|].
  apply list.Forall_cons in Hl as [Hlc Hl]. destruct (IH qs Hl ltac:(done) Hd) as [IH1 IH2].
  unfold enqueue_target. destruct cacheable; simpl.
  - destruct (Hd eq_refl) as [Hg Hz]. destruct (cached_addr_spec D g dst z c) as [E1 E2]; auto.
    rewrite E1, IH1. split; [done|by constructor].
  - rewrite IH1. split; [done|by constructor].
Qed.

(** A datagram whose destination is what [D] says of its group, or a control
    datagram, which the cache never serves. *)
Definition dst_ok (D : Z → UDPAddr) (dst : UDPAddr) (m : msgMeta) : Prop :=
  mm_label m = "" → 0 ≤ mm_group m ∧ ∀ z, with_zone dst z = with_zone (D (mm_group m)) z.

Lemma enqueue_spec D raw dst m pooled e :
  egress_ok e → caches_coh D e → dst_ok D dst m →
  e_msgs (enqueue raw dst m pooled e) =
    zip_with (λ z q, q ++ [mkMessage raw (with_zone dst z)]) (e_targets e) (e_msgs e) ∧
  caches_coh D (enqueue raw dst m pooled e).
Proof.
  intros Hok Hcoh Hdst. destruct Hok. 
  apply (enqueue_targets_spec D (String.eqb (mm_label m) "" && (mm_group m <? maxGroupCache))
    (mm_group m) raw dst (e_targets e) (e_msgs e) (e_addrCache e)); try done.
  intros [Hs Hg]%andb_true_iff. apply String.eqb_eq in Hs. destruct (Hdst Hs). split; [lia|done].
Qed.

Lemma NewEgress_coh D fw targets hint rec : caches_coh D (NewEgress fw targets hint rec).
Proof.
  unfold caches_coh. cbn [NewEgress e_targets e_addrCache].
  induction targets as [|t targets IH]; cbn [length replicate]; constructor; [|done].
  intros g a Ha. by apply lookup_replicate in Ha as [[=] _].
Qed.

(** ** The reliable retry loop *)

Section Reliable.
Context `{Kernel}.
Implicit Types (w : WriterId) (k : KState) (ms : list Message) (a : Z).

Lemma reliableLoop_S fuel w k ms a :
  ms ≠ [] →
  reliableLoop (S fuel) w k ms a =
    let r := writeBatchAll w k ms in
    let a' := if 0 <? r.1.1 then 0 else a in
    if (0 <? r.1.1) && (Zlen ms <=? r.1.1) then ((r.1.1, None), r.2)
    else if is_hard r.1.2 then ((r.1.1, r.1.2), r.2)
    else if maxReliableRetries <=? a'
    then ((r.1.1, Some (default ErrNoBatchProgress r.1.2)), r.2)
    else
      let r' := reliableLoop fuel w r.2 (drop (Z.to_nat r.1.1) ms) (a' + 1) in
      ((r.1.1 + r'.1.1, r'.1.2), r'.2).
Proof. by destruct ms. Qed.

(** An iteration that goes on has spent fuel it had. *)
Lemma reliable_fuel_step w k ms a fuel :
  ms ≠ [] → 0 ≤ a ≤ maxReliableRetries → (reliable_fuel ms a ≤ S fuel)%nat →
  let r := writeBatchAll w k ms in
  let a' := if 0 <? r.1.1 then 0 else a in
  a' < maxReliableRetries →
  (reliable_fuel (drop (Z.to_nat r.1.1) ms) (a' + 1) ≤ fuel)%nat ∧
  0 ≤ a' + 1 ≤ maxReliableRetries.
Proof.
  unfold reliable_fuel, maxReliableRetries. intros Hms Ha Hf. cbv zeta.
  pose proof (writeBatchAll_range w k ms) as Hr. unfold Zlen in Hr.
  rewrite length_drop. destruct (0 <? _) eqn:E; intros Ha'; split; lia.
Qed.

Lemma reliableLoop_fuel f1 f2 w k ms a :
  0 ≤ a ≤ maxReliableRetries →
  (reliable_fuel ms a ≤ f1)%nat → (reliable_fuel ms a ≤ f2)%nat →
  reliableLoop f1 w k ms a = reliableLoop f2 w k ms a.
Proof.
  revert f2 k ms a. induction f1 as [|f1 IH]; intros [|f2] k ms a Ha H1 H2;
    try (unfold reliable_fuel in *; lia).
  destruct (decide (ms = [])) as [->|Hms]; [done|].
  rewrite !reliableLoop_S by done. cbv zeta.
  set (r := writeBatchAll w k ms). set (a' := if 0 <? r.1.1 then 0 else a).
  destruct (_ && _); [done|]. destruct (is_hard _); [done|].
  destruct (maxReliableRetries <=? a') eqn:Ea; [done|].
  destruct (reliable_fuel_step w k ms a f1) as [Hf1 Ha1]; auto; [fold r a'; lia|].
  destruct (reliable_fuel_step w k ms a f2) as [Hf2 _]; auto; [fold r a'; lia|].
  by rewrite (IH f2).
Qed.

(** Induction along a run of the loop, whatever the writer does. *)
Lemma reliableLoop_ind (P : KState → list Message → Z → (Z * option SendErr) * KState → Prop) w :
  (∀ k a, P k [] a ((0, None), k)) →
  (∀ k ms a, ms ≠ [] → (writeBatchAll w k ms).1.1 = Zlen ms →
     P k ms a ((Zlen ms, None), (writeBatchAll w k ms).2)) →
  (∀ k ms a err, ms ≠ [] → (writeBatchAll w k ms).1.1 < Zlen ms →
     (is_hard (Some err) = true ∨ maxReliableRetries ≤ (if 0 <? (writeBatchAll w k ms).1.1 then 0 else a)) →
     P k ms a (((writeBatchAll w k ms).1.1, Some err), (writeBatchAll w k ms).2)) →
  (∀ k ms a a' r, ms ≠ [] → (writeBatchAll w k ms).1.1 < Zlen ms →
     is_hard (writeBatchAll w k ms).1.2 = false →
     a' = (if 0 <? (writeBatchAll w k ms).1.1 then 0 else a) → a' < maxReliableRetries →
     P (writeBatchAll w k ms).2 (drop (Z.to_nat (writeBatchAll w k ms).1.1) ms) (a' + 1) r →
     P k ms a (((writeBatchAll w k ms).1.1 + r.1.1, r.1.2), r.2)) →
  ∀ fuel k ms a, 0 ≤ a ≤ maxReliableRetries → (reliable_fuel ms a ≤ fuel)%nat →
    P k ms a (reliableLoop fuel w k ms a).
Proof.
  intros Hnil Hall Hstop Hgo. induction fuel as [|fuel IH]; intros k ms a Ha Hf;
    [unfold reliable_fuel in Hf; lia|].
  destruct (decide (ms = [])) as [->|Hms]; [apply Hnil|].
  rewrite reliableLoop_S by done. cbv zeta.
  pose proof (writeBatchAll_range w k ms) as Hr.
  pose proof (writeBatchAll_none w k ms) as Hnone.
  assert (0 < Zlen ms) by (destruct ms; [done|unfold Zlen; simpl; lia]).
  destruct (0 <? _) eqn:Ep, (Zlen ms <=? _) eqn:Efull; simpl; try lia.
  { replace ((writeBatchAll w k ms).1.1) with (Zlen ms) by lia. apply Hall; [done|lia]. }
  all: destruct (is_hard _) eqn:Ehard.
  all: try (destruct ((writeBatchAll w k ms).1.2) as [err|] eqn:Ee; [|done];
            apply Hstop; [done|lia|by left]).
  - apply (Hgo k ms a 0); [done|lia|done|by rewrite Ep|done|].
    apply IH; [unfold maxReliableRetries; lia|].
    pose proof (reliable_fuel_step w k ms a fuel Hms Ha Hf) as Hs. cbv zeta in Hs.
    rewrite Ep in Hs. by apply Hs.
  - destruct (maxReliableRetries <=? a) eqn:Ea.
    + apply Hstop; [done|lia|]. right. rewrite Ep. lia.
    + apply (Hgo k ms a a); [done|lia|done|by rewrite Ep|lia|].
      pose proof (reliable_fuel_step w k ms a fuel Hms Ha Hf) as Hs. cbv zeta in Hs.
      rewrite Ep in Hs. apply IH; apply Hs; lia.
Qed.

Lemma reliableLoop_spec fuel w k ms a :
  0 ≤ a ≤ maxReliableRetries → (reliable_fuel ms a ≤ fuel)%nat →
  let r := (reliableLoop fuel w k ms a).1 in
  0 ≤ r.1 ≤ Zlen ms ∧ (r.2 = None ↔ r.1 = Zlen ms).
Proof.
  apply (reliableLoop_ind (λ k ms a r, 0 ≤ r.1.1 ≤ Zlen ms ∧ (r.1.2 = None ↔ r.1.1 = Zlen ms)));
    clear; simpl.
  - intros. by unfold Zlen.
  - intros. pose proof (Zlen_nonneg ms). by split; [lia|].
  - intros k ms a err Hms Hlt _. pose proof (writeBatchAll_range w k ms).
    split; [lia|]. split; [done|lia].
  - intros k ms a a' r Hms Hlt _ _ _ [Hr Hiff]. pose proof (writeBatchAll_range w k ms) as Hw.
    assert (Zlen (drop (Z.to_nat (writeBatchAll w k ms).1.1) ms) =
      Zlen ms - (writeBatchAll w k ms).1.1) as El.
    { unfold Zlen in *. rewrite length_drop. lia. }
    rewrite El in *. split; [lia|]. rewrite Hiff. lia.
Qed.

(** A writer that never fails hard and never stalls [maxReliableRetries - 1]
    times in a row gets everything. *)
Lemma reliableLoop_delivers (budget : KState → Z) fuel w k ms a :
  (∀ k ms, ms ≠ [] → is_hard (writeBatchAll w k ms).1.2 = false) →
  (∀ k, 0 ≤ budget k < maxReliableRetries) →
  (∀ k ms, ms ≠ [] → (writeBatchAll w k ms).1.1 = 0 → budget (writeBatchAll w k ms).2 < budget k) →
  0 ≤ a → a + budget k ≤ maxReliableRetries → (reliable_fuel ms a ≤ fuel)%nat →
  (reliableLoop fuel w k ms a).1 = (Zlen ms, None).
Proof.
  intros Hsoft Hb Hstall. revert k ms a. induction fuel as [|fuel IH]; intros k ms a Ha Hbud Hf;
    [unfold reliable_fuel in Hf; lia|].
  destruct (decide (ms = [])) as [->|Hms]; [done|].
  rewrite reliableLoop_S by done. cbv zeta. rewrite Hsoft by done.
  pose proof (writeBatchAll_range w k ms) as Hr. pose proof (Hb k). pose proof (Hb (writeBatchAll w k ms).2).
  pose proof (reliable_fuel_step w k ms a fuel Hms ltac:(lia) Hf) as Hs. cbv zeta in Hs.
  assert (El : Zlen (drop (Z.to_nat (writeBatchAll w k ms).1.1) ms) =
    Zlen ms - (writeBatchAll w k ms).1.1) by (unfold Zlen in *; rewrite length_drop; lia).
  destruct (0 <? _) eqn:Ep; simpl.
  - destruct (_ <=? _) eqn:Ef; simpl; [f_equal; lia|]. unfold maxReliableRetries in *. simpl.
    rewrite IH; [simpl; f_equal; lia|lia|lia|]. apply Hs. lia.
  - pose proof (Hstall k ms Hms ltac:(lia)). rewrite (proj2 (Z.leb_gt _ _)) by lia.
    rewrite IH; [simpl; f_equal; lia|lia|lia|]. apply Hs. lia.
Qed.
End Reliable.

(** ** Metrics of a drain *)

Definition is_forwarded (ev : Event) : bool :=
  match ev with EvPacketForwarded _ _ _ _ | EvControlFrameForwarded _ => true | _ => false end.
Definition is_write_error (ev : Event) : bool :=
  match ev with EvPacketDropped _ _ r => String.eqb r "write_error" | _ => false end.

Definition count_ev (p : Event → bool) (evs : list Event) : Z := Zlen (List.filter p evs).

Lemma count_ev_app p l l' : count_ev p (l ++ l') = count_ev p l + count_ev p l'.
Proof. unfold count_ev. by rewrite List.filter_app, Zlen_app. Qed.

Lemma count_ev_fmap {A} p (f : A → Event) (b : bool) l :
  (∀ x, p (f x) = b) → count_ev p (f <$> l) = if b then Zlen l else 0.
Proof.
  intros Hf. unfold count_ev. induction l as [|x l IH]; [by destruct b|].
  rewrite fmap_cons. cbn [List.filter]. rewrite Hf. destruct b; [|done]. rewrite !Zlen_cons. by rewrite IH.
Qed.

Lemma meta_forwarded_is iface m : is_forwarded (meta_forwarded iface m) = true.
Proof. unfold meta_forwarded. by destruct (String.eqb _ _). Qed.

Lemma meta_forwarded_not_error iface m : is_write_error (meta_forwarded iface m) = false.
Proof. unfold meta_forwarded. by destruct (String.eqb _ _). Qed.

(** What was sent is counted as forwarded, the rest as write errors. *)
Lemma recordMeta_counts iface sent err meta :
  0 ≤ sent ≤ Zlen meta →
  count_ev is_forwarded (recordMeta true iface sent err meta) = sent ∧
  count_ev is_write_error (recordMeta true iface sent err meta) = Zlen meta - sent.
Proof.
  intros Hs. unfold recordMeta. rewrite (proj2 (Z.ltb_ge sent 0)) by lia.
  rewrite (proj2 (Z.ltb_ge (Zlen meta) sent)) by lia. rewrite !count_ev_app.
  rewrite (count_ev_fmap is_forwarded _ true) by apply meta_forwarded_is.
  rewrite (count_ev_fmap is_forwarded _ false) by done.
  rewrite (count_ev_fmap is_write_error _ false) by apply meta_forwarded_not_error.
  rewrite (count_ev_fmap is_write_error _ true) by done.
  unfold Zlen in *. rewrite length_take, length_drop.
  destruct err; unfold count_ev; simpl; split; unfold Zlen; simpl; lia.
Qed.
