(* ===== verification/ToyKernel.v ===== *)
(** * A scripted kernel

    The [Kernel] the witnesses run in: a list of the results the next writes
    report, after which every write takes the whole batch. *)

From S2P Require Import Prelude Common BatchWriter.

#[export] Instance toyKernel : Kernel := {|
  KState := list (Z * option SendErr);
  WriteBatch _ k ms :=
    match k with
    | [] => ((Zlen ms, None), [])
    | r :: k => (r, k)
    end |}.

Definition toy_addr : UDPAddr := mkUDPAddr (zeros 16) 9001 "".
Definition toy_msg (b : Z) : Message := mkMessage [b] toy_addr.

(** A socket whose queue is full for a few writes (three at most) and then
    takes everything. *)
Definition stallKernel : Kernel := {|
  KState := nat;
  WriteBatch _ k ms :=
    match Nat.min k 3 with
    | O => ((Zlen ms, None), O)
    | S k => ((0, Some (ErrErrno ENOBUFS)), k)
    end |}.

Lemma stall_write w (k : nat) ms :
  ms ≠ [] →
  @writeBatchAll stallKernel w k ms =
    match Nat.min k 3 with
    | O => ((Zlen ms, None), O)
    | S k => ((0, Some (ErrErrno ENOBUFS)), k)
    end.
Proof.
  intros Hms. rewrite (writeBatchAll_unfold (H := stallKernel)) by done. cbv zeta. simpl.
  destruct (Nat.min k 3) as [|k']; simpl; unfold batch_advance; [|done].
  destruct ms as [|m ms]; [done|]. rewrite Z.ltb_irrefl.
  rewrite (proj2 (Z.ltb_lt 0 _)) by (rewrite Zlen_cons; pose proof (Zlen_nonneg ms); lia).
  rewrite (proj2 (Z.leb_gt _ 0)) by (rewrite Zlen_cons; pose proof (Zlen_nonneg ms); lia).
  replace (Z.to_nat (Zlen (m :: ms))) with (length (m :: ms)) by (unfold Zlen; lia).
  rewrite drop_all. rewrite writeBatchAll_nil. simpl. by rewrite Z.add_0_r.
Qed.
