(* ===== verification/EgressProps.v ===== *)
(** * Properties of the egress

    Drains deliver a prefix in order and terminate, the reliable lane gives
    up only on a hard or persistent failure, every queued datagram is counted
    once per target, destinations are the group's, and the sender goroutine
    writes what the in-line flush would. *)

From S2P Require Import Prelude Common Chains BatchWriter RetryTee Coal Egress EgressFacts ToyKernel.

Section Props.
Context `{Kernel}.

(** WriteBatchAll terminates for every writer (more iterations than the
    batch has messages change nothing) and what the kernel accepted over its
    calls is exactly the first [off] messages of the batch, in order and once
    each, [off] being the count it returns; a nil error means the whole batch
    went out. *)
Theorem writeBatchAll_delivers_prefix w (k : KState) ms :
  let r := writeBatchAll w k ms in
  (∀ extra, writeBatchLoop (S (length ms) + extra) w k ms = r) ∧
  writeBatchWire (S (length ms)) w k ms = take (Z.to_nat r.1.1) ms ∧
  0 ≤ r.1.1 ≤ Zlen ms ∧ (r.1.2 = None → r.1.1 = Zlen ms).
Proof.
  cbv zeta. split_and!.
  - intros extra. unfold writeBatchAll. apply writeBatchLoop_fuel; lia.
  - apply writeBatchWire_prefix.
  - apply writeBatchAll_range.
  - apply writeBatchAll_range.
  - apply writeBatchAll_none.
Qed.

Lemma flushReliable_counts w iface (k : KState) msgs meta :
  length msgs = length meta →
  let n := (reliableLoop (reliable_fuel msgs 0) w k msgs 0).1.1 in
  let evs := (flushReliable true w iface k msgs meta).1 in
  count_ev is_forwarded evs = n ∧ count_ev is_write_error evs = Zlen msgs - n.
Proof.
  intros Hlen. cbv zeta. set (r := reliableLoop (reliable_fuel msgs 0) w k msgs 0).
  assert (Ha : 0 ≤ 0 ≤ maxReliableRetries) by (unfold maxReliableRetries; lia).
  destruct (reliableLoop_spec (reliable_fuel msgs 0) w k msgs 0 Ha ltac:(lia)) as [Hr _].
  fold r in Hr. assert (Em : Zlen msgs = Zlen meta) by (unfold Zlen; lia).
  destruct (recordMeta_counts iface r.1.1 r.1.2 meta ltac:(lia)) as [Hf He].
  unfold flushReliable. cbn [fst snd]. fold r. cbn [fst snd]. rewrite Em. done.
Qed.

(** The reliable lane's retry loop terminates whatever the socket does
    (its result does not depend on the iteration bound), surrenders nothing
    when it reports no error, and accounts for the batch exactly: as many
    datagrams are counted forwarded as were sent and all the others are
    counted as write errors. *)
Theorem flushReliable_accounts w iface (k : KState) msgs meta :
  length msgs = length meta →
  let r := reliableLoop (reliable_fuel msgs 0) w k msgs 0 in
  let evs := (flushReliable true w iface k msgs meta).1 in
  (∀ extra, reliableLoop (reliable_fuel msgs 0 + extra) w k msgs 0 = r) ∧
  0 ≤ r.1.1 ≤ Zlen msgs ∧ (r.1.2 = None ↔ r.1.1 = Zlen msgs) ∧
  count_ev is_forwarded evs = r.1.1 ∧
  count_ev is_write_error evs = Zlen msgs - r.1.1.
Proof.
  intros Hlen. cbv zeta. set (r := reliableLoop (reliable_fuel msgs 0) w k msgs 0).
  assert (Ha : 0 ≤ 0 ≤ maxReliableRetries) by (unfold maxReliableRetries; lia).
  destruct (reliableLoop_spec (reliable_fuel msgs 0) w k msgs 0 Ha ltac:(lia)) as [Hr Hn].
  destruct (flushReliable_counts w iface k msgs meta Hlen) as [Hf He].
  fold r in Hr, Hn, Hf, He. split_and!; try lia; try done.
  intros extra. apply reliableLoop_fuel; [done|lia|lia].
Qed.

(** C28: the reliable lane delivers.  If the socket never fails hard and never
    makes zero progress on 49 successive submissions, every datagram of the
    flush is sent and none is counted as a write error. *)
Theorem flushReliable_delivers (budget : KState → Z) w iface (k : KState) msgs meta :
  (∀ k ms, ms ≠ [] → is_hard (writeBatchAll w k ms).1.2 = false) →
  (∀ k, 0 ≤ budget k < maxReliableRetries) →
  (∀ k ms, ms ≠ [] → (writeBatchAll w k ms).1.1 = 0 → budget (writeBatchAll w k ms).2 < budget k) →
  length msgs = length meta →
  (reliableLoop (reliable_fuel msgs 0) w k msgs 0).1 = (Zlen msgs, None) ∧
  count_ev is_write_error (flushReliable true w iface k msgs meta).1 = 0.
Proof.
  intros Hsoft Hb Hstall Hlen. pose proof (Hb k).
  assert (E : (reliableLoop (reliable_fuel msgs 0) w k msgs 0).1 = (Zlen msgs, None))
    by (apply (reliableLoop_delivers budget); auto; lia).
  split; [done|]. rewrite (proj2 (flushReliable_counts w iface k msgs meta Hlen)), E. simpl. lia.
Qed.

(** ** Flush *)

(** What became of a queued datagram on an interface. *)
Definition fate (iface : string) (sent : bool) (m : msgMeta) : Event :=
  if sent then
    if String.eqb (mm_label m) "" then EvPacketForwarded iface (mm_worker m) (mm_group m) (mm_size m)
    else EvControlFrameForwarded (mm_label m)
  else EvPacketDropped iface (mm_worker m) "write_error".

(** On one interface the first [n] datagrams went out. *)
Definition fates (meta : list msgMeta) (iface : string) (n : Z) : list Event :=
  (fate iface true <$> take (Z.to_nat n) meta) ++ (fate iface false <$> drop (Z.to_nat n) meta).

Definition settles (ev : Event) : bool := is_forwarded ev || is_write_error ev.
Definition settled (evs : list Event) : list Event := List.filter settles evs.

Lemma settled_app l l' : settled (l ++ l') = settled l ++ settled l'.
Proof. apply List.filter_app. Qed.

Lemma settled_fmap {A} (f : A → Event) l : (∀ x, settles (f x) = true) → settled (f <$> l) = f <$> l.
Proof. intros Hf. induction l as [|x l IH]; [done|]. rewrite fmap_cons. unfold settled in *. cbn [List.filter]. by rewrite Hf, IH. Qed.

Lemma recordMeta_settled iface sent err meta :
  0 ≤ sent ≤ Zlen meta → settled (recordMeta true iface sent err meta) = fates meta iface sent.
Proof.
  intros Hs. unfold recordMeta. rewrite (proj2 (Z.ltb_ge sent 0)) by lia. rewrite (proj2 (Z.ltb_ge (Zlen meta) sent)) by lia.
  rewrite !settled_app. rewrite (settled_fmap (meta_forwarded iface)), (settled_fmap (meta_dropped iface)); [by destruct err|done|].
  intros m. unfold settles, meta_forwarded. by destruct (String.eqb _ _).
Qed.

Lemma flush_one_settled reliable i iface (k : KState) q meta :
  length q = length meta →
  ∃ n, 0 ≤ n ≤ Zlen meta ∧
    settled (match q with
             | [] => ([], k)
             | _ => if reliable : bool then flushReliable true (WTarget i) iface k q meta
                    else (recordMeta true iface (writeBatchAll (WTarget i) k q).1.1 (writeBatchAll (WTarget i) k q).1.2 meta,
                          (writeBatchAll (WTarget i) k q).2)
             end).1 = fates meta iface n.
Proof.
  intros Hq. assert (Em : Zlen q = Zlen meta) by (unfold Zlen; lia). destruct q as [|m q'].
  { destruct meta; [|done]. by exists 0. }
  set (q := m :: q') in *. destruct reliable.
  - assert (Ha : 0 ≤ 0 ≤ maxReliableRetries) by (unfold maxReliableRetries; lia).
    destruct (reliableLoop_spec (reliable_fuel q 0) (WTarget i) k q 0 Ha ltac:(lia)) as [Hr _].
    exists (reliableLoop (reliable_fuel q 0) (WTarget i) k q 0).1.1. split; [lia|]. apply recordMeta_settled. lia.
  - pose proof (writeBatchAll_range (WTarget i) k q) as Hr. exists (writeBatchAll (WTarget i) k q).1.1.
    split; [lia|]. apply recordMeta_settled. lia.
Qed.

Lemma flushTargets_settled reliable i (k : KState) targets qs meta :
  Forall (λ q : list Message, length q = length meta) qs → length qs = length targets →
  ∃ ns, length ns = length targets ∧ Forall (λ n, 0 ≤ n ≤ Zlen meta) ns ∧
    settled (flushTargets reliable true i k targets qs meta).1 = concat (zip_with (fates meta) targets ns).
Proof.
  intros Hqs. revert i k targets. induction Hqs as [|q qs Hq Hqs IH]; intros i k [|t targets] Hl; try done; [by exists []|].
  cbn [flushTargets fst]. destruct (flush_one_settled reliable i t k q meta Hq) as (n & Hn & En).
  match goal with |- context [flushTargets _ _ (S i) ?k' _ _ _] =>
    destruct (IH (S i) k' targets ltac:(simpl in Hl; lia)) as (ns & Hlen & Hns & Ens) end.
  exists (n :: ns). split; [by cbn; rewrite Hlen|]. split; [by apply list.Forall_cons|]. cbn [zip_with concat].
  rewrite settled_app. f_equal; [exact En|exact Ens].
Qed.

Lemma settled_tee t : settled (flush_tee t).2 = [].
Proof.
  destruct t as [t|]; [|done]. simpl. unfold tee_flush, tee_dropped, tee_missed. repeat case_match; by simplify_eq/=.
Qed.

(** C29: an in-line Flush accounts for every queued datagram on every
    interface exactly once, under that interface's name.  Interface by
    interface, in order, the recorder is told of the datagrams in the order
    they were queued: a first part as forwarded, under the worker, group and
    size they were queued with (or the control label), the rest as write
    errors of that worker.  The flush leaves all queues and their metadata
    empty and in lock-step, and returns each pooled fragment buffer to the
    pool exactly once, however many interfaces the fragment went to. *)
Theorem FlushInline_accounts (k : KState) e :
  egress_ok e → e_rec e = true →
  let r := (FlushInline k e).1 in
  (∃ ns, length ns = length (e_targets e) ∧ Forall (λ n, 0 ≤ n ≤ Zlen (e_meta e)) ns ∧
     settled r.2 = concat (zip_with (fates (e_meta e)) (e_targets e) ns)) ∧
  egress_ok r.1 ∧ e_meta r.1 = [] ∧ Forall (λ q, q = []) (e_msgs r.1) ∧ e_pooled r.1 = [] ∧
  (pool_free <$> e_pool r.1) = (λ p, rev (e_pooled e) ++ pool_free p) <$> e_pool e.
Proof.
  intros Hok Hrec r. unfold r, FlushInline. cbn [fst snd]. rewrite Hrec.
  destruct Hok as [Ht Hl Hc Hcl]. split_and!.
  - destruct (flushTargets_settled (e_reliable e) 0 k (e_targets e) (e_msgs e) (e_meta e) Hl Ht) as (ns & Hlen & Hns & E).
    exists ns. split; [done|]. split; [done|]. unfold flush_reset. cbn [snd]. rewrite !settled_app, !settled_tee, !app_nil_r. exact E.
  - by apply flush_reset_ok.
  - done.
  - simpl. rewrite Forall_fmap. by apply Forall_true.
  - done.
  - simpl. unfold put_all. destruct (e_pool e); done.
Qed.

(** Queueing a datagram appends it to every interface's queue, addressed
    to its destination in that interface's zone, and the address cache stays
    the group-to-address map: if the caches hold only what [D] gives and a
    data datagram's destination is [D] of its group, as every data path
    passes, the cached address is the one an uncached send would use.  The
    queues stay in lock-step with the metadata. *)
Theorem enqueue_addresses D raw dst m pooled e :
  egress_ok e → caches_coh D e → dst_ok D dst m →
  let e' := enqueue raw dst m pooled e in
  e_msgs e' = zip_with (λ z q, q ++ [mkMessage raw (with_zone dst z)]) (e_targets e) (e_msgs e) ∧
  egress_ok e' ∧ caches_coh D e'.
Proof.
  intros Hok Hcoh Hdst. cbv zeta. destruct (enqueue_spec D raw dst m pooled e Hok Hcoh Hdst).
  auto using enqueue_ok.
Qed.

End Props.

(** ** Witnesses *)

Definition toy_meta (g : Z) : msgMeta := mkMeta g 1 0 "" true.

(** Two interfaces, one data datagram queued. *)
Definition toy_egress : Egress :=
  enqueue [7] toy_addr (toy_meta 3) (Some 0%nat)
    (NewEgress (Some (100, false, 8)) ["eth0"; "eth1"] 4 true).

Lemma NewEgress_toy_ok : egress_ok toy_egress.
Proof. apply enqueue_ok, NewEgress_ok. Qed.

Lemma flushReliable_accounts_witness :
  let k : @KState toyKernel := [(1, Some (ErrErrno ENOBUFS)); (0, Some (ErrErrno EPERM))] in
  count_ev is_forwarded (flushReliable true (WTarget 0) "eth0" k [toy_msg 1; toy_msg 2]
    [toy_meta 3; toy_meta 4]).1 = 1.
Proof.
  pose proof (flushReliable_accounts (H := toyKernel) (WTarget 0) "eth0"
    [(1, Some (ErrErrno ENOBUFS)); (0, Some (ErrErrno EPERM))] [toy_msg 1; toy_msg 2]
    [toy_meta 3; toy_meta 4] eq_refl) as (_ & _ & _ & Hf & _).
  exact (eq_trans Hf eq_refl).
Defined.

Lemma flushReliable_delivers_witness :
  count_ev is_write_error (flushReliable (H := stallKernel) true (WTarget 0) "eth0" 2%nat
    [toy_msg 1; toy_msg 2] [toy_meta 3; toy_meta 4]).1 = 0.
Proof.
  apply (flushReliable_delivers (H := stallKernel) (λ k, Z.of_nat (Nat.min k 3)) (WTarget 0) "eth0"
    2%nat [toy_msg 1; toy_msg 2] [toy_meta 3; toy_meta 4]).
  - intros k ms Hms. rewrite stall_write by done. by destruct (Nat.min k 3).
  - intros k. unfold maxReliableRetries. lia.
  - intros k ms Hms. rewrite stall_write by done. destruct (Nat.min k 3) as [|k'] eqn:E; simpl.
    + intros Hz. destruct ms; [done|]. rewrite Zlen_cons in Hz. pose proof (Zlen_nonneg ms). lia.
    + intros _. lia.
  - reflexivity.
Defined.

Lemma FlushInline_accounts_witness :
  let r := (FlushInline (H := toyKernel) [(0, Some (ErrErrno EPERM))] toy_egress).1 in
  ∃ n0 n1, settled r.2 = fates (e_meta toy_egress) "eth0" n0 ++ fates (e_meta toy_egress) "eth1" n1.
Proof.
  destruct (FlushInline_accounts (H := toyKernel) [(0, Some (ErrErrno EPERM))] toy_egress NewEgress_toy_ok eq_refl)
    as [(ns & Hl & _ & E) _].
  destruct ns as [|n0 [|n1 [|]]]; try discriminate Hl. exists n0, n1. rewrite <- (app_nil_r (fates _ "eth1" n1)). exact E.
Defined.

Lemma enqueue_addresses_witness :
  e_msgs (enqueue [8] toy_addr (toy_meta 3) None toy_egress) =
  [[mkMessage [7] (with_zone toy_addr "eth0"); mkMessage [8] (with_zone toy_addr "eth0")];
   [mkMessage [7] (with_zone toy_addr "eth1"); mkMessage [8] (with_zone toy_addr "eth1")]].
Proof.
  refine (eq_trans (proj1 (enqueue_addresses (λ _, toy_addr) [8] toy_addr (toy_meta 3) None
    toy_egress NewEgress_toy_ok _ _)) eq_refl).
  - apply enqueue_spec; [apply NewEgress_ok|apply NewEgress_coh|].
    intros _. split; [simpl; lia|done].
  - intros _. split; [simpl; lia|done].
Defined.

