(* ===== verification/TeeClose.v ===== *)
(** * Closing a tee (forwarder/retrytee.go: wait, close; forwarder/egress.go:
    RetryTeeFailed, CloseRetryTee, LocalMirrorFailed, CloseLocalMirror)

    Waiting for the sender and closing: the channel is closed, the sender
    writes what is left in it, and the socket is closed when the tee owns it.
    The sender's remaining iterations are run to the end of the channel, as
    the receive on [done] waits for. *)

From S2P Require Import Prelude Common BatchWriter RetryTee Coal Egress.

(** [newRetryTee] and [newSharedTee]: the tee over a socket it dialed, or over
    one another owner keeps open. *)
Definition newRetryTee (w : WriterId) (dialed : option UDPAddr) (rec : bool) (kind : string) : option retryTee :=
  addr ← dialed; Some (newTee w addr true rec kind).
Definition newSharedTee (w : WriterId) (addr : UDPAddr) (rec : bool) (kind : string) : retryTee :=
  newTee w addr false rec kind.

Definition Failed (t : retryTee) : Z := t_failed t.

(** The counters of an egress: zero when it has no such tee. *)
Definition RetryTeeFailed (e : Egress) : Z := match e_tee e with Some t => Failed t | None => 0 end.
Definition LocalMirrorFailed (e : Egress) : Z := match e_mirror e with Some t => Failed t | None => 0 end.

Section Close.
Context `{Kernel}.

(** The sender runs until the channel is empty. *)
Definition tee_drain (r : tee_run * KState) : tee_run * KState :=
  tee_exec (replicate (length (t_batches (r_tee r.1))) OpRun) r.

(** [wait]: a marker behind what was flushed so far. *)
Definition tee_wait (r : tee_run * KState) : tee_run * KState :=
  let t := r_tee r.1 in
  if negb (t_started t) || t_closed t then r else tee_drain r.

(** [close]: the run, and whether the socket is closed. *)
Definition tee_shut (r : tee_run * KState) : (tee_run * KState) * bool :=
  let r := tee_step OpClose r in
  (if t_started (r_tee r.1) then tee_drain r else r, t_owned (r_tee r.1)).

(** [CloseRetryTee] and [CloseLocalMirror] on an egress whose tee has written
    [wire] so far. *)
Definition close_tee (t : option retryTee) (wire : list Message) (k : KState) : (option tee_run * KState) * bool :=
  match t with
  | None => ((None, k), false)
  | Some t => let c := tee_shut (mkRun t wire [], k) in ((Some c.1.1, c.1.2), c.2)
  end.

Definition CloseRetryTee (e : Egress) := close_tee (e_tee e).
Definition CloseLocalMirror (e : Egress) := close_tee (e_mirror e).

(** ** Facts *)

Lemma tee_exec_app a b (r : tee_run * KState) : tee_exec (a ++ b) r = tee_exec b (tee_exec a r).
Proof. apply fold_left_app. Qed.

Lemma run_shortens (r : tee_run * KState) :
  t_batches (r_tee (tee_step OpRun r).1) = tail (t_batches (r_tee r.1)) ∧
  t_msgs (r_tee (tee_step OpRun r).1) = t_msgs (r_tee r.1) ∧ t_owned (r_tee (tee_step OpRun r).1) = t_owned (r_tee r.1).
Proof.
  unfold tee_step, tee_run_one. destruct (t_batches (r_tee r.1)) as [|b q] eqn:E; [by rewrite E|]. cbv zeta.
  destruct (0 <? _); [|done]. cbn [fst r_tee]. by destruct (match _ with Some _ => _ | None => _ end).
Qed.

Lemma drain_empties (r : tee_run * KState) :
  t_batches (r_tee (tee_drain r).1) = [] ∧ t_msgs (r_tee (tee_drain r).1) = t_msgs (r_tee r.1).
Proof.
  unfold tee_drain. remember (length (t_batches (r_tee r.1))) as n eqn:En. revert r En.
  induction n as [|n IH]; intros r En; [by apply symmetry, length_zero_iff_nil in En|].
  destruct (run_shortens r) as (H1 & H2 & _).
  change (tee_exec (replicate (S n) OpRun) r) with (tee_exec (replicate n OpRun) (tee_step OpRun r)).
  rewrite <-H2. apply IH. rewrite H1. destruct (t_batches (r_tee r.1)); cbn in *; lia.
Qed.

Lemma drain_stays_closed (r : tee_run * KState) :
  t_closed (r_tee r.1) = true → t_closed (r_tee (tee_drain r).1) = true.
Proof.
  unfold tee_drain. generalize (length (t_batches (r_tee r.1))) as n. intros n. revert r.
  induction n as [|n IH]; intros r Hr; [done|]. apply (IH (tee_step OpRun r)).
  unfold tee_step, tee_run_one. destruct (t_batches (r_tee r.1)) as [|b q]; [done|]. cbv zeta.
  destruct (0 <? _); [|done]. cbn [fst r_tee]. by destruct (match _ with Some _ => _ | None => _ end).
Qed.

(** Batches are queued only once the sender has started. *)
Definition idle_unstarted (t : retryTee) : Prop := t_started t = false → t_batches t = [].

Lemma idle_step op (r : tee_run * KState) : idle_unstarted (r_tee r.1) → idle_unstarted (r_tee (tee_step op r).1).
Proof.
  unfold idle_unstarted. intros Hi. destruct op; cbn [tee_step fst r_tee]; try done.
  - unfold tee_flush. destruct (t_msgs _); [done|]. destruct (t_closed _); [done|]. cbv zeta. by destruct (_ <? _).
  - unfold tee_run_one. destruct (t_batches (r_tee r.1)) as [|b q] eqn:E; [by rewrite E|]. cbv zeta.
    intros Hs. exfalso. assert (Hf : t_started (r_tee r.1) = false).
    { revert Hs. destruct (0 <? _); [|done]. cbn [fst r_tee]. by destruct (match _ with Some _ => _ | None => _ end). }
    by specialize (Hi Hf).
Qed.

Lemma idle_exec ops (r : tee_run * KState) : idle_unstarted (r_tee r.1) → idle_unstarted (r_tee (tee_exec ops r).1).
Proof. revert r. induction ops as [|op ops IH]; intros r Hr; [done|]. by apply (IH (tee_step op r)), idle_step. Qed.

Lemma shut_exec (r : tee_run * KState) : ∃ ops, (tee_shut r).1 = tee_exec ops r ∧ tee_given ops = [].
Proof.
  unfold tee_shut. cbv zeta. cbn [fst]. destruct (t_started _).
  - exists (OpClose :: replicate (length (t_batches (r_tee (tee_step OpClose r).1))) OpRun). split; [done|].
    change (tee_given (replicate (length (t_batches (r_tee (tee_step OpClose r).1))) OpRun) = []).
    induction (length _) as [|n IH]; [done|exact IH].
  - by exists [OpClose].
Qed.

End Close.
