(* ===== verification/Sha256.v ===== *)
(** * SHA-256 (crypto/sha256 of the Go standard library)

    [Sum256] on byte lists, FIPS 180-4, computable: the proxy names BEEF
    objects by it and hashes merkle levels with it. *)

From S2P Require Import Prelude.

Definition rotr32 (n x : Z) : Z := Z.lor (Z.shiftr x n) (u32 (Z.shiftl x (32 - n))).
Definition not32 (x : Z) : Z := Z.lxor x 0xFFFFFFFF.

Definition ch (x y z : Z) : Z := Z.lxor (Z.land x y) (Z.land (not32 x) z).
Definition maj (x y z : Z) : Z := Z.lxor (Z.land x y) (Z.lxor (Z.land x z) (Z.land y z)).
Definition big_sigma0 (x : Z) : Z := Z.lxor (rotr32 2 x) (Z.lxor (rotr32 13 x) (rotr32 22 x)).
Definition big_sigma1 (x : Z) : Z := Z.lxor (rotr32 6 x) (Z.lxor (rotr32 11 x) (rotr32 25 x)).
Definition small_sigma0 (x : Z) : Z := Z.lxor (rotr32 7 x) (Z.lxor (rotr32 18 x) (Z.shiftr x 3)).
Definition small_sigma1 (x : Z) : Z := Z.lxor (rotr32 17 x) (Z.lxor (rotr32 19 x) (Z.shiftr x 10)).

(** ** Constants

    Each constant is the first 32 bits of the fractional part of a root of a
    prime: cube roots of the first 64 primes for the rounds, square roots of
    the first eight for the initial hash. *)

Definition is_prime (n : Z) : bool := forallb (λ d, negb (n mod d =? 0)) (seqZ 2 (n - 2)).
Definition primes : list Z := Eval vm_compute in List.filter is_prime (seqZ 2 310).

(** The integer cube root, bit by bit from [2 ^ k]. *)
Fixpoint cube_root (k : nat) (r n : Z) : Z :=
  let r' := r + 2 ^ Z.of_nat k in
  let r := if r' * r' * r' <=? n then r' else r in
  match k with
  | O => r
  | S k => cube_root k r n
  end.

Definition frac_cbrt (p : Z) : Z := u32 (cube_root 36 0 (p * 2 ^ 96)).
Definition frac_sqrt (p : Z) : Z := u32 (Z.sqrt (p * 2 ^ 64)).

Definition round_constants : list Z := Eval vm_compute in frac_cbrt <$> primes.

(** The eight working words. *)
Record HState := mkH { hA : Z; hB : Z; hC : Z; hD : Z; hE : Z; hF : Z; hG : Z; hH : Z }.

Definition initial_hash : HState :=
  Eval vm_compute in
  let w i := frac_sqrt (nth i primes 0) in
  mkH (w 0%nat) (w 1%nat) (w 2%nat) (w 3%nat) (w 4%nat) (w 5%nat) (w 6%nat) (w 7%nat).

Definition sha_round (s : HState) (kw : Z * Z) : HState :=
  let t1 := hH s + big_sigma1 (hE s) + ch (hE s) (hF s) (hG s) + kw.1 + kw.2 in
  let t2 := big_sigma0 (hA s) + maj (hA s) (hB s) (hC s) in
  mkH (u32 (t1 + t2)) (hA s) (hB s) (hC s) (u32 (hD s + t1)) (hE s) (hF s) (hG s).

(** The message schedule, newest word first. *)
Fixpoint schedule_more (n : nat) (rev_w : list Z) : list Z :=
  match n with
  | O => rev_w
  | S n =>
      let w i := nth i rev_w 0 in
      schedule_more n (u32 (small_sigma1 (w 1%nat) + w 6%nat + small_sigma0 (w 14%nat) + w 15%nat) :: rev_w)
  end.

Fixpoint words (n : nat) (l : bytes) : list Z :=
  match n with
  | O => []
  | S n => be_get (take 4 l) :: words n (drop 4 l)
  end.

Definition sha_block (s : HState) (block : bytes) : HState :=
  let w := rev (schedule_more 48 (rev (words 16 block))) in
  let r := fold_left sha_round (combine round_constants w) s in
  mkH (u32 (hA s + hA r)) (u32 (hB s + hB r)) (u32 (hC s + hC r)) (u32 (hD s + hD r))
      (u32 (hE s + hE r)) (u32 (hF s + hF r)) (u32 (hG s + hG r)) (u32 (hH s + hH r)).

Fixpoint sha_blocks (n : nat) (s : HState) (l : bytes) : HState :=
  match n with
  | O => s
  | S n => sha_blocks n (sha_block s (take 64 l)) (drop 64 l)
  end.

Definition sha_pad (l : bytes) : bytes :=
  l ++ [0x80] ++ zeros (Z.to_nat ((55 - Zlen l) mod 64)) ++ be_put 8 (8 * Zlen l).

Definition hash_bytes (s : HState) : bytes :=
  be_put 4 (hA s) ++ be_put 4 (hB s) ++ be_put 4 (hC s) ++ be_put 4 (hD s) ++
  be_put 4 (hE s) ++ be_put 4 (hF s) ++ be_put 4 (hG s) ++ be_put 4 (hH s).

Definition Sum256 (l : bytes) : bytes :=
  let p := sha_pad l in
  hash_bytes (sha_blocks (length p / 64) initial_hash p).

Lemma length_Sum256 l : length (Sum256 l) = 32%nat.
Proof. unfold Sum256, hash_bytes. by rewrite !length_app, !length_be_put. Qed.
Arguments Sum256 : simpl never.

(** The test vectors of FIPS 180-4: the empty message, "abc", and a message
    of two blocks. *)
Example Sum256_empty : be_get (Sum256 []) =
  0xe3b0c44298fc1c149afbf4c8996fb92427ae41e4649b934ca495991b7852b855.
Proof. vm_compute. reflexivity. Qed.

Example Sum256_abc : be_get (Sum256 [97; 98; 99]) =
  0xba7816bf8f01cfea414140de5dae2223b00361a396177a9cb410ff61f20015ad.
Proof. vm_compute. reflexivity. Qed.

Example Sum256_two_blocks :
  be_get (Sum256 (concat ((λ i, [97 + i; 98 + i; 99 + i; 100 + i]) <$> seqZ 0 14))) =
  0x248d6a61d20638b8e5c026930c3e6039a33ce45964ff2167f6ecedd419db06c1.
Proof. vm_compute. reflexivity. Qed.
