(* ===== verification/SubtreeRoot.v ===== *)
(** * Subtree root verification (forwarder/subtreeroot.go)

    The merkle root of the node hashes a BRC-132 frame carries, computed
    level by level in two alternating buffers, wide levels split across
    goroutines, against the tree it stands for. *)

From S2P Require Import Prelude Common Toy Sha256.

Definition subtreeRootParallelMin : nat := Nat.pow 2 14.
Definition subtreeRootMaxWorkers : nat := 4.

Definition zero32 : bytes := zeros 32.

Inductive SubtreeErr := errSubtreeMalformed | errSubtreeRootMismatch.

(** ** The computation *)

(** The parent of a pair whose right side may be missing: the body of the
    loop of [hashRange]. *)
Definition pair_hash (l : bytes) (right : option bytes) : bytes :=
  if bytes_eqb l zero32 then zero32
  else
    let r := match right with
             | Some r => if bytes_eqb r zero32 then l else r
             | None => l
             end in
    Sum256 (Sum256 (l ++ r)).

(** One parent computed and written into its slot of [dst]; the three slice
    expressions panic ([None]) when they are out of range. *)
Definition hash_parent (src : bytes) (stride n : nat) (dst : bytes) (p : nat) : option bytes :=
  _ ← subslice (p * 32) (p * 32 + 32) dst;
  left ← subslice (2 * p * stride) (2 * p * stride + 32) src;
  if bytes_eqb left zero32 then Some (splice (p * 32) zero32 dst)
  else
    right ← (if (2 * p + 1 <? n)%nat
             then Some <$> subslice ((2 * p + 1) * stride) ((2 * p + 1) * stride + 32) src
             else Some None);
    Some (splice (p * 32) (pair_hash left right) dst).

Definition hashRange (dst src : bytes) (stride n lo hi : nat) : option bytes :=
  fold_left (λ d p, d ≫= λ dst, hash_parent src stride n dst p) (seq lo (hi - lo)) (Some dst).

(** The goroutines [hashLevel] starts: consecutive ranges of [chunk]
    parents. *)
Fixpoint level_chunks (fuel chunk parents lo : nat) : list (nat * nat) :=
  match fuel with
  | O => []
  | S fuel =>
      if (lo <? parents)%nat
      then (lo, Nat.min (lo + chunk) parents) :: level_chunks fuel chunk parents (lo + chunk)
      else []
  end.

Definition level_workers (procs parents : nat) : nat :=
  if (subtreeRootParallelMin <=? parents)%nat then Nat.min procs subtreeRootMaxWorkers else 1%nat.

(** [hashLevel] with GOMAXPROCS [procs]; the goroutines run one after the
    other here, and the schedule theorem covers their interleavings. *)
Definition hashLevel (procs : nat) (dst src : bytes) (stride n : nat) : option bytes :=
  let parents := ((n + 1) / 2)%nat in
  let workers := level_workers procs parents in
  if (workers <=? 1)%nat then hashRange dst src stride n 0 parents
  else
    let chunk := ((parents + workers - 1) / workers)%nat in
    fold_left (λ d c, d ≫= λ dst, hashRange dst src stride n c.1 c.2)
      (level_chunks parents chunk parents 0) (Some dst).

(** The loop of [subtreeRoot]: [src] holds [n] hashes, [dst] is the spare
    buffer. Each iteration halves [n], so [n] iterations are enough; running
    out of them is a failure too. *)
Fixpoint subtreeLoop (fuel procs n : nat) (src dst : bytes) : option bytes :=
  match fuel with
  | O => None
  | S fuel =>
      if (1 <? n)%nat
      then level ← hashLevel procs dst src 32 n; subtreeLoop fuel procs ((n + 1) / 2) level src
      else Some src
  end.

Definition subtreeRoot (procs : nat) (nodes : bytes) (stride n : nat) : option bytes :=
  if (n =? 1)%nat then subslice 0 32 nodes
  else
    let width := ((n + 1) / 2)%nat in
    src ← hashLevel procs (zeros (width * 32)) nodes stride n;
    top ← subtreeLoop width procs width src (zeros ((width + 1) / 2 * 32));
    subslice 0 32 top.

(** [verifySubtreePayload]; [None] is a panic, [inl] the error. *)
Definition verifySubtreePayload `{ShardCommon} (procs : nat) (root : bytes) (msgType : Z) (payload : bytes)
    : option (SubtreeErr + unit) :=
  let stride := if msgType =? SubtreeMsgFullNodes then SubtreeNodeFullSize else SubtreeNodeHashSize in
  if Zlen payload <? SubtreeDataPayloadHeaderSize then Some (inl errSubtreeMalformed)
  else
    count ← u64_at 16 payload;
    let avail := (Zlen payload - SubtreeDataPayloadHeaderSize) / stride in
    if (count =? 0) || (avail <? count) then Some (inl errSubtreeMalformed)
    else
      nodes ← subslice (Z.to_nat SubtreeDataPayloadHeaderSize) (length payload) payload;
      got ← subtreeRoot procs nodes (Z.to_nat stride) (Z.to_nat count);
      Some (if bytes_eqb got root then inr tt else inl errSubtreeRootMismatch).

(** ** The same computation with every read in range

    What the steps above write when no slice is out of range: the levels the
    tree is compared with. *)

Definition hash_at (src : bytes) (stride i : nat) : bytes := slice (i * stride) (i * stride + 32) src.

Definition write_parent (src : bytes) (stride n : nat) (dst : bytes) (p : nat) : bytes :=
  let right := if (2 * p + 1 <? n)%nat then Some (hash_at src stride (2 * p + 1)) else None in
  splice (p * 32) (pair_hash (hash_at src stride (2 * p)) right) dst.

Definition write_level (dst src : bytes) (stride n : nat) : bytes :=
  fold_left (write_parent src stride n) (seq 0 ((n + 1) / 2)) dst.

(** ** The tree

    The hash of node [i] at height [k] over leaves of which those outside
    the list are absent (zero): the reference the levels are compared with. *)
Fixpoint tree_node (leaf : nat → bytes) (k i : nat) : bytes :=
  match k with
  | O => leaf i
  | S k => pair_hash (tree_node leaf k (2 * i)) (Some (tree_node leaf k (2 * i + 1)))
  end.

Definition leaves (nodes : bytes) (stride n i : nat) : bytes :=
  if (i <? n)%nat then hash_at nodes stride i else zero32.

(** The height of the tree over [n] leaves. *)
Definition tree_height (n : nat) : nat := Nat.log2_up n.

(** ** Slots of a buffer *)

Lemma length_pair_hash l r : length (pair_hash l r) = 32%nat.
Proof. unfold pair_hash. destruct (bytes_eqb l zero32); [done|]. apply length_Sum256. Qed.

Lemma length_hash_at src stride i : (i * stride + 32 ≤ length src)%nat → length (hash_at src stride i) = 32%nat.
Proof. intros. unfold hash_at. rewrite length_slice; lia. Qed.

Lemma length_write_parent src stride n dst p :
  (p * 32 + 32 ≤ length dst)%nat → length (write_parent src stride n dst p) = length dst.
Proof. intros. apply length_splice. rewrite length_pair_hash. lia. Qed.

(** The value one step writes, as a function of the source only. *)
Definition parent_of (src : bytes) (stride n p : nat) : bytes :=
  pair_hash (hash_at src stride (2 * p))
    (if (2 * p + 1 <? n)%nat then Some (hash_at src stride (2 * p + 1)) else None).

Lemma lookup_splice_eq {A} lo (new l : list A) i :
  (lo ≤ i < lo + length new)%nat → (lo ≤ length l)%nat → splice lo new l !! i = new !! (i - lo)%nat.
Proof.
  intros Hi Hl. unfold splice. rewrite lookup_app_r by (rewrite length_take; lia).
  rewrite length_take, lookup_app_l by lia. f_equal. lia.
Qed.

Lemma lookup_write_parent src stride n dst p i :
  (p * 32 + 32 ≤ length dst)%nat →
  write_parent src stride n dst p !! i =
    if decide (i / 32 = p)%nat then parent_of src stride n p !! (i mod 32)%nat else dst !! i.
Proof.
  intros Hp. unfold write_parent. fold (parent_of src stride n p).
  assert (length (parent_of src stride n p) = 32%nat) as El by apply length_pair_hash.
  pose proof (Nat.div_mod_eq i 32). assert (i mod 32 < 32)%nat by (apply Nat.mod_upper_bound; lia).
  destruct (decide (i / 32 = p)%nat).
  - rewrite lookup_splice_eq by lia. f_equal. lia.
  - apply lookup_splice_ne; lia.
Qed.

(** What a sequence of steps leaves in a slot: all the writes to one slot
    are equal, so their order does not matter. *)
Lemma lookup_fold_parents src stride n ps dst i :
  Forall (λ p, (p * 32 + 32 ≤ length dst)%nat) ps →
  length (fold_left (write_parent src stride n) ps dst) = length dst ∧
  fold_left (write_parent src stride n) ps dst !! i =
    if decide (i / 32 ∈ ps)%nat then parent_of src stride n (i / 32) !! (i mod 32)%nat else dst !! i.
Proof.
  revert dst. induction ps as [|p ps IH]; intros dst Hps; [by split|].
  apply list.Forall_cons in Hps as [Hp Hps]. cbn [fold_left].
  pose proof (length_write_parent src stride n dst p Hp) as El.
  destruct (IH (write_parent src stride n dst p)) as [E1 E2]; [by rewrite El|].
  clear IH. split; [lia|]. rewrite E2, lookup_write_parent by done.
  destruct (decide (i / 32 ∈ p :: ps)%nat) as [Hin|Hin]; rewrite elem_of_cons in Hin;
    repeat case_decide; naive_solver.
Qed.

Lemma in_level p parents : p ∈ seq 0 parents ↔ (p < parents)%nat.
Proof. rewrite elem_of_seq. lia. Qed.

Lemma level_fits (dst : bytes) parents ps :
  (parents * 32 ≤ length dst)%nat → ps ≡ₚ seq 0 parents →
  Forall (λ p, (p * 32 + 32 ≤ length dst)%nat) ps.
Proof. intros Hd Hp. apply list.Forall_forall. intros p. rewrite Hp, in_level. lia. Qed.

(** Any order of the parents of a level leaves the same buffer. *)
Lemma fold_parents_perm src stride n parents ps dst :
  (parents * 32 ≤ length dst)%nat → ps ≡ₚ seq 0 parents →
  fold_left (write_parent src stride n) ps dst = fold_left (write_parent src stride n) (seq 0 parents) dst.
Proof.
  intros Hd Hp. apply list_eq. intros i.
  rewrite (proj2 (lookup_fold_parents src stride n ps dst i (level_fits _ _ _ Hd Hp))).
  rewrite (proj2 (lookup_fold_parents src stride n _ dst i (level_fits _ _ _ Hd (Permutation_refl _)))).
  erewrite decide_ext; [done|]. by rewrite Hp.
Qed.

(** ** Reads in range *)

Definition parents_from (src : bytes) (stride n : nat) (ps : list nat) (d : option bytes) : option bytes :=
  fold_left (λ d p, d ≫= λ dst, hash_parent src stride n dst p) ps d.

Lemma parents_from_None src stride n ps : parents_from src stride n ps None = None.
Proof. by induction ps. Qed.

(** [src] has room for [n] hashes. *)
Definition holds_hashes (src : bytes) (stride n : nat) : Prop :=
  ∀ i, (i < n)%nat → (i * stride + 32 ≤ length src)%nat.

Lemma hash_parent_in src stride n dst p :
  holds_hashes src stride n → (p * 32 + 32 ≤ length dst)%nat → (2 * p < n)%nat →
  hash_parent src stride n dst p = Some (write_parent src stride n dst p).
Proof.
  intros Hs Hd Hp. unfold hash_parent, write_parent, hash_at. pose proof (Hs (2 * p)%nat Hp).
  rewrite (subslice_in (p * 32)), (subslice_in (2 * p * stride)) by lia. cbn [mbind option_bind]. cbv zeta.
  set (l := slice (2 * p * stride) _ src).
  unfold pair_hash. destruct (bytes_eqb l zero32); [done|].
  destruct (Nat.ltb_spec (2 * p + 1) n) as [Hr|]; [|done]. pose proof (Hs (2 * p + 1)%nat Hr).
  by rewrite subslice_in by lia.
Qed.

Lemma parents_from_in src stride n ps dst :
  holds_hashes src stride n → Forall (λ p, (p * 32 + 32 ≤ length dst ∧ 2 * p < n)%nat) ps →
  parents_from src stride n ps (Some dst) = Some (fold_left (write_parent src stride n) ps dst).
Proof.
  intros Hs. revert dst. induction ps as [|p ps IH]; intros dst Hps; [done|].
  apply list.Forall_cons in Hps as [[Hp Hn] Hps]. unfold parents_from in *. cbn [fold_left mbind option_bind].
  rewrite hash_parent_in by done. apply IH. by rewrite length_write_parent.
Qed.

(** ** Levels *)

Lemma level_chunks_flat fuel chunk parents lo :
  (0 < chunk)%nat → (parents - lo ≤ fuel)%nat →
  concat ((λ c, seq c.1 (c.2 - c.1)) <$> level_chunks fuel chunk parents lo) = seq lo (parents - lo).
Proof.
  intros Hc. revert lo. induction fuel as [|fuel IH]; intros lo Hf; simpl.
  { by replace (parents - lo)%nat with 0%nat by lia. }
  destruct (lo <? parents)%nat eqn:E; [|apply Nat.ltb_ge in E; by replace (parents - lo)%nat with 0%nat by lia].
  apply Nat.ltb_lt in E. rewrite fmap_cons. cbn [concat fst snd]. rewrite IH by lia.
  destruct (decide (lo + chunk ≤ parents)%nat).
  - rewrite Nat.min_l by lia. replace (lo + chunk - lo)%nat with chunk by lia.
    rewrite <- seq_app. f_equal. lia.
  - rewrite Nat.min_r by lia. replace (parents - (lo + chunk))%nat with 0%nat by lia.
    by rewrite app_nil_r.
Qed.

Lemma fold_chunks src stride n cs d :
  fold_left (λ d c, d ≫= λ dst, hashRange dst src stride n c.1 c.2) cs d =
  parents_from src stride n (concat ((λ c : nat * nat, seq c.1 (c.2 - c.1)) <$> cs)) d.
Proof.
  revert d. induction cs as [|c cs IH]; intros d; [done|]. rewrite fmap_cons. cbn [concat fold_left].
  unfold parents_from in *. rewrite fold_left_app, IH. f_equal. destruct d as [dst|]; [done|].
  symmetry. apply parents_from_None.
Qed.

(** Splitting a level across goroutines changes nothing. *)
Lemma hashLevel_range procs dst src stride n :
  hashLevel procs dst src stride n = hashRange dst src stride n 0 ((n + 1) / 2).
Proof.
  unfold hashLevel. destruct (_ <=? 1)%nat eqn:E; [done|]. apply Nat.leb_gt in E.
  set (parents := ((n + 1) / 2)%nat) in *. set (w := level_workers procs parents) in *.
  assert (0 < parents)%nat.
  { unfold w, level_workers in E. destruct (Nat.leb_spec subtreeRootParallelMin parents) as [Hp|]; [|lia].
    assert (subtreeRootParallelMin ≠ 0)%nat by (by apply Nat.pow_nonzero). lia. }
  rewrite fold_chunks, level_chunks_flat; [done| |lia].
  apply Nat.div_str_pos. lia.
Qed.

(** A level whose source holds its hashes and whose buffer has room is
    computed without a panic. *)
Lemma hashLevel_in procs dst src stride n :
  holds_hashes src stride n → ((n + 1) / 2 * 32 ≤ length dst)%nat →
  hashLevel procs dst src stride n = Some (write_level dst src stride n).
Proof.
  intros Hs Hd. rewrite hashLevel_range. unfold hashRange. rewrite Nat.sub_0_r. apply parents_from_in; [done|].
  apply list.Forall_forall. intros p Hp%in_level. pose proof (Nat.div_mod_eq (n + 1) 2).
  assert ((n + 1) mod 2 < 2)%nat by (apply Nat.mod_upper_bound; lia). lia.
Qed.

Lemma write_level_length dst src stride n :
  ((n + 1) / 2 * 32 ≤ length dst)%nat → length (write_level dst src stride n) = length dst.
Proof.
  intros Hd. apply (lookup_fold_parents src stride n _ dst 0), (level_fits _ _ _ Hd (Permutation_refl _)).
Qed.

Lemma hash_at_level dst src stride n q :
  ((n + 1) / 2 * 32 ≤ length dst)%nat → (q < (n + 1) / 2)%nat →
  hash_at (write_level dst src stride n) 32 q = parent_of src stride n q.
Proof.
  intros Hd Hq. apply list_eq. intros i. unfold hash_at, slice.
  replace (q * 32 + 32 - q * 32)%nat with 32%nat by lia.
  destruct (decide (i < 32)%nat).
  - rewrite lookup_take_lt, lookup_drop by lia. unfold write_level.
    rewrite (proj2 (lookup_fold_parents src stride n _ dst _ (level_fits _ _ _ Hd (Permutation_refl _)))).
    replace ((q * 32 + i) / 32)%nat with q by (rewrite Nat.div_add_l, Nat.div_small by lia; lia).
    rewrite decide_True by (apply in_level; lia).
    f_equal. rewrite Nat.add_comm, Nat.Div0.mod_add. by apply Nat.mod_small.
  - rewrite lookup_take_ge by lia. symmetry. apply lookup_ge_None.
    unfold parent_of. rewrite length_pair_hash. lia.
Qed.

(** ** The tree *)

Lemma tree_height_step n : (1 < n)%nat → tree_height n = S (tree_height ((n + 1) / 2)).
Proof.
  intros Hn. unfold tree_height. pose proof (Nat.div_mod_eq (n + 1) 2).
  assert ((n + 1) mod 2 < 2)%nat by (apply Nat.mod_upper_bound; lia).
  set (m := ((n + 1) / 2)%nat) in *. destruct (decide (m = 1)%nat) as [Em|Em].
  { rewrite Em. replace n with 2%nat by lia. reflexivity. }
  destruct (Nat.log2_up_spec m ltac:(lia)) as [H1 H2].
  apply Nat.log2_up_unique; [lia|]. rewrite Nat.pred_succ.
  destruct (Nat.log2_up m) as [|j]; simpl in *; lia.
Qed.

Lemma pair_hash_absent l : pair_hash l (Some zero32) = pair_hash l None.
Proof. unfold pair_hash. by rewrite bytes_eqb_refl. Qed.

Lemma pair_hash_zero r : pair_hash zero32 r = zero32.
Proof. unfold pair_hash. by rewrite bytes_eqb_refl. Qed.

Section Tree.
Context (leaf : nat → bytes).

(** Level [k] of the tree is [n] wide and stored in the slots of [src]. *)
Definition level_at (src : bytes) (stride n k : nat) : Prop :=
  (∀ i, (i < n)%nat → hash_at src stride i = tree_node leaf k i) ∧
  (∀ i, (n ≤ i)%nat → tree_node leaf k i = zero32).

Lemma level_at_parent dst src stride n k :
  level_at src stride n k → ((n + 1) / 2 * 32 ≤ length dst)%nat →
  level_at (write_level dst src stride n) 32 ((n + 1) / 2) (S k).
Proof.
  intros [Hin Hout] Hd. pose proof (Nat.div_mod_eq (n + 1) 2).
  assert ((n + 1) mod 2 < 2)%nat by (apply Nat.mod_upper_bound; lia).
  split; intros i Hi.
  - rewrite hash_at_level by done. unfold parent_of. cbn [tree_node].
    rewrite Hin by lia. destruct (Nat.ltb_spec (2 * i + 1) n) as [Hlt|Hge].
    + by rewrite Hin by lia.
    + by rewrite (Hout (2 * i + 1)%nat), pair_hash_absent by lia.
  - cbn [tree_node]. rewrite Hout by lia. apply pair_hash_zero.
Qed.

Lemma subtreeLoop_root fuel procs n src dst k :
  (n ≤ fuel)%nat → (1 ≤ n)%nat → level_at src 32 n k →
  (n * 32 ≤ length src)%nat → ((n + 1) / 2 * 32 ≤ length dst)%nat →
  ∃ top, subtreeLoop fuel procs n src dst = Some top ∧
    subslice 0 32 top = Some (tree_node leaf (tree_height n + k) 0).
Proof.
  revert n src dst k. induction fuel as [|fuel IH]; intros n src dst k Hf Hn Hl Hs Hd; [lia|].
  cbn [subtreeLoop]. destruct (Nat.ltb_spec 1 n) as [Hlt|Hle].
  - pose proof (Nat.div_mod_eq (n + 1) 2).
    assert ((n + 1) mod 2 < 2)%nat by (apply Nat.mod_upper_bound; lia).
    rewrite hashLevel_in by (done || (intros i Hi; lia)). cbn [mbind option_bind].
    destruct (IH ((n + 1) / 2)%nat (write_level dst src 32 n) src (S k)) as (top & Et & Es);
      [lia|lia|by apply level_at_parent|by rewrite write_level_length| |].
    + set (m := ((n + 1) / 2)%nat) in *. pose proof (Nat.div_mod_eq (m + 1) 2). lia.
    + exists top. split; [done|]. rewrite Es. rewrite (tree_height_step n Hlt). do 2 f_equal. lia.
  - replace n with 1%nat in * by lia. exists src. split; [done|]. change (tree_height 1 + k)%nat with k.
    rewrite <- (proj1 Hl 0%nat) by lia. apply subslice_in; lia.
Qed.
End Tree.

Lemma leaves_level nodes stride n : level_at (leaves nodes stride n) nodes stride n 0.
Proof.
  split; intros i Hi; simpl; unfold leaves.
  - by rewrite (proj2 (Nat.ltb_lt _ _)).
  - by rewrite (proj2 (Nat.ltb_ge _ _)).
Qed.

Lemma subtreeRoot_tree procs nodes stride n :
  (1 ≤ n)%nat → holds_hashes nodes stride n →
  subtreeRoot procs nodes stride n = Some (tree_node (leaves nodes stride n) (tree_height n) 0).
Proof.
  intros Hn Hs. unfold subtreeRoot. destruct (Nat.eqb_spec n 1) as [->|Hne].
  { apply subslice_in; [lia|]. pose proof (Hs 0%nat ltac:(lia)). lia. }
  pose proof (Nat.div_mod_eq (n + 1) 2).
  assert ((n + 1) mod 2 < 2)%nat by (apply Nat.mod_upper_bound; lia).
  assert (Hz : ((n + 1) / 2 * 32 ≤ length (zeros ((n + 1) / 2 * 32)))%nat)
    by (unfold zeros; rewrite length_replicate; lia).
  cbv zeta. rewrite hashLevel_in by done. cbn [mbind option_bind].
  destruct (subtreeLoop_root (leaves nodes stride n) ((n + 1) / 2) procs ((n + 1) / 2)
    (write_level (zeros ((n + 1) / 2 * 32)) nodes stride n) (zeros (((n + 1) / 2 + 1) / 2 * 32)) 1) as (top & -> & Et).
  - lia.
  - lia.
  - apply level_at_parent; [apply leaves_level|done].
  - by rewrite write_level_length.
  - unfold zeros. by rewrite length_replicate.
  - cbn [mbind option_bind]. rewrite Et, (tree_height_step n) by lia. do 2 f_equal. lia.
Qed.

(** The verdict, once every read is known to be in range. *)
Lemma verify_total `{ShardCommon} procs root msgType payload :
  24 ≤ SubtreeDataPayloadHeaderSize →
  let stride := if msgType =? SubtreeMsgFullNodes then SubtreeNodeFullSize else SubtreeNodeHashSize in
  let count := u64 (be_get (slice 16 24 payload)) in
  let avail := (Zlen payload - SubtreeDataPayloadHeaderSize) / stride in
  let nodes := drop (Z.to_nat SubtreeDataPayloadHeaderSize) payload in
  let n := Z.to_nat count in
  verifySubtreePayload procs root msgType payload = Some (
    if Zlen payload <? SubtreeDataPayloadHeaderSize then inl errSubtreeMalformed
    else if (count =? 0) || (avail <? count) then inl errSubtreeMalformed
    else if bytes_eqb (tree_node (leaves nodes (Z.to_nat stride) n) (tree_height n) 0) root
    then inr tt else inl errSubtreeRootMismatch).
Proof.
  intros Hh. cbv zeta. unfold verifySubtreePayload. destruct (Z.ltb_spec (Zlen payload) SubtreeDataPayloadHeaderSize) as [|Hl]; [done|].
  rewrite u64_at_in by lia. cbn [mbind option_bind]. change (16 + 8)%nat with 24%nat.
  set (count := u64 _). pose proof (u64_range (be_get (slice 16 24 payload))) as Hc. fold count in Hc.
  destruct (Z.eqb_spec count 0) as [|H0]; [done|]. cbn [orb].
  set (stride := if _ =? _ then _ else _) in *.
  assert (Hst : 32 ≤ stride) by (unfold stride, SubtreeNodeFullSize, SubtreeNodeHashSize; destruct (_ =? _); lia).
  destruct (Z.ltb_spec ((Zlen payload - SubtreeDataPayloadHeaderSize) / stride) count) as [|Ha]; [done|].
  unfold Zlen in Hl. rewrite (subslice_in (Z.to_nat _)) by lia. cbn [mbind option_bind]. unfold slice. rewrite take_ge by (rewrite length_drop; lia).
  rewrite subtreeRoot_tree; [done|lia|]. intros i Hi. rewrite length_drop.
  assert (count * stride ≤ Zlen payload - SubtreeDataPayloadHeaderSize).
  { etransitivity; [|apply (Z.mul_div_le (Zlen payload - SubtreeDataPayloadHeaderSize) stride); lia]. nia. }
  assert (Z.of_nat i * stride + 32 ≤ count * stride) by nia. unfold Zlen in *. nia.
Qed.

(** ** Properties *)

(** C17: verification accepts exactly the payloads that have room for the
    node count they claim, claim at least one node, and whose nodes hash, as
    the leaves of one merkle tree in which missing and all-zero nodes are
    absent, to the root in the header; short payloads and bad counts are
    reported malformed, a wrong root as a mismatch.  No payload makes it read
    out of range or run on ([r ≠ None]), and the number of processors plays
    no part. *)
Theorem verifySubtreePayload_spec `{ShardCommon} procs root msgType payload :
  Forall is_byte payload → 24 ≤ SubtreeDataPayloadHeaderSize →
  let stride := if msgType =? SubtreeMsgFullNodes then 48 else 32 in
  let count := be_get (slice 16 24 payload) in
  let avail := (Zlen payload - SubtreeDataPayloadHeaderSize) / stride in
  let nodes := drop (Z.to_nat SubtreeDataPayloadHeaderSize) payload in
  let n := Z.to_nat count in
  let shaped := SubtreeDataPayloadHeaderSize ≤ Zlen payload ∧ 1 ≤ count ≤ avail in
  let r := verifySubtreePayload procs root msgType payload in
  r ≠ None ∧
  (r = Some (inr tt) ↔ shaped ∧ tree_node (leaves nodes (Z.to_nat stride) n) (tree_height n) 0 = root) ∧
  (r = Some (inl errSubtreeMalformed) ↔ ¬ shaped).
Proof.
  intros Hb Hh. cbv zeta. rewrite verify_total by done. unfold SubtreeNodeFullSize, SubtreeNodeHashSize.
  assert (Hc : 0 ≤ be_get (slice 16 24 payload) < 2 ^ 64).
  { pose proof (be_get_range (slice 16 24 payload) ltac:(by apply Forall_take, Forall_drop)) as Hr.
    assert (Hl : (length (slice 16 24 payload) ≤ 8)%nat) by (unfold slice; rewrite length_take; lia).
    assert (256 ^ Zlen (slice 16 24 payload) ≤ 256 ^ 8) by (apply Z.pow_le_mono_r; unfold Zlen; lia). lia. }
  rewrite (u64_small _ Hc).
  destruct (Z.ltb_spec (Zlen payload) SubtreeDataPayloadHeaderSize) as [Hs|Hs];
    [split; [done|]; intuition (discriminate || lia)|].
  set (count := be_get _) in *. set (avail := _ / _) in *.
  destruct (Z.eqb_spec count 0) as [H0|H0]; simpl; [split; [done|]; intuition (discriminate || lia)|].
  destruct (Z.ltb_spec avail count) as [H1|H1]; [split; [done|]; intuition (discriminate || lia)|].
  split; [done|].
  destruct (bytes_eqb _ root) eqn:E; [apply bytes_eqb_eq in E|apply bytes_eqb_neq in E];
    intuition (discriminate || congruence || lia).
Qed.

(** The goroutines of a level may be scheduled in any way.  Whatever the
    worker count and however the parents' writes interleave, the level buffer
    ends up as one goroutine computing every parent in order leaves it. *)
Theorem hashLevel_any_schedule procs dst src stride n ps :
  let parents := ((n + 1) / 2)%nat in
  holds_hashes src stride n → (parents * 32 ≤ length dst)%nat → ps ≡ₚ seq 0 parents →
  parents_from src stride n ps (Some dst) = hashLevel procs dst src stride n ∧
  hashLevel procs dst src stride n = hashLevel 1 dst src stride n.
Proof.
  cbv zeta. intros Hs Hd Hp. rewrite !hashLevel_in by done. split; [|done].
  rewrite parents_from_in; [|done|].
  - f_equal. by apply fold_parents_perm.
  - apply list.Forall_forall. intros p. rewrite Hp, in_level. intros Hlt. pose proof (Nat.div_mod_eq (n + 1) 2).
    assert ((n + 1) mod 2 < 2)%nat by (apply Nat.mod_upper_bound; lia). lia.
Qed.

(** ** Witnesses *)

Definition toy_subtree : bytes :=
  zeros 16 ++ be_put 8 3 ++ concat ((λ i, replicate 32 i) <$> [1; 2; 3]).

Lemma verifySubtreePayload_spec_witness :
  verifySubtreePayload 2 (tree_node (leaves (drop 24 toy_subtree) 32 3) 2 0) 1 toy_subtree = Some (inr tt).
Proof.
  apply (verifySubtreePayload_spec 2 _ 1 toy_subtree).
  - let v := eval vm_compute in toy_subtree in change toy_subtree with v.
    repeat (constructor; [unfold is_byte; lia|]). constructor.
  - vm_compute. discriminate.
  - split; [|reflexivity]. vm_compute. intuition discriminate.
Defined.

Lemma hashLevel_any_schedule_witness :
  parents_from (zeros 96) 32 3 [1%nat; 0%nat] (Some (zeros 64)) = hashLevel 4 (zeros 64) (zeros 96) 32 3.
Proof.
  apply (hashLevel_any_schedule 4 (zeros 64) (zeros 96) 32 3 [1%nat; 0%nat]).
  - intros i Hi. change (length (zeros 96)) with 96%nat. lia.
  - simpl. lia.
  - apply Permutation_swap.
Defined.
