(* ===== verification/RateLimit.v ===== *)
(** * BEEF ingress rate limiting (forwarder/ratelimit.go)

    Token buckets over float64 tokens, one pair per source prefix and one
    pair for the whole plane.  Times are nanoseconds since the zero
    [time.Time].  What the code takes from the Go runtime, float64 arithmetic
    and the unspecified order of a map range, is the class [GoRuntime]; the
    laws the theorems use are [RuntimeLaws], and [exactRuntime] (exact
    rationals, maps ranged in key order) shows that they can hold. *)

From Stdlib Require Import QArith Lqa.
From stdpp Require Import fin_maps pretty.
From S2P Require Import Prelude Common.
#[local] Open Scope Z_scope.

Class GoRuntime := {
  F64 : Type;
  f_zero : F64;
  f_of_int : Z → F64;
  f_add : F64 → F64 → F64;
  f_sub : F64 → F64 → F64;
  f_mul : F64 → F64 → F64;
  f_lt : F64 → F64 → bool;          (* the comparison operator < *)
  f_seconds : Z → F64;              (* time.Duration.Seconds *)
  map_range : ∀ {A : Type}, list A → list A }.

Definition f_le `{GoRuntime} (x y : F64) : bool := negb (f_lt y x).

(** IEEE-754 behaviour on numbers (no NaN reaches the limiter: rates are
    parsed numbers), with rounding: order, and signs of results. *)
Class RuntimeLaws `{GoRuntime} : Prop := {
  f_lt_irrefl : ∀ x, f_lt x x = false;
  f_le_trans : ∀ x y z, f_le x y = true → f_le y z = true → f_le x z = true;
  f_lt_le : ∀ x y, f_lt x y = true → f_le x y = true;
  f_sub_range : ∀ x y, f_le f_zero y = true → f_le y x = true →
    f_le f_zero (f_sub x y) = true ∧ f_le (f_sub x y) x = true;
  f_add_nonneg : ∀ x y, f_le f_zero x = true → f_le f_zero y = true → f_le f_zero (f_add x y) = true;
  f_mul_nonneg : ∀ x y, f_le f_zero x = true → f_le f_zero y = true → f_le f_zero (f_mul x y) = true;
  f_seconds_nonneg : ∀ d, 0 ≤ d → f_le f_zero (f_seconds d) = true;
  f_of_int_nonneg : ∀ n, 0 ≤ n → f_le f_zero (f_of_int n) = true;
  map_range_perm : ∀ A (l : list A), map_range l ≡ₚ l }.

Lemma f_le_refl `{RuntimeLaws} x : f_le x x = true.
Proof. unfold f_le. by rewrite f_lt_irrefl. Qed.

(** Rounding of float64: every number stands for a rational (the infinities
    for ones beyond all others), the comparison is theirs, and the result of
    an operation is the exact one up to a relative error of 2^-53, as long as
    it is between the smallest normal and the largest finite number (a
    difference always).  [Seconds] adds two roundings of its own. *)
Definition f_eps : Q := 1 # 9007199254740992.
Definition secs (d : Z) : Q := d # 1000000000.

Class RoundingLaws `{GoRuntime} := {
  f_val : F64 → Q;
  f_min : Q;
  f_max : Q;
  f_lt_val x y : f_lt x y = true ↔ (f_val x < f_val y)%Q;
  f_val_zero : (f_val f_zero == 0)%Q;
  f_add_round x y : (0 <= f_val x → 0 <= f_val y → f_val x + f_val y <= f_max →
    f_val (f_add x y) <= (f_val x + f_val y) * (1 + f_eps))%Q;
  f_sub_round x y : (0 <= f_val y <= f_val x → f_val (f_sub x y) <= (f_val x - f_val y) * (1 + f_eps))%Q;
  f_mul_round x y : (0 <= f_val x → 0 <= f_val y → f_min <= f_val x * f_val y <= f_max →
    0 <= f_val (f_mul x y) <= f_val x * f_val y * (1 + f_eps))%Q;
  f_seconds_neg d : d ≤ 0 → (f_val (f_seconds d) <= 0)%Q;
  f_seconds_round d : 0 < d → (secs d * (1 - 2 * f_eps) <= f_val (f_seconds d) <= secs d * ((1 + f_eps) * (1 + f_eps)))%Q }.

Definition maxDuration : Z := 2 ^ 63 - 1.
Definition minDuration : Z := - 2 ^ 63.

(** [time.Time.Sub]: saturates at the ends of [time.Duration]. *)
Definition time_sub (t u : Z) : Z := Z.min maxDuration (Z.max minDuration (t - u)).
Definition time_is_zero (t : Z) : bool := t =? 0.

Section Limiter.
Context `{GoRuntime}.

Record bucket := mkBucket { bk_rate : F64; bk_burst : F64; bk_tokens : F64; bk_last : Z }.

Definition newBucket (ratePerSec burst : F64) : bucket :=
  if f_le ratePerSec f_zero then mkBucket f_zero f_zero f_zero 0
  else
    let burst := if f_lt burst ratePerSec then ratePerSec else burst in
    mkBucket ratePerSec burst burst 0.

(** The refill half of [allowN]. *)
Definition refill (now : Z) (b : bucket) : bucket :=
  let last := if time_is_zero (bk_last b) then now else bk_last b in
  let elapsed := f_seconds (time_sub now last) in
  if f_lt f_zero elapsed then
    let tokens := f_add (bk_tokens b) (f_mul elapsed (bk_rate b)) in
    mkBucket (bk_rate b) (bk_burst b) (if f_lt (bk_burst b) tokens then bk_burst b else tokens) now
  else mkBucket (bk_rate b) (bk_burst b) (bk_tokens b) last.

(** [allowN]; a nil bucket does not occur, every bucket being made by
    [newBucket]. *)
Definition allowN (now : Z) (n : F64) (b : bucket) : bool * bucket :=
  if f_le (bk_rate b) f_zero then (true, b)
  else
    let b := refill now b in
    let n := if f_lt (bk_burst b) n then bk_burst b else n in
    if f_lt (bk_tokens b) n then (false, b)
    else (true, mkBucket (bk_rate b) (bk_burst b) (f_sub (bk_tokens b) n) (bk_last b)).

Record BEEFRateConfig := mkBEEFRateConfig {
  SourceObjectsPerSec : F64; SourceBytesPerSec : F64; SourcePrefixBits : Z;
  PlaneObjectsPerSec : F64; PlaneBytesPerSec : F64; MaxTrackedSources : Z }.

(** The key of a source, a string in the code: the text of a masked address
    ([KeyIP], whose text determines the bytes, an IPv4 address being kept in
    its 4-byte form), or the address's own text when it is no IP. *)
Inductive SrcKey := KeyIP (ip : bytes) | KeyStr (s : string).

#[export] Instance SrcKey_eq_dec : EqDecision SrcKey.
Proof. solve_decision. Defined.
#[export] Instance SrcKey_countable : Countable SrcKey.
Proof.
  refine (inj_countable' (λ k, match k with KeyIP ip => inl ip | KeyStr s => inr s end)
    (λ x, match x with inl ip => KeyIP ip | inr s => KeyStr s end) _). by intros [].
Defined.

Record srcBuckets := mkSrcBuckets { sb_obj : bucket; sb_byt : bucket; sb_seen : Z }.

Record beefLimiter := mkLimiter {
  lim_cfg : BEEFRateConfig; lim_planeObj : bucket; lim_planeByt : bucket;
  lim_srcs : gmap SrcKey srcBuckets }.

#[export] Instance eta_beefLimiter : EtaExpand beefLimiter :=
  {| eta_of := λ x, mkLimiter (lim_cfg x) (lim_planeObj x) (lim_planeByt x) (lim_srcs x) |}.

Definition newBEEFLimiter (cfg : BEEFRateConfig) : beefLimiter :=
  let bits := if (SourcePrefixBits cfg <=? 0) || (128 <? SourcePrefixBits cfg) then 64
              else SourcePrefixBits cfg in
  let tracked := if MaxTrackedSources cfg <=? 0 then 65536 else MaxTrackedSources cfg in
  let cfg := mkBEEFRateConfig (SourceObjectsPerSec cfg) (SourceBytesPerSec cfg) bits
               (PlaneObjectsPerSec cfg) (PlaneBytesPerSec cfg) tracked in
  mkLimiter cfg
    (newBucket (PlaneObjectsPerSec cfg) (PlaneObjectsPerSec cfg))
    (newBucket (PlaneBytesPerSec cfg) (PlaneBytesPerSec cfg)) ∅.

Definition enabled (l : option beefLimiter) : bool :=
  match l with
  | None => false
  | Some l =>
      let c := lim_cfg l in
      f_lt f_zero (SourceObjectsPerSec c) || f_lt f_zero (SourceBytesPerSec c) ||
      f_lt f_zero (PlaneObjectsPerSec c) || f_lt f_zero (PlaneBytesPerSec c)
  end.

Inductive rateDecision := rateAllow | rateDenySource | rateDenyPlane.

Definition reason (d : rateDecision) : string :=
  match d with
  | rateAllow => ""
  | rateDenySource => "beef_rate_source"
  | rateDenyPlane => "beef_rate_plane"
  end.

(** ** The source key *)

Definition addrToIP (a : NetAddr) : bytes :=
  match a with
  | NetUDP u => addr_ip u
  | NetTCP u => addr_ip u
  | NetIP ip => ip
  | NetOther _ parsed => parsed
  end.

(** The text [net.Addr.String] gives an address with no IP in it: the zone
    and the port of a socket address, nothing for an [IPAddr]. *)
Definition addr_string (a : NetAddr) : string :=
  match a with
  | NetUDP u | NetTCP u =>
      (if String.eqb (addr_zone u) "" then "" else "%" +:+ addr_zone u) +:+ ":" +:+ pretty (addr_port u)
  | NetIP _ => ""
  | NetOther s _ => s
  end.

(** [net.CIDRMask(ones, 8 * n)] applied to an address of [n] bytes. *)
Definition mask_byte (ones : Z) : Z :=
  if 8 <=? ones then 255 else if ones <=? 0 then 0 else 256 - 2 ^ (8 - ones).

Definition ip_mask (ones : Z) (ip : bytes) : bytes :=
  imap (λ i b, Z.land b (mask_byte (ones - 8 * Z.of_nat i))) ip.

(** [To4 ip] is empty exactly when [ip.To4()] is nil; an address of any
    other length than 4 or 16 bytes masks to nil. *)
Definition sourceKey (src : NetAddr) (prefixBits : Z) : SrcKey :=
  match addrToIP src with
  | [] => KeyStr (addr_string src)
  | ip =>
      match To4 ip with
      | [] => KeyIP (if decide (length ip = 16%nat) then ip_mask prefixBits ip else [])
      | v4 =>
          let bits := prefixBits - 96 in
          let bits := if (bits <? 0) || (32 <? bits) then 32 else bits in
          KeyIP (ip_mask bits v4)
      end
  end.

(** ** Charging *)

(** The scan of [evictOldestLocked] over the entries in range order. *)
Definition evict_scan (entries : list (SrcKey * srcBuckets)) : Z * SrcKey :=
  fold_left (λ acc kv, if time_is_zero acc.1 || (sb_seen kv.2 <? acc.1) then (sb_seen kv.2, kv.1) else acc)
    entries (0, KeyStr "").

Definition evictOldestLocked (srcs : gmap SrcKey srcBuckets) : gmap SrcKey srcBuckets :=
  let k := (evict_scan (map_range (map_to_list srcs))).2 in
  if decide (k = KeyStr "") then srcs else delete k srcs.

Definition allowSource (src : NetAddr) (n now : Z) (l : beefLimiter) : bool * beefLimiter :=
  let c := lim_cfg l in
  if f_le (SourceObjectsPerSec c) f_zero && f_le (SourceBytesPerSec c) f_zero then (true, l)
  else
    let key := sourceKey src (SourcePrefixBits c) in
    let fresh := mkSrcBuckets (newBucket (SourceObjectsPerSec c) (SourceObjectsPerSec c))
                   (newBucket (SourceBytesPerSec c) (SourceBytesPerSec c)) now in
    let srcs := match lim_srcs l !! key with
                | Some _ => lim_srcs l
                | None => if MaxTrackedSources c <=? Z.of_nat (size (lim_srcs l))
                          then evictOldestLocked (lim_srcs l) else lim_srcs l
                end in
    let sb := default fresh (lim_srcs l !! key) in
    let o := allowN now (f_of_int 1) (sb_obj sb) in
    let b := if o.1 then allowN now (f_of_int n) (sb_byt sb) else (false, sb_byt sb) in
    (b.1, l <| lim_srcs := <[key := mkSrcBuckets o.2 b.2 now]> srcs |>).

Definition allow (src : option NetAddr) (n now : Z) (l : beefLimiter) : rateDecision * beefLimiter :=
  match src with
  | None => (rateAllow, l)
  | Some src =>
      if negb (enabled (Some l)) then (rateAllow, l)
      else
        let s := allowSource src n now l in
        if negb s.1 then (rateDenySource, s.2)
        else
          let l := s.2 in
          let o := allowN now (f_of_int 1) (lim_planeObj l) in
          let l := l <| lim_planeObj := o.2 |> in
          if negb o.1 then (rateDenyPlane, l)
          else
            let b := allowN now (f_of_int n) (lim_planeByt l) in
            let l := l <| lim_planeByt := b.2 |> in
            if negb b.1 then (rateDenyPlane, l) else (rateAllow, l)
  end.

Definition SetBEEFRateLimit (cfg : BEEFRateConfig) : option beefLimiter := Some (newBEEFLimiter cfg).
End Limiter.
Arguments bucket {_}. Arguments BEEFRateConfig {_}. Arguments beefLimiter {_}. Arguments srcBuckets {_}.

(** ** Exact arithmetic *)

Definition exactRuntime : GoRuntime := {|
  F64 := Q; f_zero := 0%Q; f_of_int := inject_Z; f_add := Qplus; f_sub := Qminus; f_mul := Qmult;
  f_lt x y := negb (Qle_bool y x); f_seconds d := d # 1000000000; map_range := λ _ l, l |}.

Lemma exact_le (x y : Q) : @f_le exactRuntime x y = true ↔ (x <= y)%Q.
Proof. unfold f_le. simpl. rewrite negb_involutive. apply Qle_bool_iff. Qed.

Lemma exact_lt (x y : Q) : @f_lt exactRuntime x y = true ↔ (x < y)%Q.
Proof.
  simpl. rewrite negb_true_iff, <- not_true_iff_false, Qle_bool_iff. split; [apply Qnot_le_lt|apply Qlt_not_le].
Qed.

Lemma exactLaws : @RuntimeLaws exactRuntime.
Proof.
  split; try done; intros *; rewrite ?exact_le, ?exact_lt; simpl.
  - apply negb_false_iff, Qle_bool_iff, Qle_refl.
  - apply Qle_trans.
  - apply Qlt_le_weak.
  - intros. split; lra.
  - intros. lra.
  - intros. nra.
  - intros. unfold Qle. simpl. lia.
  - intros. unfold Qle. simpl. lia.
Qed.

Definition exactRounding : @RoundingLaws exactRuntime.
Proof.
  refine (Build_RoundingLaws exactRuntime (λ x : Q, x) 0%Q (inject_Z (2 ^ 1023)) exact_lt _ _ _ _ _ _).
  - reflexivity.
  - intros x y Hx Hy _. cbn [f_add exactRuntime]. unfold f_eps. lra.
  - intros x y [Hy Hyx]. cbn [f_sub exactRuntime]. unfold f_eps. lra.
  - intros x y Hx Hy _. cbn [f_mul exactRuntime]. assert (0 <= x * y)%Q by nra. unfold f_eps. lra.
  - intros d Hd. cbn [f_seconds exactRuntime]. unfold Qle. cbn. lia.
  - intros d Hd. change (f_seconds d) with (secs d). assert (0 <= secs d)%Q by (unfold secs, Qle; cbn; lia). unfold f_eps. lra.
Defined.
