(* ===== verification/RateLimitProps.v ===== *)
(** * Properties of the rate limiter *)

From Stdlib Require Import QArith Lqa.
From S2P Require Import Prelude Common RateLimit.
#[local] Open Scope Z_scope.

(** ** Buckets *)

Section Buckets.
Context `{RuntimeLaws}.

Record bucket_ok (b : bucket) : Prop := mkBucketOk {
  bok_low : f_le f_zero (bk_tokens b) = true;
  bok_high : f_le (bk_tokens b) (bk_burst b) = true }.

Lemma f_le_total x y : f_lt y x = false ↔ f_le x y = true.
Proof. unfold f_le. by rewrite negb_true_iff. Qed.

Lemma newBucket_ok r burst : bucket_ok (newBucket r burst).
Proof.
  unfold newBucket. destruct (f_le r f_zero) eqn:Er; [split; apply f_le_refl|].
  assert (Hr : f_lt f_zero r = true) by (unfold f_le in Er; by apply negb_false_iff in Er).
  apply f_lt_le in Hr. destruct (f_lt burst r) eqn:Eb; split; cbn [bk_tokens bk_burst]; try apply f_le_refl; [done|].
  apply f_le_total in Eb. by eapply f_le_trans.
Qed.

Lemma bucket_ok_burst b : bucket_ok b → f_le f_zero (bk_burst b) = true.
Proof. intros []. by eapply f_le_trans. Qed.

(** A limited bucket: its rate is positive. *)
Lemma refill_ok now b : f_le (bk_rate b) f_zero = false → bucket_ok b → bucket_ok (refill now b).
Proof.
  intros Hr Hb. pose proof (bucket_ok_burst b Hb). destruct Hb as [Hl Hh]. unfold refill. cbv zeta.
  destruct (f_lt f_zero _) eqn:Ee; [|done]. apply f_lt_le in Ee.
  assert (Hr' : f_le f_zero (bk_rate b) = true).
  { apply f_lt_le. unfold f_le in Hr. by apply negb_false_iff in Hr. }
  destruct (f_lt (bk_burst b) _) eqn:E; split; cbn [bk_tokens bk_burst]; try apply f_le_refl; [done| |].
  - apply f_add_nonneg; [done|]. by apply f_mul_nonneg.
  - by apply f_le_total.
Qed.

Lemma allowN_ok now n b : f_le f_zero n = true → bucket_ok b → bucket_ok (allowN now n b).2.
Proof.
  intros Hn Hb. unfold allowN. destruct (f_le (bk_rate b) f_zero) eqn:Er; [done|]. cbv zeta.
  pose proof (refill_ok now b Er Hb) as Hb'. pose proof (bucket_ok_burst _ Hb') as Hbu.
  destruct (f_lt (bk_tokens _) _) eqn:Et; cbn [snd]; [done|]. apply f_le_total in Et.
  destruct Hb' as [Hl Hh]. destruct (f_lt _ n) eqn:En.
  1: destruct (f_sub_range _ _ Hbu Et) as [H1 H2]. 2: destruct (f_sub_range _ _ Hn Et) as [H1 H2].
  all: split; cbn [bk_tokens bk_burst]; [done|].
  all: by eapply f_le_trans.
Qed.

(** ** The source table *)

Lemma evict_scan_from entries (kv0 : SrcKey * srcBuckets) :
  0 < sb_seen kv0.2 → (∀ kv, kv ∈ entries → 0 < sb_seen kv.2) →
  ∃ kv, kv ∈ kv0 :: entries ∧
    fold_left (λ acc kv, if time_is_zero acc.1 || (sb_seen kv.2 <? acc.1) then (sb_seen kv.2, kv.1) else acc)
      entries (sb_seen kv0.2, kv0.1) = (sb_seen kv.2, kv.1) ∧
    ∀ kv', kv' ∈ kv0 :: entries → sb_seen kv.2 ≤ sb_seen kv'.2.
Proof.
  revert kv0. induction entries as [|e entries IH]; intros kv0 Hp Hs; cbn [fold_left].
  { exists kv0. split_and!; [set_solver|done|]. intros kv'. rewrite list_elem_of_singleton. by intros ->. }
  cbn [fst]. unfold time_is_zero at 2. rewrite (proj2 (Z.eqb_neq _ 0)) by lia. cbn [orb].
  assert (He : 0 < sb_seen e.2) by (apply Hs; set_solver).
  destruct (sb_seen e.2 <? sb_seen kv0.2) eqn:E.
  - destruct (IH e He) as (kv & Hin & Hf & Hmin); [intros; apply Hs; set_solver|].
    exists kv. split_and!; [set_solver|done|]. intros kv' Hkv'.
    apply elem_of_cons in Hkv' as [->|Hkv']; [|auto]. specialize (Hmin e ltac:(set_solver)). lia.
  - destruct (IH kv0 Hp) as (kv & Hin & Hf & Hmin); [intros; apply Hs; set_solver|].
    exists kv. split_and!; [set_solver|done|]. intros kv' Hkv'.
    apply elem_of_cons in Hkv' as [->|Hkv']; [apply Hmin; set_solver|].
    apply elem_of_cons in Hkv' as [->|Hkv']; [|apply Hmin; set_solver].
    specialize (Hmin kv0 ltac:(set_solver)). lia.
Qed.

Definition srcs_ok (srcs : gmap SrcKey srcBuckets) : Prop :=
  ∀ k sb, srcs !! k = Some sb → k ≠ KeyStr "" ∧ 0 < sb_seen sb ∧ bucket_ok (sb_obj sb) ∧ bucket_ok (sb_byt sb).

(** Eviction drops one entry, one charged least recently. *)
Lemma evictOldest_spec srcs :
  srcs_ok srcs → srcs ≠ ∅ →
  ∃ k sb, srcs !! k = Some sb ∧ evictOldestLocked srcs = delete k srcs ∧
    ∀ k' sb', srcs !! k' = Some sb' → sb_seen sb ≤ sb_seen sb'.
Proof.
  intros Hok Hne. unfold evictOldestLocked, evict_scan.
  assert (Hin : ∀ kv, kv ∈ map_range (map_to_list srcs) ↔ srcs !! kv.1 = Some kv.2).
  { intros [k sb]. by rewrite (map_range_perm _ (map_to_list srcs)), elem_of_map_to_list. }
  destruct (map_range (map_to_list srcs)) as [|kv0 l] eqn:El.
  { destruct Hne. apply map_eq. intros k. rewrite lookup_empty. destruct (srcs !! k) as [sb|] eqn:E; [|done].
    by apply (Hin (k, sb)), elem_of_nil in E. }
  cbn [fold_left]. change (time_is_zero (0, KeyStr "").1) with true. cbn [orb].
  assert (Hs : ∀ kv, kv ∈ kv0 :: l → 0 < sb_seen kv.2) by (intros kv Hkv%Hin%Hok; tauto).
  destruct (evict_scan_from l kv0) as ([k sb] & Hk & Hf & Hmin);
    [apply Hs; set_solver|intros; apply Hs; set_solver|].
  rewrite Hf. cbn [snd fst]. apply Hin in Hk. simpl in Hk. exists k, sb.
  destruct (Hok k sb Hk) as [Hk' _]. rewrite decide_False by done.
  split_and!; [done|done|]. intros k' sb' E. apply (Hmin (k', sb')), Hin. done.
Qed.

Record limiter_ok (l : beefLimiter) : Prop := mkLimiterOk {
  lok_obj : bucket_ok (lim_planeObj l);
  lok_byt : bucket_ok (lim_planeByt l);
  lok_srcs : srcs_ok (lim_srcs l);
  lok_cap : 1 ≤ MaxTrackedSources (lim_cfg l);
  lok_size : Z.of_nat (size (lim_srcs l)) ≤ MaxTrackedSources (lim_cfg l) }.

Lemma newBEEFLimiter_ok cfg : limiter_ok (newBEEFLimiter cfg).
Proof.
  split; cbn [newBEEFLimiter lim_planeObj lim_planeByt lim_srcs lim_cfg MaxTrackedSources].
  1, 2: apply newBucket_ok.
  - intros k sb. by rewrite lookup_empty.
  - destruct (_ <=? 0) eqn:E; lia.
  - rewrite map_size_empty. destruct (_ <=? 0) eqn:E; lia.
Qed.

(** The table an insertion starts from: room for one more entry, and the
    entries of the old table, less at most one. *)
Lemma make_room srcs cap (key : SrcKey) :
  srcs_ok srcs → 1 ≤ cap → Z.of_nat (size srcs) ≤ cap → srcs !! key = None →
  let srcs' := if cap <=? Z.of_nat (size srcs) then evictOldestLocked srcs else srcs in
  srcs' ⊆ srcs ∧ Z.of_nat (size srcs') < cap.
Proof.
  intros Hok Hcap Hsz Hk. cbv zeta. destruct (cap <=? _) eqn:E; [|split; [done|lia]].
  apply Z.leb_le in E. assert (size srcs ≠ 0%nat) as Hne by lia. apply map_size_non_empty_iff in Hne as Hne'.
  destruct (evictOldest_spec srcs Hok) as (k & sb & Hin & -> & _); [done|].
  split; [apply delete_subseteq|]. rewrite map_size_delete_Some by done. lia.
Qed.

Lemma size_insert_new {A} (m : gmap SrcKey A) k x : (size (<[k := x]> m) ≤ S (size m))%nat.
Proof. rewrite map_size_insert. case_match; simpl; lia. Qed.

Lemma allowSource_ok src n now l :
  0 < now → 0 ≤ n → sourceKey src (SourcePrefixBits (lim_cfg l)) ≠ KeyStr "" →
  limiter_ok l → limiter_ok (allowSource src n now l).2.
Proof.
  intros Hnow Hn Hkey [Ho Hb Hs Hc Hsz]. unfold allowSource. destruct (_ && _); [done|]. cbv zeta. cbn [snd].
  set (key := sourceKey _ _) in *. set (c := lim_cfg l) in *.
  set (srcs := match lim_srcs l !! key with Some _ => lim_srcs l | None => _ end).
  set (sb := default _ _).
  assert (Hsb : bucket_ok (sb_obj sb) ∧ bucket_ok (sb_byt sb)).
  { unfold sb. destruct (lim_srcs l !! key) as [sb0|] eqn:E; simpl; [apply (Hs key) in E; tauto|].
    split; apply newBucket_ok. }
  assert (Hsub : srcs ⊆ lim_srcs l ∧ (Z.of_nat (size (<[key := sb]> srcs)) ≤ MaxTrackedSources c)).
  { unfold srcs. destruct (lim_srcs l !! key) as [sb0|] eqn:E.
    - split; [done|]. rewrite map_size_insert, E. simpl. done.
    - destruct (make_room _ (MaxTrackedSources c) key Hs Hc Hsz E) as [H1 H2]. split; [done|].
      pose proof (size_insert_new (if MaxTrackedSources c <=? Z.of_nat (size (lim_srcs l))
        then evictOldestLocked (lim_srcs l) else lim_srcs l) key sb). lia. }
  destruct Hsub as [Hsub Hsize]. split; cbn [lim_planeObj lim_planeByt lim_srcs lim_cfg set_field]; try done.
  - intros k sb' Hk. simpl in Hk. apply lookup_insert_Some in Hk as [[<- <-]|[_ Hk]].
    + cbn [sb_seen sb_obj sb_byt]. split_and!; try done.
      * apply allowN_ok; [by apply f_of_int_nonneg|apply Hsb].
      * destruct (allowN now (f_of_int 1) (sb_obj sb)).1; [|apply Hsb].
        apply allowN_ok; [by apply f_of_int_nonneg|apply Hsb].
    + apply (Hs k). eapply lookup_weaken; eauto.
  - simpl. rewrite map_size_insert in *. done.
Qed.

Lemma allowSource_frame src n now l :
  lim_cfg (allowSource src n now l).2 = lim_cfg l ∧
  lim_planeObj (allowSource src n now l).2 = lim_planeObj l ∧
  lim_planeByt (allowSource src n now l).2 = lim_planeByt l.
Proof. unfold allowSource. by destruct (_ && _). Qed.

(** [allow] is the source tier followed by the plane tier. *)
Lemma allow_source_part src n now l :
  let s := allowSource src n now l in
  let r := allow (Some src) n now l in
  lim_cfg r.2 = lim_cfg l ∧
  (r.2 = l ∨ lim_srcs r.2 = lim_srcs s.2) ∧
  (r.1 = rateDenySource → lim_planeObj r.2 = lim_planeObj l ∧ lim_planeByt r.2 = lim_planeByt l).
Proof.
  cbv zeta. destruct (allowSource_frame src n now l) as (Hc & Ho & Hb).
  unfold allow. destruct (negb (enabled _)); [naive_solver|]. cbv zeta.
  destruct (allowSource src n now l).1; cbn [negb fst snd]; [|naive_solver].
  destruct (allowN now (f_of_int 1) _).1; cbn [negb fst snd]; [|split_and!; [done|by right|done]].
  destruct (allowN now (f_of_int n) _).1; cbn [negb fst snd]; (split_and!; [done|by right|done]).
Qed.

Lemma allow_ok src n now l :
  0 < now → 0 ≤ n → (∀ a, src = Some a → sourceKey a (SourcePrefixBits (lim_cfg l)) ≠ KeyStr "") →
  limiter_ok l → limiter_ok (allow src n now l).2.
Proof.
  intros Hnow Hn Hkey Hl. destruct src as [src|]; [|done].
  pose proof (allowSource_ok src n now l Hnow Hn (Hkey src eq_refl) Hl) as Hs.
  unfold allow. destruct (negb (enabled _)); [done|]. cbv zeta.
  destruct (allowSource src n now l) as [[] l']; cbn [negb fst snd] in *; [|done].
  destruct Hs as [Ho Hb Hs Hc Hz].
  pose proof (allowN_ok now (f_of_int 1) _ (f_of_int_nonneg 1 ltac:(lia)) Ho).
  pose proof (allowN_ok now (f_of_int n) _ (f_of_int_nonneg n Hn) Hb).
  destruct (allowN now (f_of_int 1) (lim_planeObj l')).1; cbn [negb fst snd]; [|by split].
  by destruct (allowN now (f_of_int n) (lim_planeByt _)).1; cbn [negb fst snd]; split.
Qed.

(** A run of the limiter over the objects offered to it. *)
Definition limiter_run (l : beefLimiter) (calls : list (option NetAddr * Z * Z)) : beefLimiter :=
  fold_left (λ l c, (allow c.1.1 c.1.2 c.2 l).2) calls l.

Lemma limiter_run_ok l calls :
  limiter_ok l →
  (∀ src n now, (src, n, now) ∈ calls → 0 < now ∧ 0 ≤ n ∧
     ∀ a, src = Some a → sourceKey a (SourcePrefixBits (lim_cfg l)) ≠ KeyStr "") →
  limiter_ok (limiter_run l calls) ∧ lim_cfg (limiter_run l calls) = lim_cfg l.
Proof.
  revert l. induction calls as [|[[src n] now] calls IH]; intros l Hl Hc; [done|].
  unfold limiter_run. cbn [fold_left fst snd]. fold (limiter_run (allow src n now l).2 calls).
  destruct (Hc src n now ltac:(set_solver)) as (Hnow & Hn & Hk).
  assert (E : lim_cfg (allow src n now l).2 = lim_cfg l) by (destruct src; [apply allow_source_part|done]).
  destruct (IH (allow src n now l).2) as [H1 H2]; [by apply allow_ok| |by rewrite H2].
  intros src' n' now' Hin. rewrite E. apply Hc. set_solver.
Qed.

(** C33: whatever objects are offered, from whatever addresses, every budget
    of the limiter stays between zero and its depth, and the source table
    never holds more than MaxTrackedSources entries: the limiter cannot be
    made to exhaust memory. (The only address excluded is one with no text
    at all, which the eviction could not remove.) *)
Theorem limiter_stays_bounded cfg calls :
  let l0 := newBEEFLimiter cfg in
  let l := limiter_run l0 calls in
  (∀ src n now, (src, n, now) ∈ calls → 0 < now ∧ 0 ≤ n ∧
     ∀ a, src = Some a → sourceKey a (SourcePrefixBits (lim_cfg l0)) ≠ KeyStr "") →
  Z.of_nat (size (lim_srcs l)) ≤ MaxTrackedSources (lim_cfg l0) ∧
  bucket_ok (lim_planeObj l) ∧ bucket_ok (lim_planeByt l) ∧
  ∀ k sb, lim_srcs l !! k = Some sb → bucket_ok (sb_obj sb) ∧ bucket_ok (sb_byt sb).
Proof.
  cbv zeta. intros Hc. destruct (limiter_run_ok _ calls (newBEEFLimiter_ok cfg) Hc) as [[Ho Hb Hs _ Hz] E].
  rewrite E in Hz. split_and!; try done. intros k sb Hk. destruct (Hs k sb Hk) as (_ & _ & ?). done.
Qed.

(** C36: one source prefix cannot spend another's budget.  A relayed object
    (no source address) is never limited and changes nothing; an object its
    own source budget refuses costs the shared plane budget nothing; and
    charging a source leaves the budget of every other source prefix as it
    was, or evicts it when the table is full, in which case it is one charged
    least recently. *)
Theorem allow_isolates_sources src n now l k :
  limiter_ok l → k ≠ sourceKey src (SourcePrefixBits (lim_cfg l)) →
  allow None n now l = (rateAllow, l) ∧
  let r := allow (Some src) n now l in
  (r.1 = rateDenySource → lim_planeObj r.2 = lim_planeObj l ∧ lim_planeByt r.2 = lim_planeByt l) ∧
  (lim_srcs r.2 !! k = lim_srcs l !! k ∨
   lim_srcs r.2 !! k = None ∧ MaxTrackedSources (lim_cfg l) ≤ Z.of_nat (size (lim_srcs l)) ∧
     ∃ sb, lim_srcs l !! k = Some sb ∧ ∀ k' sb', lim_srcs l !! k' = Some sb' → sb_seen sb ≤ sb_seen sb').
Proof.
  intros Hl Hk. split; [done|]. cbv zeta. destruct (allow_source_part src n now l) as (_ & Hs & Hp).
  split; [done|]. destruct Hs as [-> | ->]; [by left|]. destruct Hl as [_ _ Hs Hcap _].
  unfold allowSource. destruct (_ && _); [by left|]. cbv zeta. cbn [snd]. simpl lim_srcs.
  rewrite lookup_insert_ne by done. destruct (lim_srcs l !! sourceKey _ _) eqn:E; [by left|].
  destruct (_ <=? _) eqn:Ef; [|by left]. apply Z.leb_le in Ef.
  assert (size (lim_srcs l) ≠ 0%nat) as Hne by lia. apply map_size_non_empty_iff in Hne.
  destruct (evictOldest_spec _ Hs Hne) as (k0 & sb & Hin & -> & Hmin).
  destruct (decide (k0 = k)) as [->|]; [right|left; by apply lookup_delete_ne].
  rewrite lookup_delete_eq. eauto.
Qed.
End Buckets.

(** ** Accounting *)

Lemma secs_add d e : (secs (d + e) == secs d + secs e)%Q.
Proof. unfold secs, Qeq. simpl. lia. Qed.

Lemma secs_le d e : d ≤ e → (secs d <= secs e)%Q.
Proof. intros. unfold secs, Qle. simpl. lia. Qed.

Lemma secs_nonneg d : 0 ≤ d → (0 <= secs d)%Q.
Proof. intros. unfold secs, Qle. simpl. lia. Qed.

(** What rounding adds to a refill: the three roundings of [elapsed * rate],
    and one each for the addition and the subtraction. *)
Definition rounded : Q := ((1 + f_eps) * (1 + f_eps) * (1 + f_eps))%Q.

Lemma rounded_bounds : (1 <= rounded <= 2)%Q.
Proof. unfold rounded, f_eps. split; vm_compute; discriminate. Qed.

(** A number that is at most [s] up to rounding and at most [B] exceeds [s]
    by the rounding of [B] at most. *)
Lemma rounding_of_bounded (x s B : Q) : (0 <= s → 0 <= B → x <= s * (1 + f_eps) → x <= B → x <= s + f_eps * B)%Q.
Proof.
  intros Hs HB Hx HxB. assert (0 < f_eps)%Q by reflexivity. destruct (Qlt_le_dec s B) as [Hlt|Hle]; nra.
Qed.

Section Rounded.
Context {RT : GoRuntime} {RL : RuntimeLaws} {FL : RoundingLaws}.
Implicit Types b : bucket.

Lemma f_le_val x y : f_le x y = true ↔ (f_val x <= f_val y)%Q.
Proof.
  unfold f_le. rewrite negb_true_iff, <- not_true_iff_false, f_lt_val.
  split; [apply Qnot_lt_le|apply Qle_not_lt].
Qed.

Lemma bucket_ok_val b : bucket_ok b → (0 <= f_val (bk_tokens b) <= f_val (bk_burst b))%Q.
Proof. intros [Hl%f_le_val Hh%f_le_val]. pose proof f_val_zero. split; [lra|done]. Qed.

(** What an admitted request costs. *)
Definition charge b (n : F64) : Q := f_val (if f_lt (bk_burst b) n then bk_burst b else n).

(** The total charged by a run of requests [(time, size)]. *)
Fixpoint admitted b (calls : list (Z * F64)) : Q :=
  match calls with
  | [] => 0
  | (now, n) :: calls =>
      let r := allowN now n b in
      ((if r.1 then charge b n else 0) + admitted r.2 calls)%Q
  end.

(** A limited bucket whose refills stay in range: that of a nanosecond is a
    normal number, and that of the longest duration and the depth are
    finite. *)
Record in_range b : Prop := mkInRange {
  ir_rate : (0 < f_val (bk_rate b))%Q;
  ir_min : (f_min <= f_val (bk_rate b) * (1 # 2000000000))%Q;
  ir_max : (f_val (bk_burst b) + f_val (bk_rate b) * secs maxDuration * 2 <= f_max)%Q }.

Lemma refill_charges now b :
  in_range b → bucket_ok b → 0 < now → 0 < bk_last b →
  let r := refill now b in
  bk_rate r = bk_rate b ∧ bk_burst r = bk_burst b ∧ bk_last b ≤ bk_last r ≤ Z.max (bk_last b) now ∧
  (f_val (bk_tokens r) <= f_val (bk_tokens b) + f_val (bk_rate b) * secs (bk_last r - bk_last b) * rounded +
     f_eps * f_val (bk_burst b))%Q.
Proof.
  intros [Hr Hmin Hmax] Hok Hnow Hlast. cbv zeta. destruct (bucket_ok_val b Hok) as [Ht HtB].
  assert (He : (0 < f_eps)%Q) by reflexivity.
  unfold refill, time_is_zero. rewrite (proj2 (Z.eqb_neq _ 0)) by lia. cbv zeta.
  set (d := time_sub now (bk_last b)). destruct (f_lt f_zero (f_seconds d)) eqn:Ee; cbn [bk_rate bk_burst bk_last bk_tokens].
  2:{ split_and!; [done|done|lia|lia|]. rewrite Z.sub_diag. assert (secs 0 == 0)%Q as -> by reflexivity. nra. }
  apply f_lt_val in Ee. pose proof f_val_zero as Hz.
  assert (Hd : 0 < d). { destruct (Z.lt_ge_cases 0 d) as [|Hle]; [done|]. apply f_seconds_neg in Hle. lra. }
  assert (Hd' : bk_last b < now ∧ d ≤ now - bk_last b ∧ d ≤ maxDuration).
  { revert Hd. unfold d, time_sub, maxDuration, minDuration. lia. }
  destruct Hd' as (Hlt & Hdn & Hdm). split_and!; [done|done|lia|lia|].
  destruct (f_seconds_round d Hd) as [Hs1 Hs2]. set (el := f_val (f_seconds d)) in *. set (R := f_val (bk_rate b)) in *.
  pose proof (secs_le 1 d ltac:(lia)) as H1. pose proof (secs_le d _ Hdn) as H2. pose proof (secs_le d _ Hdm) as H3.
  assert (E1 : (secs 1 == 1 # 1000000000)%Q) by reflexivity.
  assert (Hel : ((1 # 2000000000) <= el)%Q) by (unfold f_eps in *; lra).
  assert (Hsq : ((1 + f_eps) * (1 + f_eps) <= 2)%Q) by (vm_compute; discriminate).
  assert (Hsd : (0 <= secs d)%Q) by (apply secs_nonneg; lia).
  assert (Hel2 : (el <= secs maxDuration * 2)%Q).
  { eapply Qle_trans; [exact Hs2|]. eapply Qle_trans; [rewrite Qmult_comm; apply Qmult_le_compat_r; [exact Hsq|done]|]. lra. }
  destruct (f_mul_round (f_seconds d) (bk_rate b)) as [Hm0 Hm]; [fold el; lra|fold R; lra| |].
  { fold el R. assert (HR : (0 <= R)%Q) by lra. pose proof (Qmult_le_compat_r _ _ R Hel HR) as M1.
    pose proof (Qmult_le_compat_r _ _ R Hel2 HR) as M2. split; lra. }
  fold el R in Hm. set (y := f_val (f_mul (f_seconds d) (bk_rate b))) in *.
  assert (Hy : (y <= R * secs (now - bk_last b) * rounded)%Q).
  { unfold rounded. eapply Qle_trans; [exact Hm|]. assert (0 <= R)%Q by lra. assert (0 <= 1 + f_eps)%Q by lra.
    assert (el * R * (1 + f_eps) <= (secs (now - bk_last b) * ((1 + f_eps) * (1 + f_eps))) * R * (1 + f_eps))%Q; [|lra].
    apply Qmult_le_compat_r; [|done]. apply Qmult_le_compat_r; [|done]. eapply Qle_trans; [exact Hs2|].
    apply Qmult_le_compat_r; [done|]. vm_compute. discriminate. }
  assert (Hsum : (f_val (bk_tokens b) + y <= f_max)%Q).
  { assert (el * R * (1 + f_eps) <= R * secs maxDuration * 2)%Q; [|lra].
    assert (Hel3 : (el * (1 + f_eps) <= secs maxDuration * 2)%Q).
    { eapply Qle_trans; [apply Qmult_le_compat_r; [exact Hs2|lra]|]. rewrite <- Qmult_assoc, Qmult_comm.
      eapply Qle_trans; [apply Qmult_le_compat_r; [apply rounded_bounds|done]|]. lra. }
    pose proof (Qmult_le_compat_r _ _ R Hel3 ltac:(lra)). lra. }
  pose proof (f_add_round (bk_tokens b) (f_mul (f_seconds d) (bk_rate b)) Ht Hm0 Hsum) as Ha. fold y in Ha.
  set (z := f_add (bk_tokens b) (f_mul (f_seconds d) (bk_rate b))) in *.
  assert (Hz1 : (f_val (if f_lt (bk_burst b) z then bk_burst b else z) <=
    (f_val (bk_tokens b) + y) + f_eps * f_val (bk_burst b))%Q); [|lra].
  destruct (f_lt (bk_burst b) z) eqn:Ez; [apply f_lt_val in Ez|apply not_true_iff_false in Ez; rewrite f_lt_val in Ez; apply Qnot_lt_le in Ez];
    apply rounding_of_bounded; lra.
Qed.

(** One request: what is in the bucket plus what was charged never exceeds
    what was in it plus the refill for the time its clock advanced, but for
    the rounding. *)
Lemma allowN_charges now n b :
  in_range b → bucket_ok b → 0 < now → 0 < bk_last b → (0 <= f_val n)%Q →
  let r := allowN now n b in
  bk_rate r.2 = bk_rate b ∧ bk_burst r.2 = bk_burst b ∧
  bk_last b ≤ bk_last r.2 ≤ Z.max (bk_last b) now ∧
  ((if r.1 then charge b n else 0) + f_val (bk_tokens r.2) <=
     f_val (bk_tokens b) + f_val (bk_rate b) * secs (bk_last r.2 - bk_last b) * rounded + 2 * f_eps * f_val (bk_burst b))%Q.
Proof.
  intros Hir Hok Hnow Hlast Hn. cbv zeta. unfold allowN. pose proof f_val_zero as Hz. pose proof (ir_rate _ Hir) as Hr.
  assert (Er : f_le (bk_rate b) f_zero = false) by (apply not_true_iff_false; rewrite f_le_val; lra). rewrite Er.
  destruct (refill_charges now b Hir Hok Hnow Hlast) as (E1 & E2 & E3 & E4).
  pose proof (bucket_ok_val _ (refill_ok now b Er Hok)) as Hb. rewrite E2 in Hb. unfold charge.
  assert (He : (0 < f_eps)%Q) by reflexivity.
  assert (HB : (0 <= f_eps * f_val (bk_burst b))%Q).
  { apply Qmult_le_0_compat; lra. }
  rewrite !E2. set (c := if f_lt (bk_burst b) n then _ else n).
  assert (Hc : (0 <= f_val c)%Q) by (unfold c; destruct (f_lt _ n); lra).
  destruct (f_lt (bk_tokens _) c) eqn:Et; cbn [fst snd bk_rate bk_burst bk_last bk_tokens].
  - split_and!; try done; try lia. lra.
  - apply not_true_iff_false in Et. rewrite f_lt_val in Et. apply Qnot_lt_le in Et. split_and!; try done; try lia.
    pose proof (f_sub_round (bk_tokens (refill now b)) c (conj Hc Et)) as Hs.
    assert (f_val (f_sub (bk_tokens (refill now b)) c) <= f_val (bk_tokens (refill now b)) - f_val c + f_eps * f_val (bk_burst b))%Q; [|lra].
    nra.
Qed.

Lemma in_range_same b b' : bk_rate b' = bk_rate b → bk_burst b' = bk_burst b → in_range b → in_range b'.
Proof. intros Er Eb [H1 H2 H3]. split; rewrite ?Er, ?Eb; done. Qed.

Lemma admitted_bound tmax calls b :
  in_range b → bucket_ok b → 0 < bk_last b ≤ tmax →
  Forall (λ c, 0 < c.1 ≤ tmax ∧ (0 <= f_val c.2)%Q) calls →
  (admitted b calls <= f_val (bk_tokens b) + f_val (bk_rate b) * secs (tmax - bk_last b) * rounded +
     2 * f_eps * f_val (bk_burst b) * inject_Z (Zlen calls))%Q.
Proof.
  intros Hir Hok Hl Hc. revert b Hir Hok Hl. induction Hc as [|[now n] calls [Hn Hn0] Hc IH]; intros b Hir Hok Hl.
  { cbn [admitted]. pose proof (secs_nonneg (tmax - bk_last b) ltac:(lia)). pose proof (ir_rate _ Hir). pose proof rounded_bounds.
    destruct (bucket_ok_val b Hok). assert (inject_Z (Zlen []) == 0)%Q as -> by reflexivity.
    assert (0 <= f_val (bk_rate b) * secs (tmax - bk_last b))%Q by nra. nra. }
  simpl in Hn, Hn0. cbn [admitted]. cbv zeta.
  destruct (allowN_charges now n b Hir Hok ltac:(lia) ltac:(lia) Hn0) as (E1 & E2 & E3 & E4).
  assert (Hok' : bucket_ok (allowN now n b).2).
  { apply allowN_ok; [|done]. apply f_le_val. pose proof f_val_zero. lra. }
  set (r := allowN now n b) in *. specialize (IH r.2 (in_range_same _ _ E1 E2 Hir) Hok' ltac:(lia)). rewrite E1, E2 in IH.
  pose proof (secs_add (tmax - bk_last r.2) (bk_last r.2 - bk_last b)) as Ha.
  replace (tmax - bk_last r.2 + (bk_last r.2 - bk_last b)) with (tmax - bk_last b) in Ha by lia.
  rewrite Ha, Zlen_cons, inject_Z_plus. assert (inject_Z 1 == 1)%Q as -> by reflexivity.
  set (k := (f_eps * f_val (bk_burst b))%Q) in *. nra.
Qed.

End Rounded.

(** ** Exact arithmetic *)

Section Exact.
#[local] Existing Instance exactRuntime.
#[local] Existing Instance exactLaws.
Implicit Types b : @bucket exactRuntime.

(** No object is rejected for ever, whatever its size: once a bucket has
    been left alone for the time its depth takes to refill, any request is
    admitted, an object bigger than the whole budget included. *)
Theorem bucket_never_starves now n b :
  (0 < bk_rate b)%Q → 0 < bk_last b ≤ now → now - bk_last b ≤ maxDuration →
  (0 <= bk_tokens b <= bk_burst b)%Q → (bk_burst b <= bk_rate b * secs (now - bk_last b))%Q →
  (allowN (H := exactRuntime) now n b).1 = true.
Proof.
  intros Hr Hl Hmax Ht Hb. unfold allowN.
  destruct (f_le (bk_rate b) f_zero) eqn:E; [done|]. cbv zeta.
  assert (Hfull : (bk_burst b <= bk_tokens (refill now b))%Q ∧ bk_burst (refill now b) = bk_burst b).
  { unfold refill, time_is_zero. rewrite (proj2 (Z.eqb_neq _ 0)) by lia. cbv zeta.
    replace (time_sub now (bk_last b)) with (now - bk_last b) by (unfold time_sub, maxDuration, minDuration in *; lia).
    change (f_seconds (now - bk_last b)) with (secs (now - bk_last b)).
    destruct (f_lt f_zero _) eqn:Ee; cbn [bk_tokens bk_burst]; split; try done.
    - destruct (f_lt (bk_burst b) _); [lra|]. simpl. nra.
    - apply not_true_iff_false in Ee. rewrite exact_lt in Ee. simpl in Ee. apply Qnot_lt_le in Ee. nra. }
  destruct Hfull as [Hfull ->].
  destruct (f_lt (bk_tokens _) _) eqn:Et; [|done]. apply exact_lt in Et.
  destruct (f_lt (bk_burst b) n) eqn:En; [lra|].
  apply not_true_iff_false in En. rewrite exact_lt in En. apply Qnot_lt_le in En. lra.
Qed.
End Exact.

(** ** Source prefixes *)

(** Bit [i] of an address, the first bit of the address being bit 0. *)
Definition ip_bit (ip : bytes) (i : Z) : bool := Z.testbit (byte_at (Z.to_nat (i / 8)) ip) (7 - i mod 8).

Lemma testbit_mask_byte ones k : 0 ≤ k < 8 → Z.testbit (mask_byte ones) k = (8 - k <=? ones).
Proof.
  intros Hk. unfold mask_byte.
  destruct (8 <=? ones) eqn:E1.
  { change 255 with (Z.ones 8). rewrite Z.ones_spec_low by lia. symmetry. apply Z.leb_le. lia. }
  destruct (ones <=? 0) eqn:E2; [rewrite Z.bits_0; symmetry; apply Z.leb_gt; lia|].
  assert (Hones : 0 < ones < 8) by lia.
  assert (Hv : ones = 1 ∨ ones = 2 ∨ ones = 3 ∨ ones = 4 ∨ ones = 5 ∨ ones = 6 ∨ ones = 7) by lia.
  assert (Hw : k = 0 ∨ k = 1 ∨ k = 2 ∨ k = 3 ∨ k = 4 ∨ k = 5 ∨ k = 6 ∨ k = 7) by lia.
  clear Hk E1 E2 Hones. repeat destruct Hv as [-> | Hv]; subst; repeat destruct Hw as [-> | Hw]; subst; reflexivity.
Qed.

Lemma byte_land_bits x y m :
  is_byte x → is_byte y →
  (Z.land x m = Z.land y m ↔ ∀ k, 0 ≤ k < 8 → Z.testbit m k = true → Z.testbit x k = Z.testbit y k).
Proof.
  intros Hx Hy. split.
  - intros E k Hk Hm. pose proof (f_equal (λ z, Z.testbit z k) E) as Ek. simpl in Ek.
    rewrite !Z.land_spec, Hm, !andb_true_r in Ek. done.
  - intros Hb. apply Z.bits_inj'. intros k Hk. rewrite !Z.land_spec.
    destruct (decide (k < 8)) as [Hlt|Hge].
    + destruct (Z.testbit m k) eqn:Em; [|by rewrite !andb_false_r]. by rewrite (Hb k).
    + unfold is_byte in *. replace x with (x mod 2 ^ 8) by (apply Z.mod_small; lia).
      replace y with (y mod 2 ^ 8) by (apply Z.mod_small; lia). by rewrite !Z.mod_pow2_bits_high by lia.
Qed.

Lemma ip_mask_eq ones a b :
  Forall is_byte a → Forall is_byte b → length a = length b →
  (ip_mask ones a = ip_mask ones b ↔
   ∀ i, 0 ≤ i < ones → i < 8 * Zlen a → ip_bit a i = ip_bit b i).
Proof.
  intros Ha Hb Hlen. unfold ip_mask, ip_bit. split.
  - intros E i Hi Hl. set (j := Z.to_nat (i / 8)).
    assert (Hj : (j < length a)%nat) by (unfold j, Zlen in *; zlia).
    destruct (lookup_lt_is_Some_2 a j Hj) as [x Hx].
    destruct (lookup_lt_is_Some_2 b j ltac:(lia)) as [y Hy].
    pose proof (f_equal (λ l, l !! j) E) as Ej. simpl in Ej.
    rewrite !list_lookup_imap, Hx, Hy in Ej. simpl in Ej. injection Ej as Ej.
    unfold byte_at. rewrite (nth_lookup_Some _ _ _ _ Hx), (nth_lookup_Some _ _ _ _ Hy).
    pose proof (Forall_lookup_1 _ _ _ _ Ha Hx). pose proof (Forall_lookup_1 _ _ _ _ Hb Hy).
    eapply byte_land_bits; eauto; [zlia|]. rewrite testbit_mask_byte by zlia. apply Z.leb_le. unfold j. zlia.
  - intros Hbits. apply list_eq. intros j. rewrite !list_lookup_imap.
    destruct (a !! j) as [x|] eqn:Hx, (b !! j) as [y|] eqn:Hy; simpl; try done.
    + f_equal. pose proof (Forall_lookup_1 _ _ _ _ Ha Hx). pose proof (Forall_lookup_1 _ _ _ _ Hb Hy).
      apply byte_land_bits; [done..|]. intros k Hk. rewrite testbit_mask_byte by done. intros Hm%Z.leb_le.
      apply lookup_lt_Some in Hx as Hjl.
      specialize (Hbits (8 * Z.of_nat j + (7 - k)) ltac:(lia) ltac:(unfold Zlen; lia)).
      replace (Z.to_nat ((8 * Z.of_nat j + (7 - k)) / 8)) with j in Hbits by zlia.
      replace (7 - (8 * Z.of_nat j + (7 - k)) mod 8) with k in Hbits by zlia.
      unfold byte_at in Hbits. by rewrite (nth_lookup_Some _ _ _ _ Hx), (nth_lookup_Some _ _ _ _ Hy) in Hbits.
    + apply lookup_lt_Some in Hx. apply lookup_ge_None in Hy. lia.
    + apply lookup_lt_Some in Hy. apply lookup_ge_None in Hx. lia.
Qed.

(** Two IPv6 sources share a budget exactly when the first
    SourcePrefixBits bits of their addresses agree, whatever their ports and
    zones and whether they came over UDP or TCP: moving to another address of
    one's prefix does not evade the limit, and a neighbouring prefix is not
    charged. *)
Theorem sourceKey_shares_prefix bits a b :
  Forall is_byte (addr_ip a) → Forall is_byte (addr_ip b) →
  length (addr_ip a) = 16%nat → length (addr_ip b) = 16%nat →
  To4 (addr_ip a) = [] → To4 (addr_ip b) = [] → 0 < bits ≤ 128 →
  (sourceKey (NetUDP a) bits = sourceKey (NetTCP b) bits ↔
   ∀ i, 0 ≤ i < bits → ip_bit (addr_ip a) i = ip_bit (addr_ip b) i).
Proof.
  intros Ha Hb La Lb Ta Tb Hbits. unfold sourceKey. cbn [addrToIP].
  destruct (addr_ip a) as [|xa la] eqn:Ea; [done|]. destruct (addr_ip b) as [|xb lb] eqn:Eb; [done|].
  rewrite Ta, Tb, !decide_True by done.
  assert (Hk : ∀ m m', KeyIP m = KeyIP m' ↔ m = m') by (intros; split; [by intros [=]|by intros ->]).
  rewrite Hk.
  rewrite ip_mask_eq by (done || congruence). unfold Zlen. rewrite La. naive_solver lia.
Qed.

(** ** Witnesses *)

#[local] Existing Instance exactRuntime.
#[local] Existing Instance exactLaws.

Definition toy_rates : BEEFRateConfig :=
  mkBEEFRateConfig (H := exactRuntime) (2 : Q) (100 : Q) 64 (3 : Q) (0 : Q) 1.

Definition toy_src (b : Z) : NetAddr := NetUDP (mkUDPAddr (0xfd :: b :: zeros 14) 9999 "").

(** Three sources share a table of one entry. *)
Definition toy_calls : list (option NetAddr * Z * Z) :=
  [(Some (toy_src 1), 10, 5); (Some (toy_src 2), 10, 6); (None, 10, 7); (Some (toy_src 1), 10, 8)].

Lemma limiter_stays_bounded_witness :
  Z.of_nat (size (lim_srcs (limiter_run (newBEEFLimiter toy_rates) toy_calls))) ≤ 1.
Proof.
  apply (limiter_stays_bounded toy_rates toy_calls). intros src n now Hin.
  unfold toy_calls in Hin. repeat (apply elem_of_cons in Hin as [[= -> -> ->] | Hin]).
  5: by apply elem_of_nil in Hin.
  all: split; [lia|split; [lia|]]; intros a [= <-]; vm_compute; discriminate.
Defined.

(** A table of one entry, which source 2 holds: charging source 1 evicts it. *)
Definition toy_charged : beefLimiter := limiter_run (newBEEFLimiter toy_rates) [(Some (toy_src 2), 10, 6)].

Lemma toy_charged_ok : limiter_ok toy_charged.
Proof.
  apply limiter_run_ok; [apply newBEEFLimiter_ok|]. intros src n now Hin%list_elem_of_singleton.
  injection Hin as -> -> ->. split_and!; [lia|lia|]. intros a [= <-]. discriminate.
Qed.

Lemma allow_isolates_sources_witness :
  let k := sourceKey (toy_src 2) 64 in
  let r := allow (Some (toy_src 1)) 10 7 toy_charged in
  is_Some (lim_srcs toy_charged !! k) ∧ lim_srcs r.2 !! k = None ∧
  MaxTrackedSources (lim_cfg toy_charged) ≤ Z.of_nat (size (lim_srcs toy_charged)).
Proof.
  intros k r. assert (Hk : is_Some (lim_srcs toy_charged !! k)) by (eexists; vm_compute; reflexivity).
  assert (Hr : lim_srcs r.2 !! k = None) by (vm_compute; reflexivity). split; [exact Hk|]. split; [exact Hr|].
  destruct (allow_isolates_sources (toy_src 1) 10 7 toy_charged k toy_charged_ok) as (_ & _ & [E|(_ & Hcap & _)]).
  - vm_compute. discriminate.
  - exfalso. fold r in E. rewrite Hr in E. destruct Hk as [sb Hk]. rewrite Hk in E. discriminate.
  - exact Hcap.
Defined.


Lemma bucket_never_starves_witness :
  (allowN (H := exactRuntime) 1000000010 (50 : Q)
     (mkBucket (H := exactRuntime) (2 : Q) (2 : Q) (0 : Q) 10)).1 = true.
Proof.
  apply (bucket_never_starves 1000000010 (50 : Q) (mkBucket (H := exactRuntime) (2 : Q) (2 : Q) (0 : Q) 10)).
  - reflexivity.
  - simpl. lia.
  - unfold maxDuration. simpl. lia.
  - split; discriminate.
  - discriminate.
Defined.

Lemma sourceKey_shares_prefix_witness :
  sourceKey (NetUDP (mkUDPAddr (0xfd :: zeros 15) 1 "")) 64 =
  sourceKey (NetTCP (mkUDPAddr (0xfd :: zeros 14 ++ [9]) 2 "eth0")) 64.
Proof.
  apply (sourceKey_shares_prefix 64 (mkUDPAddr (0xfd :: zeros 15) 1 "") (mkUDPAddr (0xfd :: zeros 14 ++ [9]) 2 "eth0")).
  1, 2: repeat (constructor; [unfold is_byte; lia|]); constructor.
  1, 2, 3, 4: reflexivity.
  - lia.
  - intros i Hi. unfold ip_bit, byte_at. f_equal. cbn [addr_ip].
    assert (Hb : (Z.to_nat (i / 8) < 8)%nat) by zlia.
    generalize dependent (Z.to_nat (i / 8)). intros j Hj. do 8 (destruct j as [|j]; [reflexivity|]). lia.
Defined.
