(* ===== verification/Machine.v ===== *)
(** * The forwarder's state (forwarder/forwarder.go: Forwarder)

    The settings a [Forwarder] is given before its workers start, the state
    its operations share, and the monad they are written in: a function of
    the state that returns a result and a new state, or panics ([None]), as
    a Go slice out of range or a nil dereference does. *)

From S2P Require Import Prelude Common Chains BatchWriter RetryTee Coal Egress RateLimit.

Definition ipv6UDPHeaderSize : Z := 40 + 8.
Definition ipv6UDPOverhead : Z := ipv6UDPHeaderSize + HeaderSizeV3.
Definition DefaultCoalesceMaxBytes : Z := 1500.

(** [BEEFSubmitPolicy]: an interface of the code, two functions of the
    source address. *)
Record BEEFSubmitPolicy := mkPolicy {
  DeliverCount : bytes → Z → Z; MaxObjectBytes : bytes → Z }.

Section Machine.
Context `{ShardCommon, GoRuntime}.

Record BridgingEngine := mkBridging { br_secondary : Engine; br_transitionEpoch : Z }.

(** The fields of [Forwarder] that are fixed once workers run.  [s_rec] says
    whether a metrics recorder is attached; [s_procs] is GOMAXPROCS. *)
Record Settings := mkSettings {
  s_engine : Engine; s_mcPrefix : Z; s_mcGroupID : Z; s_egressPort : Z;
  s_debug : bool; s_rec : bool; s_fragDataSize : Z; s_bindSource : option bytes;
  s_stampSource : bool; s_hopLimit : Z; s_egressLoop : bool;
  s_coalesce : bool; s_coalesceMaxBytes : Z; s_coalesceBudget : Z;
  s_coalesceMaxMembers : Z; s_coalesceCarryTxid : bool;
  s_requireBlockPoW : bool; s_powFloor : option Z;
  s_requireEF : bool; s_allowStampedIngress : bool;
  s_verifyPayloadHash : bool; s_verifySubtreeRoot : bool;
  s_txDedup : option StoreId; s_txDedupPrefix : string;
  s_beefDedup : option StoreId; s_beefDedupPrefix : string;
  s_beefEngine : option PlaneEngine; s_beefMaxObject : Z;
  s_beefPolicy : option BEEFSubmitPolicy; s_procs : nat }.

#[export] Instance eta_Settings : EtaExpand Settings := {| eta_of := λ x,
  mkSettings (s_engine x) (s_mcPrefix x) (s_mcGroupID x) (s_egressPort x)
    (s_debug x) (s_rec x) (s_fragDataSize x) (s_bindSource x)
    (s_stampSource x) (s_hopLimit x) (s_egressLoop x)
    (s_coalesce x) (s_coalesceMaxBytes x) (s_coalesceBudget x)
    (s_coalesceMaxMembers x) (s_coalesceCarryTxid x)
    (s_requireBlockPoW x) (s_powFloor x)
    (s_requireEF x) (s_allowStampedIngress x)
    (s_verifyPayloadHash x) (s_verifySubtreeRoot x)
    (s_txDedup x) (s_txDedupPrefix x) (s_beefDedup x) (s_beefDedupPrefix x)
    (s_beefEngine x) (s_beefMaxObject x) (s_beefPolicy x) (s_procs x) |}.

(** What an operation may change: the flow counters, the address cache, the
    bridging engine, the rate budgets, the dedup stores, the caller's egress
    (absent in some tests) and the metrics; and the clock it reads. *)
Record World := mkWorld {
  w_chains : Stripes;
  w_groupAddrs : list (option UDPAddr);
  w_bridging : option BridgingEngine;
  w_beefLimit : option beefLimiter;
  w_env : Env;
  w_egr : option Egress;
  w_events : list Event;
  w_clock : Z }.

#[export] Instance eta_World : EtaExpand World := {| eta_of := λ x,
  mkWorld (w_chains x) (w_groupAddrs x) (w_bridging x) (w_beefLimit x)
    (w_env x) (w_egr x) (w_events x) (w_clock x) |}.

(** ** Construction and settings *)

Definition New (engine : Engine) (mcPrefix mcGroupID egressPort : Z) (debug rec : bool) (procs : nat)
    : Settings :=
  {| s_engine := engine; s_mcPrefix := mcPrefix; s_mcGroupID := mcGroupID; s_egressPort := egressPort;
     s_debug := debug; s_rec := rec; s_fragDataSize := 0; s_bindSource := None;
     s_stampSource := false; s_hopLimit := 0; s_egressLoop := false;
     s_coalesce := false; s_coalesceMaxBytes := 0; s_coalesceBudget := 0;
     s_coalesceMaxMembers := 0; s_coalesceCarryTxid := false;
     s_requireBlockPoW := false; s_powFloor := None;
     s_requireEF := false; s_allowStampedIngress := false;
     s_verifyPayloadHash := false; s_verifySubtreeRoot := false;
     s_txDedup := None; s_txDedupPrefix := ""; s_beefDedup := None; s_beefDedupPrefix := "";
     s_beefEngine := None; s_beefMaxObject := 0; s_beefPolicy := None; s_procs := procs |}.

(** The state [New] starts with, given the dedup stores' contents, the
    caller's egress and the time. *)
Definition newWorld (env : Env) (egr : option Egress) (clock : Z) : World :=
  mkWorld newStripes (replicate (Z.to_nat maxGroupCache) None) None None env egr [] clock.

Definition SetBridging (b : option BridgingEngine) (w : World) : World := w <| w_bridging := b |>.
Definition SetBindSource (ip : option bytes) (fw : Settings) : Settings := fw <| s_bindSource := ip |>.
Definition SetStampSource (on : bool) (fw : Settings) : Settings := fw <| s_stampSource := on |>.
Definition SetEgressHopLimit (n : Z) (fw : Settings) : Settings := fw <| s_hopLimit := n |>.
Definition SetEgressLoop (on : bool) (fw : Settings) : Settings := fw <| s_egressLoop := on |>.

Definition SetBlockPoW (require : bool) (floorBits : Z) (fw : Settings) : Settings :=
  fw <| s_requireBlockPoW := require |>
     <| s_powFloor := if require && negb (floorBits =? 0) then Some (CompactToTarget floorBits) else None |>.

Definition SetRequireEF (require : bool) (fw : Settings) : Settings := fw <| s_requireEF := require |>.
Definition SetAllowStampedIngress (allow : bool) (fw : Settings) : Settings :=
  fw <| s_allowStampedIngress := allow |>.
Definition SetVerifySubtreeRoot (v : bool) (fw : Settings) : Settings := fw <| s_verifySubtreeRoot := v |>.
Definition SetVerifyPayloadHash (v : bool) (fw : Settings) : Settings := fw <| s_verifyPayloadHash := v |>.

Definition SetCoalesce (enabled : bool) (maxBytes maxMembers : Z) (carryTxid : bool) (fw : Settings)
    : Settings :=
  let maxBytes := if maxBytes <=? 0 then DefaultCoalesceMaxBytes else maxBytes in
  fw <| s_coalesce := enabled |>
     <| s_coalesceMaxBytes := maxBytes |>
     <| s_coalesceBudget := maxBytes - ipv6UDPHeaderSize |>
     <| s_coalesceMaxMembers := maxMembers |>
     <| s_coalesceCarryTxid := carryTxid |>.

Definition SetTxidDedup (d : option StoreId) (prefix : string) (fw : Settings) : Settings :=
  fw <| s_txDedup := d |> <| s_txDedupPrefix := prefix |>.
Definition SetBEEFDedup (d : option StoreId) (prefix : string) (fw : Settings) : Settings :=
  fw <| s_beefDedup := d |> <| s_beefDedupPrefix := prefix |>.

Definition SetFragMTU (mtu : Z) (fw : Settings) : Settings :=
  fw <| s_fragDataSize := if ipv6UDPOverhead <? mtu then mtu - ipv6UDPOverhead else 0 |>.

Definition SetBEEF (pe : option PlaneEngine) (maxObjectBytes : Z) (fw : Settings) : Settings :=
  fw <| s_beefEngine := pe |> <| s_beefMaxObject := maxObjectBytes |>.
Definition SetBEEFSubmitPolicy (p : option BEEFSubmitPolicy) (fw : Settings) : Settings :=
  fw <| s_beefPolicy := p |>.

(** ** The monad *)

Definition M (A : Type) : Type := World → option (A * World).

#[export] Instance M_ret : MRet M := λ A x w, Some (x, w).
#[export] Instance M_bind : MBind M := λ A B f m w,
  match m w with Some (x, w') => f x w' | None => None end.

Definition panic {A} : M A := λ _, None.

(** An expression that may panic, such as a slice or an index. *)
Definition need {A} (x : option A) : M A := match x with Some a => mret a | None => panic end.
Definition gets {A} (f : World → A) : M A := λ w, Some (f w, w).
Definition modify (f : World → World) : M () := λ w, Some ((), f w).

(** Metrics are recorded when a recorder is attached. *)
Definition record (fw : Settings) (ev : Event) : M () :=
  if s_rec fw then modify (λ w, w <| w_events ::= λ l, l ++ [ev] |>) else mret ().

Definition iface_of : M string := gets (λ w, egrIface (w_egr w)).

(** A drop counted against the caller's first interface. *)
Definition drop_as (fw : Settings) (worker : Z) (why : string) : M () :=
  iface ← iface_of; record fw (EvPacketDropped iface worker why).

(** A drop counted only when the caller has an egress with an interface. *)
Definition drop_decode (fw : Settings) (worker : Z) : M () :=
  e ← gets w_egr;
  match e with
  | Some e => match e_targets e with
              | t :: _ => record fw (EvPacketDropped t worker "decode_error")
              | [] => mret ()
              end
  | None => mret ()
  end.

(** An action on the caller's egress, if it has one, whose indices are in
    range when [fits]. *)
Definition on_egress (fits : Egress → bool) (f : Egress → Egress) : M () := λ w,
  match w_egr w with
  | None => Some ((), w)
  | Some e => if fits e then Some ((), w <| w_egr := Some (f e) |>) else None
  end.

(** One datagram queued ([Enqueue*]) for the group, with the label. *)
Definition queue (label : string) (g : Z) (f : Egress → Egress) : M () := on_egress (enqueue_fits label g) f.

(** ** Total-correctness triples

    [wp m w Q]: run from [w], [m] does not panic and ends in a result and a
    state satisfying [Q]. *)

Definition wp {A} (m : M A) (w : World) (Q : A → World → Prop) : Prop :=
  match m w with Some (x, w') => Q x w' | None => False end.

Lemma wp_ret {A} (x : A) w Q : Q x w → wp (mret x) w Q.
Proof. done. Qed.

Lemma wp_bind {A B} (m : M A) (f : A → M B) w Q :
  wp m w (λ x w', wp (f x) w' Q) → wp (m ≫= f) w Q.
Proof. unfold wp, mbind, M_bind. by destruct (m w) as [[]|]. Qed.

Lemma wp_mono {A} (m : M A) w (Q Q' : A → World → Prop) :
  wp m w Q → (∀ x w', Q x w' → Q' x w') → wp m w Q'.
Proof. unfold wp. destruct (m w) as [[]|]; [|done]. auto. Qed.

Lemma wp_gets {A} (f : World → A) w Q : Q (f w) w → wp (gets f) w Q.
Proof. done. Qed.

Lemma wp_need {A} (x : option A) a w (Q : A → World → Prop) : x = Some a → Q a w → wp (need x) w Q.
Proof. by intros ->. Qed.

(** An expression in range is its value. *)
Lemma need_some {A B} (a : A) (f : A → M B) : need (Some a) ≫= f = f a.
Proof. reflexivity. Qed.

Lemma wp_on_egress fits f w e (Q : () → World → Prop) :
  w_egr w = Some e → fits e = true → Q () (w <| w_egr := Some (f e) |>) → wp (on_egress fits f) w Q.
Proof. intros He Hf HQ. unfold wp, on_egress. by rewrite He, Hf. Qed.

Lemma wp_modify f w (Q : () → World → Prop) : Q () (f w) → wp (modify f) w Q.
Proof. done. Qed.

(** Recording appends to the events and changes nothing else. *)
Definition add_events (evs : list Event) (w : World) : World := w <| w_events ::= λ l, l ++ evs |>.

Lemma wp_record fw ev w (Q : () → World → Prop) :
  Q () (if s_rec fw then add_events [ev] w else w) → wp (record fw ev) w Q.
Proof. unfold record. by destruct (s_rec fw). Qed.

Lemma wp_eq {A} (m : M A) w x w' : m w = Some (x, w') → ∀ Q : A → World → Prop, Q x w' → wp m w Q.
Proof. intros E Q HQ. unfold wp. by rewrite E. Qed.
End Machine.
Arguments Settings {_}. Arguments World {_ _}. Arguments M {_ _} A. Arguments BridgingEngine {_}.
