(* ===== verification/Forwarder.v ===== *)
(** * The forwarding pipeline (forwarder/forwarder.go)

    Decode, gate, claim, route, stamp or fragment, and enqueue, for the
    transaction, block, anchor and subtree frames, and the verbatim control
    path. *)

From S2P Require Import Prelude Common Chains BatchWriter RetryTee Coal Egress RateLimit SubtreeRoot Machine.

Section Forwarder.
Context `{ShardCommon, GoRuntime}.
Implicit Types (fw : Settings) (worker : Z) (raw : bytes).

(** ** Ingress dedup *)

Definition claimIngressIn fw (store : option StoreId) (prefix : string) (txid : bytes)
    (frameType iface : string) worker : M bool :=
  match store with
  | None => mret true
  | Some st =>
      env ← gets w_env;
      let r := Claim st prefix txid env in
      modify (λ w, w <| w_env := r.2 |>);;
      if r.1.1 then mret true
      else record fw (EvIngressDeduped iface worker frameType);; mret false
  end.

Definition claimIngress fw (txid : bytes) (frameType iface : string) worker : M bool :=
  claimIngressIn fw (s_txDedup fw) (s_txDedupPrefix fw) txid frameType iface worker.

Definition claimBEEFIngress fw (key : bytes) (frameType iface : string) worker : M bool :=
  match s_beefDedup fw with
  | Some st => claimIngressIn fw (Some st) (s_beefDedupPrefix fw) key frameType iface worker
  | None => claimIngressIn fw (s_txDedup fw) (s_txDedupPrefix fw) key frameType iface worker
  end.

(** ** Addresses *)

(** [addrFor]: the cached destination of a group, filled on first use. *)
Definition addrFor fw (idx : Z) : M UDPAddr :=
  cache ← gets w_groupAddrs;
  if Zlen cache <=? idx then mret (EngineAddr (s_engine fw) idx (s_egressPort fw))
  else
    slot ← need (cache !! Z.to_nat idx);
    match slot with
    | Some a => mret a
    | None =>
        let a := EngineAddr (s_engine fw) idx (s_egressPort fw) in
        modify (λ w, w <| w_groupAddrs ::= <[Z.to_nat idx := Some a]> |>);; mret a
    end.

(** The destination of a control group. *)
Definition ctrlAddr fw (group port : Z) : UDPAddr :=
  mkUDPAddr (GroupAddr (s_mcPrefix fw) (s_mcGroupID fw) group) port "".

Definition addrToIPv6 (a : NetAddr) : bytes :=
  let ip := match a with NetUDP u | NetTCP u => addr_ip u | _ => [] end in
  match To16 ip with [] => zeros 16 | ip16 => ip16 end.

(** ** Sequence numbers *)

Definition next_seq (ip : bytes) (groupIdx : Z) (sub : bytes) : M (Z * Z) := λ w,
  let r := nextSeq (w_chains w) ip groupIdx sub in Some (r.1, w <| w_chains := r.2 |>).

Definition reserve_seq (ip : bytes) (groupIdx : Z) (sub : bytes) (n : Z) : M (Z * Z) := λ w,
  let r := reserveSeq (w_chains w) ip groupIdx sub n in Some (r.1, w <| w_chains := r.2 |>).

Definition zeroSub : bytes := zeros 32.

(** [stampInPlace]: the stamped datagram; panics when the header is not
    there to be stamped. *)
Definition stampInPlace fw raw (ip : bytes) (groupIdx : Z) (sub : bytes) : M bytes :=
  if Zlen raw <? 56 then panic
  else
    let preSeq := be_get (slice 48 56 raw) in
    let preHash := be_get (slice 40 48 raw) in
    if preSeq =? 0 then
      r ← next_seq ip groupIdx sub;
      mret (splice 48 (be_put 8 r.2) (splice 40 (be_put 8 r.1) raw))
    else if (preHash =? 0) || s_stampSource fw
    then mret (splice 40 (be_put 8 (seqhash_Hash ip groupIdx sub)) raw)
    else mret raw.

(** ** Fragmentation *)

Definition frag_count (payload : bytes) (dataSize : Z) : Z := (Zlen payload + dataSize - 1) / dataSize.

(** Where fragment [i] of the payload starts and ends. *)
Definition frag_bounds (payload : bytes) (dataSize i : Z) : Z * Z :=
  let start := i * dataSize in
  (start, if Zlen payload <? start + dataSize then Zlen payload else start + dataSize).

(** Fragment [i] of the payload, and whether the slice is in range. *)
Definition frag_data (payload : bytes) (dataSize i : Z) : bytes :=
  let b := frag_bounds payload dataSize i in
  slice (Z.to_nat b.1) (Z.to_nat b.2) payload.

Definition frag_in_range (payload : bytes) (dataSize i : Z) : bool :=
  let b := frag_bounds payload dataSize i in
  (0 <=? b.1) && (b.1 <=? b.2) && (b.2 <=? Zlen payload).

(** The indices one iteration of a fragment loop takes: the slice of the
    payload, the header byte patched in a buffer of the given size, and the
    queues. *)
Record FragChecks := mkFragChecks {
  fc_piece : Z → bool; fc_patch : Z → bool; fc_queue : Egress → bool }.

(** The fragment loops' common body: one number of the flow per fragment,
    drawn even with no egress; with one, a pooled buffer of the given size
    is encoded into and queued, or returned when the encoder refuses. *)
Fixpoint frag_loop (fits : FragChecks) (build : Z → Z → Z → Z → option bytes)
    (enq : bytes → nat → Egress → Egress) (ip : bytes) (grp : Z) (sub : bytes) (i : Z) (n : nat) : M () :=
  match n with
  | O => mret ()
  | S n =>
      (if fc_piece fits i then mret () else panic);;
      s ← next_seq ip grp sub;
      e ← gets w_egr;
      match e with
      | None => mret ()
      | Some e =>
          match e_pool e, PoolGet e with
          | Some p, (Some b, e') =>
              match build (pool_size p) i s.1 s.2 with
              | None => modify (λ w, w <| w_egr := Some (PoolPut b e') |>)
              | Some d =>
                  if fc_patch fits (pool_size p) && fc_queue fits e'
                  then modify (λ w, w <| w_egr := Some (enq d b e') |>) else panic
              end
          | _, _ => panic
          end
      end;;
      frag_loop fits build enq ip grp sub (i + 1) n
  end.

(** The fragment count, or the drop past the 16-bit total; a division by
    zero panics. *)
Definition frag_total fw (payload : bytes) worker : M (option Z) :=
  let k := frag_count payload (s_fragDataSize fw) in
  if s_fragDataSize fw =? 0 then panic
  else if 65535 <? k then record fw (EvPacketDropped "" worker "frag_overflow");; mret None
  else mret (Some k).

Definition fragment fw (f : Frame) (ip : bytes) (groupIdx worker : Z) : M () :=
  let payload := f_payload f in
  let dataSize := s_fragDataSize fw in
  t ← frag_total fw payload worker;
  match t with
  | None => mret ()
  | Some k =>
      record fw (EvFrameFragmented worker k);;
      dst ← addrFor fw groupIdx;
      frag_loop
        (mkFragChecks (frag_in_range payload dataSize) (λ _, true) (enqueue_fits "" groupIdx))
        (λ buflen i hashKey seqNum, EncodeFragment buflen
           (mkFragArgs (f_txid f) (f_subtree f) hashKey seqNum (u32 (Zlen payload)) (u16 i) (u16 k) 0
              (frag_data payload dataSize i)))
        (λ d b, EnqueueDataPooled d dst groupIdx worker b)
        ip groupIdx (f_subtree f) 0 (Z.to_nat k)
  end.

(** Byte 7 of the original header carried through a fragment,
    [buf[7] = raw[7]], and whether both indices are in range. *)
Definition set_byte7 (v : Z) (d : bytes) : bytes := <[7%nat := v]> d.
Definition patch_in_range raw (buflen : Z) : bool := (7 <? Zlen raw) && (7 <? buflen).

Definition fragmentBlock fw raw (bf : BlockFrame) (ip : bytes) (ctrlIdx worker : Z) : M () :=
  let payload := bk_payload bf in
  let dataSize := s_fragDataSize fw in
  t ← frag_total fw payload worker;
  match t with
  | None => mret ()
  | Some k =>
      record fw (EvFrameFragmented worker k);;
      let addr := ctrlAddr fw GroupBlockBroadcast (s_egressPort fw) in
      frag_loop
        (mkFragChecks (frag_in_range payload dataSize) (patch_in_range raw) (enqueue_fits "block_control" 0))
        (λ buflen i hashKey seqNum, set_byte7 (byte_at 7 raw) <$> EncodeFragment buflen
           (mkFragArgs (bk_contentid bf) zeroSub hashKey seqNum (u32 (Zlen payload)) (u16 i) (u16 k)
              FrameVerV4 (frag_data payload dataSize i)))
        (λ d b, EnqueueCacheablePooled d addr "block_control" worker b)
        ip ctrlIdx zeroSub 0 (Z.to_nat k)
  end.

Definition fragmentSubtreeData fw raw (sf : SubtreeDataFrame) (ip : bytes) (ctrlIdx worker : Z) : M () :=
  let payload := sd_payload sf in
  let dataSize := s_fragDataSize fw in
  t ← frag_total fw payload worker;
  match t with
  | None => mret ()
  | Some k =>
      record fw (EvFrameFragmented worker k);;
      let addr := ctrlAddr fw GroupSubtreeDataAnnounce (s_egressPort fw) in
      frag_loop
        (mkFragChecks (frag_in_range payload dataSize) (patch_in_range raw) (enqueue_fits "subtree_data" 0))
        (λ buflen i hashKey seqNum, set_byte7 (byte_at 7 raw) <$> EncodeFragment buflen
           (mkFragArgs (sd_subtreeid sf) zeroSub hashKey seqNum (u32 (Zlen payload)) (u16 i) (u16 k)
              FrameVerV5 (frag_data payload dataSize i)))
        (λ d b, EnqueueCacheablePooled d addr "subtree_data" worker b)
        ip ctrlIdx (sd_subtreeid sf) 0 (Z.to_nat k)
  end.

(** Whether a payload takes the fragmentation path. *)
Definition needs_frag fw (payload : bytes) : bool :=
  (0 <? s_fragDataSize fw) && (s_fragDataSize fw <? Zlen payload).

(** ** Transactions *)

(** The payload-hash gate: the payload is exactly one transaction and the
    header names it. *)
Definition payload_not_one_tx (f : Frame) : bool :=
  match TxSize (f_payload f) with
  | Some sz => negb (sz =? Zlen (f_payload f))
  | None => true
  end.

Definition payload_hash_mismatch (f : Frame) : bool :=
  match TxID (f_payload f) with
  | Some id => negb (bytes_eqb id (f_txid f))
  | None => true
  end.

(** The bridging copy: the successor layout's group, when it differs. *)
Definition emit_bridge fw raw (txid : bytes) (groupIdx worker : Z) : M () :=
  br ← gets w_bridging;
  match br with
  | None => mret ()
  | Some bs =>
      let bridgeIdx := GroupIndex (br_secondary bs) txid in
      if bridgeIdx =? groupIdx then mret ()
      else
        dst ← addrFor fw bridgeIdx;
        queue "" bridgeIdx (EnqueueData raw dst bridgeIdx worker)
  end.

(** The end of [process]: queue the datagram for its group, and for the
    successor's during a bridging window. *)
Definition emit_tx fw raw (txid : bytes) (groupIdx worker : Z) : M () :=
  e ← gets w_egr;
  match e with
  | None => mret ()
  | Some _ =>
      dst ← addrFor fw groupIdx;
      queue "" groupIdx (EnqueueData raw dst groupIdx worker);;
      emit_bridge fw raw txid groupIdx worker
  end.

(** Whether a transaction joins the coalescing buffer. *)
Definition coalescable fw (w : World) (f : Frame) : bool :=
  s_coalesce fw &&
  match w_egr w with Some e => CoalArmed e | None => false end &&
  match w_bridging w with None => true | Some _ => false end &&
  (BundleHeaderSize + MemberOverhead (s_coalesceCarryTxid fw) + Zlen (f_payload f) <=? s_coalesceBudget fw).

(** The rest of [process] once the frame is admitted and claimed. *)
Definition route_tx fw raw (f : Frame) (src : option NetAddr) worker : M () :=
  let groupIdx := GroupIndex (s_engine fw) (f_txid f) in
  match src with
  | Some src =>
      if f_version f =? FrameVerV2 then
        let ip := addrToIPv6 src in
        if needs_frag fw (f_payload f) then fragment fw f ip groupIdx worker
        else
          c ← gets (λ w, coalescable fw w f);
          if c : bool then
            on_egress (λ _, true) (λ e, e <| e_coal ::=
              fmap (coal_add ip groupIdx (f_subtree f) (f_txid f) (f_payload f)) |>)
          else
            raw ← stampInPlace fw raw ip groupIdx (f_subtree f);
            emit_tx fw raw (f_txid f) groupIdx worker
      else emit_tx fw raw (f_txid f) groupIdx worker
  | None => emit_tx fw raw (f_txid f) groupIdx worker
  end.

Definition process fw raw (src : option NetAddr) worker (verify : bool) : M () :=
  match Decode raw with
  | None => drop_decode fw worker
  | Some f =>
      let v2 := f_version f =? FrameVerV2 in
      if negb (s_allowStampedIngress fw) && v2 && negb (f_seqnum f =? 0)
      then drop_as fw worker "stamped_ingress"
      else if s_requireEF fw && ((f_version f =? FrameVerV1) || negb (IsEF (f_payload f)))
      then drop_as fw worker "ingress_not_ef"
      else if verify && v2 && payload_not_one_tx f
      then drop_as fw worker "payload_not_one_tx"
      else if verify && v2 && payload_hash_mismatch f
      then drop_as fw worker "payload_hash_mismatch"
      else
        iface ← iface_of;
        ok ← if v2 then claimIngress fw (f_txid f) "brc124" iface worker else mret true;
        if ok : bool then route_tx fw raw f src worker else mret ()
  end.

Definition Process fw raw (src : option NetAddr) worker : M () :=
  process fw raw src worker (s_verifyPayloadHash fw).

(** ** Blocks, anchors, subtrees *)

(** Queue a control-plane datagram if there is an egress. *)
Definition emit_ctrl fw raw (group : Z) (label : string) worker : M () :=
  queue label 0 (EnqueueCacheable raw (ctrlAddr fw group (s_egressPort fw)) label worker).

(** The proof-of-work gate: whether the announcement is refused. *)
Definition pow_refused fw (bf : BlockFrame) : option bool :=
  if s_requireBlockPoW fw && (bk_msgtype bf =? BlockMsgAnnounce) then
    if Zlen (bk_payload bf) <? PowHeaderSize then Some true
    else
      header ← subslice 0 (Z.to_nat PowHeaderSize) (bk_payload bf);
      Some (negb (CheckHeader header (s_powFloor fw)))
  else Some false.

Definition ProcessBlock fw raw (src : option NetAddr) worker : M () :=
  match DecodeBlock raw with
  | None => drop_decode fw worker
  | Some bf =>
      refused ← need (pow_refused fw bf);
      if refused : bool then record fw EvBlockPoWRejected
      else
        iface ← iface_of;
        ok ← claimIngress fw (bk_contentid bf) "brc131" iface worker;
        if ok : bool then
          match src with
          | Some src =>
              let ip := addrToIPv6 src in
              let ctrlIdx := if bk_msgtype bf =? BlockMsgCoinbase then GroupCoinbaseFlow
                             else GroupBlockBroadcast in
              if needs_frag fw (bk_payload bf) then fragmentBlock fw raw bf ip ctrlIdx worker
              else
                raw ← stampInPlace fw raw ip ctrlIdx zeroSub;
                emit_ctrl fw raw GroupBlockBroadcast "block_control" worker
          | None => emit_ctrl fw raw GroupBlockBroadcast "block_control" worker
          end
        else mret ()
  end.

Definition ProcessAnchor fw raw (src : option NetAddr) worker : M () :=
  match DecodeAnchor raw with
  | None => drop_decode fw worker
  | Some f =>
      iface ← iface_of;
      ok ← claimIngress fw (f_txid f) "brc134" iface worker;
      if ok : bool then
        match src with
        | Some src =>
            raw ← stampInPlace fw raw (addrToIPv6 src) GroupAnchorFlow zeroSub;
            emit_ctrl fw raw GroupBlockBroadcast "anchor" worker
        | None => emit_ctrl fw raw GroupBlockBroadcast "anchor" worker
        end
      else mret ()
  end.

(** The merkle-root gate of [ProcessSubtreeData]: whether the frame passes,
    with the check recorded. *)
Definition subtree_root_gate fw (sf : SubtreeDataFrame) : M bool :=
  if s_verifySubtreeRoot fw then
    verdict ← need (verifySubtreePayload (s_procs fw) (sd_subtreeid sf) (sd_msgtype sf) (sd_payload sf));
    match verdict with
    | inl errSubtreeMalformed => record fw (EvSubtreeRootCheck "malformed");; mret false
    | inl errSubtreeRootMismatch => record fw (EvSubtreeRootCheck "mismatch");; mret false
    | inr _ => record fw (EvSubtreeRootCheck "ok");; mret true
    end
  else mret true.

Definition ProcessSubtreeData fw raw (src : option NetAddr) worker : M () :=
  match DecodeSubtreeData raw with
  | None => drop_decode fw worker
  | Some sf =>
      pass ← subtree_root_gate fw sf;
      if pass : bool then
        iface ← iface_of;
        ok ← claimIngress fw (sd_subtreeid sf) "brc132" iface worker;
        if ok : bool then
          match src with
          | Some src =>
              let ip := addrToIPv6 src in
              if needs_frag fw (sd_payload sf)
              then fragmentSubtreeData fw raw sf ip GroupSubtreeDataAnnounce worker
              else
                raw ← stampInPlace fw raw ip GroupSubtreeDataAnnounce (sd_subtreeid sf);
                emit_ctrl fw raw GroupSubtreeDataAnnounce "subtree_data" worker
          | None => emit_ctrl fw raw GroupSubtreeDataAnnounce "subtree_data" worker
          end
        else mret ()
      else mret ()
  end.

(** [ForwardControl]; [label] is the group's name ([shard.GroupIdx.String]). *)
Definition ForwardControl fw raw (idx : Z) (label : string) (port : Z) : M () :=
  queue label 0 (EnqueueControl raw (ctrlAddr fw idx port) label 0).
End Forwarder.
