(* ===== verification/Beef.v ===== *)
(** * The BEEF object plane (forwarder/beef.go)

    Submission records are checked and framed ([PrepareBEEF]), then admitted
    in order ([DispatchBEEF]); pre-framed objects enter at [ProcessBEEF].  A
    lane that fragments off the dispatching goroutine uses [AdmitBEEF] and
    [FragmentBEEFInto] instead. *)

From S2P Require Import Prelude Common Chains BatchWriter RetryTee Coal Egress RateLimit Sha256 Machine Forwarder.

(** A record checked and framed: [pb_frame] is nil when it was refused. *)
Record PreparedBEEF := mkPrepared {
  pb_frame : option bytes; pb_result : string; pb_topics : Z; pb_deliver : Z }.

(** A record admitted for the caller to fragment; [ad_k] 0 is a whole frame. *)
Record BEEFAdmission := mkAdmission {
  ad_raw : bytes; ad_bf : BEEFFrame; ad_ip : bytes; ad_groupIdx : Z; ad_dst : UDPAddr;
  ad_hashKey : Z; ad_firstSeq : Z; ad_k : Z; ad_workerID : Z }.

Inductive FragErr := errBEEFAlloc | errNilAdmission | errEncode.

Definition PreparedLen (p : option PreparedBEEF) : Z :=
  match p with Some p => Zlen (default [] (pb_frame p)) | None => 0 end.

Definition Datagrams (a : BEEFAdmission) : Z := if 0 <? ad_k a then ad_k a else 1.

Definition AdmissionBytes (a : BEEFAdmission) : Z :=
  if 0 <? ad_k a then ad_k a * HeaderSizeV3 + Zlen (bf_payload (ad_bf a)) else Zlen (ad_raw a).

(** [beefClaimKey]: the dedup key of an object under its first topic. *)
Definition beefClaimKey (contentID topicID : bytes) : bytes := Sum256 (contentID ++ topicID).

Definition beefZeroIngredient : bytes := zeros 32.

(** [srcIPOf]; the empty list is nil. *)
Definition srcIPOf (src : option NetAddr) : bytes :=
  match src with
  | Some (NetUDP a) | Some (NetTCP a) => addr_ip a
  | _ => []
  end.

Section Beef.
Context `{ShardCommon, GoRuntime}.
Implicit Types (fw : Settings) (worker : Z) (raw : bytes) (src : option NetAddr).

Definition beefObjectBoundFor fw src : Z :=
  let base := s_beefMaxObject fw in
  match s_beefPolicy fw with
  | None => base
  | Some p => let lifted := MaxObjectBytes p (srcIPOf src) in if base <? lifted then lifted else base
  end.

Definition BEEFRecordBound fw src : Z :=
  let obj := beefObjectBoundFor fw src in
  if obj <=? 0 then 0 else obj + BEEFRecordMaxEnvelope.

Definition beefDeliverCount fw src (n : Z) : Z :=
  let deliver :=
    match s_beefPolicy fw with
    | Some p => match srcIPOf src with [] => 1 | ip => DeliverCount p ip n end
    | None => 1
    end in
  let deliver := if deliver <? 1 then 1 else deliver in
  if n <? deliver then n else deliver.

Definition rejectOnBEEFLane fw worker : M () := drop_as fw worker "non_beef_on_beef_lane".

(** ** Admission *)

(** The operator's bound, met by an object that only its own submitter's
    bound admits. *)
Definition beef_oversize fw src (object : bytes) : bool :=
  (0 <? s_beefMaxObject fw) && (s_beefMaxObject fw <? Zlen object)
  && (beefObjectBoundFor fw src <? Zlen object).

(** The rate budget: the decision, the limiter charged. *)
Definition charge_beef src (n : Z) : M rateDecision := λ w,
  match w_beefLimit w with
  | None => Some (rateAllow, w)
  | Some l => let r := allow src n (w_clock w) l in Some (r.1, w <| w_beefLimit := Some r.2 |>)
  end.

(** The second half of [checkBEEF], from the DeliverCount overwrite on: the
    budget, the ContentID and the claim.  A result is the frame, its group
    and the datagram as overwritten. *)
Definition claim_beef fw (pe : PlaneEngine) raw (bf : BEEFFrame) (topics : option (list bytes)) src worker
    (checkContentID : bool) : M (option (BEEFFrame * Z * bytes)) :=
  let n := match topics with Some ts => Zlen ts | None => 1 end in
  let stamped :=
    match src with
    | Some _ => let d := u8 (beefDeliverCount fw src n) in (<[7%nat := d]> raw, bf <| bf_deliver := d |>)
    | None => (raw, bf)
    end in
  let raw := stamped.1 in
  let bf := stamped.2 in
  d ← charge_beef src (Zlen raw);
  match d with
  | rateAllow =>
      let entered := match src with Some _ => true | None => false end in
      if checkContentID && entered && negb (bytes_eqb (bf_contentid bf) (ContentID (bf_payload bf)))
      then drop_as fw worker "beef_bad_contentid";; mret None
      else
        iface ← iface_of;
        ok ← claimBEEFIngress fw (beefClaimKey (bf_contentid bf) (bf_topicid bf)) "brc148" iface worker;
        if ok : bool then mret (Some (bf, PlaneGroupIndex pe (bf_topicid bf), raw)) else mret None
  | d => drop_as fw worker (reason d);; mret None
  end.

(** What the grammar checks of [checkBEEF] say of a decoded frame: the drop
    reason, or the topics of the record. A non-nil topic list is indexed at
    0, [None]: that index is out of range. *)
Definition beef_conformance fw (bf : BEEFFrame) src : option (string + option (list bytes)) :=
  match SplitBEEFPayload (bf_payload bf) with
  | None => Some (inl "beef_bad_record")
  | Some (object, topics) =>
      if beef_oversize fw src object then Some (inl "beef_oversize")
      else if bytes_eqb (bf_topicid bf) (zeros 32) then Some (inl "beef_no_topic")
      else
        let marker := if IsBEEFObject object then inr topics else inl "beef_bad_marker" in
        match topics with
        | None => Some marker
        | Some [] => None
        | Some (t :: _) =>
            if bytes_eqb (bf_topicid bf) (TopicID t) then Some marker else Some (inl "beef_topic_mismatch")
        end
  end.

Definition checkBEEF fw raw src worker (checkContentID : bool) : M (option (BEEFFrame * Z * bytes)) :=
  match s_beefEngine fw with
  | None => drop_as fw worker "beef_disabled";; mret None
  | Some pe =>
      match DecodeBEEF raw with
      | None => drop_as fw worker "decode_error";; mret None
      | Some bf =>
          match beef_conformance fw bf src with
          | None => panic
          | Some (inl why) => drop_as fw worker why;; mret None
          | Some (inr topics) =>
              if (match src with Some _ => true | None => false end) && (Zlen raw <=? 7) then panic
              else claim_beef fw pe raw bf topics src worker checkContentID
          end
      end
  end.

(** ** Fragments *)

Definition encodeBEEFFragment fw (buflen : Z) (bf : BEEFFrame) (i k hashKey seqNum : Z) : option bytes :=
  set_byte7 (bf_deliver bf) <$>
  EncodeFragment buflen
    (mkFragArgs (bf_contentid bf) (bf_topicid bf) hashKey seqNum (u32 (Zlen (bf_payload bf)))
       (u16 i) (u16 k) FrameVerV9 (frag_data (bf_payload bf) (s_fragDataSize fw) i)).

Definition beefFragTotal fw (bf : BEEFFrame) worker : M (option Z) := frag_total fw (bf_payload bf) worker.

Definition fragmentBEEF fw (bf : BEEFFrame) (ip : bytes) (groupIdx worker : Z) : M () :=
  t ← beefFragTotal fw bf worker;
  match t with
  | None => mret ()
  | Some k =>
      record fw (EvFrameFragmented worker k);;
      dst ← addrFor fw groupIdx;
      frag_loop
        (mkFragChecks (frag_in_range (bf_payload bf) (s_fragDataSize fw)) (λ buflen, 7 <? buflen)
           (enqueue_fits "" groupIdx))
        (λ buflen i hashKey seqNum, encodeBEEFFragment fw buflen bf i k hashKey seqNum)
        (λ d b, EnqueueDataPooled d dst groupIdx worker b)
        ip groupIdx beefZeroIngredient 0 (Z.to_nat k)
  end.

(** ** Frames *)

Definition emit_beef fw raw (groupIdx worker : Z) : M () :=
  e ← gets w_egr;
  match e with
  | None => mret ()
  | Some _ => dst ← addrFor fw groupIdx; queue "" groupIdx (EnqueueData raw dst groupIdx worker)
  end.

Definition processBEEF fw raw src worker (checkContentID : bool) : M () :=
  r ← checkBEEF fw raw src worker checkContentID;
  match r with
  | None => mret ()
  | Some (bf, groupIdx, raw) =>
      match src with
      | Some a =>
          let ip := addrToIPv6 a in
          if needs_frag fw (bf_payload bf) then fragmentBEEF fw bf ip groupIdx worker
          else
            raw ← stampInPlace fw raw ip groupIdx beefZeroIngredient;
            emit_beef fw raw groupIdx worker
      | None => emit_beef fw raw groupIdx worker
      end
  end.

Definition ProcessBEEF fw raw src worker : M () := processBEEF fw raw src worker true.

(** ** Records *)

Definition PrepareBEEF fw (rcd : bytes) src : PreparedBEEF :=
  let refused why := mkPrepared None why 0 0 in
  match s_beefEngine fw with
  | None => refused "disabled"
  | Some _ =>
      match DecodeBEEFRecord rcd with
      | None => refused "malformed"
      | Some (r, n) =>
          if negb (n =? Zlen rcd) then refused "malformed"
          else
            let maxObj := beefObjectBoundFor fw src in
            if (0 <? maxObj) && (maxObj <? Zlen (rec_object r)) then refused "oversize"
            else if negb (IsBEEFObject (rec_object r)) then refused "bad_marker"
            else
              let deliver := beefDeliverCount fw src (Zlen (rec_topics r)) in
              match BEEFMulticastRecord rcd deliver with
              | None => refused "malformed"
              | Some buf => mkPrepared (Some buf) "ok" (Zlen (rec_topics r)) deliver
              end
      end
  end.

(** The submission's metrics, ahead of the frame. *)
Definition meter_beef fw (p : PreparedBEEF) (frame : bytes) : M () :=
  record fw (EvIngressMetered IngressClassBEEF false (Zlen frame));;
  record fw (EvBEEFTopics (pb_topics p) (pb_deliver p)).

Definition DispatchBEEF fw (p : option PreparedBEEF) src worker : M () :=
  match p with
  | None => mret ()
  | Some p =>
      match pb_frame p with
      | None => record fw (EvBEEFSubmission (pb_result p))
      | Some frame =>
          meter_beef fw p frame;;
          processBEEF fw frame src worker false;;
          record fw (EvBEEFSubmission (pb_result p))
      end
  end.

Definition SubmitBEEF fw (rcd : bytes) src worker : M () :=
  DispatchBEEF fw (Some (PrepareBEEF fw rcd src)) src worker.

(** ** Admission apart from fragmentation *)

(** [AdmitBEEF] after the frame passed its checks. *)
Definition reserve_admission fw (bf : BEEFFrame) (groupIdx : Z) raw src worker : M (option BEEFAdmission) :=
  dst ← addrFor fw groupIdx;
  match src with
  | None => mret (Some (mkAdmission raw bf (zeros 16) groupIdx dst 0 0 0 worker))
  | Some a =>
      let ip := addrToIPv6 a in
      if needs_frag fw (bf_payload bf) then
        t ← beefFragTotal fw bf worker;
        match t with
        | None => mret None
        | Some k =>
            s ← reserve_seq ip groupIdx beefZeroIngredient k;
            mret (Some (mkAdmission raw bf ip groupIdx dst s.1 s.2 k worker))
        end
      else
        raw ← stampInPlace fw raw ip groupIdx beefZeroIngredient;
        mret (Some (mkAdmission raw bf ip groupIdx dst
                      (be_get (slice 40 48 raw)) (be_get (slice 48 56 raw)) 0 worker))
  end.

Definition AdmitBEEF fw (p : option PreparedBEEF) src worker : M (option BEEFAdmission) :=
  match p with
  | None => mret None
  | Some p =>
      match pb_frame p with
      | None => record fw (EvBEEFSubmission (pb_result p));; mret None
      | Some frame =>
          meter_beef fw p frame;;
          r ← checkBEEF fw frame src worker false;
          a ← match r with
              | None => mret None
              | Some (bf, groupIdx, raw) => reserve_admission fw bf groupIdx raw src worker
              end;
          record fw (EvBEEFSubmission (pb_result p));;
          mret a
      end
  end.

Definition ReserveBEEFSeqs (src : NetAddr) (groupIdx n : Z) : M (Z * Z) :=
  reserve_seq (addrToIPv6 src) groupIdx beefZeroIngredient n.

(** The datagrams of an admission from index [i] on. [alloc j n] is the
    length of the memory the caller's allocator returns for its [j]-th
    request, of [n] bytes. *)
Fixpoint admission_frags fw (a : BEEFAdmission) (alloc : Z → Z → Z) (i : Z) (n : nat) : FragErr + list bytes :=
  match n with
  | O => inr []
  | S n =>
      let size := HeaderSizeV3 +
        Z.min (s_fragDataSize fw) (Zlen (bf_payload (ad_bf a)) - i * s_fragDataSize fw) in
      if negb (alloc i size =? size) then inl errBEEFAlloc
      else
        match encodeBEEFFragment fw size (ad_bf a) i (ad_k a) (ad_hashKey a) (u64 (ad_firstSeq a + i)) with
        | None => inl errEncode
        | Some d =>
            match admission_frags fw a alloc (i + 1) n with
            | inl e => inl e
            | inr l => inr (d :: l)
            end
        end
  end.

Definition FragmentBEEFInto fw (a : option BEEFAdmission) (alloc : Z → Z → Z) : M (FragErr + list bytes) :=
  match a with
  | None => mret (inl errNilAdmission)
  | Some a =>
      if ad_k a =? 0 then
        mret (if alloc 0 (Zlen (ad_raw a)) =? Zlen (ad_raw a) then inr [ad_raw a] else inl errBEEFAlloc)
      else
        record fw (EvFrameFragmented (ad_workerID a) (ad_k a));;
        mret (admission_frags fw a alloc 0 (Z.to_nat (ad_k a)))
  end.
End Beef.
