(* ===== verification/Coalesce.v ===== *)
(** * Bundles (forwarder/coalesce.go: ProcessBundle, FlushCoalesced)

    At the end of a receive batch the buffered transactions of each flow are
    packed, in order, into bundles under the member and byte budgets and
    queued like data; a bundle received from upstream is re-emitted as it
    is. *)

From S2P Require Import Prelude Common Chains BatchWriter RetryTee Coal Egress RateLimit Machine Forwarder.

Section Coalesce.
Context `{ShardCommon, GoRuntime}.
Implicit Types (fw : Settings) (worker : Z) (raw : bytes).

Definition ProcessBundle fw raw worker : M () :=
  if Zlen raw <? BundleHeaderSize then drop_as fw worker "bundle_short"
  else
    magic ← need (u32_at 0 raw);
    malformed ← (if negb (magic =? MagicBSV) then mret true
                 else size ← need (u32_at 62 raw); mret (Zlen raw <? BundleHeaderSize + size));
    if malformed : bool then drop_as fw worker "bundle_malformed"
    else
      e ← gets w_egr;
      match e with
      | None => mret ()
      | Some _ =>
          group ← need (u16_at 56 raw);
          dst ← addrFor fw group;
          queue "" group (EnqueueData raw dst group worker);;
          if s_rec fw then
            iface ← iface_of;
            members ← need (u16_at 60 raw);
            record fw (EvCoalesceFlushed iface worker members "relay")
          else mret ()
      end.

(** The packing loop of one bundle: the members it takes, [cnt] and [size]
    counting what is in it so far, and those left. *)
Fixpoint pack_members (maxMembers maxBytes overhead size cnt : Z) (ms : list Member)
    : list Member * list Member :=
  match ms with
  | [] => ([], [])
  | m :: rest =>
      if cnt <? maxMembers then
        let add := overhead + Zlen (m_tx m) in
        if (0 <? cnt) && (maxBytes <? size + add) then ([], ms)
        else
          let r := pack_members maxMembers maxBytes overhead (size + add) (cnt + 1) rest in
          (m :: r.1, r.2)
      else ([], ms)
  end.

Definition bundle_budget fw : Z :=
  if s_coalesceBudget fw <=? 0 then DefaultCoalesceMaxBytes - ipv6UDPHeaderSize else s_coalesceBudget fw.

(** The next bundle of a bucket: its members, and the members after it. *)
Definition next_bundle fw (maxMembers : Z) (ms : list Member) : list Member * list Member :=
  pack_members maxMembers (bundle_budget fw) (MemberOverhead (s_coalesceCarryTxid fw)) BundleHeaderSize 0 ms.

Definition make_bundle fw (bk : coalBucket) (members : list Member) (hashKey seqNum : Z) : Bundle :=
  {| b_group := u16 (cb_group bk); b_shardbits := u8 (ShardBits (s_engine fw)); b_subtree := cb_subtree bk;
     b_flags := if s_coalesceCarryTxid fw then FlagTxIDsPresent else 0;
     b_hashkey := hashKey; b_seqnum := seqNum; b_members := members |}.

(** The bundles of one bucket; every bundle takes at least one member, so as
    many iterations as members are enough.  Running out of them is a
    failure: with a member bound of zero the loop would not end. *)
Fixpoint flush_bucket fw (maxMembers : Z) (iface : string) worker (bk : coalBucket) (dst : UDPAddr)
    (fuel : nat) (ms : list Member) : M () :=
  match ms, fuel with
  | [], _ => mret ()
  | _, O => panic
  | _, S fuel =>
      let p := next_bundle fw maxMembers ms in
      s ← next_seq (cb_ip bk) (cb_group bk) (cb_subtree bk);
      match BundleEncode (make_bundle fw bk p.1 s.1 s.2) with
      | None => record fw (EvCoalesceFlushed iface worker 0 "encode_error")
      | Some raw =>
          queue "" (cb_group bk) (EnqueueData raw dst (cb_group bk) worker);;
          record fw (EvCoalesceFlushed iface worker (Zlen p.1) "batch")
      end;;
      flush_bucket fw maxMembers iface worker bk dst fuel p.2
  end.

Fixpoint flush_buckets fw (maxMembers : Z) (iface : string) worker (bks : list coalBucket) : M () :=
  match bks with
  | [] => mret ()
  | bk :: bks =>
      dst ← addrFor fw (cb_group bk);
      flush_bucket fw maxMembers iface worker bk dst (length (cb_members bk)) (cb_members bk);;
      flush_buckets fw maxMembers iface worker bks
  end.

Definition FlushCoalesced fw worker : M () :=
  e ← gets w_egr;
  match e with
  | Some e =>
      match e_coal e with
      | Some c =>
          match c_buckets c with
          | [] => mret ()
          | bks =>
              flush_buckets fw (c_maxMembers c) (egrIface (Some e)) worker bks;;
              on_egress (λ _, true) (λ e, e <| e_coal ::= fmap coal_reset |>)
          end
      | None => mret ()
      end
  | None => mret ()
  end.
End Coalesce.
