(* ===== verification/Dispatch.v ===== *)
(** * Dispatch (forwarder/forwarder.go: DispatchClass, dispatchBareTx)

    The routing of one ingress datagram by its leading magic and frame
    version, gated by the class of the socket it arrived on. *)

From S2P Require Import Prelude Common Chains BatchWriter RetryTee Coal Egress RateLimit Machine Forwarder Beef Coalesce.

Inductive IngressClass := IngressPrivileged | IngressTransaction | IngressBEEF.

#[export] Instance IngressClass_eq_dec : EqDecision IngressClass.
Proof. solve_decision. Defined.

Section Dispatch.
Context `{ShardCommon, GoRuntime}.
Implicit Types (fw : Settings) (worker : Z) (raw : bytes) (src : option NetAddr).

Definition dispatchBareTx fw (tx : bytes) src worker : M () :=
  let bad := match TxSize tx with Some sz => negb (sz =? Zlen tx) | None => true end in
  if bad then drop_as fw worker "bare_tx_malformed"
  else if s_requireEF fw && negb (IsEF tx) then drop_as fw worker "bare_tx_not_ef"
  else
    match MulticastBytes ClassTx tx with
    | None => drop_as fw worker "bare_tx_reframe"
    | Some framed =>
        record fw (EvIngressMetered IngressClassTx false (Zlen tx));;
        process fw framed src worker false
    end.

Definition DispatchBareTx fw (tx : bytes) src worker : M () := dispatchBareTx fw tx src worker.

(** [len(raw) > i && raw[i] == v]; the index panics out of range. *)
Definition byte_is (i : nat) (v : Z) raw : option bool :=
  if Z.of_nat i <? Zlen raw then b ← raw !! i; Some (b =? v) else Some false.

(** [n < 4 || Uint32(raw[0:4]) != MagicBSV] and
    [n >= 2 && Uint16(raw[0:2]) == BEEFRecordTag]. *)
Definition not_framed raw : option bool :=
  if Zlen raw <? 4 then Some true else m ← u32_at 0 raw; Some (negb (m =? MagicBSV)).
Definition record_tagged raw : option bool :=
  if 2 <=? Zlen raw then t ← u16_at 0 raw; Some (t =? BEEFRecordTag) else Some false.

Definition privileged_label raw : option string :=
  v4 ← byte_is 6 FrameVerV4 raw;
  if v4 : bool then
    coinbase ← byte_is 7 BlockMsgCoinbase raw;
    Some (if coinbase : bool then "brc133" else "brc131")
  else Some "brc132".

Definition rejectPrivileged fw raw worker : M () :=
  label ← need (privileged_label raw);
  record fw (EvPrivilegedFrameRejected label).

Definition DispatchClass fw raw src worker (class : IngressClass) : M () :=
  let n := Zlen raw in
  let privileged := bool_decide (class = IngressPrivileged) in
  let beefLane := bool_decide (class = IngressBEEF) in
  bare ← need (not_framed raw);
  if bare : bool then
    tagged ← need (record_tagged raw);
    if tagged : bool then SubmitBEEF fw raw src worker
    else if beefLane then rejectOnBEEFLane fw worker
    else dispatchBareTx fw raw src worker
  else
  v4 ← need (byte_is 6 FrameVerV4 raw);
  if v4 : bool then
    if negb privileged then rejectPrivileged fw raw worker
    else
      coinbase ← need (byte_is 7 BlockMsgCoinbase raw);
      let fc := if coinbase : bool then IngressClassCoinbase else IngressClassBlock in
      record fw (EvIngressMetered fc privileged n);;
      ProcessBlock fw raw src worker
  else
  v5 ← need (byte_is 6 FrameVerV5 raw);
  if v5 : bool then
    if negb privileged then rejectPrivileged fw raw worker
    else
      record fw (EvIngressMetered IngressClassSubtree privileged n);;
      ProcessSubtreeData fw raw src worker
  else
  v6 ← need (byte_is 6 FrameVerV6 raw);
  if v6 : bool then
    if beefLane then rejectOnBEEFLane fw worker
    else
      record fw (EvIngressMetered IngressClassAnchor privileged n);;
      ProcessAnchor fw raw src worker
  else
  v9 ← need (byte_is 6 FrameVerV9 raw);
  if v9 : bool then
    record fw (EvIngressMetered IngressClassBEEF privileged n);;
    ProcessBEEF fw raw src worker
  else
  v8 ← need (byte_is 6 FrameVerV8 raw);
  if v8 : bool then
    if beefLane then rejectOnBEEFLane fw worker
    else
      record fw (EvIngressMetered IngressClassTx privileged n);;
      ProcessBundle fw raw worker
  else if beefLane then rejectOnBEEFLane fw worker
  else
    record fw (EvIngressMetered IngressClassTx privileged n);;
    Process fw raw src worker.

Definition Dispatch fw raw src worker : M () := DispatchClass fw raw src worker IngressPrivileged.
End Dispatch.
