(* ===== verification/ForwarderFacts.v ===== *)
(** * Invariants of the forwarder

    What the proxy relies on in shard-common ([ShardLaws]), the invariant of
    its state ([world_ok]) and, operation by operation, that none of them
    panics and all of them keep it. *)

From S2P Require Import Prelude Common Chains BatchWriter RetryTee Coal Egress EgressFacts RateLimit SubtreeRoot Machine Forwarder Beef Coalesce Dispatch.

(** Documented behaviour of the imported packages: a decoder accepts only a
    datagram that holds the 92-byte header, a subtree payload's own header
    covers its node count field, group indices and the XXH64 flow
    hash are unsigned, a record's topic list is not empty. *)
Class ShardLaws `{ShardCommon} : Prop := {
  Decode_len raw f : Decode raw = Some f → f_version f = FrameVerV2 → HeaderSize ≤ Zlen raw;
  DecodeBlock_len raw f : DecodeBlock raw = Some f → HeaderSize ≤ Zlen raw;
  DecodeAnchor_len raw f : DecodeAnchor raw = Some f → HeaderSize ≤ Zlen raw;
  DecodeSubtreeData_len raw f : DecodeSubtreeData raw = Some f → HeaderSize ≤ Zlen raw;
  DecodeBEEF_len raw f : DecodeBEEF raw = Some f → HeaderSize ≤ Zlen raw;
  SubtreeHeader_covers : 24 ≤ SubtreeDataPayloadHeaderSize;
  GroupIndex_nonneg e id : 0 ≤ GroupIndex e id;
  PlaneGroupIndex_nonneg e id : 0 ≤ PlaneGroupIndex e id;
  seqhash_range ip g sub : 0 ≤ seqhash_Hash ip g sub < 2 ^ 64;
  Split_topics p o ts : SplitBEEFPayload p = Some (o, Some ts) → ts ≠ [] }.

(** ** Guarded reads

    The reads of a datagram that dispatch takes, with their values: each is
    behind a test of the length, so none is out of range. *)

(** The BSV magic, the record tag, and a header byte. *)
Definition framed (raw : bytes) : bool := (4 <=? Zlen raw) && (u32 (be_get (slice 0 4 raw)) =? MagicBSV).
Definition tagged (raw : bytes) : bool := (2 <=? Zlen raw) && (u16 (be_get (slice 0 2 raw)) =? BEEFRecordTag).
Definition has_byte (i : nat) (v : Z) (raw : bytes) : bool := bool_decide (raw !! i = Some v).

Lemma not_framed_some raw : not_framed raw = Some (negb (framed raw)).
Proof.
  unfold not_framed, framed. destruct (Z.ltb_spec (Zlen raw) 4); [by rewrite (proj2 (Z.leb_gt 4 _))|].
  rewrite u32_at_in by lia. by rewrite (proj2 (Z.leb_le 4 _)).
Qed.

Lemma record_tagged_some raw : record_tagged raw = Some (tagged raw).
Proof.
  unfold record_tagged, tagged. destruct (Z.leb_spec 2 (Zlen raw)); [|done]. by rewrite u16_at_in by lia.
Qed.

Lemma byte_is_some i v raw : byte_is i v raw = Some (has_byte i v raw).
Proof.
  unfold byte_is, has_byte. destruct (Z.ltb_spec (Z.of_nat i) (Zlen raw)) as [Hl|Hl]; unfold Zlen in Hl.
  - destruct (lookup_lt_is_Some_2 raw i ltac:(lia)) as [b ->]. cbn. f_equal. destruct (Z.eqb_spec b v) as [->|].
    + by rewrite bool_decide_eq_true_2.
    + rewrite bool_decide_eq_false_2; [done|congruence].
  - rewrite bool_decide_eq_false_2; [done|]. rewrite lookup_ge_None_2 by lia. done.
Qed.

Lemma privileged_label_some raw : is_Some (privileged_label raw).
Proof. unfold privileged_label. rewrite !byte_is_some. cbn. destruct (has_byte 6 FrameVerV4 raw); [|by eexists]. cbn. by eexists. Qed.

Lemma byte_at_has i v raw : Z.of_nat i < Zlen raw → has_byte i v raw = true ↔ byte_at i raw = v.
Proof.
  intros Hi. unfold has_byte, byte_at. rewrite bool_decide_eq_true. unfold Zlen in Hi.
  destruct (lookup_lt_is_Some_2 raw i) as [b E]; [lia|]. rewrite E, (nth_lookup_Some _ _ _ _ E). naive_solver.
Qed.

Lemma has_byte_ne i v v' raw : has_byte i v raw = true → v ≠ v' → has_byte i v' raw = false.
Proof. unfold has_byte. intros E%bool_decide_eq_true Hne. apply bool_decide_eq_false. congruence. Qed.

Lemma pow_refused_some `{ShardCommon} {RT : GoRuntime} (fw : Settings) bf : pow_refused fw bf =
  Some (s_requireBlockPoW fw && (bk_msgtype bf =? BlockMsgAnnounce) &&
    negb ((PowHeaderSize <=? Zlen (bk_payload bf)) &&
          CheckHeader (slice 0 (Z.to_nat PowHeaderSize) (bk_payload bf)) (s_powFloor fw))).
Proof.
  unfold pow_refused. destruct (s_requireBlockPoW fw && _); [|done]. cbn [andb].
  destruct (Z.ltb_spec (Zlen (bk_payload bf)) PowHeaderSize); [by rewrite (proj2 (Z.leb_gt _ _))|].
  rewrite subslice_guarded by (unfold PowHeaderSize in *; lia). by rewrite (proj2 (Z.leb_le _ _)).
Qed.

(** The pieces of a payload that is fragmented are in range. *)
Lemma frag_in_range_ok payload s i : 0 < s → 0 ≤ i < frag_count payload s → frag_in_range payload s i = true.
Proof.
  intros Hs [Hi Hk]. unfold frag_in_range, frag_bounds. cbn [fst snd].
  assert (i * s < Zlen payload).
  { unfold frag_count in Hk. assert (i + 1 ≤ (Zlen payload + s - 1) / s) by lia.
    assert ((i + 1) * s ≤ Zlen payload + s - 1); [|lia].
    etransitivity; [|apply (Z.mul_div_le (Zlen payload + s - 1) s); lia]. nia. }
  rewrite (proj2 (Z.leb_le 0 _)) by nia. destruct (Z.ltb_spec (Zlen payload) (i * s + s)); cbn [andb];
    rewrite !(proj2 (Z.leb_le _ _)) by lia; done.
Qed.

Section Facts.
Context `{ShardLaws, GoRuntime}.
Implicit Types (fw : Settings) (worker : Z) (raw : bytes) (w : World).

(** The address of a data group. *)
Definition group_addr fw (g : Z) : UDPAddr := EngineAddr (s_engine fw) g (s_egressPort fw).

Record egr_ok fw (e : Egress) : Prop := mkEgrOk {
  eo_queues : egress_ok e;
  eo_caches : caches_coh (group_addr fw) e;
  eo_pool : 0 < s_fragDataSize fw → ∃ p, e_pool e = Some p ∧ pool_size p = HeaderSizeV3 + s_fragDataSize fw;
  eo_coal : ∀ c, e_coal e = Some c → coal_ok c ∧ Forall (λ b, 0 ≤ cb_group b) (c_buckets c);
  eo_inline : e_sendQ e = None }.

Record world_ok fw w : Prop := mkWorldOk {
  wo_chains : stripes_ok (w_chains w);
  wo_addrs : ∀ i a, w_groupAddrs w !! i = Some (Some a) → a = group_addr fw (Z.of_nat i);
  wo_egr : ∀ e, w_egr w = Some e → egr_ok fw e;
  wo_present : is_Some (w_egr w) }.

Lemma world_ok_add fw evs w (b : bool) : world_ok fw w → world_ok fw (if b then add_events evs w else w).
Proof. intros []. destruct b; by split. Qed.

(** [m] keeps the invariant, does not panic, and returns a [Q]. *)
Definition safe {A} fw (m : M A) (Q : A → Prop) : Prop :=
  ∀ w, world_ok fw w → wp m w (λ x w', world_ok fw w' ∧ Q x).

Lemma safe_ret {A} fw (x : A) (Q : A → Prop) : Q x → safe fw (mret x) Q.
Proof. intros Hx w Hw. by apply wp_ret. Qed.

Lemma safe_bind {A B} fw (m : M A) (f : A → M B) P Q :
  safe fw m P → (∀ x, P x → safe fw (f x) Q) → safe fw (m ≫= f) Q.
Proof.
  intros Hm Hf w Hw. apply wp_bind. eapply wp_mono; [by apply Hm|]. intros x w' [Hw' Hx]. by apply Hf.
Qed.

Lemma safe_weaken {A} fw (m : M A) (P Q : A → Prop) : safe fw m P → (∀ x, P x → Q x) → safe fw m Q.
Proof. intros Hm HPQ w Hw. eapply wp_mono; [by apply Hm|]. naive_solver. Qed.

Lemma safe_gets {A} fw (f : World → A) (Q : A → Prop) :
  (∀ w, world_ok fw w → Q (f w)) → safe fw (gets f) Q.
Proof. intros Hf w Hw. apply wp_gets. auto. Qed.

Lemma safe_modify fw f (Q : () → Prop) :
  (∀ w, world_ok fw w → world_ok fw (f w)) → Q () → safe fw (modify f) Q.
Proof. intros Hf HQ w Hw. apply wp_modify. auto. Qed.

Lemma safe_need {A} fw (x : option A) (Q : A → Prop) : (∃ a, x = Some a ∧ Q a) → safe fw (need x) Q.
Proof. intros (a & -> & Ha). by apply safe_ret. Qed.

Abbreviation keeps fw m := (safe fw m (λ _, True)).

Lemma safe_record fw ev : keeps fw (record fw ev).
Proof.
  unfold record. destruct (s_rec fw); [|by apply safe_ret].
  apply safe_modify; [|done]. by intros w [].
Qed.

Lemma keeps_gets {A} fw (f : World → A) : keeps fw (gets f).
Proof. by apply safe_gets. Qed.

Lemma keeps_modify fw f : (∀ w, world_ok fw w → world_ok fw (f w)) → keeps fw (modify f).
Proof. intros. by apply safe_modify. Qed.

Lemma safe_iface fw : keeps fw iface_of.
Proof. apply keeps_gets. Qed.

Lemma safe_drop_as fw worker why : keeps fw (drop_as fw worker why).
Proof. eapply safe_bind; [apply safe_iface|]. intros. apply safe_record. Qed.

Lemma safe_drop_decode fw worker : keeps fw (drop_decode fw worker).
Proof.
  unfold drop_decode. eapply safe_bind; [apply keeps_gets|]. intros [e|] _; [|by apply safe_ret].
  destruct (e_targets e); [by apply safe_ret|apply safe_record].
Qed.

Lemma safe_on_egress fw fits f :
  (∀ e, egr_ok fw e → fits e = true ∧ egr_ok fw (f e)) → keeps fw (on_egress fits f).
Proof.
  intros Hf w [Hc Ha He [e Ee]]. destruct (Hf e (He e Ee)) as [Hfit Hok]. apply (wp_on_egress _ _ _ e _ Ee Hfit).
  split; [|done]. split; simpl; try done. by intros ? [= <-].
Qed.

(** A datagram queued: the indices are in range because the queues are in
    lock-step. *)
Lemma safe_queue fw label g f :
  0 ≤ g → (∀ e, egr_ok fw e → egr_ok fw (f e)) → keeps fw (queue label g f).
Proof.
  intros Hg Hf. apply safe_on_egress. intros e He. split; [|by apply Hf]. by apply enqueue_fits_ok; [apply He|].
Qed.

(** ** The egress *)

Lemma egr_ok_enqueue fw d dst m p e :
  egr_ok fw e → dst_ok (group_addr fw) dst m → egr_ok fw (enqueue d dst m p e).
Proof.
  intros [Hq Hc Hp Hl Hi] Hd. split.
  - by apply enqueue_ok.
  - by apply enqueue_spec.
  - done.
  - done.
  - done.
Qed.

Lemma dst_ok_data fw g size worker :
  0 ≤ g → dst_ok (group_addr fw) (group_addr fw g) (mkMeta g size worker "" true).
Proof. by intros Hg _. Qed.

Lemma dst_ok_label fw dst g size worker label t :
  label ≠ "" → dst_ok (group_addr fw) dst (mkMeta g size worker label t).
Proof. intros Hl E. by destruct Hl. Qed.

Lemma egr_ok_pool fw e p :
  egr_ok fw e → (∀ q, e_pool e = Some q → ∃ q', p = Some q' ∧ pool_size q' = pool_size q) →
  egr_ok fw (e <| e_pool := p |>).
Proof.
  intros [Hq Hc Hp Hl Hi] Hs. split; try done; simpl.
  - destruct Hq. by split.
  - intros Hf. destruct (Hp Hf) as (q & E & Es). destruct (Hs q E) as (q' & -> & Es'). eexists. split; [done|lia].
Qed.

Lemma PoolGet_ok fw e p :
  egr_ok fw e → e_pool e = Some p →
  ∃ b e', PoolGet e = (Some b, e') ∧ egr_ok fw e' ∧ (∀ b', egr_ok fw (PoolPut b' e')) .
Proof.
  intros He Ep. unfold PoolGet. rewrite Ep. do 2 eexists. split; [reflexivity|].
  assert (Hs : pool_size (pool_get p).2 = pool_size p) by (unfold pool_get; by destruct (pool_free p)).
  assert (Hg : egr_ok fw (e <| e_pool := Some (pool_get p).2 |>)).
  { apply egr_ok_pool; [done|]. intros q Eq. exists (pool_get p).2. split; [done|congruence]. }
  split; [done|]. intros b'. unfold PoolPut. apply (egr_ok_pool fw _ _ Hg).
  simpl. intros q [= <-]. eexists. split; [reflexivity|]. done.
Qed.

(** ** Shared steps *)

Lemma safe_addrFor fw idx : 0 ≤ idx → safe fw (addrFor fw idx) (λ a, a = group_addr fw idx).
Proof.
  intros Hi w Hw. unfold addrFor. apply wp_bind, wp_gets. destruct (Z.leb_spec (Zlen (w_groupAddrs w)) idx) as [|Hl]; [by apply wp_ret|].
  destruct (lookup_lt_is_Some_2 (w_groupAddrs w) (Z.to_nat idx)) as [slot E]; [unfold Zlen in Hl; lia|].
  apply wp_bind. apply (wp_need _ slot); [done|]. destruct slot as [a|].
  - apply wp_ret. split; [done|]. apply (wo_addrs fw w Hw) in E. by rewrite Z2Nat.id in E.
  - apply wp_bind, wp_modify, wp_ret. split; [|done]. destruct Hw as [Hc Ha He Hpr]. split; try done. simpl.
    intros i a Hia. apply list_lookup_insert_Some in Hia as [(<- & [= <-] & _)|[_ Hia]]; [|auto].
    by rewrite Z2Nat.id.
Qed.

Lemma safe_reserve_seq fw ip g sub n : keeps fw (reserve_seq ip g sub n).
Proof.
  intros w Hw. unfold reserve_seq, wp. split; [|done]. destruct Hw. split; try done. simpl.
  by apply reserveSeq_ok.
Qed.

Lemma safe_next_seq fw ip g sub : keeps fw (next_seq ip g sub).
Proof. apply (safe_reserve_seq fw ip g sub 1). Qed.

Lemma safe_claimIn fw st prefix txid ft iface worker : keeps fw (claimIngressIn fw st prefix txid ft iface worker).
Proof.
  unfold claimIngressIn. destruct st as [st|]; [|by apply safe_ret].
  eapply safe_bind; [apply keeps_gets|]. intros env _. cbv zeta.
  eapply safe_bind; [apply keeps_modify; intros w []; by split|].
  intros _ _. destruct (Claim st prefix txid env).1.1; [by apply safe_ret|].
  eapply safe_bind; [apply safe_record|]. intros. by apply safe_ret.
Qed.

Lemma safe_stamp fw raw ip g sub : HeaderSize ≤ Zlen raw → keeps fw (stampInPlace fw raw ip g sub).
Proof.
  unfold HeaderSize. intros Hl. unfold stampInPlace. rewrite (proj2 (Z.ltb_ge _ 56)) by lia. cbv zeta.
  destruct (_ =? 0); [|by destruct (_ || _); apply safe_ret].
  eapply safe_bind; [apply safe_next_seq|]. intros. by apply safe_ret.
Qed.

Lemma safe_frag_total fw payload worker :
  0 < s_fragDataSize fw →
  safe fw (frag_total fw payload worker) (λ t, ∀ k, t = Some k → k = frag_count payload (s_fragDataSize fw)).
Proof.
  intros Hf. unfold frag_total. cbv zeta. rewrite (proj2 (Z.eqb_neq _ 0)) by lia.
  destruct (_ <? _); [|by apply safe_ret; intros ? [= <-]].
  eapply safe_bind; [apply safe_record|]. intros. by apply safe_ret.
Qed.

(** The checks of a fragment loop over pieces [i .. i + n - 1] pass. *)
Record frag_fits fw (fits : FragChecks) (i : Z) (n : nat) : Prop := mkFragFits {
  ff_piece : ∀ j, i ≤ j < i + Z.of_nat n → fc_piece fits j = true;
  ff_patch : fc_patch fits (HeaderSizeV3 + s_fragDataSize fw) = true;
  ff_queue : ∀ e, egr_ok fw e → fc_queue fits e = true }.

Lemma frag_fits_S fw fits i n :
  frag_fits fw fits i (S n) → fc_piece fits i = true ∧ frag_fits fw fits (i + 1) n.
Proof. intros [Hp Hb Hq]. split; [apply Hp; lia|]. split; [|done|done]. intros j Hj. apply Hp. lia. Qed.

Lemma data_frag_fits fw payload label g patch n :
  0 < s_fragDataSize fw → 0 ≤ g → Z.of_nat n ≤ Z.max 0 (frag_count payload (s_fragDataSize fw)) →
  patch (HeaderSizeV3 + s_fragDataSize fw) = true →
  frag_fits fw (mkFragChecks (frag_in_range payload (s_fragDataSize fw)) patch (enqueue_fits label g)) 0 n.
Proof.
  intros Hf Hg Hn Hp. split; cbn; [|done|].
  - intros j Hj. apply frag_in_range_ok; lia.
  - intros e He. by apply enqueue_fits_ok; [apply He|].
Qed.

Lemma patch_in_range_ok fw raw :
  0 < s_fragDataSize fw → HeaderSize ≤ Zlen raw → patch_in_range raw (HeaderSizeV3 + s_fragDataSize fw) = true.
Proof.
  unfold patch_in_range, HeaderSize, HeaderSizeV3. intros Hf Hl. by rewrite !(proj2 (Z.ltb_lt 7 _)) by lia.
Qed.

Lemma safe_frag_loop fw fits build enq ip g sub i n :
  0 < s_fragDataSize fw → frag_fits fw fits i n → (∀ d b e, egr_ok fw e → egr_ok fw (enq d b e)) →
  keeps fw (frag_loop fits build enq ip g sub i n).
Proof.
  intros Hf Hfit Henq. revert i Hfit. induction n as [|n IH]; intros i Hfit; [by apply safe_ret|]. cbn [frag_loop].
  apply frag_fits_S in Hfit as [Hpc Hfit]. rewrite Hpc. eapply safe_bind with (P := λ _, True); [by apply safe_ret|]. intros _ _.
  specialize (IH (i + 1) Hfit). destruct Hfit as [_ Hpa Hqu]. eapply safe_bind; [apply safe_next_seq|]. intros s _. intros w Hw. apply wp_bind, wp_gets.
  apply wp_bind. destruct (w_egr w) as [e|] eqn:Ee; [|by apply wp_ret, IH].
  pose proof (wo_egr fw w Hw e Ee) as He. destruct (eo_pool fw e He Hf) as (p & Ep & Es). rewrite Ep, Es.
  destruct (PoolGet_ok fw e p He Ep) as (b & e' & Eg & He' & Hput). rewrite Eg, Hpa, (Hqu e' He'). cbn [andb].
  destruct (build _ i s.1 s.2) as [d|]; apply wp_modify, IH.
  all: destruct Hw as [Hc Ha Hwe]; split; try done; simpl; intros e2 [= <-]; auto.
Qed.

Lemma keeps_ret {A} fw (x : A) : keeps fw (mret x).
Proof. by apply safe_ret. Qed.

(** ** Transactions *)

Lemma safe_enqueue_data fw d g worker dst :
  0 ≤ g → dst = group_addr fw g → keeps fw (queue "" g (EnqueueData d dst g worker)).
Proof.
  intros Hg ->. apply safe_queue; [done|]. intros e He. by apply egr_ok_enqueue, dst_ok_data.
Qed.

Lemma egr_ok_data_pooled fw d g worker b e :
  0 ≤ g → egr_ok fw e → egr_ok fw (EnqueueDataPooled d (group_addr fw g) g worker b e).
Proof. intros Hg He. by apply egr_ok_enqueue, dst_ok_data. Qed.

Lemma egr_ok_cacheable_pooled fw d dst label worker b e :
  label ≠ "" → egr_ok fw e → egr_ok fw (EnqueueCacheablePooled d dst label worker b e).
Proof. intros Hl He. by apply egr_ok_enqueue, dst_ok_label. Qed.

Lemma safe_emit_ctrl fw raw group label worker : label ≠ "" → keeps fw (emit_ctrl fw raw group label worker).
Proof. intros Hl. apply safe_queue; [done|]. intros e He. by apply egr_ok_enqueue, dst_ok_label. Qed.

Lemma needs_frag_pos fw payload : needs_frag fw payload = true → 0 < s_fragDataSize fw.
Proof. unfold needs_frag. intros [Hn _]%andb_true_iff. lia. Qed.

Lemma safe_fragment fw f ip g worker :
  0 < s_fragDataSize fw → 0 ≤ g → keeps fw (fragment fw f ip g worker).
Proof.
  intros Hf Hg. unfold fragment. cbv zeta. eapply safe_bind; [by apply safe_frag_total|].
  intros [k|] Hk; [|apply keeps_ret]. rewrite (Hk k eq_refl). eapply safe_bind; [apply safe_record|]. intros _ _.
  eapply safe_bind; [by apply safe_addrFor|]. intros dst ->.
  apply safe_frag_loop; [done|apply data_frag_fits; done || lia|]. intros. by apply egr_ok_data_pooled.
Qed.

Lemma safe_fragmentBlock fw raw bf ip g worker :
  0 < s_fragDataSize fw → HeaderSize ≤ Zlen raw → keeps fw (fragmentBlock fw raw bf ip g worker).
Proof.
  intros Hf Hl. unfold fragmentBlock. cbv zeta. eapply safe_bind; [by apply safe_frag_total|].
  intros [k|] Hk; [|apply keeps_ret]. rewrite (Hk k eq_refl). eapply safe_bind; [apply safe_record|]. intros _ _.
  apply safe_frag_loop; [done|apply data_frag_fits; by apply patch_in_range_ok || lia|]. intros. by apply egr_ok_cacheable_pooled.
Qed.

Lemma safe_fragmentSubtreeData fw raw sf ip g worker :
  0 < s_fragDataSize fw → HeaderSize ≤ Zlen raw → keeps fw (fragmentSubtreeData fw raw sf ip g worker).
Proof.
  intros Hf Hl. unfold fragmentSubtreeData. cbv zeta. eapply safe_bind; [by apply safe_frag_total|].
  intros [k|] Hk; [|apply keeps_ret]. rewrite (Hk k eq_refl). eapply safe_bind; [apply safe_record|]. intros _ _.
  apply safe_frag_loop; [done|apply data_frag_fits; by apply patch_in_range_ok || lia|]. intros. by apply egr_ok_cacheable_pooled.
Qed.

Lemma safe_emit_tx fw raw txid g worker : 0 ≤ g → keeps fw (emit_tx fw raw txid g worker).
Proof.
  intros Hg. unfold emit_tx, emit_bridge. eapply safe_bind; [apply keeps_gets|].
  intros [e|] _; [|apply keeps_ret]. eapply safe_bind; [by apply safe_addrFor|]. intros dst Hd.
  eapply safe_bind; [by apply safe_enqueue_data|]. intros _ _.
  eapply safe_bind; [apply keeps_gets|]. intros [bs|] _; [|apply keeps_ret]. cbv zeta.
  destruct (_ =? g); [apply keeps_ret|]. pose proof (GroupIndex_nonneg (br_secondary bs) txid).
  eapply safe_bind; [by apply safe_addrFor|]. intros dst' Hd'. by apply safe_enqueue_data.
Qed.

Lemma egr_ok_coal_add fw ip g sub txid payload e :
  0 ≤ g → egr_ok fw e → egr_ok fw (e <| e_coal ::= fmap (coal_add ip g sub txid payload) |>).
Proof.
  intros Hg [Hq Hc Hp Hl Hi]. split; try done; simpl; [by destruct Hq; split|].
  intros c. destruct (e_coal e) as [c0|]; [|done]. simpl. intros [= <-].
  destruct (Hl c0 eq_refl) as [Hok Hb]. split; [by apply coal_add_ok|].
  simpl. clear -Hg Hb. induction Hb as [|b bs Hb Hbs IH]; simpl; [by repeat constructor|].
  destruct (_ && _ && _); by constructor.
Qed.

Lemma safe_route_tx fw raw f src worker :
  (f_version f = FrameVerV2 → HeaderSize ≤ Zlen raw) → keeps fw (route_tx fw raw f src worker).
Proof.
  intros Hl. unfold route_tx. cbv zeta.
  pose proof (GroupIndex_nonneg (s_engine fw) (f_txid f)) as Hg.
  destruct src as [src|]; [|by apply safe_emit_tx].
  destruct (Z.eqb_spec (f_version f) FrameVerV2) as [Ev|]; [|by apply safe_emit_tx].
  destruct (needs_frag fw (f_payload f)) eqn:En.
  { apply safe_fragment; [by eapply needs_frag_pos|done]. }
  eapply safe_bind; [apply keeps_gets|]. intros [] _.
  - apply safe_on_egress. intros e He. split; [done|by apply egr_ok_coal_add].
  - eapply safe_bind; [by apply safe_stamp; auto|]. intros. by apply safe_emit_tx.
Qed.

Lemma safe_process fw raw src worker verify : keeps fw (process fw raw src worker verify).
Proof.
  unfold process. destruct (Decode raw) as [f|] eqn:Ed; [|apply safe_drop_decode]. cbv zeta.
  do 4 (destruct (_ && _); [apply safe_drop_as|]).
  eapply safe_bind; [apply safe_iface|]. intros iface _.
  eapply safe_bind; [|intros ok _].
  - destruct (_ =? _); [apply safe_claimIn|apply keeps_ret].
  - destruct ok; [|apply keeps_ret]. apply safe_route_tx. intros Hv. by eapply Decode_len.
Qed.

(** ** Control frames *)

Lemma safe_ProcessBlock fw raw src worker : keeps fw (ProcessBlock fw raw src worker).
Proof.
  unfold ProcessBlock. destruct (DecodeBlock raw) as [bf|] eqn:Ed; [|apply safe_drop_decode].
  pose proof (DecodeBlock_len raw bf Ed). rewrite pow_refused_some, need_some. destruct (_ && _ && _); [apply safe_record|].
  eapply safe_bind; [apply safe_iface|]. intros iface _. eapply safe_bind; [apply safe_claimIn|].
  intros [] _; [|apply keeps_ret]. destruct src as [src|]; [|by apply safe_emit_ctrl]. cbv zeta.
  destruct (needs_frag fw (bk_payload bf)) eqn:En; [by apply safe_fragmentBlock; [eapply needs_frag_pos|]|].
  eapply safe_bind; [by apply safe_stamp|]. intros. by apply safe_emit_ctrl.
Qed.

Lemma safe_ProcessAnchor fw raw src worker : keeps fw (ProcessAnchor fw raw src worker).
Proof.
  unfold ProcessAnchor. destruct (DecodeAnchor raw) as [f|] eqn:Ed; [|apply safe_drop_decode].
  pose proof (DecodeAnchor_len raw f Ed).
  eapply safe_bind; [apply safe_iface|]. intros iface _. eapply safe_bind; [apply safe_claimIn|].
  intros [] _; [|apply keeps_ret]. destruct src as [src|]; [|by apply safe_emit_ctrl].
  eapply safe_bind; [by apply safe_stamp|]. intros. by apply safe_emit_ctrl.
Qed.

Lemma safe_subtree_root_gate fw sf : keeps fw (subtree_root_gate fw sf).
Proof.
  unfold subtree_root_gate. destruct (s_verifySubtreeRoot fw); [|apply keeps_ret].
  rewrite verify_total, need_some by apply SubtreeHeader_covers.
  match goal with |- safe _ (match ?v with _ => _ end) _ => destruct v as [[]|] end; (eapply safe_bind; [apply safe_record|]; intros; apply keeps_ret).
Qed.

Lemma safe_ProcessSubtreeData fw raw src worker : keeps fw (ProcessSubtreeData fw raw src worker).
Proof.
  unfold ProcessSubtreeData. destruct (DecodeSubtreeData raw) as [sf|] eqn:Ed; [|apply safe_drop_decode].
  pose proof (DecodeSubtreeData_len raw sf Ed).
  eapply safe_bind; [apply safe_subtree_root_gate|]. intros [] _; [|apply keeps_ret].
  eapply safe_bind; [apply safe_iface|]. intros iface _. eapply safe_bind; [apply safe_claimIn|].
  intros [] _; [|apply keeps_ret]. destruct src as [src|]; [|by apply safe_emit_ctrl]. cbv zeta.
  destruct (needs_frag fw (sd_payload sf)) eqn:En; [by apply safe_fragmentSubtreeData; [eapply needs_frag_pos|]|].
  eapply safe_bind; [by apply safe_stamp|]. intros. by apply safe_emit_ctrl.
Qed.

(** ** BEEF *)

Lemma safe_charge_beef fw src n : keeps fw (charge_beef src n).
Proof.
  intros w Hw. unfold charge_beef, wp. destruct (w_beefLimit w); [|done]. destruct Hw. split; [by split|done].
Qed.

Lemma safe_claimBEEF fw key ft iface worker : keeps fw (claimBEEFIngress fw key ft iface worker).
Proof. unfold claimBEEFIngress. destruct (s_beefDedup fw); apply safe_claimIn. Qed.

(** A frame that passed its checks has a group and still holds its header. *)
Definition admitted_ok (r : option (BEEFFrame * Z * bytes)) : Prop :=
  match r with Some (_, g, raw) => 0 ≤ g ∧ HeaderSize ≤ Zlen raw | None => True end.

Lemma safe_dropped {A} fw worker why (Q : option A → Prop) :
  Q None → safe fw (drop_as fw worker why;; mret None) Q.
Proof. intros HQ. eapply safe_bind; [apply safe_drop_as|]. intros. by apply safe_ret. Qed.

Lemma safe_checkBEEF fw raw src worker chk : safe fw (checkBEEF fw raw src worker chk) admitted_ok.
Proof.
  unfold checkBEEF. destruct (s_beefEngine fw) as [pe|]; [|by apply safe_dropped].
  destruct (DecodeBEEF raw) as [bf|] eqn:Ed; [|by apply safe_dropped].
  pose proof (DecodeBEEF_len raw bf Ed) as Hl.
  destruct (beef_conformance fw bf src) as [[why|topics]|] eqn:Ec; [by apply safe_dropped| |].
  - unfold HeaderSize in Hl. rewrite (proj2 (Z.leb_gt _ 7)), andb_false_r by lia.
    unfold claim_beef. cbv zeta. eapply safe_bind; [apply safe_charge_beef|].
    intros [] _; [|by apply safe_dropped..]. destruct (_ && _); [by apply safe_dropped|].
    eapply safe_bind; [apply safe_iface|]. intros iface _. eapply safe_bind; [apply safe_claimBEEF|].
    intros [] _; apply safe_ret; [|done]. split; [apply PlaneGroupIndex_nonneg|].
    destruct src; cbn [fst]; [|done]. unfold Zlen. rewrite length_insert. done.
  - exfalso. unfold beef_conformance in Ec.
    destruct (SplitBEEFPayload (bf_payload bf)) as [[o [[|t ts]|]]|] eqn:Es; try done.
    + by apply Split_topics in Es.
    + by repeat case_match.
    + by repeat case_match.
Qed.

Lemma safe_fragmentBEEF fw bf ip g worker :
  0 < s_fragDataSize fw → 0 ≤ g → keeps fw (fragmentBEEF fw bf ip g worker).
Proof.
  intros Hf Hg. unfold fragmentBEEF, beefFragTotal. eapply safe_bind; [by apply safe_frag_total|].
  intros [k|] Hk; [|apply keeps_ret]. rewrite (Hk k eq_refl). eapply safe_bind; [apply safe_record|]. intros _ _.
  eapply safe_bind; [by apply safe_addrFor|]. intros dst ->.
  apply safe_frag_loop; [done|apply data_frag_fits; [done|done|lia|apply Z.ltb_lt; unfold HeaderSizeV3; lia]|]. intros. by apply egr_ok_data_pooled.
Qed.

Lemma safe_emit_beef fw raw g worker : 0 ≤ g → keeps fw (emit_beef fw raw g worker).
Proof.
  intros Hg. unfold emit_beef. eapply safe_bind; [apply keeps_gets|]. intros [e|] _; [|apply keeps_ret].
  eapply safe_bind; [by apply safe_addrFor|]. intros dst Hd. by apply safe_enqueue_data.
Qed.

Lemma safe_processBEEF fw raw src worker chk : keeps fw (processBEEF fw raw src worker chk).
Proof.
  unfold processBEEF. eapply safe_bind; [apply safe_checkBEEF|].
  intros [[[bf g] raw']|] Hr; [|apply keeps_ret]. destruct Hr as [Hg Hl].
  destruct src as [src|]; [|by apply safe_emit_beef]. cbv zeta.
  destruct (needs_frag fw (bf_payload bf)) eqn:En; [by eapply safe_fragmentBEEF; [eapply needs_frag_pos|]|].
  eapply safe_bind; [by apply safe_stamp|]. intros. by apply safe_emit_beef.
Qed.

Lemma safe_meter_beef fw p frame : keeps fw (meter_beef fw p frame).
Proof. eapply safe_bind; [apply safe_record|]. intros. apply safe_record. Qed.

Lemma safe_DispatchBEEF fw p src worker : keeps fw (DispatchBEEF fw p src worker).
Proof.
  unfold DispatchBEEF. destruct p as [p|]; [|apply keeps_ret].
  destruct (pb_frame p); [|apply safe_record]. eapply safe_bind; [apply safe_meter_beef|]. intros _ _.
  eapply safe_bind; [apply safe_processBEEF|]. intros. apply safe_record.
Qed.

Lemma safe_AdmitBEEF fw p src worker : keeps fw (AdmitBEEF fw p src worker).
Proof.
  unfold AdmitBEEF. destruct p as [p|]; [|apply keeps_ret].
  destruct (pb_frame p); [|eapply safe_bind; [apply safe_record|intros; apply keeps_ret]].
  eapply safe_bind; [apply safe_meter_beef|]. intros _ _.
  eapply safe_bind; [apply safe_checkBEEF|]. intros r Hr.
  eapply safe_bind; [|intros a _; eapply safe_bind; [apply safe_record|intros; apply keeps_ret]].
  destruct r as [[[bf g] raw]|]; [|apply keeps_ret]. destruct Hr as [Hg Hl]. unfold reserve_admission.
  eapply safe_bind; [by apply safe_addrFor|]. intros dst _. destruct src as [src|]; [|apply keeps_ret]. cbv zeta.
  destruct (needs_frag _ _) eqn:En.
  - eapply safe_bind; [by eapply safe_frag_total, needs_frag_pos|]. intros [k|] _; [|apply keeps_ret].
    eapply safe_bind; [apply safe_reserve_seq|]. intros. apply keeps_ret.
  - eapply safe_bind; [by apply safe_stamp|]. intros. apply keeps_ret.
Qed.

(** ** Bundles and dispatch *)

Lemma safe_ProcessBundle fw raw worker : keeps fw (ProcessBundle fw raw worker).
Proof.
  unfold ProcessBundle. destruct (Z.ltb_spec (Zlen raw) BundleHeaderSize) as [|Hl]; [apply safe_drop_as|].
  unfold BundleHeaderSize in Hl. rewrite (u32_at_in 0), (u32_at_in 62), (u16_at_in 56), (u16_at_in 60), !need_some by lia.
  eapply safe_bind; [|intros [] _].
  - destruct (negb _); apply keeps_ret.
  - apply safe_drop_as.
  - eapply safe_bind; [apply keeps_gets|]. intros [e|] _; [|apply keeps_ret].
    set (g := u16 (be_get (slice 56 _ raw))). assert (Hg : 0 ≤ g) by (unfold g, u16; apply Z.mod_pos_bound; lia).
    eapply safe_bind; [by apply safe_addrFor|]. intros dst Hd.
    eapply safe_bind; [by apply safe_enqueue_data|]. intros _ _.
    destruct (s_rec fw); [|apply keeps_ret]. eapply safe_bind; [apply safe_iface|]. intros iface _.
    rewrite need_some. apply safe_record.
Qed.

(** A bundle takes at least one member. *)
Lemma next_bundle_shorter fw mm m ms :
  1 ≤ mm → (length (next_bundle fw mm (m :: ms)).2 ≤ length ms)%nat.
Proof.
  intros Hm. unfold next_bundle. cbn [pack_members]. rewrite (proj2 (Z.ltb_lt 0 mm)) by lia. cbn [andb Z.ltb snd].
  change (0 <? 0) with false. cbn [andb snd].
  generalize (BundleHeaderSize + (MemberOverhead (s_coalesceCarryTxid fw) + Zlen (m_tx m))) (0 + 1).
  induction ms as [|x ms IH]; intros size cnt; [done|]. cbn [pack_members]. destruct (cnt <? mm); [|done].
  destruct (_ && _); [done|]. cbn [snd length]. etransitivity; [apply IH|]. lia.
Qed.

Lemma safe_flush_bucket fw mm iface worker bk dst fuel ms :
  1 ≤ mm → (length ms ≤ fuel)%nat → 0 ≤ cb_group bk → dst = group_addr fw (cb_group bk) →
  keeps fw (flush_bucket fw mm iface worker bk dst fuel ms).
Proof.
  intros Hm Hl Hg Hd. revert ms Hl. induction fuel as [|fuel IH]; intros [|m ms] Hl; try apply keeps_ret; [by simpl in Hl; lia|].
  cbn [flush_bucket]. cbv zeta. eapply safe_bind; [apply safe_next_seq|]. intros s _.
  eapply safe_bind; [|intros; apply IH; pose proof (next_bundle_shorter fw mm m ms Hm); simpl in Hl; lia]. destruct (BundleEncode _); [|apply safe_record].
  eapply safe_bind; [by apply safe_enqueue_data|]. intros. apply safe_record.
Qed.

Lemma safe_flush_buckets fw mm iface worker bks :
  1 ≤ mm → Forall (λ b, 0 ≤ cb_group b) bks → keeps fw (flush_buckets fw mm iface worker bks).
Proof.
  intros Hm Hb. induction Hb as [|bk bks Hg Hb IH]; [apply keeps_ret|]. cbn [flush_buckets].
  eapply safe_bind; [by apply safe_addrFor|]. intros dst Hd.
  eapply safe_bind; [by apply safe_flush_bucket|]. intros. apply IH.
Qed.

Lemma egr_ok_coal_reset fw e : egr_ok fw e → egr_ok fw (e <| e_coal ::= fmap coal_reset |>).
Proof.
  intros [Hq Hc Hp Hl Hi]. split; try done; simpl; [by destruct Hq; split|].
  intros c. destruct (e_coal e) as [c0|]; [|done]. simpl. intros [= <-].
  destruct (Hl c0 eq_refl) as [Hok _]. split; [by apply coal_reset_ok|constructor].
Qed.

Lemma safe_FlushCoalesced fw worker : keeps fw (FlushCoalesced fw worker).
Proof.
  unfold FlushCoalesced. eapply safe_bind with (P := λ e, ∀ e', e = Some e' → egr_ok fw e').
  { apply safe_gets. intros w Hw. apply (wo_egr fw w Hw). }
  intros [e|] He; [|apply keeps_ret]. specialize (He e eq_refl).
  destruct (e_coal e) as [c|] eqn:Ec; [|apply keeps_ret]. destruct (eo_coal fw e He c Ec) as [(_ & Hm & _) Hb].
  destruct (c_buckets c) as [|bk bks]; [apply keeps_ret|].
  eapply safe_bind; [apply safe_flush_buckets; [lia|done]|]. intros _ _.
  apply safe_on_egress. intros e' He'. split; [done|by apply egr_ok_coal_reset].
Qed.

Lemma safe_dispatchBareTx fw tx src worker : keeps fw (dispatchBareTx fw tx src worker).
Proof.
  unfold dispatchBareTx. cbv zeta. destruct (match TxSize tx with Some _ => _ | None => _ end); [apply safe_drop_as|].
  destruct (_ && _); [apply safe_drop_as|]. destruct (MulticastBytes ClassTx tx); [|apply safe_drop_as].
  eapply safe_bind; [apply safe_record|]. intros. apply safe_process.
Qed.

Lemma safe_rejectPrivileged fw raw worker : keeps fw (rejectPrivileged fw raw worker).
Proof.
  destruct (privileged_label_some raw) as [l E]. unfold rejectPrivileged. rewrite E, need_some. apply safe_record.
Qed.

Lemma safe_DispatchClass fw raw src worker class : keeps fw (DispatchClass fw raw src worker class).
Proof.
  unfold DispatchClass. cbv zeta. rewrite not_framed_some, record_tagged_some, !byte_is_some, !need_some.
  destruct (negb (framed raw)).
  { destruct (tagged raw); [apply safe_DispatchBEEF|].
    destruct (bool_decide _); [apply safe_drop_as|apply safe_dispatchBareTx]. }
  repeat (rewrite ?need_some; match goal with |- safe _ (if ?c then _ else _) _ => destruct c end);
    rewrite ?need_some; try apply safe_rejectPrivileged; try apply safe_drop_as;
    (eapply safe_bind; [apply safe_record|]; intros _ _).
  all: auto using safe_ProcessBlock, safe_ProcessSubtreeData, safe_ProcessAnchor, safe_ProcessBundle.
  all: first [apply safe_processBEEF | apply safe_process].
Qed.
End Facts.
