(* ===== verification/Fragmentation.v ===== *)
(** * Fragments

    The fragment loops cut a payload into consecutive pieces that put
    together are the payload, give piece [j] the flow's [j]-th next sequence
    number, and queue each on every interface. *)

From S2P Require Import Prelude Common Chains BatchWriter RetryTee Coal Egress EgressFacts RateLimit SubtreeRoot Machine Forwarder Beef Coalesce Dispatch ForwarderFacts.

(** [frame.EncodeFragment] writes the 104-byte header and the data into a
    buffer that has room for them, and what it writes does not depend on how
    much more room there is. *)
Class FragLaws `{ShardCommon} : Prop := {
  EncodeFragment_fits buflen a : HeaderSizeV3 + Zlen (fa_data a) ≤ buflen →
    ∃ d, EncodeFragment buflen a = Some d ∧ Zlen d = HeaderSizeV3 + Zlen (fa_data a) ∧
      ∀ buflen', HeaderSizeV3 + Zlen (fa_data a) ≤ buflen' → EncodeFragment buflen' a = Some d }.

(** ** The cut *)

Lemma Zlen_frag_data payload s i :
  0 < s → 0 ≤ i → i * s ≤ Zlen payload →
  Zlen (frag_data payload s i) = Z.min s (Zlen payload - i * s).
Proof.
  intros Hs Hi Hl. unfold frag_data, frag_bounds. cbn [fst snd]. destruct (_ <? _) eqn:E; unfold slice, Zlen in *.
  all: rewrite length_take, length_drop; lia.
Qed.

Lemma frag_data_le payload s i : 0 < s → 0 ≤ i → Zlen (frag_data payload s i) ≤ s.
Proof.
  intros Hs Hi. unfold frag_data, frag_bounds. cbn [fst snd]. destruct (_ <? _) eqn:E; unfold slice, Zlen in *.
  all: rewrite length_take, length_drop; lia.
Qed.

Lemma frag_count_bounds payload s :
  0 < s → 0 < Zlen payload →
  let k := frag_count payload s in 1 ≤ k ∧ (k - 1) * s < Zlen payload ≤ k * s.
Proof. intros Hs Hl. unfold frag_count. cbv zeta. Z.div_mod_to_equations. nia. Qed.

Lemma take_drop_slice {A} n m (l : list A) : (n ≤ m)%nat → take n l ++ slice n m l = take m l.
Proof. intros Hn. unfold slice. rewrite take_take_drop. f_equal. lia. Qed.

(** The first [n] pieces are the first [n * s] bytes. *)
Lemma frag_data_concat payload s n :
  0 < s → concat (frag_data payload s <$> (Z.of_nat <$> seq 0 n)) = take (n * Z.to_nat s) payload.
Proof.
  intros Hs. rewrite <- (Z2Nat.id s) by lia. generalize (Z.to_nat s). intros m. rewrite Nat2Z.id.
  induction n as [|n IH]; [by rewrite Nat.mul_0_l, take_0|].
  rewrite seq_S, !fmap_app, concat_app, IH. cbn [fmap list_fmap concat]. rewrite app_nil_r.
  replace (S n * m)%nat with (n * m + m)%nat by lia. rewrite Nat.add_0_l.
  unfold frag_data, frag_bounds. cbn [fst snd]. rewrite <- Nat2Z.inj_mul, <- Nat2Z.inj_add, Nat2Z.id.
  unfold Zlen. destruct (Z.ltb_spec (Z.of_nat (length payload)) (Z.of_nat (n * m + m))) as [E|E]; rewrite Nat2Z.id.
  - rewrite (take_ge payload (n * m + m)) by lia. unfold slice.
    rewrite (take_ge (drop _ _)) by (rewrite length_drop; lia). apply take_drop.
  - apply take_drop_slice. lia.
Qed.

Lemma frag_data_all payload s :
  0 < s → concat (frag_data payload s <$> (Z.of_nat <$> seq 0 (Z.to_nat (frag_count payload s)))) = payload.
Proof.
  intros Hs. rewrite frag_data_concat by done. destruct payload as [|b l]; [by rewrite take_nil|].
  destruct (frag_count_bounds (b :: l) s) as (Hk & _ & Hc); [done|rewrite Zlen_cons; pose proof (Zlen_nonneg l); lia|].
  apply take_ge. unfold Zlen in *. nia.
Qed.

(** ** The loop *)

(** A datagram sequence queued on every interface. *)
Definition queue_all (targets : list string) (dst : UDPAddr) (ds : list bytes) (qs : list (list Message))
    : list (list Message) :=
  zip_with (λ z q, q ++ ((λ d, mkMessage d (with_zone dst z)) <$> ds)) targets qs.

Lemma queue_all_nil targets dst qs : length qs = length targets → queue_all targets dst [] qs = qs.
Proof.
  unfold queue_all. revert qs. induction targets as [|t ts IH]; intros [|q qs] Hl; try done.
  simpl. rewrite app_nil_r. f_equal. apply IH. simpl in Hl. lia.
Qed.

Lemma queue_all_cons targets dst d ds qs :
  queue_all targets dst (d :: ds) qs = queue_all targets dst ds (queue_all targets dst [d] qs).
Proof.
  unfold queue_all. revert qs. induction targets as [|t ts IH]; intros [|q qs]; try done.
  simpl. rewrite <- app_assoc. f_equal. apply IH.
Qed.

Section Loop.
Context {SC : ShardCommon} {SL : ShardLaws} {FL : FragLaws} {RT : GoRuntime}.
Implicit Types (fw : Settings) (w : World).

(** The parts of the state a fragment loop leaves alone. *)
Definition same_rest w w' : Prop :=
  w_env w' = w_env w ∧ w_bridging w' = w_bridging w ∧ w_beefLimit w' = w_beefLimit w ∧
  w_groupAddrs w' = w_groupAddrs w ∧ w_events w' = w_events w ∧ w_clock w' = w_clock w.

Lemma PoolGet_queues e : e_targets (PoolGet e).2 = e_targets e ∧ e_msgs (PoolGet e).2 = e_msgs e.
Proof. unfold PoolGet. by destruct (e_pool e). Qed.

Record loop_post fw (key : chainKey) (c : Z) (dst : UDPAddr) (n : nat) (ok : nat → bytes → Prop)
    (e : Egress) w w' : Prop := mkLoopPost {
  lp_ok : world_ok fw w';
  lp_rest : same_rest w w';
  lp_counter : ∀ k, counter_of (w_chains w') k =
    if decide (k = key) then u64 (c + Z.of_nat n) else counter_of (w_chains w) k;
  lp_queue : ∃ e' ds, w_egr w' = Some e' ∧ length ds = n ∧
    (∀ j d, ds !! j = Some d → ok j d) ∧
    e_targets e' = e_targets e ∧ e_msgs e' = queue_all (e_targets e) dst ds (e_msgs e) }.

Lemma frag_loop_spec fw fits build dst mk ip g sub n i w e :
  world_ok fw w → w_egr w = Some e → 0 < s_fragDataSize fw → frag_fits fw fits i n →
  (∀ d, dst_ok (group_addr fw) dst (mk d)) →
  let key := mkChainKey ip g sub in
  let c := counter_of (w_chains w) key in
  let made j d := build (HeaderSizeV3 + s_fragDataSize fw) (i + Z.of_nat j) (seqhash_Hash ip g sub)
                    (u64 (c + 1 + Z.of_nat j)) = Some d in
  (∀ j, (j < n)%nat → ∃ d, made j d) →
  wp (frag_loop fits build (λ d b, enqueue d dst (mk d) (Some b)) ip g sub i n) w
    (λ _ w', loop_post fw key c dst n made e w w').
Proof.
  intros Hw He Hf Hfit Hdst. cbv zeta. revert i w e Hw He Hfit. induction n as [|n IH]; intros i w e Hw He Hfit Hmade.
  - apply wp_ret. split; [done|by repeat split| |].
    + intros k. case_decide; [subst|done]. rewrite Z.add_0_r. symmetry. apply u64_small, (wo_chains fw w Hw).
    + exists e, []. split_and!; try done. symmetry. apply queue_all_nil, (eo_queues fw e), (wo_egr fw w Hw e He).
  - cbn [frag_loop]. apply frag_fits_S in Hfit as [Hpc Hfit]. rewrite Hpc. apply wp_bind, wp_ret. set (key := mkChainKey ip g sub) in *. set (c := counter_of (w_chains w) key) in *.
    pose proof (wo_egr fw w Hw e He) as Hok. destruct (eo_pool fw e Hok Hf) as (p & Ep & Es).
    destruct (PoolGet_ok fw e p Hok Ep) as (b & e1 & Eg & He1 & _).
    destruct (PoolGet_queues e) as [Et Em]. rewrite Eg in Et, Em. cbn [snd] in Et, Em.
    destruct (Hmade 0%nat ltac:(lia)) as [d Hd]. rewrite Z.add_0_r in Hd. simpl Z.of_nat in Hd. rewrite Z.add_0_r in Hd.
    apply wp_bind. unfold next_seq at 1, wp at 1.
    set (r := nextSeq (w_chains w) ip g sub). set (w1 := w <| w_chains := r.2 |>).
    apply wp_bind, wp_gets. change (w_egr w1) with (w_egr w). rewrite He, Ep, Eg, Es.
    assert (Er : r.1 = (seqhash_Hash ip g sub, u64 (c + 1))).
    { unfold r, nextSeq. rewrite (surjective_pairing (reserveSeq (w_chains w) ip g sub 1).1).
      by rewrite reserveSeq_hash, reserveSeq_first. }
    rewrite Er. cbn [fst snd]. rewrite Hd, (ff_patch _ _ _ _ Hfit), (ff_queue _ _ _ _ Hfit e1 He1). cbn [andb].
    apply wp_bind, wp_modify.
    set (e2 := enqueue d dst (mk d) (Some b) e1). set (w2 := w1 <| w_egr := Some e2 |>).
    assert (He2 : egr_ok fw e2) by (by apply egr_ok_enqueue).
    assert (Hw2 : world_ok fw w2).
    { destruct Hw as [Hc Ha _ _]. split; [by apply reserveSeq_ok|done| |done]. by intros ? [= <-]. }
    assert (Hc2 : ∀ k, counter_of (w_chains w2) k = if decide (k = key) then u64 (c + 1) else counter_of (w_chains w) k).
    { intros k. apply reserveSeq_counter, (wo_chains fw w Hw). }
    assert (Hck : counter_of (w_chains w2) key = u64 (c + 1)) by (rewrite Hc2; by apply decide_True).
    assert (Eq2 : e_msgs e2 = queue_all (e_targets e) dst [d] (e_msgs e)).
    { destruct He1 as [Hq1 Hc1 _ _]. unfold e2. rewrite (proj1 (enqueue_spec _ d dst (mk d) (Some b) e1 Hq1 Hc1 (Hdst d))).
      by rewrite Et, Em. }
    eapply wp_mono; [apply (IH (i + 1) w2 e2 Hw2 eq_refl Hfit)|].
    + intros j Hj. destruct (Hmade (S j) ltac:(lia)) as [d' Hd']. exists d'. fold key. rewrite Hck.
      rewrite <- Hd'. f_equal; [lia|]. zlia.
    + intros [] w' [Hw' Hrest Hcnt Hq]. split; [done| | |].
      * destruct Hrest as (? & ? & ? & ? & ? & ?). by repeat split.
      * intros k. rewrite Hcnt. fold key. rewrite Hck, Hc2. case_decide; [|done].
        rewrite u64_add_l. f_equal. lia.
      * destruct Hq as (e' & ds & E1 & E2 & E3 & E4 & E5). exists e', (d :: ds). split_and!; try done.
        -- simpl. lia.
        -- intros [|j] d' Hj; [injection Hj as <-; by rewrite !Z.add_0_r|].
           specialize (E3 j d' Hj). fold key in E3. rewrite Hck in E3. rewrite <- E3.
           f_equal; [lia|]. zlia.
        -- by rewrite E4.
        -- rewrite E5, Eq2. change (e_targets e2) with (e_targets e1). rewrite Et. symmetry. apply queue_all_cons.
Qed.

Lemma addrFor_spec fw idx w :
  0 ≤ idx → world_ok fw w →
  wp (addrFor fw idx) w (λ a w', world_ok fw w' ∧ a = group_addr fw idx ∧
    w_chains w' = w_chains w ∧ w_egr w' = w_egr w ∧ w_env w' = w_env w).
Proof.
  intros Hi Hw. pose proof (safe_addrFor fw idx Hi w Hw) as Hs. revert Hs. unfold addrFor.
  unfold wp, mbind, M_bind, gets. destruct (_ <=? idx); [by intros []|].
  destruct (w_groupAddrs w !! Z.to_nat idx) as [[a|]|]; cbn; by intros [].
Qed.

(** A fragment datagram and its network headers fit the MTU. *)
Lemma frag_datagram_fits fw buflen a d :
  EncodeFragment buflen a = Some d → Zlen (fa_data a) ≤ s_fragDataSize fw →
  buflen = HeaderSizeV3 + s_fragDataSize fw →
  Zlen d + ipv6UDPHeaderSize ≤ s_fragDataSize fw + ipv6UDPOverhead.
Proof.
  intros Hd Hl ->. destruct (EncodeFragment_fits (HeaderSizeV3 + s_fragDataSize fw) a) as (d' & Hd' & Hz & _); [lia|].
  assert (d' = d) as -> by congruence. unfold ipv6UDPOverhead. lia.
Qed.
End Loop.

(** ** Stamping *)

Lemma slice_splice_same (lo : nat) v raw :
  (lo + 8 ≤ length raw)%nat → 0 ≤ v < 2 ^ 64 → be_get (slice lo (lo + 8) (splice lo (be_put 8 v) raw)) = v.
Proof.
  intros Hl Hv. pose proof (slice_splice_eq lo (be_put 8 v) raw ltac:(lia)) as E.
  rewrite length_be_put in E. rewrite E. by apply be64_roundtrip.
Qed.

Lemma slice_splice_other (lo hi lo' : nat) v raw :
  (lo' + 8 ≤ length raw)%nat → (hi ≤ lo' ∨ lo' + 8 ≤ lo)%nat →
  slice lo hi (splice lo' (be_put 8 v) raw) = slice lo hi raw.
Proof.
  intros Hl Hd. apply list_eq. intros i. unfold slice. destruct (decide (i < hi - lo)%nat).
  - rewrite !lookup_take_lt, !lookup_drop by lia. apply lookup_splice_ne; rewrite length_be_put; lia.
  - by rewrite !lookup_take_ge by lia.
Qed.

Section Stamp.
Context {SC : ShardCommon} {SL : ShardLaws} {RT : GoRuntime}.

(** What stamping writes, and the counter it advances. *)
Definition stamped (fw : Settings) (raw ip : bytes) (g : Z) (sub : bytes) (w : World) (raw' : bytes) (w' : World) : Prop :=
  let seq r := be_get (slice 48 56 r) in
  let hash r := be_get (slice 40 48 r) in
  let key := mkChainKey ip g sub in
    length raw' = length raw ∧
    (∀ i, (i < 40 ∨ 56 ≤ i)%nat → raw' !! i = raw !! i) ∧
    (seq raw = 0 →
       seq raw' = u64 (counter_of (w_chains w) key + 1) ∧ hash raw' = seqhash_Hash ip g sub ∧
       counter_of (w_chains w') key = seq raw' ∧
       ∀ k, k ≠ key → counter_of (w_chains w') k = counter_of (w_chains w) k) ∧
    (seq raw ≠ 0 →
       w' = w ∧ seq raw' = seq raw ∧
       hash raw' = if (hash raw =? 0) || s_stampSource fw then seqhash_Hash ip g sub else hash raw).

Lemma stamp_fields fw raw ip g sub w :
  HeaderSize ≤ Zlen raw → stripes_ok (w_chains w) →
  wp (stampInPlace fw raw ip g sub) w (stamped fw raw ip g sub w).
Proof.
  unfold HeaderSize. intros Hl Hok. unfold stamped. cbv zeta. unfold stampInPlace. rewrite (proj2 (Z.ltb_ge _ 56)) by lia.
  assert (Hlen : (92 ≤ length raw)%nat) by (unfold Zlen in Hl; lia).
  assert (Hne : ∀ (lo : nat) v i, (40 ≤ lo ∧ lo + 8 ≤ 56)%nat → (i < 40 ∨ 56 ≤ i)%nat → ∀ r,
    length r = length raw → splice lo (be_put 8 v) r !! i = r !! i).
  { intros lo v i Hlo Hi r Hr. apply lookup_splice_ne; rewrite length_be_put; lia. }
  assert (Hln : ∀ (lo : nat) v r, (lo ≤ 48)%nat → length r = length raw → length (splice lo (be_put 8 v) r) = length raw).
  { intros lo v r Hlo Hr. rewrite length_splice; [done|]. rewrite length_be_put. lia. }
  pose proof (seqhash_range ip g sub) as Hh.
  destruct (Z.eqb_spec (be_get (slice 48 56 raw)) 0) as [E|E].
  - apply wp_bind. unfold next_seq, wp at 1. apply wp_ret.
    unfold nextSeq. rewrite (surjective_pairing (reserveSeq (w_chains w) ip g sub 1).1), reserveSeq_hash, reserveSeq_first.
    cbn [fst snd]. set (c := counter_of (w_chains w) (mkChainKey ip g sub)).
    assert (Hs : 0 ≤ u64 (c + 1) < 2 ^ 64) by apply u64_range.
    set (r1 := splice 40 (be_put 8 (seqhash_Hash ip g sub)) raw).
    assert (Hl1 : length r1 = length raw) by (apply Hln; lia).
    split_and!; [apply Hln; lia| | |done].
    + intros i Hi. rewrite Hne by lia. apply Hne; lia.
    + intros _. rewrite (slice_splice_same 48) by lia.
      rewrite (slice_splice_other 40 48 48) by lia.
      unfold r1. rewrite (slice_splice_same 40) by lia.
      split_and!; try done.
      * etransitivity; [by apply reserveSeq_counter|]. by rewrite decide_True.
      * intros k Hk. etransitivity; [by apply reserveSeq_counter|]. by rewrite decide_False.
  - destruct (_ || _) eqn:Ec; apply wp_ret; split_and!; try done.
    + by rewrite Hln by lia.
    + intros i Hi. by rewrite Hne by lia.
    + intros _. rewrite (slice_splice_other 48 56 40) by lia. by rewrite (slice_splice_same 40) by lia.
Qed.
End Stamp.
