(* ===== verification/BeefFacts.v ===== *)
(** * Facts about the BEEF plane

    What its checks leave alone, and the datagrams of an admission. *)

From S2P Require Import Prelude Common Chains BatchWriter RetryTee Coal Egress EgressFacts RateLimit SubtreeRoot Machine Forwarder Beef Coalesce Dispatch ForwarderFacts Fragmentation.

(** Documented behaviour of objfmt's record functions: the multicast frame
    of a record carries the record, its identity, its first topic and the
    deliver count; the payload of such a frame splits into the record's
    object and topics, of which there are 1 to 15. *)
Class BEEFLaws `{ShardCommon} : Prop := {
  BEEFMulticast_decode rcd d buf r :
    BEEFMulticastRecord rcd d = Some buf → DecodeBEEFRecord rcd = Some (r, Zlen rcd) →
    ∃ t ts, rec_topics r = t :: ts ∧
      DecodeBEEF buf = Some (mkBEEFFrame (ContentID rcd) (TopicID t) (u8 d) rcd);
  Split_record rcd r :
    DecodeBEEFRecord rcd = Some (r, Zlen rcd) →
    SplitBEEFPayload rcd = Some (rec_object r, Some (rec_topics r));
  Record_topics rcd r n : DecodeBEEFRecord rcd = Some (r, n) → 1 ≤ Zlen (rec_topics r) ≤ 15 }.

Section Facts.
Context {SC : ShardCommon} {SL : ShardLaws} {FL : FragLaws} {RT : GoRuntime}.
Implicit Types (fw : Settings) (w : World) (raw : bytes) (src : option NetAddr).

(** ** Frames *)

(** [m] changes neither the egress, the flow counters nor the address cache. *)
Definition leaves_queues {A} (m : M A) : Prop :=
  ∀ w x w', m w = Some (x, w') →
    w_egr w' = w_egr w ∧ w_chains w' = w_chains w ∧ w_groupAddrs w' = w_groupAddrs w.

Lemma lq_ret {A} (x : A) : leaves_queues (mret x).
Proof. by intros w x' w' [= _ <-]. Qed.

Lemma lq_bind {A B} (m : M A) (f : A → M B) :
  leaves_queues m → (∀ x, leaves_queues (f x)) → leaves_queues (m ≫= f).
Proof.
  intros Hm Hf w y w'. unfold mbind, M_bind. destruct (m w) as [[x w1]|] eqn:E; [|done]. intros E'.
  destruct (Hm _ _ _ E) as (E1 & E2 & E3). destruct (Hf x _ _ _ E') as (F1 & F2 & F3).
  by rewrite F1, F2, F3.
Qed.

Lemma lq_gets {A} (f : World → A) : leaves_queues (gets f).
Proof. by intros w x w' [= _ <-]. Qed.

Lemma lq_record fw ev : leaves_queues (record fw ev).
Proof. unfold record. destruct (s_rec fw); [|apply lq_ret]. by intros w x w' [= _ <-]. Qed.

Lemma lq_drop_as fw worker why : leaves_queues (drop_as fw worker why).
Proof. apply lq_bind; [apply lq_gets|intros; apply lq_record]. Qed.

Lemma lq_dropped {A} fw worker why (x : A) : leaves_queues (drop_as fw worker why;; mret x).
Proof. apply lq_bind; [apply lq_drop_as|intros; apply lq_ret]. Qed.

Lemma lq_claim fw st prefix key ft iface worker : leaves_queues (claimIngressIn fw st prefix key ft iface worker).
Proof.
  unfold claimIngressIn. destruct st as [st|]; [|apply lq_ret].
  apply lq_bind; [apply lq_gets|]. intros env. cbv zeta.
  apply lq_bind; [by intros w x w' [= _ <-]|]. intros _.
  destruct (Claim st prefix key env).1.1; [apply lq_ret|].
  apply lq_bind; [apply lq_record|intros; apply lq_ret].
Qed.

Lemma lq_checkBEEF fw raw src worker chk : leaves_queues (checkBEEF fw raw src worker chk).
Proof.
  unfold checkBEEF. destruct (s_beefEngine fw) as [pe|]; [|apply lq_dropped].
  destruct (DecodeBEEF raw) as [bf|]; [|apply lq_dropped].
  destruct (beef_conformance fw bf src) as [[why|topics]|]; [apply lq_dropped| |by intros w x w'].
  destruct (_ && _); [by intros w x w'|]. unfold claim_beef. cbv zeta. apply lq_bind.
  { intros w x w'. unfold charge_beef. destruct (w_beefLimit w); by intros [= _ <-]. }
  intros []; [|apply lq_dropped..]. destruct (_ && _); [apply lq_dropped|].
  apply lq_bind; [apply lq_gets|]. intros iface. apply lq_bind; [|intros []; apply lq_ret].
  unfold claimBEEFIngress. destruct (s_beefDedup fw); apply lq_claim.
Qed.

Lemma lq_meter_beef fw p frame : leaves_queues (meter_beef fw p frame).
Proof. apply lq_bind; [apply lq_record|intros; apply lq_record]. Qed.

(** ** The datagrams of an admission *)

(** The exact size a fragment is given holds it. *)
Lemma encodeBEEF_exact fw bf i k hash seq :
  0 < s_fragDataSize fw → 0 ≤ i → i * s_fragDataSize fw ≤ Zlen (bf_payload bf) →
  encodeBEEFFragment fw (HeaderSizeV3 + Z.min (s_fragDataSize fw) (Zlen (bf_payload bf) - i * s_fragDataSize fw))
    bf i k hash seq =
  encodeBEEFFragment fw (HeaderSizeV3 + s_fragDataSize fw) bf i k hash seq.
Proof.
  intros Hf Hi Hl. unfold encodeBEEFFragment. f_equal. set (a := mkFragArgs _ _ _ _ _ _ _ _ _).
  assert (El : Zlen (fa_data a) = Z.min (s_fragDataSize fw) (Zlen (bf_payload bf) - i * s_fragDataSize fw))
    by (by apply Zlen_frag_data).
  destruct (EncodeFragment_fits (HeaderSizeV3 + s_fragDataSize fw) a) as (d & -> & _ & Hd); [lia|].
  apply Hd. lia.
Qed.

Lemma admission_frags_spec fw a i n ds :
  0 < s_fragDataSize fw → 0 ≤ i →
  (i + Z.of_nat n - 1) * s_fragDataSize fw ≤ Zlen (bf_payload (ad_bf a)) → length ds = n →
  (∀ j d, ds !! j = Some d →
     encodeBEEFFragment fw (HeaderSizeV3 + s_fragDataSize fw) (ad_bf a) (i + Z.of_nat j) (ad_k a)
       (ad_hashKey a) (u64 (ad_firstSeq a + (i + Z.of_nat j))) = Some d) →
  admission_frags fw a (λ _ n, n) i n = inr ds.
Proof.
  intros Hf. revert i ds. induction n as [|n IH]; intros i ds Hi Hl Hlen Hds.
  { by destruct ds. }
  destruct ds as [|d ds]; [done|]. cbn [admission_frags]. cbv zeta. rewrite Z.eqb_refl. cbn [negb].
  rewrite encodeBEEF_exact by (done || nia).
  pose proof (Hds 0%nat d eq_refl) as H0. rewrite Z.add_0_r in H0. rewrite H0.
  rewrite (IH (i + 1) ds); [done|lia|nia|simpl in Hlen; lia|].
  intros j d' Hj. specialize (Hds (S j) d' Hj). replace (i + Z.of_nat (S j)) with (i + 1 + Z.of_nat j) in Hds by lia.
  done.
Qed.

Lemma Some_snd {A B} (a b : A) (x y : B) : Some (a, x) = Some (b, y) → x = y.
Proof. congruence. Qed.

Lemma addrFor_eq fw idx w :
  0 ≤ idx → world_ok fw w →
  ∃ w', addrFor fw idx w = Some (group_addr fw idx, w') ∧ world_ok fw w' ∧
    w_chains w' = w_chains w ∧ w_egr w' = w_egr w ∧ w_env w' = w_env w ∧
    w_beefLimit w' = w_beefLimit w ∧ w_events w' = w_events w.
Proof.
  intros Hi Hw. pose proof (addrFor_spec fw idx w Hi Hw) as Hs. unfold wp in Hs.
  destruct (addrFor fw idx w) as [[a w']|] eqn:E; [|done]. destruct Hs as (Hw' & -> & Hc & He & Hv).
  exists w'. split_and!; try done; revert E; unfold addrFor, mbind, M_bind, gets;
    (destruct (_ <=? idx); [by intros <-%Some_snd|]);
    destruct (w_groupAddrs w !! Z.to_nat idx) as [[]|]; cbn; first [done | by intros <-%Some_snd].
Qed.

(** Enqueueing one datagram is queueing a sequence of one. *)
Lemma enqueue_data_queue fw d g worker e :
  0 ≤ g → egr_ok fw e →
  e_msgs (EnqueueData d (group_addr fw g) g worker e) =
    queue_all (e_targets e) (group_addr fw g) [d] (e_msgs e).
Proof. intros Hg [Hq Hc _ _]. apply (enqueue_spec _ _ _ _ _ _ Hq Hc). by apply dst_ok_data. Qed.
End Facts.
