(* ===== verification/ToyLaws.v ===== *)
(** * The concrete environment meets the laws *)

From S2P Require Import Prelude Common Toy RateLimit Machine Forwarder Beef ForwarderFacts Fragmentation BeefFacts.

Lemma toy_header_len ver raw : toy_header ver raw = true → HeaderSize ≤ Zlen raw.
Proof. unfold toy_header. intros [[Hl _]%andb_true_iff _]%andb_true_iff. lia. Qed.

Lemma toy_topics_nonempty k l ts rest : toy_topics (S k) l = Some (ts, rest) → ts ≠ [].
Proof.
  simpl. destruct l as [|n l]; [done|]. destruct (_ <? n); [done|].
  destruct (toy_topics k _) as [[]|]; [|done]. simpl. by intros [= <- _].
Qed.

Lemma toy_record_topics r d n : toy_DecodeBEEFRecord r = Some (d, n) → rec_topics d ≠ [].
Proof.
  unfold toy_DecodeBEEFRecord. repeat (case_match; try done). 
  all: match goal with |- context [toy_topics ?k ?l] => destruct (toy_topics k l) as [[ts rest]|] eqn:E end; try done.
  all: cbn [mbind option_bind]; case_match; [|done]; intros [= <- _]; simpl.
  all: match type of E with toy_topics (Z.to_nat ?k) _ = _ => destruct (Z.to_nat k) as [|j] eqn:Ek end.
  all: first [by eapply toy_topics_nonempty | lia].
Qed.

#[export] Instance toyLaws : @ShardLaws toy.
Proof.
  split; simpl.
  - intros raw f. unfold toy_Decode. destruct (toy_header FrameVerV2 raw) eqn:E.
    + intros _ _. by eapply toy_header_len.
    + destruct (_ && _ && _); [|done]. destruct (toy_payload 44 raw _); [|done]. by intros [= <-].
  - intros raw f. unfold toy_DecodeBlock. destruct (toy_header _ raw) eqn:E; [|done]. intros _. by eapply toy_header_len.
  - intros raw f. unfold toy_DecodeAnchor. destruct (toy_header _ raw) eqn:E; [|done]. intros _. by eapply toy_header_len.
  - intros raw f. unfold toy_DecodeSubtreeData. destruct (toy_header _ raw) eqn:E; [|done]. intros _. by eapply toy_header_len.
  - intros raw f. unfold toy_DecodeBEEF. destruct (toy_header _ raw) eqn:E; [|done]. intros _. by eapply toy_header_len.
  - done.
  - intros. unfold u16. apply Z.mod_pos_bound. lia.
  - intros e id. pose proof (Z.mod_pos_bound (Z.shiftr (be_get (take 4 id)) (32 - e)) (2 ^ 8)). unfold u8. lia.
  - intros ip g sub. change (0 ≤ be_get (drop 24 (toy_hash (ip ++ be_put 4 g ++ sub))) < 2 ^ 64).
    unfold toy_hash. rewrite drop_app_length'; [|done]. rewrite be_get_put.
    apply Z.mod_pos_bound. lia.
  - intros p o ts. unfold toy_SplitBEEFPayload. case_bool_decide; [|done].
    destruct (toy_DecodeBEEFRecord p) as [[d n]|] eqn:E; [|done]. simpl. intros [= _ <-].
    by eapply toy_record_topics.
Qed.

(** ** Fragments and submission records *)

Lemma length_pad32 l : length (pad32 l) = 32%nat.
Proof. unfold pad32, zeros. rewrite length_take, length_app, length_replicate. lia. Qed.

#[export] Instance toyFragLaws : @FragLaws toy.
Proof.
  split. intros buflen a Hl. simpl. unfold toy_EncodeFragment.
  rewrite (proj2 (Z.ltb_ge _ _)) by done. eexists. split; [done|]. split.
  - unfold Zlen, HeaderSizeV3, zeros. rewrite !length_app, !length_be_put, !length_pad32, length_replicate. simpl. lia.
  - intros buflen' Hl'. by rewrite (proj2 (Z.ltb_ge _ _)).
Qed.

Lemma length_toy_hash l : length (toy_hash l) = 32%nat.
Proof. unfold toy_hash, zeros. by rewrite length_app, length_replicate, length_be_put. Qed.

(** The fields of a frame as the decoders read them back. *)
Lemma toy_DecodeBEEF_frame b7 id sub payload :
  length id = 32%nat → length sub = 32%nat → Zlen payload < 2 ^ 32 →
  toy_DecodeBEEF (toy_frame FrameVerV9 b7 id sub payload) = Some (mkBEEFFrame id sub b7 payload).
Proof.
  intros Hi Hs Hp. unfold toy_DecodeBEEF.
  set (raw := toy_frame _ _ _ _ _).
  assert (Hr : raw = (be_put 4 MagicBSV ++ be_put 2 703 ++ [FrameVerV9; b7] ++ id ++ zeros 16 ++ sub ++
    be_put 4 (Zlen payload)) ++ payload) by (unfold raw, toy_frame; by rewrite <- !app_assoc).
  assert (Hlen : length raw = (92 + length payload)%nat).
  { rewrite Hr. rewrite !length_app, !length_be_put, Hi, Hs. simpl. lia. }
  assert (E88 : be_get (slice 88 92 raw) = Zlen payload).
  { transitivity (be_get (be_put 4 (Zlen payload))).
    - do 32 (destruct id as [|? id]; [discriminate|]). do 32 (destruct sub as [|? sub]; [discriminate|]).
      destruct id; [|discriminate]. destruct sub; [|discriminate]. reflexivity.
    - rewrite be_get_put. apply Z.mod_small. pose proof (Zlen_nonneg payload). simpl. lia. }
  assert (E92 : drop 92 raw = payload).
  { rewrite Hr. apply drop_app_length'. rewrite !length_app, !length_be_put, Hi, Hs. done. }
  assert (Hh : toy_header FrameVerV9 raw = true).
  { unfold toy_header. rewrite !andb_true_iff. split_and!.
    - apply Z.leb_le. unfold HeaderSize, Zlen. lia.
    - do 4 f_equal.
    - reflexivity. }
  rewrite Hh. unfold toy_body, toy_payload. rewrite E88.
  rewrite (proj2 (Z.leb_le _ _)) by (unfold Zlen; lia). cbn [mbind option_bind].
  assert (Ep : slice 92 (92 + Z.to_nat (Zlen payload)) raw = payload).
  { unfold slice. rewrite E92. apply take_ge. unfold Zlen. lia. }
  rewrite Ep. f_equal.
  do 32 (destruct id as [|? id]; [discriminate|]). do 32 (destruct sub as [|? sub]; [discriminate|]).
  destruct id; [|discriminate]. destruct sub; [|discriminate]. reflexivity.
Qed.

Lemma toy_topics_length k l ts rest : toy_topics k l = Some (ts, rest) → length ts = k.
Proof.
  revert l ts rest. induction k as [|k IH]; intros l ts rest; simpl; [by intros [= <- _]|].
  destruct l as [|n l]; [done|]. destruct (_ <? n); [done|].
  destruct (toy_topics k _) as [[ts' rest']|] eqn:E; [|done]. simpl. intros [= <- _]. simpl. f_equal. eauto.
Qed.

Lemma toy_record_inv r d n :
  toy_DecodeBEEFRecord r = Some (d, n) → take 2 r = [0xBE; 0xEF] ∧ 1 ≤ Zlen (rec_topics d) ≤ 15.
Proof.
  unfold toy_DecodeBEEFRecord. repeat (case_match; try done).
  all: match goal with |- context [toy_topics ?k ?l] => destruct (toy_topics k l) as [[ts rest]|] eqn:E end; try done.
  all: cbn [mbind option_bind]; case_match; [|done]; intros [= <- _]; split; [done|]; cbn [rec_topics].
  all: apply toy_topics_length in E; unfold Zlen; lia.
Qed.

#[export] Instance toyBEEFLaws : @BEEFLaws toy.
Proof.
  split; simpl.
  - intros rcd d buf r Hb Hr. unfold toy_BEEFMulticastRecord in Hb. rewrite Hr in Hb. cbn [mbind option_bind] in Hb.
    destruct (rec_topics r) as [|t ts]; [done|]. cbn [head mbind option_bind] in Hb.
    destruct (Z.ltb_spec (Zlen rcd) (2 ^ 32)); [|done]. exists t, ts. split; [done|].
    injection Hb as <-. apply toy_DecodeBEEF_frame; auto using length_toy_hash.
  - intros rcd r Hr. destruct (toy_record_inv _ _ _ Hr) as [E _]. unfold toy_SplitBEEFPayload.
    rewrite bool_decide_eq_true_2 by done. by rewrite Hr.
  - intros rcd r n Hr. apply (toy_record_inv _ _ _ Hr).
Qed.
