(* ===== verification/DispatchProps.v ===== *)
(** * Properties of dispatch

    No datagram makes the pipeline panic or breaks its state; nothing but an
    admitted datagram has any effect; socket classes are enforced. *)

From S2P Require Import Prelude Common Chains BatchWriter RetryTee Coal Egress EgressFacts RateLimit SubtreeRoot Machine Forwarder Beef Coalesce Dispatch ForwarderFacts Toy ToyLaws.

Section Props.
Context `{ShardLaws, GoRuntime}.
Implicit Types (fw : Settings) (worker : Z) (raw : bytes) (w : World) (src : option NetAddr).

(** ** Runs *)

(** The entry points a worker drives the forwarder through. *)
Inductive Op :=
| OpDispatch raw src worker (class : IngressClass)
| OpBareTx (tx : bytes) src worker
| OpControl raw (idx : Z) (label : string) (port : Z)
| OpPrepared (p : option PreparedBEEF) src worker
| OpAdmit (p : option PreparedBEEF) src worker
| OpFlushCoalesced worker.

Definition run_op fw (o : Op) : M () :=
  match o with
  | OpDispatch raw src worker class => DispatchClass fw raw src worker class
  | OpBareTx tx src worker => DispatchBareTx fw tx src worker
  | OpControl raw idx label port => ForwardControl fw raw idx label port
  | OpPrepared p src worker => DispatchBEEF fw p src worker
  | OpAdmit p src worker => AdmitBEEF fw p src worker;; mret ()
  | OpFlushCoalesced worker => FlushCoalesced fw worker
  end.

Fixpoint run_ops fw (os : list Op) : M () :=
  match os with
  | [] => mret ()
  | o :: os => run_op fw o;; run_ops fw os
  end.

Definition op_ok (o : Op) : Prop :=
  match o with
  | OpControl _ _ label _ => label ≠ ""
  | _ => True
  end.

Lemma safe_run_op fw o : op_ok o → safe fw (run_op fw o) (λ _, True).
Proof.
  destruct o; simpl; intros Ho.
  - apply safe_DispatchClass.
  - apply safe_dispatchBareTx.
  - apply safe_queue; [done|]. intros e He. by apply egr_ok_enqueue, dst_ok_label.
  - apply safe_DispatchBEEF.
  - eapply safe_bind; [apply safe_AdmitBEEF|]. intros. by apply safe_ret.
  - apply safe_FlushCoalesced.
Qed.

Lemma safe_run_ops fw os : Forall op_ok os → safe fw (run_ops fw os) (λ _, True).
Proof.
  intros Ho. induction Ho as [|o os Ho _ IH]; [by apply safe_ret|].
  eapply safe_bind; [by apply safe_run_op|]. intros. apply IH.
Qed.

(** A forwarder and an egress built for it, as a worker starts with. *)
Definition worker_egress fw (targets : list string) (batchHint : Z) : Egress :=
  NewEgress (Some (s_fragDataSize fw, s_coalesce fw, s_coalesceMaxMembers fw)) targets batchHint (s_rec fw).

Lemma worker_egress_ok fw targets hint : egr_ok fw (worker_egress fw targets hint).
Proof.
  split.
  - apply NewEgress_ok.
  - apply NewEgress_coh.
  - intros Hf. unfold worker_egress, NewEgress. cbn [e_pool].
    rewrite (proj2 (Z.ltb_lt _ _) Hf). eauto.
  - intros c. unfold worker_egress, NewEgress. cbn [e_coal]. destruct (s_coalesce fw); [|done].
    destruct (1 <? _); [|done]. intros [= <-]. split; [apply newCoalBuffer_ok|constructor].
  - done.
Qed.

Lemma newWorld_ok fw env e clock : egr_ok fw e → world_ok fw (newWorld env (Some e) clock).
Proof.
  intros He. split; cbn [newWorld w_chains w_groupAddrs w_egr]; [apply newStripes_ok| | |done].
  - intros i a Hi. by apply lookup_replicate in Hi as [[=] _].
  - by intros ? [= <-].
Qed.


(** ** Admission *)

(** The gates of the transaction path. *)
Record tx_gates fw (verify : bool) (f : Frame) : Prop := mkTxGates {
  tg_stamped : s_allowStampedIngress fw = true ∨ f_version f ≠ FrameVerV2 ∨ f_seqnum f = 0;
  tg_ef : s_requireEF fw = true → f_version f ≠ FrameVerV1 ∧ IsEF (f_payload f) = true;
  tg_id : verify = true → f_version f = FrameVerV2 →
    TxSize (f_payload f) = Some (Zlen (f_payload f)) ∧ TxID (f_payload f) = Some (f_txid f) }.

Definition block_gate fw (bf : BlockFrame) : Prop :=
  s_requireBlockPoW fw = true → bk_msgtype bf = BlockMsgAnnounce →
  PowHeaderSize ≤ Zlen (bk_payload bf) ∧
  CheckHeader (slice 0 (Z.to_nat PowHeaderSize) (bk_payload bf)) (s_powFloor fw) = true.

Definition subtree_gate fw (sf : SubtreeDataFrame) : Prop :=
  s_verifySubtreeRoot fw = true →
  verifySubtreePayload (s_procs fw) (sd_subtreeid sf) (sd_msgtype sf) (sd_payload sf) = Some (inr tt).

(** The gates of a BEEF frame: the plane is on, the payload is an object or
    a record whose object meets its submitter's bound and marker and whose
    first topic the header names, and a pre-framed identity is the payload's
    own. *)
Record beef_gates fw src (chk : bool) (bf : BEEFFrame) : Prop := mkBeefGates {
  bg_on : s_beefEngine fw ≠ None;
  bg_content : ∃ object topics, SplitBEEFPayload (bf_payload bf) = Some (object, topics) ∧
    IsBEEFObject object = true ∧
    (0 < s_beefMaxObject fw → Zlen object ≤ Z.max (s_beefMaxObject fw) (beefObjectBoundFor fw src)) ∧
    (∀ ts, topics = Some ts → ∃ t, head ts = Some t ∧ bf_topicid bf = TopicID t);
  bg_topic : bf_topicid bf ≠ zeros 32;
  bg_id : chk = true → src ≠ None → bf_contentid bf = ContentID (bf_payload bf) }.

(** Nothing happened: only metrics were recorded and at most the rate
    budgets charged. *)
Definition only_counted w w' : Prop :=
  ∃ evs lim, w' = w <| w_events := evs |> <| w_beefLimit := lim |>.

Lemma only_counted_refl w : only_counted w w.
Proof. exists (w_events w), (w_beefLimit w). by destruct w. Qed.

Lemma only_counted_events w f : only_counted w (w <| w_events ::= f |>).
Proof. exists (f (w_events w)), (w_beefLimit w). by destruct w. Qed.

Lemma only_counted_trans w1 w2 w3 : only_counted w1 w2 → only_counted w2 w3 → only_counted w1 w3.
Proof. intros (e1 & l1 & ->) (e2 & l2 & ->). by exists e2, l2. Qed.

(** [m] is only counted, with a result [R], unless [P]. *)
Definition gated_as {A} (m : M A) (R : A → Prop) (P : Prop) : Prop :=
  ∀ w x w', m w = Some (x, w') → (only_counted w w' ∧ R x) ∨ P.

Abbreviation gated m P := (gated_as m (λ _, True) P).

Lemma gated_admitted {A} (m : M A) R (P : Prop) : P → gated_as m R P.
Proof. intros HP w x w' _. by right. Qed.

Lemma gated_ret {A} (x : A) (R : A → Prop) P : R x → gated_as (mret x) R P.
Proof. intros Hx w x' w' [= <- <-]. left. split; [apply only_counted_refl|done]. Qed.

Lemma gated_bind {A B} (m : M A) (f : A → M B) R S P :
  gated_as m R P → (∀ x, R x → gated_as (f x) S P) → gated_as (m ≫= f) S P.
Proof.
  intros Hm Hf w y w'. unfold mbind, M_bind. destruct (m w) as [[x w1]|] eqn:E; [|done]. intros E'.
  destruct (Hm w x w1 E) as [[H1' Hx]|]; [|by right]. destruct (Hf x Hx w1 y w' E') as [[H2' Hy]|]; [|by right].
  left. split; [by eapply only_counted_trans|done].
Qed.

Lemma gated_gets {A} (f : World → A) P : gated (gets f) P.
Proof. intros w x w' [= _ <-]. left. split; [apply only_counted_refl|done]. Qed.

Lemma gated_need {A} (x : option A) P : gated_as (need x) (λ a, x = Some a) P.
Proof. destruct x as [a|]; [by apply gated_ret|]. by intros w y w'. Qed.

Lemma gated_record fw ev P : gated (record fw ev) P.
Proof.
  unfold record. destruct (s_rec fw); [|by apply gated_ret]. intros w x w' [= _ <-]. left.
  split; [apply (only_counted_events w (λ l, l ++ [ev]))|done].
Qed.

Lemma gated_drop_as fw worker why P : gated (drop_as fw worker why) P.
Proof. eapply gated_bind; [apply gated_gets|]. intros. apply gated_record. Qed.

Lemma gated_drop_decode fw worker P : gated (drop_decode fw worker) P.
Proof.
  eapply gated_bind; [apply gated_gets|]. intros [e|] _; [|by apply gated_ret].
  destruct (e_targets e); [by apply gated_ret|apply gated_record].
Qed.

Lemma gated_charge src n P : gated (charge_beef src n) P.
Proof.
  intros w x w'. unfold charge_beef. destruct (w_beefLimit w) as [l|]; intros [= _ <-]; left; split; try done;
    [|apply only_counted_refl]. exists (w_events w), (Some (allow src n (w_clock w) l).2). by destruct w.
Qed.

Lemma gated_weaken {A} (m : M A) R (P Q : Prop) : gated_as m R P → (P → Q) → gated_as m R Q.
Proof. intros Hm HPQ w x w' E. destruct (Hm w x w' E); auto. Qed.

Lemma gated_dropped {A} fw worker why P :
  gated_as (drop_as fw worker why;; mret (@None A)) (λ r, r = None) P.
Proof. eapply gated_bind; [apply gated_drop_as|]. intros. by apply gated_ret. Qed.

(** ** The gates of each path *)

Lemma gated_process fw raw src worker verify :
  gated (process fw raw src worker verify) (∃ f, Decode raw = Some f ∧ tx_gates fw verify f).
Proof.
  unfold process. destruct (Decode raw) as [f|]; [|apply gated_drop_decode]. cbv zeta.
  destruct (negb (s_allowStampedIngress fw) && _ && _) eqn:E1; [apply gated_drop_as|].
  destruct (s_requireEF fw && _) eqn:E2; [apply gated_drop_as|].
  destruct (verify && _ && payload_not_one_tx f) eqn:E3; [apply gated_drop_as|].
  destruct (verify && _ && payload_hash_mismatch f) eqn:E4; [apply gated_drop_as|].
  apply gated_admitted. exists f. split; [done|]. split.
  - destruct (s_allowStampedIngress fw); [by left|right]. simpl in E1.
    destruct (Z.eqb_spec (f_version f) FrameVerV2); [right|by left].
    destruct (Z.eqb_spec (f_seqnum f) 0); done.
  - intros Hef. rewrite Hef in E2. simpl in E2. apply orb_false_iff in E2 as [Hv Hi].
    apply Z.eqb_neq in Hv. by apply negb_false_iff in Hi.
  - intros -> Hv. rewrite Hv in *. cbn [andb] in *. unfold payload_not_one_tx, payload_hash_mismatch in *.
    destruct (TxSize _) as [sz|]; [|done]. destruct (TxID _) as [id|]; [|done].
    apply negb_false_iff in E3, E4. apply Z.eqb_eq in E3 as ->. by apply bytes_eqb_eq in E4 as ->.
Qed.

Lemma gated_ProcessBlock fw raw src worker :
  gated (ProcessBlock fw raw src worker) (∃ bf, DecodeBlock raw = Some bf ∧ block_gate fw bf).
Proof.
  unfold ProcessBlock. destruct (DecodeBlock raw) as [bf|]; [|apply gated_drop_decode].
  rewrite pow_refused_some, need_some. destruct (s_requireBlockPoW fw && _ && _) eqn:E; [apply gated_record|].
  apply gated_admitted. exists bf. split; [done|]. intros Hr Hm. rewrite Hr, Hm, Z.eqb_refl in E. cbn [andb] in E.
  apply negb_false_iff, andb_true_iff in E as [El Ec]. by apply Z.leb_le in El.
Qed.

Lemma gated_ProcessSubtreeData fw raw src worker :
  gated (ProcessSubtreeData fw raw src worker)
    (∃ sf, DecodeSubtreeData raw = Some sf ∧ subtree_gate fw sf).
Proof.
  unfold ProcessSubtreeData. destruct (DecodeSubtreeData raw) as [sf|]; [|apply gated_drop_decode].
  unfold subtree_root_gate. destruct (s_verifySubtreeRoot fw) eqn:Ev.
  2: { apply gated_admitted. exists sf. split; [done|]. intros Hv. congruence. }
  unfold subtree_gate. destruct (verifySubtreePayload _ _ _ _) as [[[]|[]]|] eqn:E; cbn [need].
  3: { apply gated_admitted. exists sf. split; [done|]. by intros _. }
  3: by intros w x w'.
  all: intros w x w'; unfold mbind, M_bind, mret, M_ret, record.
  all: destruct (s_rec fw); intros [= _ <-]; left; split; try done.
  all: first [apply only_counted_refl | apply (only_counted_events w (λ l, l ++ [EvSubtreeRootCheck _]))].
Qed.

Lemma gated_ProcessAnchor fw raw src worker :
  gated (ProcessAnchor fw raw src worker) (∃ f, DecodeAnchor raw = Some f).
Proof.
  unfold ProcessAnchor. destruct (DecodeAnchor raw) as [f|]; [|apply gated_drop_decode].
  apply gated_admitted. eauto.
Qed.

(** A bundle holds its header and the payload the header declares. *)
Definition bundle_gate raw : Prop :=
  BundleHeaderSize ≤ Zlen raw ∧ u32 (be_get (slice 0 4 raw)) = MagicBSV ∧
  BundleHeaderSize + u32 (be_get (slice 62 66 raw)) ≤ Zlen raw.

Lemma gated_ProcessBundle fw raw worker : gated (ProcessBundle fw raw worker) (bundle_gate raw).
Proof.
  unfold ProcessBundle. destruct (Z.ltb_spec (Zlen raw) BundleHeaderSize) as [|Hl]; [apply gated_drop_as|].
  unfold BundleHeaderSize in Hl. rewrite (u32_at_in 0), (u32_at_in 62), !need_some by lia.
  destruct (Z.eqb_spec (u32 (be_get (slice 0 (0 + 4) raw))) MagicBSV) as [Em|]; cbn [negb]; [|apply gated_drop_as].
  change (mret ?x ≫= ?f) with (f x). cbv beta.
  destruct (Z.ltb_spec (Zlen raw) (BundleHeaderSize + u32 (be_get (slice 62 (62 + 4) raw)))) as [|Hs]; [apply gated_drop_as|].
  by apply gated_admitted.
Qed.

Lemma beef_conformance_gates fw bf src topics :
  s_beefEngine fw ≠ None → beef_conformance fw bf src = Some (inr topics) → beef_gates fw src false bf.
Proof.
  intros Hon Hc. unfold beef_conformance in Hc.
  destruct (SplitBEEFPayload (bf_payload bf)) as [[object ts]|] eqn:Es; [|done].
  destruct (beef_oversize fw src object) eqn:Eo; [done|].
  destruct (bytes_eqb (bf_topicid bf) (zeros 32)) eqn:Et; [done|].
  assert (Hm : IsBEEFObject object = true ∧ (∀ l, ts = Some l → ∃ t, head l = Some t ∧ bf_topicid bf = TopicID t)).
  { destruct (IsBEEFObject object); destruct ts as [[|t l]|]; try done; cbv zeta in Hc; try (by split).
    - destruct (bytes_eqb (bf_topicid bf) (TopicID t)) eqn:E; [|done]. apply bytes_eqb_eq in E. split; [done|]. intros ? [= <-]. eauto.
    - by destruct (bytes_eqb (bf_topicid bf) (TopicID t)). }
  split; [done| |by apply bytes_eqb_neq in Et|done]. exists object, ts. destruct Hm as [Hm Ht].
  split_and!; try done. intros Hp. unfold beef_oversize in Eo. lia.
Qed.

Lemma gated_checkBEEF fw raw src worker chk :
  gated_as (checkBEEF fw raw src worker chk) (λ r, r = None)
    (∃ bf, DecodeBEEF raw = Some bf ∧ beef_gates fw src chk bf).
Proof.
  unfold checkBEEF. destruct (s_beefEngine fw) as [pe|] eqn:Ee; [|apply gated_dropped].
  destruct (DecodeBEEF raw) as [bf|]; [|apply gated_dropped].
  destruct (beef_conformance fw bf src) as [[why|topics]|] eqn:Ec; [apply gated_dropped| |done].
  destruct (_ && _); [done|]. destruct (beef_conformance_gates fw bf src topics) as [_ Hc Ht _]; [congruence|done|].
  unfold claim_beef. cbv zeta. eapply gated_bind; [apply gated_charge|].
  intros [] _; [|apply gated_dropped..].
  destruct (chk && _ && _) eqn:Ei; [apply gated_dropped|].
  apply gated_admitted. exists bf. split; [done|]. split; [congruence|done|done|].
  intros -> Hs. destruct src as [a|]; [|done]. simpl in Ei. apply negb_false_iff in Ei. by apply bytes_eqb_eq in Ei.
Qed.

Lemma gated_processBEEF fw raw src worker chk :
  gated (processBEEF fw raw src worker chk) (∃ bf, DecodeBEEF raw = Some bf ∧ beef_gates fw src chk bf).
Proof.
  eapply gated_bind; [apply gated_checkBEEF|]. intros r ->. by apply gated_ret.
Qed.

Lemma gated_DispatchBEEF fw rcd src worker :
  gated (SubmitBEEF fw rcd src worker)
    (∃ frame bf, pb_frame (PrepareBEEF fw rcd src) = Some frame ∧
       DecodeBEEF frame = Some bf ∧ beef_gates fw src false bf).
Proof.
  unfold SubmitBEEF, DispatchBEEF. destruct (pb_frame _) as [frame|]; [|apply gated_record].
  eapply gated_bind; [|intros _ _; eapply gated_bind; [|intros; apply gated_record]].
  - eapply gated_bind; [apply gated_record|]. intros. apply gated_record.
  - eapply gated_weaken; [apply gated_processBEEF|]. naive_solver.
Qed.

(** A bare transaction is exactly one transaction, in Extended Format where
    that is required, and its frame passes the gates of the transaction
    path. *)
Definition bare_gates fw (tx : bytes) : Prop :=
  TxSize tx = Some (Zlen tx) ∧ (s_requireEF fw = true → IsEF tx = true) ∧
  ∃ framed f, MulticastBytes ClassTx tx = Some framed ∧ Decode framed = Some f ∧ tx_gates fw false f.

Lemma gated_bareTx fw tx src worker : gated (dispatchBareTx fw tx src worker) (bare_gates fw tx).
Proof.
  unfold dispatchBareTx, bare_gates. cbv zeta. destruct (TxSize tx) as [sz|]; [|apply gated_drop_as].
  destruct (negb (sz =? Zlen tx)) eqn:Es; [apply gated_drop_as|].
  apply negb_false_iff, Z.eqb_eq in Es as ->. destruct (s_requireEF fw && _) eqn:Ef; [apply gated_drop_as|].
  destruct (MulticastBytes ClassTx tx) as [fr|]; [|apply gated_drop_as].
  eapply gated_bind; [apply gated_record|]. intros _ _. eapply gated_weaken; [apply gated_process|].
  intros (f & Hd & Hg). split; [done|]. split; [|by exists fr, f].
  intros E. rewrite E in Ef. by apply negb_false_iff in Ef.
Qed.

(** ** Paths *)

(** The path a datagram takes, by its leading bytes and version byte. *)
Inductive Path := PRecord | PBareTx | PBlock | PSubtree | PAnchor | PBEEF | PBundle | PTx.

Definition path_of raw : Path :=
  if framed raw then
    match raw !! 6%nat with
    | Some 4 => PBlock | Some 5 => PSubtree | Some 6 => PAnchor | Some 8 => PBundle | Some 9 => PBEEF
    | _ => PTx
    end
  else if tagged raw then PRecord else PBareTx.

(** What admits a datagram on a socket of a class: the class permits its
    path, and it passes the gates of that path. *)
Definition admitted fw (class : IngressClass) src raw : Prop :=
  match path_of raw with
  | PRecord => ∃ frame bf, pb_frame (PrepareBEEF fw raw src) = Some frame ∧ DecodeBEEF frame = Some bf ∧
                 beef_gates fw src false bf
  | PBareTx => class ≠ IngressBEEF ∧ bare_gates fw raw
  | PBlock => class = IngressPrivileged ∧ ∃ bf, DecodeBlock raw = Some bf ∧ block_gate fw bf
  | PSubtree => class = IngressPrivileged ∧ ∃ sf, DecodeSubtreeData raw = Some sf ∧ subtree_gate fw sf
  | PAnchor => class ≠ IngressBEEF ∧ ∃ f, DecodeAnchor raw = Some f
  | PBEEF => ∃ bf, DecodeBEEF raw = Some bf ∧ beef_gates fw src true bf
  | PBundle => class ≠ IngressBEEF ∧ bundle_gate raw
  | PTx => class ≠ IngressBEEF ∧ ∃ f, Decode raw = Some f ∧ tx_gates fw (s_verifyPayloadHash fw) f
  end.

(** A version byte that is none of the routed ones. *)
Lemma path_of_tx raw :
  framed raw = true → has_byte 6 4 raw = false → has_byte 6 5 raw = false → has_byte 6 6 raw = false →
  has_byte 6 8 raw = false → has_byte 6 9 raw = false → path_of raw = PTx.
Proof.
  unfold path_of, has_byte. intros ->. rewrite !bool_decide_eq_false. intros.
  destruct (raw !! 6%nat) as [v|]; [|done]. by repeat case_match.
Qed.

Lemma gated_reject fw raw worker P : gated (rejectPrivileged fw raw worker) P.
Proof. eapply gated_bind; [apply gated_need|]. intros. apply gated_record. Qed.

(** One version's branch of dispatch: refused by the class, or metered and
    processed. *)
Lemma gated_metered {A} fw ev (m : M A) P : gated m P → gated (record fw ev;; m) P.
Proof. intros Hm. eapply gated_bind; [apply gated_record|]. by intros. Qed.

Lemma gated_DispatchClass fw raw src worker class :
  gated (DispatchClass fw raw src worker class) (admitted fw class src raw).
Proof.
  unfold DispatchClass. cbv zeta. rewrite not_framed_some, record_tagged_some, !byte_is_some, !need_some.
  unfold FrameVerV4, FrameVerV5, FrameVerV6, FrameVerV8, FrameVerV9.
  destruct (framed raw) eqn:Ef; cbn [negb].
  2: { unfold admitted, path_of. rewrite Ef. destruct (tagged raw); [apply gated_DispatchBEEF|].
       case_bool_decide; [apply gated_drop_as|]. eapply gated_weaken; [apply gated_bareTx|]. by split. }
  destruct (has_byte 6 4 raw) eqn:E4.
  { case_bool_decide; cbn [negb]; [|apply gated_reject]. apply gated_metered.
    eapply gated_weaken; [apply gated_ProcessBlock|]. unfold admitted, path_of. rewrite Ef.
    apply bool_decide_eq_true in E4. by rewrite E4. }
  destruct (has_byte 6 5 raw) eqn:E5.
  { case_bool_decide; cbn [negb]; [|apply gated_reject]. apply gated_metered.
    eapply gated_weaken; [apply gated_ProcessSubtreeData|]. unfold admitted, path_of. rewrite Ef.
    apply bool_decide_eq_true in E5. by rewrite E5. }
  destruct (has_byte 6 6 raw) eqn:E6.
  { case_bool_decide; [apply gated_drop_as|]. apply gated_metered.
    eapply gated_weaken; [apply gated_ProcessAnchor|]. unfold admitted, path_of. rewrite Ef.
    apply bool_decide_eq_true in E6. by rewrite E6. }
  destruct (has_byte 6 9 raw) eqn:E9.
  { apply gated_metered. eapply gated_weaken; [apply gated_processBEEF|]. unfold admitted, path_of. rewrite Ef.
    apply bool_decide_eq_true in E9. by rewrite E9. }
  destruct (has_byte 6 8 raw) eqn:E8.
  { case_bool_decide; [apply gated_drop_as|]. apply gated_metered.
    eapply gated_weaken; [apply gated_ProcessBundle|]. unfold admitted, path_of. rewrite Ef.
    apply bool_decide_eq_true in E8. by rewrite E8. }
  case_bool_decide; [apply gated_drop_as|]. apply gated_metered.
  eapply gated_weaken; [apply gated_process|]. unfold admitted. by rewrite path_of_tx.
Qed.

End Props.

(** ** Witnesses *)

#[local] Existing Instance exactRuntime.

(** A proxy of two shard bits that verifies payload hashes, deduplicates on
    store 0, fragments at 300 bytes and carries BEEF. *)
Definition toy_fw : Settings :=
  SetBEEF (Some 2) 1000 (SetFragMTU 300 (SetVerifyPayloadHash true (SetTxidDedup (Some 0%nat) "bsp:tx:"
    (New (H := toy) 2 0xFF05 0x000B 9001 false true 4)))).

Definition toy_world : World :=
  newWorld (H := toy) ∅ (Some (worker_egress toy_fw ["eth0"; "eth1"] 8)) 100.

Definition toy_source : option NetAddr := Some (NetUDP (mkUDPAddr (0xfd :: zeros 15) 7 "")).

Definition toy_tx : bytes := [4; 0xEF; 9; 9].

(** An honest frame and one that names another transaction. *)
Definition toy_good : bytes := toy_frame FrameVerV2 0 (toy_hash toy_tx) (zeros 32) toy_tx.
Definition toy_forged : bytes := toy_frame FrameVerV2 0 (toy_hash [1]) (zeros 32) toy_tx.

Definition dispatched (raw : bytes) (class : IngressClass) : World :=
  default toy_world (snd <$> DispatchClass toy_fw raw toy_source 0 class toy_world).

Lemma toy_good_bytes : Forall is_byte toy_good.
Proof.
  let v := eval vm_compute in toy_good in change toy_good with v.
  repeat (constructor; [unfold is_byte; lia|]). constructor.
Qed.


Lemma toy_world_ok : world_ok toy_fw toy_world.
Proof. apply newWorld_ok, worker_egress_ok. Qed.

Lemma dispatched_eq raw class :
  DispatchClass toy_fw raw toy_source 0 class toy_world = Some ((), dispatched raw class).
Proof.
  pose proof (safe_DispatchClass toy_fw raw toy_source 0 class _ toy_world_ok) as Hs.
  unfold wp in Hs. unfold dispatched. by destruct (DispatchClass _ _ _ _ _ _) as [[[] w']|].
Qed.

(** A frame that names another transaction is not admitted. *)
Lemma toy_forged_refused : ¬ admitted toy_fw IngressTransaction toy_source toy_forged.
Proof.
  unfold admitted. replace (path_of toy_forged) with PTx by (vm_compute; reflexivity).
  intros (_ & f & Hd & [_ _ Hid]). vm_compute in Hd. injection Hd as <-.
  destruct (Hid eq_refl eq_refl) as [_ Ht]. vm_compute in Ht. discriminate Ht.
Qed.

