(* ===== verification/FragmentationProps.v ===== *)
(** * Properties of stamping and fragmentation *)

From S2P Require Import Prelude Common Chains BatchWriter RetryTee Coal Egress EgressFacts RateLimit SubtreeRoot Machine Forwarder Beef Coalesce Dispatch ForwarderFacts Fragmentation Toy ToyLaws DispatchProps BeefFacts.

Section Props.
Context {SC : ShardCommon} {SL : ShardLaws} {FL : FragLaws} {RT : GoRuntime}.
Implicit Types (fw : Settings) (w : World) (raw : bytes).

(** ** Stamping *)

(** C18: stamping writes only the HashKey and SeqNum fields.  An unstamped
    frame gets the flow's HashKey and the flow's next number, which advances
    that counter alone; a frame that carries a SeqNum keeps it and consumes
    no number, and its HashKey is replaced when it is zero or the proxy owns
    source identity, kept otherwise. *)
Theorem stampInPlace_spec fw raw ip g sub w :
  HeaderSize ≤ Zlen raw → stripes_ok (w_chains w) →
  let seq r := be_get (slice 48 56 r) in
  let hash r := be_get (slice 40 48 r) in
  let key := mkChainKey ip g sub in
  wp (stampInPlace fw raw ip g sub) w (λ raw' w',
    length raw' = length raw ∧
    (∀ i, (i < 40 ∨ 56 ≤ i)%nat → raw' !! i = raw !! i) ∧
    (seq raw = 0 →
       seq raw' = u64 (counter_of (w_chains w) key + 1) ∧ hash raw' = seqhash_Hash ip g sub ∧
       counter_of (w_chains w') key = seq raw' ∧
       ∀ k, k ≠ key → counter_of (w_chains w') k = counter_of (w_chains w) k) ∧
    (seq raw ≠ 0 →
       w' = w ∧ seq raw' = seq raw ∧
       hash raw' = if (hash raw =? 0) || s_stampSource fw then seqhash_Hash ip g sub else hash raw)).
Proof. apply stamp_fields. Qed.

(** ** Fragments of a transaction *)

(** The arguments piece [j] of [k] is encoded with. *)
Definition tx_frag_args fw (f : Frame) (hash first k j : Z) : FragArgs :=
  mkFragArgs (f_txid f) (f_subtree f) hash (u64 (first + j)) (u32 (Zlen (f_payload f))) j k 0
    (frag_data (f_payload f) (s_fragDataSize fw) j).

(** C13: fragmentation loses nothing.  A payload over the fragment size is
    queued on every interface, to its group, as consecutive fragments that
    carry consecutive sequence numbers of the flow, indices 0..k-1 of the
    same total k and pieces whose concatenation is the payload; every
    fragment datagram, headers included, fits the path MTU; no number beyond
    the k is consumed and the dedup stores are untouched. *)
Theorem fragment_covers_payload fw f ip g worker w e :
  world_ok fw w → w_egr w = Some e → needs_frag fw (f_payload f) = true → 0 ≤ g →
  let k := frag_count (f_payload f) (s_fragDataSize fw) in
  let key := mkChainKey ip g (f_subtree f) in
  let c := counter_of (w_chains w) key in
  k ≤ 65535 →
  wp (fragment fw f ip g worker) w (λ _ w', ∃ e' ds,
    w_egr w' = Some e' ∧ e_msgs e' = queue_all (e_targets e) (group_addr fw g) ds (e_msgs e) ∧
    Zlen ds = k ∧
    (∀ j d, ds !! j = Some d →
       EncodeFragment (HeaderSizeV3 + s_fragDataSize fw)
         (tx_frag_args fw f (seqhash_Hash ip g (f_subtree f)) (c + 1) k (Z.of_nat j)) = Some d ∧
       Zlen d + ipv6UDPHeaderSize ≤ s_fragDataSize fw + ipv6UDPOverhead) ∧
    concat (frag_data (f_payload f) (s_fragDataSize fw) <$> (Z.of_nat <$> seq 0 (length ds))) = f_payload f ∧
    counter_of (w_chains w') key = u64 (c + k) ∧ w_env w' = w_env w).
Proof.
  intros Hw He Hn Hg. cbv zeta. intros Hk. pose proof (needs_frag_pos _ _ Hn) as Hf.
  assert (Hpos : 0 < Zlen (f_payload f)) by (unfold needs_frag in Hn; lia).
  destruct (frag_count_bounds (f_payload f) (s_fragDataSize fw) Hf Hpos) as (Hk1 & _ & _).
  set (k := frag_count _ _) in *. set (c := counter_of _ _).
  unfold fragment, frag_total. fold k. cbv zeta. apply wp_bind. rewrite (proj2 (Z.eqb_neq _ 0)) by lia.
  rewrite (proj2 (Z.ltb_ge 65535 k)) by lia. apply wp_ret, wp_bind, wp_record. set (w1 := if s_rec fw then _ else w).
  assert (Hw1 : world_ok fw w1 ∧ w_chains w1 = w_chains w ∧ w_egr w1 = w_egr w ∧ w_env w1 = w_env w).
  { unfold w1. destruct (s_rec fw); [|done]. destruct Hw. split; [by split|done]. }
  destruct Hw1 as (Hw1 & Ec1 & Ee1 & Ev1). apply wp_bind.
  eapply wp_mono; [apply (addrFor_spec fw g w1 Hg Hw1)|]. intros dst w2 (Hw2 & -> & Ec2 & Ee2 & Ev2).
  eapply wp_mono.
  - eapply (frag_loop_spec fw _ _ (group_addr fw g) (λ d, mkMeta g (Zlen d) worker "" true) ip g (f_subtree f) (Z.to_nat k) 0 w2 e);
      [done|congruence|done|apply data_frag_fits; try done; lia|intros; by apply dst_ok_data|].
    intros j Hj. destruct (EncodeFragment_fits (HeaderSizeV3 + s_fragDataSize fw)
      (mkFragArgs (f_txid f) (f_subtree f) (seqhash_Hash ip g (f_subtree f))
        (u64 (counter_of (w_chains w2) (mkChainKey ip g (f_subtree f)) + 1 + Z.of_nat j))
        (u32 (Zlen (f_payload f))) (u16 (0 + Z.of_nat j)) (u16 k) 0
        (frag_data (f_payload f) (s_fragDataSize fw) (0 + Z.of_nat j)))) as (d & Hd & _).
    + simpl. pose proof (frag_data_le (f_payload f) (s_fragDataSize fw) (0 + Z.of_nat j) Hf ltac:(lia)). lia.
    + by exists d.
  - intros [] w' [Hw' Hrest Hcnt (e' & ds & E1 & E2 & E3 & E4 & E5)]. exists e', ds.
    rewrite Ec2, Ec1 in *. destruct Hrest as (Hre & _). split_and!; try done.
    + unfold Zlen. lia.
    + intros j d Hj. specialize (E3 j d Hj). apply lookup_lt_Some in Hj. rewrite Z.add_0_l in E3.
      rewrite (u16_small (Z.of_nat j)), (u16_small k) in E3 by lia. split; [done|].
      eapply frag_datagram_fits; [exact E3|apply frag_data_le; lia|done].
    + rewrite E2. by apply frag_data_all.
    + rewrite Hcnt, decide_True by done. f_equal. lia.
    + congruence.
Qed.
End Props.

(** ** Witnesses *)

#[local] Existing Instance exactRuntime.

Definition toy_ip : bytes := 0xfd :: zeros 15.

Lemma stampInPlace_spec_witness :
  wp (stampInPlace toy_fw toy_good toy_ip 0 (zeros 32)) toy_world
    (λ raw' w', be_get (slice 48 56 raw') = 1 ∧ counter_of (w_chains w') (mkChainKey toy_ip 0 (zeros 32)) = 1).
Proof.
  eapply wp_mono; [apply (stampInPlace_spec toy_fw toy_good toy_ip 0 (zeros 32) toy_world)|].
  - vm_compute. discriminate.
  - apply newStripes_ok.
  - intros raw' w' (_ & _ & Hz & _). destruct (Hz eq_refl) as (-> & _ & -> & _).
    change (w_chains toy_world) with newStripes. rewrite newStripes_counter. split; reflexivity.
Defined.

Definition toy_big : Frame := mkFrame FrameVerV2 (toy_hash [1]) 0 (zeros 32) (replicate 300 7).

Lemma fragment_covers_payload_witness :
  wp (fragment toy_fw toy_big toy_ip 0 0) toy_world
    (λ _ w', counter_of (w_chains w') (mkChainKey toy_ip 0 (zeros 32)) = 3).
Proof.
  eapply wp_mono; [apply (fragment_covers_payload toy_fw toy_big toy_ip 0 0 toy_world
    (worker_egress toy_fw ["eth0"; "eth1"] 8))|].
  - apply toy_world_ok.
  - reflexivity.
  - reflexivity.
  - lia.
  - vm_compute. discriminate.
  - intros _ w' (e' & ds & _ & _ & _ & _ & _ & Hc & _). refine (eq_trans Hc _).
    change (w_chains toy_world) with newStripes. rewrite newStripes_counter. reflexivity.
Defined.
