(* ===== verification/BeefProps.v ===== *)
(** * Properties of the BEEF plane *)

From S2P Require Import Prelude Common Chains BatchWriter RetryTee Coal Egress EgressFacts RateLimit SubtreeRoot Machine Forwarder Beef Coalesce Dispatch ForwarderFacts Fragmentation BeefFacts Toy ToyLaws DispatchProps.

Section Props.
Context {SC : ShardCommon} {SL : ShardLaws} {FL : FragLaws} {RT : GoRuntime}.
Implicit Types (fw : Settings) (w : World) (raw : bytes) (src : option NetAddr).

(** ** Admission and dispatch *)

(** The state after the two halves of the split path, [w3], against the
    state after the in-line path, [w1]: the same counters, stores and
    budgets, the same metrics in some order. *)
Record same_outcome w1 w3 : Prop := mkSame {
  so_counters : ∀ k, counter_of (w_chains w3) k = counter_of (w_chains w1) k;
  so_env : w_env w3 = w_env w1;
  so_limit : w_beefLimit w3 = w_beefLimit w1;
  so_events : w_events w3 ≡ₚ w_events w1 }.

(** The in-line tail of [processBEEF] after its checks, and the two calls of
    the split path after theirs. *)
Definition inline_tail fw bf g raw src worker : M () :=
  match src with
  | Some a =>
      let ip := addrToIPv6 a in
      if needs_frag fw (bf_payload bf) then fragmentBEEF fw bf ip g worker
      else raw ← stampInPlace fw raw ip g beefZeroIngredient; emit_beef fw raw g worker
  | None => emit_beef fw raw g worker
  end.

Lemma processBEEF_tail fw frame src worker chk :
  processBEEF fw frame src worker chk =
  (r ← checkBEEF fw frame src worker chk;
   match r with Some (bf, g, raw) => inline_tail fw bf g raw src worker | None => mret () end).
Proof. reflexivity. Qed.

(** The event of a fragmentation, recorded by [FragmentBEEFInto]. *)
Definition frag_events fw (a : option BEEFAdmission) : list Event :=
  match a with
  | Some a => if s_rec fw && negb (ad_k a =? 0) then [EvFrameFragmented (ad_workerID a) (ad_k a)] else []
  | None => []
  end.

(** The datagrams an admission is fragmented into. *)
Definition admission_datagrams fw (a : BEEFAdmission) : FragErr + list bytes :=
  if ad_k a =? 0 then inr [ad_raw a] else admission_frags fw a (λ _ n, n) 0 (Z.to_nat (ad_k a)).

Lemma FragmentBEEFInto_eq fw a w :
  FragmentBEEFInto fw a (λ _ n, n) w =
  Some (match a with Some a => admission_datagrams fw a | None => inl errNilAdmission end,
        add_events (frag_events fw a) w).
Proof.
  assert (E0 : add_events [] w = w) by (unfold add_events; destruct w; simpl; by rewrite app_nil_r).
  destruct a as [a|]; simpl; [|by rewrite E0]. unfold admission_datagrams.
  destruct (ad_k a =? 0); [by rewrite andb_false_r, Z.eqb_refl, E0|]. rewrite andb_true_r.
  unfold record, mbind, M_bind, modify. by destruct (s_rec fw); [|rewrite E0].
Qed.

(** The in-line path having gone from [w] to [w1] and the admission from [w]
    to [w2]: the same counters, stores and budgets, the fragmentation event
    still to be recorded, and the datagrams queued on the way to [w1]. *)
Record tails_match fw (e : Egress) (a : option BEEFAdmission) w w1 w2 : Prop := mkTails {
  tm_counters : ∀ k, counter_of (w_chains w2) k = counter_of (w_chains w1) k;
  tm_env : w_env w2 = w_env w1;
  tm_limit : w_beefLimit w2 = w_beefLimit w1;
  tm_events : w_events w1 = w_events w2 ++ frag_events fw a;
  tm_queue : match a with
    | None => w_egr w1 = w_egr w
    | Some a => ∃ ds e1, admission_datagrams fw a = inr ds ∧ Zlen ds = Datagrams a ∧ w_egr w1 = Some e1 ∧
        e_msgs e1 = queue_all (e_targets e) (ad_dst a) ds (e_msgs e)
    end }.

Lemma emit_beef_eq fw raw g worker w e :
  world_ok fw w → w_egr w = Some e → 0 ≤ g →
  ∃ wa, addrFor fw g w = Some (group_addr fw g, wa) ∧
    w_chains wa = w_chains w ∧ w_egr wa = Some e ∧ w_env wa = w_env w ∧
    w_beefLimit wa = w_beefLimit w ∧ w_events wa = w_events w ∧
    emit_beef fw raw g worker w =
      Some ((), wa <| w_egr := Some (EnqueueData raw (group_addr fw g) g worker e) |>).
Proof.
  intros Hw He Hg. destruct (addrFor_eq fw g w Hg Hw) as (wa & Ea & _ & Hc & He' & Hv & Hl & Hev).
  exists wa. rewrite He in He'. split_and!; try done.
  unfold emit_beef, mbind, M_bind, gets. rewrite He, Ea. unfold queue, on_egress. rewrite He'.
  rewrite enqueue_fits_ok; [done| |done]. apply (wo_egr fw w Hw e He).
Qed.

(** A frame that goes out whole. *)
Lemma whole_matches fw bf g raw ip hash seq worker w e :
  world_ok fw w → w_egr w = Some e → 0 ≤ g →
  ∃ wa w1, addrFor fw g w = Some (group_addr fw g, wa) ∧ emit_beef fw raw g worker w = Some ((), w1) ∧
    tails_match fw e (Some (mkAdmission raw bf ip g (group_addr fw g) hash seq 0 worker)) w w1 wa.
Proof.
  intros Hw He Hg. destruct (emit_beef_eq fw raw g worker w e Hw He Hg) as (wa & Ea & Hc & He' & Hv & Hl & Hev & Eb).
  eexists wa, _. split; [done|]. split; [exact Eb|]. split; try done.
  - simpl. by rewrite andb_false_r, app_nil_r.
  - exists [raw], (EnqueueData raw (group_addr fw g) g worker e). split_and!; try done.
    apply enqueue_data_queue; [done|]. by apply (wo_egr fw w Hw).
Qed.

(** A frame cut into fragments. *)
Lemma frags_match fw bf g ip worker w e k :
  world_ok fw w → w_egr w = Some e → 0 ≤ g → needs_frag fw (bf_payload bf) = true →
  k = frag_count (bf_payload bf) (s_fragDataSize fw) → k ≤ 65535 →
  let wr := if s_rec fw then add_events [EvFrameFragmented worker k] w else w in
  ∃ wa w1, addrFor fw g w = Some (group_addr fw g, wa) ∧
    (dst ← addrFor fw g;
     frag_loop
       (mkFragChecks (frag_in_range (bf_payload bf) (s_fragDataSize fw)) (λ buflen, 7 <? buflen) (enqueue_fits "" g))
       (λ buflen i hashKey seqNum, encodeBEEFFragment fw buflen bf i k hashKey seqNum)
       (λ d b, EnqueueDataPooled d dst g worker b) ip g beefZeroIngredient 0 (Z.to_nat k)) wr = Some ((), w1) ∧
    ∀ raw, let s := reserveSeq (w_chains wa) ip g beefZeroIngredient k in
    tails_match fw e (Some (mkAdmission raw bf ip g (group_addr fw g) s.1.1 s.1.2 k worker)) w w1
      (wa <| w_chains := s.2 |>).
Proof.
  intros Hw He Hg Hn Ek Hk. cbv zeta. set (wr := if s_rec fw then _ else w).
  assert (Hwr : world_ok fw wr) by (by apply world_ok_add).
  assert (Hsame : w_chains wr = w_chains w ∧ w_egr wr = w_egr w ∧ w_env wr = w_env w ∧ w_beefLimit wr = w_beefLimit w)
    by (unfold wr; by destruct (s_rec fw)).
  destruct Hsame as (Ec & Ee & Ev & El).
  destruct (addrFor_eq fw g w Hg Hw) as (wa & Ea & _ & Ac & Ae & Av & Al & Aev).
  destruct (addrFor_eq fw g wr Hg Hwr) as (wb & Eb & Hwb & Bc & Be & Bv & Bl & Bev).
  pose proof (needs_frag_pos _ _ Hn) as Hf.
  assert (Hpos : 0 < Zlen (bf_payload bf)) by (unfold needs_frag in Hn; lia).
  destruct (frag_count_bounds (bf_payload bf) (s_fragDataSize fw) Hf Hpos) as (Hk1 & Hk2 & _). rewrite <- Ek in Hk1, Hk2.
  assert (Hfit : frag_fits fw (mkFragChecks (frag_in_range (bf_payload bf) (s_fragDataSize fw)) (λ buflen, 7 <? buflen)
    (enqueue_fits "" g)) 0 (Z.to_nat k)).
  { apply data_frag_fits; [done|done|lia|]. apply Z.ltb_lt. unfold HeaderSizeV3. lia. }
  pose proof (frag_loop_spec fw _ (λ buflen i h s, encodeBEEFFragment fw buflen bf i k h s) (group_addr fw g)
    (λ d, mkMeta g (Zlen d) worker "" true) ip g beefZeroIngredient (Z.to_nat k) 0 wb e Hwb
    ltac:(congruence) Hf Hfit ltac:(intros; by apply dst_ok_data)) as Hloop. cbv zeta in Hloop. unfold wp in Hloop.
  assert (Hmade : ∀ j, (j < Z.to_nat k)%nat → ∃ d, encodeBEEFFragment fw (HeaderSizeV3 + s_fragDataSize fw) bf
    (0 + Z.of_nat j) k (seqhash_Hash ip g beefZeroIngredient)
    (u64 (counter_of (w_chains wb) (mkChainKey ip g beefZeroIngredient) + 1 + Z.of_nat j)) = Some d).
  { intros j Hj. unfold encodeBEEFFragment. match goal with |- context [EncodeFragment ?b ?a] =>
      destruct (EncodeFragment_fits b a) as (d & -> & _) end; [|by eexists].
    simpl. pose proof (frag_data_le (bf_payload bf) (s_fragDataSize fw) (0 + Z.of_nat j) Hf ltac:(lia)). lia. }
  specialize (Hloop Hmade). destruct (frag_loop _ _ _ _ _ _ _ _ wb) as [[[] w1]|] eqn:E1; [|done].
  destruct Hloop as [_ (Rv & _ & Rl & _ & Rev & _) Rc (e1 & ds & Q1 & Q2 & Q3 & Q4 & Q5)].
  exists wa, w1. split; [done|]. split.
  { unfold mbind, M_bind. rewrite Eb. exact E1. }
  intros raw. assert (Hck : counter_of (w_chains wb) (mkChainKey ip g beefZeroIngredient) =
    counter_of (w_chains wa) (mkChainKey ip g beefZeroIngredient)) by congruence.
  assert (Hoka : stripes_ok (w_chains wa)) by (rewrite Ac; apply Hw).
  rewrite Hck in *. split.
  - intros k'. rewrite Rc. etransitivity; [by apply reserveSeq_counter|]. rewrite Bc, Ec, Ac.
    case_decide; [|done]. f_equal. lia.
  - simpl. congruence.
  - simpl. congruence.
  - rewrite Rev, Bev. cbn [frag_events ad_k ad_workerID]. rewrite (proj2 (Z.eqb_neq k 0)) by lia. rewrite andb_true_r.
    unfold wr. destruct (s_rec fw); simpl; rewrite Aev; [done|by rewrite app_nil_r].
  - exists ds, e1. unfold admission_datagrams, Datagrams. cbn [ad_k ad_dst].
    rewrite (proj2 (Z.eqb_neq k 0)), (proj2 (Z.ltb_lt 0 k)) by lia. split_and!; try done; [|unfold Zlen; lia].
    apply admission_frags_spec; cbn [ad_bf ad_k ad_hashKey ad_firstSeq]; try done; [nia|].
    intros j d Hj. specialize (Q3 j d Hj). rewrite reserveSeq_hash, reserveSeq_first. rewrite <- Q3. f_equal. zlia.
Qed.

(** Stamping reads and writes the counters only. *)
Lemma stamp_eq fw raw ip g sub w :
  HeaderSize ≤ Zlen raw → world_ok fw w →
  ∃ r c, (∀ w', w_chains w' = w_chains w → stampInPlace fw raw ip g sub w' = Some (r, w' <| w_chains := c |>)) ∧
    world_ok fw (w <| w_chains := c |>).
Proof.
  unfold HeaderSize. intros Hl Hw. unfold stampInPlace. rewrite (proj2 (Z.ltb_ge _ 56)) by lia. cbv zeta.
  assert (Hid : ∀ w', w_chains w' = w_chains w → w' = w' <| w_chains := w_chains w |>)
    by (intros [] E; simpl in *; by rewrite E).
  assert (Hok : world_ok fw (w <| w_chains := w_chains w |>)) by (rewrite <- Hid; done).
  destruct (_ =? 0).
  - eexists _, _. split.
    + intros w' E. unfold mbind, M_bind, next_seq. rewrite E. reflexivity.
    + destruct Hw. split; try done. by apply reserveSeq_ok.
  - destruct (_ || _); eexists _, (w_chains w); split; try done; intros w' E; rewrite <- (Hid w' E); reflexivity.
Qed.

Lemma tails_match_all fw bf g raw src worker w e :
  world_ok fw w → w_egr w = Some e → 0 ≤ g → HeaderSize ≤ Zlen raw →
  ∃ w1 a w2, inline_tail fw bf g raw src worker w = Some ((), w1) ∧
    reserve_admission fw bf g raw src worker w = Some (a, w2) ∧ tails_match fw e a w w1 w2.
Proof.
  intros Hw He Hg Hl. unfold inline_tail, reserve_admission, fragmentBEEF, beefFragTotal, frag_total.
  destruct src as [src|].
  2: { destruct (whole_matches fw bf g raw (zeros 16) 0 0 worker w e Hw He Hg) as (wa & w1 & Ea & Eb & Hm).
       eexists w1, _, wa. split; [done|]. split; [|exact Hm]. unfold mbind, M_bind. by rewrite Ea. }
  cbv zeta. destruct (needs_frag fw (bf_payload bf)) eqn:En.
  - pose proof (needs_frag_pos _ _ En). rewrite (proj2 (Z.eqb_neq _ 0)) by lia. set (k := frag_count _ _). destruct (addrFor_eq fw g w Hg Hw) as (wa & Ea & _ & Ac & Ae & Av & Al & Aev).
    destruct (65535 <? k) eqn:Ek.
    + set (ev := EvPacketDropped "" worker "frag_overflow").
      exists (if s_rec fw then add_events [ev] w else w), None, (if s_rec fw then add_events [ev] wa else wa).
      unfold mbind, M_bind. rewrite Ea. unfold record, modify. destruct (s_rec fw); (split; [done|]; split; [done|]).
      all: split; simpl; rewrite ?app_nil_r; congruence.
    + destruct (frags_match fw bf g (addrToIPv6 src) worker w e k Hw He Hg En eq_refl ltac:(lia))
        as (wa' & w1 & Ea' & E1 & Hm). assert (wa' = wa) as -> by congruence.
      eexists w1, _, _. split; [|split; [|apply (Hm raw)]].
      * unfold mbind, M_bind, mret, M_ret in *. unfold record, modify in *. destruct (s_rec fw); exact E1.
      * unfold mbind, M_bind, mret, M_ret. rewrite Ea. reflexivity.
  - destruct (stamp_eq fw raw (addrToIPv6 src) g beefZeroIngredient w Hl Hw) as (r & c & Hs & Hok).
    destruct (addrFor_eq fw g w Hg Hw) as (wa & Ea & _ & Ac & Ae & Av & Al & Aev).
    destruct (whole_matches fw bf g r (addrToIPv6 src) (be_get (slice 40 48 r)) (be_get (slice 48 56 r)) worker
      (w <| w_chains := c |>) e Hok He Hg) as (wb & w1 & Eb & Em & Hm).
    destruct (addrFor_eq fw g _ Hg Hok) as (wb' & Eb' & _ & Bc & _ & Bv & Bl & Bev).
    assert (wb' = wb) as -> by congruence.
    eexists w1, _, (wa <| w_chains := c |>). split; [|split].
    + unfold mbind, M_bind. rewrite (Hs w) by done. exact Em.
    + unfold mbind, M_bind. rewrite Ea, (Hs wa) by done. reflexivity.
    + destruct Hm as [Mc Mv Ml Me Mq]. split; simpl in *; try congruence.
Qed.

(** C27: fragmenting apart is the same as dispatching in line.  Admitting a
    prepared record and building its datagrams later leaves the flow
    counters, the dedup stores and the rate budgets exactly as DispatchBEEF
    does, records the same metrics, admits the record in exactly the cases
    DispatchBEEF sends it, and yields, byte for byte, in order and with the
    same sequence numbers, the datagrams DispatchBEEF queues on every
    interface, to the same group, as many as announced. *)
Theorem AdmitBEEF_matches_dispatch fw p src worker w e :
  world_ok fw w → w_egr w = Some e →
  ∃ w1 a w2 r w3,
    DispatchBEEF fw p src worker w = Some ((), w1) ∧
    AdmitBEEF fw p src worker w = Some (a, w2) ∧
    FragmentBEEFInto fw a (λ _ n, n) w2 = Some (r, w3) ∧
    same_outcome w1 w3 ∧
    match a with
    | None => r = inl errNilAdmission ∧ w_egr w1 = w_egr w
    | Some a => ∃ ds e1, r = inr ds ∧ Zlen ds = Datagrams a ∧ w_egr w1 = Some e1 ∧
        e_msgs e1 = queue_all (e_targets e) (ad_dst a) ds (e_msgs e)
    end.
Proof.
  intros Hw He. destruct p as [p|].
  2: { exists w, None, w. rewrite FragmentBEEFInto_eq. do 2 eexists.
       split_and!; try reflexivity. split; try done. simpl. by rewrite app_nil_r. }
  unfold DispatchBEEF, AdmitBEEF. set (ev := EvBEEFSubmission (pb_result p)).
  assert (Hrec : ∀ w, record fw ev w = Some ((), if s_rec fw then add_events [ev] w else w))
    by (intros; unfold record; by destruct (s_rec fw)).
  destruct (pb_frame p) as [frame|].
  2: { eexists _, None, _. rewrite FragmentBEEFInto_eq. do 2 eexists. rewrite Hrec.
       split_and!; [done|unfold mbind, M_bind; by rewrite Hrec|done| |done|by destruct (s_rec fw)].
       split; try done. simpl. by rewrite app_nil_r. }
  pose proof (safe_meter_beef fw p frame w Hw) as Hm. unfold wp in Hm.
  destruct (meter_beef fw p frame w) as [[[] wm]|] eqn:Em; [|done]. destruct Hm as [Hwm _].
  destruct (lq_meter_beef fw p frame _ _ _ Em) as (Em1 & _).
  pose proof (safe_checkBEEF fw frame src worker false wm Hwm) as Hc. unfold wp in Hc.
  destruct (checkBEEF fw frame src worker false wm) as [[rc wc]|] eqn:Ec; [|done]. destruct Hc as [Hwc Hadm].
  destruct (lq_checkBEEF fw frame src worker false _ _ _ Ec) as (Ec1 & _).
  assert (Hec : w_egr wc = Some e) by congruence.
  destruct rc as [[[bf g] raw]|].
  - destruct Hadm as [Hg Hl].
    destruct (tails_match_all fw bf g raw src worker wc e Hwc Hec Hg Hl) as (w1 & a & w2 & E1 & E2 & [Tc Tv Tl Te Tq]).
    exists (if s_rec fw then add_events [ev] w1 else w1), a, (if s_rec fw then add_events [ev] w2 else w2).
    rewrite FragmentBEEFInto_eq. do 2 eexists. rewrite processBEEF_tail. unfold mbind, M_bind. rewrite Em, Ec, E1, E2, !Hrec. split_and!; try reflexivity.
    + split; try (by destruct (s_rec fw)). destruct (s_rec fw); simpl; rewrite Te, <- ?app_assoc; [|done].
      apply Permutation_app_head, Permutation_app_comm.
    + destruct a as [a|]; [|split; [done|]; destruct (s_rec fw); simpl; congruence].
      destruct Tq as (ds & e1 & Q1 & Q2 & Q3 & Q4). exists ds, e1. split_and!; try done. by destruct (s_rec fw).
  - eexists _, None, _. rewrite FragmentBEEFInto_eq. do 2 eexists. unfold processBEEF, mbind, M_bind, mret, M_ret.
    rewrite Em, Ec, !Hrec. split_and!; try reflexivity.
    + split; try (by destruct (s_rec fw)). simpl. by rewrite app_nil_r.
    + destruct (s_rec fw); simpl; congruence.
Qed.

(** ** The deliver count *)

(** A claim that succeeds returns the frame it was given, with the deliver
    count of its source. *)
Lemma claim_beef_some fw pe raw bf topics src worker chk w r w' :
  claim_beef fw pe raw bf topics src worker chk w = Some (Some r, w') →
  let d := u8 (beefDeliverCount fw src (match topics with Some ts => Zlen ts | None => 1 end)) in
  r = match src with
      | Some _ => (bf <| bf_deliver := d |>, PlaneGroupIndex pe (bf_topicid bf), <[7%nat := d]> raw)
      | None => (bf, PlaneGroupIndex pe (bf_topicid bf), raw)
      end.
Proof.
  unfold claim_beef, mbind, M_bind, mret, M_ret. cbv zeta.
  destruct (charge_beef _ _ w) as [[[] w1]|]; [| |..|done].
  2, 3: destruct (drop_as _ _ _ w1) as [[]|]; by intros [=].
  destruct (_ && _); [destruct (drop_as _ _ _ w1) as [[]|]; by intros [=]|].
  unfold iface_of, gets. destruct (claimBEEFIngress _ _ _ _ _ w1) as [[[] w2]|]; [|by intros [=]|done].
  intros [= <- _]. by destruct src.
Qed.

Lemma beefDeliverCount_range fw src n : 1 ≤ n → 1 ≤ beefDeliverCount fw src n ≤ n.
Proof.
  intros Hn. unfold beefDeliverCount. cbv zeta.
  match goal with |- context [if ?d <? 1 then 1 else ?d] => generalize d end. intros d.
  destruct (d <? 1) eqn:E1; destruct (n <? _) eqn:E2; lia.
Qed.

Lemma checkBEEF_some fw raw src worker chk w r w' :
  checkBEEF fw raw src worker chk w = Some (Some r, w') →
  ∃ pe bf topics, s_beefEngine fw = Some pe ∧ DecodeBEEF raw = Some bf ∧
    beef_conformance fw bf src = Some (inr topics) ∧
    claim_beef fw pe raw bf topics src worker chk w = Some (Some r, w').
Proof.
  unfold checkBEEF, mbind, M_bind, mret, M_ret. destruct (s_beefEngine fw) as [pe|].
  2: destruct (drop_as _ _ _ w) as [[]|]; by intros [=].
  destruct (DecodeBEEF raw) as [bf|].
  2: destruct (drop_as _ _ _ w) as [[]|]; by intros [=].
  destruct (beef_conformance fw bf src) as [[why|topics]|] eqn:E; [| |done].
  1: destruct (drop_as _ _ _ w) as [[]|]; by intros [=].
  destruct (_ && _); [done|]. intros Hc. by exists pe, bf, topics.
Qed.

Lemma conformance_topics fw bf src topics :
  beef_conformance fw bf src = Some (inr topics) →
  ∃ object, SplitBEEFPayload (bf_payload bf) = Some (object, topics).
Proof.
  unfold beef_conformance. destruct (SplitBEEFPayload _) as [[object ts]|]; [|done].
  destruct (beef_oversize _ _ _); [done|]. destruct (bytes_eqb _ (zeros 32)); [done|]. cbv zeta.
  destruct ts as [[|t l]|], (IsBEEFObject object); try done; try (by intros [= <-]; eauto).
  all: destruct (bytes_eqb _ _); try done; intros [= <-]; eauto.
Qed.

(** The deliver count is set here and nowhere else.  Whatever byte 7 of a
    submitted frame says, an admitted frame from a source carries between
    one deliverable topic and as many as it names, exactly one when no
    policy is installed, in the frame and in the datagram alike; byte 7 is
    the only byte the checks change. *)
Theorem admitted_deliver_count fw raw a worker chk w bf g raw' w' :
  checkBEEF fw raw (Some a) worker chk w = Some (Some (bf, g, raw'), w') →
  ∃ object topics, SplitBEEFPayload (bf_payload bf) = Some (object, topics) ∧
    let n := match topics with Some ts => Zlen ts | None => 1 end in
    (n ≤ 255 → 1 ≤ bf_deliver bf ≤ n) ∧
    (s_beefPolicy fw = None → bf_deliver bf = 1) ∧
    raw' !! 7%nat = Some (bf_deliver bf) ∧ (∀ i, i ≠ 7%nat → raw' !! i = raw !! i).
Proof.
  intros (pe & bf0 & topics & _ & Hd & Hc & Hcl)%checkBEEF_some.
  apply claim_beef_some in Hcl. cbv zeta in Hcl. injection Hcl as -> -> ->.
  destruct (conformance_topics _ _ _ _ Hc) as (object & Hs). exists object, topics. split; [done|]. cbv zeta.
  set (n := match topics with Some ts => Zlen ts | None => 1 end).
  assert (Hn : 1 ≤ n).
  { unfold n. destruct topics as [[|t l]|]; [by apply Split_topics in Hs| |lia]. rewrite Zlen_cons. pose proof (Zlen_nonneg l). lia. }
  pose proof (beefDeliverCount_range fw (Some a) n Hn) as Hr. simpl bf_deliver. split_and!.
  - intros Hn'. unfold u8. rewrite Z.mod_small by lia. lia.
  - intros Hp. unfold beefDeliverCount in *. rewrite Hp in *. simpl. rewrite (proj2 (Z.ltb_ge n 1)) by lia. done.
  - apply list_lookup_insert_eq. apply DecodeBEEF_len in Hd. unfold HeaderSize, Zlen in Hd. lia.
  - intros i Hi. by apply list_lookup_insert_ne.
Qed.

(** ** Records and frames agree *)

(** A record that was framed is never refused by the frame checks: the
    frame PrepareBEEF builds decodes to the record with its own identity,
    its first topic and the deliver count, and passes the conformance checks
    of checkBEEF, the object bound included, whatever allowance the policy
    gave its submitter (for a first topic whose identifier is not the
    all-zero hash). *)
Theorem prepared_record_conforms {BL : BEEFLaws} fw rcd src frame :
  let p := PrepareBEEF fw rcd src in
  pb_frame p = Some frame →
  (∀ r n t, DecodeBEEFRecord rcd = Some (r, n) → head (rec_topics r) = Some t → TopicID t ≠ zeros 32) →
  ∃ bf ts, DecodeBEEF frame = Some bf ∧ bf_payload bf = rcd ∧ bf_contentid bf = ContentID rcd ∧
    bf_deliver bf = pb_deliver p ∧ Zlen ts = pb_topics p ∧ 1 ≤ pb_deliver p ≤ pb_topics p ∧
    beef_conformance fw bf src = Some (inr (Some ts)).
Proof.
  cbv zeta. intros Hp Hz. unfold PrepareBEEF in *. destruct (s_beefEngine fw); [|done].
  destruct (DecodeBEEFRecord rcd) as [[r n]|] eqn:Er; [|done].
  destruct (Z.eqb_spec n (Zlen rcd)) as [->|]; [|done]. cbn [negb] in *. cbv zeta in *.
  destruct (_ && _) eqn:Eo; [done|]. destruct (IsBEEFObject (rec_object r)) eqn:Ei; [|done]. cbn [negb] in *.
  destruct (BEEFMulticastRecord rcd _) as [buf|] eqn:Em; [|done]. simpl in *. injection Hp as ->.
  destruct (BEEFMulticast_decode _ _ _ _ Em Er) as (t & ts & Et & Ed). pose proof (Record_topics _ _ _ Er) as Hn.
  pose proof (beefDeliverCount_range fw src (Zlen (rec_topics r)) ltac:(lia)) as Hr.
  eexists _, (rec_topics r). split; [exact Ed|]. cbn [bf_payload bf_contentid bf_deliver].
  split_and!; try done; [unfold u8; apply Z.mod_small; lia|lia|lia|].
  unfold beef_conformance. cbn [bf_payload bf_topicid]. rewrite (Split_record _ _ Er).
  assert (beef_oversize fw src (rec_object r) = false) as ->.
  { unfold beef_oversize. destruct (0 <? beefObjectBoundFor fw src) eqn:Ep; simpl in Eo.
    - rewrite Eo. apply andb_false_r.
    - assert (s_beefMaxObject fw ≤ beefObjectBoundFor fw src).
      { unfold beefObjectBoundFor. cbv zeta. destruct (s_beefPolicy fw) as [b|]; [|lia]. destruct (Z.ltb_spec (s_beefMaxObject fw) (MaxObjectBytes b (srcIPOf src))); lia. }
      rewrite (proj2 (Z.ltb_ge 0 _)) by lia. done. }
  rewrite (proj2 (bytes_eqb_neq _ _)) by (apply (Hz r (Zlen rcd) t); [done|by rewrite Et]).
  cbv zeta. rewrite Ei, Et. by rewrite bytes_eqb_refl.
Qed.
End Props.

(** ** Witnesses *)

#[local] Existing Instance exactRuntime.

(** A record naming two topics, and the frame made of it. *)
Definition toy_record : bytes := [0xBE; 0xEF; 1; 2; 2; 65; 66; 1; 67] ++ be_put 4 5 ++ [1; 0; 9; 9; 9].
Definition toy_beef_frame : bytes := default [] (pb_frame (PrepareBEEF toy_fw toy_record toy_source)).

Lemma AdmitBEEF_matches_dispatch_witness :
  ∃ w1 a w2 r w3,
    DispatchBEEF toy_fw (Some (PrepareBEEF toy_fw toy_record toy_source)) toy_source 0 toy_world = Some ((), w1) ∧
    AdmitBEEF toy_fw (Some (PrepareBEEF toy_fw toy_record toy_source)) toy_source 0 toy_world = Some (a, w2) ∧
    FragmentBEEFInto toy_fw a (λ _ n, n) w2 = Some (r, w3) ∧ same_outcome w1 w3.
Proof.
  destruct (AdmitBEEF_matches_dispatch toy_fw (Some (PrepareBEEF toy_fw toy_record toy_source)) toy_source 0 toy_world
    (worker_egress toy_fw ["eth0"; "eth1"] 8) toy_world_ok eq_refl) as (w1 & a & w2 & r & w3 & H1 & H2 & H3 & H4 & _).
  exists w1, a, w2, r, w3. split; [exact H1|]. split; [exact H2|]. split; [exact H3|exact H4].
Defined.

Lemma admitted_deliver_count_witness :
  ∃ a bf g raw' w', toy_source = Some a ∧
    checkBEEF toy_fw toy_beef_frame (Some a) 0 true toy_world = Some (Some (bf, g, raw'), w') ∧ bf_deliver bf = 1.
Proof.
  assert (E : match checkBEEF toy_fw toy_beef_frame toy_source 0 true toy_world with
              | Some (Some _, _) => true | _ => false end = true) by (vm_compute; reflexivity).
  unfold toy_source in *. eexists. 
  destruct (checkBEEF toy_fw toy_beef_frame _ 0 true toy_world) as [[[[[bf g] raw']|] w']|] eqn:Ec; try discriminate E.
  destruct (admitted_deliver_count _ _ _ _ _ _ _ _ _ _ Ec) as (o & ts & _ & _ & Hone & _).
  exists bf, g, raw', w'. split; [reflexivity|]. split; [reflexivity|]. apply Hone. reflexivity.
Defined.

Lemma prepared_record_conforms_witness :
  ∃ bf ts, DecodeBEEF toy_beef_frame = Some bf ∧ beef_conformance toy_fw bf toy_source = Some (inr (Some ts)).
Proof.
  destruct (prepared_record_conforms toy_fw toy_record toy_source toy_beef_frame) as (bf & ts & H1 & _ & _ & _ & _ & _ & H2).
  - vm_compute. reflexivity.
  - intros r n t Hr Ht. vm_compute in Hr. injection Hr as <- _. vm_compute in Ht. injection Ht as <-. vm_compute. discriminate.
  - exists bf, ts. split; [exact H1|exact H2].
Defined.
