(* ===== verification/CoalesceProps.v ===== *)
(** * Properties of coalescing

    A flush packs every buffered transaction into exactly one bundle of its
    flow, in order, within the budgets, and queues the bundles under
    consecutive sequence numbers of the flow. *)

From S2P Require Import Prelude Common Chains BatchWriter RetryTee Coal Egress EgressFacts RateLimit SubtreeRoot Machine Forwarder Beef Coalesce Dispatch ForwarderFacts Fragmentation BeefFacts Toy ToyLaws DispatchProps.

(** [bundle.Encode] writes the 66-byte header and, per member, its overhead
    and its bytes. *)
Class BundleLaws `{ShardCommon} : Prop := {
  MemberOverhead_nonneg c : 0 ≤ MemberOverhead c;
  BundleEncode_len b raw : BundleEncode b = Some raw →
    Zlen raw = BundleHeaderSize +
      foldr (λ m n, MemberOverhead (b_flags b =? FlagTxIDsPresent) + Zlen (m_tx m) + n) 0 (b_members b);
  FlagTxIDsPresent_set : FlagTxIDsPresent ≠ 0 }.

(** ** Packing *)

Section Pack.
Context (maxMembers maxBytes overhead : Z).

(** The bytes a list of members takes in a bundle body. *)
Definition members_size (ms : list Member) : Z := foldr (λ m n, overhead + Zlen (m_tx m) + n) 0 ms.

Lemma members_size_nonneg ms : 0 ≤ overhead → 0 ≤ members_size ms.
Proof. intros Ho. induction ms as [|m ms IH]; simpl; [lia|]. pose proof (Zlen_nonneg (m_tx m)). lia. Qed.

Lemma pack_members_split size cnt ms :
  let p := pack_members maxMembers maxBytes overhead size cnt ms in
  p.1 ++ p.2 = ms ∧ cnt + Zlen p.1 ≤ Z.max cnt maxMembers.
Proof.
  revert size cnt. induction ms as [|m ms IH]; intros size cnt; simpl.
  { unfold Zlen. simpl. split; [done|lia]. }
  destruct (cnt <? maxMembers) eqn:E; [|unfold Zlen; simpl; split; [done|lia]].
  destruct (_ && _); [unfold Zlen; simpl; split; [done|lia]|]. cbn [fst snd].
  destruct (IH (size + (overhead + Zlen (m_tx m))) (cnt + 1)) as [H1 H2]. split; [by rewrite <- app_comm_cons, H1|].
  rewrite Zlen_cons. lia.
Qed.

(** With something in the bundle, only what fits is added. *)
Lemma pack_members_more size cnt ms :
  0 < cnt →
  let p := pack_members maxMembers maxBytes overhead size cnt ms in
  p.1 = [] ∨ size + members_size p.1 ≤ maxBytes.
Proof.
  revert size cnt. induction ms as [|m ms IH]; intros size cnt Hc; simpl; [by left|].
  destruct (cnt <? maxMembers); [|by left]. rewrite (proj2 (Z.ltb_lt 0 cnt)) by done. cbn [andb].
  destruct (maxBytes <? _) eqn:E; [by left|right]. cbn [fst]. simpl.
  destruct (IH (size + (overhead + Zlen (m_tx m))) (cnt + 1) ltac:(lia)) as [-> | Hi]; simpl; lia.
Qed.

(** A bundle takes at least one member, and stays in the budget unless its
    only member is over it by itself. *)
Lemma pack_members_first size m ms :
  0 < maxMembers →
  let p := pack_members maxMembers maxBytes overhead size 0 (m :: ms) in
  (∃ l, p.1 = m :: l) ∧ (p.1 = [m] ∨ size + members_size p.1 ≤ maxBytes).
Proof.
  intros Hm. simpl. rewrite (proj2 (Z.ltb_lt 0 _)) by done. cbn [fst]. split; [by eexists|].
  destruct (pack_members_more (size + (overhead + Zlen (m_tx m))) (0 + 1) ms ltac:(lia)) as [-> | Hi]; [by left|right].
  simpl. lia.
Qed.
End Pack.

Section Props.
Context {SC : ShardCommon} {SL : ShardLaws} {BL : BundleLaws} {RT : GoRuntime}.
Implicit Types (fw : Settings) (w : World).

(** The member lists of the bundles of a bucket. *)
Fixpoint bundles_of fw (maxMembers : Z) (fuel : nat) (ms : list Member) : list (list Member) :=
  match ms, fuel with
  | [], _ => []
  | _, O => []
  | _, S fuel => let p := next_bundle fw maxMembers ms in p.1 :: bundles_of fw maxMembers fuel p.2
  end.

Definition fits fw (m : Member) : Prop :=
  BundleHeaderSize + MemberOverhead (s_coalesceCarryTxid fw) + Zlen (m_tx m) ≤ bundle_budget fw.

Lemma bundles_of_spec fw mm fuel ms :
  0 < mm → (length ms ≤ fuel)%nat → Forall (fits fw) ms →
  concat (bundles_of fw mm fuel ms) = ms ∧
  Forall (λ b, 1 ≤ Zlen b ≤ mm ∧
    BundleHeaderSize + members_size (MemberOverhead (s_coalesceCarryTxid fw)) b ≤ bundle_budget fw)
    (bundles_of fw mm fuel ms).
Proof.
  intros Hm. revert ms. induction fuel as [|fuel IH]; intros [|m ms] Hl Hf; simpl in Hl; try (by split); [lia|].
  cbn [bundles_of]. cbv zeta. unfold next_bundle at 1 3.
  set (p := pack_members mm (bundle_budget fw) (MemberOverhead (s_coalesceCarryTxid fw)) BundleHeaderSize 0 (m :: ms)).
  change (next_bundle fw mm (m :: ms)) with p.
  destruct (pack_members_split mm (bundle_budget fw) (MemberOverhead (s_coalesceCarryTxid fw)) BundleHeaderSize 0 (m :: ms)) as [Hs Hc].
  destruct (pack_members_first mm (bundle_budget fw) (MemberOverhead (s_coalesceCarryTxid fw)) BundleHeaderSize m ms Hm) as [[l Hl1] Hb].
  fold p in Hs, Hc, Hl1, Hb. assert (Hf2 : Forall (fits fw) p.1 ∧ Forall (fits fw) p.2) by (apply Forall_app; by rewrite Hs).
  assert (Hlen : (length p.2 ≤ fuel)%nat).
  { apply (f_equal length) in Hs. rewrite length_app, Hl1 in Hs. simpl in Hs. lia. }
  destruct (IH p.2 Hlen (proj2 Hf2)) as [IH1 IH2]. split; [cbn [concat]; by rewrite IH1|]. constructor; [|done].
  split.
  - rewrite Hl1 in *. rewrite Zlen_cons in *. pose proof (Zlen_nonneg l). lia.
  - destruct Hb as [Hb|Hb]; [|done]. rewrite Hb in *. simpl.
    apply list.Forall_cons in Hf as [Hfit _]. unfold fits in Hfit. lia.
Qed.

(** ** Flushing *)

(** The datagrams of a bucket whose flow counter stands at [c]; a bundle the
    encoder refuses is skipped. *)
Definition bucket_bundles fw mm (bk : coalBucket) : list (list Member) :=
  bundles_of fw mm (length (cb_members bk)) (cb_members bk).

Definition stamped_bundles fw (bk : coalBucket) (c : Z) (parts : list (list Member)) : list Bundle :=
  imap (λ j ms, make_bundle fw bk ms (seqhash_Hash (cb_ip bk) (cb_group bk) (cb_subtree bk))
                  (u64 (c + 1 + Z.of_nat j))) parts.

Lemma stamped_bundles_cons fw bk c p parts :
  stamped_bundles fw bk c (p :: parts) =
  make_bundle fw bk p (seqhash_Hash (cb_ip bk) (cb_group bk) (cb_subtree bk)) (u64 (c + 1)) ::
  stamped_bundles fw bk (u64 (c + 1)) parts.
Proof.
  unfold stamped_bundles. cbn [imap]. rewrite Z.add_0_r. f_equal. apply imap_ext. intros j x _. simpl.
  f_equal. zlia.
Qed.

(** The outcome of flushing part of the buffer. *)
Record flush_post fw (e : Egress) w w' (qs : list (list Message)) (adv : chainKey → Z) : Prop := mkFlushPost {
  fp_ok : world_ok fw w';
  fp_env : w_env w' = w_env w;
  fp_counter : ∀ k, counter_of (w_chains w') k = u64 (counter_of (w_chains w) k + adv k);
  fp_egr : ∃ e', w_egr w' = Some e' ∧ e_targets e' = e_targets e ∧ e_coal e' = e_coal e ∧ e_msgs e' = qs }.

Lemma flush_post_refl fw e w : world_ok fw w → w_egr w = Some e → flush_post fw e w w (e_msgs e) (λ _, 0).
Proof.
  intros Hw He. split; try done; [|eauto 10]. intros k. rewrite Z.add_0_r. symmetry. apply u64_small, Hw.
Qed.

(** One bundle encoded and queued, or skipped. *)
Lemma emit_bundle_spec fw iface worker bk b n w e :
  world_ok fw w → w_egr w = Some e → 0 ≤ cb_group bk →
  wp (match BundleEncode b with
      | None => record fw (EvCoalesceFlushed iface worker 0 "encode_error")
      | Some raw =>
          queue "" (cb_group bk) (EnqueueData raw (group_addr fw (cb_group bk)) (cb_group bk) worker);;
          record fw (EvCoalesceFlushed iface worker n "batch")
      end) w (λ _ w',
    flush_post fw e w w' (queue_all (e_targets e) (group_addr fw (cb_group bk))
      (match BundleEncode b with Some raw => [raw] | None => [] end) (e_msgs e)) (λ _, 0)).
Proof.
  intros Hw He Hg. pose proof (wo_egr fw w Hw e He) as Hok. destruct (BundleEncode b) as [raw|].
  - apply wp_bind. apply (wp_on_egress _ _ _ e _ He); [by apply enqueue_fits_ok; [apply Hok|]|]. apply wp_record.
    set (e2 := EnqueueData raw (group_addr fw (cb_group bk)) (cb_group bk) worker e). set (w2 := w <| w_egr := _ |>).
    assert (E2 : w_egr w2 = Some e2) by done.
    assert (Hok2 : egr_ok fw e2) by (by apply egr_ok_enqueue, dst_ok_data).
    assert (Hw2 : world_ok fw w2).
    { destruct Hw. split; try done. intros e0. rewrite E2. by intros [= <-]. }
    split; [by apply world_ok_add|by destruct (s_rec fw)| |].
    + intros k. rewrite Z.add_0_r, u64_small by apply Hw. by destruct (s_rec fw).
    + exists e2. split_and!; try done; [by destruct (s_rec fw)|]. by apply enqueue_data_queue.
  - apply wp_record. destruct (flush_post_refl fw e w Hw He) as [? ? Hc _].
    split; [by apply world_ok_add|by destruct (s_rec fw)| |].
    + intros k. rewrite <- Hc. by destruct (s_rec fw).
    + exists e. split_and!; try done; [by destruct (s_rec fw)|]. rewrite queue_all_nil; [done|]. apply Hok.
Qed.

Lemma flush_bucket_spec fw mm iface worker bk fuel ms w e :
  1 ≤ mm → (length ms ≤ fuel)%nat → world_ok fw w → w_egr w = Some e → 0 ≤ cb_group bk →
  let parts := bundles_of fw mm fuel ms in
  let key := mkChainKey (cb_ip bk) (cb_group bk) (cb_subtree bk) in
  wp (flush_bucket fw mm iface worker bk (group_addr fw (cb_group bk)) fuel ms) w (λ _ w',
    flush_post fw e w w'
      (queue_all (e_targets e) (group_addr fw (cb_group bk))
         (omap BundleEncode (stamped_bundles fw bk (counter_of (w_chains w) key) parts)) (e_msgs e))
      (λ k, if decide (k = key) then Zlen parts else 0)).
Proof.
  intros Hm Hl Hw He Hg. cbv zeta. set (key := mkChainKey _ _ _).
  assert (Hbase : ∀ w e, world_ok fw w → w_egr w = Some e → flush_post fw e w w
    (queue_all (e_targets e) (group_addr fw (cb_group bk)) [] (e_msgs e)) (λ k, if decide (k = key) then 0 else 0)).
  { intros w0 e0 Hw0 He0. destruct (flush_post_refl fw e0 w0 Hw0 He0) as [? ? Hc ?]. split; try done.
    - intros k. etransitivity; [apply Hc|]. by destruct (decide (k = key)).
    - rewrite queue_all_nil; [done|]. apply (eo_queues fw e0), (wo_egr fw w0 Hw0 e0 He0). }
  revert ms w e Hl Hw He. induction fuel as [|fuel IH]; intros [|m ms] w e Hl Hw He;
    try (apply wp_ret; by apply Hbase); [by simpl in Hl; lia|].
  pose proof (next_bundle_shorter fw mm m ms Hm) as Hsh. simpl in Hl.
  cbn [flush_bucket bundles_of]. cbv zeta. set (p := next_bundle fw mm (m :: ms)).
  apply wp_bind. unfold next_seq, wp at 1. unfold nextSeq.
  rewrite (surjective_pairing (reserveSeq (w_chains w) _ _ _ 1).1), reserveSeq_hash, reserveSeq_first.
  cbn [fst snd]. fold key. set (c := counter_of (w_chains w) key). set (w1 := w <| w_chains := _ |>).
  set (b := make_bundle _ _ _ _ _). rewrite stamped_bundles_cons. cbn [omap list_omap]. fold b.
  set (ds := match BundleEncode b with Some raw => [raw] | None => [] end).
  assert (Hw1 : world_ok fw w1).
  { destruct Hw. split; try done. by apply reserveSeq_ok. }
  apply wp_bind.
  eapply (wp_mono _ _ (λ _ w2, flush_post fw e w1 w2 (queue_all (e_targets e) (group_addr fw (cb_group bk)) ds (e_msgs e)) (λ _, 0))).
  - by apply emit_bundle_spec.
  - intros _ w2 [Hw2 Hv2 Hc2 (e2 & E2 & T2 & C2 & Q2)]. eapply wp_mono; [apply (IH p.2 w2 e2); [fold p in Hsh; lia|done|done]|].
    assert (Hcw1 : ∀ k, counter_of (w_chains w1) k = if decide (k = key) then u64 (c + 1) else counter_of (w_chains w) k)
      by (intros; by apply reserveSeq_counter, Hw).
    assert (Hcw2 : ∀ k, counter_of (w_chains w2) k = if decide (k = key) then u64 (c + 1) else counter_of (w_chains w) k).
    { intros k. rewrite Hc2, Z.add_0_r, Hcw1. case_decide; [apply u64_idemp|]. apply u64_small, Hw. }
    intros _ w3 [Hw3 Hv3 Hc3 (e3 & E3 & T3 & C3 & Q3)]. split; [done|by rewrite Hv3| |].
    + intros k. rewrite Hc3, Hcw2, Zlen_cons. case_decide; [subst k; fold c; rewrite u64_add_l; f_equal; lia|].
      by rewrite !Z.add_0_r.
    + exists e3. split_and!; [done|by rewrite T3|by rewrite C3|]. rewrite Q3, T2, Q2.
      rewrite Hcw2, decide_True by done. unfold ds. destruct (BundleEncode b) as [raw|].
      * symmetry. apply queue_all_cons.
      * rewrite queue_all_nil; [done|]. apply (eo_queues fw e), (wo_egr fw w Hw e He).
Qed.

(** The queues after the buckets are flushed in order, each from its flow's
    counter in [cnt]. *)
Fixpoint flushed_queues fw mm (targets : list string) (cnt : chainKey → Z) (bks : list coalBucket)
    (qs : list (list Message)) : list (list Message) :=
  match bks with
  | [] => qs
  | bk :: bks =>
      flushed_queues fw mm targets cnt bks
        (queue_all targets (group_addr fw (cb_group bk))
           (omap BundleEncode (stamped_bundles fw bk (cnt (bucket_key bk)) (bucket_bundles fw mm bk))) qs)
  end.

Lemma flushed_queues_ext fw mm targets cnt cnt' bks qs :
  (∀ bk, bk ∈ bks → cnt (bucket_key bk) = cnt' (bucket_key bk)) →
  flushed_queues fw mm targets cnt bks qs = flushed_queues fw mm targets cnt' bks qs.
Proof.
  revert qs. induction bks as [|bk bks IH]; intros qs Hc; simpl; [done|].
  rewrite (Hc bk) by set_solver. apply IH. set_solver.
Qed.

Lemma flush_buckets_spec fw mm iface worker bks w e :
  1 ≤ mm → world_ok fw w → w_egr w = Some e → Forall (λ b, 0 ≤ cb_group b) bks → NoDup (bucket_key <$> bks) →
  wp (flush_buckets fw mm iface worker bks) w (λ _ w', world_ok fw w' ∧ w_env w' = w_env w ∧
    ∃ e', w_egr w' = Some e' ∧ e_coal e' = e_coal e ∧
      e_msgs e' = flushed_queues fw mm (e_targets e) (counter_of (w_chains w)) bks (e_msgs e)).
Proof.
  intros Hm Hw He Hg Hnd. revert w e Hw He. induction bks as [|bk bks IH]; intros w e Hw He; [apply wp_ret; eauto 10|].
  apply list.Forall_cons in Hg as [Hgb Hg]. rewrite fmap_cons in Hnd. apply list.NoDup_cons in Hnd as [Hnin Hnd].
  cbn [flush_buckets flushed_queues]. destruct (addrFor_eq fw (cb_group bk) w Hgb Hw) as (wa & Ea & Hwa & Ac & Ae & Av & _).
  apply wp_bind. unfold wp at 1. rewrite Ea. apply wp_bind.
  eapply wp_mono; [by apply (flush_bucket_spec fw mm iface worker bk _ _ wa e); [| | |rewrite Ae|]|].
  intros _ w1 [Hw1 Hv1 Hc1 (e1 & E1 & T1 & C1 & Q1)].
  eapply wp_mono; [by apply (IH Hg Hnd w1 e1)|]. intros _ w2 (Hw2 & Hv2 & e2 & E2 & C2 & Q2).
  split_and!; [done|congruence|]. exists e2. split_and!; [done|congruence|].
  rewrite Q2, T1, Q1, Ac. apply flushed_queues_ext. intros bk' Hin. rewrite Hc1, decide_False, Z.add_0_r, Ac.
  - apply u64_small, Hw.
  - intros E. apply Hnin. apply list_elem_of_fmap. exists bk'. split; [|done]. symmetry. exact E.
Qed.

(** C14: coalescing neither loses, duplicates nor reorders.  The flush at the
    end of a batch cuts each flow's buffered transactions into consecutive
    bundles whose members, put together, are exactly the buffered ones in
    arrival order; every bundle has at least one and at most the configured
    number of members, and its datagram fits the byte budget, the path MTU
    less the IPv6 and UDP headers; the bundles of a flow carry its next sequence numbers in
    order and are queued to the flow's group on every interface; the buffer
    is left empty. *)
Theorem FlushCoalesced_delivers fw worker w e c :
  world_ok fw w → w_egr w = Some e → e_coal e = Some c →
  Forall (λ bk, Forall (fits fw) (cb_members bk)) (c_buckets c) →
  wp (FlushCoalesced fw worker) w (λ _ w', w_env w' = w_env w ∧ ∃ e' c', w_egr w' = Some e' ∧
      e_coal e' = Some c' ∧ c_buckets c' = [] ∧
      e_msgs e' = flushed_queues fw (c_maxMembers c) (e_targets e) (counter_of (w_chains w)) (c_buckets c) (e_msgs e)) ∧
  Forall (λ bk, let parts := bucket_bundles fw (c_maxMembers c) bk in
    concat parts = cb_members bk ∧
    ∀ i b d, stamped_bundles fw bk (counter_of (w_chains w) (bucket_key bk)) parts !! i = Some b →
      BundleEncode b = Some d →
      1 ≤ Zlen (b_members b) ≤ c_maxMembers c ∧ Zlen d ≤ bundle_budget fw)
    (c_buckets c).
Proof.
  intros Hw He Hc Hfit. pose proof (wo_egr fw w Hw e He) as Hok.
  destruct (eo_coal fw e Hok c Hc) as [(Hnd & Hmm & _) Hg]. split.
  - unfold FlushCoalesced. apply wp_bind, wp_gets. rewrite He, Hc.
    destruct (c_buckets c) as [|bk bks] eqn:Eb; [apply wp_ret; split; [done|]; by exists e, c|].
    apply wp_bind. eapply wp_mono; [apply (flush_buckets_spec fw _ _ worker (bk :: bks) w e); [lia|done..]|].
    intros _ w1 (_ & Hv & e1 & E1 & C1 & Q1). apply (wp_on_egress _ _ _ e1 _ E1); [done|]. split; [done|].
    eexists _, (coal_reset c). simpl. split_and!; try reflexivity; [by rewrite C1, Hc|exact Q1].
  - eapply Forall_impl; [|exact Hfit]. intros bk Hbk. cbv zeta.
    destruct (bundles_of_spec fw (c_maxMembers c) (length (cb_members bk)) (cb_members bk)) as [Hcat Hall]; [lia|lia|done|].
    split; [done|]. intros i b d Hi Hd. unfold stamped_bundles in Hi. rewrite list_lookup_imap in Hi.
    destruct (bucket_bundles fw _ bk !! i) as [ms|] eqn:Em; [|done]. simpl in Hi. injection Hi as <-.
    pose proof (Forall_lookup_1 _ _ _ _ Hall Em) as [Hn Hsz]. cbn [make_bundle b_members]. split; [done|].
    apply BundleEncode_len in Hd. cbn [make_bundle b_flags b_members] in Hd. unfold members_size in Hsz.
    replace ((if s_coalesceCarryTxid fw then FlagTxIDsPresent else 0) =? FlagTxIDsPresent)
      with (s_coalesceCarryTxid fw) in Hd; [lia|].
    pose proof FlagTxIDsPresent_set. destruct (s_coalesceCarryTxid fw); [by rewrite Z.eqb_refl|].
    symmetry. apply Z.eqb_neq. lia.
Qed.
End Props.

(** ** Witness *)

Lemma length_toy_member c m : Zlen (toy_member c m) = toy_MemberOverhead c + Zlen (m_tx m).
Proof.
  unfold toy_member, toy_MemberOverhead, Zlen. rewrite !length_app, length_be_put.
  destruct c; rewrite ?length_pad32; simpl; lia.
Qed.

#[export] Instance toyBundleLaws : @BundleLaws toy.
Proof.
  split; simpl.
  - intros []; unfold toy_MemberOverhead; lia.
  - intros b raw. unfold toy_BundleEncode. intros E. apply (inj Some) in E. subst raw.
    assert (Hm : ∀ ms, Zlen (concat (toy_member (b_flags b =? 1) <$> ms)) =
      foldr (λ m n, toy_MemberOverhead (b_flags b =? 1) + Zlen (m_tx m) + n) 0 ms).
    { induction ms as [|m ms IH]; [done|]. rewrite fmap_cons. cbn [concat foldr].
      rewrite Zlen_app, IH, length_toy_member. lia. }
    rewrite <- Hm. set (body := concat _). rewrite !Zlen_app. clearbody body.
    replace (Zlen (pad32 (b_subtree b))) with 32 by (unfold Zlen; by rewrite length_pad32).
    unfold BundleHeaderSize, Zlen. rewrite !length_be_put. simpl. lia.
  - done.
Qed.

#[local] Existing Instance exactRuntime.

(** A coalescing proxy that packs two transactions to a bundle, and three
    buffered transactions of one flow. *)
Definition coal_fw : Settings := SetCoalesce true 200 2 true toy_fw.

Definition coal_egress : Egress :=
  let add tx e := e <| e_coal ::= fmap (coal_add (zeros 16) 1 (zeros 32) (toy_hash tx) tx) |> in
  add [4; 1; 2; 3] (add [3; 1; 2] (add [2; 1] (worker_egress coal_fw ["eth0"; "eth1"] 8))).

Definition coal_world : World := newWorld (H := toy) ∅ (Some coal_egress) 100.

Definition coal_buffer : coalBuffer := default (newCoalBuffer 0) (e_coal coal_egress).

Lemma FlushCoalesced_delivers_witness :
  wp (FlushCoalesced coal_fw 0) coal_world (λ _ w', ∃ e' c', w_egr w' = Some e' ∧
    e_coal e' = Some c' ∧ c_buckets c' = []) ∧
  Forall (λ bk, concat (bucket_bundles coal_fw 2 bk) = cb_members bk) (c_buckets coal_buffer) ∧
  (length ∘ bucket_bundles coal_fw 2 <$> c_buckets coal_buffer) = [2%nat].
Proof.
  destruct (FlushCoalesced_delivers coal_fw 0 coal_world coal_egress coal_buffer) as [Hw Hb].
  - apply newWorld_ok. by repeat apply egr_ok_coal_add; [lia..|apply worker_egress_ok].
  - reflexivity.
  - reflexivity.
  - repeat constructor; vm_compute; discriminate.
  - split_and!.
    + eapply wp_mono; [exact Hw|]. intros _ w' (_ & e' & c' & E1 & E2 & E3 & _). by exists e', c'.
    + eapply Forall_impl; [|exact Hb]. intros bk [Hbk _]. exact Hbk.
    + vm_compute. reflexivity.
Defined.
