(* ===== verification/Lane.v ===== *)
(** * Lanes (worker package: what every ingress path shares)

    An ingress path drives one forwarder and one egress over the sockets of
    the kernel.  [Host] is what it acts on: the forwarder's state (with the
    path's egress), the sockets, the state of an external sink when the lane
    ships its frames over one, and the admission observations it has made.
    A stream reader's control flow depends on the bytes of its connection
    and never on what the forwarder made of a frame, so a reader is modelled
    as producing the [Action]s it takes, in order, and a host performs
    them. *)

From S2P Require Import Prelude Common Chains BatchWriter RetryTee Coal Egress RateLimit Machine Forwarder Beef Coalesce Dispatch.

(** What the goroutine of a lane does. *)
Inductive Action :=
| ARecord (ev : Event)                  (* a metric, when a recorder is attached *)
| AAdmit (frames size : Z)              (* the admission observer *)
| ADispatch (raw : bytes) (class : IngressClass)
| ABareTx (tx : bytes)
| AControl (raw : bytes)
| AFlush
| ARead (deadline : bool).              (* a read of the kernel; without a deadline it may block *)

#[export] Instance Action_eq_dec : EqDecision Action.
Proof. solve_decision. Defined.

(** [EgressWriteFunc] and its flush, over the sink's own state. *)
Record Sink := mkSink {
  sink_state : Type;
  sink_write : nat → sink_state → bytes → UDPAddr → option SendErr * sink_state;
  sink_flush : option (sink_state → sink_state) }.

Section Host.
Context {SC : ShardCommon} {RT : GoRuntime} {K : Kernel}.

Record Host (V : Type) := mkHost {
  h_world : World; h_net : KState; h_sink : V; h_admits : list (Z * Z) }.
Arguments mkHost {V}. Arguments h_world {V}. Arguments h_net {V}. Arguments h_sink {V}. Arguments h_admits {V}.

#[export] Instance eta_Host V : EtaExpand (Host V) :=
  {| eta_of := λ x, mkHost (h_world x) (h_net x) (h_sink x) (h_admits x) |}.

(** A forwarder operation on the host. *)
Definition lift {V A} (m : M A) (h : Host V) : option (Host V) :=
  '(_, w) ← m (h_world h); Some (h <| h_world := w |>).

(** [egr.Flush]: [None] when the lane would wait for its sender goroutine,
    which no lane of this package starts. *)
Definition egr_Flush {V} (h : Host V) : option (Host V) :=
  match w_egr (h_world h) with
  | None => Some h
  | Some e =>
      '((e', evs), k) ← Flush (h_net h) e;
      Some (h <| h_world := add_events evs (h_world h) <| w_egr := Some e' |> |> <| h_net := k |>)
  end.

Definition egr_FlushVia (s : Sink) (h : Host (sink_state s)) : Host (sink_state s) :=
  match w_egr (h_world h) with
  | None => h
  | Some e =>
      let r := FlushVia (sink_write s) (h_sink h) e in
      h <| h_world := add_events r.1.2 (h_world h) <| w_egr := Some r.1.1 |> |> <| h_sink := r.2 |>
  end.

(** The egress half of [flushEgr]: through the sink when one is set, to the
    multicast sockets otherwise. *)
Definition drain (s : Sink) (via : bool) (h : Host (sink_state s)) : option (Host (sink_state s)) :=
  if via then
    let h := egr_FlushVia s h in
    Some (match sink_flush s with Some f => h <| h_sink ::= f |> | None => h end)
  else egr_Flush h.

(** [TCPIngress.flushEgr]: the coalescing buffer is packed first. *)
Definition tcp_flushEgr (fw : Settings) (s : Sink) (via : bool) (h : Host (sink_state s))
    : option (Host (sink_state s)) :=
  match w_egr (h_world h) with
  | None => Some h
  | Some _ => h ← lift (FlushCoalesced fw (-1)) h; drain s via h
  end.

(** [ObjectIngress.flushEgr]. *)
Definition obj_flushEgr (s : Sink) (via : bool) (h : Host (sink_state s)) : option (Host (sink_state s)) :=
  match w_egr (h_world h) with
  | None => Some h
  | Some _ => drain s via h
  end.

(** A metric of the lane's own recorder. *)
Definition lane_record {V} (rec : bool) (ev : Event) (h : Host V) : Host V :=
  if rec then h <| h_world ::= add_events [ev] |> else h.
End Host.
Arguments mkHost {_ _ _ V}. Arguments h_world {_ _ _ V}. Arguments h_net {_ _ _ V}.
Arguments h_sink {_ _ _ V}. Arguments h_admits {_ _ _ V}.

(** One accepted connection: its forwarder, its peer, whether the listener
    has a recorder, how many admission hooks, its flush, and the name of the
    announce group ([shard.GroupIdx.String]). *)
Section Perform.
Context {SC : ShardCommon} {RT : GoRuntime} {K : Kernel}.
Context (fw : Settings) {V : Type} (rec : bool) (hooks : Z) (remote : option NetAddr)
  (announceName : string) (flush : Host V → option (Host V)).

Definition perform (a : Action) (h : Host V) : option (Host V) :=
  match a with
  | ARecord ev => Some (lane_record rec ev h)
  | AAdmit frames size =>
      Some (h <| h_admits ::= λ l, l ++ replicate (Z.to_nat hooks) (frames, size) |>)
  | ADispatch raw class => lift (DispatchClass fw raw remote (-1) class) h
  | ABareTx tx => lift (DispatchBareTx fw tx remote (-1)) h
  | AControl raw =>
      lift (ForwardControl fw raw GroupSubtreeGroupAnnounce announceName (s_egressPort fw)) h
  | AFlush => flush h
  | ARead _ => Some h
  end.

Fixpoint perform_all (acts : list Action) (h : Host V) : option (Host V) :=
  match acts with
  | [] => Some h
  | a :: acts => h ← perform a h; perform_all acts h
  end.

Lemma perform_all_app a b h : perform_all (a ++ b) h = h ← perform_all a h; perform_all b h.
Proof. revert h. induction a as [|x a IH]; intros h; [done|]. simpl. by destruct (perform x h); simpl. Qed.
End Perform.
