(* ===== verification/LaneFacts.v ===== *)
(** * Facts about lanes

    The forwarder's invariant on a host, and what a flush leaves behind. *)

From S2P Require Import Prelude Common Chains BatchWriter RetryTee Coal Egress EgressFacts RateLimit SubtreeRoot Machine Forwarder Beef Coalesce Dispatch ForwarderFacts Lane.

(** Nothing of a batch is left in an egress: no datagram queued, no buffer
    held, no transaction waiting to be bundled. *)
Record drained (e : Egress) : Prop := mkDrained {
  dr_msgs : Forall (λ q, q = []) (e_msgs e);
  dr_meta : e_meta e = [];
  dr_pooled : e_pooled e = [];
  dr_coal : ∀ c, e_coal e = Some c → c_buckets c = [] }.

Definition coal_empty (e : Egress) : Prop := ∀ c, e_coal e = Some c → c_buckets c = [].

Lemma flush_reset_drained e : coal_empty e → drained (flush_reset e).1.
Proof. intros Hc. split; try done. simpl. rewrite Forall_fmap. by apply Forall_true. Qed.

Section Facts.
Context {SC : ShardCommon} {SL : ShardLaws} {RT : GoRuntime} {K : Kernel}.
Implicit Types (fw : Settings).

Lemma egr_ok_flush fw e : egr_ok fw e → egr_ok fw (flush_reset e).1.
Proof.
  intros [Hq Hc Hp Hl Hi]. split; try done.
  - by apply flush_reset_ok.
  - intros Hf. destruct (Hp Hf) as (p & E & Es). simpl. rewrite E. simpl. eauto.
Qed.

Lemma Flush_inline fw (k : KState) e :
  egr_ok fw e → ∃ evs k', Flush k e = Some (((flush_reset e).1, evs), k').
Proof. intros He. unfold Flush, FlushInline. rewrite (eo_inline fw e He). eauto. Qed.

Lemma world_ok_egr fw w evs e : world_ok fw w → egr_ok fw e → world_ok fw (add_events evs w <| w_egr := Some e |>).
Proof. intros [] He. split; try done. by intros ? [= <-]. Qed.

(** The egress of every lane starts well-formed and drained. *)
Lemma egr_ok_New fw targets hint rec :
  let e := NewEgress (Some (s_fragDataSize fw, s_coalesce fw, s_coalesceMaxMembers fw)) targets hint rec in
  egr_ok fw e ∧ drained e.
Proof.
  cbv zeta. split; split; try done.
  - apply NewEgress_ok.
  - apply NewEgress_coh.
  - intros Hf. cbn [NewEgress e_pool]. rewrite (proj2 (Z.ltb_lt _ _) Hf). eauto.
  - intros c. cbn [NewEgress e_coal]. destruct (s_coalesce fw); [|done].
    destruct (1 <? _); [|done]. intros [= <-]. split; [apply newCoalBuffer_ok|constructor].
  - cbn [NewEgress e_msgs]. by apply Forall_replicate.
  - intros c. cbn [NewEgress e_coal]. destruct (s_coalesce fw); [|done].
    destruct (1 <? _); [|done]. by intros [= <-].
Qed.

(** Attaching tees and marking the lane reliable touch neither. *)
Definition fresh_egress fw e : Prop := egr_ok fw e ∧ drained e.

Lemma fresh_tee fw a owned e : fresh_egress fw e → fresh_egress fw (EnableRetryTee a owned e).
Proof. intros [[[] ? ? ? ?] []]. do 3 (split; try done). Qed.

Lemma fresh_mirror fw a owned e : fresh_egress fw e → fresh_egress fw (EnableLocalMirror a owned e).
Proof. intros [[[] ? ? ? ?] []]. do 3 (split; try done). Qed.

Lemma fresh_reliable fw v e : fresh_egress fw e → fresh_egress fw (SetReliable v e).
Proof. intros [[[] ? ? ? ?] []]. do 3 (split; try done). Qed.

Definition host_ok {V} fw (h : Host V) : Prop := world_ok fw (h_world h).

(** Every egress of the host has this. *)
Definition host_egr {V} (P : Egress → Prop) (h : Host V) : Prop := ∃ e, w_egr (h_world h) = Some e ∧ P e.

Lemma host_egr_intro {V} fw P (h : Host V) :
  host_ok fw h → (∀ e, w_egr (h_world h) = Some e → P e) → host_egr P h.
Proof. intros Hh HP. destruct (wo_present _ _ Hh) as [e He]. exists e. auto. Qed.

Lemma lift_safe {V A} fw (m : M A) Q (h : Host V) :
  safe fw m Q → host_ok fw h → ∃ h', lift m h = Some h' ∧ host_ok fw h' ∧ h_net h' = h_net h.
Proof.
  intros Hm Hh. specialize (Hm _ Hh). unfold wp in Hm. unfold lift.
  destruct (m (h_world h)) as [[x w']|]; [|done]. destruct Hm as [Hw _]. eexists. split; [reflexivity|done].
Qed.

Lemma egr_Flush_ok {V} fw (h : Host V) :
  host_ok fw h → host_egr coal_empty h → ∃ h', egr_Flush h = Some h' ∧ host_ok fw h' ∧ host_egr drained h'.
Proof.
  intros Hh (e & He & Hc). unfold egr_Flush. rewrite He. pose proof (wo_egr fw _ Hh e He) as Ho.
  destruct (Flush_inline fw (h_net h) e Ho) as (evs & k & ->). eexists. split; [reflexivity|].
  split; [by apply world_ok_egr, egr_ok_flush|]. eexists. split; [reflexivity|]. by apply flush_reset_drained.
Qed.

Lemma drain_ok fw s via (h : Host (sink_state s)) :
  host_ok fw h → host_egr coal_empty h → ∃ h', drain s via h = Some h' ∧ host_ok fw h' ∧ host_egr drained h'.
Proof.
  intros Hh Hc. unfold drain. destruct via; [|by apply egr_Flush_ok]. eexists. split; [reflexivity|].
  destruct Hc as (e & He & Hc). pose proof (wo_egr fw _ Hh e He) as Ho. unfold egr_FlushVia. rewrite He.
  assert (Hw : world_ok fw (add_events (FlushVia (sink_write s) (h_sink h) e).1.2 (h_world h)
    <| w_egr := Some (FlushVia (sink_write s) (h_sink h) e).1.1 |>)) by (by apply world_ok_egr, egr_ok_flush).
  destruct (sink_flush s); (split; [exact Hw|]); (eexists; split; [reflexivity|by apply flush_reset_drained]).
Qed.

(** After [FlushCoalesced] nothing waits to be bundled. *)
Lemma safe_FlushCoalesced_empties fw worker w :
  world_ok fw w →
  wp (FlushCoalesced fw worker) w (λ _ w', world_ok fw w' ∧ ∀ e, w_egr w' = Some e → coal_empty e).
Proof.
  intros Hw. destruct (wo_present _ _ Hw) as [e He]. unfold FlushCoalesced. apply wp_bind, wp_gets. rewrite He.
  pose proof (wo_egr fw w Hw e He) as Ho.
  destruct (e_coal e) as [c|] eqn:Ec; [|apply wp_ret; split; [done|]; intros e' ?; simplify_eq; intros c; congruence].
  destruct (c_buckets c) as [|bk bks] eqn:Eb.
  { apply wp_ret. split; [done|]. intros e' ? c' Hc'. congruence. }
  destruct (eo_coal fw e Ho c Ec) as [(_ & Hm & _) Hb]. rewrite Eb in Hb.
  apply wp_bind. eapply wp_mono; [apply safe_flush_buckets; [lia|done|done]|]. intros _ w1 [H1 _].
  destruct (wo_present _ _ H1) as [e1 E1]. apply (wp_on_egress _ _ _ e1 _ E1); [done|]. split.
  - pose proof (egr_ok_coal_reset fw e1 (wo_egr fw w1 H1 e1 E1)) as He1. destruct H1. split; try done. by intros ? [= <-].
  - intros e' [= <-] c'. cbn. destruct (e_coal e1); [|done]. by intros [= <-].
Qed.

Lemma FlushCoalesced_empties {V} fw worker (h : Host V) :
  host_ok fw h → ∃ h', lift (FlushCoalesced fw worker) h = Some h' ∧ host_ok fw h' ∧ host_egr coal_empty h'.
Proof.
  intros Hh. pose proof (safe_FlushCoalesced_empties fw worker _ Hh) as Hw. unfold wp in Hw. unfold lift.
  destruct (FlushCoalesced fw worker (h_world h)) as [[x w']|]; [|done]. destruct Hw as [Hw Hc].
  eexists. split; [reflexivity|]. split; [done|]. by apply (host_egr_intro fw).
Qed.

Lemma tcp_flushEgr_ok fw s via (h : Host (sink_state s)) :
  host_ok fw h → ∃ h', tcp_flushEgr fw s via h = Some h' ∧ host_ok fw h' ∧ host_egr drained h'.
Proof.
  intros Hh. unfold tcp_flushEgr. destruct (wo_present _ _ Hh) as [e ->].
  destruct (FlushCoalesced_empties fw (-1) h Hh) as (h1 & -> & H1 & Hc). simpl. by apply drain_ok.
Qed.

Lemma lane_record_ok {V} fw rec ev (h : Host V) : host_ok fw h → host_ok fw (lane_record rec ev h).
Proof. unfold lane_record. destruct rec; [|done]. intros []. by split. Qed.

(** ** Performing *)

Definition action_ok (a : Action) : Prop :=
  match a with ADispatch raw _ => Forall is_byte raw | _ => True end.

Section Perform.
Context (fw : Settings) {V : Type} (rec : bool) (hooks : Z) (remote : option NetAddr) (announceName : string)
  (flush : Host V → option (Host V)).
Hypothesis Hname : announceName ≠ "".
Hypothesis Hflush : ∀ h, host_ok fw h → ∃ h', flush h = Some h' ∧ host_ok fw h'.

Lemma perform_ok a h :
  action_ok a → host_ok fw h →
  ∃ h', perform fw rec hooks remote announceName flush a h = Some h' ∧ host_ok fw h'.
Proof.
  intros Ha Hh. destruct a; simpl in *; try by eauto.
  - eexists. split; [reflexivity|]. by apply lane_record_ok.
  - destruct (lift_safe fw _ _ h (safe_DispatchClass fw raw remote (-1) class) Hh) as (h' & ? & ? & _); eauto.
  - destruct (lift_safe fw _ _ h (safe_dispatchBareTx fw tx remote (-1)) Hh) as (h' & ? & ? & _); eauto.
  - unshelve epose proof (lift_safe fw (ForwardControl fw raw GroupSubtreeGroupAnnounce announceName
      (s_egressPort fw)) (λ _, True) h _ Hh) as (h' & ? & ? & _); [|eauto].
    apply safe_queue; [done|]. intros e He. by apply egr_ok_enqueue, dst_ok_label.
Qed.

Lemma perform_all_ok acts h :
  Forall action_ok acts → host_ok fw h →
  ∃ h', perform_all fw rec hooks remote announceName flush acts h = Some h' ∧ host_ok fw h'.
Proof.
  intros Ha. revert h. induction Ha as [|a acts Ha Has IH]; intros h Hh; [by exists h|].
  destruct (perform_ok a h Ha Hh) as (h1 & E1 & H1). simpl. rewrite E1. simpl. by apply IH.
Qed.
End Perform.
End Facts.
