(* ===== verification/Worker.v ===== *)
(** * UDP workers (worker/worker.go: Worker)

    The receive loop of one SO_REUSEPORT socket: every datagram of a receive
    batch is dispatched, then the coalescing buffer is packed and the egress
    flushed, before the next receive reuses the buffers. *)

From S2P Require Import Prelude Common Chains BatchWriter RetryTee Coal Egress RateLimit Machine Forwarder Beef Coalesce Dispatch Lane.

Definition RecvBufSize : Z := 65536.
Definition DefaultRecvBufBytes : Z := 4 * 1024 * 1024.
Definition DefaultRecvBatch : Z := 32.

(** The fields a worker's loop reads; the forwarder, the interfaces and the
    tee addresses, which it only passes on when it opens its egress, are
    arguments of the operations that use them. *)
Record Worker := mkWorker {
  wk_id : Z; wk_rec : bool; wk_recvBatch : Z; wk_recvBufBytes : Z; wk_class : IngressClass }.

#[export] Instance eta_Worker : EtaExpand Worker := {| eta_of := λ x,
  mkWorker (wk_id x) (wk_rec x) (wk_recvBatch x) (wk_recvBufBytes x) (wk_class x) |}.

Definition NewWorker (id : Z) (rec : bool) : Worker :=
  mkWorker id rec DefaultRecvBatch DefaultRecvBufBytes IngressPrivileged.

Definition SetRecvBatch (n : Z) (wk : Worker) : Worker := wk <| wk_recvBatch := if n <? 1 then 1 else n |>.
Definition SetRecvBufBytes (n : Z) (wk : Worker) : Worker := if n <? 1 then wk else wk <| wk_recvBufBytes := n |>.
Definition SetIngressClass (c : IngressClass) (wk : Worker) : Worker := wk <| wk_class := c |>.

(** A received datagram: its sender and the bytes of its slot's buffer it
    filled. *)
Record Datagram := mkDatagram { dg_src : option NetAddr; dg_data : bytes }.

(** What [ReadBatch] returns; an error is either that of a closed socket or
    another one. *)
Inductive Recv := Received (ds : list Datagram) | RecvClosed | RecvError.

(** The errors a receive or an accept can end with, as far as [isClosedErr]
    looks: a chain of wrapped errors ending in an errno or not. *)
Inductive GoErr := ErrClosed | GErrno (code : Z) | GWrap (e : GoErr) | GLeaf (msg : string).

Definition EBADF : Z := 9.
Definition EINVAL : Z := 22.

(** [errors.Is(err, net.ErrClosed)]. *)
Fixpoint is_net_closed (e : GoErr) : bool :=
  match e with ErrClosed => true | GWrap e => is_net_closed e | _ => false end.

Definition unwrap (e : GoErr) : option GoErr := match e with GWrap e => Some e | _ => None end.

Fixpoint isErrno (e : GoErr) (target : Z) : bool :=
  match e with
  | GErrno code => code =? target
  | GWrap e => isErrno e target
  | _ => false
  end.

Definition isClosedErr (err : option GoErr) : bool :=
  match err with
  | None => false
  | Some e => is_net_closed e || isErrno e EBADF || isErrno e EINVAL
  end.

Section Run.
Context {SC : ShardCommon} {RT : GoRuntime} {K : Kernel}.
Context (fw : Settings) (wk : Worker).

Definition worker_record (ev : string → Event) (h : Host ()) : Host () :=
  match w_egr (h_world h) with
  | Some e => match e_targets e with t :: _ => lane_record (wk_rec wk) (ev t) h | [] => h end
  | None => h
  end.

Definition worker_datagram (d : Datagram) (h : Host ()) : option (Host ()) :=
  let n := Zlen (dg_data d) in
  if n =? RecvBufSize then Some (worker_record (λ t, EvPacketDropped t (wk_id wk) "truncated") h)
  else
    lift (DispatchClass fw (dg_data d) (dg_src d) (wk_id wk) (wk_class wk))
      (worker_record (λ t, EvPacketReceived t (wk_id wk) n) h).

Fixpoint worker_datagrams (ds : list Datagram) (h : Host ()) : option (Host ()) :=
  match ds with
  | [] => Some h
  | d :: ds => h ← worker_datagram d h; worker_datagrams ds h
  end.

(** One receive batch. *)
Definition worker_batch (ds : list Datagram) (h : Host ()) : option (Host ()) :=
  h ← worker_datagrams ds h;
  h ← lift (FlushCoalesced fw (wk_id wk)) h;
  egr_Flush h.

(** The receive loop over what the socket returns until it is closed. *)
Fixpoint worker_loop (rs : list Recv) (h : Host ()) : option (Host ()) :=
  match rs with
  | [] | RecvClosed :: _ => Some h
  | RecvError :: rs => worker_loop rs (worker_record (λ t, EvIngressError t (wk_id wk)) h)
  | Received ds :: rs => h ← worker_batch ds h; worker_loop rs h
  end.

(** The egress of a worker, with the tees that could be dialled. *)
Definition udp_egress (targets : list string) (tee mirror : option UDPAddr) : Egress :=
  let e := NewEgress (Some (s_fragDataSize fw, s_coalesce fw, s_coalesceMaxMembers fw)) targets
    (wk_recvBatch wk) (wk_rec wk) in
  let e := match tee with Some a => EnableRetryTee a true e | None => e end in
  match mirror with Some a => EnableLocalMirror a true e | None => e end.

(** [Run] once its sockets are open: the loop, then the deferred calls, the
    mirror and the tee closed before the last flush. *)
Definition worker_Run (rs : list Recv) (h : Host ()) : option (Host ()) :=
  h ← worker_loop rs h;
  let close := λ e, e <| e_mirror ::= fmap tee_close |> <| e_tee ::= fmap tee_close |> in
  egr_Flush (h <| h_world ::= λ w, w <| w_egr ::= fmap close |> |>).
End Run.
