(* ===== verification/WorkerProps.v ===== *)
(** * Properties of the UDP workers *)

From S2P Require Import Prelude Common Chains BatchWriter RetryTee Coal Egress EgressFacts RateLimit SubtreeRoot Machine Forwarder Beef Coalesce Dispatch ForwarderFacts Lane LaneFacts Worker Toy ToyLaws ToyKernel DispatchProps.

Section Props.
Context {SC : ShardCommon} {SL : ShardLaws} {RT : GoRuntime} {K : Kernel}.
Implicit Types (fw : Settings) (wk : Worker) (h : Host ()).

(** What a worker starts with. *)
Definition worker_start fw wk (env : Env) (targets : list string) (tee mirror : option UDPAddr)
    (clock : Z) (k : KState) : Host () :=
  mkHost (newWorld env (Some (udp_egress fw wk targets tee mirror)) clock) k () [].

Definition recv_ok (r : Recv) : Prop :=
  match r with Received ds => Forall (λ d, Forall is_byte (dg_data d)) ds | _ => True end.

Lemma udp_egress_ok fw wk targets tee mirror : fresh_egress fw (udp_egress fw wk targets tee mirror).
Proof.
  pose proof (egr_ok_New fw targets (wk_recvBatch wk) (wk_rec wk)). unfold udp_egress.
  destruct tee, mirror; auto using fresh_tee, fresh_mirror.
Qed.

Lemma worker_record_ok fw wk ev h : host_ok fw h → host_ok fw (worker_record wk ev h).
Proof.
  intros Hh. unfold worker_record. destruct (w_egr (h_world h)) as [e|]; [|done].
  destruct (e_targets e); [done|]. by apply lane_record_ok.
Qed.

Lemma worker_record_egr wk ev h : w_egr (h_world (worker_record wk ev h)) = w_egr (h_world h).
Proof.
  unfold worker_record. destruct (w_egr (h_world h)) as [e|] eqn:E; [|done].
  destruct (e_targets e); [done|]. unfold lane_record. by destruct (wk_rec wk).
Qed.

Lemma worker_datagrams_ok fw wk ds h :
  Forall (λ d, Forall is_byte (dg_data d)) ds → host_ok fw h →
  ∃ h', worker_datagrams fw wk ds h = Some h' ∧ host_ok fw h'.
Proof.
  intros Hds. revert h. induction Hds as [|d ds Hd Hds IH]; intros h Hh; [by exists h|].
  cbn [worker_datagrams]. unfold worker_datagram. cbv zeta. destruct (_ =? RecvBufSize).
  - apply IH. by apply worker_record_ok.
  - destruct (lift_safe fw _ _ _ (safe_DispatchClass fw (dg_data d) (dg_src d) (wk_id wk) (wk_class wk))
      (worker_record_ok fw wk (λ t, EvPacketReceived t (wk_id wk) (Zlen (dg_data d))) h Hh)) as (h1 & -> & H1 & _).
    simpl. by apply IH.
Qed.

Lemma worker_batch_ok fw wk ds h :
  Forall (λ d, Forall is_byte (dg_data d)) ds → host_ok fw h →
  ∃ h', worker_batch fw wk ds h = Some h' ∧ host_ok fw h' ∧ host_egr drained h'.
Proof.
  intros Hds Hh. unfold worker_batch. destruct (worker_datagrams_ok fw wk ds h Hds Hh) as (h1 & -> & H1).
  simpl. destruct (FlushCoalesced_empties fw (wk_id wk) h1 H1) as (h2 & -> & H2 & Hc). simpl.
  by apply egr_Flush_ok.
Qed.

Lemma worker_loop_ok fw wk rs h :
  Forall recv_ok rs → host_ok fw h → host_egr drained h →
  ∃ h', worker_loop fw wk rs h = Some h' ∧ host_ok fw h' ∧ host_egr drained h'.
Proof.
  intros Hrs. revert h. induction Hrs as [|r rs Hr Hrs IH]; intros h Hh Hd; [by exists h|].
  destruct r as [ds| |]; cbn [worker_loop].
  - destruct (worker_batch_ok fw wk ds h Hr Hh) as (h1 & -> & H1 & D1). simpl. by apply IH.
  - by exists h.
  - apply IH; [by apply worker_record_ok|]. destruct Hd as (e & He & Hd). exists e. by rewrite worker_record_egr.
Qed.

(** Flushing a drained egress reaches no socket. *)
Lemma flushTargets_empty reliable rec i (k : KState) targets qs meta :
  Forall (λ q : list Message, q = []) qs → (flushTargets reliable rec i k targets qs meta).2 = k.
Proof.
  intros Hq. revert i targets. induction Hq as [|q qs -> Hq IH]; intros i [|t targets]; try done. simpl. apply IH.
Qed.

(** A UDP worker never stops for anything it receives, and never carries
    a datagram over to the next receive.  Whatever batches of datagrams and
    socket errors its socket returns, the loop runs on; whenever it receives
    again, every queue, every pooled buffer and the coalescing buffer of its
    egress are empty, so the receive buffers it is about to overwrite are
    referenced by nothing; and the flush it ends with, which runs after its
    tees are closed, has nothing left to write. *)
Theorem worker_drains_every_batch fw wk env targets tee mirror clock k rs :
  Forall recv_ok rs →
  ∃ h', worker_loop fw wk rs (worker_start fw wk env targets tee mirror clock k) = Some h' ∧
    host_egr drained h' ∧
    ∃ h'', worker_Run fw wk rs (worker_start fw wk env targets tee mirror clock k) = Some h'' ∧
      h_net h'' = h_net h'.
Proof.
  intros Hrs. destruct (udp_egress_ok fw wk targets tee mirror) as [Ho Hd].
  destruct (worker_loop_ok fw wk rs (worker_start fw wk env targets tee mirror clock k) Hrs) as (h' & E & Hh & D).
  { by apply newWorld_ok. }
  { by eexists. }
  exists h'. split_and!; [done..|]. unfold worker_Run. rewrite E. simpl.
  destruct D as (e & He & [Hm Hme Hp Hc]). unfold egr_Flush. cbn. rewrite He. cbn.
  unfold Flush. cbn. rewrite (eo_inline fw e (wo_egr fw _ Hh e He)). cbn. eexists. split; [reflexivity|]. cbn.
  by apply flushTargets_empty.
Qed.
End Props.

(** ** Witness *)

#[local] Existing Instance exactRuntime.

Definition toy_recvs : list Recv :=
  [Received [mkDatagram toy_source toy_good; mkDatagram toy_source [1; 2]]; RecvError;
   Received [mkDatagram toy_source toy_good]].

Lemma worker_drains_every_batch_witness :
  ∃ h', worker_loop (K := toyKernel) toy_fw (NewWorker 0 true) toy_recvs
      (worker_start (K := toyKernel) toy_fw (NewWorker 0 true) ∅ ["eth0"; "eth1"] None None 100 []) = Some h' ∧
    host_egr drained h'.
Proof.
  destruct (worker_drains_every_batch (K := toyKernel) toy_fw (NewWorker 0 true) ∅ ["eth0"; "eth1"] None None 100 []
    toy_recvs) as (h' & E & D & _).
  - assert (Hs : Forall is_byte [1; 2]) by (repeat constructor; unfold is_byte; lia).
    pose proof toy_good_bytes. by repeat constructor.
  - exists h'. split; [exact E|exact D].
Defined.
