(* ===== verification/Stream.v ===== *)
(** * Connection streams (worker/tcp.go: tcpBatcher, flushingReader)

    A connection as its reader sees it: what the peer's bytes arrive as, the
    [bufio.Reader] over it, and the batcher that drains the connection's
    egress before any read that could block.  A reader is a computation over
    the connection that produces the actions it takes. *)

From S2P Require Import Prelude Common Chains BatchWriter RetryTee Coal Egress RateLimit Machine Forwarder Beef Coalesce Dispatch Lane.

Definition tcpBufSize : Z := 64 * 1024.
Definition maxTCPBatch : Z := 64.

(** What a kernel read finds: some bytes of the stream, or that nothing came
    for as long as a read deadline lasts.  After the last one the peer has
    closed (or the connection broke: the readers treat both alike). *)
Inductive Arrival := Arrived (b : bytes) | Silence.

Record Conn := mkConn { cn_in : list Arrival; cn_buf : bytes; cn_pending : Z }.

#[export] Instance eta_Conn : EtaExpand Conn :=
  {| eta_of := λ x, mkConn (cn_in x) (cn_buf x) (cn_pending x) |}.

Definition arrived (ins : list Arrival) : bytes :=
  concat ((λ a, match a with Arrived b => b | Silence => [] end) <$> ins).

(** The bytes of the stream not yet consumed. *)
Definition content (c : Conn) : bytes := cn_buf c ++ arrived (cn_in c).

(** ** The reader monad *)

Definition R (A : Type) : Type := Conn → (A * Conn) * list Action.

#[export] Instance R_ret : MRet R := λ A x c, ((x, c), []).
#[export] Instance R_bind : MBind R := λ A B f m c,
  let r := m c in let r' := f r.1.1 r.1.2 in (r'.1, r.2 ++ r'.2).

Definition act (a : Action) : R () := λ c, (((), c), [a]).
Definition rgets {A} (f : Conn → A) : R A := λ c, ((f c, c), []).
Definition rmodify (f : Conn → Conn) : R () := λ c, (((), f c), []).

(** ** Kernel reads *)

Inductive ReadResult := RBytes (b : bytes) | RTimeout | REnd.

(** [conn.Read] into [cap] bytes: at least one byte, never more than one
    arrival holds. *)
Fixpoint next_arrival (cap : nat) (deadline : bool) (ins : list Arrival) : ReadResult * list Arrival :=
  match ins with
  | [] => (REnd, [])
  | Silence :: ins => if deadline then (RTimeout, ins) else next_arrival cap deadline ins
  | Arrived [] :: ins => next_arrival cap deadline ins
  | Arrived b :: ins => (RBytes (take cap b), Arrived (drop cap b) :: ins)
  end.

Definition conn_Read (cap : nat) (deadline : bool) : R ReadResult := λ c,
  let r := next_arrival cap deadline (cn_in c) in
  ((r.1, c <| cn_in := r.2 |>), [ARead deadline]).

(** [tcpBatcher]. *)
Definition bat_flush : R () :=
  p ← rgets cn_pending;
  if 0 <? p then act AFlush;; rmodify (λ c, c <| cn_pending := 0 |>) else mret ().

Definition bat_add : R () :=
  rmodify (λ c, c <| cn_pending ::= λ p, p + 1 |>);;
  p ← rgets cn_pending;
  if maxTCPBatch <=? p then bat_flush else mret ().

Definition to_bytes (r : ReadResult) : option bytes :=
  match r with RBytes b => Some b | _ => None end.

(** [flushingReader.Read]. *)
Definition flushing_Read (linger : Z) (cap : nat) : R (option bytes) :=
  p ← rgets cn_pending;
  if (0 <? linger) && (0 <? p) then
    r ← conn_Read cap true;
    match r with
    | RTimeout => bat_flush;; r ← conn_Read cap false; mret (to_bytes r)
    | _ => mret (to_bytes r)
    end
  else bat_flush;; r ← conn_Read cap false; mret (to_bytes r).

(** ** bufio.Reader *)

Section Bufio.
Context (linger : Z).

Definition br_fill : R (option ()) :=
  buf ← rgets cn_buf;
  r ← flushing_Read linger (Z.to_nat tcpBufSize - length buf);
  match r with
  | Some b => rmodify (λ c, c <| cn_buf ::= λ l, l ++ b |>);; mret (Some ())
  | None => mret None
  end.

(** [Peek n]: every [br_fill] adds a byte at least, so [n] of them do. *)
Fixpoint br_Peek_loop (fuel n : nat) : R (option bytes) :=
  buf ← rgets cn_buf;
  if (n <=? length buf)%nat then mret (Some (take n buf))
  else
    match fuel with
    | O => mret None
    | S fuel =>
        r ← br_fill;
        match r with Some _ => br_Peek_loop fuel n | None => mret None end
    end.

Definition br_Peek (n : nat) : R (option bytes) := br_Peek_loop n n.

(** [Read] into [n] bytes: what is buffered, or one read of the connection,
    past the buffer when the destination is larger than it. *)
Definition br_Read (n : nat) : R (option bytes) :=
  buf ← rgets cn_buf;
  match buf with
  | [] =>
      if tcpBufSize <=? Z.of_nat n then flushing_Read linger n
      else
        r ← flushing_Read linger (Z.to_nat tcpBufSize);
        match r with
        | Some b => rmodify (λ c, c <| cn_buf := drop n b |>);; mret (Some (take n b))
        | None => mret None
        end
  | _ => rmodify (λ c, c <| cn_buf := drop n buf |>);; mret (Some (take n buf))
  end.

(** [io.ReadFull] of [n] bytes: each read gets one at least. *)
Fixpoint ReadFull_loop (fuel n : nat) : R (option bytes) :=
  match n, fuel with
  | O, _ => mret (Some [])
  | _, O => mret None
  | _, S fuel =>
      b ← br_Read n;
      match b with
      | None => mret None
      | Some b =>
          rest ← ReadFull_loop fuel (n - length b);
          mret (app b <$> rest)
      end
  end.

Definition ReadFull (n : nat) : R (option bytes) := ReadFull_loop n n.
End Bufio.

(** ** Object readers

    [objfmt.Reader] is outside the repository.  What its [Next] does with the
    bytes it has read so far is a parameter: it has a whole object at their
    front, refuses them, or reads more. *)

Inductive ReaderErr := ErrObjectTooLarge | ErrMalformedObject.

Inductive ReaderStep := NeedMore (n : nat) | Whole (n : nat) | Refuse (e : ReaderErr).

Class ObjReader := {
  DefaultMaxObject : Z;
  reader_step : ObjClass → Z → bytes → ReaderStep }.

(** [None]: end of the stream or a read error. *)
Inductive NextObject := GotObject (obj : bytes) | ReadError (e : option ReaderErr).

Section Next.
Context `{ObjReader} (read : nat → R (option bytes)) (class : ObjClass) (maxObject : Z).

(** [Next], from the unconsumed bytes [win] the reader holds; it returns the
    window left. *)
Fixpoint rd_Next_loop (fuel : nat) (win : bytes) : R (NextObject * bytes) :=
  match reader_step class maxObject win with
  | Whole n => mret (GotObject (take n win), drop n win)
  | Refuse e => mret (ReadError (Some e), win)
  | NeedMore n =>
      match fuel with
      | O => mret (ReadError None, win)
      | S fuel =>
          b ← read n;
          match b with
          | Some b => rd_Next_loop fuel (win ++ b)
          | None => mret (ReadError None, win)
          end
      end
  end.

(** Every read gets a byte at least: as many as the stream has left do. *)
Definition rd_Next (win : bytes) : R (NextObject * bytes) :=
  n ← rgets (λ c, length (content c)); rd_Next_loop (S n) win.
End Next.
