(* ===== verification/StreamFacts.v ===== *)
(** * Facts about connection streams

    What a read returns depends on the bytes of the stream and not on how
    they arrive, and no read that may block happens with a batch pending. *)

From S2P Require Import Prelude Common Chains BatchWriter RetryTee Coal Egress RateLimit Machine Forwarder Beef Coalesce Dispatch Lane Stream.

(** ** Traces *)

(** The actions other than draining and waiting. *)
Definition is_visible (a : Action) : bool := match a with AFlush | ARead _ => false | _ => true end.
Definition visible (acts : list Action) : list Action := filter (λ a, is_visible a = true) acts.

Lemma visible_app a b : visible (a ++ b) = visible a ++ visible b.
Proof. apply list.filter_app. Qed.

Lemma visible_cons a l : is_visible a = true → visible (a :: l) = a :: visible l.
Proof. intros Ha. unfold visible. by rewrite filter_cons_True. Qed.

(** Hands a submission to the forwarder. *)
Definition submits (a : Action) : bool :=
  match a with ADispatch _ _ | ABareTx _ | AControl _ => true | _ => false end.

(** A monitor of the flush cadence: how many submissions are unflushed after
    [acts], given [n] before.  [None]: a read that may block was entered with
    one unflushed, or more than [maxTCPBatch] were. *)
Fixpoint held (n : Z) (acts : list Action) : option Z :=
  match acts with
  | [] => Some n
  | AFlush :: acts => held 0 acts
  | ARead false :: acts => if n =? 0 then held n acts else None
  | a :: acts =>
      if submits a then (if n + 1 <=? maxTCPBatch then held (n + 1) acts else None) else held n acts
  end.

Lemma held_app n a b : held n (a ++ b) = held n a ≫= λ n', held n' b.
Proof.
  revert n. induction a as [|x a IH]; intros n; [done|]. destruct x; simpl; try apply IH.
  4: destruct deadline; [apply IH|by destruct (n =? 0)].
  all: by destruct (n + 1 <=? maxTCPBatch).
Qed.

(** ** Triples for readers *)

Definition rspec {A} (m : R A) (c : Conn) (Q : A → Conn → list Action → Prop) : Prop :=
  Q (m c).1.1 (m c).1.2 (m c).2.

Lemma rspec_ret {A} (x : A) c (Q : A → Conn → list Action → Prop) : Q x c [] → rspec (mret x) c Q.
Proof. done. Qed.

Lemma rspec_bind {A B} (m : R A) (f : A → R B) c Q :
  rspec m c (λ x c' a, rspec (f x) c' (λ y c'' b, Q y c'' (a ++ b))) → rspec (m ≫= f) c Q.
Proof. done. Qed.

Lemma rspec_mono {A} (m : R A) c (Q Q' : A → Conn → list Action → Prop) :
  rspec m c Q → (∀ x c' a, Q x c' a → Q' x c' a) → rspec m c Q'.
Proof. unfold rspec. auto. Qed.

Lemma rspec_act a c (Q : () → Conn → list Action → Prop) : Q () c [a] → rspec (act a) c Q.
Proof. done. Qed.

Lemma rspec_gets {A} (f : Conn → A) c (Q : A → Conn → list Action → Prop) : Q (f c) c [] → rspec (rgets f) c Q.
Proof. done. Qed.

Lemma rspec_modify f c (Q : () → Conn → list Action → Prop) : Q () (f c) [] → rspec (rmodify f) c Q.
Proof. done. Qed.

(** Waiting for the peer: nothing visible happens, the cadence is kept, and
    what was pending is kept or flushed. *)
Record quiet (c c' : Conn) (acts : list Action) : Prop := mkQuiet {
  qu_visible : visible acts = [];
  qu_held : held (cn_pending c) acts = Some (cn_pending c');
  qu_pending : cn_pending c' = cn_pending c ∨ cn_pending c' = 0 }.

Lemma quiet_same c c' : cn_pending c' = cn_pending c → quiet c c' [].
Proof. intros E. split; [done|by rewrite E|by left]. Qed.

Lemma quiet_trans c c1 c2 a b : quiet c c1 a → quiet c1 c2 b → quiet c c2 (a ++ b).
Proof.
  intros [V1 H1 P1] [V2 H2 P2]. split.
  - by rewrite visible_app, V1, V2.
  - by rewrite held_app, H1.
  - destruct P1, P2; first [left; congruence | right; congruence].
Qed.

Lemma quiet_nonneg c c' acts : quiet c c' acts → 0 ≤ cn_pending c → 0 ≤ cn_pending c'.
Proof. intros [_ _ [-> | ->]]; lia. Qed.

(** ** Kernel reads *)

Lemma next_arrival_spec cap deadline ins :
  (0 < cap)%nat →
  let r := next_arrival cap deadline ins in
  match r.1 with
  | RBytes b => b ≠ [] ∧ (length b ≤ cap)%nat ∧ arrived ins = b ++ arrived r.2
  | RTimeout => deadline = true ∧ arrived ins = arrived r.2
  | REnd => arrived ins = [] ∧ arrived r.2 = []
  end.
Proof.
  intros Hc. induction ins as [|a ins IH]; [done|]. destruct a as [b|].
  - destruct b as [|x b]; [exact IH|]. cbn [next_arrival fst snd]. split_and!.
    + destruct cap; [lia|done].
    + rewrite length_take. lia.
    + unfold arrived. cbn [fmap list_fmap concat]. by rewrite app_assoc, take_drop.
  - destruct deadline; [done|exact IH].
Qed.

Lemma bat_flush_spec c :
  0 ≤ cn_pending c →
  rspec bat_flush c (λ _ c' a, quiet c c' a ∧ cn_pending c' = 0 ∧ cn_in c' = cn_in c ∧ cn_buf c' = cn_buf c).
Proof.
  intros Hp. unfold bat_flush. apply rspec_bind, rspec_gets. destruct (Z.ltb_spec 0 (cn_pending c)).
  - apply rspec_bind, rspec_act, rspec_modify. split_and!; try done. split; simpl; auto.
  - apply rspec_ret. split_and!; try done; [by apply quiet_same|lia].
Qed.

(** What a read of the connection got. *)
Definition got (cap : nat) (r : option bytes) (ins ins' : list Arrival) : Prop :=
  match r with
  | Some b => b ≠ [] ∧ (length b ≤ cap)%nat ∧ arrived ins = b ++ arrived ins'
  | None => arrived ins = [] ∧ arrived ins' = []
  end.

Lemma conn_Read_final cap c :
  (0 < cap)%nat → cn_pending c = 0 →
  rspec (r ← conn_Read cap false; mret (to_bytes r)) c
    (λ r c' a, quiet c c' a ∧ cn_buf c' = cn_buf c ∧ got cap r (cn_in c) (cn_in c')).
Proof.
  intros Hc Hp. apply rspec_bind. unfold rspec at 1, conn_Read. cbn [fst snd].
  pose proof (next_arrival_spec cap false (cn_in c) Hc) as Hr. cbv zeta in Hr.
  apply rspec_ret. split_and!.
  - split; simpl; [done|by rewrite Hp|by left].
  - done.
  - cbn. unfold got. destruct (next_arrival cap false (cn_in c)) as [[b| |] ins']; simpl in *; try done. by destruct Hr.
Qed.

Lemma flushing_Read_spec linger cap c :
  (0 < cap)%nat → 0 ≤ cn_pending c →
  rspec (flushing_Read linger cap) c
    (λ r c' a, quiet c c' a ∧ cn_buf c' = cn_buf c ∧ got cap r (cn_in c) (cn_in c')).
Proof.
  intros Hc Hp. unfold flushing_Read. apply rspec_bind, rspec_gets. destruct (_ && _).
  - apply rspec_bind. unfold rspec at 1, conn_Read. cbn [fst snd].
    pose proof (next_arrival_spec cap true (cn_in c) Hc) as Hr. cbv zeta in Hr.
    destruct (next_arrival cap true (cn_in c)) as [res ins'] eqn:E. cbn [fst snd] in *.
    assert (Hq : ∀ ins2, quiet c (c <| cn_in := ins2 |>) [ARead true]) by (intros; by split; [| |left]).
    destruct res as [b| |]; [apply rspec_ret; by split_and!| |apply rspec_ret; by split_and!].
    apply rspec_bind. eapply rspec_mono; [by apply bat_flush_spec|]. intros _ c1 a1 (Q1 & P1 & I1 & B1).
    eapply rspec_mono; [by apply (conn_Read_final cap c1)|]. intros r c2 a2 (Q2 & B2 & G2).
    split_and!.
    + apply (quiet_trans c (c <| cn_in := ins' |>) c2 [ARead true]); [apply Hq|]. by eapply quiet_trans.
    + rewrite B2, B1. done.
    + rewrite I1 in G2. cbn in G2. unfold got in *. by rewrite (proj2 Hr).
  - apply rspec_bind. eapply rspec_mono; [by apply bat_flush_spec|]. intros _ c1 a1 (Q1 & P1 & I1 & B1).
    eapply rspec_mono; [by apply (conn_Read_final cap c1)|]. intros r c2 a2 (Q2 & B2 & G2).
    cbn [app]. split_and!; [by eapply quiet_trans|by rewrite B2|]. by rewrite <- I1.
Qed.

(** ** bufio *)

(** What a buffered read of up to [n] bytes got. *)
Definition took (n : nat) (r : option bytes) (c c' : Conn) : Prop :=
  match r with
  | Some b => b ≠ [] ∧ (length b ≤ n)%nat ∧ content c = b ++ content c'
  | None => content c = [] ∧ content c' = []
  end.

(** A way of reading: quiet, and it takes a front part of the stream. *)
Definition reads_front (read : nat → R (option bytes)) (I : Conn → Prop) : Prop :=
  ∀ n c, (0 < n)%nat → I c → rspec (read n) c (λ r c' a, quiet c c' a ∧ I c' ∧ took n r c c').

Definition nonneg_pending (c : Conn) : Prop := 0 ≤ cn_pending c.

Lemma tcpBufSize_pos : (0 < Z.to_nat tcpBufSize)%nat.
Proof. unfold tcpBufSize. lia. Qed.

(** Taking from a buffer [b ++ rest]. *)
Lemma took_take n b c c' rest :
  (0 < n)%nat → b ≠ [] → content c = b ++ rest → content c' = drop n b ++ rest → took n (Some (take n b)) c c'.
Proof.
  intros Hn Hb Hc Hc'. split_and!.
  - destruct n; [lia|by destruct b].
  - rewrite length_take. lia.
  - by rewrite Hc, Hc', app_assoc, take_drop.
Qed.

Lemma br_Read_front linger : reads_front (br_Read linger) nonneg_pending.
Proof.
  intros n c Hn Hp. unfold br_Read. apply rspec_bind, rspec_gets.
  destruct (cn_buf c) as [|x buf] eqn:Eb.
  - assert (Ec : ∀ c0, cn_buf c0 = [] → content c0 = arrived (cn_in c0)) by (intros c0 E0; unfold content; by rewrite E0).
    destruct (tcpBufSize <=? Z.of_nat n).
    + eapply rspec_mono; [by apply flushing_Read_spec|]. intros r c' a (Q & B & G). cbn [app].
      split_and!; [done|by eapply quiet_nonneg|]. unfold took. rewrite Eb in B.
      rewrite (Ec c), (Ec c') by done. exact G.
    + apply rspec_bind. eapply rspec_mono; [apply flushing_Read_spec; [apply tcpBufSize_pos|done]|].
      intros r c' a (Q & B & G). rewrite Eb in B. destruct r as [b|].
      * destruct G as (Hb & _ & G). apply rspec_bind, rspec_modify, rspec_ret. cbn [app]. rewrite !app_nil_r. split_and!.
        -- destruct Q. by split.
        -- by apply (quiet_nonneg _ _ _ Q).
        -- apply (took_take n b c _ (arrived (cn_in c'))); try done. by rewrite (Ec c).
      * apply rspec_ret. cbn [app]. rewrite app_nil_r. split_and!; [done|by eapply quiet_nonneg|]. unfold took. rewrite !Ec by done. exact G.
  - apply rspec_bind, rspec_modify, rspec_ret. split_and!.
    + by apply quiet_same.
    + done.
    + apply (took_take n _ c _ (arrived (cn_in c))); try done. unfold content. by rewrite Eb.
Qed.

Lemma ReadFull_loop_spec linger fuel n c :
  (n ≤ fuel)%nat → nonneg_pending c →
  rspec (ReadFull_loop linger fuel n) c (λ r c' a, quiet c c' a ∧
    if (n <=? length (content c))%nat then r = Some (take n (content c)) ∧ content c' = drop n (content c)
    else r = None).
Proof.
  revert n c. induction fuel as [|fuel IH]; intros [|n] c Hf Hp; try lia; cbn [ReadFull_loop].
  1,2: apply rspec_ret; split; [by apply quiet_same|by rewrite take_0, drop_0].
  apply rspec_bind. eapply rspec_mono; [by apply br_Read_front; [lia|]|]. intros r c1 a1 (Q1 & P1 & T1).
  destruct r as [b|].
  - destruct T1 as (Hb & Hlen & Hc). assert (Hb1 : (1 ≤ length b)%nat) by (destruct b; [done|simpl; lia]).
    apply rspec_bind. eapply rspec_mono; [apply IH; [lia|done]|]. intros r c2 a2 (Q2 & T2). apply rspec_ret.
    rewrite app_nil_r. split; [by eapply quiet_trans|]. rewrite Hc, length_app. revert T2.
    destruct (Nat.leb_spec (S n - length b) (length (content c1)));
      destruct (Nat.leb_spec (S n) (length b + length (content c1))); try lia.
    + intros [-> ->]. rewrite take_app, drop_app, (take_ge b), (drop_ge b) by lia. done.
    + by intros ->.
  - destruct T1 as [Hc _]. apply rspec_ret. rewrite app_nil_r, Hc. done.
Qed.

Lemma ReadFull_spec linger n c :
  nonneg_pending c →
  rspec (ReadFull linger n) c (λ r c' a, quiet c c' a ∧
    if (n <=? length (content c))%nat then r = Some (take n (content c)) ∧ content c' = drop n (content c)
    else r = None).
Proof. intros Hp. by apply ReadFull_loop_spec. Qed.

Lemma br_Peek_loop_spec linger fuel n c :
  (Z.of_nat n ≤ tcpBufSize) → (n - length (cn_buf c) ≤ fuel)%nat → nonneg_pending c →
  rspec (br_Peek_loop linger fuel n) c (λ r c' a, quiet c c' a ∧ nonneg_pending c' ∧
    r = (if (n <=? length (content c))%nat then Some (take n (content c)) else None) ∧
    (r ≠ None → content c' = content c)).
Proof.
  intros Hn. revert c. induction fuel as [|fuel IH]; intros c Hf Hp; cbn [br_Peek_loop];
    apply rspec_bind, rspec_gets; destruct (Nat.leb_spec n (length (cn_buf c))) as [Hl|Hl]; try lia.
  1,2: apply rspec_ret; split_and!; [by apply quiet_same|done| |done];
    unfold content; rewrite length_app; rewrite (proj2 (Nat.leb_le _ _)) by lia; by rewrite take_app_le.
  apply rspec_bind. unfold br_fill. apply rspec_bind, rspec_gets, rspec_bind.
  eapply rspec_mono; [apply flushing_Read_spec; [lia|done]|]. intros r c1 a1 (Q1 & B1 & G1).
  destruct r as [b|].
  - destruct G1 as (Hb & _ & G1). assert (Hb1 : (1 ≤ length b)%nat) by (destruct b; [done|simpl; lia]).
    apply rspec_bind, rspec_modify, rspec_ret. set (c2 := c1 <| cn_buf ::= _ |>).
    assert (Hc2 : content c2 = content c).
    { unfold content. rewrite G1. cbn. by rewrite B1, <- app_assoc. }
    assert (Q2 : quiet c c2 a1) by (destruct Q1; by split).
    eapply rspec_mono; [apply (IH c2)|].
    + cbn. rewrite B1, length_app. lia.
    + by eapply quiet_nonneg.
    + intros r c3 a3 (Q3 & P3 & E3 & C3). cbn [app]. rewrite app_nil_r, Hc2 in *.
      split_and!; [by eapply quiet_trans|done..].
  - destruct G1 as [G1 _]. apply rspec_ret, rspec_ret. cbn [app]. rewrite !app_nil_r.
    split_and!; [done|by eapply quiet_nonneg| |done]. unfold content. rewrite G1, app_nil_r.
    by rewrite (proj2 (Nat.leb_gt _ _)).
Qed.

Lemma br_Peek_spec linger n c :
  Z.of_nat n ≤ tcpBufSize → nonneg_pending c →
  rspec (br_Peek linger n) c (λ r c' a, quiet c c' a ∧ nonneg_pending c' ∧
    r = (if (n <=? length (content c))%nat then Some (take n (content c)) else None) ∧
    (r ≠ None → content c' = content c)).
Proof. intros Hn Hp. apply br_Peek_loop_spec; [done|lia|done]. Qed.

(** ** Object readers *)

(** What [objfmt.Reader] promises: a whole object is a non-empty front part
    of what was read, a request is for at least a byte, and what is decided
    does not change with more input, the formats being self-delimiting. *)
Class ReaderLaws {OR : ObjReader} : Prop := {
  reader_whole c m win n : reader_step c m win = Whole n → (1 ≤ n ≤ length win)%nat;
  reader_more c m win n : reader_step c m win = NeedMore n → (1 ≤ n)%nat;
  reader_stable c m win more :
    (∀ n, reader_step c m win ≠ NeedMore n) → reader_step c m (win ++ more) = reader_step c m win }.

(** The next object of a whole stream, and what follows it. *)
Definition next_object {OR : ObjReader} class maxObject (bs : bytes) : NextObject * bytes :=
  match reader_step class maxObject bs with
  | Whole n => (GotObject (take n bs), drop n bs)
  | Refuse e => (ReadError (Some e), bs)
  | NeedMore _ => (ReadError None, bs)
  end.

Section Next.
Context {OR : ObjReader} {RL : ReaderLaws} (read : nat → R (option bytes)) (I : Conn → Prop).
Context (class : ObjClass) (maxObject : Z).
Hypothesis Hread : reads_front read I.

Lemma rd_Next_loop_spec fuel win c :
  (length (content c) < fuel)%nat → I c →
  rspec (rd_Next_loop read class maxObject fuel win) c (λ r c' a, quiet c c' a ∧ I c' ∧
    let d := next_object class maxObject (win ++ content c) in
    r.1 = d.1 ∧ (∀ obj, r.1 = GotObject obj → r.2 ++ content c' = d.2)).
Proof.
  revert win c. induction fuel as [|fuel IH]; intros win c Hf Hi; [lia|]. cbn [rd_Next_loop].
  destruct (reader_step class maxObject win) as [n|n|e] eqn:Es.
  - apply rspec_bind. eapply rspec_mono; [apply Hread; [by eapply reader_more|done]|].
    intros r c1 a1 (Q1 & I1 & T1). destruct r as [b|].
    + destruct T1 as (Hb & _ & Hc). assert (Hb1 : (1 ≤ length b)%nat) by (destruct b; [done|simpl; lia]).
      eapply rspec_mono; [apply IH; [rewrite Hc, length_app in Hf; lia|done]|].
      intros r c2 a2 (Q2 & I2 & D). rewrite <- app_assoc, <- Hc in D.
      split_and!; [by eapply quiet_trans|done|apply D..].
    + destruct T1 as [Hc _]. apply rspec_ret. rewrite app_nil_r, Hc, app_nil_r. split_and!; try done.
      unfold next_object. by rewrite Es.
  - apply rspec_ret. split_and!; [by apply quiet_same|done|..]; unfold next_object;
      rewrite reader_stable by (by rewrite Es); rewrite Es; apply reader_whole in Es; cbn [fst snd].
    + by rewrite take_app_le by lia.
    + intros _ _. by rewrite drop_app_le by lia.
  - apply rspec_ret. split_and!; [by apply quiet_same|done|..]; unfold next_object;
      rewrite reader_stable by (by rewrite Es); rewrite Es; done.
Qed.

Lemma rd_Next_spec win c :
  I c →
  rspec (rd_Next read class maxObject win) c (λ r c' a, quiet c c' a ∧ I c' ∧
    let d := next_object class maxObject (win ++ content c) in
    r.1 = d.1 ∧ (∀ obj, r.1 = GotObject obj → r.2 ++ content c' = d.2)).
Proof. intros Hi. unfold rd_Next. apply rspec_bind, rspec_gets. cbn [app]. apply rd_Next_loop_spec; [lia|done]. Qed.
End Next.
