(* ===== verification/TcpIngress.v ===== *)
(** * TCP ingress (worker/tcp.go: TCPIngress)

    One accepted connection: its grammar is detected from its first bytes,
    then frames, submission records or bare transactions are read off the
    stream and handed to the forwarder. *)

From S2P Require Import Prelude Common Chains BatchWriter RetryTee Coal Egress RateLimit Machine Forwarder Beef Coalesce Dispatch Lane Stream.

Definition maxEgressPool : Z := 8.

Section Tcp.
Context {SC : ShardCommon} {RT : GoRuntime} {OR : ObjReader}.

(** The listener's settings a connection reads: the class gate, whether a
    recorder is attached, which admission hooks are set, the linger window
    and whether frames leave through a sink.  The forwarder, the interfaces
    and the tee addresses are arguments of the operations that use them. *)
Record TCPIngress := mkTCPIngress {
  ti_class : IngressClass; ti_rec : bool; ti_admit : bool; ti_connAdmit : bool; ti_coalesceLinger : Z; ti_via : bool }.

#[export] Instance eta_TCPIngress : EtaExpand TCPIngress := {| eta_of := λ x,
  mkTCPIngress (ti_class x) (ti_rec x) (ti_admit x) (ti_connAdmit x) (ti_coalesceLinger x) (ti_via x) |}.

Definition NewTCPIngress (rec : bool) : TCPIngress := mkTCPIngress IngressPrivileged rec false false 0 false.
Definition tcp_SetIngressClass (c : IngressClass) (ti : TCPIngress) : TCPIngress := ti <| ti_class := c |>.
Definition SetCoalesceLinger (d : Z) (ti : TCPIngress) : TCPIngress := ti <| ti_coalesceLinger := d |>.

(** A hook or a sink that is not nil. *)
Definition tcp_SetAdmitHook (fn : bool) (ti : TCPIngress) : TCPIngress := ti <| ti_admit := fn |>.
Definition tcp_SetConnAdmitHook (fn : bool) (ti : TCPIngress) : TCPIngress := ti <| ti_connAdmit := fn |>.
Definition tcp_SetFlushVia (fn : bool) (ti : TCPIngress) : TCPIngress := ti <| ti_via := fn |>.

(** [admitFor]: how many hooks the observer of a connection calls for one
    admission; each hook that is set is called once. *)
Definition ti_hooks (ti : TCPIngress) : Z := Z.b2z (ti_admit ti) + Z.b2z (ti_connAdmit ti).

Context (fw : Settings) (ti : TCPIngress) (remote : option NetAddr) (linger : Z).

(** The accounting every submission gets: bytes, then the admission hooks. *)
Definition account (n : Z) : R () :=
  act (ARecord (EvTCPBytesReceived n));; act (AAdmit 1 n).

(** The header and the declared payload length: 44 bytes for the legacy
    version, 92 for the others.  [None]: unsupported, or the stream ended. *)
Definition read_header (hdr : bytes) : R (option (bytes * Z)) :=
  let ver := byte_at 6 hdr in
  if ver =? FrameVerV1 then mret (Some (hdr, be_get (slice 40 44 hdr)))
  else if bool_decide (ver ∈ [FrameVerV2; FrameVerV4; FrameVerV5; FrameVerV6; FrameVerV9]) then
    ext ← ReadFull linger (Z.to_nat (HeaderSize - HeaderSizeLegacy));
    mret ((λ ext, (hdr ++ ext, be_get (slice 88 92 (hdr ++ ext)))) <$> ext)
  else mret None.

(** The declared length is bounded before anything is read against it. *)
Definition payload_refused (ver payLen : Z) : bool :=
  (payLen <? 0) || (DefaultMaxObject <? payLen) ||
  ((ver =? FrameVerV9) && (0 <? s_beefMaxObject fw) && (s_beefMaxObject fw <? payLen)).

(** One frame of a framed stream, as the action that hands it on and the
    bytes it took; [None] closes the connection. *)
Definition read_frame : R (option (Action * Z)) :=
  hdr ← ReadFull linger (Z.to_nat HeaderSizeLegacy);
  match hdr with
  | None => mret None
  | Some hdr =>
      if negb (be_get (slice 0 4 hdr) =? MagicBSV) then mret None
      else if byte_at 6 hdr =? MsgTypeSubtreeGroupAnnounce then
        ext ← ReadFull linger (Z.to_nat (SubtreeGroupAnnounceSize - HeaderSizeLegacy));
        mret ((λ ext, (AControl (hdr ++ ext), SubtreeGroupAnnounceSize)) <$> ext)
      else
        h ← read_header hdr;
        match h with
        | None => mret None
        | Some (hdr, payLen) =>
            if payload_refused (byte_at 6 hdr) payLen then mret None
            else
              pay ← ReadFull linger (Z.to_nat payLen);
              mret ((λ pay, (ADispatch (hdr ++ pay) (ti_class ti), Zlen hdr + payLen)) <$> pay)
        end
  end.

Fixpoint handleFramed_loop (fuel : nat) : R () :=
  match fuel with
  | O => mret ()
  | S fuel =>
      f ← read_frame;
      match f with
      | None => mret ()
      | Some (a, n) => account n;; act a;; bat_add;; handleFramed_loop fuel
      end
  end.

(** Every frame takes at least the legacy header: the bytes left bound the
    frames left. *)
Definition handleFramed : R () := n ← rgets (λ c, length (content c)); handleFramed_loop (S n).

Fixpoint handleBareConn_loop (fuel : nat) (win : bytes) : R () :=
  match fuel with
  | O => mret ()
  | S fuel =>
      r ← rd_Next (br_Read linger) ClassTx DefaultMaxObject win;
      match r with
      | (ReadError _, _) => mret ()
      | (GotObject obj, win) =>
          account (Zlen obj);; act (ABareTx obj);; bat_add;; handleBareConn_loop fuel win
      end
  end.

Definition handleBareConn : R () := n ← rgets (λ c, length (content c)); handleBareConn_loop (S n) [].

(** The read bound of a submission record. *)
Definition beef_read_bound : Z :=
  let bound := BEEFRecordBound fw remote in if 0 <? bound then bound else DefaultMaxObject.

Fixpoint handleBEEFConn_loop (fuel : nat) (win : bytes) : R () :=
  match fuel with
  | O => mret ()
  | S fuel =>
      r ← rd_Next (br_Read linger) ClassBEEF beef_read_bound win;
      match r with
      | (ReadError (Some ErrObjectTooLarge), _) => act (ARecord (EvBEEFSubmission "oversize"))
      | (ReadError _, _) => mret ()
      | (GotObject obj, win) =>
          account (Zlen obj);; act (ADispatch obj (ti_class ti));; bat_add;; handleBEEFConn_loop fuel win
      end
  end.

Definition handleBEEFConn : R () := n ← rgets (λ c, length (content c)); handleBEEFConn_loop (S n) [].

Definition tcp_handleConn : R () :=
  first ← br_Peek linger 4;
  match first with
  | None => mret ()
  | Some first =>
      if be_get (take 2 first) =? BEEFRecordTag then handleBEEFConn
      else if negb (be_get first =? MagicBSV) then handleBareConn
      else handleFramed
  end.
End Tcp.
Arguments TCPIngress : clear implicits.

(** ** The connection goroutine *)

Section Serve.
Context {SC : ShardCommon} {RT : GoRuntime} {K : Kernel} {OR : ObjReader}.

(** The pool slot of the [n]-th accepted connection. *)
Definition poolSize (procs : Z) : Z := Z.max 1 (Z.min procs maxEgressPool).
Definition poolSlot (n procs : Z) : Z := n mod poolSize procs.

(** The egress of a connection. *)
Definition conn_egress (fw : Settings) (targets : list string) (rec : bool)
    (tee mirror : option UDPAddr) : Egress :=
  let e := SetReliable true
    (NewEgress (Some (s_fragDataSize fw, s_coalesce fw, s_coalesceMaxMembers fw)) targets maxTCPBatch rec) in
  let e := match tee with Some a => EnableRetryTee a false e | None => e end in
  match mirror with Some a => EnableLocalMirror a false e | None => e end.

(** What the goroutine of a connection does: it reads the connection to its
    end and drains the tail; the linger applies only when the connection's
    egress coalesces. *)
Definition conn_actions (fw : Settings) (ti : TCPIngress) (remote : option NetAddr) (e : Egress)
    (ins : list Arrival) : list Action :=
  let linger := if CoalArmed e then ti_coalesceLinger ti else 0 in
  (tcp_handleConn fw ti remote linger (mkConn ins [] 0)).2 ++ [AFlush].

Definition conn_serve (fw : Settings) (ti : TCPIngress) (s : Sink) (remote : option NetAddr)
    (announceName : string) (ins : list Arrival) (h : Host (sink_state s)) : option (Host (sink_state s)) :=
  match w_egr (h_world h) with
  | None => None
  | Some e =>
      perform_all fw (ti_rec ti) (ti_hooks ti) remote announceName (tcp_flushEgr fw s (ti_via ti))
        (conn_actions fw ti remote e ins) h
  end.
End Serve.
