(* ===== verification/ObjectIngress.v ===== *)
(** * Object ingress (worker/objingress.go: ObjectIngress)

    A single-class push lane: whole objects are read off the connection,
    reframed for the fabric and dispatched, one flush per object. *)

From S2P Require Import Prelude Common Chains BatchWriter RetryTee Coal Egress RateLimit Machine Forwarder Beef Coalesce Dispatch Lane Stream.

Definition DefaultMaxObjectBytes : Z := 256 * 2 ^ 20.

(** The lane's settings: its class, its object bound, whether a recorder is
    attached, which admission hooks are set and whether frames leave
    through a sink; the rest are arguments of the operations that use them. *)
Record ObjectIngress := mkObjectIngress {
  oi_class : ObjClass; oi_maxObject : Z; oi_rec : bool; oi_admit : bool; oi_connAdmit : bool; oi_via : bool }.

#[export] Instance eta_ObjectIngress : EtaExpand ObjectIngress := {| eta_of := λ x,
  mkObjectIngress (oi_class x) (oi_maxObject x) (oi_rec x) (oi_admit x) (oi_connAdmit x) (oi_via x) |}.

Definition NewObjectIngress (rec : bool) (class : ObjClass) : ObjectIngress :=
  mkObjectIngress class DefaultMaxObjectBytes rec false false false.

Definition SetMaxObject (n : Z) (oi : ObjectIngress) : ObjectIngress :=
  if 0 <? n then oi <| oi_maxObject := n |> else oi.

(** A hook or a sink that is not nil. *)
Definition obj_SetAdmitHook (fn : bool) (oi : ObjectIngress) : ObjectIngress := oi <| oi_admit := fn |>.
Definition obj_SetConnAdmitHook (fn : bool) (oi : ObjectIngress) : ObjectIngress := oi <| oi_connAdmit := fn |>.
Definition obj_SetFlushVia (fn : bool) (oi : ObjectIngress) : ObjectIngress := oi <| oi_via := fn |>.

(** How many hooks one admission reaches. *)
Definition oi_hooks (oi : ObjectIngress) : Z := Z.b2z (oi_admit oi) + Z.b2z (oi_connAdmit oi).

Section Obj.
Context {SC : ShardCommon} {RT : GoRuntime} {OR : ObjReader}.
Context (fw : Settings) (oi : ObjectIngress) (remote : option NetAddr).

(** The lane's reader is on the connection itself. *)
Definition plain_Read (n : nat) : R (option bytes) := r ← conn_Read n false; mret (to_bytes r).

Definition obj_read_bound : Z :=
  let bound := BEEFRecordBound fw remote in
  if bool_decide (oi_class oi = ClassBEEF) && (0 <? bound) then bound else oi_maxObject oi.

(** What an object is dispatched as; [None] closes the connection. *)
Definition reframe (obj : bytes) : option Action :=
  if bool_decide (oi_class oi = ClassBEEF) then Some (ADispatch obj IngressBEEF)
  else raw ← MulticastBytes (oi_class oi) obj; Some (ADispatch raw IngressPrivileged).

Fixpoint obj_handleConn_loop (fuel : nat) (win : bytes) : R () :=
  match fuel with
  | O => mret ()
  | S fuel =>
      r ← rd_Next plain_Read (oi_class oi) obj_read_bound win;
      match r with
      | (ReadError (Some ErrObjectTooLarge), _) =>
          if bool_decide (oi_class oi = ClassBEEF) then act (ARecord (EvBEEFSubmission "oversize"))
          else mret ()
      | (ReadError _, _) => mret ()
      | (GotObject obj, win) =>
          act (AAdmit 1 (Zlen obj));;
          match reframe obj with
          | None => mret ()
          | Some a => act a;; act AFlush;; obj_handleConn_loop fuel win
          end
      end
  end.

Definition obj_handleConn : R () := n ← rgets (λ c, length (content c)); obj_handleConn_loop (S n) [].
End Obj.

Section Serve.
Context {SC : ShardCommon} {RT : GoRuntime} {K : Kernel} {OR : ObjReader}.

Definition obj_egress (fw : Settings) (targets : list string) (rec : bool)
    (tee mirror : option UDPAddr) : Egress :=
  let e := NewEgress (Some (s_fragDataSize fw, s_coalesce fw, s_coalesceMaxMembers fw)) targets 1 rec in
  let e := match tee with Some a => EnableRetryTee a true e | None => e end in
  match mirror with Some a => EnableLocalMirror a true e | None => e end.

(** The goroutine of a connection: read to the end, then the deferred flush.
    The lane carries no control datagrams, so it names no announce group. *)
Definition obj_serve (fw : Settings) (oi : ObjectIngress) (s : Sink) (remote : option NetAddr)
    (ins : list Arrival) (h : Host (sink_state s)) : option (Host (sink_state s)) :=
  perform_all fw (oi_rec oi) (oi_hooks oi) remote "none" (obj_flushEgr s (oi_via oi))
    ((obj_handleConn fw oi remote (mkConn ins [] 0)).2 ++ [AFlush]) h.
End Serve.
