(* ===== verification/TcpFacts.v ===== *)
(** * The TCP lane against the whole stream

    A reference reading of a complete byte stream (no arrivals, no buffers,
    no flushes), and that the connection handler submits exactly what it
    reads, under any arrival of the bytes and in the flush cadence. *)

From S2P Require Import Prelude Common Chains BatchWriter RetryTee Coal Egress RateLimit Machine Forwarder Beef Coalesce Dispatch Lane Stream StreamFacts TcpIngress ObjectIngress.

Section Reference.
Context {SC : ShardCommon} {RT : GoRuntime} {OR : ObjReader}.
Context (fw : Settings) (ti : TCPIngress) (remote : option NetAddr).

Definition header_len (ver : Z) : option Z :=
  if ver =? FrameVerV1 then Some HeaderSizeLegacy
  else if bool_decide (ver ∈ [FrameVerV2; FrameVerV4; FrameVerV5; FrameVerV6; FrameVerV9]) then Some HeaderSize
  else None.

(** The declared payload length: the last four bytes of the header. *)
Definition declared_len (hl : Z) (bs : bytes) : Z := be_get (slice (Z.to_nat (hl - 4)) (Z.to_nat hl) bs).

(** The frame at the front of a framed stream and its length. *)
Definition next_frame (bs : bytes) : option (Action * Z) :=
  if Zlen bs <? HeaderSizeLegacy then None
  else if negb (be_get (slice 0 4 bs) =? MagicBSV) then None
  else if byte_at 6 bs =? MsgTypeSubtreeGroupAnnounce then
    if Zlen bs <? SubtreeGroupAnnounceSize then None
    else Some (AControl (take (Z.to_nat SubtreeGroupAnnounceSize) bs), SubtreeGroupAnnounceSize)
  else
    hl ← header_len (byte_at 6 bs);
    if Zlen bs <? hl then None
    else
      let n := declared_len hl bs in
      if payload_refused fw (byte_at 6 bs) n then None
      else if Zlen bs <? hl + n then None
      else Some (ADispatch (take (Z.to_nat (hl + n)) bs) (ti_class ti), hl + n).

Fixpoint split_frames (fuel : nat) (bs : bytes) : list (Action * Z) :=
  match fuel with
  | O => []
  | S fuel =>
      match next_frame bs with
      | None => []
      | Some (a, n) => (a, n) :: split_frames fuel (drop (Z.to_nat n) bs)
      end
  end.

(** The objects of a stream, and the error that ends it. *)
Fixpoint split_objects (fuel : nat) (class : ObjClass) (maxObject : Z) (bs : bytes)
    : list bytes * option ReaderErr :=
  match fuel with
  | O => ([], None)
  | S fuel =>
      match next_object class maxObject bs with
      | (ReadError e, _) => ([], e)
      | (GotObject obj, bs) => let r := split_objects fuel class maxObject bs in (obj :: r.1, r.2)
      end
  end.

(** What a submission makes visible. *)
Definition submission (a : Action) (n : Z) : list Action :=
  [ARecord (EvTCPBytesReceived n); AAdmit 1 n; a].

Definition framed_actions (bs : bytes) : list Action :=
  concat ((λ f, submission f.1 f.2) <$> split_frames (S (length bs)) bs).

Definition bare_actions (bs : bytes) : list Action :=
  concat ((λ obj, submission (ABareTx obj) (Zlen obj)) <$>
    (split_objects (S (length bs)) ClassTx DefaultMaxObject bs).1).

Definition beef_actions (bs : bytes) : list Action :=
  let r := split_objects (S (length bs)) ClassBEEF (beef_read_bound fw remote) bs in
  concat ((λ obj, submission (ADispatch obj (ti_class ti)) (Zlen obj)) <$> r.1) ++
  match r.2 with Some ErrObjectTooLarge => [ARecord (EvBEEFSubmission "oversize")] | _ => [] end.

(** What a connection that delivers the stream [bs] submits. *)
Definition stream_actions (bs : bytes) : list Action :=
  if (4 <=? length bs)%nat then
    if be_get (take 2 (take 4 bs)) =? BEEFRecordTag then beef_actions bs
    else if negb (be_get (take 4 bs) =? MagicBSV) then bare_actions bs
    else framed_actions bs
  else [].
End Reference.

Section Cadence.

(** The batcher's invariant and its trace. *)
Definition paced (c : Conn) : Prop := 0 ≤ cn_pending c < maxTCPBatch.

Lemma paced_nonneg c : paced c → nonneg_pending c.
Proof. intros [? _]. done. Qed.

Lemma quiet_paced c c' a : quiet c c' a → paced c → paced c'.
Proof. intros [_ _ P] Hp. unfold paced, maxTCPBatch in *. destruct P as [-> | ->]; lia. Qed.

(** The outcome of a stretch of the handler: the submissions it made and the
    cadence it kept. *)
Record stretch (c c' : Conn) (acts shown : list Action) : Prop := mkStretch {
  st_visible : visible acts = shown;
  st_held : held (cn_pending c) acts = Some (cn_pending c');
  st_paced : paced c' }.

Lemma stretch_quiet c c' a : quiet c c' a → paced c → stretch c c' a [].
Proof. intros Q Hp. split; [apply Q|apply Q|by eapply quiet_paced]. Qed.

Lemma stretch_trans c c1 c2 a b v w : stretch c c1 a v → stretch c1 c2 b w → stretch c c2 (a ++ b) (v ++ w).
Proof.
  intros [V1 H1 P1] [V2 H2 P2]. split; [by rewrite visible_app, V1, V2|by rewrite held_app, H1|done].
Qed.

Lemma stretch_done c : paced c → stretch c c [] [].
Proof. by split. Qed.

Lemma submit_spec {A} a n (k : R A) c (Q : A → Conn → list Action → Prop) :
  submits a = true → paced c →
  (∀ c' acts, stretch c c' acts (submission a n) → content c' = content c →
     rspec k c' (λ x c'' b, Q x c'' (acts ++ b))) →
  rspec (account n;; act a;; bat_add;; k) c Q.
Proof.
  intros Ha [Hp Hp'] Hk. assert (Hv : is_visible a = true) by (by destruct a).
  assert (Hh : ∀ m acts, 0 ≤ m < maxTCPBatch → held m (a :: acts) = held (m + 1) acts).
  { intros m acts Hm. destruct a; try discriminate Ha; cbn [held submits]; by rewrite (proj2 (Z.leb_le _ _)) by lia. }
  apply rspec_bind. unfold account. apply rspec_bind, rspec_act, rspec_act.
  apply rspec_bind, rspec_act, rspec_bind. unfold bat_add.
  apply rspec_bind, rspec_modify, rspec_bind, rspec_gets.
  set (c1 := c <| cn_pending ::= _ |>). assert (E1 : cn_pending c1 = cn_pending c + 1) by done.
  destruct (Z.leb_spec maxTCPBatch (cn_pending c1)) as [Hl|Hl].
  - eapply rspec_mono; [apply bat_flush_spec; unfold maxTCPBatch in *; lia|]. intros _ c2 a2 (Q2 & P2 & I2 & B2).
    cbn [app]. eapply (rspec_mono _ _ _ _ (Hk c2 (ARecord (EvTCPBytesReceived n) :: AAdmit 1 n :: a :: a2) _ _)).
    intros. done.
    Unshelve.
    + split.
      * rewrite !visible_cons by done. by rewrite (qu_visible _ _ _ Q2).
      * change (held (cn_pending c) (a :: a2) = Some (cn_pending c2)). rewrite Hh by done. rewrite <- E1. apply Q2.
      * unfold paced. rewrite P2. unfold maxTCPBatch. lia.
    + unfold content. by rewrite I2, B2.
  - apply rspec_ret. cbn [app].
    eapply (rspec_mono _ _ _ _ (Hk c1 (ARecord (EvTCPBytesReceived n) :: AAdmit 1 n :: a :: []) _ _)).
    intros. done.
    Unshelve.
    + split; [|change (held (cn_pending c) [a] = Some (cn_pending c1)); by rewrite Hh|unfold paced; lia].
      by rewrite !visible_cons by done.
    + done.
Qed.
End Cadence.

(** ** Framed streams *)

Lemma slice_take {A} lo hi n (l : list A) : (hi ≤ n)%nat → slice lo hi (take n l) = slice lo hi l.
Proof.
  intros Hn. unfold slice. rewrite skipn_firstn_comm, take_take. f_equal. lia.
Qed.

Lemma byte_at_take i n (l : bytes) : (i < n)%nat → byte_at i (take n l) = byte_at i l.
Proof. intros Hi. unfold byte_at. rewrite nth_firstn. by rewrite (proj2 (Nat.ltb_lt _ _)). Qed.

Lemma take_then_take {A} n m (l : list A) : take n l ++ take m (drop n l) = take (n + m) l.
Proof. by rewrite take_take_drop. Qed.

Lemma Zlen_lt_nat {A} (l : list A) n : 0 ≤ n → (Zlen l <? n) = negb (Z.to_nat n <=? length l)%nat.
Proof.
  intros Hn. unfold Zlen. destruct (Z.ltb_spec (Z.of_nat (length l)) n), (Nat.leb_spec (Z.to_nat n) (length l)); (done || lia).
Qed.

Section Framed.
Context {SC : ShardCommon} {RT : GoRuntime} {OR : ObjReader}.
Context (fw : Settings) (ti : TCPIngress) (linger : Z).

Lemma declared_nonneg hl bs : Forall is_byte bs → 0 ≤ declared_len hl bs.
Proof. intros Hb. unfold declared_len. apply be_get_range. unfold slice. by apply Forall_take, Forall_drop. Qed.

(** Reading [n] more bytes after the first [k] of [bs]. *)
Lemma ReadFull_more n k bs c :
  nonneg_pending c → content c = drop k bs → (k ≤ length bs)%nat →
  rspec (ReadFull linger n) c (λ r c' a, quiet c c' a ∧ nonneg_pending c' ∧
    if (k + n <=? length bs)%nat then r = Some (take n (drop k bs)) ∧ content c' = drop (k + n) bs else r = None).
Proof.
  intros Hp Hc Hk. eapply rspec_mono; [by apply ReadFull_spec|]. intros r c' a (Q & Hr).
  split_and!; [done|by eapply quiet_nonneg|]. rewrite Hc, length_drop, drop_drop in Hr. revert Hr.
  destruct (Nat.leb_spec n (length bs - k)), (Nat.leb_spec (k + n) (length bs)); (done || lia).
Qed.

Lemma read_header_spec bs c :
  nonneg_pending c → content c = drop 44 bs → (44 ≤ length bs)%nat →
  rspec (read_header linger (take 44 bs)) c (λ r c' a, quiet c c' a ∧ nonneg_pending c' ∧
    r = (hl ← header_len (byte_at 6 bs);
         if Zlen bs <? hl then None else Some (take (Z.to_nat hl) bs, declared_len hl bs)) ∧
    (∀ h, fst <$> r = Some h → content c' = drop (length h) bs)).
Proof.
  intros Hp Hc Hl. unfold read_header, header_len. cbv zeta. rewrite byte_at_take by lia.
  destruct (byte_at 6 bs =? FrameVerV1).
  { apply rspec_ret. cbn [mbind option_bind]. rewrite Zlen_lt_nat by done. unfold HeaderSizeLegacy.
    change (Z.to_nat 44) with 44%nat. rewrite (proj2 (Nat.leb_le _ _)) by done. cbn [negb].
    split_and!; [by apply quiet_same|done| |].
    - unfold declared_len. by rewrite slice_take by lia.
    - intros h [= <-]. by rewrite length_take, Nat.min_l. }
  destruct (bool_decide _); [|apply rspec_ret; split_and!; [by apply quiet_same|done..]].
  cbn [mbind option_bind]. rewrite Zlen_lt_nat by done. unfold HeaderSize, HeaderSizeLegacy.
  change (Z.to_nat (92 - 44)) with 48%nat. change (Z.to_nat 92) with 92%nat.
  apply rspec_bind. eapply rspec_mono; [apply (ReadFull_more _ 44 bs); [done|done|lia]|]. intros r c2 a2 (Q2 & P2 & R2).
  change (44 + 48)%nat with 92%nat in R2. apply rspec_ret. rewrite app_nil_r.
  destruct (Nat.leb_spec 92 (length bs)); cbn [negb]; [|subst r; done]. destruct R2 as [-> C2]. cbn [fmap option_fmap option_map].
  rewrite (take_then_take 44 48). change (44 + 48)%nat with 92%nat. split_and!; [done..| |].
  - unfold declared_len. by rewrite slice_take by lia.
  - intros h [= <-]. by rewrite length_take, Nat.min_l.
Qed.

Lemma read_frame_spec c :
  nonneg_pending c → Forall is_byte (content c) →
  rspec (read_frame fw ti linger) c (λ r c' a, quiet c c' a ∧ r = next_frame fw ti (content c) ∧
    (∀ x n, r = Some (x, n) → content c' = drop (Z.to_nat n) (content c) ∧ 0 < n ∧ submits x = true)).
Proof.
  intros Hp Hb. set (bs := content c) in *. unfold read_frame, next_frame.
  apply rspec_bind. eapply rspec_mono; [apply (ReadFull_more _ 0 bs); [done|done|lia]|]. intros r c1 a1 (Q1 & P1 & R1).
  rewrite Zlen_lt_nat by done. rewrite drop_0, Nat.add_0_l in R1.
  destruct (Nat.leb_spec (Z.to_nat HeaderSizeLegacy) (length bs)) as [Hl|]; cbn [negb].
  2:{ subst r. apply rspec_ret. rewrite app_nil_r. done. }
  destruct R1 as [-> C1]. unfold HeaderSizeLegacy in Hl, C1 |- *. rewrite slice_take, byte_at_take by lia.
  destruct (be_get (slice 0 4 bs) =? MagicBSV); cbn [negb].
  2:{ apply rspec_ret. rewrite app_nil_r. done. }
  destruct (byte_at 6 bs =? MsgTypeSubtreeGroupAnnounce).
  { apply rspec_bind. eapply rspec_mono; [apply (ReadFull_more _ 44 bs); [done|done|lia]|]. intros r c2 a2 (Q2 & P2 & R2).
    rewrite Zlen_lt_nat by done. unfold SubtreeGroupAnnounceSize in *. change (44 + Z.to_nat (64 - 44))%nat with 64%nat in R2.
    change (Z.to_nat 64) with 64%nat. apply rspec_ret. rewrite app_nil_r. split; [by eapply quiet_trans|].
    destruct (64 <=? length bs)%nat; cbn [negb]; [|by subst r]. destruct R2 as [-> C2]. cbn. split.
    - by rewrite (take_then_take 44 20).
    - intros x n [= <- <-]. done. }
  apply rspec_bind. eapply rspec_mono; [by apply read_header_spec|]. intros r c2 a2 (Q2 & P2 & -> & C2).
  assert (Hhl : ∀ hl, header_len (byte_at 6 bs) = Some hl → 44 ≤ hl).
  { unfold header_len. intros hl. repeat case_match; try done; by intros [= <-]. }
  destruct (header_len (byte_at 6 bs)) as [hl|]; cbn [mbind option_bind] in *.
  2:{ apply rspec_ret. rewrite !app_nil_r. split; [by eapply quiet_trans|done]. }
  specialize (Hhl hl eq_refl). rewrite (Zlen_lt_nat bs hl) in * by lia.
  destruct (Nat.leb_spec (Z.to_nat hl) (length bs)) as [Hh|]; cbn [negb] in *.
  2:{ apply rspec_ret. rewrite !app_nil_r. split; [by eapply quiet_trans|done]. }
  rewrite byte_at_take by lia. destruct (payload_refused _ _ _).
  { apply rspec_ret. rewrite !app_nil_r. split; [by eapply quiet_trans|done]. }
  pose proof (declared_nonneg hl bs Hb) as Hn. set (n := declared_len hl bs) in *.
  specialize (C2 (take (Z.to_nat hl) bs) eq_refl). rewrite length_take, Nat.min_l in C2 by done.
  apply rspec_bind. eapply rspec_mono; [by apply (ReadFull_more _ (Z.to_nat hl) bs)|]. intros r c3 a3 (Q3 & P3 & R3).
  rewrite Zlen_lt_nat by lia. rewrite <- Z2Nat.inj_add in R3 by lia. apply rspec_ret. rewrite !app_nil_r.
  split; [by do 2 (eapply quiet_trans; [done|])|]. destruct (_ <=? _)%nat; cbn [negb]; [|by subst r].
  destruct R3 as [-> C3]. cbn [fmap option_fmap option_map]. rewrite take_then_take, <- Z2Nat.inj_add by lia. split.
  - unfold Zlen. rewrite length_take, Nat.min_l, Z2Nat.id by lia. done.
  - intros x k [= <- <-]. unfold Zlen. rewrite length_take, Nat.min_l, Z2Nat.id by lia. split_and!; [done|lia|done].
Qed.

Lemma handleFramed_loop_spec fuel c :
  paced c → Forall is_byte (content c) →
  rspec (handleFramed_loop fw ti linger fuel) c (λ _ c' a,
    stretch c c' a (concat ((λ f, submission f.1 f.2) <$> split_frames fw ti fuel (content c)))).
Proof.
  revert c. induction fuel as [|fuel IH]; intros c Hp Hb; cbn [handleFramed_loop split_frames].
  { apply rspec_ret. by apply stretch_done. }
  apply rspec_bind. eapply rspec_mono; [apply read_frame_spec; [by apply paced_nonneg|done]|].
  intros r c1 a1 (Q1 & <- & D1). destruct r as [[x n]|].
  2:{ apply rspec_ret. rewrite app_nil_r. by apply stretch_quiet. }
  destruct (D1 x n eq_refl) as (C1 & _ & Hx). apply submit_spec; [done|by eapply quiet_paced|].
  intros c2 a2 S2 C2. assert (Hp2 : paced c2) by apply S2.
  eapply rspec_mono; [apply IH; [done|rewrite C2, C1; by apply Forall_drop]|]. intros [] c3 a3 S3.
  rewrite C2, C1 in S3. rewrite fmap_cons. cbn [concat fst snd].
  apply (stretch_trans _ c1 _ a1 _ []); [by apply stretch_quiet|]. exact (stretch_trans _ _ _ _ _ _ _ S2 S3).
Qed.
End Framed.

(** ** Object streams *)

Section Objects.
Context {SC : ShardCommon} {RT : GoRuntime} {OR : ObjReader} {RL : ReaderLaws}.
Context (fw : Settings) (ti : TCPIngress) (remote : option NetAddr) (linger : Z).

Lemma handleBareConn_loop_spec fuel win c :
  paced c →
  rspec (handleBareConn_loop linger fuel win) c (λ _ c' a,
    stretch c c' a (concat ((λ obj, submission (ABareTx obj) (Zlen obj)) <$>
      (split_objects fuel ClassTx DefaultMaxObject (win ++ content c)).1))).
Proof.
  revert win c. induction fuel as [|fuel IH]; intros win c Hp; cbn [handleBareConn_loop split_objects].
  { apply rspec_ret. by apply stretch_done. }
  apply rspec_bind. eapply rspec_mono; [apply (rd_Next_spec _ nonneg_pending); [apply br_Read_front|by apply paced_nonneg]|].
  intros [r w1] c1 a1 (Q1 & I1 & E1 & W1). cbn [fst snd] in *.
  destruct (next_object ClassTx DefaultMaxObject (win ++ content c)) as [d rest]. cbn [fst snd] in *. subst d.
  destruct r as [obj|e].
  2:{ apply rspec_ret. rewrite app_nil_r. by apply stretch_quiet. }
  specialize (W1 obj eq_refl). apply submit_spec; [done|by eapply quiet_paced|].
  intros c2 a2 S2 C2. eapply rspec_mono; [apply IH, S2|]. intros [] c3 a3 S3.
  rewrite C2, W1 in S3. cbv zeta. cbn [fst]. rewrite fmap_cons. cbn [concat].
  apply (stretch_trans _ c1 _ a1 _ []); [by apply stretch_quiet|]. exact (stretch_trans _ _ _ _ _ _ _ S2 S3).
Qed.

Lemma handleBEEFConn_loop_spec fuel win c :
  paced c →
  rspec (handleBEEFConn_loop fw ti remote linger fuel win) c (λ _ c' a,
    let r := split_objects fuel ClassBEEF (beef_read_bound fw remote) (win ++ content c) in
    stretch c c' a (concat ((λ obj, submission (ADispatch obj (ti_class ti)) (Zlen obj)) <$> r.1) ++
      match r.2 with Some ErrObjectTooLarge => [ARecord (EvBEEFSubmission "oversize")] | _ => [] end)).
Proof.
  revert win c. induction fuel as [|fuel IH]; intros win c Hp; cbn [handleBEEFConn_loop split_objects].
  { apply rspec_ret. by apply stretch_done. }
  apply rspec_bind. eapply rspec_mono; [apply (rd_Next_spec _ nonneg_pending); [apply br_Read_front|by apply paced_nonneg]|].
  intros [r w1] c1 a1 (Q1 & I1 & E1 & W1). cbn [fst snd] in *.
  destruct (next_object ClassBEEF _ (win ++ content c)) as [d rest]. cbn [fst snd] in *. subst d.
  assert (Hp1 : paced c1) by (by eapply quiet_paced). destruct r as [obj|e].
  2:{ assert (Hq : stretch c c1 (a1 ++ []) []) by (rewrite app_nil_r; by apply stretch_quiet).
      destruct e as [[]|]; [|apply rspec_ret; exact Hq..]. apply rspec_act. cbn.
      apply (stretch_trans _ c1 _ a1 _ []); [by apply stretch_quiet|]. by split. }
  specialize (W1 obj eq_refl). apply submit_spec; [done|done|].
  intros c2 a2 S2 C2. eapply rspec_mono; [apply IH, S2|]. intros [] c3 a3 S3. cbv zeta in S3.
  rewrite C2, W1 in S3. cbv zeta. cbn [fst snd]. rewrite fmap_cons. cbn [concat]. rewrite <- app_assoc.
  apply (stretch_trans _ c1 _ a1 _ []); [by apply stretch_quiet|]. exact (stretch_trans _ _ _ _ _ _ _ S2 S3).
Qed.

(** The whole handler. *)
Lemma tcp_handleConn_spec ins :
  Forall is_byte (arrived ins) →
  rspec (tcp_handleConn fw ti remote linger) (mkConn ins [] 0)
    (λ _ c' a, stretch (mkConn ins [] 0) c' a (stream_actions fw ti remote (arrived ins))).
Proof.
  intros Hb. set (c := mkConn ins [] 0). change (arrived ins) with (content c) in *.
  assert (Hp : paced c) by (unfold paced, maxTCPBatch; simpl; lia).
  unfold tcp_handleConn, stream_actions. apply rspec_bind.
  eapply rspec_mono; [apply br_Peek_spec; [unfold tcpBufSize; lia|by apply paced_nonneg]|].
  intros r c1 a1 (Q1 & P1 & -> & C1). destruct (4 <=? length (content c))%nat.
  2:{ apply rspec_ret. rewrite app_nil_r. by apply stretch_quiet. }
  specialize (C1 ltac:(done)). assert (Hp1 : paced c1) by (by eapply quiet_paced).
  assert (Hf : ∀ (m : nat → R ()) v, rspec (m (S (length (content c1)))) c1 (λ _ c' a, stretch c1 c' a v) →
    rspec (n ← rgets (λ c, length (content c)); m (S n)) c1 (λ _ c' b, stretch c c' (a1 ++ b) v)).
  { intros m v Hm. apply rspec_bind, rspec_gets. eapply rspec_mono; [exact Hm|]. intros [] c2 a2 S2. cbn [app].
    apply (stretch_trans _ c1 _ a1 _ []); [by apply stretch_quiet|done]. }
  destruct (_ =? BEEFRecordTag); [|destruct (negb _)].
  - apply (Hf (λ n, handleBEEFConn_loop fw ti remote linger n [])). unfold beef_actions. rewrite <- C1. by apply (handleBEEFConn_loop_spec _ []).
  - apply (Hf (λ n, handleBareConn_loop linger n [])). unfold bare_actions. rewrite <- C1. by apply (handleBareConn_loop_spec _ []).
  - apply (Hf (handleFramed_loop fw ti linger)). unfold framed_actions. rewrite <- C1. apply handleFramed_loop_spec; [done|by rewrite C1].
Qed.
End Objects.
