(* ===== verification/TcpProps.v ===== *)
(** * Properties of the TCP lane *)

From S2P Require Import Prelude Common Chains BatchWriter RetryTee Coal Egress EgressFacts RateLimit SubtreeRoot Machine Forwarder Beef Coalesce Dispatch ForwarderFacts Lane LaneFacts Stream StreamFacts TcpIngress TcpFacts Toy ToyLaws ToyKernel DispatchProps.

Section Props.
Context {SC : ShardCommon} {SL : ShardLaws} {RT : GoRuntime} {K : Kernel} {OR : ObjReader} {RL : ReaderLaws}.
Implicit Types (fw : Settings) (ti : TCPIngress) (remote : option NetAddr).

(** ** The reference reading *)

Lemma header_len_bounds ver hl : header_len ver = Some hl → 44 ≤ hl.
Proof. unfold header_len. repeat case_match; try done; by intros [= <-]. Qed.

Lemma next_frame_size fw ti bs a n :
  Forall is_byte bs → next_frame fw ti bs = Some (a, n) → 44 ≤ n ≤ Zlen bs.
Proof.
  intros Hb. unfold next_frame, SubtreeGroupAnnounceSize. destruct (Zlen bs <? _); [done|]. destruct (negb _); [done|].
  destruct (_ =? MsgTypeSubtreeGroupAnnounce).
  { destruct (Z.ltb_spec (Zlen bs) 64); [done|]. intros [= <- <-]. lia. }
  destruct (header_len _) as [hl|] eqn:Eh; [|done]. cbn [mbind option_bind]. apply header_len_bounds in Eh.
  destruct (_ <? hl); [done|]. cbv zeta. destruct (payload_refused _ _ _); [done|].
  destruct (Z.ltb_spec (Zlen bs) (hl + declared_len hl bs)); [done|]. intros [= <- <-].
  pose proof (declared_nonneg hl bs Hb). lia.
Qed.

(** Iterations beyond the bytes of the stream find nothing. *)
Lemma split_frames_fuel fw ti fuel fuel' bs :
  Forall is_byte bs → (length bs < fuel)%nat → (length bs < fuel')%nat →
  split_frames fw ti fuel bs = split_frames fw ti fuel' bs.
Proof.
  revert fuel' bs. induction fuel as [|fuel IH]; intros fuel' bs Hb Hf Hf'; [lia|]. destruct fuel' as [|fuel']; [lia|].
  cbn [split_frames]. destruct (next_frame fw ti bs) as [[a n]|] eqn:E; [|done]. f_equal.
  pose proof (next_frame_size fw ti bs a n Hb E) as Hn. unfold Zlen in Hn.
  apply IH; [by apply Forall_drop|rewrite length_drop; lia..].
Qed.

Lemma split_objects_fuel class m fuel fuel' bs :
  (length bs < fuel)%nat → (length bs < fuel')%nat →
  split_objects fuel class m bs = split_objects fuel' class m bs.
Proof.
  revert fuel' bs. induction fuel as [|fuel IH]; intros fuel' bs Hf Hf'; [lia|]. destruct fuel' as [|fuel']; [lia|].
  cbn [split_objects]. unfold next_object. destruct (reader_step class m bs) as [n|n|e] eqn:E; try done.
  apply reader_whole in E. assert (E' : split_objects fuel class m (drop n bs) = split_objects fuel' class m (drop n bs))
    by (apply IH; rewrite length_drop; lia). by rewrite E'.
Qed.

(** ** Bytes in, bytes out *)

Lemma split_frames_ok fw ti fuel bs :
  Forall is_byte bs → Forall (λ f, action_ok f.1) (split_frames fw ti fuel bs).
Proof.
  revert bs. induction fuel as [|fuel IH]; intros bs Hb; [constructor|]. cbn [split_frames].
  destruct (next_frame fw ti bs) as [[a n]|] eqn:E; [|constructor]. constructor; [|by apply IH, Forall_drop].
  revert E. unfold next_frame. destruct (Zlen bs <? _); [done|]. destruct (negb _); [done|].
  destruct (_ =? MsgTypeSubtreeGroupAnnounce); [destruct (_ <? _); [done|]; by intros [= <- <-]|].
  destruct (header_len _) as [hl|]; [|done]. cbn [mbind option_bind]. destruct (_ <? hl); [done|]. cbv zeta.
  destruct (payload_refused _ _ _); [done|]. destruct (_ <? _); [done|]. intros [= <- <-]. by apply Forall_take.
Qed.

Lemma split_objects_ok class m fuel bs :
  Forall is_byte bs → Forall (Forall is_byte) (split_objects fuel class m bs).1.
Proof.
  revert bs. induction fuel as [|fuel IH]; intros bs Hb; [constructor|]. cbn [split_objects]. unfold next_object.
  destruct (reader_step class m bs); try constructor; [by apply Forall_take|by apply IH, Forall_drop].
Qed.

Lemma submissions_ok {A} (f : A → Action) (g : A → Z) l :
  Forall (λ x, action_ok (f x)) l → Forall action_ok (concat ((λ x, submission (f x) (g x)) <$> l)).
Proof.
  intros Hl. induction Hl as [|x l Hx Hl IH]; [constructor|]. rewrite fmap_cons. cbn [concat]. by repeat constructor.
Qed.

Lemma stream_actions_ok fw ti remote bs : Forall is_byte bs → Forall action_ok (stream_actions fw ti remote bs).
Proof.
  intros Hb. unfold stream_actions. destruct (4 <=? length bs)%nat; [|constructor].
  destruct (_ =? BEEFRecordTag); [|destruct (negb _)].
  - unfold beef_actions. cbv zeta. apply Forall_app. split.
    + apply submissions_ok. eapply Forall_impl; [|apply split_objects_ok; exact Hb]. done.
    + destruct (split_objects _ _ _ _).2 as [[]|]; by repeat constructor.
  - apply submissions_ok. by apply Forall_true.
  - by apply submissions_ok, split_frames_ok.
Qed.

Lemma visible_ok acts : Forall action_ok (visible acts) → Forall action_ok acts.
Proof.
  induction acts as [|a acts IH]; [done|]. destruct (is_visible a) eqn:E.
  - rewrite visible_cons by done. intros [Ha Hacts]%list.Forall_cons. constructor; auto.
  - unfold visible. rewrite filter_cons_False by (by rewrite E). intros Hv. constructor; [by destruct a|auto].
Qed.

(** C15: what a connection submits is a function of the bytes it carries.
    However TCP delivers the stream (any segmentation, any pauses, with or
    without the linger window), the handler submits exactly the frames,
    records or transactions that the reference reading finds in the whole
    stream, in order, each counted and observed once; the reading ends
    because the stream does, not because an iteration bound does. *)
Theorem tcp_handleConn_reads_stream fw ti remote linger ins :
  Forall is_byte (arrived ins) →
  visible (tcp_handleConn fw ti remote linger (mkConn ins [] 0)).2 = stream_actions fw ti remote (arrived ins) ∧
  (∀ bs extra, Forall is_byte bs →
     split_frames fw ti (S (length bs) + extra) bs = split_frames fw ti (S (length bs)) bs) ∧
  (∀ class m bs extra,
     split_objects (S (length bs) + extra) class m bs = split_objects (S (length bs)) class m bs).
Proof.
  intros Hb. split_and!.
  - destruct (tcp_handleConn_spec fw ti remote linger ins Hb) as [Hv _ _]. exact Hv.
  - intros. apply split_frames_fuel; [done|lia|lia].
  - intros. apply split_objects_fuel; lia.
Qed.

(** ** Framed streams *)

(** A frame as a peer writes it: the magic, a version whose header it has in
    full, and as many payload bytes as it declares, within the bounds. *)
Definition wire_frame fw (f : bytes) : Prop :=
  be_get (slice 0 4 f) = MagicBSV ∧ byte_at 6 f ≠ MsgTypeSubtreeGroupAnnounce ∧
  ∃ hl, header_len (byte_at 6 f) = Some hl ∧ hl ≤ Zlen f ∧ declared_len hl f = Zlen f - hl ∧
    payload_refused fw (byte_at 6 f) (Zlen f - hl) = false.

Lemma next_frame_wire fw ti f rest :
  wire_frame fw f → next_frame fw ti (f ++ rest) = Some (ADispatch f (ti_class ti), Zlen f).
Proof.
  intros (Hm & Ha & hl & Eh & Hl & Hd & Hr). pose proof (header_len_bounds _ _ Eh) as Hb.
  assert (Hlen : (44 ≤ length f)%nat) by (unfold Zlen in Hl; lia).
  assert (Hs : ∀ lo hi, (hi ≤ length f)%nat → slice lo hi (f ++ rest) = slice lo hi f).
  { intros lo hi Hh. rewrite <- (slice_take lo hi (length f)) by done. by rewrite take_app_length. }
  assert (H6 : byte_at 6 (f ++ rest) = byte_at 6 f).
  { rewrite <- (byte_at_take 6 (length f)) by lia. by rewrite take_app_length. }
  unfold next_frame. rewrite Hs, H6, Hm, Z.eqb_refl, Zlen_app by lia. pose proof (Zlen_nonneg rest).
  unfold HeaderSizeLegacy. rewrite (proj2 (Z.ltb_ge _ 44)) by lia. cbn [negb].
  rewrite (proj2 (Z.eqb_neq _ _)) by done. rewrite Eh. cbn [mbind option_bind].
  rewrite (proj2 (Z.ltb_ge _ hl)) by lia. cbv zeta. unfold declared_len in *. rewrite Hs, Hd, Hr by (unfold Zlen in *; lia).
  replace (hl + (Zlen f - hl)) with (Zlen f) by lia. rewrite (proj2 (Z.ltb_ge _ (Zlen f))) by lia.
  unfold Zlen at 1. by rewrite Nat2Z.id, take_app_length.
Qed.

Lemma split_frames_wire fw ti fs fuel :
  Forall (wire_frame fw) fs → (length fs < fuel)%nat →
  split_frames fw ti fuel (concat fs) = (λ f, (ADispatch f (ti_class ti), Zlen f)) <$> fs.
Proof.
  intros Hfs. revert fuel. induction Hfs as [|f fs Hf Hfs IH]; intros fuel Hl; (destruct fuel as [|fuel]; [simpl in Hl; lia|]).
  { done. }
  cbn [concat split_frames]. rewrite (next_frame_wire fw ti f _ Hf), fmap_cons. f_equal.
  unfold Zlen. rewrite Nat2Z.id, drop_app_length. apply IH. simpl in Hl. lia.
Qed.

Lemma wire_frame_len fw f : wire_frame fw f → (1 ≤ length f)%nat.
Proof. intros (_ & _ & hl & Eh & Hl & _). apply header_len_bounds in Eh. unfold Zlen in Hl. lia. Qed.

(** The frames a trace hands to the forwarder. *)
Definition dispatched_frames (acts : list Action) : list bytes :=
  omap (λ a, match a with ADispatch raw _ => Some raw | _ => None end) acts.

Lemma dispatched_visible acts : dispatched_frames (visible acts) = dispatched_frames acts.
Proof.
  induction acts as [|a acts IH]; [done|]. destruct (is_visible a) eqn:E.
  - rewrite visible_cons by done. unfold dispatched_frames in *. cbn. by rewrite IH.
  - unfold visible. rewrite filter_cons_False by (by rewrite E). destruct a; try done; exact IH.
Qed.

(** C30: framing survives the stream.  A peer that writes any sequence of
    well-formed frames on a framed connection gets exactly those frames
    dispatched, unchanged, complete and in order, however the bytes were
    segmented on the way. *)
Theorem framed_stream_roundtrip fw ti remote linger fs ins :
  Forall (wire_frame fw) fs → fs ≠ [] → Forall is_byte (concat fs) → arrived ins = concat fs →
  dispatched_frames (tcp_handleConn fw ti remote linger (mkConn ins [] 0)).2 = fs.
Proof.
  intros Hw Hne Hb Ha. rewrite <- dispatched_visible.
  destruct (tcp_handleConn_spec fw ti remote linger ins) as [-> _ _]; [by rewrite Ha|]. rewrite Ha.
  destruct fs as [|f fs]; [done|]. assert (Hf : wire_frame fw f) by (by apply list.Forall_cons in Hw as [? _]).
  destruct Hf as (Hm & _ & hl & Eh & Hl & _). apply header_len_bounds in Eh.
  assert (Hlen : (4 ≤ length f)%nat) by (unfold Zlen in Hl; lia).
  assert (H4 : take 4 (concat (f :: fs)) = slice 0 4 f) by (cbn [concat]; unfold slice; by rewrite take_app_le).
  unfold stream_actions. rewrite (proj2 (Nat.leb_le _ _)) by (cbn [concat]; rewrite length_app; lia).
  rewrite H4, Hm, Z.eqb_refl. cbn [negb]. replace (be_get (take 2 (slice 0 4 f)) =? BEEFRecordTag) with false.
  - unfold framed_actions. rewrite (split_frames_wire fw ti (f :: fs)); [|done|].
    + clear. induction (f :: fs) as [|x l IH]; [done|]. rewrite !fmap_cons. unfold dispatched_frames in *. cbn. by rewrite IH.
    + apply Nat.lt_succ_r. clear -Hw. induction Hw as [|x l Hx Hl IH]; [done|]. cbn [concat length].
      rewrite length_app. apply wire_frame_len in Hx. lia.
  - symmetry. apply Z.eqb_neq. intros E2. cbn [concat] in Hb. apply Forall_app in Hb as [Hb _].
    revert Hm E2. unfold slice. rewrite drop_0. do 4 (destruct f as [|? f]; [simpl in Hlen; lia|]). cbn [Nat.sub firstn]. rewrite ?take_0.
    repeat match goal with H : Forall is_byte (_ :: _) |- _ => apply list.Forall_cons in H as [? H] end.
    rewrite !be_get_cons by (repeat first [done | apply Forall_nil_2 | apply Forall_cons_2]). unfold is_byte, MagicBSV, BEEFRecordTag, Zlen in *.
    change (be_get []) with 0. cbn [length]. lia.
Qed.

(** C16: nothing is ever held back.  Whatever the stream and however it
    arrives, the connection goroutine enters no read that may block while a
    frame it has handed to the forwarder is unflushed, lets at most
    [maxTCPBatch] frames accumulate before it flushes, and ends with
    everything flushed; the linger window delays a flush only within a read
    with a deadline. *)
Theorem tcp_never_holds_across_blocking_read fw ti remote e ins :
  Forall is_byte (arrived ins) → held 0 (conn_actions fw ti remote e ins) = Some 0.
Proof.
  intros Hb. unfold conn_actions. cbv zeta. rewrite held_app.
  destruct (tcp_handleConn_spec fw ti remote (if CoalArmed e then ti_coalesceLinger ti else 0) ins Hb) as [_ Hh _].
  unfold rspec in Hh. cbn [cn_pending] in Hh. by rewrite Hh.
Qed.

(** What a connection starts with. *)
Definition conn_start fw (s : Sink) (env : Env) (targets : list string) (rec : bool) (tee mirror : option UDPAddr)
    (clock : Z) (k : KState) (v : sink_state s) : Host (sink_state s) :=
  mkHost (newWorld env (Some (conn_egress fw targets rec tee mirror)) clock) k v [].

Lemma conn_egress_ok fw targets rec tee mirror : fresh_egress fw (conn_egress fw targets rec tee mirror).
Proof.
  pose proof (egr_ok_New fw targets maxTCPBatch rec). unfold conn_egress.
  destruct tee, mirror; auto using fresh_tee, fresh_mirror, fresh_reliable.
Qed.

(** A TCP connection is served to its end.  Whatever bytes the peer
    sends, in whatever pieces, to the multicast sockets or through a sink,
    serving the connection does not panic, keeps the forwarder's state
    well-formed, and leaves the connection's egress drained: no datagram
    queued, no fragment buffer held, no transaction waiting in the coalescing
    buffer. *)
Theorem tcp_connection_served fw ti s remote announceName env targets rec tee mirror clock k v ins :
  announceName ≠ "" → Forall is_byte (arrived ins) →
  ∃ h', conn_serve fw ti s remote announceName ins (conn_start fw s env targets rec tee mirror clock k v) = Some h' ∧
    stripes_ok (w_chains (h_world h')) ∧ host_egr drained h'.
Proof.
  intros Hn Hb. destruct (conn_egress_ok fw targets rec tee mirror) as [He _]. unfold conn_serve. cbn.
  set (h := conn_start fw s env targets rec tee mirror clock k v).
  assert (Hh : host_ok fw h) by (by apply newWorld_ok). set (e := conn_egress fw targets rec tee mirror) in *.
  assert (Hflush : ∀ h, host_ok fw h → ∃ h', tcp_flushEgr fw s (ti_via ti) h = Some h' ∧ host_ok fw h').
  { intros h0 H0. destruct (tcp_flushEgr_ok fw s (ti_via ti) h0 H0) as (h1 & ? & ? & _). eauto. }
  unfold conn_actions. cbv zeta. rewrite perform_all_app.
  destruct (perform_all_ok fw (ti_rec ti) (ti_hooks ti) remote announceName (tcp_flushEgr fw s (ti_via ti)) Hn Hflush
    (tcp_handleConn fw ti remote (if CoalArmed e then ti_coalesceLinger ti else 0) (mkConn ins [] 0)).2 h) as (h1 & -> & H1).
  - apply visible_ok. destruct (tcp_handleConn_spec fw ti remote (if CoalArmed e then ti_coalesceLinger ti else 0) ins Hb)
      as [-> _ _]. by apply stream_actions_ok.
  - done.
  - cbn [mbind option_bind perform_all perform].
    destruct (tcp_flushEgr_ok fw s (ti_via ti) h1 H1) as (h2 & -> & H2 & D). exists h2. split_and!; [done| |done].
    apply (wo_chains fw), H2.
Qed.
End Props.

(** ** Witnesses *)

(** A reader whose objects begin with their own length. *)
#[export] Instance toyReader : ObjReader := {|
  DefaultMaxObject := 1000;
  reader_step _ m win :=
    match win with
    | [] => NeedMore 1
    | n :: _ =>
        if n <? 2 then Refuse ErrMalformedObject
        else if m <? n then Refuse ErrObjectTooLarge
        else if (length win <? Z.to_nat n)%nat then NeedMore 1 else Whole (Z.to_nat n)
    end |}.

#[export] Instance toyReaderLaws : ReaderLaws.
Proof.
  split.
  - intros c m [|x win] n; [done|]. cbn [reader_step toyReader]. destruct (Z.ltb_spec x 2); [done|]. destruct (_ <? x); [done|].
    destruct (Nat.ltb_spec (length (x :: win)) (Z.to_nat x)); [done|]. intros [= <-]. lia.
  - intros c m [|x win] n; cbn [reader_step toyReader]; repeat case_match; intros [= <-]; lia.
  - intros c m [|x win] more Hn; [by destruct (Hn 1%nat)|]. cbn [reader_step toyReader app] in *.
    destruct (x <? 2); [done|]. destruct (_ <? x); [done|]. revert Hn. cbn [length].
    destruct (Nat.ltb_spec (S (length win)) (Z.to_nat x)); [intros Hn; by destruct (Hn 1%nat)|].
    intros _. rewrite length_app. by rewrite (proj2 (Nat.ltb_ge _ _)) by lia.
Qed.

#[local] Existing Instance exactRuntime.

Definition toy_ti : TCPIngress := tcp_SetIngressClass IngressTransaction (NewTCPIngress true).

(** The honest frame twice, cut in the middle of the first header and of the
    second payload, with a pause in between. *)
Definition toy_ins : list Arrival :=
  [Arrived (take 30 toy_good); Silence; Arrived (drop 30 toy_good ++ take 94 toy_good); Arrived (drop 94 toy_good)].

Lemma toy_ins_arrived : arrived toy_ins = concat [toy_good; toy_good].
Proof. vm_compute. reflexivity. Qed.

Lemma toy_ins_bytes : Forall is_byte (arrived toy_ins).
Proof. rewrite toy_ins_arrived. pose proof toy_good_bytes. cbn [concat]. rewrite app_nil_r. by apply Forall_app. Qed.

Lemma tcp_handleConn_reads_stream_witness :
  length (visible (tcp_handleConn toy_fw toy_ti toy_source 0 (mkConn toy_ins [] 0)).2) = 6%nat.
Proof.
  destruct (tcp_handleConn_reads_stream toy_fw toy_ti toy_source 0 toy_ins toy_ins_bytes) as [E _].
  rewrite E. vm_compute. reflexivity.
Defined.

Lemma toy_good_wire : wire_frame toy_fw toy_good.
Proof. repeat split; [vm_compute; discriminate|]. exists 92. repeat split; vm_compute; congruence. Qed.

Lemma framed_stream_roundtrip_witness :
  dispatched_frames (tcp_handleConn toy_fw toy_ti toy_source 0 (mkConn toy_ins [] 0)).2 = [toy_good; toy_good].
Proof.
  apply (framed_stream_roundtrip toy_fw toy_ti toy_source 0 [toy_good; toy_good] toy_ins).
  - pose proof toy_good_wire. apply Forall_cons_2; [assumption|]. apply Forall_cons_2; [assumption|apply Forall_nil_2].
  - discriminate.
  - rewrite <- toy_ins_arrived. exact toy_ins_bytes.
  - exact toy_ins_arrived.
Defined.

Lemma tcp_never_holds_across_blocking_read_witness :
  held 0 (conn_actions toy_fw toy_ti toy_source (conn_egress toy_fw ["eth0"] true None None) toy_ins) = Some 0.
Proof. apply tcp_never_holds_across_blocking_read. exact toy_ins_bytes. Defined.

Definition noSink : Sink := mkSink () (λ _ v _ _, (None, v)) None.

Lemma tcp_connection_served_witness :
  ∃ h', conn_serve (K := toyKernel) toy_fw toy_ti noSink toy_source "announce" toy_ins
      (conn_start (K := toyKernel) toy_fw noSink ∅ ["eth0"; "eth1"] true None None 100 [] ()) = Some h' ∧
    stripes_ok (w_chains (h_world h')) ∧ host_egr drained h'.
Proof.
  apply (tcp_connection_served (K := toyKernel) toy_fw toy_ti noSink toy_source "announce"); [discriminate|exact toy_ins_bytes].
Defined.
