(* ===== verification/ObjectProps.v ===== *)
(** * Properties of the object lanes *)

From S2P Require Import Prelude Common Chains BatchWriter RetryTee Coal Egress EgressFacts RateLimit SubtreeRoot Machine Forwarder Beef Coalesce Dispatch ForwarderFacts Lane LaneFacts Stream StreamFacts ObjectIngress Toy ToyLaws ToyKernel DispatchProps TcpIngress TcpFacts TcpProps.

(** Reframing turns bytes into bytes. *)
Class ReframeLaws {SC : ShardCommon} : Prop := {
  MulticastBytes_bytes c obj raw : Forall is_byte obj → MulticastBytes c obj = Some raw → Forall is_byte raw }.

(** Nothing is queued. *)
Definition flushed (e : Egress) : Prop := Forall (λ q, q = []) (e_msgs e) ∧ e_meta e = [] ∧ e_pooled e = [].

Section Props.
Context {SC : ShardCommon} {SL : ShardLaws} {FL : ReframeLaws} {RT : GoRuntime} {K : Kernel}
  {OR : ObjReader} {RL : ReaderLaws}.
Context (fw : Settings) (oi : ObjectIngress) (remote : option NetAddr).

(** The reference reading of a whole push stream: every object up to the
    first one that cannot be read or reframed. *)
Fixpoint obj_actions (fuel : nat) (bs : bytes) : list Action :=
  match fuel with
  | O => []
  | S fuel =>
      match next_object (oi_class oi) (obj_read_bound fw oi remote) bs with
      | (ReadError (Some ErrObjectTooLarge), _) =>
          if bool_decide (oi_class oi = ClassBEEF) then [ARecord (EvBEEFSubmission "oversize")] else []
      | (ReadError _, _) => []
      | (GotObject obj, bs) =>
          AAdmit 1 (Zlen obj) ::
          match reframe oi obj with Some a => a :: obj_actions fuel bs | None => [] end
      end
  end.

Lemma reframe_spec obj a :
  Forall is_byte obj → reframe oi obj = Some a →
  ∃ raw class, a = ADispatch raw class ∧ Forall is_byte raw ∧
    class = (if bool_decide (oi_class oi = ClassBEEF) then IngressBEEF else IngressPrivileged).
Proof.
  intros Hb. unfold reframe. destruct (bool_decide _); [intros [= <-]; eauto|].
  destruct (MulticastBytes _ obj) as [raw|] eqn:E; [|done]. intros [= <-]. exists raw, IngressPrivileged.
  split_and!; [done|by eapply MulticastBytes_bytes|done].
Qed.

Lemma obj_actions_ok fuel bs : Forall is_byte bs → Forall action_ok (obj_actions fuel bs).
Proof.
  revert bs. induction fuel as [|fuel IH]; intros bs Hb; [constructor|]. cbn [obj_actions]. unfold next_object.
  destruct (reader_step _ _ bs) as [n|n|[]]; try by constructor.
  - constructor; [done|]. destruct (reframe oi _) as [a|] eqn:E; [|constructor].
    apply reframe_spec in E as (raw & class & -> & Hr & _); [|by apply Forall_take].
    constructor; [done|]. by apply IH, Forall_drop.
  - destruct (bool_decide _); by repeat constructor.
Qed.

Lemma obj_actions_fuel fuel fuel' bs :
  (length bs < fuel)%nat → (length bs < fuel')%nat → obj_actions fuel bs = obj_actions fuel' bs.
Proof.
  revert fuel' bs. induction fuel as [|fuel IH]; intros fuel' bs Hf Hf'; [lia|]. destruct fuel' as [|fuel']; [lia|].
  cbn [obj_actions]. unfold next_object. destruct (reader_step _ _ bs) as [n|n|e] eqn:E; try done.
  apply reader_whole in E. f_equal. destruct (reframe oi _); [|done]. f_equal. apply IH; rewrite length_drop; lia.
Qed.

(** ** The handler *)

Definition idle (c : Conn) : Prop := cn_pending c = 0 ∧ cn_buf c = [].

Lemma plain_Read_front : reads_front plain_Read idle.
Proof.
  intros n c Hn [Hp Hbuf]. eapply rspec_mono; [by apply conn_Read_final|]. intros r c' a (Q & B & G).
  assert (Hc : ∀ c0, cn_buf c0 = [] → content c0 = arrived (cn_in c0)) by (intros c0 E0; unfold content; by rewrite E0).
  split_and!; [done| |].
  - split; [|by rewrite B]. destruct Q as [_ _ [-> | ->]]; done.
  - unfold took. rewrite (Hc c), (Hc c') by (by rewrite ?B). exact G.
Qed.

Lemma obj_loop_spec fuel win c :
  idle c → Forall is_byte (win ++ content c) →
  rspec (obj_handleConn_loop fw oi remote fuel win) c (λ _ c' a,
    visible a = obj_actions fuel (win ++ content c) ∧ held 0 a = Some 0).
Proof.
  revert win c. induction fuel as [|fuel IH]; intros win c Hi Hb; cbn [obj_handleConn_loop obj_actions].
  { by apply rspec_ret. }
  apply rspec_bind. eapply rspec_mono; [apply (rd_Next_spec _ idle); [apply plain_Read_front|done]|].
  intros [r w1] c1 a1 (Q1 & I1 & E1 & W1). cbn [fst snd] in *.
  assert (Hh : held 0 a1 = Some 0) by (destruct Q1 as [_ Hh _]; by rewrite (proj1 Hi), (proj1 I1) in Hh).
  assert (Hv : ∀ b, visible (a1 ++ b) = visible b) by (intros b; by rewrite visible_app, (qu_visible _ _ _ Q1)).
  assert (Hd : ∀ obj rest, next_object (oi_class oi) (obj_read_bound fw oi remote) (win ++ content c) = (GotObject obj, rest) →
    Forall is_byte obj ∧ Forall is_byte rest).
  { intros obj rest. unfold next_object. destruct (reader_step _ _ _); try done. intros [= <- <-].
    split; [by apply Forall_take|by apply Forall_drop]. }
  destruct (next_object _ _ (win ++ content c)) as [d rest]. cbn [fst snd] in *. subst d. destruct r as [obj|e].
  - specialize (W1 obj eq_refl). destruct (Hd obj rest eq_refl) as [Hbo Hbr].
    apply rspec_bind, rspec_act. destruct (reframe oi obj) as [a|] eqn:Er.
    + apply reframe_spec in Er as (raw & class & -> & _); [|done].
      apply rspec_bind, rspec_act, rspec_bind, rspec_act. eapply rspec_mono; [apply IH; [done|by rewrite W1]|].
      intros [] c2 a2 [V2 H2]. rewrite W1 in V2. cbn [app]. rewrite Hv, held_app, Hh. split.
      * rewrite !visible_cons by done. unfold visible at 1. rewrite filter_cons_False by done.
        fold (visible a2). by rewrite V2.
      * cbn. rewrite (proj2 (Z.leb_le _ _)) by (unfold maxTCPBatch; lia). exact H2.
    + apply rspec_ret. rewrite Hv, held_app, Hh. done.
  - destruct e as [[]|]; [destruct (bool_decide _); [apply rspec_act|apply rspec_ret]|apply rspec_ret..];
      rewrite Hv, held_app, Hh; done.
Qed.

Lemma drain_flushed s via (h : Host (sink_state s)) :
  host_ok fw h → ∃ h', obj_flushEgr s via h = Some h' ∧ host_ok fw h' ∧ host_egr flushed h'.
Proof.
  intros Hh. unfold obj_flushEgr. destruct (wo_present _ _ Hh) as [e He]. rewrite He.
  pose proof (wo_egr fw _ Hh e He) as Ho. assert (Hf : flushed (flush_reset e).1).
  { split_and!; try done. simpl. rewrite Forall_fmap. by apply Forall_true. }
  unfold drain. destruct via.
  - eexists. split; [reflexivity|]. unfold egr_FlushVia. rewrite He.
    destruct (sink_flush s); (split; [by apply world_ok_egr, egr_ok_flush|by eexists]).
  - unfold egr_Flush. rewrite He. destruct (Flush_inline fw (h_net h) e Ho) as (evs & k & ->).
    eexists. split; [reflexivity|]. split; [by apply world_ok_egr, egr_ok_flush|by eexists].
Qed.

Definition obj_start (s : Sink) (env : Env) (targets : list string) (tee mirror : option UDPAddr)
    (clock : Z) (k : KState) (v : sink_state s) : Host (sink_state s) :=
  mkHost (newWorld env (Some (obj_egress fw targets (oi_rec oi) tee mirror)) clock) k v [].

Lemma obj_egress_ok targets rec tee mirror : fresh_egress fw (obj_egress fw targets rec tee mirror).
Proof.
  pose proof (egr_ok_New fw targets 1 rec). unfold obj_egress. destruct tee, mirror; auto using fresh_tee, fresh_mirror.
Qed.

(** C31: a push lane delivers the objects of its stream and nothing else.
    However the stream arrives, the handler observes and dispatches exactly
    the objects of the reference reading, up to the first that cannot be read
    or reframed, each under the class its lane is for; each is flushed before
    the next read of the connection; and serving the connection does not
    panic and leaves nothing queued. *)
Theorem object_lane_serves_stream s env targets tee mirror clock k v ins :
  Forall is_byte (arrived ins) →
  let acts := (obj_handleConn fw oi remote (mkConn ins [] 0)).2 in
  visible acts = obj_actions (S (length (arrived ins))) (arrived ins) ∧
  (∀ extra, obj_actions (S (length (arrived ins)) + extra) (arrived ins) =
     obj_actions (S (length (arrived ins))) (arrived ins)) ∧
  held 0 acts = Some 0 ∧
  ∃ h', obj_serve fw oi s remote ins (obj_start s env targets tee mirror clock k v) = Some h' ∧ host_egr flushed h'.
Proof.
  intros Hb acts. destruct (obj_loop_spec (S (length (arrived ins))) [] (mkConn ins [] 0)) as [Hv Hh]; [done..|].
  cbn [app] in Hv. change (content (mkConn ins [] 0)) with (arrived ins) in Hv.
  change (obj_handleConn_loop fw oi remote (S (length (arrived ins))) [] (mkConn ins [] 0))
    with (obj_handleConn fw oi remote (mkConn ins [] 0)) in Hv, Hh. fold acts in Hv, Hh.
  split_and!; [done|intros; apply obj_actions_fuel; lia|done|].
  unfold obj_serve. fold acts. rewrite perform_all_app. destruct (obj_egress_ok targets (oi_rec oi) tee mirror) as [He _].
  destruct (perform_all_ok fw (oi_rec oi) (oi_hooks oi) remote "none" (obj_flushEgr s (oi_via oi)) ltac:(done)
    ltac:(intros h0 H0; destruct (drain_flushed s (oi_via oi) h0 H0) as (h1 & ? & ? & _); eauto)
    acts (obj_start s env targets tee mirror clock k v)) as (h1 & -> & H1).
  - apply visible_ok. rewrite Hv. by apply obj_actions_ok.
  - by apply newWorld_ok.
  - cbn. destruct (drain_flushed s (oi_via oi) h1 H1) as (h2 & -> & _ & D). by exists h2.
Qed.
End Props.

(** ** Witness *)

Lemma toy_hash_bytes l : Forall is_byte (toy_hash l).
Proof.
  unfold toy_hash. apply Forall_app. split; [|apply be_put_bytes]. apply Forall_replicate. unfold is_byte. lia.
Qed.

#[export] Instance toyReframeLaws : @ReframeLaws toy.
Proof.
  split. assert (Hz : ∀ n, Forall is_byte (zeros n)) by (intros n; apply Forall_replicate; unfold is_byte; lia).
  assert (Hf : ∀ ver b7 obj, is_byte ver → is_byte b7 → Forall is_byte obj →
    Forall is_byte (toy_frame ver b7 (toy_hash obj) (zeros 32) obj)).
  { intros ver b7 obj Hv H7 Ho. unfold toy_frame. pose proof (toy_hash_bytes obj).
    repeat (apply Forall_app; split); try done; try apply be_put_bytes; try apply Hz. by repeat apply Forall_cons_2. }
  intros [] obj raw Ho; simpl; try done; intros [= <-]; apply Hf; unfold is_byte; try done; cbv; by split.
Qed.

#[local] Existing Instance exactRuntime.

Definition toy_oi : ObjectIngress := NewObjectIngress true ClassBlock.
Definition toy_objects : list Arrival := [Arrived [3; 7]; Silence; Arrived [9; 4; 1; 1]; Arrived [1]].

Lemma object_lane_serves_stream_witness :
  let acts := (obj_handleConn toy_fw toy_oi toy_source (mkConn toy_objects [] 0)).2 in
  length (dispatched_frames acts) = 2%nat ∧ held 0 acts = Some 0.
Proof.
  destruct (object_lane_serves_stream (K := toyKernel) toy_fw toy_oi toy_source noSink ∅ ["eth0"] None None 100 [] ()
    toy_objects) as (Hv & _ & Hh & _).
  - repeat (apply Forall_cons_2; [unfold is_byte; lia|]). apply Forall_nil_2.
  - split; [|exact Hh]. rewrite <- dispatched_visible, Hv. vm_compute. reflexivity.
Defined.
