(* ===== verification/Simulation.v ===== *)
(** * What the pipeline does not depend on

    The forwarder never looks at the metrics it has recorded, at the tees, at
    which pooled buffer it was handed, or at what is already queued for a
    socket.  [wsim nc P] relates two states that differ in those only: the
    queues of the left one start with the datagrams [P] that the right one
    has already written; with [nc] neither coalesces.  Every operation takes related states to related
    states and returns the same result ([resp]). *)

From S2P Require Import Prelude Common Chains BatchWriter RetryTee Coal Egress RateLimit SubtreeRoot Machine Forwarder Beef Coalesce Dispatch.

Section Sim.
Context {SC : ShardCommon} {RT : GoRuntime} (nc : bool) (P : list (list Message)).
Implicit Types (fw : Settings) (worker : Z) (raw : bytes) (w : World) (e : Egress).

Record esim e e' : Prop := mkEsim {
  es_targets : e_targets e = e_targets e';
  es_reliable : e_reliable e = e_reliable e';
  es_msgs : e_msgs e = zip_with app P (e_msgs e');
  es_len : length P = length (e_msgs e');
  es_cache : e_addrCache e = e_addrCache e';
  es_pool : pool_size <$> e_pool e = pool_size <$> e_pool e';
  es_coal : e_coal e = e_coal e';
  es_nocoal : nc = true → e_coal e' = None;
  es_inline : e_sendQ e = None ∧ e_sendQ e' = None }.

Record wsim w w' : Prop := mkWsim {
  ws_chains : w_chains w = w_chains w';
  ws_addrs : w_groupAddrs w = w_groupAddrs w';
  ws_bridging : w_bridging w = w_bridging w';
  ws_limit : w_beefLimit w = w_beefLimit w';
  ws_env : w_env w = w_env w';
  ws_clock : w_clock w = w_clock w';
  ws_egr : option_Forall2 esim (w_egr w) (w_egr w') }.

Definition resp {A} (R : A → A → Prop) (m m' : M A) : Prop :=
  ∀ w w', wsim w w' → option_Forall2 (λ r r', R r.1 r'.1 ∧ wsim r.2 r'.2) (m w) (m' w').

Abbreviation same m := (resp (=) m m).

(** ** The monad *)

Lemma resp_ret {A} (R : A → A → Prop) x y : R x y → resp R (mret x) (mret y).
Proof. intros Hx w w' Hw. by constructor. Qed.

Lemma resp_panic {A} (R : A → A → Prop) : resp R panic panic.
Proof. intros w w' Hw. constructor. Qed.

Lemma resp_bind {A B} (R : A → A → Prop) (S : B → B → Prop) m m' f f' :
  resp R m m' → (∀ x y, R x y → resp S (f x) (f' y)) → resp S (m ≫= f) (m' ≫= f').
Proof.
  intros Hm Hf w w' Hw. unfold mbind, M_bind. destruct (Hm w w' Hw) as [[x v] [y v'] [HR Hv]|]; [|constructor].
  by apply Hf.
Qed.

(** The case of equal results, for the tactic below. *)
Lemma resp_bind_eq {A B} (S : B → B → Prop) (m m' : M A) f f' :
  resp (=) m m' → (∀ x, resp S (f x) (f' x)) → resp S (m ≫= f) (m' ≫= f').
Proof. intros Hm Hf. eapply resp_bind; [exact Hm|]. intros x ? <-. apply Hf. Qed.

Lemma resp_gets {A} (R : A → A → Prop) (f g : World → A) :
  (∀ w w', wsim w w' → R (f w) (g w')) → resp R (gets f) (gets g).
Proof. intros Hf w w' Hw. constructor. split; [by apply Hf|done]. Qed.

Lemma resp_modify f g : (∀ w w', wsim w w' → wsim (f w) (g w')) → resp (=) (modify f) (modify g).
Proof. intros Hf w w' Hw. constructor. split; [done|]. by apply Hf. Qed.

Lemma resp_record fw ev ev' : resp (=) (record fw ev) (record fw ev').
Proof. unfold record. destruct (s_rec fw); [|by apply resp_ret]. apply resp_modify. by intros w w' []. Qed.

(** Interface names reach only metrics. *)
Lemma resp_iface : same iface_of.
Proof.
  apply resp_gets. intros w w' Hw. destruct (ws_egr w w' Hw) as [e e' [Ht]|]; [|done]. unfold egrIface. by rewrite Ht.
Qed.

Lemma resp_get_egr : resp (option_Forall2 esim) (gets w_egr) (gets w_egr).
Proof. apply resp_gets. by intros w w' []. Qed.

Lemma resp_get_bridging : same (gets w_bridging).
Proof. apply resp_gets. by intros w w' []. Qed.

Lemma wsim_egr w w' e e' : wsim w w' → esim e e' → wsim (w <| w_egr := Some e |>) (w' <| w_egr := Some e' |>).
Proof. intros [] He. split; try done. by constructor. Qed.

Lemma resp_on_egress fits f g :
  (∀ e e', esim e e' → fits e = fits e' ∧ esim (f e) (g e')) → resp (=) (on_egress fits f) (on_egress fits g).
Proof.
  intros Hf w w' Hw. unfold on_egress. destruct (ws_egr w w' Hw) as [e e' He|]; [|by constructor].
  destruct (Hf e e' He) as [-> Hfg]. destruct (fits e'); constructor. split; [done|]. by apply wsim_egr.
Qed.

Lemma resp_need {A} (x : option A) : same (need x).
Proof. destruct x; [by apply resp_ret|apply resp_panic]. Qed.

(** The indices of [enqueue] depend on nothing the relation forgets. *)
Lemma esim_fits label n e e' : esim e e' → enqueue_fits label n e = enqueue_fits label n e'.
Proof.
  intros [Ht Hr Hm Hl Hc Hp Hco Hn Hs]. unfold enqueue_fits. rewrite Ht, Hc. do 2 f_equal.
  rewrite Hm, length_zip_with. lia.
Qed.

(** ** The egress *)

Lemma enqueue_targets_sim cacheable g raw dst zones Q qs caches :
  length Q = length qs →
  let r := enqueue_targets cacheable g raw dst zones (zip_with app Q qs) caches in
  let r' := enqueue_targets cacheable g raw dst zones qs caches in
  r.1 = zip_with app Q r'.1 ∧ r.2 = r'.2.
Proof.
  cbv zeta. revert Q qs caches. induction zones as [|z zones IH]; intros [|p Q] [|q qs] [|c caches] Hl; try done.
  cbn [enqueue_targets zip_with]. destruct (IH Q qs caches) as [E1 E2]; [simpl in Hl; lia|].
  cbn [fst snd zip_with]. rewrite E1, E2. unfold enqueue_target. destruct cacheable; cbn [fst snd]; by rewrite app_assoc.
Qed.

Lemma esim_enqueue d dst m p p' e e' : esim e e' → esim (enqueue d dst m p e) (enqueue d dst m p' e').
Proof.
  intros [Ht Hr Hm Hl Hc Hp Hco Hn [Hs Hs']].
  destruct (enqueue_targets_sim (String.eqb (mm_label m) "" && (mm_group m <? maxGroupCache)) (mm_group m) d dst
    (e_targets e') P (e_msgs e') (e_addrCache e') Hl) as [E1 E2].
  split; cbn; try done.
  - by rewrite Ht, Hm, Hc.
  - rewrite Hl. generalize (e_targets e') (e_addrCache e'). clear. intros zs cs. revert zs cs.
    induction (e_msgs e') as [|q qs IH]; intros [|z zs] [|c cs]; try done. cbn. by rewrite <- IH.
  - by rewrite Ht, Hm, Hc.
Qed.

Lemma esim_PoolGet e e' : esim e e' →
  option_Forall2 (λ _ _, True) (PoolGet e).1 (PoolGet e').1 ∧ esim (PoolGet e).2 (PoolGet e').2.
Proof.
  intros [Ht Hr Hm Hl Hc Hp Hco Hn Hs]. unfold PoolGet. destruct (e_pool e) as [p|] eqn:E, (e_pool e') as [p'|] eqn:E'; try done.
  - split; [by constructor|]. split; try done. cbn. unfold pool_get. injection Hp as Hp.
    destruct (pool_free p), (pool_free p'); cbn; by rewrite Hp.
  - split; [constructor|]. split; try done; cbn; by rewrite ?E, ?E'.
Qed.

Lemma esim_PoolPut b b' e e' : esim e e' → esim (PoolPut b e) (PoolPut b' e').
Proof.
  intros [Ht Hr Hm Hl Hc Hp Hco Hn Hs]. split; try done. cbn.
  destruct (e_pool e), (e_pool e'); try done; cbn; by injection Hp as ->.
Qed.

Lemma esim_coal (f : coalBuffer → coalBuffer) e e' : esim e e' →
  esim (e <| e_coal ::= fmap f |>) (e' <| e_coal ::= fmap f |>).
Proof. intros [Ht Hr Hm Hl Hc Hp Hco Hn Hs]. split; try done; cbn; [by rewrite Hco|]. intros E. by rewrite (Hn E). Qed.

Lemma resp_enqueue label n d dst m : same (queue label n (enqueue d dst m None)).
Proof. apply resp_on_egress. intros. split; [by apply esim_fits|by apply esim_enqueue]. Qed.

Lemma resp_coal f : same (on_egress (λ _, true) (λ e, e <| e_coal ::= fmap f |>)).
Proof. apply resp_on_egress. intros. split; [done|by apply esim_coal]. Qed.
End Sim.

Create HintDb resp.
#[export] Hint Resolve resp_ret resp_panic resp_record resp_iface resp_get_bridging resp_enqueue resp_coal resp_need : resp.

(** Peel binds whose first action is known, and case distinctions. *)
Ltac resp :=
  intros; cbv zeta;
  lazymatch goal with
  | |- resp _ _ _ (_ ≫= _) (_ ≫= _) =>
      first [solve [eauto with resp] | eapply resp_bind_eq; [solve [resp]|intros ?; resp]]
  | |- resp _ _ _ (match ?x with _ => _ end) _ => first [solve [eauto with resp] | destruct x; resp]
  | |- resp _ _ _ _ _ => try solve [eauto with resp]
  end.

Section Ops.
Context {SC : ShardCommon} {RT : GoRuntime} (nc : bool) (P : list (list Message)).
Implicit Types (fw : Settings) (worker : Z) (raw : bytes) (w : World) (e : Egress).

#[local] Abbreviation same m := (resp nc P (=) m m).

(** ** Shared steps *)

Lemma resp_drop_as fw worker why : same (drop_as fw worker why).
Proof. unfold drop_as. resp. Qed.

Lemma resp_drop_decode fw worker : same (drop_decode fw worker).
Proof.
  unfold drop_decode. eapply resp_bind; [apply resp_get_egr|]. intros ? ? [e e' [->]|]; resp.
Qed.

Lemma resp_claimIn fw st prefix txid ft iface worker : same (claimIngressIn fw st prefix txid ft iface worker).
Proof.
  unfold claimIngressIn. destruct st as [st|]; [|resp]. eapply resp_bind_eq.
  { apply resp_gets. by intros w w' []. }
  intros env. eapply resp_bind_eq; [apply resp_modify; by intros w w' []|]. resp.
Qed.

Lemma resp_addrFor fw idx : same (addrFor fw idx).
Proof.
  unfold addrFor. eapply resp_bind_eq; [apply resp_gets; by intros w w' []|]. intros cache.
  destruct (_ <=? _); [resp|]. eapply resp_bind_eq; [resp|]. intros [a|]; [resp|].
  cbv zeta; eapply resp_bind_eq; [|resp]; apply resp_modify; intros w w' []; split; try done; cbn; congruence.
Qed.

Lemma resp_reserve_seq ip g sub n : same (reserve_seq ip g sub n).
Proof.
  intros w w' Hw. unfold reserve_seq. constructor. cbn. rewrite (ws_chains nc P w w' Hw). split; [done|].
  destruct Hw. by split.
Qed.

Lemma resp_next_seq ip g sub : same (next_seq ip g sub).
Proof. apply (resp_reserve_seq ip g sub 1). Qed.
End Ops.
#[export] Hint Resolve resp_drop_as resp_drop_decode resp_claimIn resp_addrFor resp_reserve_seq resp_next_seq : resp.

Section Pipeline.
Context {SC : ShardCommon} {RT : GoRuntime} (nc : bool) (P : list (list Message)).
Implicit Types (fw : Settings) (worker : Z) (raw : bytes) (w : World) (e : Egress).

#[local] Abbreviation same m := (resp nc P (=) m m).

Lemma resp_stamp fw raw ip g sub : same (stampInPlace fw raw ip g sub).
Proof. unfold stampInPlace. resp. Qed.

Lemma resp_frag_total fw payload worker : same (frag_total fw payload worker).
Proof. unfold frag_total. resp. Qed.

Lemma resp_frag_loop piece patch label g' build dst mk ip g sub i n :
  same (frag_loop (mkFragChecks piece patch (enqueue_fits label g')) build (λ d b, enqueue d dst (mk d) (Some b)) ip g sub i n).
Proof.
  revert i. induction n as [|n IH]; intros i; [resp|]. cbn [frag_loop fc_piece fc_patch fc_queue].
  eapply resp_bind_eq; [destruct (piece i); resp|]. intros _. eapply resp_bind_eq; [resp|]. intros s. eapply resp_bind; [apply resp_get_egr|]. intros e0 e0' He0.
  eapply resp_bind_eq; [|intros _; apply IH]. destruct He0 as [e e' He|]; [|resp].
  pose proof (es_pool nc P e e' He) as Hp. destruct (esim_PoolGet nc P e e' He) as [Hb Hg].
  destruct (e_pool e) as [p|], (e_pool e') as [p'|]; try done; [|resp].
  destruct (PoolGet e) as [b e1], (PoolGet e') as [b' e1']. cbn [fst snd] in Hb, Hg.
  destruct Hb as [b b' _|]; [|resp]. injection Hp as ->.
  destruct (build (pool_size p') i s.1 s.2) as [d|].
  1: rewrite (esim_fits _ _ _ _ _ _ Hg); destruct (patch _ && _); [|resp].
  all: apply resp_modify; intros w w' Hw; apply wsim_egr; try done.
  - by apply esim_enqueue.
  - by apply esim_PoolPut.
Qed.
#[local] Hint Resolve resp_stamp resp_frag_total : resp.

Lemma resp_fragment fw f ip g worker : same (fragment fw f ip g worker).
Proof. unfold fragment. resp. apply (resp_frag_loop _ _ _ _ _ _ (λ d, mkMeta g (Zlen d) worker "" true)). Qed.

Lemma resp_fragmentBlock fw raw bf ip g worker : same (fragmentBlock fw raw bf ip g worker).
Proof. unfold fragmentBlock. resp. apply (resp_frag_loop _ _ _ _ _ _ (λ d, mkMeta 0 (Zlen d) worker "block_control" true)). Qed.

Lemma resp_fragmentSubtreeData fw raw sf ip g worker : same (fragmentSubtreeData fw raw sf ip g worker).
Proof. unfold fragmentSubtreeData. resp. apply (resp_frag_loop _ _ _ _ _ _ (λ d, mkMeta 0 (Zlen d) worker "subtree_data" true)). Qed.

Lemma resp_fragmentBEEF fw bf ip g worker : same (fragmentBEEF fw bf ip g worker).
Proof. unfold fragmentBEEF, beefFragTotal. resp. apply (resp_frag_loop _ _ _ _ _ _ (λ d, mkMeta g (Zlen d) worker "" true)). Qed.

(** An action taken when the lane has an egress. *)
Lemma resp_if_egr {A} (m n : M A) :
  same m → same n → same (e ← gets w_egr; match e with None => m | Some _ => n end).
Proof. intros Hm Hn. eapply resp_bind; [apply resp_get_egr|]. by intros ? ? []. Qed.

Lemma resp_emit_tx fw raw txid g worker : same (emit_tx fw raw txid g worker).
Proof. unfold emit_tx, emit_bridge, EnqueueData. apply resp_if_egr; resp. Qed.

Lemma resp_emit_beef fw raw g worker : same (emit_beef fw raw g worker).
Proof. unfold emit_beef, EnqueueData. apply resp_if_egr; resp. Qed.

Lemma resp_emit_ctrl fw raw group label worker : same (emit_ctrl fw raw group label worker).
Proof. unfold emit_ctrl, EnqueueCacheable. resp. Qed.

Lemma resp_ForwardControl fw raw idx label port : same (ForwardControl fw raw idx label port).
Proof. unfold ForwardControl, EnqueueControl. resp. Qed.

#[local] Hint Resolve resp_fragment resp_fragmentBlock resp_fragmentSubtreeData resp_fragmentBEEF
  resp_emit_tx resp_emit_beef resp_emit_ctrl : resp.

(** ** Frames *)

Lemma resp_coalescable fw f : same (gets (λ w, coalescable fw w f)).
Proof.
  apply resp_gets. intros w w' Hw. unfold coalescable. rewrite (ws_bridging nc P w w' Hw).
  destruct (ws_egr nc P w w' Hw) as [e e' He|]; [|done]. unfold CoalArmed. by rewrite (es_coal nc P e e' He).
Qed.
#[local] Hint Resolve resp_coalescable : resp.

Lemma resp_process fw raw src worker verify : same (process fw raw src worker verify).
Proof. unfold process, route_tx, claimIngress. resp. Qed.

Lemma resp_ProcessBlock fw raw src worker : same (ProcessBlock fw raw src worker).
Proof. unfold ProcessBlock, claimIngress. resp. Qed.

Lemma resp_ProcessAnchor fw raw src worker : same (ProcessAnchor fw raw src worker).
Proof. unfold ProcessAnchor, claimIngress. resp. Qed.

Lemma resp_subtree_root_gate fw sf : same (subtree_root_gate fw sf).
Proof. unfold subtree_root_gate. resp. Qed.
#[local] Hint Resolve resp_process resp_ProcessBlock resp_ProcessAnchor resp_subtree_root_gate : resp.

Lemma resp_ProcessSubtreeData fw raw src worker : same (ProcessSubtreeData fw raw src worker).
Proof. unfold ProcessSubtreeData, claimIngress. resp. Qed.

Lemma resp_charge_beef src n : same (charge_beef src n).
Proof.
  intros w w' Hw. unfold charge_beef. rewrite (ws_limit nc P w w' Hw), (ws_clock nc P w w' Hw).
  destruct (w_beefLimit w') eqn:E; constructor; (split; [done|]); [|done]. destruct Hw. by split.
Qed.
#[local] Hint Resolve resp_ProcessSubtreeData resp_charge_beef : resp.

Lemma resp_checkBEEF fw raw src worker chk : same (checkBEEF fw raw src worker chk).
Proof. unfold checkBEEF, claim_beef, claimBEEFIngress. resp. Qed.
#[local] Hint Resolve resp_checkBEEF : resp.

Lemma resp_processBEEF fw raw src worker chk : same (processBEEF fw raw src worker chk).
Proof. unfold processBEEF. resp. Qed.
#[local] Hint Resolve resp_processBEEF : resp.

Lemma resp_DispatchBEEF fw p src worker : same (DispatchBEEF fw p src worker).
Proof. unfold DispatchBEEF, meter_beef. resp. Qed.

Lemma resp_ProcessBundle fw raw worker : same (ProcessBundle fw raw worker).
Proof.
  unfold ProcessBundle, EnqueueData. destruct (_ <? _); [resp|]. eapply resp_bind_eq; [resp|]. intros magic.
  eapply resp_bind_eq; [destruct (negb _); resp|]. intros []; [resp|]. apply resp_if_egr; resp.
Qed.

Lemma resp_dispatchBareTx fw tx src worker : same (dispatchBareTx fw tx src worker).
Proof. unfold dispatchBareTx. resp. Qed.
#[local] Hint Resolve resp_DispatchBEEF resp_ProcessBundle resp_dispatchBareTx : resp.

(** The whole of dispatch. *)
Lemma resp_DispatchClass fw raw src worker class : same (DispatchClass fw raw src worker class).
Proof.
  unfold DispatchClass, SubmitBEEF, rejectOnBEEFLane, rejectPrivileged, ProcessBEEF, Process. resp.
Qed.

(** ** Bundles *)

Lemma resp_flush_bucket fw mm iface worker bk dst fuel ms : same (flush_bucket fw mm iface worker bk dst fuel ms).
Proof.
  revert ms. induction fuel as [|fuel IH]; intros [|m ms]; try by resp. cbn [flush_bucket]. cbv zeta.
  eapply resp_bind_eq; [resp|]. intros s. eapply resp_bind_eq; [|intros; apply IH]. unfold EnqueueData. resp.
Qed.
#[local] Hint Resolve resp_flush_bucket : resp.

Lemma resp_flush_buckets fw mm iface worker bks : same (flush_buckets fw mm iface worker bks).
Proof. induction bks as [|bk bks IH]; cbn [flush_buckets]; resp. Qed.

Lemma resp_FlushCoalesced fw worker : same (FlushCoalesced fw worker).
Proof.
  unfold FlushCoalesced. eapply resp_bind; [apply resp_get_egr|]. intros ? ? [e e' He|]; [|resp].
  rewrite (es_coal nc P e e' He). unfold egrIface. rewrite (es_targets nc P e e' He).
  destruct (e_coal e') as [c|]; [|resp]. destruct (c_buckets c) as [|bk bks]; [resp|].
  eapply resp_bind_eq; [apply resp_flush_buckets|]. resp.
Qed.
End Pipeline.
#[export] Hint Resolve resp_DispatchClass resp_dispatchBareTx resp_ForwardControl resp_FlushCoalesced : resp.
