(* ===== verification/Delivery.v ===== *)
(** * Batching, losses and segmentation

    Two runs of a lane side by side: one over any kernel, flushing when the
    code flushes, and one over a perfect kernel that is flushed at once.
    [hsim P] relates them: same pipeline state, and what the left one has
    written followed by what it still holds ([P]) is what the right one has
    written, up to datagrams its kernel refused. *)

From S2P Require Import Prelude Common Chains BatchWriter RetryTee Coal Egress EgressFacts RateLimit SubtreeRoot Machine Forwarder Beef Coalesce Dispatch ForwarderFacts Simulation Lane LaneFacts.

(** ** What reaches the network

    [logged K] is the kernel [K] with a log of the datagrams it accepted, in
    order, by socket; [perfect] accepts everything.  The log is read by
    nothing: it makes what a run puts on each interface a value theorems can
    speak of. *)

#[export] Instance WriterId_eq_dec : EqDecision WriterId.
Proof. solve_decision. Defined.

Definition Log : Type := list (WriterId * Message).

Definition logged (K : Kernel) : Kernel := {|
  KState := @KState K * Log;
  WriteBatch w k ms :=
    let r := @WriteBatch K w k.1 ms in
    (r.1, (r.2, k.2 ++ (pair w <$> take (Z.to_nat (batch_advance r.1.1 ms)) ms))) |}.

Definition perfect : Kernel := {|
  KState := ();
  WriteBatch _ _ ms := ((Zlen ms, None), ()) |}.

(** A kernel that accepts every batch whole. *)
Definition lossless (K : Kernel) : Prop := ∀ w k ms, ms ≠ [] → (@WriteBatch K w k ms).1 = (Zlen ms, None).

Lemma perfect_lossless : lossless perfect.
Proof. done. Qed.

(** The datagrams of one interface, in the order they were sent. *)
Definition wire (i : nat) (log : Log) : list Message :=
  omap (λ x, if decide (x.1 = WTarget i) then Some x.2 else None) log.

Lemma wire_app i l l' : wire i (l ++ l') = wire i l ++ wire i l'.
Proof. apply omap_app. Qed.

Lemma wire_own i ms : wire i (pair (WTarget i) <$> ms) = ms.
Proof. induction ms as [|m ms IH]; [done|]. cbn. rewrite decide_True by done. by f_equal. Qed.

Lemma wire_other i j ms : i ≠ j → wire j (pair (WTarget i) <$> ms) = [].
Proof. intros Hn. induction ms as [|m ms IH]; [done|]. cbn. rewrite decide_False by congruence. done. Qed.

Section Logged.
Context (K : Kernel).

Abbreviation all := (@writeBatchAll (logged K)).
Abbreviation reliable_loop := (@reliableLoop (logged K)).

(** A drain logs the prefix it reports. *)
Lemma writeBatchAll_log w k ms :
  (all w k ms).2.2 = k.2 ++ (pair w <$> take (Z.to_nat (all w k ms).1.1) ms).
Proof.
  apply (writeBatchAll_ind (H := logged K) (λ k ms r, r.2.2 = k.2 ++ (pair w <$> take (Z.to_nat r.1.1) ms))).
  - intros k0. cbn. by rewrite app_nil_r.
  - done.
  - intros k0 ms0 Hms He Hn. cbn in Hn |- *. unfold batch_advance. rewrite (proj2 (Z.ltb_ge _ _)) by lia.
    cbn. by rewrite app_nil_r.
  - intros k0 ms0 off r Hms He Hn Hoff Hr IH. cbn [fst snd]. rewrite IH. cbn. rewrite <- app_assoc. f_equal.
    rewrite <- fmap_app. f_equal. pose proof (batch_advance_range (@WriteBatch K w k0.1 ms0).1.1 ms0).
    cbn in Hoff. assert (0 ≤ r.1.1) by (rewrite Hr; apply (writeBatchAll_range (H := logged K))).
    assert (0 ≤ off) by (rewrite Hoff; lia). rewrite <- Hoff, Z2Nat.inj_add by done. apply take_take_drop.
Qed.

(** The prefix is the whole batch when the kernel takes everything. *)
Lemma writeBatchAll_lossless w k ms : lossless K → (all w k ms).1 = (Zlen ms, None).
Proof.
  intros HK. destruct (decide (ms = [])) as [->|Hms]; [done|].
  assert (Hpos : 0 < Zlen ms) by (destruct ms; [done|]; rewrite Zlen_cons; pose proof (Zlen_nonneg ms); lia).
  rewrite (writeBatchAll_unfold (H := logged K)) by done. cbn. rewrite (HK w k.1 ms Hms). cbn.
  assert (Ha : batch_advance (Zlen ms) ms = Zlen ms).
  { unfold batch_advance. rewrite Z.ltb_irrefl. by rewrite (proj2 (Z.ltb_lt _ _)). }
  rewrite Ha. rewrite (proj2 (Z.leb_gt _ _)) by done.
  unfold Zlen. rewrite Nat2Z.id, drop_all. rewrite writeBatchAll_nil. cbn. by rewrite Z.add_0_r.
Qed.

(** The reliable drain logs a prefix too, retries included. *)
Lemma reliableLoop_log fuel w k ms attempts :
  ∃ n, (reliable_loop fuel w k ms attempts).2.2 = k.2 ++ (pair w <$> take n ms) ∧
    (lossless K → (0 < fuel)%nat → n = length ms).
Proof.
  revert k ms attempts. induction fuel as [|fuel IH]; intros k ms attempts.
  { exists 0%nat. split; [|lia]. destruct ms; cbn; by rewrite app_nil_r. }
  destruct ms as [|m ms]; [exists 0%nat; split; [cbn; by rewrite app_nil_r|done]|].
  cbn [reliableLoop]. cbv zeta. pose proof (writeBatchAll_log w k (m :: ms)) as Hlog.
  pose proof (writeBatchAll_lossless w k (m :: ms)) as Hfull.
  set (r := all w k (m :: ms)) in *.
  assert (Hend : ∃ n, r.2.2 = k.2 ++ (pair w <$> take n (m :: ms)) ∧ (lossless K → (0 < S fuel)%nat → n = length (m :: ms))).
  { exists (Z.to_nat r.1.1). split; [done|]. intros HK _. rewrite (Hfull HK). unfold Zlen. cbn [fst]. by rewrite Nat2Z.id. }
  destruct (_ && _) eqn:Edone; [exact Hend|]. destruct (is_hard r.1.2); [exact Hend|].
  destruct (maxReliableRetries <=? _); [exact Hend|].
  destruct (IH r.2 (drop (Z.to_nat r.1.1) (m :: ms)) ((if 0 <? r.1.1 then 0 else attempts) + 1)) as (n & E & _).
  exists (Z.to_nat r.1.1 + n)%nat. split.
  - cbn [snd]. rewrite E, Hlog, <- app_assoc, <- fmap_app. do 2 f_equal. apply take_take_drop.
  - intros HK _. exfalso. rewrite (Hfull HK) in Edone. cbn [fst] in Edone.
    rewrite Z.leb_refl, andb_true_r in Edone. rewrite Zlen_cons in Edone. pose proof (Zlen_nonneg ms). lia.
Qed.

(** *** Flushes *)

(** [log'] is [log] with, on the interfaces from [i] on, a prefix of each
    queue written (all of it over a lossless kernel). *)
Definition wrote (i : nat) (qs : list (list Message)) (log log' : Log) : Prop :=
  ∀ j, ∃ l, wire j log' = wire j log ++ l ∧
    let q := if decide (i ≤ j)%nat then default [] (qs !! (j - i)%nat) else [] in
    l `prefix_of` q ∧ (lossless K → l = q).

Lemma wrote_cons i q qs log log1 log2 n :
  log1 = log ++ (pair (WTarget i) <$> take n q) → (lossless K → take n q = q) →
  wrote (S i) qs log1 log2 → wrote i (q :: qs) log log2.
Proof.
  intros -> Hn Hw j. destruct (Hw j) as (l & E & Hp & Hl). rewrite E, wire_app. cbv zeta in *.
  destruct (decide (i = j)) as [<-|Hij].
  - rewrite wire_own. exists (take n q ++ l). rewrite decide_False in Hp, Hl by lia.
    apply prefix_nil_inv in Hp as ->. rewrite app_nil_r, app_nil_r.
    rewrite decide_True, Nat.sub_diag by lia. split_and!; [done|apply prefix_take|exact Hn].
  - rewrite wire_other, app_nil_r by done. exists l. split; [done|]. destruct (decide (i ≤ j)%nat).
    + rewrite decide_True in Hp, Hl by lia. replace (j - i)%nat with (S (j - S i)) by lia. by split.
    + rewrite decide_False in Hp, Hl by lia. by split.
Qed.

Lemma flushTargets_wrote reliable rec i k targets qs meta :
  length qs = length targets →
  wrote i qs k.2 (@flushTargets (logged K) reliable rec i k targets qs meta).2.2.
Proof.
  revert i k targets. induction qs as [|q qs IH]; intros i k [|t targets] Hl; try done.
  { intros j. exists []. rewrite app_nil_r. cbv zeta. destruct (decide _); by split_and!. }
  cbn [flushTargets]. cbv zeta. cbn [snd].
  match goal with |- wrote _ _ _ (snd (snd (flushTargets _ _ _ (snd ?r) _ _ _))) => set (r0 := r) end.
  assert (Hr : ∃ n, r0.2.2 = k.2 ++ (pair (WTarget i) <$> take n q) ∧ (lossless K → take n q = q)).
  { subst r0. destruct q as [|m q]; [exists 0%nat; split; [cbn; by rewrite app_nil_r|done]|]. destruct reliable.
    - destruct (reliableLoop_log (reliable_fuel (m :: q) 0) (WTarget i) k (m :: q) 0) as (n & E & Hn).
      exists n. split; [exact E|]. intros HK. rewrite Hn by (done || unfold reliable_fuel; lia). apply firstn_all.
    - exists (Z.to_nat (all (WTarget i) k (m :: q)).1.1). split; [apply writeBatchAll_log|]. intros HK.
      rewrite writeBatchAll_lossless by done. unfold Zlen. cbn [fst]. rewrite Nat2Z.id. apply firstn_all. }
  destruct Hr as (n & E & Hn). eapply wrote_cons; [exact E|exact Hn|]. apply IH. simpl in Hl. lia.
Qed.
End Logged.

(** ** Two runs of a lane *)

Section Delivery.
Context {SC : ShardCommon} {SL : ShardLaws} {RT : GoRuntime} (K : Kernel) (fw : Settings) (nc : bool) {V : Type}.

Abbreviation HostK := (@Host SC RT (logged K) V).
Abbreviation HostP := (@Host SC RT (logged perfect) V).
Implicit Types (h : HostK) (g : HostP) (P : list (list Message)).

Record hsim P h g : Prop := mkHsim {
  hs_ok : host_ok fw g;
  hs_world : wsim nc P (h_world h) (h_world g);
  hs_admits : h_admits h = h_admits g;
  hs_wire : ∀ i, let left := wire i (h_net h).2 ++ default [] (P !! i) in
    left `sublist_of` wire i (h_net g).2 ∧ (lossless K → left = wire i (h_net g).2) }.

(** Nothing is queued. *)
Definition idle g : Prop := ∀ e, w_egr (h_world g) = Some e → Forall (λ q, q = []) (e_msgs e).

(** ** Operations *)

Lemma hsim_lift {A} (m : M A) Q P h g :
  safe fw m Q → resp nc P (=) m m → hsim P h g →
  ∃ h1 g1, lift m h = Some h1 ∧ lift m g = Some g1 ∧ hsim P h1 g1.
Proof.
  intros Hs Hm [Hok Hw Ha Hwire]. destruct (lift_safe fw m Q g Hs Hok) as (g1 & E' & Hok' & Hnet).
  unfold lift in *. destruct (Hm _ _ Hw) as [[x v] [y v'] [_ Hv]|]; [|done]. cbn in E' |- *. injection E' as <-.
  do 2 eexists. split_and!; [reflexivity..|]. by split.
Qed.

Lemma hsim_record P rec ev ev' h g : hsim P h g → hsim P (lane_record rec ev h) (lane_record rec ev' g).
Proof.
  intros [Hok Hw Ha Hwire]. split; [by apply lane_record_ok|..]; unfold lane_record; destruct rec; try done.
  by destruct Hw.
Qed.

(** ** Flushes *)

Lemma wsim_flushed P P' h g e e' evs evs' :
  wsim nc P (h_world h) (h_world g) → esim nc P' e e' →
  wsim nc P' (add_events evs (h_world h) <| w_egr := Some e |>) (add_events evs' (h_world g) <| w_egr := Some e' |>).
Proof. intros [] He. split; try done. by constructor. Qed.

Lemma zip_with_nil (Q qs : list (list Message)) : length Q = length qs → zip_with app Q ((λ _, []) <$> qs) = Q.
Proof. revert qs. induction Q as [|q Q IH]; intros [|q' qs] Hl; try done. cbn. rewrite app_nil_r. f_equal. apply IH. simpl in Hl. lia. Qed.

Lemma lookup_zip_app P (qs : list (list Message)) i : length P = length qs →
  default [] (zip_with app P qs !! i) = default [] (P !! i) ++ default [] (qs !! i).
Proof.
  revert qs i. induction P as [|p P IH]; intros [|q qs] [|i] Hl; try done. cbn. apply IH. simpl in Hl. lia.
Qed.

Lemma nil_zip (Q qs : list (list Message)) : Forall (λ q, q = []) qs → length Q = length qs →
  (λ _, []) <$> Q = zip_with app (replicate (length Q) []) qs.
Proof.
  intros Hq. revert Q. induction Hq as [|q qs -> Hq IH]; intros [|p Q] Hl; try done. cbn. f_equal. apply IH. by injection Hl.
Qed.

(** The right run writes its queue at once: it is ahead by that much more. *)
Lemma hsim_flush_right P h g : hsim P h g → ∃ Q g1, egr_Flush g = Some g1 ∧ hsim Q h g1 ∧ idle g1.
Proof.
  intros [Hok Hw Ha Hwire]. destruct (wo_present _ _ Hok) as [e' He']. pose proof (ws_egr _ _ _ _ Hw) as Hegr.
  rewrite He' in Hegr. inversion Hegr as [e ? Hes Hel|]; subst. symmetry in Hel.
  pose proof (wo_egr fw _ Hok e' He') as Ho'. pose proof (eo_targets _ (eo_queues _ _ Ho')) as Hlen.
  unfold egr_Flush. rewrite He'. unfold Flush. rewrite (eo_inline fw e' Ho'). cbn [mbind option_bind].
  exists (e_msgs e). eexists. split; [reflexivity|]. destruct Hes as [Ht Hr Hm Hl Hc Hp Hco Hn Hs].
  assert (Hlq : length (e_msgs e) = length (e_msgs e')) by (rewrite Hm, length_zip_with; lia).
  split; [split|].
  - by apply world_ok_egr, egr_ok_flush.
  - cbn. replace (h_world h) with (add_events [] (h_world h) <| w_egr := Some e |>)
      by (unfold add_events; destruct (h_world h); cbn in *; by rewrite Hel, app_nil_r).
    eapply wsim_flushed; [exact Hw|]. split; try done; cbn.
    + by rewrite zip_with_nil.
    + by rewrite length_fmap.
    + rewrite Hp. by destruct (e_pool e').
  - done.
  - intros i. cbv zeta. cbn. destruct (Hwire i) as [Hsub Heq]. cbv zeta in Hsub, Heq.
    destruct (flushTargets_wrote perfect (e_reliable e') (e_rec e') 0 (h_net g) (e_targets e') (e_msgs e') (e_meta e') Hlen i)
      as (l & E & _ & Hall).
    match goal with |- _ `sublist_of` ?b ∧ _ => assert (b = wire i (h_net g).2 ++ l) as -> by exact E end.
    rewrite decide_True, Nat.sub_0_r in Hall by lia. rewrite (Hall perfect_lossless), Hm, lookup_zip_app, app_assoc by done.
    split; [by apply sublist_app|]. intros HK. by rewrite (Heq HK).
  - intros e1. cbn. intros [= <-]. cbn. rewrite Forall_fmap. by apply Forall_true.
Qed.

(** The left run catches up. *)
Lemma hsim_flush_left P h g : hsim P h g → idle g →
  ∃ h1, egr_Flush h = Some h1 ∧ hsim (replicate (length P) []) h1 g.
Proof.
  intros [Hok Hw Ha Hwire] Hid. destruct (wo_present _ _ Hok) as [e' He']. pose proof (ws_egr _ _ _ _ Hw) as Hegr.
  rewrite He' in Hegr. inversion Hegr as [e ? Hes Hel|]; subst. symmetry in Hel. specialize (Hid e' He').
  pose proof (eo_targets _ (eo_queues _ _ (wo_egr fw _ Hok e' He'))) as Hlen.
  destruct Hes as [Ht Hr Hm Hl Hc Hp Hco Hn [Hs Hs']].
  assert (Hq : e_msgs e' = (λ _, []) <$> e_msgs e').
  { clear -Hid. induction Hid as [|q qs -> Hid IH]; [done|]. cbn. by f_equal. }
  assert (HP : e_msgs e = P) by (rewrite Hm, Hq; by apply zip_with_nil).
  unfold egr_Flush. rewrite Hel. unfold Flush. rewrite Hs. cbn [mbind option_bind].
  eexists. split; [reflexivity|]. split; try done.
  - cbn. replace (h_world g) with (add_events [] (h_world g) <| w_egr := Some e' |>)
      by (unfold add_events; destruct (h_world g); cbn in *; by rewrite He', app_nil_r).
    eapply wsim_flushed; [exact Hw|]. split; try done; cbn.
    + rewrite HP. by apply nil_zip.
    + by rewrite length_replicate.
    + rewrite <- Hp. by destruct (e_pool e).
  - intros i. cbv zeta. cbn. destruct (Hwire i) as [Hsub Heq]. cbv zeta in Hsub, Heq.
    destruct (flushTargets_wrote K (e_reliable e) (e_rec e) 0 (h_net h) (e_targets e) (e_msgs e) (e_meta e)) with (j := i)
      as (l & E & Hpre & Hall); [rewrite Ht, HP; congruence|].
    match goal with |- ?a ++ _ `sublist_of` _ ∧ _ => assert (a = wire i (h_net h).2 ++ l) as -> by exact E end.
    rewrite decide_True, Nat.sub_0_r, HP in Hall by lia. rewrite decide_True, Nat.sub_0_r, HP in Hpre by lia.
    assert (Hnil : default [] (replicate (length P) [] !! i) = [] :> list Message).
    { destruct (replicate _ _ !! i) eqn:En; [|done]. apply lookup_replicate in En as [-> _]. done. }
    rewrite Hnil, app_nil_r. split.
    + etrans; [|exact Hsub]. apply sublist_app; [done|]. destruct Hpre as [l2 ->]. by apply sublist_inserts_r.
    + intros HK. rewrite (Hall HK). auto.
Qed.

(** Without coalescing there is nothing to bundle. *)
Lemma FlushCoalesced_off (H : Kernel) (x : @Host SC RT H V) worker :
  (∀ e, w_egr (h_world x) = Some e → e_coal e = None) → lift (FlushCoalesced fw worker) x = Some x.
Proof.
  intros Hc. unfold lift, FlushCoalesced, mbind, M_bind, gets. destruct x as [w k v a]. cbn in *.
  destruct (w_egr w) as [e|]; [|done]. by rewrite (Hc e eq_refl).
Qed.

Lemma hsim_coal_off P h g : nc = true → hsim P h g →
  (∀ e, w_egr (h_world h) = Some e → e_coal e = None) ∧ (∀ e, w_egr (h_world g) = Some e → e_coal e = None).
Proof.
  intros Hnc [Hok Hw _ _]. pose proof (ws_egr _ _ _ _ Hw) as Hegr. split.
  - intros e He. rewrite He in Hegr. inversion Hegr as [? e' Hes|]; subst.
    rewrite (es_coal _ _ _ _ Hes). by apply (es_nocoal _ _ _ _ Hes).
  - intros e' He. rewrite He in Hegr. inversion Hegr as [e ? Hes|]; subst. by apply (es_nocoal _ _ _ _ Hes).
Qed.

(** Two lanes started alike. *)
Lemma hsim_start w e (k : @KState K) v a :
  w_egr w = Some e → world_ok fw w → drained e → (nc = true → e_coal e = None) →
  hsim (replicate (length (e_msgs e)) []) (@mkHost SC RT (logged K) V w (k, []) v a) (@mkHost SC RT (logged perfect) V w ((), []) v a).
Proof.
  intros He Hok Hd Hc. split; try done.
  - split; try done. cbn. rewrite He. constructor. split; try done.
    + clear. induction (e_msgs e) as [|q qs IH]; [done|]. cbn. by f_equal.
    + apply length_replicate.
    + pose proof (eo_inline fw e (wo_egr fw w Hok e He)). done.
  - intros i. cbn. destruct (replicate _ _ !! i) as [q|] eqn:E; [|done]. apply lookup_replicate in E as [-> _]. done.
Qed.
End Delivery.
