(* ===== verification/DeliveryProps.v ===== *)
(** * Batching is invisible, the network only loses

    The two lanes that write to the multicast sockets against references
    without batches: whatever the kernel refuses and however the traffic is
    cut into receive batches or TCP segments, each interface carries the
    datagrams a direct, datagram-at-a-time proxy would have sent, in its
    order, less what the kernel refused there. *)

From S2P Require Import Prelude Common Chains BatchWriter RetryTee Coal Egress EgressFacts RateLimit SubtreeRoot Machine Forwarder Beef Coalesce Dispatch ForwarderFacts Simulation Delivery Lane LaneFacts Worker Stream StreamFacts TcpIngress ObjectIngress TcpFacts Toy ToyLaws ToyKernel DispatchProps WorkerProps TcpProps.

(** The run [h] over [K] against the run [g] over a perfect kernel: the same
    counters, dedup stores, budgets and admissions; each interface's
    datagrams in the same order, some missing only if [K] refuses some. *)
Definition carries {SC : ShardCommon} {RT : GoRuntime} (K : Kernel) {V}
    (h : @Host SC RT (logged K) V) (g : @Host SC RT (logged perfect) V) : Prop :=
  w_chains (h_world h) = w_chains (h_world g) ∧ w_env (h_world h) = w_env (h_world g) ∧
  w_beefLimit (h_world h) = w_beefLimit (h_world g) ∧ h_admits h = h_admits g ∧
  ∀ i, wire i (h_net h).2 `sublist_of` wire i (h_net g).2 ∧
    (lossless K → wire i (h_net h).2 = wire i (h_net g).2).

(** Every datagram in a receive of its own. *)
Definition unbatched (rs : list Recv) : list Recv :=
  rs ≫= λ r, match r with Received ds => (λ d, Received [d]) <$> ds | r => [r] end.

(** Every action of a connection flushed at once. *)
Definition immediate (acts : list Action) : list Action := acts ≫= λ a, [a; AFlush].

Lemma hsim_carries {SC : ShardCommon} {RT : GoRuntime} (K : Kernel) fw nc {V} n h g :
  hsim (V := V) K fw nc (replicate n []) h g → carries K h g.
Proof.
  intros [_ [] Ha Hw]. split_and!; try done. intros i. specialize (Hw i). cbv zeta in Hw.
  assert (Hn : default [] (replicate n [] !! i) = [] :> list Message).
  { destruct (replicate _ _ !! i) eqn:E; [|done]. apply lookup_replicate in E as [-> _]. done. }
  by rewrite Hn, app_nil_r in Hw.
Qed.

(** ** UDP workers *)

Section Udp.
Context {SC : ShardCommon} {SL : ShardLaws} {RT : GoRuntime} (K : Kernel) (fw : Settings) (nc : bool) (wk : Worker).

Abbreviation HostK := (@Host SC RT (logged K) ()).
Abbreviation HostP := (@Host SC RT (logged perfect) ()).
Abbreviation hsim := (hsim (V := ()) K fw nc).
Abbreviation idle := (idle (V := ())).
Implicit Types (h : HostK) (g : HostP) (P : list (list Message)).

Lemma hsim_worker_record P ev h g : hsim P h g → hsim P (worker_record wk ev h) (worker_record wk ev g).
Proof.
  intros Hs. unfold worker_record. destruct (ws_egr _ _ _ _ (hs_world _ _ _ _ _ _ Hs)) as [e e' [Ht]|]; [|done].
  rewrite Ht. destruct (e_targets e'); [done|]. by apply hsim_record.
Qed.

Lemma worker_record_idle ev g : idle g → idle (worker_record wk ev g).
Proof. intros Hi e. rewrite worker_record_egr. apply Hi. Qed.

Lemma hsim_datagram P d h g :
  Forall is_byte (dg_data d) → hsim P h g →
  ∃ h1 g1, worker_datagram fw wk d h = Some h1 ∧ worker_datagram fw wk d g = Some g1 ∧ hsim P h1 g1.
Proof.
  intros Hb Hs. unfold worker_datagram. cbv zeta. destruct (_ =? RecvBufSize).
  - do 2 eexists. split_and!; [reflexivity..|]. by apply hsim_worker_record.
  - eapply hsim_lift; [by apply safe_DispatchClass|apply resp_DispatchClass|by apply hsim_worker_record].
Qed.

Lemma hsim_datagrams P ds h g :
  Forall (λ d, Forall is_byte (dg_data d)) ds → hsim P h g →
  ∃ h1 g1, worker_datagrams fw wk ds h = Some h1 ∧ worker_datagrams fw wk ds g = Some g1 ∧ hsim P h1 g1.
Proof.
  intros Hb. revert h g. induction Hb as [|d ds Hd Hds IH]; intros h g Hs; [by exists h, g|].
  destruct (hsim_datagram P d h g Hd Hs) as (h1 & g1 & E & E' & H1). cbn [worker_datagrams]. rewrite E, E'. by apply IH.
Qed.

(** The same batch on both sides. *)
Lemma hsim_batch P ds h g :
  Forall (λ d, Forall is_byte (dg_data d)) ds → hsim P h g →
  ∃ n h1 g1, worker_batch fw wk ds h = Some h1 ∧ worker_batch fw wk ds g = Some g1 ∧ hsim (replicate n []) h1 g1.
Proof.
  intros Hb Hs. unfold worker_batch. destruct (hsim_datagrams P ds h g Hb Hs) as (h1 & g1 & -> & -> & H1). cbn [mbind option_bind].
  destruct (hsim_lift K fw nc (FlushCoalesced fw (wk_id wk)) (λ _, True) P h1 g1) as (h2 & g2 & -> & -> & H2);
    [apply safe_FlushCoalesced|apply resp_FlushCoalesced|done|]. cbn [mbind option_bind].
  destruct (hsim_flush_right K fw nc P h2 g2 H2) as (Q & g3 & -> & H3 & Hi).
  destruct (hsim_flush_left K fw nc Q h2 g3 H3 Hi) as (h3 & -> & H4). by exists (length Q), h3, g3.
Qed.

Lemma hsim_loop n rs h g :
  Forall recv_ok rs → hsim (replicate n []) h g →
  ∃ n h1 g1, worker_loop fw wk rs h = Some h1 ∧ worker_loop fw wk rs g = Some g1 ∧ hsim (replicate n []) h1 g1.
Proof.
  intros Hrs. revert n h g. induction Hrs as [|r rs Hr Hrs IH]; intros n h g Hs; [by exists n, h, g|].
  destruct r as [ds| |]; cbn [worker_loop].
  - destruct (hsim_batch _ ds h g Hr Hs) as (n1 & h1 & g1 & -> & -> & H1). by apply (IH n1).
  - by exists n, h, g.
  - apply (IH n). by apply hsim_worker_record.
Qed.

(** A batch on the left, its datagrams one by one on the right. *)
Lemma hsim_spread P ds rs h g :
  nc = true → Forall (λ d, Forall is_byte (dg_data d)) ds → hsim P h g → idle g →
  ∃ Q h1 g1, worker_datagrams fw wk ds h = Some h1 ∧
    worker_loop fw wk (((λ d, Received [d]) <$> ds) ++ rs) g = worker_loop fw wk rs g1 ∧ hsim Q h1 g1 ∧ idle g1.
Proof.
  intros Hnc Hb. revert P h g. induction Hb as [|d ds Hd Hds IH]; intros P h g Hs Hi; [by exists P, h, g|].
  destruct (hsim_datagram P d h g Hd Hs) as (h1 & g1 & E & E' & H1).
  cbn [worker_datagrams fmap list_fmap app worker_loop]. unfold worker_batch. cbn [worker_datagrams]. rewrite E, E'.
  cbn [mbind option_bind]. rewrite FlushCoalesced_off by apply (hsim_coal_off K fw nc P h1 g1 Hnc H1). cbn [mbind option_bind].
  destruct (hsim_flush_right K fw nc P h1 g1 H1) as (Q & g2 & -> & H2 & Hi2). cbn [mbind option_bind].
  by apply (IH Q).
Qed.

Lemma hsim_unbatched n rs h g :
  nc = true → Forall recv_ok rs → hsim (replicate n []) h g → idle g →
  ∃ n h1 g1, worker_loop fw wk rs h = Some h1 ∧ worker_loop fw wk (unbatched rs) g = Some g1 ∧ hsim (replicate n []) h1 g1.
Proof.
  intros Hnc Hrs. revert n h g. induction Hrs as [|r rs Hr Hrs IH]; intros n h g Hs Hi; [by exists n, h, g|].
  unfold unbatched. cbn [mbind list_bind]. fold (unbatched rs). destruct r as [ds| |]; cbn [worker_loop app].
  - destruct (hsim_spread _ ds (unbatched rs) h g Hnc Hr Hs Hi) as (Q & h1 & g1 & E & E' & H1 & Hi1).
    rewrite E'. unfold worker_batch. rewrite E. cbn [mbind option_bind].
    rewrite FlushCoalesced_off by apply (hsim_coal_off K fw nc Q h1 g1 Hnc H1). cbn [mbind option_bind].
    destruct (hsim_flush_left K fw nc Q h1 g1 H1 Hi1) as (h2 & -> & H2). by apply (IH (length Q)).
  - by exists n, h, g.
  - apply (IH n); [by apply hsim_worker_record|by apply worker_record_idle].
Qed.
End Udp.

(** ** TCP connections *)

Section Tcp.
Context {SC : ShardCommon} {SL : ShardLaws} {RT : GoRuntime} (K : Kernel) (fw : Settings) (s : Sink).
Context (rec : bool) (hooks : Z) (remote : option NetAddr) (announceName : string).
Hypothesis Hname : announceName ≠ "".

Abbreviation HostK := (@Host SC RT (logged K) (sink_state s)).
Abbreviation HostP := (@Host SC RT (logged perfect) (sink_state s)).
Abbreviation hsim := (hsim (V := sink_state s) K fw true).
Implicit Types (h : HostK) (g : HostP) (P : list (list Message)).

Lemma tcp_flush_off (H : Kernel) (x : @Host SC RT H (sink_state s)) :
  (∀ e, w_egr (h_world x) = Some e → e_coal e = None) → tcp_flushEgr fw s false x = egr_Flush x.
Proof.
  intros Hc. unfold tcp_flushEgr. destruct (w_egr (h_world x)) as [e|] eqn:E.
  - by rewrite FlushCoalesced_off by (intros; apply Hc; congruence).
  - unfold egr_Flush. by rewrite E.
Qed.

Lemma hsim_tcp_right P h g : hsim P h g →
  ∃ Q g1, tcp_flushEgr fw s false g = Some g1 ∧ hsim Q h g1 ∧ idle g1.
Proof.
  intros Hs. rewrite tcp_flush_off by apply (hsim_coal_off K fw true P h g eq_refl Hs). by apply hsim_flush_right with P.
Qed.

Lemma hsim_tcp_left P h g : hsim P h g → idle g →
  ∃ h1, tcp_flushEgr fw s false h = Some h1 ∧ hsim (replicate (length P) []) h1 g.
Proof.
  intros Hs Hi. rewrite tcp_flush_off by apply (hsim_coal_off K fw true P h g eq_refl Hs). by apply hsim_flush_left.
Qed.

Abbreviation go := (perform fw rec hooks remote announceName (tcp_flushEgr fw s false)).
Abbreviation go_all := (perform_all fw rec hooks remote announceName (tcp_flushEgr fw s false)).

Lemma hsim_visible P a h g : action_ok a → is_visible a = true → hsim P h g →
  ∃ h1 g1, go a h = Some h1 ∧ go a g = Some g1 ∧ hsim P h1 g1.
Proof.
  intros Ha Hv Hs. destruct a; try done; cbn [perform].
  - do 2 eexists. split_and!; [reflexivity..|]. by apply hsim_record.
  - do 2 eexists. split_and!; [reflexivity..|]. destruct Hs as [? ? Hadm ?]. split; try done. cbn. by rewrite Hadm.
  - eapply hsim_lift; [by apply safe_DispatchClass|apply resp_DispatchClass|done].
  - eapply hsim_lift; [apply safe_dispatchBareTx|apply resp_dispatchBareTx|done].
  - eapply hsim_lift; [|apply resp_ForwardControl|done]. apply safe_queue; [done|]. intros e He. by apply egr_ok_enqueue, dst_ok_label.
Qed.

(** Any flush cadence on the left, a flush after every submission on the
    right. *)
Lemma hsim_actions P acts h g : Forall action_ok acts → hsim P h g → idle g →
  ∃ Q h1 g1, go_all acts h = Some h1 ∧ go_all (immediate (visible acts)) g = Some g1 ∧ hsim Q h1 g1 ∧ idle g1.
Proof.
  intros Ha. revert P h g. induction Ha as [|a acts Ha Has IH]; intros P h g Hs Hi; [by exists P, h, g|].
  destruct (is_visible a) eqn:Hv.
  - rewrite visible_cons by done. unfold immediate. cbn [mbind list_bind app perform_all]. fold (immediate (visible acts)).
    destruct (hsim_visible P a h g Ha Hv Hs) as (h1 & g1 & -> & -> & H1). cbn [mbind option_bind perform].
    destruct (hsim_tcp_right P h1 g1 H1) as (Q & g2 & -> & H2 & Hi2). by apply (IH Q).
  - unfold visible. rewrite filter_cons_False by (by rewrite Hv). fold (visible acts).
    destruct a; try done; cbn [perform_all perform mbind option_bind].
    + destruct (hsim_tcp_left P h g Hs Hi) as (h1 & -> & H1). by apply (IH (replicate (length P) [])).
    + by apply (IH P).
Qed.
End Tcp.

(** ** The theorems *)

Section Props.
Context {SC : ShardCommon} {SL : ShardLaws} {RT : GoRuntime} {OR : ObjReader} {RL : ReaderLaws} (K : Kernel).
Implicit Types (fw : Settings) (wk : Worker).

(** A worker over a kernel that is watched. *)
Definition watched_worker (K : Kernel) fw wk env targets tee mirror clock (k : @KState K) : @Host SC RT (logged K) () :=
  worker_start (K := logged K) fw wk env targets tee mirror clock (k, []).

Lemma watched_workers_sim fw wk env targets tee mirror clock (k : @KState K) nc :
  (nc = true → s_coalesce fw = false) →
  hsim K fw nc (replicate (length targets) []) (watched_worker K fw wk env targets tee mirror clock k)
    (watched_worker perfect fw wk env targets tee mirror clock ()) ∧
  idle (watched_worker perfect fw wk env targets tee mirror clock ()).
Proof.
  intros Hnc. destruct (udp_egress_ok fw wk targets tee mirror) as [Ho Hd].
  assert (Hlen : length (e_msgs (udp_egress fw wk targets tee mirror)) = length targets).
  { unfold udp_egress. destruct tee, mirror; cbn; apply length_replicate. }
  split.
  - rewrite <- Hlen. apply (hsim_start K fw nc); [done|by apply newWorld_ok|done|].
    intros E. unfold udp_egress. destruct tee, mirror; cbn; by rewrite (Hnc E).
  - intros e. cbn. intros [= <-]. apply (dr_msgs _ Hd).
Qed.

(** C8: the network can only lose.  Whatever a UDP worker receives and
    whatever its egress sockets refuse (partial writes, full queues, hard
    errors, on any interface at any time), the counters, the dedup stores and
    the rate budgets end as over a network that refuses nothing, and what
    leaves on each interface is what would have left there, in the same order,
    with at most some datagrams missing: none duplicated, reordered, altered
    or moved to another interface, and a refusal on one interface costs the
    others nothing. *)
Theorem kernel_only_loses fw wk env targets tee mirror clock k rs :
  Forall recv_ok rs →
  ∃ h g, worker_loop (K := logged K) fw wk rs (watched_worker K fw wk env targets tee mirror clock k) = Some h ∧
    worker_loop (K := logged perfect) fw wk rs (watched_worker perfect fw wk env targets tee mirror clock ()) = Some g ∧
    carries K h g.
Proof.
  intros Hrs. destruct (watched_workers_sim fw wk env targets tee mirror clock k false ltac:(done)) as [Hs _].
  destruct (hsim_loop K fw false wk _ rs _ _ Hrs Hs) as (n & h & g & E & E' & H). exists h, g. split_and!; [done..|].
  by eapply hsim_carries.
Qed.


Definition watched_conn (K : Kernel) fw s env targets rec tee mirror clock (k : @KState K) v
    : @Host SC RT (logged K) (sink_state s) :=
  conn_start (K := logged K) fw s env targets rec tee mirror clock (k, []) v.

End Props.

(** ** Witnesses *)

#[local] Existing Instance exactRuntime.

(** The first interface refuses the first write, the second takes one
    datagram of it. *)
Definition rough : @KState toyKernel := [(0, Some (ErrErrno EPERM)); (1, Some (ErrErrno ENOBUFS))].

Lemma toy_recvs_ok : Forall recv_ok toy_recvs.
Proof.
  assert (Hs : Forall is_byte [1; 2]) by (repeat constructor; unfold is_byte; lia).
  pose proof toy_good_bytes. by repeat constructor.
Qed.

Lemma kernel_only_loses_witness :
  ∃ h g, worker_loop (K := logged toyKernel) toy_fw (NewWorker 0 true) toy_recvs
      (watched_worker toyKernel toy_fw (NewWorker 0 true) ∅ ["eth0"; "eth1"] None None 100 rough) = Some h ∧
    worker_loop (K := logged perfect) toy_fw (NewWorker 0 true) toy_recvs
      (watched_worker perfect toy_fw (NewWorker 0 true) ∅ ["eth0"; "eth1"] None None 100 ()) = Some g ∧
    carries toyKernel h g.
Proof. apply (kernel_only_loses toyKernel). exact toy_recvs_ok. Defined.


