(* ===== verification/EndToEnd.v ===== *)
(** * A transaction from socket to socket

    One admissible transaction through a whole UDP worker: received,
    dispatched, gated, claimed, routed, stamped, queued on every interface
    and written. *)

From S2P Require Import Prelude Common Chains BatchWriter RetryTee Coal Egress EgressFacts RateLimit SubtreeRoot Machine Forwarder Beef Coalesce Dispatch ForwarderFacts Fragmentation Delivery Lane LaneFacts Worker Toy ToyLaws ToyKernel DispatchProps WorkerProps DeliveryProps.

Section EndToEnd.
Context {SC : ShardCommon} {SL : ShardLaws} {RT : GoRuntime}.
Implicit Types (fw : Settings) (w : World) (raw : bytes).

(** The claim of a transaction would win. *)
Definition unclaimed fw (txid : bytes) w : Prop :=
  ∀ st, s_txDedup fw = Some st → (Claim st (s_txDedupPrefix fw) txid (w_env w)).1.1 = true.

(** The group and the flow of a transaction from a source. *)
Definition tx_group fw (f : Frame) : Z := GroupIndex (s_engine fw) (f_txid f).

(** A datagram a worker's socket of class [class] takes as this frame and
    sends on whole, in a datagram of its own. *)
Record plain_tx fw class raw (f : Frame) : Prop := mkPlainTx {
  pt_bytes : Forall is_byte raw;
  pt_magic : be_get (slice 0 4 raw) = MagicBSV;
  pt_version : byte_at 6 raw = FrameVerV2;
  pt_class : class ≠ IngressBEEF;
  pt_decode : Decode raw = Some f;
  pt_v2 : f_version f = FrameVerV2;
  pt_gates : tx_gates fw (s_verifyPayloadHash fw) f;
  pt_whole : needs_frag fw (f_payload f) = false }.

(** Two states that agree on what routing reads. *)
Definition same_routing w w' : Prop :=
  w_chains w' = w_chains w ∧ w_groupAddrs w' = w_groupAddrs w ∧ w_bridging w' = w_bridging w ∧ w_egr w' = w_egr w.

(** What emission leaves in the queues. *)
Definition queued fw (g : Z) raw (e : Egress) w : Prop :=
  ∃ e', w_egr w = Some e' ∧ e_targets e' = e_targets e ∧ e_coal e' = e_coal e ∧
    e_msgs e' = queue_all (e_targets e) (group_addr fw g) [raw] (e_msgs e).

Lemma wp_keep {A} fw (m : M A) w (Q : A → World → Prop) P :
  safe fw m P → world_ok fw w → wp m w Q → wp m w (λ x w', world_ok fw w' ∧ Q x w').
Proof.
  intros Hs Hw HQ. specialize (Hs w Hw). unfold wp in *. destruct (m w) as [[x w']|]; [|done]. by destruct Hs.
Qed.

Lemma wp_and {A} (m : M A) w (P Q : A → World → Prop) : wp m w P → wp m w Q → wp m w (λ x w', P x w' ∧ Q x w').
Proof. unfold wp. destruct (m w) as [[]|]; done. Qed.

Lemma addrFor_keeps fw g w :
  0 ≤ g → wp (addrFor fw g) w (λ _ w', w_chains w' = w_chains w ∧ w_bridging w' = w_bridging w ∧ w_egr w' = w_egr w).
Proof.
  intros Hg. unfold addrFor. apply wp_bind, wp_gets. destruct (Z.leb_spec (Zlen (w_groupAddrs w)) g) as [|Hl]; [by apply wp_ret|].
  destruct (lookup_lt_is_Some_2 (w_groupAddrs w) (Z.to_nat g)) as [slot ->]; [unfold Zlen in Hl; lia|].
  rewrite need_some. destruct slot; [by apply wp_ret|by apply wp_bind, wp_modify, wp_ret].
Qed.

Lemma emit_tx_queues fw raw txid g worker w e :
  world_ok fw w → w_egr w = Some e → w_bridging w = None → 0 ≤ g →
  wp (emit_tx fw raw txid g worker) w (λ _ w', w_chains w' = w_chains w ∧ queued fw g raw e w').
Proof.
  intros Hw He Hb Hg. unfold emit_tx, emit_bridge. apply wp_bind, wp_gets. rewrite He. apply wp_bind.
  pose proof (wp_and _ _ _ _ (safe_addrFor fw g Hg w Hw) (addrFor_keeps fw g w Hg)) as Ha.
  eapply wp_mono; [exact Ha|]. intros a w1 ([_ ->] & Hc1 & Hb1 & He1). cbv beta.
  pose proof (wo_egr fw w Hw e He) as Ho.
  apply wp_bind. eapply wp_on_egress; [by rewrite He1|by apply enqueue_fits_ok; [apply Ho|]|].
  apply wp_bind, wp_gets. cbn. rewrite Hb1, Hb. apply wp_ret. split; [done|].
  eexists. cbn. split; [reflexivity|]. split_and!; try done.
  destruct (enqueue_spec (group_addr fw) raw (group_addr fw g) (mkMeta g (Zlen raw) worker "" true) None e
    (eo_queues fw e Ho) (ForwarderFacts.eo_caches fw e Ho) (dst_ok_data fw g (Zlen raw) worker Hg)) as [E _].
  exact E.
Qed.

(** Stamping changes the counters only. *)
Lemma stamp_keeps fw raw ip g sub w :
  wp (stampInPlace fw raw ip g sub) w (λ _ w', w_egr w' = w_egr w ∧ w_bridging w' = w_bridging w) ∨ Zlen raw < 56.
Proof.
  unfold stampInPlace. destruct (Z.ltb_spec (Zlen raw) 56); [by right|]. left. cbv zeta.
  destruct (_ =? 0); [|by destruct (_ || _)]. by apply wp_bind.
Qed.

(** The flow of a datagram's stamp: the new datagram and the counters. *)
Definition stamped_as fw raw ip g sub (c c' : Stripes) raw' : Prop :=
  length raw' = length raw ∧ (∀ i, (i < 40 ∨ 56 ≤ i)%nat → raw' !! i = raw !! i) ∧
  (be_get (slice 48 56 raw) = 0 →
     be_get (slice 48 56 raw') = u64 (counter_of c (mkChainKey ip g sub) + 1) ∧
     be_get (slice 40 48 raw') = seqhash_Hash ip g sub ∧
     counter_of c' (mkChainKey ip g sub) = be_get (slice 48 56 raw') ∧
     ∀ k, k ≠ mkChainKey ip g sub → counter_of c' k = counter_of c k) ∧
  (be_get (slice 48 56 raw) ≠ 0 →
     c' = c ∧ be_get (slice 48 56 raw') = be_get (slice 48 56 raw) ∧
     be_get (slice 40 48 raw') = if (be_get (slice 40 48 raw) =? 0) || s_stampSource fw then seqhash_Hash ip g sub
                                 else be_get (slice 40 48 raw)).

Definition routed fw (f : Frame) raw (a : NetAddr) (e : Egress) (c : Stripes) (w : World) : Prop :=
  ∃ raw', stamped_as fw raw (addrToIPv6 a) (tx_group fw f) (f_subtree f) c (w_chains w) raw' ∧
    queued fw (tx_group fw f) raw' e w.

Lemma route_plain fw raw f a worker w e :
  world_ok fw w → w_egr w = Some e → w_bridging w = None → s_coalesce fw = false → HeaderSize ≤ Zlen raw →
  f_version f = FrameVerV2 → needs_frag fw (f_payload f) = false →
  wp (route_tx fw raw f (Some a) worker) w (λ _ w', routed fw f raw a e (w_chains w) w').
Proof.
  intros Hw He Hb Hc Hl Hv Hf. unfold route_tx. cbv zeta. rewrite Hv, Z.eqb_refl, Hf. unfold coalescable at 1.
  rewrite Hc. cbn [andb]. apply wp_bind, wp_gets. apply wp_bind. fold (tx_group fw f).
  destruct (stamp_keeps fw raw (addrToIPv6 a) (tx_group fw f) (f_subtree f) w) as [Hk|]; [|unfold HeaderSize in Hl; lia].
  eapply wp_mono.
  { apply wp_keep with (fw := fw) (P := λ _, True); [by apply safe_stamp|done|].
    apply wp_and; [exact Hk|]. apply stamp_fields; [done|]. apply (wo_chains fw w Hw). }
  intros raw' w1 (Hw1 & [He1 Hb1] & (Hlen & Hsame & Hz & Hnz)). cbv beta.
  eapply wp_mono; [apply (emit_tx_queues fw raw' (f_txid f) (tx_group fw f) worker w1 e)|].
  - done.
  - congruence.
  - congruence.
  - apply GroupIndex_nonneg.
  - intros _ w2 [Hc2 Hq]. exists raw'. split; [|done]. split_and!; [done|done| |].
    + intros E. destruct (Hz E) as (? & ? & ? & ?). rewrite Hc2. done.
    + intros E. destruct (Hnz E) as (-> & ? & ?). done.
Qed.
(** ** Admission *)

(** The refusals of [process] do not apply to a frame that meets its gates. *)
Lemma gates_open fw f verify :
  f_version f = FrameVerV2 → tx_gates fw verify f →
  negb (s_allowStampedIngress fw) && (f_version f =? FrameVerV2) && negb (f_seqnum f =? 0) = false ∧
  s_requireEF fw && ((f_version f =? FrameVerV1) || negb (IsEF (f_payload f))) = false ∧
  verify && (f_version f =? FrameVerV2) && payload_not_one_tx f = false ∧
  verify && (f_version f =? FrameVerV2) && payload_hash_mismatch f = false.
Proof.
  intros Hv [Hst Hef Hid]. rewrite Hv, Z.eqb_refl, !andb_true_r. split_and!.
  - destruct Hst as [Hs|[Hs|Hs]]; rewrite ?Hs; [done|done|]. apply andb_false_r.
  - destruct (s_requireEF fw) eqn:E; [|done]. destruct (Hef eq_refl) as [_ ->]. done.
  - destruct verify; [|done]. destruct (Hid eq_refl Hv) as [Hsz _]. unfold payload_not_one_tx. by rewrite Hsz, Z.eqb_refl.
  - destruct verify; [|done]. destruct (Hid eq_refl Hv) as [_ Htx]. unfold payload_hash_mismatch.
    by rewrite Htx, bytes_eqb_refl.
Qed.

Lemma gates_pass fw raw f src worker verify :
  Decode raw = Some f → f_version f = FrameVerV2 → tx_gates fw verify f →
  process fw raw src worker verify =
    (iface ← iface_of; ok ← claimIngress fw (f_txid f) "brc124" iface worker;
     if ok : bool then route_tx fw raw f src worker else mret ()).
Proof.
  intros Hd Hv Hg. unfold process. rewrite Hd. cbv zeta. destruct (gates_open fw f verify Hv Hg) as (-> & -> & -> & ->).
  by rewrite Hv, Z.eqb_refl.
Qed.

Lemma process_plain fw raw f a worker w e verify :
  world_ok fw w → w_egr w = Some e → w_bridging w = None → s_coalesce fw = false →
  Decode raw = Some f → f_version f = FrameVerV2 → tx_gates fw verify f → unclaimed fw (f_txid f) w →
  needs_frag fw (f_payload f) = false →
  wp (process fw raw (Some a) worker verify) w (λ _ w', routed fw f raw a e (w_chains w) w').
Proof.
  intros Hw He Hb Hc Hd Hv Hg Hu Hf. rewrite (gates_pass fw raw f) by done. apply wp_bind, wp_gets. apply wp_bind.
  pose proof (Decode_len raw f Hd Hv) as Hl. unfold claimIngress, claimIngressIn. destruct (s_txDedup fw) as [st|] eqn:Est.
  - apply wp_bind, wp_gets. cbv zeta. apply wp_bind, wp_modify. rewrite (Hu st Est). apply wp_ret.
    match goal with |- wp _ ?w1 _ => apply (route_plain fw raw f a worker w1 e) end; try done. by destruct Hw.
  - apply wp_ret. by apply route_plain.
Qed.

(** A plain transaction is framed, and of the transaction version only. *)
Lemma plain_framed fw class raw f : plain_tx fw class raw f → framed raw = true.
Proof.
  intros [_ Hm _ _ Hd Hv _ _]. pose proof (Decode_len raw f Hd Hv) as Hl. unfold HeaderSize in Hl.
  unfold framed. rewrite Hm, (proj2 (Z.leb_le 4 _)) by lia. reflexivity.
Qed.

Lemma plain_version fw class raw f v : plain_tx fw class raw f → v ≠ FrameVerV2 → has_byte 6 v raw = false.
Proof.
  intros Hp Hne. apply bool_decide_eq_false. intros E. pose proof (pt_version _ _ _ _ Hp) as Hver.
  unfold byte_at in Hver. rewrite (nth_lookup_Some _ _ _ _ E) in Hver. by apply Hne.
Qed.

Lemma dispatch_plain fw raw f a worker class w e :
  plain_tx fw class raw f → world_ok fw w → w_egr w = Some e → w_bridging w = None → s_coalesce fw = false →
  unclaimed fw (f_txid f) w →
  wp (DispatchClass fw raw (Some a) worker class) w (λ _ w', world_ok fw w' ∧ routed fw f raw a e (w_chains w) w').
Proof.
  intros Hp Hw He Hb Hc Hu. pose proof Hp as [Hby Hm Hver Hcl Hd Hv Hg Hf].
  apply wp_keep with (fw := fw) (P := λ _, True); [by apply safe_DispatchClass|done|].
  unfold DispatchClass. cbv zeta. rewrite not_framed_some, record_tagged_some, !byte_is_some, !need_some.
  rewrite (plain_framed _ _ _ _ Hp). cbn [negb]. rewrite !(plain_version _ _ _ _ _ Hp) by done.
  rewrite bool_decide_eq_false_2 by done. apply wp_bind, wp_record.
  eapply wp_mono; [apply (process_plain fw raw f a worker _ e (s_verifyPayloadHash fw))|].
  all: destruct (s_rec fw); try done. all: try by destruct Hw.
Qed.

(** ** The worker *)

Lemma lookup_queue_all targets dst ds qs i t :
  targets !! i = Some t → length qs = length targets → Forall (λ q : list Message, q = []) qs →
  default [] (queue_all targets dst ds qs !! i) = (λ d, mkMessage d (with_zone dst t)) <$> ds.
Proof.
  intros Ht Hl Hq. destruct (lookup_lt_is_Some_2 qs i) as [q Eq]; [apply lookup_lt_Some in Ht; lia|].
  unfold queue_all. rewrite lookup_zip_with, Ht. cbn. rewrite Eq. cbn.
  rewrite list.Forall_lookup in Hq. by rewrite (Hq i q Eq).
Qed.

End EndToEnd.

(** ** Witness *)

#[local] Existing Instance exactRuntime.

Definition toy_worker : Worker := SetIngressClass IngressTransaction (NewWorker 0 true).
Definition toy_good_frame : Frame := mkFrame FrameVerV2 (toy_hash toy_tx) 0 (zeros 32) toy_tx.
Definition toy_peer : NetAddr := NetUDP (mkUDPAddr (0xfd :: zeros 15) 7 "").

Lemma toy_good_plain : plain_tx toy_fw IngressTransaction toy_good toy_good_frame.
Proof.
  split; [exact toy_good_bytes|vm_compute; reflexivity..|discriminate|vm_compute; reflexivity|reflexivity| |vm_compute; reflexivity].
  split; [right; right; reflexivity|discriminate|]. intros _ _. split; vm_compute; reflexivity.
Qed.

