(* ===== verification/Interleave.v ===== *)
(** * The pipeline as atomic steps

    Workers, connections and push lanes run the pipeline at the same time on
    one forwarder.  What they share is reached a step at a time: a counter
    is advanced, an address cache entry loaded or stored, an identifier
    claimed, a budget charged, the bridging engine loaded; an egress and the
    metrics a goroutine records are its own.  [Prog] is a computation that
    names each access to the shared state and continues with the answer, and
    [Steps m] gives the program of an operation [m] of the pipeline, with
    the proof that run alone it is [m].  The programs are not written again:
    they are derived from the definitions of [Forwarder], [Beef], [Coalesce]
    and [Dispatch], following their binds and case distinctions. *)

From S2P Require Import Prelude Common Chains BatchWriter RetryTee Coal Egress RateLimit SubtreeRoot Machine Forwarder Beef Coalesce Dispatch.

(** The search for a program compares operations by name. *)
#[export] Hint Opaque panic need queue gets modify record iface_of drop_as drop_decode on_egress next_seq reserve_seq charge_beef
  claimIngressIn claimIngress claimBEEFIngress addrFor stampInPlace frag_total frag_loop fragment fragmentBlock
  fragmentSubtreeData fragmentBEEF emit_bridge emit_tx emit_beef emit_ctrl route_tx process ProcessBlock ProcessAnchor
  subtree_root_gate ProcessSubtreeData claim_beef checkBEEF processBEEF DispatchBEEF ProcessBundle dispatchBareTx
  DispatchClass ForwardControl flush_bucket flush_buckets FlushCoalesced : typeclass_instances.

Section Programs.
Context {SC : ShardCommon} {RT : GoRuntime}.
Implicit Types (fw : Settings) (worker : Z) (raw : bytes) (w : World).

(** ** The two halves of a state *)

Record Shared := mkShared {
  sh_chains : Stripes; sh_groupAddrs : list (option UDPAddr); sh_bridging : option BridgingEngine;
  sh_beefLimit : option beefLimiter; sh_env : Env; sh_clock : Z }.

#[export] Instance eta_Shared : EtaExpand Shared := {| eta_of := λ x,
  mkShared (sh_chains x) (sh_groupAddrs x) (sh_bridging x) (sh_beefLimit x) (sh_env x) (sh_clock x) |}.

Record Local := mkLocal { lo_egr : option Egress; lo_events : list Event }.

#[export] Instance eta_Local : EtaExpand Local := {| eta_of := λ x, mkLocal (lo_egr x) (lo_events x) |}.

Definition shared w : Shared :=
  mkShared (w_chains w) (w_groupAddrs w) (w_bridging w) (w_beefLimit w) (w_env w) (w_clock w).
Definition local w : Local := mkLocal (w_egr w) (w_events w).
Definition join (s : Shared) (l : Local) : World :=
  mkWorld (sh_chains s) (sh_groupAddrs s) (sh_bridging s) (sh_beefLimit s) (sh_env s) (lo_egr l)
    (lo_events l) (sh_clock s).

(** ** Accesses and their answers *)

(** [AtReserve] is the addition to the flow's counter, [AtClaim] a call of
    the dedup store, [AtLoadAddr] and [AtStoreAddr] the atomic pointers of the
    address cache, [AtBridging] the load of the bridging engine, and
    [AtCharge] a call of the rate limiter. *)
Inductive Atom :=
| AtReserve (key : chainKey) (n : Z)
| AtClaim (st : StoreId) (prefix : string) (id : bytes)
| AtLoadAddr (idx : Z)
| AtStoreAddr (idx : Z) (a : UDPAddr)
| AtBridging
| AtCharge (src : option NetAddr) (n : Z).

Inductive Answer :=
| RSeq (hash first : Z)
| RClaim (won : bool)
| RAddr (cached : bool) (slot : option (option UDPAddr))
| RDone
| RBridging (b : option BridgingEngine)
| RCharge (d : rateDecision).

Definition exec (a : Atom) (s : Shared) : Answer * Shared :=
  match a with
  | AtReserve k n =>
      let r := reserveSeq (sh_chains s) (ck_ip k) (ck_grp k) (ck_sub k) n in
      (RSeq r.1.1 r.1.2, s <| sh_chains := r.2 |>)
  | AtClaim st prefix id =>
      let r := Claim st prefix id (sh_env s) in (RClaim r.1.1, s <| sh_env := r.2 |>)
  | AtLoadAddr idx =>
      (if Zlen (sh_groupAddrs s) <=? idx then RAddr false None
       else RAddr true (sh_groupAddrs s !! Z.to_nat idx), s)
  | AtStoreAddr idx a => (RDone, s <| sh_groupAddrs ::= <[Z.to_nat idx := Some a]> |>)
  | AtBridging => (RBridging (sh_bridging s), s)
  | AtCharge src n =>
      match sh_beefLimit s with
      | None => (RCharge rateAllow, s)
      | Some l => let r := allow src n (sh_clock s) l in (RCharge r.1, s <| sh_beefLimit := Some r.2 |>)
      end
  end.

(** ** Programs *)

Inductive Prog (A : Type) :=
| Panic
| Done (x : A)
| Access (a : Atom) (k : Answer → Prog A).
Arguments Panic {A}. Arguments Done {A}. Arguments Access {A}.

Fixpoint pbind {A B} (p : Prog A) (f : A → Prog B) : Prog B :=
  match p with
  | Panic => Panic
  | Done x => f x
  | Access a k => Access a (λ r, pbind (k r) f)
  end.

(** A program run with nobody in between. *)
Fixpoint alone {A} (p : Prog A) (s : Shared) : option (A * Shared) :=
  match p with
  | Panic => None
  | Done x => Some (x, s)
  | Access a k => let r := exec a s in alone (k r.1) r.2
  end.

Lemma alone_bind {A B} (p : Prog A) (f : A → Prog B) s :
  alone (pbind p f) s = match alone p s with Some (x, s') => alone (f x) s' | None => None end.
Proof. revert s. induction p as [|x|a k IH]; intros s; [done..|]. cbn. apply IH. Qed.

(** The program of an operation of the pipeline. *)
Class Steps {A} (m : M A) := {
  prog : Local → Prog (A * Local);
  prog_alone : ∀ w, m w = match alone (prog (local w)) (shared w) with
                          | Some ((x, l), s) => Some (x, join s l)
                          | None => None
                          end }.

(** ** The monad *)

#[export, refine] Instance steps_ret {A} (x : A) : Steps (mret x) := {| prog l := Done (x, l) |}.
Proof. by intros []. Defined.

#[export, refine] Instance steps_panic {A} : Steps (@panic _ _ A) := {| prog l := Panic |}.
Proof. done. Defined.

#[export, refine] Instance steps_bind {A B} (m : M A) (f : A → M B) `{!Steps m} `{!∀ x, Steps (f x)}
    : Steps (m ≫= f) := {| prog l := pbind (prog (m := m) l) (λ r, prog (m := f r.1) r.2) |}.
Proof.
  intros w. unfold mbind, M_bind. rewrite alone_bind, (prog_alone (m := m) w).
  destruct (alone _ _) as [[[x l] s]|]; [|done]. rewrite (prog_alone (m := f x)). by destruct s, l.
Defined.

(** ** A goroutine's own state *)

#[export, refine] Instance steps_record fw ev : Steps (record fw ev) :=
  {| prog l := Done ((), if s_rec fw then l <| lo_events ::= λ evs, evs ++ [ev] |> else l) |}.
Proof. intros []. unfold record. by destruct (s_rec fw). Defined.

#[export, refine] Instance steps_iface : Steps iface_of := {| prog l := Done (egrIface (lo_egr l), l) |}.
Proof. by intros []. Defined.

#[export, refine] Instance steps_get_egr : Steps (gets w_egr) := {| prog l := Done (lo_egr l, l) |}.
Proof. by intros []. Defined.

#[export, refine] Instance steps_need {A} (x : option A) : Steps (need x) :=
  {| prog l := match x with Some a => Done (a, l) | None => Panic end |}.
Proof. intros []. by destruct x. Defined.

#[export, refine] Instance steps_on_egress fits f : Steps (on_egress fits f) :=
  {| prog l := match lo_egr l with
               | None => Done ((), l)
               | Some e => if fits e then Done ((), l <| lo_egr := Some (f e) |>) else Panic
               end |}.
Proof. intros []. unfold on_egress. cbn. destruct w_egr as [e|]; [|done]. by destruct (fits e). Defined.

#[export] Instance steps_queue label g f : Steps (queue label g f) := steps_on_egress (enqueue_fits label g) f.

#[export, refine] Instance steps_set_egr e : Steps (modify (λ w, w <| w_egr := e |>)) :=
  {| prog l := Done ((), l <| lo_egr := e |>) |}.
Proof. by intros []. Defined.

(** ** The shared state *)

Definition reserve {A} (ip : bytes) (g : Z) (sub : bytes) (n : Z) (k : Z * Z → Prog A) : Prog A :=
  Access (AtReserve (mkChainKey ip g sub) n) (λ r, match r with RSeq h f => k (h, f) | _ => Panic end).

#[export, refine] Instance steps_reserve_seq ip g sub n : Steps (reserve_seq ip g sub n) :=
  {| prog l := reserve ip g sub n (λ s, Done (s, l)) |}.
Proof. intros []. cbn. unfold reserve_seq. by destruct (reserveSeq _ _ _ _ _) as [[] ]. Defined.

#[export] Instance steps_next_seq ip g sub : Steps (next_seq ip g sub) := steps_reserve_seq ip g sub 1.

#[export, refine] Instance steps_get_bridging : Steps (gets w_bridging) :=
  {| prog l := Access AtBridging (λ r, match r with RBridging b => Done (b, l) | _ => Panic end) |}.
Proof. by intros []. Defined.

#[export, refine] Instance steps_charge_beef src n : Steps (charge_beef src n) :=
  {| prog l := Access (AtCharge src n) (λ r, match r with RCharge d => Done (d, l) | _ => Panic end) |}.
Proof. intros []. unfold charge_beef. cbn. by destruct (w_beefLimit). Defined.

(** The claim is one call of the store. *)
#[export, refine] Instance steps_claimIn fw st prefix txid ft iface worker
    : Steps (claimIngressIn fw st prefix txid ft iface worker) :=
  {| prog l :=
       match st with
       | None => Done (true, l)
       | Some st =>
           Access (AtClaim st prefix txid) (λ r,
             match r with
             | RClaim true => Done (true, l)
             | RClaim false =>
                 pbind (prog (m := record fw (EvIngressDeduped iface worker ft)) l) (λ r, Done (false, r.2))
             | _ => Panic
             end)
       end |}.
Proof.
  intros []. unfold claimIngressIn. destruct st as [st|]; [|done]. cbn.
  unfold mbind, M_bind, gets, modify, record. cbn. destruct (Claim _ _ _ _).1.1; [done|]. by destruct (s_rec fw).
Defined.

(** Two lanes may fill one entry of the address cache: the entry is loaded,
    and stored in a step of its own. *)
#[export, refine] Instance steps_addrFor fw idx : Steps (addrFor fw idx) :=
  {| prog l :=
       let a := EngineAddr (s_engine fw) idx (s_egressPort fw) in
       Access (AtLoadAddr idx) (λ r,
         match r with
         | RAddr false _ => Done (a, l)
         | RAddr true (Some (Some a)) => Done (a, l)
         | RAddr true (Some None) => Access (AtStoreAddr idx a) (λ _, Done (a, l))
         | _ => Panic
         end) |}.
Proof.
  intros []. unfold addrFor, mbind, M_bind, gets, modify. cbn. destruct (_ <=? _); [done|].
  by destruct (w_groupAddrs !! _) as [[]|].
Defined.

(** The bridging engine is loaded only when the tests before it pass. *)
#[export, refine] Instance steps_coalescable fw f : Steps (gets (λ w, coalescable fw w f)) :=
  {| prog l :=
       if s_coalesce fw && match lo_egr l with Some e => CoalArmed e | None => false end then
         Access AtBridging (λ r,
           match r with
           | RBridging b =>
               Done (match b with None => true | Some _ => false end &&
                 (BundleHeaderSize + MemberOverhead (s_coalesceCarryTxid fw) + Zlen (f_payload f)
                    <=? s_coalesceBudget fw), l)
           | _ => Panic
           end)
       else Done (false, l) |}.
Proof.
  intros []. unfold coalescable, gets. cbn. destruct (s_coalesce fw && _); [|done]. done.
Defined.
End Programs.
Arguments Panic {_ A}. Arguments Done {_ A}. Arguments Access {_ A}.
Arguments Shared {_ _}.

(** ** Derivation

    [steps] finds the program of an operation: binds and case distinctions
    are followed, the rest are instances. *)
Ltac steps :=
  intros; cbv zeta;
  lazymatch goal with
  | |- Steps (_ ≫= _) => notypeclasses refine (steps_bind _ _); [steps | intros ?; steps]
  | |- Steps (match ?x with _ => _ end) => destruct x; steps
  | |- Steps _ => exact _
  end.

Section Pipeline.
Context {SC : ShardCommon} {RT : GoRuntime}.
Implicit Types (fw : Settings) (worker : Z) (raw : bytes).

#[export] Instance steps_drop_as fw worker why : Steps (drop_as fw worker why).
Proof. unfold drop_as. steps. Defined.

#[export] Instance steps_drop_decode fw worker : Steps (drop_decode fw worker).
Proof. unfold drop_decode. steps. Defined.

#[export] Instance steps_stamp fw raw ip g sub : Steps (stampInPlace fw raw ip g sub).
Proof. unfold stampInPlace. steps. Defined.

#[export] Instance steps_frag_total fw payload worker : Steps (frag_total fw payload worker).
Proof. unfold frag_total. steps. Defined.

#[export] Instance steps_frag_loop fits build enq ip g sub i n : Steps (frag_loop fits build enq ip g sub i n).
Proof. revert i. induction n as [|n IH]; intros i; cbn [frag_loop]; steps. Defined.

#[export] Instance steps_fragment fw f ip g worker : Steps (fragment fw f ip g worker).
Proof. unfold fragment. steps. Defined.

#[export] Instance steps_fragmentBlock fw raw bf ip g worker : Steps (fragmentBlock fw raw bf ip g worker).
Proof. unfold fragmentBlock. steps. Defined.

#[export] Instance steps_fragmentSubtreeData fw raw sf ip g worker
  : Steps (fragmentSubtreeData fw raw sf ip g worker).
Proof. unfold fragmentSubtreeData. steps. Defined.

#[export] Instance steps_fragmentBEEF fw bf ip g worker : Steps (fragmentBEEF fw bf ip g worker).
Proof. unfold fragmentBEEF, beefFragTotal. steps. Defined.

#[export] Instance steps_emit_bridge fw raw txid g worker : Steps (emit_bridge fw raw txid g worker).
Proof. unfold emit_bridge. steps. Defined.

#[export] Instance steps_emit_tx fw raw txid g worker : Steps (emit_tx fw raw txid g worker).
Proof. unfold emit_tx. steps. Defined.

#[export] Instance steps_emit_beef fw raw g worker : Steps (emit_beef fw raw g worker).
Proof. unfold emit_beef. steps. Defined.

#[export] Instance steps_emit_ctrl fw raw group label worker : Steps (emit_ctrl fw raw group label worker).
Proof. unfold emit_ctrl. steps. Defined.

#[export] Instance steps_route_tx fw raw f src worker : Steps (route_tx fw raw f src worker).
Proof. unfold route_tx. steps. Defined.

#[export] Instance steps_claimIngress fw txid ft iface worker : Steps (claimIngress fw txid ft iface worker).
Proof. unfold claimIngress. steps. Defined.

#[export] Instance steps_process fw raw src worker verify : Steps (process fw raw src worker verify).
Proof. unfold process. steps. Defined.

#[export] Instance steps_ProcessBlock fw raw src worker : Steps (ProcessBlock fw raw src worker).
Proof. unfold ProcessBlock. steps. Defined.

#[export] Instance steps_ProcessAnchor fw raw src worker : Steps (ProcessAnchor fw raw src worker).
Proof. unfold ProcessAnchor. steps. Defined.

#[export] Instance steps_subtree_root_gate fw sf : Steps (subtree_root_gate fw sf).
Proof. unfold subtree_root_gate. steps. Defined.

#[export] Instance steps_ProcessSubtreeData fw raw src worker : Steps (ProcessSubtreeData fw raw src worker).
Proof. unfold ProcessSubtreeData. steps. Defined.

#[export] Instance steps_claimBEEF fw key ft iface worker : Steps (claimBEEFIngress fw key ft iface worker).
Proof. unfold claimBEEFIngress. steps. Defined.

#[export] Instance steps_claim_beef fw pe raw bf topics src worker chk
  : Steps (claim_beef fw pe raw bf topics src worker chk).
Proof. unfold claim_beef. steps. Defined.

#[export] Instance steps_checkBEEF fw raw src worker chk : Steps (checkBEEF fw raw src worker chk).
Proof. unfold checkBEEF. steps. Defined.

#[export] Instance steps_processBEEF fw raw src worker chk : Steps (processBEEF fw raw src worker chk).
Proof. unfold processBEEF. steps. Defined.

#[export] Instance steps_DispatchBEEF fw p src worker : Steps (DispatchBEEF fw p src worker).
Proof. unfold DispatchBEEF, meter_beef. steps. Defined.

#[export] Instance steps_ProcessBundle fw raw worker : Steps (ProcessBundle fw raw worker).
Proof. unfold ProcessBundle. steps. Defined.

#[export] Instance steps_dispatchBareTx fw tx src worker : Steps (dispatchBareTx fw tx src worker).
Proof. unfold dispatchBareTx. steps. Defined.

#[export] Instance steps_DispatchClass fw raw src worker class : Steps (DispatchClass fw raw src worker class).
Proof.
  unfold DispatchClass, SubmitBEEF, rejectOnBEEFLane, rejectPrivileged, ProcessBEEF, Process. steps.
Defined.

#[export] Instance steps_ForwardControl fw raw idx label port : Steps (ForwardControl fw raw idx label port).
Proof. unfold ForwardControl. steps. Defined.

#[export] Instance steps_flush_bucket fw mm iface worker bk dst fuel ms
  : Steps (flush_bucket fw mm iface worker bk dst fuel ms).
Proof. revert ms. induction fuel as [|fuel IH]; intros [|m ms]; cbn [flush_bucket]; steps. Defined.

#[export] Instance steps_flush_buckets fw mm iface worker bks : Steps (flush_buckets fw mm iface worker bks).
Proof. induction bks as [|bk bks IH]; cbn [flush_buckets]; steps. Defined.

#[export] Instance steps_FlushCoalesced fw worker : Steps (FlushCoalesced fw worker).
Proof. unfold FlushCoalesced. steps. Defined.
End Pipeline.
