(* ===== verification/InterleaveFacts.v ===== *)
(** * The pipeline under interference

    A logic of the programs of [Interleave]: what holds of an operation
    whatever the other lanes do between its accesses.  A lane may rely on
    what the others leave in the shared state and must leave the same; under
    that, no operation of the pipeline panics and all of them keep the lane's
    egress well formed. *)

From S2P Require Import Prelude Common Chains BatchWriter RetryTee Coal Egress EgressFacts RateLimit SubtreeRoot Machine Forwarder Beef Coalesce Dispatch ForwarderFacts Interleave.

Definition Trace `{ShardCommon, GoRuntime} : Type := list (Atom * Answer).

(** ** A logic of programs *)

Section Logic.
Context {SC : ShardCommon} {RT : GoRuntime}.
(** What a program may assume of an answer, and must respect in an access. *)
Context (rely : Atom → Answer → Prop) (guarantee : Atom → Prop).

(** [cwp p Q]: whatever answers the accesses get, [p] does not panic, makes
    permitted accesses only, and ends with a result that is in [Q] with the
    trace of its accesses. *)
Fixpoint cwp {A} (p : Prog A) (Q : Trace → A → Prop) : Prop :=
  match p with
  | Panic => False
  | Done x => Q [] x
  | Access a k => guarantee a ∧ ∀ r, rely a r → cwp (k r) (λ tr, Q ((a, r) :: tr))
  end.

Lemma cwp_mono {A} (p : Prog A) (Q Q' : Trace → A → Prop) :
  cwp p Q → (∀ tr x, Q tr x → Q' tr x) → cwp p Q'.
Proof.
  revert Q Q'. induction p as [|x|a k IH]; intros Q Q' Hp HQ; [done|by apply HQ|].
  destruct Hp as [Hg Hk]. split; [done|]. intros r Hr. eapply IH; [by apply Hk|]. intros. by apply HQ.
Qed.

Lemma cwp_bind {A B} (p : Prog A) (f : A → Prog B) (Q : Trace → B → Prop) :
  cwp p (λ tr x, cwp (f x) (λ tr', Q (tr ++ tr'))) → cwp (pbind p f) Q.
Proof.
  revert Q. induction p as [|x|a k IH]; intros Q Hp; [done|exact Hp|].
  destruct Hp as [Hg Hk]. split; [done|]. intros r Hr. apply IH. by apply Hk.
Qed.
End Logic.

(** ** Operations under interference *)

Section Safety.
Context {SC : ShardCommon} {SL : ShardLaws} {RT : GoRuntime}.
Implicit Types (fw : Settings) (worker : Z) (raw : bytes).

(** The invariants of the two halves: [world_ok], split. *)
Record shared_ok fw (s : Shared) : Prop := mkSharedOk {
  so_chains : stripes_ok (sh_chains s);
  so_addrs : ∀ i a, sh_groupAddrs s !! i = Some (Some a) → a = group_addr fw (Z.of_nat i) }.

Definition local_ok fw (l : Local) : Prop := ∃ e, lo_egr l = Some e ∧ egr_ok fw e.

(** What other lanes leave in the address cache is the address of the group;
    a lane stores nothing else. *)
Definition answer_ok fw (a : Atom) (r : Answer) : Prop :=
  match a, r with
  | AtReserve k _, RSeq h f => h = seqhash_Hash (ck_ip k) (ck_grp k) (ck_sub k) ∧ 0 ≤ f < 2 ^ 64
  | AtLoadAddr idx, RAddr cached slot => 0 ≤ idx → cached = true →
      ∃ a, slot = Some a ∧ ∀ a', a = Some a' → a' = group_addr fw idx
  | AtClaim _ _ _, RClaim _ | AtStoreAddr _ _, RDone | AtBridging, RBridging _ | AtCharge _ _, RCharge _ => True
  | _, _ => False
  end.

Definition access_ok fw (a : Atom) : Prop :=
  match a with AtStoreAddr idx a => 0 ≤ idx ∧ a = group_addr fw idx | _ => True end.

Lemma exec_ok fw a s :
  shared_ok fw s → access_ok fw a → answer_ok fw a (exec a s).1 ∧ shared_ok fw (exec a s).2.
Proof.
  intros [Hc Ha] Hok. destruct a as [k n|st prefix id|idx|idx a| |src n]; cbn.
  - split; [split; [apply reserveSeq_hash|rewrite reserveSeq_first; apply u64_range]|].
    split; [by apply reserveSeq_ok|done].
  - split; [done|by split].
  - split; [|by split]. destruct (Z.leb_spec (Zlen (sh_groupAddrs s)) idx) as [|Hl]; [done|]. intros Hi _.
    destruct (lookup_lt_is_Some_2 (sh_groupAddrs s) (Z.to_nat idx)) as [a El]; [unfold Zlen in Hl; lia|].
    exists a. split; [done|]. intros a' ->. apply Ha in El. by rewrite Z2Nat.id in El.
  - destruct Hok as [Hi ->]. split; [done|]. split; [done|]. cbn. intros i b Hb.
    apply list_lookup_insert_Some in Hb as [(<- & [= <-] & _)|[_ Hb]]; [|auto]. by rewrite Z2Nat.id.
  - split; [done|by split].
  - destruct (sh_beefLimit s); (split; [done|by split]).
Qed.

Definition csafe {A} fw {m : M A} (S : Steps m) (Q : A → Prop) : Prop :=
  ∀ l, local_ok fw l → cwp (answer_ok fw) (access_ok fw) (prog (Steps := S) l) (λ _ r, local_ok fw r.2 ∧ Q r.1).

Abbreviation ckeeps fw S := (csafe fw S (λ _, True)).

Lemma csafe_ret {A} fw (x : A) (Q : A → Prop) : Q x → csafe fw (steps_ret x) Q.
Proof. by intros Hx l Hl. Qed.

Lemma ckeeps_ret {A} fw (x : A) : ckeeps fw (steps_ret x).
Proof. by apply csafe_ret. Qed.

Lemma csafe_bind {A B} fw (m : M A) (f : A → M B) (Sm : Steps m) (Sf : ∀ x, Steps (f x)) P Q :
  csafe fw Sm P → (∀ x, P x → csafe fw (Sf x) Q) → csafe fw (steps_bind m f) Q.
Proof.
  intros Hm Hf l Hl. apply cwp_bind. eapply cwp_mono; [by apply Hm|]. intros tr [x l'] [Hl' Hx]. by apply Hf.
Qed.

(** Results nothing is known of. *)
Lemma csafe_then {A B} fw (m : M A) (f : A → M B) (Sm : Steps m) (Sf : ∀ x, Steps (f x)) Q :
  ckeeps fw Sm → (∀ x, csafe fw (Sf x) Q) → csafe fw (steps_bind m f) Q.
Proof. intros Hm Hf. eapply csafe_bind; [exact Hm|]. intros x _. apply Hf. Qed.

Lemma csafe_need {A} fw (x : option A) : is_Some x → csafe fw (steps_need x) (λ a, x = Some a).
Proof. by intros [a ->] l Hl. Qed.

Lemma csafe_record fw ev : ckeeps fw (steps_record fw ev).
Proof. intros l Hl. cbn. by destruct (s_rec fw). Qed.

Lemma csafe_iface fw : ckeeps fw steps_iface.
Proof. by intros l Hl. Qed.

Lemma csafe_get_egr fw : csafe fw steps_get_egr (λ e, ∃ e', e = Some e' ∧ egr_ok fw e').
Proof. by intros l Hl. Qed.

Lemma csafe_on_egress fw fits f :
  (∀ e, egr_ok fw e → fits e = true ∧ egr_ok fw (f e)) → ckeeps fw (steps_on_egress fits f).
Proof. intros Hf l (e & E & He). cbn. destruct (Hf e He) as [Hfit Hok]. rewrite E, Hfit. split; [|done]. by exists (f e). Qed.

Lemma csafe_queue fw label g f :
  0 ≤ g → (∀ e, egr_ok fw e → egr_ok fw (f e)) → ckeeps fw (steps_queue label g f).
Proof.
  intros Hg Hf. apply csafe_on_egress. intros e He. split; [|by apply Hf]. by apply enqueue_fits_ok; [apply He|].
Qed.

Lemma csafe_set_egr fw e : egr_ok fw e → ckeeps fw (steps_set_egr (Some e)).
Proof. intros He l Hl. split; [|done]. by exists e. Qed.

Lemma csafe_reserve fw ip g sub n : ckeeps fw (steps_reserve_seq ip g sub n).
Proof. intros l Hl. split; [done|]. by intros [] Hr. Qed.

Lemma csafe_next_seq fw ip g sub : ckeeps fw (steps_next_seq ip g sub).
Proof. apply csafe_reserve. Qed.

Lemma csafe_get_bridging fw : ckeeps fw steps_get_bridging.
Proof. intros l Hl. split; [done|]. by intros [] Hr. Qed.

Lemma csafe_charge fw src n : ckeeps fw (steps_charge_beef src n).
Proof. intros l Hl. split; [done|]. by intros [] Hr. Qed.

Lemma csafe_claimIn fw st prefix txid ft iface worker : ckeeps fw (steps_claimIn fw st prefix txid ft iface worker).
Proof.
  intros l Hl. cbn. destruct st as [st|]; [|done]. split; [done|]. intros [] Hr; try done.
  destruct won; [done|]. cbn. by destruct (s_rec fw).
Qed.

Lemma csafe_addrFor fw idx : 0 ≤ idx → csafe fw (steps_addrFor fw idx) (λ a, a = group_addr fw idx).
Proof.
  intros Hi l Hl. split; [done|]. intros [] Hr; try done. destruct cached; [|done].
  destruct (Hr Hi eq_refl) as ([a|] & -> & Ha); [split; [done|]; by apply Ha|]. split; [done|]. done.
Qed.

Lemma csafe_coalescable fw f : ckeeps fw (steps_coalescable fw f).
Proof. intros l Hl. cbn. destruct (_ && _); [|done]. split; [done|]. by intros [] Hr. Qed.
End Safety.

Create HintDb csafe.
#[export] Hint Resolve ckeeps_ret csafe_record csafe_iface csafe_reserve csafe_next_seq csafe_get_bridging csafe_charge
  csafe_claimIn csafe_coalescable : csafe.

(** Follow a program: binds, case distinctions, and operations whose safety
    is known. *)
Ltac csafe :=
  intros;
  lazymatch goal with
  | |- csafe _ (steps_bind _ _) _ =>
      first
        [ eapply csafe_bind; [solve [apply csafe_get_egr]|intros ? (? & -> & ?); cbv beta iota; csafe]
        | eapply csafe_bind; [apply csafe_need; solve [eauto with csafe]|let H := fresh in intros ? H; cbv beta in H; csafe]
        | eapply csafe_bind; [apply csafe_addrFor; solve [eauto with csafe]|intros ? ->; csafe]
        | eapply csafe_then; [solve [csafe]|csafe] ]
  | |- csafe _ (match ?x with _ => _ end) _ => destruct x eqn:?; csafe
  | |- csafe _ _ _ => eauto with csafe
  end.

(** Guarded reads are in range, and what they read is unsigned. *)
Lemma not_framed_total raw : is_Some (not_framed raw).
Proof. rewrite not_framed_some. by eexists. Qed.
Lemma record_tagged_total raw : is_Some (record_tagged raw).
Proof. rewrite record_tagged_some. by eexists. Qed.
Lemma byte_is_total i v raw : is_Some (byte_is i v raw).
Proof. rewrite byte_is_some. by eexists. Qed.
Lemma pow_refused_total `{ShardCommon} {RT : GoRuntime} (fw : Settings) bf : is_Some (pow_refused fw bf).
Proof. rewrite pow_refused_some. by eexists. Qed.
Lemma verify_never_panics `{ShardLaws} procs root msgType payload :
  is_Some (verifySubtreePayload procs root msgType payload).
Proof. rewrite verify_total by apply SubtreeHeader_covers. by eexists. Qed.
Lemma u16_at_total off raw : Z.of_nat off + 2 ≤ Zlen raw → is_Some (u16_at off raw).
Proof. intros Hl. rewrite u16_at_in by done. by eexists. Qed.
Lemma u32_at_total off raw : Z.of_nat off + 4 ≤ Zlen raw → is_Some (u32_at off raw).
Proof. intros Hl. rewrite u32_at_in by done. by eexists. Qed.
Lemma u16_at_nonneg off raw g : u16_at off raw = Some g → 0 ≤ g.
Proof.
  unfold u16_at. destruct (subslice _ _ raw); [|done]. intros [= <-]. unfold u16. apply Z.mod_pos_bound. lia.
Qed.

#[export] Hint Resolve not_framed_total record_tagged_total byte_is_total privileged_label_some pow_refused_total
  verify_never_panics u16_at_nonneg : csafe.

Section Operations.
Context {SC : ShardCommon} {SL : ShardLaws} {RT : GoRuntime}.
Implicit Types (fw : Settings) (worker : Z) (raw : bytes).

#[local] Abbreviation ckeeps fw S := (csafe fw S (λ _, True)).

Lemma csafe_drop_as fw worker why : ckeeps fw (steps_drop_as fw worker why).
Proof. unfold drop_as, steps_drop_as. csafe. Qed.

Lemma csafe_drop_decode fw worker : ckeeps fw (steps_drop_decode fw worker).
Proof. unfold drop_decode, steps_drop_decode. csafe. Qed.

Lemma csafe_stamp fw raw ip g sub : HeaderSize ≤ Zlen raw → ckeeps fw (steps_stamp fw raw ip g sub).
Proof.
  unfold HeaderSize. intros Hl. unfold stampInPlace, steps_stamp. destruct (Z.ltb_spec (Zlen raw) 56); [lia|]. csafe.
Qed.

Lemma csafe_frag_total fw payload worker :
  0 < s_fragDataSize fw →
  csafe fw (steps_frag_total fw payload worker) (λ t, ∀ k, t = Some k → k = frag_count payload (s_fragDataSize fw)).
Proof.
  intros Hf. unfold frag_total, steps_frag_total. destruct (Z.eqb_spec (s_fragDataSize fw) 0); [lia|].
  destruct (_ <? _); [|by apply csafe_ret; intros ? [= <-]].
  eapply csafe_then; [apply csafe_record|]. intros. by apply csafe_ret.
Qed.
#[local] Hint Resolve csafe_drop_as csafe_drop_decode csafe_stamp : csafe.

Lemma csafe_frag_loop fw fits build enq ip g sub i n :
  0 < s_fragDataSize fw → frag_fits fw fits i n → (∀ d b e, egr_ok fw e → egr_ok fw (enq d b e)) →
  ckeeps fw (steps_frag_loop fits build enq ip g sub i n).
Proof.
  intros Hf Hfit Henq. revert i Hfit. induction n as [|n IH]; intros i Hfit; [apply ckeeps_ret|].
  apply frag_fits_S in Hfit as [Hpc Hfit]. specialize (IH (i + 1) Hfit). destruct Hfit as [_ Hpa Hqu].
  eapply csafe_then; [destruct (fc_piece fits i); [apply ckeeps_ret|done]|]. intros _.
  eapply csafe_then; [apply csafe_next_seq|]. intros s. eapply csafe_bind; [apply csafe_get_egr|].
  intros ? (e & -> & He). eapply csafe_then; [|intros; apply IH].
  destruct (eo_pool fw e He Hf) as (p & Ep & Es). rewrite Ep.
  destruct (PoolGet_ok fw e p He Ep) as (b & e' & Eg & He' & Hput). rewrite Eg. cbv beta zeta iota.
  destruct (build _ i s.1 s.2) as [d|]; [|apply csafe_set_egr; auto].
  destruct (fc_patch fits (pool_size p) && fc_queue fits e') eqn:Ec; [apply csafe_set_egr; auto|].
  exfalso. by rewrite Es, Hpa, (Hqu e' He') in Ec.
Qed.

Lemma csafe_enqueue_data fw d g worker :
  0 ≤ g → ckeeps fw (steps_queue "" g (EnqueueData d (group_addr fw g) g worker)).
Proof. intros Hg. apply csafe_queue; [done|]. intros e He. by apply egr_ok_enqueue, dst_ok_data. Qed.

Lemma csafe_emit_ctrl fw raw group label worker : label ≠ "" → ckeeps fw (steps_emit_ctrl fw raw group label worker).
Proof. intros Hl. apply csafe_queue; [done|]. intros e He. by apply egr_ok_enqueue, dst_ok_label. Qed.

Lemma csafe_coal fw ip g sub txid payload :
  0 ≤ g → ckeeps fw (steps_on_egress (λ _, true) (λ e, e <| e_coal ::= fmap (coal_add ip g sub txid payload) |>)).
Proof. intros Hg. apply csafe_on_egress. intros e He. split; [done|by apply egr_ok_coal_add]. Qed.

Lemma csafe_data_frags fw build ip g sub payload patch worker :
  0 < s_fragDataSize fw → 0 ≤ g → patch (HeaderSizeV3 + s_fragDataSize fw) = true →
  ckeeps fw (steps_frag_loop (mkFragChecks (frag_in_range payload (s_fragDataSize fw)) patch (enqueue_fits "" g)) build
    (λ d b, EnqueueDataPooled d (group_addr fw g) g worker b) ip g sub 0
    (Z.to_nat (frag_count payload (s_fragDataSize fw)))).
Proof.
  intros Hf Hg Hp. apply csafe_frag_loop; [done|apply data_frag_fits; [done|done|lia|done]|].
  intros. by apply egr_ok_data_pooled.
Qed.

Lemma csafe_ctrl_frags fw build ip g sub payload patch dst label worker :
  0 < s_fragDataSize fw → label ≠ "" → patch (HeaderSizeV3 + s_fragDataSize fw) = true →
  ckeeps fw (steps_frag_loop (mkFragChecks (frag_in_range payload (s_fragDataSize fw)) patch (enqueue_fits label 0)) build
    (λ d b, EnqueueCacheablePooled d dst label worker b) ip g sub 0
    (Z.to_nat (frag_count payload (s_fragDataSize fw)))).
Proof.
  intros Hf Hl Hp. apply csafe_frag_loop; [done|apply data_frag_fits; [done|done|lia|done]|].
  intros. by apply egr_ok_cacheable_pooled.
Qed.

#[local] Hint Resolve csafe_enqueue_data csafe_emit_ctrl csafe_coal csafe_data_frags csafe_ctrl_frags patch_in_range_ok
  GroupIndex_nonneg PlaneGroupIndex_nonneg needs_frag_pos : csafe.
#[local] Hint Extern 1 (_ ≠ "") => discriminate : csafe.

Lemma csafe_fragment fw f ip g worker :
  0 < s_fragDataSize fw → 0 ≤ g → ckeeps fw (steps_fragment fw f ip g worker).
Proof.
  intros Hf Hg. unfold fragment, steps_fragment. eapply csafe_bind; [by apply csafe_frag_total|].
  intros [k|] Hk; [rewrite (Hk k eq_refl)|]; csafe.
Qed.

Lemma csafe_fragmentBlock fw raw bf ip g worker :
  0 < s_fragDataSize fw → HeaderSize ≤ Zlen raw → ckeeps fw (steps_fragmentBlock fw raw bf ip g worker).
Proof.
  intros Hf Hl. unfold fragmentBlock, steps_fragmentBlock. eapply csafe_bind; [by apply csafe_frag_total|].
  intros [k|] Hk; [rewrite (Hk k eq_refl)|]; csafe.
Qed.

Lemma csafe_fragmentSubtreeData fw raw sf ip g worker :
  0 < s_fragDataSize fw → HeaderSize ≤ Zlen raw → ckeeps fw (steps_fragmentSubtreeData fw raw sf ip g worker).
Proof.
  intros Hf Hl. unfold fragmentSubtreeData, steps_fragmentSubtreeData. eapply csafe_bind; [by apply csafe_frag_total|].
  intros [k|] Hk; [rewrite (Hk k eq_refl)|]; csafe.
Qed.

Lemma csafe_fragmentBEEF fw bf ip g worker :
  0 < s_fragDataSize fw → 0 ≤ g → ckeeps fw (steps_fragmentBEEF fw bf ip g worker).
Proof.
  intros Hf Hg. assert (Hp : (7 <? HeaderSizeV3 + s_fragDataSize fw) = true) by (apply Z.ltb_lt; unfold HeaderSizeV3; lia).
  unfold fragmentBEEF, steps_fragmentBEEF. eapply csafe_bind; [by apply csafe_frag_total|].
  intros [k|] Hk; [rewrite (Hk k eq_refl)|]; csafe.
Qed.

Lemma csafe_emit_bridge fw raw txid g worker : ckeeps fw (steps_emit_bridge fw raw txid g worker).
Proof. unfold emit_bridge, steps_emit_bridge. csafe. Qed.
#[local] Hint Resolve csafe_fragment csafe_fragmentBlock csafe_fragmentSubtreeData csafe_fragmentBEEF
  csafe_emit_bridge : csafe.

Lemma csafe_emit_tx fw raw txid g worker : 0 ≤ g → ckeeps fw (steps_emit_tx fw raw txid g worker).
Proof. unfold emit_tx, steps_emit_tx. csafe. Qed.

Lemma csafe_emit_beef fw raw g worker : 0 ≤ g → ckeeps fw (steps_emit_beef fw raw g worker).
Proof. unfold emit_beef, steps_emit_beef. csafe. Qed.
#[local] Hint Resolve csafe_emit_tx csafe_emit_beef : csafe.

Lemma csafe_route_tx fw raw f src worker :
  (f_version f = FrameVerV2 → HeaderSize ≤ Zlen raw) → ckeeps fw (steps_route_tx fw raw f src worker).
Proof.
  intros Hl. unfold route_tx, steps_route_tx. destruct src as [src|]; [|csafe].
  destruct (Z.eqb_spec (f_version f) FrameVerV2); csafe.
Qed.

Lemma csafe_claimIngress fw txid ft iface worker : ckeeps fw (steps_claimIngress fw txid ft iface worker).
Proof. apply csafe_claimIn. Qed.

Lemma csafe_claimBEEF fw key ft iface worker : ckeeps fw (steps_claimBEEF fw key ft iface worker).
Proof. unfold claimBEEFIngress, steps_claimBEEF. csafe. Qed.
#[local] Hint Resolve csafe_route_tx csafe_claimIngress csafe_claimBEEF Decode_len DecodeBlock_len DecodeAnchor_len
  DecodeSubtreeData_len : csafe.

Lemma csafe_process fw raw src worker verify : ckeeps fw (steps_process fw raw src worker verify).
Proof. unfold process, steps_process. csafe. Qed.

Lemma csafe_ProcessBlock fw raw src worker : ckeeps fw (steps_ProcessBlock fw raw src worker).
Proof. unfold ProcessBlock, steps_ProcessBlock. csafe. Qed.

Lemma csafe_ProcessAnchor fw raw src worker : ckeeps fw (steps_ProcessAnchor fw raw src worker).
Proof. unfold ProcessAnchor, steps_ProcessAnchor. csafe. Qed.

Lemma csafe_subtree_root_gate fw sf : ckeeps fw (steps_subtree_root_gate fw sf).
Proof. unfold subtree_root_gate, steps_subtree_root_gate. csafe. Qed.
#[local] Hint Resolve csafe_process csafe_ProcessBlock csafe_ProcessAnchor csafe_subtree_root_gate : csafe.

Lemma csafe_ProcessSubtreeData fw raw src worker : ckeeps fw (steps_ProcessSubtreeData fw raw src worker).
Proof. unfold ProcessSubtreeData, steps_ProcessSubtreeData. csafe. Qed.

(** ** BEEF *)

Lemma csafe_dropped {A} fw worker why (Q : option A → Prop) :
  Q None → csafe fw (steps_bind (drop_as fw worker why) (λ _, mret None)) Q.
Proof. intros HQ. eapply csafe_then; [apply csafe_drop_as|]. intros. by apply csafe_ret. Qed.

Lemma csafe_claim_beef fw pe raw bf topics src worker chk :
  HeaderSize ≤ Zlen raw → csafe fw (steps_claim_beef fw pe raw bf topics src worker chk) admitted_ok.
Proof.
  intros Hl. unfold claim_beef, steps_claim_beef. eapply csafe_then; [apply csafe_charge|].
  intros []; [|by apply csafe_dropped..]. destruct (_ && _); [by apply csafe_dropped|].
  eapply csafe_then; [apply csafe_iface|]. intros iface. eapply csafe_then; [apply csafe_claimBEEF|].
  intros []; apply csafe_ret; [|done]. split; [apply PlaneGroupIndex_nonneg|].
  destruct src; cbn [fst]; [|done]. unfold Zlen. rewrite length_insert. done.
Qed.

Lemma conformance_total fw bf src : beef_conformance fw bf src ≠ None.
Proof.
  unfold beef_conformance.
  destruct (SplitBEEFPayload (bf_payload bf)) as [[o [[|t ts]|]]|] eqn:Es; [|by repeat case_match..].
  by apply Split_topics in Es.
Qed.

Lemma csafe_checkBEEF fw raw src worker chk : csafe fw (steps_checkBEEF fw raw src worker chk) admitted_ok.
Proof.
  unfold checkBEEF, steps_checkBEEF. destruct (s_beefEngine fw) as [pe|]; [|by apply csafe_dropped].
  destruct (DecodeBEEF raw) as [bf|] eqn:Ed; [|by apply csafe_dropped]. pose proof (DecodeBEEF_len raw bf Ed) as Hl.
  pose proof (conformance_total fw bf src) as Hc.
  destruct (beef_conformance fw bf src) as [[why|topics]|]; [by apply csafe_dropped| |done].
  destruct (_ && _) eqn:E; [|by apply csafe_claim_beef].
  exfalso. apply andb_true_iff in E as [_ E]. unfold HeaderSize in Hl. lia.
Qed.

Lemma csafe_processBEEF fw raw src worker chk : ckeeps fw (steps_processBEEF fw raw src worker chk).
Proof.
  unfold processBEEF, steps_processBEEF. eapply csafe_bind; [apply csafe_checkBEEF|].
  intros [[[bf g] raw']|] Hr; [|apply ckeeps_ret]. destruct Hr as [Hg Hl]. csafe.
Qed.
#[local] Hint Resolve csafe_ProcessSubtreeData csafe_processBEEF : csafe.

Lemma csafe_DispatchBEEF fw p src worker : ckeeps fw (steps_DispatchBEEF fw p src worker).
Proof. unfold DispatchBEEF, meter_beef, steps_DispatchBEEF. csafe. Qed.

(** ** Bundles and dispatch *)

Lemma csafe_ProcessBundle fw raw worker : ckeeps fw (steps_ProcessBundle fw raw worker).
Proof.
  unfold ProcessBundle, steps_ProcessBundle. destruct (Z.ltb_spec (Zlen raw) BundleHeaderSize) as [|Hl]; [csafe|].
  unfold BundleHeaderSize in Hl. pose proof (u32_at_total 0 raw ltac:(lia)). pose proof (u32_at_total 62 raw ltac:(lia)).
  pose proof (u16_at_total 56 raw ltac:(lia)). pose proof (u16_at_total 60 raw ltac:(lia)). csafe.
Qed.

Lemma csafe_dispatchBareTx fw tx src worker : ckeeps fw (steps_dispatchBareTx fw tx src worker).
Proof. unfold dispatchBareTx, steps_dispatchBareTx. csafe. Qed.
#[local] Hint Resolve csafe_DispatchBEEF csafe_ProcessBundle csafe_dispatchBareTx : csafe.

Lemma csafe_DispatchClass fw raw src worker class : ckeeps fw (steps_DispatchClass fw raw src worker class).
Proof.
  unfold DispatchClass, SubmitBEEF, rejectOnBEEFLane, rejectPrivileged, ProcessBEEF, Process,
    steps_DispatchClass. csafe.
Qed.

Lemma csafe_ForwardControl fw raw idx label port :
  label ≠ "" → ckeeps fw (steps_ForwardControl fw raw idx label port).
Proof. intros Hl. apply csafe_queue; [done|]. intros e He. by apply egr_ok_enqueue, dst_ok_label. Qed.

Lemma csafe_flush_bucket fw mm iface worker bk fuel ms :
  1 ≤ mm → (length ms ≤ fuel)%nat → 0 ≤ cb_group bk →
  ckeeps fw (steps_flush_bucket fw mm iface worker bk (group_addr fw (cb_group bk)) fuel ms).
Proof.
  intros Hm Hl Hg. revert ms Hl. induction fuel as [|fuel IH]; intros [|m ms] Hl; try apply ckeeps_ret; [by simpl in Hl; lia|].
  pose proof (next_bundle_shorter fw mm m ms Hm) as Hsh. simpl in Hl.
  eapply csafe_then; [apply csafe_next_seq|]. intros s. eapply csafe_then; [|intros; apply IH; lia]. cbv zeta. csafe.
Qed.

Lemma csafe_flush_buckets fw mm iface worker bks :
  1 ≤ mm → Forall (λ b, 0 ≤ cb_group b) bks → ckeeps fw (steps_flush_buckets fw mm iface worker bks).
Proof.
  intros Hm Hb. induction Hb as [|bk bks Hg Hb IH]; [apply ckeeps_ret|].
  eapply csafe_bind; [by apply csafe_addrFor|]. intros dst ->.
  eapply csafe_then; [by apply csafe_flush_bucket|]. intros. apply IH.
Qed.

Lemma csafe_FlushCoalesced fw worker : ckeeps fw (steps_FlushCoalesced fw worker).
Proof.
  unfold FlushCoalesced, steps_FlushCoalesced. eapply csafe_bind; [apply csafe_get_egr|]. intros ? (e & -> & He).
  cbv beta zeta iota. destruct (e_coal e) as [c|] eqn:Ec; [|apply ckeeps_ret].
  destruct (eo_coal fw e He c Ec) as [(_ & Hm & _) Hb]. destruct (c_buckets c) as [|bk bks]; [apply ckeeps_ret|].
  eapply csafe_then; [apply csafe_flush_buckets; [lia|done]|]. intros _.
  apply csafe_on_egress. intros e' He'. split; [done|by apply egr_ok_coal_reset].
Qed.
End Operations.
