(* ===== verification/Node.v ===== *)
(** * A node: lanes that share a forwarder

    Workers and connections, each with an egress, sockets and a script of
    its own, run on one forwarder: any lane may take its next access to the
    shared state, finish an operation or flush at any time.  A lane that is
    alone does what [Worker] and [Lane] say; under any interleaving no lane
    panics.  The critical sections these accesses take are laid over the
    steps in the second half: lanes wait for one another's mutexes and the
    write locks of shared sockets, and never deadlock. *)

From S2P Require Import Prelude Common Chains BatchWriter RetryTee Coal Egress EgressFacts RateLimit SubtreeRoot Machine Forwarder Beef Coalesce Dispatch ForwarderFacts Lane LaneFacts Worker Interleave InterleaveFacts.

(** A worker with what its socket will return, or a connection with the
    actions its reader takes. *)
Inductive Script :=
| WorkerScript (wk : Worker) (rs : list Recv)
| ConnScript (rec : bool) (hooks : Z) (remote : option NetAddr) (announceName : string) (acts : list Action).

(** ** The goroutines *)

Section Node.
Context {SC : ShardCommon} {RT : GoRuntime} {K : Kernel}.

(** What a lane has to do: run an operation of the pipeline, call the
    admission observer, or flush its egress to the sockets. *)
Inductive Cmd :=
| CRun (p : Local → Prog (() * Local))
| CAdmit (frames size : Z)
| CFlush.

Record NodeLane := mkNodeLane {
  nl_local : Local; nl_net : KState; nl_admits : list (Z * Z);
  nl_prog : option (Prog (() * Local)); nl_todo : list Cmd }.

#[export] Instance eta_NodeLane : EtaExpand NodeLane := {| eta_of := λ x,
  mkNodeLane (nl_local x) (nl_net x) (nl_admits x) (nl_prog x) (nl_todo x) |}.

(** One step of a lane: the shared state it leaves and, when it accessed it,
    the access.  [None]: it has finished or panicked. *)
Definition lane_next (s : Shared) (ln : NodeLane) : option (Shared * option (Atom * Answer) * NodeLane) :=
  match nl_prog ln with
  | Some Panic => None
  | Some (Done r) => Some (s, None, ln <| nl_prog := None |> <| nl_local := r.2 |>)
  | Some (Access a k) =>
      let r := exec a s in Some (r.2, Some (a, r.1), ln <| nl_prog := Some (k r.1) |>)
  | None =>
      match nl_todo ln with
      | [] => None
      | CRun p :: todo => Some (s, None, ln <| nl_prog := Some (p (nl_local ln)) |> <| nl_todo := todo |>)
      | CAdmit frames size :: todo =>
          Some (s, None, ln <| nl_admits ::= λ l, l ++ [(frames, size)] |> <| nl_todo := todo |>)
      | CFlush :: todo =>
          match lo_egr (nl_local ln) with
          | None => Some (s, None, ln <| nl_todo := todo |>)
          | Some e =>
              '((e', evs), k) ← Flush (nl_net ln) e;
              Some (s, None, ln <| nl_local := mkLocal (Some e') (lo_events (nl_local ln) ++ evs) |>
                                <| nl_net := k |> <| nl_todo := todo |>)
          end
      end
  end.

(** The log of accesses is read by nothing. *)
Record Node := mkNode {
  nd_shared : Shared; nd_lanes : list NodeLane; nd_log : list (nat * (Atom * Answer)) }.

Definition node_next (i : nat) (nd : Node) : option Node :=
  ln ← nd_lanes nd !! i;
  '(s, ev, ln') ← lane_next (nd_shared nd) ln;
  Some (mkNode s (<[i := ln']> (nd_lanes nd))
          (nd_log nd ++ match ev with Some x => [(i, x)] | None => [] end)).

Definition node_step (nd nd' : Node) : Prop := ∃ i, node_next i nd = Some nd'.

(** A schedule says which lane steps next; one that cannot is passed over. *)
Fixpoint node_run (sched : list nat) (nd : Node) : Node :=
  match sched with
  | [] => nd
  | i :: sched => node_run sched (default nd (node_next i nd))
  end.

Lemma node_run_steps sched nd : rtc node_step nd (node_run sched nd).
Proof.
  revert nd. induction sched as [|i sched IH]; intros nd; [constructor|]. cbn.
  destruct (node_next i nd) as [nd'|] eqn:E; cbn; [|apply IH]. eapply rtc_l; [by exists i|apply IH].
Qed.

Definition idle (ln : NodeLane) : Prop := nl_prog ln = None.
Definition finished (ln : NodeLane) : Prop := idle ln ∧ nl_todo ln = [].

#[export] Instance idle_dec ln : Decision (idle ln).
Proof. unfold idle. destruct (nl_prog ln); [by right|by left]. Defined.
#[export] Instance finished_dec ln : Decision (finished ln).
Proof. unfold finished. destruct (nl_todo ln); [|by right; intros []]. destruct (idle_dec ln); [by left|by right; intros []]. Defined.

(** ** Scripts *)

Section Scripts.
Context (fw : Settings).

Definition lane_event (rec : bool) (ev : Event) : M () :=
  if rec then modify (λ w, w <| w_events ::= λ l, l ++ [ev] |>) else mret ().

#[export, refine] Instance steps_lane_event rec ev : Steps (lane_event rec ev) :=
  {| prog l := Done ((), if rec then l <| lo_events ::= λ evs, evs ++ [ev] |> else l) |}.
Proof. intros []. unfold lane_event. by destruct rec. Defined.
#[local] Hint Opaque lane_event : typeclass_instances.

(** [Worker]: an event of its own, and one datagram. *)
Definition worker_note (wk : Worker) (ev : string → Event) : M () :=
  e ← gets w_egr;
  match e with
  | Some e => match e_targets e with t :: _ => lane_event (wk_rec wk) (ev t) | [] => mret () end
  | None => mret ()
  end.

#[export] Instance steps_worker_note wk ev : Steps (worker_note wk ev).
Proof. unfold worker_note. steps. Defined.
#[local] Hint Opaque worker_note : typeclass_instances.

Definition worker_op (wk : Worker) (d : Datagram) : M () :=
  let n := Zlen (dg_data d) in
  if n =? RecvBufSize then worker_note wk (λ t, EvPacketDropped t (wk_id wk) "truncated")
  else
    worker_note wk (λ t, EvPacketReceived t (wk_id wk) n);;
    DispatchClass fw (dg_data d) (dg_src d) (wk_id wk) (wk_class wk).

#[export] Instance steps_worker_op wk d : Steps (worker_op wk d).
Proof. unfold worker_op. steps. Defined.

Definition op (m : M ()) `{!Steps m} : Cmd := CRun (prog (m := m)).

Definition batch_cmds (wk : Worker) (ds : list Datagram) : list Cmd :=
  ((λ d, op (worker_op wk d)) <$> ds) ++ [op (FlushCoalesced fw (wk_id wk)); CFlush].

Fixpoint worker_cmds (wk : Worker) (rs : list Recv) : list Cmd :=
  match rs with
  | [] | RecvClosed :: _ => []
  | RecvError :: rs => op (worker_note wk (λ t, EvIngressError t (wk_id wk))) :: worker_cmds wk rs
  | Received ds :: rs => batch_cmds wk ds ++ worker_cmds wk rs
  end.

(** A connection: the actions of its reader ([Lane.perform]), over the
    multicast sockets. *)
Definition action_cmds (rec : bool) (hooks : Z) (remote : option NetAddr) (announceName : string) (flush : list Cmd)
    (a : Action) : list Cmd :=
  match a with
  | ARecord ev => [op (lane_event rec ev)]
  | AAdmit frames size => replicate (Z.to_nat hooks) (CAdmit frames size)
  | ADispatch raw class => [op (DispatchClass fw raw remote (-1) class)]
  | ABareTx tx => [op (dispatchBareTx fw tx remote (-1))]
  | AControl raw => [op (ForwardControl fw raw GroupSubtreeGroupAnnounce announceName (s_egressPort fw))]
  | AFlush => flush
  | ARead _ => []
  end.

Definition tcp_flush_cmds : list Cmd := [op (FlushCoalesced fw (-1)); CFlush].
Definition script_cmds (sc : Script) : list Cmd :=
  match sc with
  | WorkerScript wk rs => worker_cmds wk rs
  | ConnScript rec hooks remote name acts => acts ≫= action_cmds rec hooks remote name tcp_flush_cmds
  end.

Definition start_lane (x : Egress * KState * Script) : NodeLane :=
  mkNodeLane (mkLocal (Some x.1.1) []) x.1.2 [] None (script_cmds x.2).
End Scripts.
End Node.
Arguments NodeLane {_ _}. Arguments Node {_ _ _}. Arguments Cmd {_}.

(** ** A lane on its own *)

Section Alone.
Context {SC : ShardCommon} {RT : GoRuntime} {K : Kernel} {V : Type}.
Implicit Types (h : Host V) (ln : NodeLane).

Definition lane_move (x y : Shared * NodeLane) : Prop := ∃ ev, lane_next x.1 x.2 = Some (y.1, ev, y.2).

(** The lane that acts on a host. *)
Definition host_lane h (todo : list Cmd) : NodeLane :=
  mkNodeLane (local (h_world h)) (h_net h) (h_admits h) None todo.
Definition host_at h (todo : list Cmd) : Shared * NodeLane := (shared (h_world h), host_lane h todo).

Lemma moves_steps i nd x y :
  rtc lane_move x y → nd_shared nd = x.1 → nd_lanes nd !! i = Some x.2 →
  ∃ nd', rtc node_step nd nd' ∧ nd_shared nd' = y.1 ∧ nd_lanes nd' = <[i := y.2]> (nd_lanes nd).
Proof.
  intros Hr. revert nd. induction Hr as [x|x y z [ev Hxy] _ IH]; intros nd Hs Hl.
  { exists nd. split; [constructor|]. split; [done|]. by rewrite list_insert_id. }
  set (nd1 := mkNode y.1 (<[i := y.2]> (nd_lanes nd)) (nd_log nd ++ match ev with Some x => [(i, x)] | None => [] end)).
  destruct (IH nd1) as (nd' & Hn & Es & El); [done|apply list_lookup_insert_eq; by eapply lookup_lt_Some|].
  exists nd'. split; [|by rewrite El; cbn; rewrite list_insert_insert_eq].
  eapply rtc_l; [|exact Hn]. exists i. unfold node_next. rewrite Hl. cbn [mbind option_bind]. rewrite Hs, Hxy. done.
Qed.

Lemma alone_moves (p : Prog (() * Local)) s ln r s' :
  nl_prog ln = Some p → alone p s = Some (r, s') →
  rtc lane_move (s, ln) (s', ln <| nl_prog := None |> <| nl_local := r.2 |>).
Proof.
  revert s ln. induction p as [|x|a k IH]; intros s ln Hp Ha; [done| |].
  - injection Ha as -> ->. apply rtc_once. exists None. unfold lane_next. cbn [fst snd]. by rewrite Hp.
  - set (ln1 := ln <| nl_prog := Some (k (exec a s).1) |>). apply rtc_l with ((exec a s).2, ln1).
    + exists (Some (a, (exec a s).1)). unfold lane_next. cbn [fst snd]. by rewrite Hp.
    + apply (IH _ _ ln1 eq_refl Ha).
Qed.

Lemma moves_op (m : M ()) `{!Steps m} h h' todo :
  lift m h = Some h' → rtc lane_move (host_at h (op m :: todo)) (host_at h' todo).
Proof.
  unfold lift. rewrite (prog_alone (h_world h)). destruct (alone _ _) as [[[[] l] s]|] eqn:E; [|done].
  cbn. intros [= <-]. set (ln := (host_lane h todo) <| nl_prog := Some (prog (m := m) (local (h_world h))) |>).
  apply rtc_l with (shared (h_world h), ln); [by exists None|].
  pose proof (alone_moves _ _ ln _ _ eq_refl E) as Ha. unfold host_at, host_lane. by destruct s, l.
Qed.

Lemma moves_flush h h' todo : egr_Flush h = Some h' → rtc lane_move (host_at h (CFlush :: todo)) (host_at h' todo).
Proof.
  unfold egr_Flush. intros E. apply rtc_once. exists None. unfold host_at, lane_next. cbn.
  destruct (w_egr (h_world h)) as [e|]; [|by injection E as <-].
  destruct (Flush (h_net h) e) as [[[e' evs] k]|]; [|done]. by injection E as <-.
Qed.
End Alone.

(** *** Workers and connections *)

Section AloneLanes.
Context {SC : ShardCommon} {RT : GoRuntime} {K : Kernel}.
Context (fw : Settings).

Lemma worker_record_note wk ev (h : Host ()) :
  lift (worker_note wk ev) h = Some (worker_record wk ev h).
Proof.
  unfold worker_note, worker_record, lane_record, lift, lane_event, mbind, M_bind, gets. cbn.
  destruct h as [w n v a]. cbn. destruct (w_egr w) as [e|]; [|by destruct w]. destruct (e_targets e); [by destruct w|].
  by destruct (wk_rec wk), w.
Qed.

Lemma lift_bind {V A B} (m : M A) (f : A → M B) (h : Host V) :
  lift (m ≫= f) h = match m (h_world h) with Some (x, w) => lift (f x) (h <| h_world := w |>) | None => None end.
Proof. unfold lift, mbind at 2, M_bind. destruct (m (h_world h)) as [[]|]; [|done]. cbn. by destruct (f _ _) as [[]|]. Qed.

Lemma worker_datagram_op wk d (h : Host ()) : worker_datagram fw wk d h = lift (worker_op fw wk d) h.
Proof.
  unfold worker_datagram, worker_op. cbv zeta. destruct (_ =? _); [by rewrite worker_record_note|].
  rewrite lift_bind. pose proof (worker_record_note wk (λ t, EvPacketReceived t (wk_id wk) (Zlen (dg_data d))) h) as E.
  unfold lift in E at 1. destruct (worker_note _ _ _) as [[[] w]|]; [|done]. by injection E as <-.
Qed.

Lemma moves_datagrams wk ds h h' todo :
  worker_datagrams fw wk ds h = Some h' →
  rtc lane_move (host_at h (((λ d, op (worker_op fw wk d)) <$> ds) ++ todo)) (host_at h' todo).
Proof.
  revert h. induction ds as [|d ds IH]; intros h; cbn [worker_datagrams]; [intros [= <-]; constructor|].
  rewrite worker_datagram_op. destruct (lift _ h) as [h1|] eqn:E; [|done]. cbn. intros Hr.
  etransitivity; [by eapply moves_op|]. by apply IH.
Qed.

Lemma moves_worker wk rs h h' todo :
  worker_loop fw wk rs h = Some h' →
  rtc lane_move (host_at h (worker_cmds fw wk rs ++ todo)) (host_at h' todo).
Proof.
  revert h. induction rs as [|[ds| |] rs IH]; intros h; cbn [worker_loop worker_cmds]; [intros [= <-]; constructor| |
    intros [= <-]; constructor|].
  - destruct (worker_batch fw wk ds h) as [h1|] eqn:E; [|done]. cbn. intros Hr. unfold worker_batch in E.
    destruct (worker_datagrams fw wk ds h) as [h2|] eqn:E2; [|done]. cbn in E.
    destruct (lift _ h2) as [h3|] eqn:E3; [|done]. cbn in E. unfold batch_cmds. rewrite <- !app_assoc.
    etransitivity; [by apply moves_datagrams|]. etransitivity; [by eapply moves_op|].
    etransitivity; [by eapply moves_flush|]. by apply IH.
  - intros Hr. etransitivity; [eapply moves_op, worker_record_note|]. by apply IH.
Qed.

Lemma moves_admits {V} n frames size (h : Host V) todo :
  rtc lane_move (host_at h (replicate n (CAdmit frames size) ++ todo))
    (host_at (h <| h_admits ::= λ l, l ++ replicate n (frames, size) |>) todo).
Proof.
  revert h. induction n as [|n IH]; intros h.
  { unfold host_at, host_lane. cbn. rewrite app_nil_r. constructor. }
  apply rtc_l with (host_at (h <| h_admits ::= λ l, l ++ [(frames, size)] |>) (replicate n (CAdmit frames size) ++ todo)).
  { by exists None. }
  etransitivity; [apply IH|]. unfold host_at, host_lane. cbn. rewrite <- app_assoc. constructor.
Qed.

(** A connection over the multicast sockets, with what its flush does. *)
Lemma moves_actions {V} rec hooks remote announceName flush cmds acts (h h' : Host V) todo :
  (∀ h h' todo, flush h = Some h' → rtc lane_move (host_at h (cmds ++ todo)) (host_at h' todo)) →
  perform_all fw rec hooks remote announceName flush acts h = Some h' →
  rtc lane_move (host_at h ((acts ≫= action_cmds fw rec hooks remote announceName cmds) ++ todo)) (host_at h' todo).
Proof.
  intros Hf. revert h. induction acts as [|a acts IH]; intros h; cbn [perform_all]; [intros [= <-]; constructor|].
  destruct (perform _ _ _ _ _ _ a h) as [h1|] eqn:E; [|done]. cbn [mbind option_bind]. intros Hr.
  rewrite bind_cons, <- app_assoc. etransitivity; [|by apply IH]. clear Hr IH. destruct a; cbn in E |- *.
  - apply moves_op. unfold lift, lane_event. injection E as <-. unfold lane_record. by destruct rec, h as [[]].
  - injection E as <-. apply moves_admits.
  - by apply moves_op.
  - by apply moves_op.
  - by apply moves_op.
  - by apply Hf.
  - injection E as <-. constructor.
Qed.
End AloneLanes.

(** ** Termination

    Every run of a node comes to an end: a program makes finitely many
    accesses, whatever the answers, and a script is finite. *)

(** One element of a list steps down. *)
Definition list_after {A} (R : A → A → Prop) (l' l : list A) : Prop :=
  ∃ i x y, l !! i = Some x ∧ R y x ∧ l' = <[i := y]> l.

Lemma list_after_acc {A} (R : A → A → Prop) l : Forall (Acc R) l → Acc (list_after R) l.
Proof.
  induction 1 as [|x l Hx _ IH]; [constructor; by intros l' (i & x & y & E & _)|].
  revert l IH. induction Hx as [x _ IHx]. intros l Hl. induction Hl as [l Hl IHl]. constructor.
  intros l' ([|i] & x' & y & E & HR & ->); cbn in E |- *.
  - injection E as ->. apply IHx; [done|by constructor].
  - apply IHl. by exists i, x', y.
Qed.

Section Termination.
Context {SC : ShardCommon} {RT : GoRuntime} {K : Kernel}.
Implicit Types (ln : NodeLane).

Definition lane_after (ln' ln : NodeLane) : Prop :=
  ∃ s k s' ev, lane_next s (ln <| nl_net := k |>) = Some (s', ev, ln').

Lemma running_acc todo :
  (∀ ln, idle ln → nl_todo ln = todo → Acc lane_after ln) →
  ∀ p ln, nl_prog ln = Some p → nl_todo ln = todo → Acc lane_after ln.
Proof.
  intros Hi p. induction p as [|r|a k IH]; intros ln Hp Ht; constructor; intros ln' (s & net & s' & ev & E);
    unfold lane_next in E; cbn in E; rewrite Hp in E; [done|injection E as <- <- <-..].
  - by apply Hi.
  - by eapply IH.
Qed.

Lemma idle_acc todo : ∀ ln, idle ln → nl_todo ln = todo → Acc lane_after ln.
Proof.
  induction todo as [|c todo IH]; intros ln Hp Ht; constructor; intros ln' (s & net & s' & ev & E); unfold lane_next, idle in *;
    cbn in E; rewrite Hp, Ht in E; [done|]. destruct c as [p|frames size|].
  - injection E as <- <- <-. by eapply running_acc.
  - injection E as <- <- <-. by apply IH.
  - destruct (lo_egr (nl_local ln)) as [e|]; [|injection E as <- <- <-; by apply IH].
    destruct (Flush net e) as [[[]]|]; [|done]. injection E as <- <- <-. by apply IH.
Qed.

Lemma lane_after_acc ln : Acc lane_after ln.
Proof. destruct (nl_prog ln) as [p|] eqn:E; [eapply running_acc; eauto using idle_acc|by eapply idle_acc]. Qed.

Lemma node_terminates (nd : Node) : Acc (λ nd' nd, node_step nd nd') nd.
Proof.
  assert (H : Acc (list_after lane_after) (nd_lanes nd)).
  { apply list_after_acc, list.Forall_true, lane_after_acc. }
  remember (nd_lanes nd) as l eqn:El. revert nd El. induction H as [l _ IH]. intros nd ->. constructor.
  intros nd' [i E]. apply (IH (nd_lanes nd')); [|done]. unfold node_next in E.
  destruct (nd_lanes nd !! i) as [ln|] eqn:El; [|done]. cbn in E.
  destruct (lane_next (nd_shared nd) ln) as [[[s ev] ln']|] eqn:En; [|done]. injection E as <-.
  exists i, ln, ln'. split; [done|]. split; [|done]. exists (nd_shared nd), (nl_net ln), s, ev. by destruct ln.
Qed.
End Termination.

(** ** The invariant of a node *)

Section Invariant.
Context {SC : ShardCommon} {SL : ShardLaws} {RT : GoRuntime} {K : Kernel}.
Context (fw : Settings).
Implicit Types (ln : NodeLane) (nd : Node).

#[local] Abbreviation ends p := (cwp (answer_ok fw) (access_ok fw) p (λ _ (r : () * Local), local_ok fw r.2)).

Definition cmd_ok (c : Cmd) : Prop :=
  match c with CRun p => ∀ l, local_ok fw l → ends (p l) | _ => True end.

Record lane_ok ln : Prop := mkLaneOk {
  lk_local : local_ok fw (nl_local ln);
  lk_prog : ∀ p, nl_prog ln = Some p → ends p;
  lk_todo : Forall cmd_ok (nl_todo ln) }.

Record node_ok nd : Prop := mkNodeOk {
  nk_shared : shared_ok fw (nd_shared nd);
  nk_lanes : Forall lane_ok (nd_lanes nd) }.

(** A lane that has something to do can do it, whatever the others are
    doing, and keeps the invariant. *)
Lemma lane_next_ok s ln :
  shared_ok fw s → lane_ok ln → ¬ finished ln →
  ∃ s' ev ln', lane_next s ln = Some (s', ev, ln') ∧ shared_ok fw s' ∧ lane_ok ln'.
Proof.
  intros Hs [Hl Hp Ht] Hf. unfold lane_next, finished, idle in *.
  destruct (nl_prog ln) as [[|r|a k]|] eqn:Ep; [by specialize (Hp _ eq_refl)|..].
  - do 3 eexists. split; [reflexivity|]. split; [done|]. split; cbn; [apply (Hp _ eq_refl)|done|done].
  - destruct (Hp _ eq_refl) as [Ha Hk]. destruct (exec_ok fw a s Hs Ha) as [Hr Hs'].
    do 3 eexists. split; [reflexivity|]. split; [done|]. split; cbn; [done| |done]. intros p [= <-].
    eapply cwp_mono; [by apply Hk|]. done.
  - destruct (nl_todo ln) as [|[p|frames size|] todo]; [by destruct Hf|..]; apply list.Forall_cons in Ht as [Hc Ht].
    + do 3 eexists. split; [reflexivity|]. split; [done|]. split; cbn; [done| |done]. intros q [= <-]. by apply Hc.
    + do 3 eexists. split; [reflexivity|]. split; [done|]. split; cbn; by rewrite ?Ep.
    + destruct Hl as (e & -> & He). destruct (Flush_inline fw (nl_net ln) e He) as (evs & k & ->). cbn.
      do 3 eexists. split; [reflexivity|]. split; [done|]. split; cbn; [|by rewrite Ep|done].
      eexists. split; [done|]. by apply egr_ok_flush.
Qed.

Lemma node_ok_step nd nd' : node_ok nd → node_step nd nd' → node_ok nd'.
Proof.
  intros [Hs Hl] [i E]. unfold node_next in E. destruct (nd_lanes nd !! i) as [ln|] eqn:El; [|done]. cbn in E.
  destruct (lane_next (nd_shared nd) ln) as [[[s ev] ln']|] eqn:En; [|done]. injection E as <-.
  pose proof (list.Forall_lookup_1 _ _ _ _ Hl El) as Hln.
  destruct (lane_next_ok _ _ Hs Hln) as (s' & ev' & l' & E' & Hs' & Hl').
  { intros [Hi Ht]. unfold lane_next in En. by rewrite Hi, Ht in En. }
  rewrite En in E'. injection E' as -> -> ->. split; [done|]. cbn. by apply list.Forall_insert.
Qed.

Lemma node_ok_reachable nd nd' : node_ok nd → rtc node_step nd nd' → node_ok nd'.
Proof. intros Hn Hr. induction Hr; [done|]. eauto using node_ok_step. Qed.

(** ** The scripts of the lanes are safe *)

Lemma cmd_ok_op (m : M ()) {Sm : Steps m} : csafe fw Sm (λ _, True) → cmd_ok (op m).
Proof. intros Hm l Hl. eapply cwp_mono; [by apply Hm|]. by intros tr r [? _]. Qed.

Lemma csafe_lane_event rec ev : csafe fw (steps_lane_event rec ev) (λ _, True).
Proof. intros l Hl. cbn. by destruct rec. Qed.

Lemma csafe_worker_note wk ev : csafe fw (steps_worker_note wk ev) (λ _, True).
Proof.
  unfold worker_note, steps_worker_note. eapply csafe_bind; [apply csafe_get_egr|]. intros ? (e & -> & He).
  cbv beta zeta iota. destruct (e_targets e); [apply ckeeps_ret|apply csafe_lane_event].
Qed.

Lemma csafe_worker_op wk d : Forall is_byte (dg_data d) → csafe fw (steps_worker_op fw wk d) (λ _, True).
Proof.
  intros Hb. unfold worker_op, steps_worker_op. destruct (_ =? _); [apply csafe_worker_note|].
  eapply csafe_then; [apply csafe_worker_note|]. intros _. by apply csafe_DispatchClass.
Qed.

Lemma batch_cmds_ok wk ds : Forall (λ d, Forall is_byte (dg_data d)) ds → Forall cmd_ok (batch_cmds fw wk ds).
Proof.
  intros Hb. apply list.Forall_app. split.
  - apply Forall_fmap. eapply list.Forall_impl; [exact Hb|]. intros d Hd. by apply cmd_ok_op, csafe_worker_op.
  - repeat constructor. apply cmd_ok_op, csafe_FlushCoalesced.
Qed.

(** What a socket returns is bytes. *)
Definition recv_ok (r : Recv) : Prop :=
  match r with Received ds => Forall (λ d, Forall is_byte (dg_data d)) ds | _ => True end.

Lemma worker_cmds_ok wk rs : Forall recv_ok rs → Forall cmd_ok (worker_cmds fw wk rs).
Proof.
  intros Hr. induction Hr as [|r rs Hr _ IH]; [constructor|]. destruct r as [ds| |]; cbn.
  - apply list.Forall_app. split; [by apply batch_cmds_ok|done].
  - constructor.
  - constructor; [apply cmd_ok_op, csafe_worker_note|done].
Qed.

Lemma action_cmds_ok rec hooks remote announceName cmds acts :
  announceName ≠ "" → Forall cmd_ok cmds → Forall action_ok acts →
  Forall cmd_ok (acts ≫= action_cmds fw rec hooks remote announceName cmds).
Proof.
  intros Hn Hc Ha. induction Ha as [|a acts Ha _ IH]; [constructor|]. rewrite bind_cons. apply list.Forall_app.
  split; [|done]. destruct a; cbn in Ha |- *.
  - repeat constructor. apply cmd_ok_op, csafe_lane_event.
  - by apply list.Forall_replicate.
  - repeat constructor. by apply cmd_ok_op, csafe_DispatchClass.
  - repeat constructor. apply cmd_ok_op, csafe_dispatchBareTx.
  - repeat constructor. by apply cmd_ok_op, csafe_ForwardControl.
  - done.
  - constructor.
Qed.

Lemma tcp_flush_cmds_ok : Forall cmd_ok (tcp_flush_cmds fw).
Proof. repeat constructor. apply cmd_ok_op, csafe_FlushCoalesced. Qed.
(** Datagrams and frames are bytes, and the announce group has a name. *)
Definition script_ok (sc : Script) : Prop :=
  match sc with
  | WorkerScript _ rs => Forall recv_ok rs
  | ConnScript _ _ _ name acts => name ≠ "" ∧ Forall action_ok acts
  end.

Lemma start_ok s0 lanes :
  shared_ok fw s0 → Forall (λ x, egr_ok fw x.1.1 ∧ script_ok x.2) lanes →
  node_ok (mkNode s0 (start_lane fw <$> lanes) []).
Proof.
  intros Hs Hl. split; [done|]. apply Forall_fmap. eapply list.Forall_impl; [exact Hl|].
  intros [[e k] sc] [He Hsc]. split; cbn; [by exists e|done|].
  destruct sc as [wk rs|rec hooks remote name acts]; cbn in Hsc |- *; [by apply worker_cmds_ok|].
  destruct Hsc. apply action_cmds_ok; [done|apply tcp_flush_cmds_ok|done].
Qed.
End Invariant.

(** ** Locks

    Lanes do wait for one another: for the mutex of a counter stripe, for
    those of the rate limiter and of the recorder, and, when they share a
    pool slot, for the write lock of a socket.  A lane takes the critical
    sections of its next step one after the other, holding one lock at a
    time, and acts when it is past them: [reserveSeq] adds to the counter
    after it has released the stripe. *)

Inductive Mutex :=
| StripeMu (i : Z)
| LimiterMu
| SourceMu (key : SrcKey) (byt : bool)
| PlaneMu (byt : bool)
| IfaceMu
| IfaceStateMu (iface : string)
| CoalesceMu
| WriteLock (slot target : nat).

#[export] Instance Mutex_eq_dec : EqDecision Mutex.
Proof. solve_decision. Defined.

Section Locks.
Context {SC : ShardCommon} {RT : GoRuntime} {K : Kernel}.
Implicit Types (ln : NodeLane) (s : Shared).

(** The mutexes of a recorder: each is held to bind a series and no other is
    taken inside. *)
Definition recorder_mutex (m : Mutex) : Prop :=
  match m with IfaceMu | IfaceStateMu _ | CoalesceMu => True | _ => False end.

(** The sections of a charge, in order: the source table, the two buckets of
    the source, the two of the plane.  A charge that is refused, or has a
    budget switched off, skips some. *)
Definition charge_mutexes s (src : option NetAddr) : list Mutex :=
  match sh_beefLimit s, src with
  | Some l, Some src =>
      let key := sourceKey src (SourcePrefixBits (lim_cfg l)) in
      [LimiterMu; SourceMu key false; SourceMu key true; PlaneMu false; PlaneMu true]
  | _, _ => []
  end.

(** The critical sections the next step of a lane may take.  A flush writes
    each socket of its slot any number of times, and what it records there,
    as what an operation has recorded, may bind series. *)
Definition takes (slot : nat) s ln (ms : list Mutex) : Prop :=
  match nl_prog ln with
  | Some (Access (AtReserve k _) _) => ms = [StripeMu (stripeIndex (ck_ip k))]
  | Some (Access (AtCharge src _) _) => ms `sublist_of` charge_mutexes s src
  | Some (Done _) => Forall recorder_mutex ms
  | None =>
      match nl_todo ln, lo_egr (nl_local ln) with
      | CFlush :: _, Some e =>
          Forall (λ m, recorder_mutex m ∨ ∃ j, m = WriteLock slot j ∧ (j < length (e_targets e))%nat) ms
      | _, _ => ms = []
      end
  | _ => ms = []
  end.

(** [kl_left]: the sections left before the lane acts, [None] between two
    steps. *)
Record LockLane := mkLockLane {
  kl_lane : NodeLane; kl_slot : nat; kl_holds : option Mutex; kl_left : option (list Mutex) }.

#[export] Instance eta_LockLane : EtaExpand LockLane := {| eta_of := λ x,
  mkLockLane (kl_lane x) (kl_slot x) (kl_holds x) (kl_left x) |}.

Record LockNode := mkLockNode { kn_shared : Shared; kn_lanes : list LockLane }.

Definition free (m : Mutex) (nd : LockNode) : Prop := Forall (λ kl, kl_holds kl ≠ Some m) (kn_lanes nd).

#[export] Instance free_dec m nd : Decision (free m nd).
Proof. unfold free. apply _. Defined.

(** What may have changed when a lane acts: time has passed, other lanes have
    been in sections of a charge it has left or not yet entered, other
    processes use the dedup store, the beacon listener has set the bridging
    engine, and a shared socket is in the state the others left it in. *)
Definition drift (x y : Shared * KState) : Prop :=
  sh_chains y.1 = sh_chains x.1 ∧ sh_groupAddrs y.1 = sh_groupAddrs x.1.

(** One step of a lane; [D] says what may have changed when it acts. *)
Inductive lock_lane (D : Shared * KState → Shared * KState → Prop) s (fr : Mutex → Prop) : LockLane → Shared → LockLane → Prop :=
| lock_begin kl ms :
    kl_holds kl = None → kl_left kl = None → ¬ finished (kl_lane kl) → takes (kl_slot kl) s (kl_lane kl) ms →
    lock_lane D s fr kl s (kl <| kl_left := Some ms |>)
| lock_acquire kl m ms :
    kl_holds kl = None → kl_left kl = Some (m :: ms) → fr m →
    lock_lane D s fr kl s (kl <| kl_holds := Some m |> <| kl_left := Some ms |>)
| lock_release kl m :
    kl_holds kl = Some m → lock_lane D s fr kl s (kl <| kl_holds := None |>)
| lock_act kl s1 k s' ev ln' :
    kl_holds kl = None → kl_left kl = Some [] → D (s, nl_net (kl_lane kl)) (s1, k) →
    lane_next s1 ((kl_lane kl) <| nl_net := k |>) = Some (s', ev, ln') →
    lock_lane D s fr kl s' (kl <| kl_lane := ln' |> <| kl_left := None |>).

Definition lock_next D (i : nat) (nd nd' : LockNode) : Prop :=
  ∃ kl s' kl', kn_lanes nd !! i = Some kl ∧ lock_lane D (kn_shared nd) (λ m, free m nd) kl s' kl' ∧
    nd' = mkLockNode s' (<[i := kl']> (kn_lanes nd)).
Definition lock_step D (nd nd' : LockNode) : Prop := ∃ i, lock_next D i nd nd'.

Definition lock_start s0 (lanes : list (nat * NodeLane)) : LockNode :=
  mkLockNode s0 ((λ x, mkLockLane x.2 x.1 None None) <$> lanes).

(** Lane [i] waits for a mutex that lane [j] holds. *)
Definition waits_for (nd : LockNode) (i j : nat) : Prop :=
  ∃ m ms ki kj, kn_lanes nd !! i = Some ki ∧ kn_lanes nd !! j = Some kj ∧
    kl_holds ki = None ∧ kl_left ki = Some (m :: ms) ∧ kl_holds kj = Some m.

(** *** A schedule *)

(** The sections of a step that takes all of them, and writes each socket
    once. *)
Definition all_sections (slot : nat) s ln : list Mutex :=
  match nl_prog ln with
  | Some (Access (AtReserve k _) _) => [StripeMu (stripeIndex (ck_ip k))]
  | Some (Access (AtCharge src _) _) => charge_mutexes s src
  | None =>
      match nl_todo ln, lo_egr (nl_local ln) with
      | CFlush :: _, Some e => WriteLock slot <$> seq 0 (length (e_targets e))
      | _, _ => []
      end
  | _ => []
  end.

Lemma all_sections_taken slot s ln : takes slot s ln (all_sections slot s ln).
Proof.
  unfold takes, all_sections. destruct (nl_prog ln) as [[|r|[] k]|]; try done.
  destruct (nl_todo ln) as [|[] ?]; try done. destruct (lo_egr (nl_local ln)) as [e|]; [|done].
  apply Forall_fmap, list.Forall_forall. intros j Hj%elem_of_seq. right. exists j. split; [done|]. lia.
Qed.

Definition lock_choice (i : nat) (nd : LockNode) : option LockNode :=
  kl ← kn_lanes nd !! i;
  let set s kl := Some (mkLockNode s (<[i := kl]> (kn_lanes nd))) in
  match kl_holds kl, kl_left kl with
  | Some _, _ => set (kn_shared nd) (kl <| kl_holds := None |>)
  | None, None =>
      if decide (finished (kl_lane kl)) then None
      else set (kn_shared nd) (kl <| kl_left := Some (all_sections (kl_slot kl) (kn_shared nd) (kl_lane kl)) |>)
  | None, Some (m :: ms) =>
      if decide (free m nd) then set (kn_shared nd) (kl <| kl_holds := Some m |> <| kl_left := Some ms |>) else None
  | None, Some [] =>
      '(s, _, ln) ← lane_next (kn_shared nd) (kl_lane kl); set s (kl <| kl_lane := ln |> <| kl_left := None |>)
  end.

Fixpoint lock_run (sched : list nat) (nd : LockNode) : LockNode :=
  match sched with
  | [] => nd
  | i :: sched => lock_run sched (default nd (lock_choice i nd))
  end.

Lemma lock_choice_step (D : Shared * KState → Shared * KState → Prop) i nd nd' :
  (∀ x, D x x) → lock_choice i nd = Some nd' → lock_next D i nd nd'.
Proof.
  intros HD. unfold lock_choice, lock_next. destruct (kn_lanes nd !! i) as [kl|] eqn:Ei; [|done]. cbn [mbind option_bind]. cbv zeta.
  destruct (kl_holds kl) as [m|] eqn:Eh; [|destruct (kl_left kl) as [[|m ms]|] eqn:El].
  - intros [= <-]. eexists kl, _, _. split; [done|]. split; [by eapply lock_release|done].
  - destruct (lane_next _ _) as [[[s ev] ln]|] eqn:En; [|done]. intros [= <-]. eexists kl, _, _. split; [done|].
    split; [|done]. eapply lock_act; [done|done|apply HD|]. destruct kl as [[]]. exact En.
  - destruct (decide _); [|done]. intros [= <-]. eexists kl, _, _. split; [done|]. split; [by eapply lock_acquire|done].
  - destruct (decide _); [done|]. intros [= <-]. eexists kl, _, _. split; [done|].
    split; [|done]. by eapply lock_begin; [..|apply all_sections_taken].
Qed.

Lemma lock_run_steps (D : Shared * KState → Shared * KState → Prop) sched nd :
  (∀ x, D x x) → rtc (lock_step D) nd (lock_run sched nd).
Proof.
  intros HD. revert nd. induction sched as [|i sched IH]; intros nd; [constructor|]. cbn.
  destruct (lock_choice i nd) as [nd'|] eqn:E; cbn; [|apply IH]. eapply rtc_l; [|apply IH]. exists i. by apply lock_choice_step.
Qed.
End Locks.
Arguments LockLane {_ _}. Arguments LockNode {_ _ _}.

(** *** No deadlock

    A lane that waits holds nothing, so the lane it waits for can go on. *)

Section LockFacts.
Context {SC : ShardCommon} {SL : ShardLaws} {RT : GoRuntime} {K : Kernel}.
Context (fw : Settings).
Implicit Types (nd : LockNode) (kl : LockLane) (D : Shared * KState → Shared * KState → Prop).

(** Between two steps a lane holds nothing; once it has begun one it has
    something to do. *)
Record lock_lane_ok kl : Prop := mkLockLaneOk {
  ll_lane : lane_ok fw (kl_lane kl);
  ll_between : kl_left kl = None → kl_holds kl = None;
  ll_begun : is_Some (kl_left kl) → ¬ finished (kl_lane kl) }.

Definition exclusive nd : Prop :=
  ∀ i j ki kj m, kn_lanes nd !! i = Some ki → kn_lanes nd !! j = Some kj →
    kl_holds ki = Some m → kl_holds kj = Some m → i = j.

Record lock_ok nd : Prop := mkLockOk {
  lo_shared : shared_ok fw (kn_shared nd);
  lo_lanes : Forall lock_lane_ok (kn_lanes nd);
  lo_exclusive : exclusive nd }.

Lemma lane_ok_net ln k : lane_ok fw ln → lane_ok fw (ln <| nl_net := k |>).
Proof. by intros []. Qed.

Lemma lane_next_unfinished s ln x : lane_next s ln = Some x → ¬ finished ln.
Proof. intros E [Hi Ht]. unfold lane_next in E. by rewrite Hi, Ht in E. Qed.

Lemma lock_lane_keeps D s fr kl s' kl' :
  (∀ x y, D x y → drift x y) → shared_ok fw s → lock_lane_ok kl → lock_lane D s fr kl s' kl' →
  shared_ok fw s' ∧ lock_lane_ok kl'.
Proof.
  intros HD Hs [Hl Hb Hn] Hstep. destruct Hstep as [kl ms Eh El Hf _|kl m ms Eh El _|kl m Eh|kl s1 k s' ev ln' Eh El Hd En].
  - split; [done|]. by split.
  - split; [done|]. split; [done..|]. intros _. apply Hn. by rewrite El.
  - split; [done|]. by split.
  - destruct (HD _ _ Hd) as [Ec Ea]. cbn in Ec, Ea.
    assert (Hs1 : shared_ok fw s1) by (destruct Hs; split; rewrite ?Ec, ?Ea; done).
    destruct (lane_next_ok fw s1 _ Hs1 (lane_ok_net _ k Hl) (lane_next_unfinished _ _ _ En)) as (s2 & ev2 & l2 & E2 & Hs2 & Hl2).
    rewrite En in E2. injection E2 as -> -> ->. split; [done|]. split; [done|done|]. by intros [].
Qed.

(** Only an acquisition makes a lane hold what it did not. *)
Lemma lock_lane_holds D s fr kl s' kl' m :
  lock_lane D s fr kl s' kl' → kl_holds kl' = Some m → kl_holds kl = Some m ∨ fr m.
Proof. destruct 1; cbn; intros Hm; try by left; congruence. right. congruence. Qed.

Lemma exclusive_step D nd nd' : exclusive nd → lock_step D nd nd' → exclusive nd'.
Proof.
  intros Hx (i & kl & s' & kl' & Ei & Hs & ->) a b ka kb m Ha Hb. cbn in Ha, Hb.
  assert (Hnew : ∀ j kj, j ≠ i → kn_lanes nd !! j = Some kj → kl_holds kl' = Some m → kl_holds kj = Some m → False).
  { intros j kj Hj Ej Hm Hmj. destruct (lock_lane_holds _ _ _ _ _ _ _ Hs Hm) as [Hold|Hf]; [by apply Hj, (Hx j i kj kl m)|].
    by apply (list.Forall_lookup_1 _ _ _ _ Hf Ej). }
  apply list_lookup_insert_Some in Ha as [(<- & <- & _)|[Hia Ha]]; apply list_lookup_insert_Some in Hb as [(<- & <- & _)|[Hib Hb]].
  - done.
  - intros Hm Hm'. by destruct (Hnew b kb).
  - intros Hm Hm'. by destruct (Hnew a ka).
  - by apply Hx.
Qed.

Lemma lock_ok_reachable D nd nd' :
  (∀ x y, D x y → drift x y) → lock_ok nd → rtc (lock_step D) nd nd' → lock_ok nd'.
Proof.
  intros HD Hn Hr. induction Hr as [|nd nd1 nd2 Hst _ IH]; [done|]. apply IH. clear IH. destruct Hn as [Hs Hl Hx].
  pose proof (exclusive_step D _ _ Hx Hst) as Hx'. destruct Hst as (i & kl & s' & kl' & Ei & Hk & ->).
  destruct (lock_lane_keeps D _ _ _ _ _ HD Hs (list.Forall_lookup_1 _ _ _ _ Hl Ei) Hk). split; [done| |done].
  by apply list.Forall_insert.
Qed.

Lemma lock_start_ok s0 lanes :
  shared_ok fw s0 → Forall (λ x, lane_ok fw x.2) lanes → lock_ok (lock_start s0 lanes).
Proof.
  intros Hs Hl. split; [done| |].
  - apply Forall_fmap. eapply list.Forall_impl; [exact Hl|]. intros x Hx. split; [done|done|]. by intros [].
  - intros i j ki kj m Hi. apply list_lookup_fmap_Some in Hi as (x & -> & _). done.
Qed.

(** A lane is done, can go on, or waits for one that can. *)
Lemma lock_progress nd i kl :
  lock_ok nd → kn_lanes nd !! i = Some kl →
  (finished (kl_lane kl) ∧ kl_left kl = None ∧ kl_holds kl = None) ∨ (∃ nd', lock_next drift i nd nd') ∨
  ∃ j nd', waits_for nd i j ∧ lock_next drift j nd nd'.
Proof.
  intros [Hs Hl Hx] Ei. destruct (list.Forall_lookup_1 _ _ _ _ Hl Ei) as [Hln Hb Hn].
  destruct (kl_holds kl) as [m|] eqn:Eh.
  { right; left. eexists _, kl, _, _. split; [done|]. split; [by eapply lock_release|done]. }
  destruct (kl_left kl) as [[|m ms]|] eqn:El.
  - right; left. destruct (lane_next_ok fw (kn_shared nd) _ Hs Hln (Hn (ex_intro _ _ eq_refl))) as (s' & ev & ln' & En & _).
    eexists _, kl, _, _. split; [done|]. split; [|done]. apply (lock_act _ _ _ kl (kn_shared nd) (nl_net (kl_lane kl)) s' ev ln'); try done.
  - destruct (decide (free m nd)) as [Hf|Hf].
    { right; left. eexists _, kl, _, _. split; [done|]. split; [by eapply lock_acquire|done]. }
    right; right. apply not_Forall_Exists in Hf; [|apply _]. apply list.Exists_exists in Hf as (kj & Hj & Hm).
    apply list_elem_of_lookup in Hj as [j Ej]. apply dec_stable in Hm.
    exists j. eexists. split; [by exists m, ms, kl, kj|]. exists kj. eexists _, _. split; [done|]. split; [by eapply lock_release|done].
  - destruct (decide (finished (kl_lane kl))) as [Hf|Hf]; [by left|]. right; left. eexists _, kl, _, _. split; [done|].
    split; [|done]. by eapply lock_begin; [..|apply all_sections_taken].
Qed.

(** *** Termination *)

Definition lock_lane_after kl' kl : Prop := ∃ D s fr s', lock_lane D s fr kl s' kl'.

Lemma begun_acc kl0 :
  (∀ kl, lane_after (kl_lane kl) (kl_lane kl0) → Acc lock_lane_after kl) →
  ∀ n kl ms, kl_lane kl = kl_lane kl0 → kl_left kl = Some ms →
    (2 * length ms + (if decide (kl_holds kl = None) then 0 else 1) = n)%nat → Acc lock_lane_after kl.
Proof.
  intros Ha n. induction n as [n IH] using lt_wf_ind. intros kl ms Ek El Hn. constructor.
  intros kl' (D & s & fr & s' & Hst).
  destruct Hst as [kl ls Eh El' _ _|kl m ls Eh El' _|kl m Eh|kl s1 k s' ev ln' Eh El' _ En]; [congruence|..].
  - rewrite El in El'. injection El' as ->. rewrite decide_True in Hn by done.
    eapply (IH (2 * length ls + 1)%nat); [cbn in Hn; lia|done|done|done].
  - rewrite decide_False in Hn by congruence. eapply (IH (2 * length ms + 0)%nat); [lia|done|done|done].
  - apply Ha. cbn. exists s1, k, s', ev. by rewrite <- Ek.
Qed.

Lemma lock_lane_after_acc kl : Acc lock_lane_after kl.
Proof.
  remember (kl_lane kl) as ln eqn:E. revert kl E. induction (lane_after_acc ln) as [ln _ IH]. intros kl ->.
  assert (Hb : ∀ kl1 ms, kl_lane kl1 = kl_lane kl → kl_left kl1 = Some ms → Acc lock_lane_after kl1).
  { intros kl1 ms E1 E2. eapply (begun_acc kl); [|done|done|reflexivity]. intros kl2 H2. by apply (IH _ H2). }
  assert (Hf : ∀ kl1, kl_lane kl1 = kl_lane kl → kl_holds kl1 = None → Acc lock_lane_after kl1).
  { intros kl1 E1 Eh1. destruct (kl_left kl1) as [ms|] eqn:El; [by eapply Hb|]. constructor. intros kl2 (D & s & fr & s' & Hst).
    destruct Hst as [kl1 ms _ _ _ _|kl1 m ms _ El' _|kl1 m Eh|kl1 s1 k s' ev ln' _ El' _ _]; try congruence. by eapply Hb. }
  destruct (kl_holds kl) as [m|] eqn:Eh; [|by apply Hf]. destruct (kl_left kl) as [ms|] eqn:El; [by eapply Hb|].
  constructor. intros kl2 (D & s & fr & s' & Hst).
  destruct Hst as [kl ms Eh' _ _ _|kl m' ms Eh' _ _|kl m' _|kl s1 k s' ev ln' Eh' _ _ _]; try congruence. by apply Hf.
Qed.

Lemma lock_terminates D nd : Acc (λ nd' nd, lock_step D nd nd') nd.
Proof.
  assert (H : Acc (list_after lock_lane_after) (kn_lanes nd)) by apply list_after_acc, list.Forall_true, lock_lane_after_acc.
  remember (kn_lanes nd) as l eqn:El. revert nd El. induction H as [l _ IH]. intros nd ->. constructor.
  intros nd' (i & kl & s' & kl' & Ei & Hk & ->). apply (IH (<[i := kl']> (kn_lanes nd))); [|done].
  exists i, kl, kl'. split; [done|]. split; [by exists D, (kn_shared nd), (λ m, free m nd), s'|done].
Qed.

(** Without the locks: when nothing drifts, the acts of the lanes are steps
    of the node without them. *)
Lemma lock_erases nd nd' log :
  rtc (lock_step eq) nd nd' →
  ∃ log', rtc node_step (mkNode (kn_shared nd) (kl_lane <$> kn_lanes nd) log)
                        (mkNode (kn_shared nd') (kl_lane <$> kn_lanes nd') log').
Proof.
  intros Hr. revert log. induction Hr as [nd|nd nd1 nd2 (i & kl & s' & kl' & Ei & Hk & ->) _ IH]; intros log; [eexists; constructor|].
  assert (Hi : (kl_lane <$> kn_lanes nd) !! i = Some (kl_lane kl)) by by rewrite list_lookup_fmap, Ei.
  destruct Hk as [kl ms _ _ _ _|kl m ms _ _ _|kl m _|kl s1 k s' ev ln' _ _ Hd En]; cbn in IH.
  all: rewrite list_fmap_insert in IH; cbn in IH.
  1-3: rewrite (list_insert_id _ _ _ Hi) in IH; apply IH.
  injection Hd as <- <-. destruct (IH (log ++ match ev with Some x => [(i, x)] | None => [] end)) as [log' Hr'].
  exists log'. eapply rtc_l; [|exact Hr']. exists i. unfold node_next. cbn [nd_lanes nd_shared]. rewrite Hi. cbn [mbind option_bind].
  replace ((kl_lane kl) <| nl_net := nl_net (kl_lane kl) |>) with (kl_lane kl) in En by by destruct (kl_lane kl).
  by rewrite En.
Qed.
End LockFacts.
