(* ===== verification/NodeFacts.v ===== *)
(** * Transactions on a node

    What becomes of transactions handed to the workers of a node: the
    accesses an operation makes for one, whatever other lanes do in between,
    and by induction on the steps of the node, the numbers and claims of all
    of them together. *)

From S2P Require Import Prelude Common Chains BatchWriter RetryTee Coal Egress EgressFacts RateLimit SubtreeRoot Machine Forwarder Beef Coalesce Dispatch ForwarderFacts Fragmentation Lane LaneFacts Delivery Worker Toy ToyLaws DispatchProps WorkerProps EndToEnd Interleave InterleaveFacts Node.

(** ** The numbers of a transaction

    A transaction that is neither fragmented nor coalesced reserves one
    number of its flow, or none when its claim is lost. *)

(** A transaction as a worker's socket takes it. *)
Record Tx := mkTx { tx_raw : bytes; tx_frame : Frame; tx_from : NetAddr }.

(** What became of a transaction: accepted under a number, or suppressed. *)
Abbreviation Outcome := (Tx * option Z)%type.

Section Plain.
Context {SC : ShardCommon} {SL : ShardLaws} {RT : GoRuntime}.
Implicit Types (fw : Settings) (raw : bytes) (e : Egress) (l : Local) (tr : Trace).

Record Reservation := mkReservation { rv_key : chainKey; rv_n : Z; rv_first : Z }.

Definition reservation (x : Atom * Answer) : option Reservation :=
  match x with (AtReserve k n, RSeq _ f) => Some (mkReservation k n f) | _ => None end.
Definition reservations (tr : Trace) : list Reservation := omap reservation tr.

Record ClaimCall := mkClaimCall { cl_store : StoreId; cl_prefix : string; cl_id : bytes; cl_won : bool }.

Definition claim_call (x : Atom * Answer) : option ClaimCall :=
  match x with (AtClaim st prefix id, RClaim won) => Some (mkClaimCall st prefix id won) | _ => None end.
Definition claims (tr : Trace) : list ClaimCall := omap claim_call tr.

Lemma reservations_app tr tr' : reservations (tr ++ tr') = reservations tr ++ reservations tr'.
Proof. apply omap_app. Qed.

Lemma claims_app tr tr' : claims (tr ++ tr') = claims tr ++ claims tr'.
Proof. apply omap_app. Qed.

#[export] Instance claims_proper : Proper ((≡ₚ) ==> (≡ₚ)) claims.
Proof. intros tr tr' E. unfold claims. by rewrite E. Qed.

#[export] Instance reservations_proper : Proper ((≡ₚ) ==> (≡ₚ)) reservations.
Proof. intros tr tr' E. unfold reservations. by rewrite E. Qed.

(** Accesses that neither reserve nor claim. *)
Definition quiet (tr : Trace) : Prop := reservations tr = [] ∧ claims tr = [].

Lemma quiet_app tr tr' : quiet tr → quiet tr' → quiet (tr ++ tr').
Proof. intros [Hr Hc] [Hr' Hc']. split; [by rewrite reservations_app, Hr|by rewrite claims_app, Hc]. Qed.

(** No resharding is under way. *)
Definition plain_rely fw (a : Atom) (r : Answer) : Prop :=
  answer_ok fw a r ∧ (a = AtBridging → r = RBridging None).

#[local] Abbreviation pwp fw := (cwp (plain_rely fw) (access_ok fw)).

Definition tx_flow fw (x : Tx) : chainKey :=
  mkChainKey (addrToIPv6 (tx_from x)) (tx_group fw (tx_frame x)) (f_subtree (tx_frame x)).

(** The datagram of a transaction under a number of its flow. *)
Definition numbered fw (x : Tx) (n : Z) : bytes :=
  let k := tx_flow fw x in
  splice 48 (be_put 8 n) (splice 40 (be_put 8 (seqhash_Hash (ck_ip k) (ck_grp k) (ck_sub k))) (tx_raw x)).

Record tx_plain fw (class : IngressClass) (x : Tx) : Prop := mkTxPlain {
  tp_plain : plain_tx fw class (tx_raw x) (tx_frame x);
  tp_unstamped : be_get (slice 48 56 (tx_raw x)) = 0;
  tp_size : Zlen (tx_raw x) ≠ RecvBufSize }.

Definition accepted (hist : list Outcome) : list (Tx * Z) := omap (λ h, pair h.1 <$> h.2) hist.

Definition reserved_as fw (y : Tx * Z) : Reservation := mkReservation (tx_flow fw y.1) 1 y.2.

(** The claim behind an outcome: none without a store, and then nothing is
    suppressed. *)
Definition claimed_as fw (h : Outcome) : list ClaimCall :=
  match s_txDedup fw with
  | Some st => [mkClaimCall st (s_txDedupPrefix fw) (f_txid (tx_frame h.1)) (bool_decide (is_Some h.2))]
  | None => []
  end.
Definition outcome_ok fw (h : Outcome) : Prop := s_txDedup fw = None → is_Some h.2.

(** The queues with the datagrams of accepted transactions. *)
Definition queue_accepted fw (targets : list string) (new : list (Tx * Z)) (qs : list (list Message)) : list (list Message) :=
  foldl (λ qs y, queue_all targets (group_addr fw (tx_group fw (tx_frame y.1))) [numbered fw y.1 y.2] qs) qs new.

(** What an operation leaves: the outcome of its transaction, if it has one,
    and the datagram of an accepted one on every interface. *)
Definition op_post fw (x : option Tx) e tr l : Prop :=
  ∃ e' new, lo_egr l = Some e' ∧ egr_ok fw e' ∧ e_coal e' = None ∧ e_targets e' = e_targets e ∧
    new.*1 = option_list x ∧ Forall (outcome_ok fw) new ∧
    reservations tr = reserved_as fw <$> accepted new ∧ claims tr = new ≫= claimed_as fw ∧
    e_msgs e' = queue_accepted fw (e_targets e) (accepted new) (e_msgs e).

(** The egress of a lane that does not coalesce. *)
Definition plain_egr fw e : Prop := egr_ok fw e ∧ e_coal e = None.

Lemma pwp_addrFor fw g l :
  0 ≤ g → pwp fw (prog (m := addrFor fw g) l) (λ tr r, quiet tr ∧ r = (group_addr fw g, l)).
Proof.
  intros Hg. split; [done|]. intros [] [Hr _]; try done. destruct cached; [|done].
  destruct (Hr Hg eq_refl) as (a' & -> & Ha). destruct a' as [a'|]; [|done]. split; [done|]. by rewrite (Ha a').
Qed.

Lemma pwp_need {A} fw (x : option A) a l :
  x = Some a → pwp fw (prog (m := need x) l) (λ tr r, tr = [] ∧ r = (a, l)).
Proof. by intros ->. Qed.

Lemma pwp_emit_tx fw raw txid g worker l e :
  0 ≤ g → egr_ok fw e → lo_egr l = Some e →
  pwp fw (prog (m := emit_tx fw raw txid g worker) l) (λ tr r,
    quiet tr ∧ lo_egr r.2 = Some (EnqueueData raw (group_addr fw g) g worker e)).
Proof.
  intros Hg Ho He. unfold emit_tx, steps_emit_tx. apply cwp_bind. cbn [prog steps_get_egr cwp snd fst]. rewrite He.
  apply cwp_bind. eapply cwp_mono; [by apply pwp_addrFor|]. intros tr1 r1 [Ht1 ->].
  apply cwp_bind. cbn [prog steps_queue steps_on_egress snd fst]. rewrite He, enqueue_fits_ok by done || apply Ho.
  cbn [cwp snd fst]. unfold emit_bridge, steps_emit_bridge.
  apply cwp_bind. split; [done|]. intros [] [Hr Hb]; try done. injection (Hb eq_refl) as ->.
  cbn. split; [|done]. by apply quiet_app.
Qed.

Lemma pwp_stamp fw raw ip g sub l :
  56 ≤ Zlen raw → be_get (slice 48 56 raw) = 0 →
  pwp fw (prog (m := stampInPlace fw raw ip g sub) l) (λ tr r, ∃ n,
    reservations tr = [mkReservation (mkChainKey ip g sub) 1 n] ∧ claims tr = [] ∧
    r = (splice 48 (be_put 8 n) (splice 40 (be_put 8 (seqhash_Hash ip g sub)) raw), l)).
Proof.
  intros Hl Hz. unfold stampInPlace, steps_stamp. destruct (Z.ltb_spec (Zlen raw) 56); [lia|].
  destruct (Z.eqb_spec (be_get (slice 48 56 raw)) 0); [|done].
  apply cwp_bind. split; [done|]. intros [] [Hr _]; try done. destruct Hr as [-> Hf]. cbn. eauto.
Qed.

Lemma pwp_route fw x worker l e class :
  tx_plain fw class x → s_coalesce fw = false → egr_ok fw e → lo_egr l = Some e →
  pwp fw (prog (m := route_tx fw (tx_raw x) (tx_frame x) (Some (tx_from x)) worker) l)
    (λ tr r, ∃ n, reservations tr = [reserved_as fw (x, n)] ∧ claims tr = [] ∧
       lo_egr r.2 = Some (EnqueueData (numbered fw x n) (group_addr fw (tx_group fw (tx_frame x)))
         (tx_group fw (tx_frame x)) worker e)).
Proof.
  intros [Hp Hz _] Hc Ho El. pose proof (Decode_len _ _ (pt_decode _ _ _ _ Hp) (pt_v2 _ _ _ _ Hp)) as Hl.
  unfold HeaderSize in Hl. unfold route_tx, steps_route_tx.
  destruct (Z.eqb_spec (f_version (tx_frame x)) FrameVerV2) as [_|Hn]; [|by destruct (Hn (pt_v2 _ _ _ _ Hp))].
  destruct (needs_frag fw (f_payload (tx_frame x))) eqn:En; [by rewrite (pt_whole _ _ _ _ Hp) in En|].
  apply cwp_bind. cbn [prog steps_coalescable]. rewrite Hc. cbn [andb cwp fst snd].
  apply cwp_bind. eapply cwp_mono; [apply pwp_stamp; [lia|done]|]. intros tr1 r1 (n & Ht1 & Hc1 & ->). cbn [fst snd].
  eapply cwp_mono; [by apply pwp_emit_tx; [apply GroupIndex_nonneg| |]|]. intros tr2 r2 [[Ht2 Hc2] E2].
  exists n. cbn [app]. rewrite reservations_app, claims_app, Ht1, Ht2, Hc1, Hc2. done.
Qed.

Lemma op_post_accepted fw x n e tr l worker :
  plain_egr fw e → reservations tr = [reserved_as fw (x, n)] → claims tr = claimed_as fw (x, Some n) →
  lo_egr l = Some (EnqueueData (numbered fw x n) (group_addr fw (tx_group fw (tx_frame x))) (tx_group fw (tx_frame x))
                     worker e) →
  op_post fw (Some x) e tr l.
Proof.
  intros [He Hc] Ht Hcl El. pose proof (GroupIndex_nonneg (s_engine fw) (f_txid (tx_frame x))) as Hg.
  eexists _, [(x, Some n)]. split; [exact El|].
  split; [by apply egr_ok_enqueue, dst_ok_data|]. do 3 (split; [done|]). split; [apply list.Forall_singleton; intros _; by eexists|].
  split; [done|]. split; [by rewrite Hcl; cbn; rewrite app_nil_r|].
  destruct (enqueue_spec (group_addr fw) (numbered fw x n) (group_addr fw (tx_group fw (tx_frame x)))
    (mkMeta (tx_group fw (tx_frame x)) (Zlen (numbered fw x n)) worker "" true) None e
    (eo_queues fw e He) (ForwarderFacts.eo_caches fw e He) (dst_ok_data fw _ _ worker Hg)) as [E _].
  exact E.
Qed.

Lemma op_post_suppressed fw x st e tr l :
  plain_egr fw e → reservations tr = [] → s_txDedup fw = Some st → claims tr = claimed_as fw (x, None) →
  lo_egr l = Some e → op_post fw (Some x) e tr l.
Proof.
  intros [He Hc] Ht Est Hcl El. exists e, [(x, None)]. do 5 (split; [done|]).
  split; [apply list.Forall_singleton; unfold outcome_ok; congruence|]. split; [done|]. by rewrite Hcl; cbn; rewrite app_nil_r.
Qed.

Lemma op_post_none fw e tr l : plain_egr fw e → quiet tr → lo_egr l = Some e → op_post fw None e tr l.
Proof. intros [He Hc] [Hr Hcl] El. exists e, []. by split_and!. Qed.

Lemma pwp_claim fw x ft iface worker l e :
  lo_egr l = Some e →
  pwp fw (prog (m := claimIngress fw (f_txid (tx_frame x)) ft iface worker) l) (λ tr r,
    reservations tr = [] ∧ lo_egr r.2 = Some e ∧
    if r.1 then ∀ n, claims tr = claimed_as fw (x, Some n)
    else ∃ st, s_txDedup fw = Some st ∧ claims tr = claimed_as fw (x, None)).
Proof.
  intros El. unfold claimed_as. cbn. destruct (s_txDedup fw) as [st|]; [|done]. split; [done|].
  intros [] [Hr _]; try done. destruct won; [done|]. cbn. destruct (s_rec fw); by eauto.
Qed.

Lemma pwp_process fw x worker l e class :
  tx_plain fw class x → s_coalesce fw = false → plain_egr fw e → lo_egr l = Some e →
  pwp fw (prog (m := process fw (tx_raw x) (Some (tx_from x)) worker (s_verifyPayloadHash fw)) l)
    (λ tr r, op_post fw (Some x) e tr r.2).
Proof.
  intros Hx Hc He El. destruct (tp_plain _ _ _ Hx) as [_ _ _ _ Hd Hv Hg _].
  unfold process, steps_process. destruct (Decode (tx_raw x)) as [f|]; [injection Hd as ->|done]. cbv zeta.
  destruct (gates_open fw (tx_frame x) _ Hv Hg) as (E1 & E2 & E3 & E4).
  do 4 (match goal with |- context [match ?b with true => steps_drop_as _ _ _ | false => _ end] =>
    destruct b; [done|] end). clear E1 E2 E3 E4.
  apply cwp_bind. cbn [prog steps_iface cwp fst snd]. apply cwp_bind.
  destruct (Z.eqb_spec (f_version (tx_frame x)) FrameVerV2) as [_|Hn]; [|done].
  eapply cwp_mono; [by apply pwp_claim|]. intros tr [[] l'] (Ht & El' & Hcl); cbn [fst snd] in *.
  - eapply cwp_mono; [by eapply pwp_route; [| |apply He|]|]. intros tr2 r2 (n & Hr & Hc2 & E2). cbn [app].
    eapply op_post_accepted; [done| | |exact E2]; [by rewrite reservations_app, Ht|].
    by rewrite claims_app, Hc2, app_nil_r.
  - destruct Hcl as (st & Est & Hcl). cbn. rewrite app_nil_r. by eapply op_post_suppressed.
Qed.

Lemma pwp_record fw ev l e :
  lo_egr l = Some e → pwp fw (prog (m := record fw ev) l) (λ tr r, tr = [] ∧ lo_egr r.2 = Some e).
Proof. intros El. cbn. by destruct (s_rec fw). Qed.

Lemma pwp_dispatch fw x worker class l e :
  tx_plain fw class x → s_coalesce fw = false → plain_egr fw e → lo_egr l = Some e →
  pwp fw (prog (m := DispatchClass fw (tx_raw x) (Some (tx_from x)) worker class) l)
    (λ tr r, op_post fw (Some x) e tr r.2).
Proof.
  intros Hx Hc He El. pose proof (tp_plain _ _ _ Hx) as Hp. pose proof (pt_class _ _ _ _ Hp) as Hcl.
  unfold DispatchClass, SubmitBEEF, rejectOnBEEFLane, rejectPrivileged, ProcessBEEF, Process, steps_DispatchClass.
  pose proof (plain_framed _ _ _ _ Hp) as Hf. cbv zeta.
  apply cwp_bind. eapply cwp_mono; [apply pwp_need, not_framed_some|]. intros ? ? [-> ->]. rewrite Hf. cbn [fst snd negb].
  do 5 (apply cwp_bind; eapply cwp_mono; [apply pwp_need; rewrite byte_is_some, (plain_version _ _ _ _ _ Hp) by done; done|];
    intros ? ? [-> ->]; cbn [fst snd]).
  destruct (bool_decide (class = IngressBEEF)) eqn:Eb; [by apply bool_decide_eq_true in Eb|].
  apply cwp_bind. eapply cwp_mono; [by apply pwp_record|]. intros ? [[] l'] [-> El']. cbn [fst snd].
  eapply cwp_mono; [by eapply pwp_process|]. done.
Qed.
End Plain.

(** ** The scripts of plain workers *)

Section Scripts.
Context {SC : ShardCommon} {SL : ShardLaws} {RT : GoRuntime}.
Context (fw : Settings).
Implicit Types (e : Egress) (l : Local) (tr : Trace).

#[local] Abbreviation pwp := (cwp (plain_rely fw) (access_ok fw)).

Definition tx_datagram (x : Tx) : Datagram := mkDatagram (Some (tx_from x)) (tx_raw x).

Lemma pwp_worker_note wk ev l e :
  lo_egr l = Some e → pwp (prog (m := worker_note wk ev) l) (λ tr r, tr = [] ∧ lo_egr r.2 = Some e).
Proof.
  intros El. unfold worker_note, steps_worker_note. apply cwp_bind. cbn [prog steps_get_egr cwp snd fst]. rewrite El.
  cbv beta zeta iota. destruct (e_targets e); [done|]. cbn. by destruct (wk_rec wk).
Qed.

Lemma pwp_worker_op wk x l e :
  tx_plain fw (wk_class wk) x → s_coalesce fw = false → plain_egr fw e → lo_egr l = Some e →
  pwp (prog (m := worker_op fw wk (tx_datagram x)) l) (λ tr r, op_post fw (Some x) e tr r.2).
Proof.
  intros Hx Hc He El. unfold worker_op, steps_worker_op. cbn [tx_datagram dg_data dg_src]. cbv zeta.
  destruct (Z.eqb_spec (Zlen (tx_raw x)) RecvBufSize) as [Hn|_]; [by destruct (tp_size _ _ _ Hx)|].
  apply cwp_bind. eapply cwp_mono; [by apply pwp_worker_note|]. intros ? [[] l'] [-> El']. cbn [fst snd].
  eapply cwp_mono; [by apply pwp_dispatch|]. done.
Qed.

Lemma pwp_flush worker l e :
  plain_egr fw e → lo_egr l = Some e →
  pwp (prog (m := FlushCoalesced fw worker) l) (λ tr r, op_post fw None e tr r.2).
Proof.
  intros He El. unfold FlushCoalesced, steps_FlushCoalesced. apply cwp_bind. cbn [prog steps_get_egr cwp snd fst].
  rewrite El. cbv beta zeta iota. pose proof (proj2 He) as Hc. destruct (e_coal e); [done|]. by apply op_post_none.
Qed.

(** A script and the transactions it hands to the pipeline. *)
Inductive plain_todo : list Cmd → list Tx → Prop :=
| td_nil : plain_todo [] []
| td_flush todo xs : plain_todo todo xs → plain_todo (CFlush :: todo) xs
| td_admit frames size todo xs : plain_todo todo xs → plain_todo (CAdmit frames size :: todo) xs
| td_run p x todo xs :
    (∀ l e, plain_egr fw e → lo_egr l = Some e → pwp (p l) (λ tr r, op_post fw x e tr r.2)) →
    plain_todo todo xs → plain_todo (CRun p :: todo) (option_list x ++ xs).

Lemma worker_todo wk bs :
  s_coalesce fw = false → Forall (Forall (tx_plain fw (wk_class wk))) bs →
  plain_todo (worker_cmds fw wk ((λ b, Received (tx_datagram <$> b)) <$> bs)) (concat bs).
Proof.
  intros Hc Hb. induction Hb as [|b bs Hb _ IH]; [constructor|]. cbn. unfold batch_cmds. rewrite <- !app_assoc.
  induction Hb as [|x b Hx _ IHb]; cbn.
  - apply (td_run _ None); [|by apply td_flush]. intros. by apply pwp_flush.
  - apply (td_run _ (Some x)); [|exact IHb]. intros. by apply pwp_worker_op.
Qed.

(** What the reader of a connection from [a] does, and the transactions among
    it. *)
Inductive plain_acts (a : NetAddr) : list Action → list Tx → Prop :=
| pa_nil : plain_acts a [] []
| pa_record ev acts xs : plain_acts a acts xs → plain_acts a (ARecord ev :: acts) xs
| pa_admit frames size acts xs : plain_acts a acts xs → plain_acts a (AAdmit frames size :: acts) xs
| pa_read deadline acts xs : plain_acts a acts xs → plain_acts a (ARead deadline :: acts) xs
| pa_flush acts xs : plain_acts a acts xs → plain_acts a (AFlush :: acts) xs
| pa_tx x class acts xs :
    tx_plain fw class x → tx_from x = a → plain_acts a acts xs →
    plain_acts a (ADispatch (tx_raw x) class :: acts) (x :: xs).

Lemma pwp_lane_event rec ev l e :
  plain_egr fw e → lo_egr l = Some e → pwp (prog (m := lane_event rec ev) l) (λ tr r, op_post fw None e tr r.2).
Proof. intros He El. cbn. apply op_post_none; [done|done|]. by destruct rec. Qed.

Lemma conn_todo rec hooks a name acts xs :
  s_coalesce fw = false → plain_acts a acts xs →
  plain_todo (acts ≫= action_cmds fw rec hooks (Some a) name (tcp_flush_cmds fw)) xs.
Proof.
  intros Hc Hp. induction Hp as [|ev acts xs _ IH|frames size acts xs _ IH|d acts xs _ IH|acts xs _ IH
    |x class acts xs Hx <- _ IH]; [constructor|..]; rewrite bind_cons; cbn [action_cmds app].
  - apply (td_run _ None); [|done]. intros. by apply pwp_lane_event.
  - induction (Z.to_nat hooks); cbn; [done|by apply td_admit].
  - done.
  - apply (td_run _ None); [|by apply td_flush]. intros. by apply pwp_flush.
  - apply (td_run _ (Some x)); [|done]. intros. by apply pwp_dispatch.
Qed.

(** The transactions a lane's script hands to the pipeline. *)
Inductive carries : Script → list Tx → Prop :=
| carries_worker wk bs :
    Forall (Forall (tx_plain fw (wk_class wk))) bs →
    carries (WorkerScript wk ((λ b, Received (tx_datagram <$> b)) <$> bs)) (concat bs)
| carries_conn rec hooks a name acts xs :
    plain_acts a acts xs → carries (ConnScript rec hooks (Some a) name acts) xs.

Lemma carries_todo sc xs : s_coalesce fw = false → carries sc xs → plain_todo (script_cmds fw sc) xs.
Proof. intros Hc [wk bs Hb|rec hooks a name acts xs' Hp]; cbn; [by apply worker_todo|by apply conn_todo]. Qed.
End Scripts.

(** ** What the counters hand out *)

Section Counters.
Context {SC : ShardCommon} {RT : GoRuntime}.
Implicit Types (k : chainKey) (rs : list Reservation).

(** From counter [c], the reservations [rs] are answered in this order and
    leave [c']. *)
Fixpoint handed (c : Z) rs (c' : Z) : Prop :=
  match rs with
  | [] => c' = c
  | r :: rs => rv_first r = u64 (c + 1) ∧ handed (u64 (c + rv_n r)) rs c'
  end.

Lemma handed_app c rs c1 rs' c' : handed c rs c1 → handed c1 rs' c' → handed c (rs ++ rs') c'.
Proof. revert c. induction rs as [|r rs IH]; intros c; cbn; [by intros ->|]. intros [E H1] H2. auto. Qed.

(** Single numbers come out one after the other, as long as they fit. *)
Lemma handed_ones c rs c' :
  handed c rs c' → 0 ≤ c → c + Zlen rs < 2 ^ 64 → Forall (λ r, rv_n r = 1) rs →
  rv_first <$> rs = seqZ (c + 1) (Zlen rs) ∧ c' = c + Zlen rs.
Proof.
  revert c. induction rs as [|r rs IH]; intros c Hh Hc Hb Hn; cbn in Hh.
  { split; [done|]. unfold Zlen. cbn. lia. }
  apply list.Forall_cons in Hn as [Hr Hn]. destruct Hh as [Hf Hh]. rewrite Zlen_cons in *.
  pose proof (Zlen_nonneg rs). rewrite Hr, u64_small in Hh by lia. destruct (IH _ Hh) as [E ->]; [lia|lia|done|].
  split; [|lia]. rewrite seqZ_cons by lia. cbn. rewrite Hf, E, u64_small by lia. f_equal. f_equal; lia.
Qed.

Definition of_flow k rs : list Reservation := filter (λ r, rv_key r = k) rs.

#[export] Instance of_flow_proper k : Proper ((≡ₚ) ==> (≡ₚ)) (of_flow k).
Proof. intros rs rs' E. unfold of_flow. by rewrite E. Qed.

Lemma of_flow_app k rs rs' : of_flow k (rs ++ rs') = of_flow k rs ++ of_flow k rs'.
Proof. apply list.filter_app. Qed.

(** The claims [cl], made in this order, take the stores from [env] to
    [env']. *)
Fixpoint env_run (env : Env) (cl : list ClaimCall) (env' : Env) : Prop :=
  match cl with
  | [] => env' = env
  | c :: cl =>
      let r := Claim (cl_store c) (cl_prefix c) (cl_id c) env in cl_won c = r.1.1 ∧ env_run r.2 cl env'
  end.

Lemma env_run_app env cl env1 cl' env' : env_run env cl env1 → env_run env1 cl' env' → env_run env (cl ++ cl') env'.
Proof. revert env. induction cl as [|c cl IH]; intros env; cbn; [by intros ->|]. intros [E H1] H2. auto. Qed.

Lemma exec_claims a s : env_run (sh_env s) (claims [(a, (exec a s).1)]) (sh_env (exec a s).2).
Proof. destruct a; try done. cbn. by destruct (sh_beefLimit s). Qed.

(** One access: the reservation it is, if any, is handed out. *)
Lemma exec_handed a s k :
  stripes_ok (sh_chains s) →
  handed (counter_of (sh_chains s) k) (of_flow k (reservations [(a, (exec a s).1)]))
    (counter_of (sh_chains (exec a s).2) k).
Proof.
  intros Hok. destruct a as [key n|st prefix id|idx|idx b| |src n]; try done.
  - cbn [exec fst snd]. unfold reservations, of_flow. cbn [omap list_omap reservation]. rewrite filter_cons, filter_nil.
    destruct key as [ip g sub]. cbn. rewrite reserveSeq_counter by done.
    destruct (decide (mkChainKey ip g sub = k)) as [<-|Hn].
    + rewrite (decide_True (P := mkChainKey ip g sub = mkChainKey ip g sub)) by done. cbn. rewrite reserveSeq_first. done.
    + by rewrite decide_False by congruence.
  - cbn. by destruct (sh_beefLimit s).
Qed.
End Counters.

(** ** Reservations of any node

    Whatever the lanes are doing, the reservations of a flow are handed out
    one after the other: no two share a number. *)

Section AnyNode.
Context {SC : ShardCommon} {RT : GoRuntime} {K : Kernel}.

Lemma lane_next_access s (ln : NodeLane) s' ev ln' :
  lane_next s ln = Some (s', ev, ln') →
  match ev with Some (a, r) => r = (exec a s).1 ∧ s' = (exec a s).2 | None => s' = s end.
Proof.
  unfold lane_next. destruct (nl_prog ln) as [[|r|a k]|]; [done|by intros [= <- <- <-]|by intros [= <- <- <-]|].
  destruct (nl_todo ln) as [|[p|frames size|] todo]; [done|by intros [= <- <- <-]..|].
  destruct (lo_egr (nl_local ln)) as [e|]; [|by intros [= <- <- <-]].
  destruct (Flush (nl_net ln) e) as [[[]]|]; [|done]. by intros [= <- <- <-].
Qed.

Lemma exec_stripes a s : stripes_ok (sh_chains s) → stripes_ok (sh_chains (exec a s).2).
Proof. intros Hs. destruct a; try done; cbn; [by apply reserveSeq_ok|by destruct (sh_beefLimit s)]. Qed.

Lemma node_reservations (nd nd' : Node) :
  rtc node_step nd nd' → stripes_ok (sh_chains (nd_shared nd)) →
  ∃ log, nd_log nd' = nd_log nd ++ log ∧
    ∀ k, handed (counter_of (sh_chains (nd_shared nd)) k) (of_flow k (reservations log.*2))
           (counter_of (sh_chains (nd_shared nd')) k).
Proof.
  induction 1 as [nd|nd nd1 nd2 [i E] _ IH]; intros Hok; [exists []; by rewrite app_nil_r|].
  unfold node_next in E. destruct (nd_lanes nd !! i) as [ln|]; [|done]. cbn in E.
  destruct (lane_next (nd_shared nd) ln) as [[[s ev] ln']|] eqn:En; [|done]. injection E as <-.
  apply lane_next_access in En. destruct ev as [[a r]|]; [destruct En as [-> ->]|subst s]; cbn [nd_shared nd_log] in IH.
  - destruct (IH (exec_stripes a _ Hok)) as (log & El & Hh). eexists. split; [by rewrite El, <- app_assoc|].
    intros k. rewrite fmap_app, reservations_app, of_flow_app. eapply handed_app; [by apply exec_handed|apply Hh].
  - rewrite app_nil_r in IH. by apply IH.
Qed.
End AnyNode.

(** ** The invariant of a lane of transactions *)

Section PlainLane.
Context {SC : ShardCommon} {SL : ShardLaws} {RT : GoRuntime} (K : Kernel).
Context (fw : Settings).
Implicit Types (e : Egress) (tr pend : Trace) (hist : list Outcome) (ln : NodeLane (K := logged K)).

#[local] Abbreviation pwp := (cwp (plain_rely fw) (access_ok fw)).

(** What a lane has put on an interface: written, or queued for it. *)
Definition lane_out (j : nat) ln : list Message :=
  wire j (nl_net ln).2 ++ match lo_egr (nl_local ln) with Some e => default [] (e_msgs e !! j) | None => [] end.

(** The datagram of an accepted transaction. *)
Definition sent_as (t : string) (y : Tx * Z) : Message :=
  mkMessage (numbered fw y.1 y.2) (with_zone (group_addr fw (tx_group fw (tx_frame y.1))) t).

(** [xs] are the transactions of the lane's script, [tr] its accesses, [hist]
    the outcomes so far; in between, the running operation has made the
    accesses [pend] for the transaction [cur], and [rest] are to come. *)
Record lane_inv (targets : list string) (xs : list Tx) ln tr hist : Prop := mkLaneInv {
  li_egr : ∃ e pend cur rest,
    lo_egr (nl_local ln) = Some e ∧ plain_egr fw e ∧ e_targets e = targets ∧
    xs = hist.*1 ++ option_list cur ++ rest ∧
    reservations tr = (reserved_as fw <$> accepted hist) ++ reservations pend ∧
    claims tr = (hist ≫= claimed_as fw) ++ claims pend ∧
    match nl_prog ln with
    | None => cur = None ∧ pend = []
    | Some p => pwp p (λ tr' r, op_post fw cur e (pend ++ tr') r.2)
    end ∧
    plain_todo fw (nl_todo ln) rest;
  li_outcomes : Forall (outcome_ok fw) hist;
  li_out : ∀ j t, targets !! j = Some t → lane_out j ln = sent_as t <$> accepted hist }.

Lemma lane_inv_start targets xs l (net : @KState (logged K)) todo e :
  lo_egr l = Some e → plain_egr fw e → drained e → e_targets e = targets → net.2 = [] → plain_todo fw todo xs →
  lane_inv targets xs (mkNodeLane l net [] None todo) [] [].
Proof.
  intros El He Hd Ht Hn Hp. split; [|done|].
  - exists e, [], None, xs. cbn. by split_and!.
  - intros j t _. unfold lane_out. cbn. rewrite Hn, El. cbn. destruct (e_msgs e !! j) as [q|] eqn:E; [|done].
    cbn. by apply (list.Forall_lookup_1 _ _ _ _ (dr_msgs e Hd) E).
Qed.

(** What a finished operation added to an interface's queue. *)
Lemma queue_accepted_lookup targets new qs j t :
  length qs = length targets → targets !! j = Some t →
  default [] (queue_accepted fw targets new qs !! j) = default [] (qs !! j) ++ (sent_as t <$> new).
Proof.
  intros Hl Ej. revert qs Hl. induction new as [|y new IH]; intros qs Hl; [cbn; by rewrite app_nil_r|].
  set (qs' := queue_all targets (group_addr fw (tx_group fw (tx_frame y.1))) [numbered fw y.1 y.2] qs). assert (Hl' : length qs' = length targets).
  { unfold qs', queue_all. rewrite length_zip_with. lia. }
  etransitivity; [exact (IH qs' Hl')|]. unfold qs', queue_all.
  destruct (lookup_lt_is_Some_2 qs j) as [q Eq]; [rewrite Hl; by eapply lookup_lt_Some|].
  rewrite lookup_zip_with, Ej. cbn. rewrite Eq. cbn. by rewrite <- app_assoc.
Qed.

(** Flushing over sockets that accept moves the queue to the wire. *)
Lemma flush_out (net k : @KState (logged K)) e e' evs :
  lossless K → plain_egr fw e → Flush net e = Some ((e', evs), k) →
  plain_egr fw e' ∧ e_targets e' = e_targets e ∧
  ∀ j t, e_targets e !! j = Some t →
    wire j k.2 ++ default [] (e_msgs e' !! j) = wire j net.2 ++ default [] (e_msgs e !! j).
Proof.
  intros HK [He Hc] E. pose proof (egr_ok_flush fw e He) as He'. unfold Flush, FlushInline in E.
  rewrite (eo_inline fw e He) in E. injection E as <- <- <-. split; [by split|]. split; [done|]. intros j t Ej.
  pose proof (eo_targets _ (eo_queues _ _ He)) as Hlen.
  destruct (flushTargets_wrote K (e_reliable e) (e_rec e) 0 net (e_targets e) (e_msgs e) (e_meta e) Hlen j)
    as (l & E & _ & Hl). cbv zeta in Hl. rewrite decide_True, Nat.sub_0_r in Hl by lia.
  etransitivity; [|rewrite <- (Hl HK); exact E]. cbn [flush_reset fst e_msgs].
  rewrite list_lookup_fmap. destruct (e_msgs e !! j); cbn; by rewrite app_nil_r.
Qed.

Lemma accepted_app hist hist' : accepted (hist ++ hist') = accepted hist ++ accepted hist'.
Proof. apply omap_app. Qed.

Lemma lane_inv_next targets xs s ln s' ev ln' tr hist :
  lossless K → shared_ok fw s → sh_bridging s = None → lane_inv targets xs ln tr hist →
  lane_next s ln = Some (s', ev, ln') → ∃ hist', lane_inv targets xs ln' (tr ++ option_list ev) hist'.
Proof.
  intros HK Hs Hb [(e & pend & cur & rest & El & He & Ht & Hxs & Hr & Hcl & Hp & Htd) Hok Hout] E.
  unfold lane_next in E. destruct (nl_prog ln) as [[|r|a k]|] eqn:Ep; [done|..].
  - injection E as <- <- <-. cbn [option_list]. rewrite app_nil_r. cbn in Hp. rewrite app_nil_r in Hp.
    pose proof (eo_targets _ (eo_queues _ _ (proj1 He))) as Hlen. subst targets.
    destruct Hp as (e' & new & El' & He' & Hc' & Ht' & Hnew & Hok' & Hres & Hcl' & Hq). exists (hist ++ new). split.
    + exists e', [], None, rest. cbn. split; [done|]. split; [by split|]. split; [done|].
      split; [by rewrite fmap_app, Hnew, <- app_assoc|].
      split; [by rewrite Hr, Hres, accepted_app, fmap_app, app_nil_r|].
      split; [by rewrite Hcl, Hcl', bind_app, app_nil_r|done].
    + by apply list.Forall_app.
    + intros j t Ej. rewrite accepted_app, fmap_app, <- (Hout j t Ej). unfold lane_out. cbn. rewrite El', El, Hq.
      by rewrite (queue_accepted_lookup _ _ _ j t Hlen Ej), app_assoc.
  - injection E as <- <- <-. destruct Hp as [Ha Hk]. destruct (exec_ok fw a s Hs Ha) as [Hans _].
    exists hist. split; [|done|done]. exists e, (pend ++ [(a, (exec a s).1)]), cur, rest. cbn.
    do 4 (split; [done|]). split; [by rewrite !reservations_app, Hr, app_assoc|].
    split; [by rewrite !claims_app, Hcl, app_assoc|]. split; [|done].
    eapply cwp_mono; [apply Hk|]; [|intros tr' r Ho; by rewrite <- app_assoc].
    split; [done|]. intros ->. cbn. by rewrite Hb.
  - destruct Hp as [-> ->]. cbn in Hr, Hcl. rewrite app_nil_r in Hr, Hcl.
    destruct (nl_todo ln) as [|c todo]; [done|]. inversion Htd as [|? ? Htd'|frames size ? ? Htd'|p x ? xs' Hp Htd']; subst.
    + rewrite El in E. destruct (Flush (nl_net ln) e) as [[[e' evs] k]|] eqn:Ef; [|done]. injection E as <- <- <-.
      destruct (flush_out _ _ _ _ _ HK He Ef) as (He' & Ht' & Hj). exists hist. cbn [option_list]. rewrite app_nil_r.
      split; [|done|].
      * exists e', [], None, rest. cbn. rewrite Ep. do 4 (split; [done|]). by rewrite !app_nil_r.
      * intros j t Ej. rewrite <- (Hout j t Ej). unfold lane_out. cbn. rewrite El. by rewrite (Hj j t Ej).
    + injection E as <- <- <-. exists hist. cbn [option_list]. rewrite app_nil_r. split; [|done|done].
      exists e, [], None, rest. cbn. rewrite Ep, !app_nil_r. by do 6 (split; [done|]).
    + injection E as <- <- <-. exists hist. cbn [option_list]. rewrite app_nil_r. split; [|done|done].
      exists e, [], x, xs'. cbn. do 4 (split; [done|]). rewrite !app_nil_r. do 2 (split; [done|]). split; [|done].
      by apply Hp.
Qed.
End PlainLane.

(** ** The node *)

Lemma omap_sublist {A B} (f : A → option B) l l' : l `sublist_of` l' → omap f l `sublist_of` omap f l'.
Proof. induction 1 as [|x l l' _ IH|x l l' _ IH]; cbn; [constructor|..]; destruct (f x); by repeat constructor. Qed.

Lemma filter_sublist {A} (P : A → Prop) `{!∀ x, Decision (P x)} l l' :
  l `sublist_of` l' → filter P l `sublist_of` filter P l'.
Proof. induction 1 as [|x l l' _ IH|x l l' _ IH]; rewrite ?filter_cons; [constructor|..]; destruct (decide _); by repeat constructor. Qed.

Lemma fmap_concat {A B} (f : A → B) (l : list (list A)) : f <$> concat l = concat ((λ x : list A, f <$> x) <$> l).
Proof. induction l as [|x l IH]; [done|]. cbn. by rewrite fmap_app, IH. Qed.

(** A list split by an index below [n] is there, up to order. *)
Lemma split_Permutation {A} (n : nat) (log : list (nat * A)) :
  Forall (λ x, (x.1 < n)%nat) log →
  (seq 0 n ≫= λ i, (filter (λ x, x.1 = i) log).*2) ≡ₚ log.*2.
Proof.
  induction 1 as [|[i0 y] log Hi _ IH].
  { clear. induction (seq 0 n) as [|i l IH]; [done|]. by rewrite bind_cons, IH. }
  cbn [fst] in Hi. cbn [fmap list_fmap snd]. rewrite <- IH. clear IH.
  assert (Hin : i0 ∈ seq 0 n) by (apply elem_of_seq; lia). apply list_elem_of_split in Hin as (l1 & l2 & E).
  pose proof (NoDup_seq 0 n) as Hnd. rewrite E in Hnd |- *.
  apply list.NoDup_app in Hnd as (_ & Hn1 & Hnd). apply list.NoDup_cons in Hnd as [Hn2 _].
  assert (Hoff : ∀ l, i0 ∉ l → (l ≫= λ i, (filter (λ x, x.1 = i) ((i0, y) :: log)).*2) =
    (l ≫= λ i, (filter (λ x, x.1 = i) log).*2)).
  { induction l as [|i l IHl]; intros Hl; [done|]. rewrite !bind_cons. apply not_elem_of_cons in Hl as [Hne Hl].
    rewrite filter_cons_False by (cbn; congruence). by rewrite IHl. }
  rewrite !bind_app, !bind_cons, !Hoff by (done || intros Hin; apply (Hn1 i0 Hin); left).
  rewrite filter_cons_True by done. cbn. symmetry. apply Permutation_middle.
Qed.

Section PlainNode.
Context {SC : ShardCommon} {SL : ShardLaws} {RT : GoRuntime} (K : Kernel).
Context (fw : Settings).
Implicit Types (nd : Node (K := logged K)) (k : chainKey) (acc : list (Tx * Z)) (hist : list Outcome).

(** A lane as it starts, and the transactions it will be given. *)
Record PlainLane := mkPlainLane {
  pl_egr : Egress; pl_net : @KState K; pl_script : Script; pl_txs : list Tx }.

Definition plain_start (x : PlainLane) : NodeLane (K := logged K) :=
  start_lane fw (pl_egr x, (pl_net x, []) : @KState (logged K), pl_script x).

Record plain_lane (x : PlainLane) : Prop := mkPlainLaneOk {
  pl_plain : plain_egr fw (pl_egr x);
  pl_drained : drained (pl_egr x);
  pl_carries : carries fw (pl_script x) (pl_txs x) }.

Definition lane_log (i : nat) nd : Trace := (filter (λ x, x.1 = i) (nd_log nd)).*2.

(** The numbers of a flow among accepted transactions. *)
Definition numbers k acc : list Z := (filter (λ y, tx_flow fw y.1 = k) acc).*2.

Record node_inv (s0 : Shared) (ws : list PlainLane) nd (hists : list (list Outcome)) : Prop := mkNodeInv {
  ni_shared : shared_ok fw (nd_shared nd);
  ni_bridging : sh_bridging (nd_shared nd) = None;
  ni_len : length (nd_lanes nd) = length ws ∧ length hists = length ws;
  ni_lanes : ∀ i w ln hist, ws !! i = Some w → nd_lanes nd !! i = Some ln → hists !! i = Some hist →
    lane_inv K fw (e_targets (pl_egr w)) (pl_txs w) ln (lane_log i nd) hist;
  ni_index : Forall (λ x, (x.1 < length ws)%nat) (nd_log nd);
  ni_handed : ∀ k, handed (counter_of (sh_chains s0) k) (of_flow k (reservations (nd_log nd).*2))
    (counter_of (sh_chains (nd_shared nd)) k);
  ni_claims : env_run (sh_env s0) (claims (nd_log nd).*2) (sh_env (nd_shared nd)) }.

Lemma node_inv_start s0 ws :
  s_coalesce fw = false → shared_ok fw s0 → sh_bridging s0 = None → Forall plain_lane ws →
  node_inv s0 ws (mkNode s0 (plain_start <$> ws) []) (replicate (length ws) []).
Proof.
  intros Hc Hs Hb Hw. split; cbn; try done; [by rewrite length_fmap, length_replicate|].
  intros i w ln hist Ew Eln Eh. rewrite list_lookup_fmap, Ew in Eln. injection Eln as <-.
  apply lookup_replicate in Eh as [-> _]. rewrite list.Forall_lookup in Hw. destruct (Hw i w Ew) as [He Hd Hca].
  eapply lane_inv_start; [reflexivity|done|done|done|done|]. by apply carries_todo.
Qed.

(** What a step of a lane does to the shared state. *)
Lemma lane_next_shared targets xs s ln s' ev ln' tr hist :
  shared_ok fw s → lane_inv K fw targets xs ln tr hist → lane_next s ln = Some (s', ev, ln') →
  shared_ok fw s' ∧ sh_bridging s' = sh_bridging s ∧ env_run (sh_env s) (claims (option_list ev)) (sh_env s') ∧
  ∀ k, handed (counter_of (sh_chains s) k) (of_flow k (reservations (option_list ev))) (counter_of (sh_chains s') k).
Proof.
  intros Hs [(e & pend & cur & rest & El & _ & _ & _ & _ & _ & Hp & _) _ _] E. unfold lane_next in E.
  destruct (nl_prog ln) as [[|r|a k]|]; [done|by injection E as <- <- <-| |].
  - injection E as <- <- <-. destruct Hp as [Ha _]. split; [by apply exec_ok|].
    split; [destruct a; try done; cbn; by destruct (sh_beefLimit s)|]. split; [apply exec_claims|].
    intros key. apply exec_handed, Hs.
  - destruct (nl_todo ln) as [|[p|frames size|] todo]; [done|by injection E as <- <- <-..|].
    rewrite El in E. destruct (Flush (nl_net ln) e) as [[[]]|]; [|done]. by injection E as <- <- <-.
Qed.

Lemma lane_log_snoc i j ev nd s lanes :
  lane_log i (mkNode s lanes (nd_log nd ++ match ev with Some x => [(j, x)] | None => [] end)) =
  lane_log i nd ++ (if decide (i = j) then option_list ev else []).
Proof.
  unfold lane_log. cbn. rewrite list.filter_app, fmap_app. f_equal.
  destruct ev as [x|]; [|by destruct (decide _)]. rewrite filter_cons, filter_nil. cbn.
  by destruct (decide (j = i)), (decide (i = j)); subst.
Qed.

Lemma node_inv_step s0 ws nd nd' hists :
  lossless K → node_inv s0 ws nd hists → node_step nd nd' → ∃ hists', node_inv s0 ws nd' hists'.
Proof.
  intros HK [Hs Hb [Hl1 Hl2] Hln Hidx Hh Hcl] [i E]. unfold node_next in E.
  destruct (nd_lanes nd !! i) as [ln|] eqn:El; [|done]. cbn in E.
  destruct (lane_next (nd_shared nd) ln) as [[[s ev] ln']|] eqn:En; [|done]. injection E as <-.
  pose proof (lookup_lt_Some _ _ _ El) as Hi. rewrite Hl1 in Hi.
  destruct (lookup_lt_is_Some_2 ws i Hi) as [w Ew]. destruct (lookup_lt_is_Some_2 hists i) as [hist Ea]; [lia|].
  pose proof (Hln i w ln hist Ew El Ea) as Hi0.
  destruct (lane_inv_next K fw _ _ _ _ _ _ _ _ _ HK Hs Hb Hi0 En) as [hist' Hi'].
  destruct (lane_next_shared _ _ _ _ _ _ _ _ _ Hs Hi0 En) as (Hs' & Hb' & Hc' & Hk).
  assert (Eev : (match ev with Some x => [(i, x)] | None => [] end).*2 = option_list ev) by by destruct ev.
  exists (<[i := hist']> hists). split; [done|cbn; congruence|by cbn; rewrite !length_insert| | | |].
  - cbn [nd_lanes]. intros j w' ln2 hist2 Ew2 El2 Ea2. rewrite lane_log_snoc. destruct (decide (j = i)) as [->|Hj].
    + apply list_lookup_insert_Some in El2 as [(_ & <- & _)|[]]; [|done].
      apply list_lookup_insert_Some in Ea2 as [(_ & <- & _)|[]]; [|done]. by simplify_eq.
    + apply list_lookup_insert_Some in El2 as [(? & _)|[_ El2]]; [done|].
      apply list_lookup_insert_Some in Ea2 as [(? & _)|[_ Ea2]]; [done|]. rewrite app_nil_r. by eapply Hln.
  - apply list.Forall_app. split; [done|]. destruct ev; by repeat constructor.
  - cbn [nd_log nd_shared]. intros k. rewrite fmap_app, Eev, reservations_app, of_flow_app. by eapply handed_app.
  - cbn [nd_log nd_shared]. rewrite fmap_app, Eev, claims_app. by eapply env_run_app.
Qed.

Lemma node_inv_reachable s0 ws nd nd' hists :
  lossless K → node_inv s0 ws nd hists → rtc node_step nd nd' → ∃ hists', node_inv s0 ws nd' hists'.
Proof.
  intros HK Hn Hr. revert hists Hn. induction Hr as [nd|nd nd1 nd2 Hs _ IH]; intros hists Hn; [by exists hists|].
  destruct (node_inv_step _ _ _ _ _ HK Hn Hs) as [hists1 H1]. by apply (IH hists1).
Qed.

(** Between operations, a lane's accesses are those of its outcomes. *)
Lemma idle_accesses targets xs ln tr hist :
  lane_inv K fw targets xs ln tr hist → idle ln →
  reservations tr = reserved_as fw <$> accepted hist ∧ claims tr = hist ≫= claimed_as fw ∧
  hist.*1 `prefix_of` xs ∧ (nl_todo ln = [] → hist.*1 = xs).
Proof.
  intros [(e & pend & cur & rest & _ & _ & _ & -> & Hr & Hc & Hp & Ht) _ _] Hi. unfold idle in Hi. rewrite Hi in Hp.
  destruct Hp as [-> ->]. cbn in Hr, Hc |- *. rewrite app_nil_r in Hr, Hc. split_and!; [done|done|by eexists|].
  intros E. rewrite E in Ht. inversion Ht. by rewrite app_nil_r.
Qed.

(** The accesses of one kind, lane by lane, are those of the log. *)
Lemma accesses_all {B} (f : Atom * Answer → option B) (g : list Outcome → list B) s0 ws nd hists :
  node_inv s0 ws nd hists →
  (∀ i w ln hist, ws !! i = Some w → nd_lanes nd !! i = Some ln → hists !! i = Some hist →
     omap f (lane_log i nd) = g hist) →
  concat (g <$> hists) ≡ₚ omap f (nd_log nd).*2.
Proof.
  intros [_ _ [Hl1 Hl2] _ Hidx _ _] Hg.
  assert (E : g <$> hists = (λ i, omap f (lane_log i nd)) <$> seq 0 (length ws)).
  { apply list_eq. intros i. rewrite !list_lookup_fmap. destruct (hists !! i) as [hist|] eqn:Ea.
    - pose proof (lookup_lt_Some _ _ _ Ea) as Hlt. rewrite lookup_seq_lt by lia. cbn. f_equal.
      destruct (lookup_lt_is_Some_2 ws i) as [w Ew]; [lia|]. destruct (lookup_lt_is_Some_2 (nd_lanes nd) i) as [ln Eln]; [lia|].
      symmetry. by eapply Hg.
    - apply lookup_ge_None in Ea. by rewrite lookup_seq_ge by lia. }
  rewrite E, <- (split_Permutation _ _ Hidx). clear.
  unfold lane_log. induction (seq 0 (length ws)) as [|i l IH]; [done|].
  rewrite bind_cons, omap_app, <- IH. done.
Qed.

Lemma numbers_of_flow k acc : numbers k acc = rv_first <$> of_flow k (reserved_as fw <$> acc).
Proof.
  unfold numbers, of_flow. induction acc as [|y acc IH]; [done|]. cbn [fmap list_fmap]. rewrite !filter_cons.
  cbn [reserved_as rv_key]. destruct (decide _); cbn; by rewrite IH.
Qed.

Lemma reservations_all s0 ws nd hists :
  node_inv s0 ws nd hists → Forall idle (nd_lanes nd) →
  reserved_as fw <$> accepted (concat hists) ≡ₚ reservations (nd_log nd).*2.
Proof.
  intros Hn Hi. rewrite list.Forall_lookup in Hi.
  rewrite <- (accesses_all reservation (λ hist, reserved_as fw <$> accepted hist) s0 ws nd hists Hn).
  - clear. induction hists as [|h hists IH]; [done|]. cbn. rewrite <- IH. unfold accepted. by rewrite omap_app, fmap_app.
  - intros i w ln hist Ew El Ea. by apply (idle_accesses _ _ _ _ _ (ni_lanes _ _ _ _ Hn i w ln hist Ew El Ea)), (Hi i).
Qed.

Lemma claims_all s0 ws nd hists :
  node_inv s0 ws nd hists → Forall idle (nd_lanes nd) →
  concat hists ≫= claimed_as fw ≡ₚ claims (nd_log nd).*2.
Proof.
  intros Hn Hi. rewrite list.Forall_lookup in Hi.
  rewrite <- (accesses_all claim_call (λ hist, hist ≫= claimed_as fw) s0 ws nd hists Hn).
  - clear. induction hists as [|h hists IH]; [done|]. cbn. by rewrite <- IH, bind_app.
  - intros i w ln hist Ew El Ea. by apply (idle_accesses _ _ _ _ _ (ni_lanes _ _ _ _ Hn i w ln hist Ew El Ea)), (Hi i).
Qed.

(** The numbers of a flow, over all lanes, are the next ones of its counter. *)
Lemma node_numbers s0 ws nd hists k :
  node_inv s0 ws nd hists → Forall idle (nd_lanes nd) → stripes_ok (sh_chains s0) →
  let given := numbers k (accepted (concat hists)) in
  let c := counter_of (sh_chains s0) k in
  c + Zlen given < 2 ^ 64 →
  given ≡ₚ seqZ (c + 1) (Zlen given) ∧ counter_of (sh_chains (nd_shared nd)) k = c + Zlen given ∧
  Forall (λ hist, numbers k (accepted hist) `sublist_of` seqZ (c + 1) (Zlen given)) hists.
Proof.
  intros Hn Hi Hok given c Hb. pose proof (reservations_all _ _ _ _ Hn Hi) as Hp.
  assert (Hpk : of_flow k (reserved_as fw <$> accepted (concat hists)) ≡ₚ of_flow k (reservations (nd_log nd).*2))
    by by rewrite Hp.
  assert (Hlen : Zlen given = Zlen (of_flow k (reservations (nd_log nd).*2))).
  { unfold given, Zlen. by rewrite numbers_of_flow, length_fmap, Hpk. }
  destruct (handed_ones c _ _ (ni_handed _ _ _ _ Hn k)) as [Es Ec]; [apply Hok|lia| |].
  { rewrite <- Hpk. apply list.Forall_forall. intros r [_ Hr]%list_elem_of_filter.
    by apply list_elem_of_fmap in Hr as (y & -> & _). }
  rewrite <- Hlen in Es, Ec. split_and!; [|done|].
  - rewrite <- Es. unfold given. rewrite numbers_of_flow. by rewrite Hpk.
  - rewrite list.Forall_lookup. intros i hist Ea. rewrite <- Es, numbers_of_flow.
    pose proof (ni_len _ _ _ _ Hn) as [Hl1 Hl2]. pose proof (lookup_lt_Some _ _ _ Ea).
    destruct (lookup_lt_is_Some_2 ws i) as [w Ew]; [lia|]. destruct (lookup_lt_is_Some_2 (nd_lanes nd) i) as [ln Eln]; [lia|].
    rewrite list.Forall_lookup in Hi.
    destruct (idle_accesses _ _ _ _ _ (ni_lanes _ _ _ _ Hn i w ln hist Ew Eln Ea) (Hi i ln Eln)) as [<- _].
    apply fmap_sublist. unfold of_flow. apply filter_sublist, omap_sublist, fmap_sublist, sublist_filter.
Qed.
End PlainNode.

(** ** Claims *)

(** A dedup store that neither forgets nor fails, as its interface documents
    it (forwarder.go: TxidDedup): a claim is won unless the identifier is
    held, and is held from then on. *)
Class StoreLaws `{ShardCommon} := {
  held : StoreId → string → bytes → Env → bool;
  Claim_won st p id env : (Claim st p id env).1.1 = negb (held st p id env);
  Claim_holds st p id env id' : held st p id' (Claim st p id env).2 = bool_decide (id' = id) || held st p id' env }.

Definition tx_id (x : Tx) : bytes := f_txid (tx_frame x).

Section Claims.
Context {SC : ShardCommon} {SL : ShardLaws} {ST : StoreLaws} {RT : GoRuntime}.
Implicit Types (cl : list ClaimCall) (hist : list Outcome).

Definition won (cl : list ClaimCall) : list bytes := cl_id <$> filter (λ c, cl_won c = true) cl.

Lemma won_cons c cl : won (c :: cl) = if cl_won c then cl_id c :: won cl else won cl.
Proof. unfold won. rewrite filter_cons. by destruct (cl_won c). Qed.

(** Of claims made one after the other, each identifier not held before is
    won once. *)
Lemma env_run_won st p env cl env' :
  env_run env cl env' → Forall (λ c, cl_store c = st ∧ cl_prefix c = p) cl →
  NoDup (won cl) ∧ ∀ id, id ∈ won cl ↔ id ∈ cl_id <$> cl ∧ held st p id env = false.
Proof.
  revert env. induction cl as [|c cl IH]; intros env Hr Hf.
  { split; [constructor|]. intros id. split; [intros H%elem_of_nil|intros [H%elem_of_nil _]]; done. }
  apply list.Forall_cons in Hf as [[<- <-] Hf]. destruct Hr as [Hw Hr]. rewrite Claim_won in Hw.
  destruct (IH _ Hr Hf) as [Hnd Hin]. rewrite won_cons. setoid_rewrite Claim_holds in Hin.
  destruct (held (cl_store c) (cl_prefix c) (cl_id c) env) eqn:Eh; rewrite Hw; cbn.
  - split; [done|]. intros id. rewrite Hin, elem_of_cons, orb_false_iff, bool_decide_eq_false.
    clear -Eh. intuition congruence.
  - split.
    + apply list.NoDup_cons. split; [|done]. rewrite Hin, bool_decide_true by done. by intros [].
    + intros id. rewrite !elem_of_cons, Hin, orb_false_iff, bool_decide_eq_false.
      clear -Eh. destruct (decide (id = cl_id c)); intuition congruence.
Qed.

Lemma won_outcomes fw st hist :
  s_txDedup fw = Some st →
  won (hist ≫= claimed_as fw) = tx_id <$> (accepted hist).*1 ∧
  cl_id <$> (hist ≫= claimed_as fw) = tx_id <$> hist.*1 ∧
  Forall (λ c, cl_store c = st ∧ cl_prefix c = s_txDedupPrefix fw) (hist ≫= claimed_as fw).
Proof.
  intros Est. induction hist as [|[x o] hist (E1 & E2 & E3)]; [done|]. rewrite bind_cons. unfold claimed_as at 1 3 5.
  rewrite Est. cbn [app fst snd]. rewrite won_cons. cbn [cl_won cl_id fmap list_fmap]. split_and!.
  - rewrite E1. by destruct o.
  - by rewrite E2.
  - by constructor.
Qed.

Lemma won_proper cl cl' : cl ≡ₚ cl' → won cl ≡ₚ won cl'.
Proof. intros E. unfold won. by rewrite E. Qed.

Lemma forwarded_once (K : Kernel) fw s0 ws nd hists st :
  node_inv K fw s0 ws nd hists → Forall idle (nd_lanes nd) → s_txDedup fw = Some st →
  let forwarded := tx_id <$> (accepted (concat hists)).*1 in
  NoDup forwarded ∧
  ∀ id, id ∈ forwarded ↔ id ∈ tx_id <$> (concat hists).*1 ∧ held st (s_txDedupPrefix fw) id (sh_env s0) = false.
Proof.
  intros Hn Hi Est. cbv zeta. pose proof (claims_all K fw s0 ws nd hists Hn Hi) as Hp.
  destruct (won_outcomes fw st (concat hists) Est) as (E1 & E2 & E3). rewrite Hp in E3.
  destruct (env_run_won _ _ _ _ _ (ni_claims _ _ _ _ _ _ Hn) E3) as [Hnd Hin].
  rewrite <- E1, <- E2. split; [by rewrite (won_proper _ _ Hp)|]. intros id. by rewrite (won_proper _ _ Hp), Hin, Hp.
Qed.
(** Workers at the end of their scripts have an outcome for everything they
    received. *)
Lemma finished_outcomes (K : Kernel) fw s0 ws nd hists :
  node_inv K fw s0 ws nd hists → Forall finished (nd_lanes nd) →
  (∀ i w hist, ws !! i = Some w → hists !! i = Some hist → hist.*1 = pl_txs K w) ∧
  (concat hists).*1 = concat (pl_txs K <$> ws).
Proof.
  intros Hn Hf. rewrite list.Forall_lookup in Hf. pose proof (ni_len _ _ _ _ _ _ Hn) as [Hl1 Hl2].
  assert (H1 : ∀ i w hist, ws !! i = Some w → hists !! i = Some hist → hist.*1 = pl_txs K w).
  { intros i w hist Ew Eh. pose proof (lookup_lt_Some _ _ _ Ew).
    destruct (lookup_lt_is_Some_2 (nd_lanes nd) i) as [ln El]; [lia|]. destruct (Hf i ln El) as [Hi Ht].
    by apply (idle_accesses _ _ _ _ _ _ _ (ni_lanes _ _ _ _ _ _ Hn i w ln hist Ew El Eh)). }
  split; [exact H1|]. rewrite fmap_concat. f_equal. apply list_eq. intros i. rewrite !list_lookup_fmap.
  destruct (hists !! i) as [hist|] eqn:Eh, (ws !! i) as [w|] eqn:Ew; cbn.
  - f_equal. by eapply H1.
  - apply lookup_lt_Some in Eh. apply lookup_ge_None in Ew. lia.
  - apply lookup_lt_Some in Ew. apply lookup_ge_None in Eh. lia.
  - done.
Qed.
End Claims.
