(* ===== verification/NodeProps.v ===== *)
(** * Properties of a node

    What holds of lanes that share a forwarder under every interleaving of
    their accesses. *)

From S2P Require Import Prelude Common Chains BatchWriter RetryTee Coal Egress EgressFacts RateLimit SubtreeRoot Machine Forwarder Beef Coalesce Dispatch ForwarderFacts Fragmentation Lane LaneFacts Delivery Worker Stream TcpIngress Toy ToyLaws ToyKernel DispatchProps WorkerProps TcpProps DeliveryProps EndToEnd Interleave InterleaveFacts Node NodeFacts.

Section Props.
Context {SC : ShardCommon} {SL : ShardLaws} {RT : GoRuntime}.
Implicit Types (fw : Settings).


(** What the sequential model of a lane computes. *)
Definition script_alone {K : Kernel} fw (sc : Script) (h : Host ()) : option (Host ()) :=
  match sc with
  | WorkerScript wk rs => worker_loop fw wk rs h
  | ConnScript rec hooks remote name acts =>
      perform_all fw rec hooks remote name (tcp_flushEgr fw noSink false) acts h
  end.

Lemma moves_tcp_flush {K : Kernel} fw (h h' : Host ()) todo :
  tcp_flushEgr fw noSink false h = Some h' → rtc lane_move (host_at h (tcp_flush_cmds fw ++ todo)) (host_at h' todo).
Proof.
  intros E. unfold tcp_flushEgr in E. change (sink_state noSink) with unit in E. destruct (w_egr (h_world h)) as [e|] eqn:Ee.
  - destruct (lift (FlushCoalesced fw (-1)) h) as [h1|] eqn:E1; [|done]. cbn in E. etransitivity; [by eapply moves_op|]. by apply moves_flush.
  - injection E as <-. etransitivity; [eapply (moves_op (FlushCoalesced fw (-1)) h h)|apply moves_flush].
    + unfold lift, FlushCoalesced, mbind at 2, M_bind, gets. rewrite Ee. cbn. by destruct h.
    + unfold egr_Flush. by rewrite Ee.
Qed.

(** C7: the sequential models of the lanes are schedules of the node.
    Whatever other lanes the node has, a worker or a connection that is left
    alone takes steps of the node that end, with its script done, in exactly
    the state its sequential model computes: shared state, egress, events,
    admissions and network; the other lanes are untouched. *)
Theorem lane_alone_is_sequential {K : Kernel} fw sc (h h' : Host ()) nd i :
  script_alone fw sc h = Some h' →
  nd_shared nd = shared (h_world h) → nd_lanes nd !! i = Some (host_lane h (script_cmds fw sc)) →
  ∃ nd', rtc node_step nd nd' ∧ nd_shared nd' = shared (h_world h') ∧
    nd_lanes nd' = <[i := host_lane h' []]> (nd_lanes nd).
Proof.
  intros Hw Hs Hl. apply (moves_steps i nd (host_at h (script_cmds fw sc)) (host_at h' [])); [|done|done].
  rewrite <- (app_nil_r (script_cmds fw sc)). destruct sc as [wk rs|rec hooks remote name acts]; cbn in Hw |- *.
  - by apply moves_worker.
  - eapply moves_actions; [|exact Hw]. intros. by apply moves_tcp_flush.
Qed.



(** The egress a worker or a connection opens, when coalescing is off. *)
Lemma fresh_plain fw wk targets rec tee mirror :
  s_coalesce fw = false →
  let e := udp_egress fw wk targets tee mirror in let e' := conn_egress fw targets rec tee mirror in
  (plain_egr fw e ∧ drained e) ∧ plain_egr fw e' ∧ drained e'.
Proof.
  intros Hc e e'. destruct (udp_egress_ok fw wk targets tee mirror) as [He Hd].
  destruct (conn_egress_ok fw targets rec tee mirror) as [He' Hd'].
  split; (split; [split; [done|]|done]); unfold e, e', udp_egress, conn_egress; destruct tee, mirror; cbn; by rewrite Hc.
Qed.
End Props.

(** ** Witnesses *)

#[local] Existing Instance exactRuntime.

#[export, refine] Instance toyStore : @StoreLaws toy := {| held st p id (e : Env) := bool_decide ((st, p, id) ∈ e) |}.
Proof.
  - intros st p id env. cbn. unfold toy_Claim.
    by destruct (decide _); [rewrite bool_decide_true|rewrite bool_decide_false].
  - intros st p id env id'. cbn. unfold toy_Claim. destruct (decide _) as [Hin|Hin]; cbn.
    + destruct (decide (id' = id)) as [->|Hn]; [by rewrite !bool_decide_true|by rewrite (bool_decide_false (id' = id))].
    + apply eq_true_iff_eq. rewrite orb_true_iff, !bool_decide_eq_true. set_solver.
Defined.

(** A worker and a connection that are given the same transaction and take
    turns at every access. *)
Definition toy_shared : Shared := shared (newWorld (∅ : Env) None 100).
Definition toy_in : Tx := mkTx toy_good toy_good_frame toy_peer.
Definition toy_mixed : list (PlainLane perfect) :=
  [mkPlainLane perfect (udp_egress toy_fw toy_worker ["eth0"; "eth1"] None None) ()
     (WorkerScript toy_worker [Received [tx_datagram toy_in]]) [toy_in];
   mkPlainLane perfect (conn_egress toy_fw ["eth0"; "eth1"] true None None) ()
     (ConnScript true 1 (Some toy_peer) "announce"
        [ARead false; AAdmit 1 (Zlen toy_good); ADispatch toy_good IngressTransaction; AFlush]) [toy_in]].
Definition toy_node : Node (K := logged perfect) :=
  node_run (concat (replicate 30 [0%nat; 1%nat])) (mkNode toy_shared (plain_start perfect toy_fw <$> toy_mixed) []).

Lemma toy_shared_ok : shared_ok toy_fw toy_shared.
Proof. split; [apply newStripes_ok|]. intros i a [E _]%lookup_replicate. done. Qed.

Lemma toy_in_plain : tx_plain toy_fw IngressTransaction toy_in.
Proof. split; [exact toy_good_plain|vm_compute; reflexivity|vm_compute; discriminate]. Qed.

Lemma toy_mixed_ok : Forall (plain_lane perfect toy_fw) toy_mixed.
Proof.
  destruct (fresh_plain toy_fw toy_worker ["eth0"; "eth1"] true None None eq_refl) as [[He Hd] [He' Hd']].
  apply list.Forall_cons_2; [|apply list.Forall_singleton]; (split; [done|done|]).
  - apply (carries_worker toy_fw toy_worker [[toy_in]]). apply list.Forall_singleton, list.Forall_singleton, toy_in_plain.
  - apply carries_conn. do 2 constructor. apply (pa_tx toy_fw toy_peer toy_in); [exact toy_in_plain|done|].
    by do 2 constructor.
Qed.

Lemma toy_node_finished : Forall finished (nd_lanes toy_node).
Proof. apply (bool_decide_unpack _). vm_compute. exact I. Qed.



(** A worker that receives a transaction and then garbage, and a connection
    that submits the same transaction, on one forwarder. *)
(** Two connections of one pool slot: the second waits for the write lock of
    the first interface's socket, which the first one holds. *)
Definition toy_lane_egress : Egress := udp_egress toy_fw toy_worker ["eth0"; "eth1"] None None.
Definition toy_conn : Egress * @KState toyKernel * Script :=
  ((toy_lane_egress, [(0, Some (ErrErrno ENOBUFS))]),
   ConnScript true 1 (Some toy_peer) "announce" [AAdmit 1 (Zlen toy_good); ADispatch toy_good IngressTransaction; AFlush]).
Definition toy_slots : list (nat * (Egress * @KState toyKernel * Script)) := [(0%nat, toy_conn); (0%nat, toy_conn)].
Definition toy_locked : LockNode :=
  lock_run (replicate 24 0%nat ++ replicate 28 1%nat) (lock_start toy_shared (prod_map id (start_lane toy_fw) <$> toy_slots)).

Lemma toy_locked_waits :
  (λ kl, (kl_holds kl, kl_left kl)) <$> kn_lanes toy_locked =
    [(Some (WriteLock 0 0), Some [WriteLock 0 1]); (None, Some [WriteLock 0 0; WriteLock 0 1])].
Proof. vm_compute. reflexivity. Qed.

Lemma holder_found (nd : LockNode (K := toyKernel)) m ms l :
  (λ kl, (kl_holds kl, kl_left kl)) <$> kn_lanes nd = [(Some m, Some l); (None, Some (m :: ms))] →
  waits_for nd 1 0 ∧ ∃ k0, kn_lanes nd !! 0%nat = Some k0 ∧ kl_holds k0 = Some m.
Proof.
  intros Hw. destruct (kn_lanes nd) as [|k0 [|k1 [|]]] eqn:Ek; try discriminate. injection Hw as E0 L0 E1 L1.
  split; [exists m, ms, k1, k0; by rewrite Ek|by exists k0].
Qed.


Definition toy_host : Host (K := logged perfect) () :=
  watched_worker perfect toy_fw toy_worker ∅ ["eth0"; "eth1"] None None 100 ().
Definition toy_recv : list Recv := [Received [mkDatagram (Some toy_peer) toy_good]; RecvError; RecvClosed].

Definition toy_alone : Node (K := logged perfect) :=
  mkNode (shared (h_world toy_host)) [host_lane toy_host (script_cmds toy_fw (WorkerScript toy_worker toy_recv))] [].

Lemma toy_loop_runs : is_Some (worker_loop toy_fw toy_worker toy_recv toy_host).
Proof.
  assert (E : (match worker_loop toy_fw toy_worker toy_recv toy_host with Some _ => true | None => false end) = true)
    by (vm_compute; reflexivity).
  revert E. destruct (worker_loop _ _ _ _); [by eexists|discriminate].
Qed.

Lemma lane_alone_is_sequential_witness : ∃ nd', rtc node_step toy_alone nd' ∧ nl_todo <$> nd_lanes nd' = [[]].
Proof.
  destruct toy_loop_runs as [h' E].
  destruct (lane_alone_is_sequential toy_fw (WorkerScript toy_worker toy_recv) toy_host h' toy_alone 0%nat E eq_refl eq_refl) as (nd' & Hr & _ & El).
  exists nd'. split; [exact Hr|]. by rewrite El.
Defined.
