(* ===== verification/Config.v ===== *)
(** * Configuration (config/config.go, config/controlgroup.go)

    [Load] from the point where the flags are parsed: every check it makes,
    in order, and what it derives; the control-plane group prefixes; the
    environment fallbacks of integer, boolean and string flags.  Strings are
    read as ASCII. *)

From Stdlib Require Import Ascii.
From S2P Require Import Prelude.

(** ** Strings *)

Definition is_space (a : ascii) : bool :=
  let n := nat_of_ascii a in ((9 <=? n) && (n <=? 13) || (n =? 32))%nat.

Fixpoint trim_left (s : string) : string :=
  match s with
  | String a s' => if is_space a then trim_left s' else s
  | EmptyString => s
  end.

Fixpoint string_rev (acc s : string) : string :=
  match s with
  | String a s => string_rev (String a acc) s
  | EmptyString => acc
  end.

(** [strings.TrimSpace]. *)
Definition TrimSpace (s : string) : string :=
  string_rev "" (trim_left (string_rev "" (trim_left s))).

Definition lower (a : ascii) : ascii :=
  let n := nat_of_ascii a in if ((65 <=? n) && (n <=? 90))%nat then ascii_of_nat (n + 32) else a.

Fixpoint ToLower (s : string) : string :=
  match s with
  | String a s => String (lower a) (ToLower s)
  | EmptyString => EmptyString
  end.

Definition EqualFold (s t : string) : bool := String.eqb (ToLower s) (ToLower t).

(** [strings.Split] at commas. *)
Fixpoint split_comma (acc s : string) : list string :=
  match s with
  | EmptyString => [string_rev "" acc]
  | String a s => if Ascii.eqb a "," then string_rev "" acc :: split_comma "" s else split_comma (String a acc) s
  end.

Definition Split (s : string) : list string := split_comma "" s.

Definition digit (base : Z) (a : ascii) : option Z :=
  let n := Z.of_nat (nat_of_ascii a) in
  let d :=
    if (48 <=? n) && (n <=? 57) then n - 48
    else if (97 <=? n) && (n <=? 122) then n - 87
    else if (65 <=? n) && (n <=? 90) then n - 55 else 99 in
  if d <? base then Some d else None.

Fixpoint digits (base acc : Z) (s : string) : option Z :=
  match s with
  | EmptyString => Some acc
  | String a s => d ← digit base a; digits base (acc * base + d) s
  end.

(** [strconv.ParseUint] in base 10 or 16: [None] is a syntax or range
    error. *)
Definition ParseUint (s : string) (base bits : Z) : option Z :=
  match s with
  | EmptyString => None
  | _ => n ← digits base 0 s; if n <? 2 ^ bits then Some n else None
  end.

(** [strconv.Atoi]. *)
Definition Atoi (s : string) : option Z :=
  match s with
  | String "-" s => n ← ParseUint s 10 64; if n <=? 2 ^ 63 then Some (- n) else None
  | String "+" s => n ← ParseUint s 10 64; if n <? 2 ^ 63 then Some n else None
  | _ => n ← ParseUint s 10 64; if n <? 2 ^ 63 then Some n else None
  end.

(** [strconv.ParseBool]. *)
Definition ParseBool (s : string) : option bool :=
  if bool_decide (s ∈ ["1"; "t"; "T"; "TRUE"; "true"; "True"]) then Some true
  else if bool_decide (s ∈ ["0"; "f"; "F"; "FALSE"; "false"; "False"]) then Some false
  else None.

Definition has_0x (s : string) : bool := String.prefix "0x" (ToLower s).
Definition skip2 (s : string) : string := match s with String _ (String _ s) => s | _ => "" end.

(** ** The host

    What [Load] uses from outside: [shard.ParseScope], [shard.Prefix] for
    SSM, and the host: IP literal parsing (an address that is not IPv4),
    interface lookup, CPU count, and the duration and float syntax of flags
    (a duration is in nanoseconds). *)
Class Outside := {
  ShardScope : Type;
  ParseScope : string → option ShardScope;
  PrefixSSM : ShardScope → option Z;
  ParseIPv6 : string → option bytes;
  InterfaceByName : string → bool;
  NumCPU : Z;
  Float : Type;
  float_0 : Float;
  ParseFloat : string → option Float;
  ParseDuration : string → option Z }.

(** ** The environment *)

Section Env.
Context `{Outside} (getenv : string → string).

Definition envStr (key def : string) : string :=
  let v := getenv key in if String.eqb v "" then def else v.

Definition envInt (key : string) (def : Z) : Z :=
  let v := getenv key in if String.eqb v "" then def else default def (Atoi v).

Definition envBool (key : string) (def : bool) : bool :=
  let v := getenv key in if String.eqb v "" then def else default def (ParseBool v).

Definition envFloat (key : string) (def : Float) : Float :=
  let v := getenv key in if String.eqb v "" then def else default def (ParseFloat v).

Definition envDuration (key : string) (def : Z) : Z :=
  let v := getenv key in if String.eqb v "" then def else default def (ParseDuration v).
End Env.

(** ** Errors *)

Inductive ConfigError :=
| ErrShardBits (n : Z) | ErrBEEFShardBits (n : Z) | ErrBEEFMaxObject (n : Z)
| ErrPortCollision (name : string) (port : Z) (with_ : string)
| ErrMinPoWBits (s : string) | ErrScope (s : string) | ErrSSMScope (s : string) | ErrSSMPrefix
| ErrBindSourceMissing | ErrBindSource (s : string) | ErrSourceMode (s : string)
| ErrGroupID (s : string) | ErrInterface (s : string) | ErrNoInterface
| ErrDedupTTL | ErrDedupPrefix | ErrDedupBackend (s : string) | ErrDedupRedis | ErrDedupAerospike
| ErrBootstrap (s : string) | ErrPilotQuorum (n : Z) | ErrBeaconScope (s : string)
| ErrCompat (s : string) | ErrDerivedScope (s : string).

Definition Res (A : Type) : Type := ConfigError + A.
#[export] Instance Res_ret : MRet Res := λ A x, inr x.
#[export] Instance Res_bind : MBind Res := λ A B f m, match m with inl e => inl e | inr x => f x end.

Definition fail {A} (e : ConfigError) : Res A := inl e.
Definition require (b : bool) (e : ConfigError) : Res () := if b then mret () else fail e.

(** ** Tables *)

Definition Scopes (name : string) : option Z :=
  if String.eqb name "link" then Some 0xFF02
  else if String.eqb name "site" then Some 0xFF05
  else if String.eqb name "org" then Some 0xFF08
  else if String.eqb name "global" then Some 0xFF0E
  else None.

Definition parseGroupID (s : string) : option Z :=
  let s := TrimSpace s in
  if String.eqb s "" then None
  else if has_0x s then ParseUint (skip2 s) 16 16
  else match ParseUint s 10 16 with
       | Some n => Some n
       | None => ParseUint s 16 16
       end.

Definition parseMinPoWBits (flag : string) : option Z :=
  let s := TrimSpace flag in
  if has_0x s then ParseUint (skip2 s) 16 32 else ParseUint s 10 32.

(** The mutually exclusive TCP ports; zero is disabled. *)
Fixpoint check_ports (seen : list (Z * string)) (ports : list (Z * string)) : Res () :=
  match ports with
  | [] => mret ()
  | (v, name) :: ports =>
      if v =? 0 then check_ports seen ports
      else
        match list_find (λ p, p.1 = v) seen with
        | Some (_, (_, prev)) => fail (ErrPortCollision name v prev)
        | None => check_ports ((v, name) :: seen) ports
        end
  end.

(** ** What the flags hold once parsed *)

(** The fields [Load] keeps as the flags set them. *)
Record Plain `{Outside} := mkPlain {
  ListenAddr : string; UDPListenPort : Z; EgressPort : Z; EgressHopLimit : Z; EgressLoop : bool;
  RequireBlockPoW : bool; RequireEF : bool; AllowStampedIngress : bool; VerifySubtreeRoot : bool;
  VerifyPayloadHash : bool; StampSource : bool; Debug : bool; LogFormat : string; LogLevel : string;
  TraceSampling : Float; DrainTimeout : Z; FragMTU : Z; Coalesce : bool; CoalesceMaxBytes : Z;
  CoalesceMaxMembers : Z; CoalesceCarryTxid : bool; RetryTee : string; RecvBufBytes : Z;
  PprofEnabled : bool; TxidDedupEnabled : bool; TxidDedupAeroNamespace : string; TxidDedupAeroSet : string;
  MetricsAddr : string; InstanceID : string; OTLPEndpoint : string; OTLPInterval : Z;
  AutoConfigEnabled : bool; AutoConfigHysteresis : Z; AutoConfigBeaconPort : Z;
  AutoConfigLiveResharding : bool; AutoConfigBridgingWindow : Z }.

Record Flags `{Outside} := mkFlags {
  fl_plain : Plain;
  fl_TCPListenPort : Z; fl_SubtreeListenPort : Z; fl_BlockListenPort : Z; fl_BEEFListenPort : Z;
  fl_ShardBits : Z; fl_BEEFShardBits : Z; fl_BEEFMaxObjectBytes : Z;
  fl_MinPoWBits : string; fl_SourceMode : string; fl_MCScope : string; fl_BindSource : string;
  fl_GroupID : string; fl_NumWorkers : Z; fl_RecvBatch : Z; fl_Iface : string;
  fl_AeroHosts : string; fl_DedupBackend : string; fl_DedupRedisAddr : string;
  fl_DedupTTL : Z; fl_DedupPrefix : string; fl_DedupLocalCap : Z;
  fl_Bootstrap : string; fl_PilotQuorum : Z; fl_BeaconScope : string; fl_Compat : string }.

(** [Config]: the plain fields, and the validated and derived ones. *)
Record Config `{Outside} := mkConfig {
  c_plain : Plain;
  c_TCPPorts : list Z; c_ShardBits : Z; c_NumGroups : Z; c_BEEFShardBits : Z; c_BEEFMaxObjectBytes : Z;
  c_MinPoWBits : Z; c_SourceMode : string; c_MCScope : string; c_MCPrefix : Z; c_BindSource : string;
  c_MCGroupID : Z; c_NumWorkers : Z; c_RecvBatch : Z; c_EgressIfaces : list string;
  c_DedupBackend : string; c_DedupRedisAddr : string; c_DedupAeroHosts : list string;
  c_DedupTTL : Z; c_DedupPrefix : string; c_DedupLocalCap : Z;
  c_Bootstrap : string; c_PilotQuorum : Z; c_BeaconScope : string; c_Compat : string }.

Section Load.
Context `{Outside}.

(** The flag definitions: every default, with its environment fallback.
    [uint(...)] of a negative integer wraps. *)
Definition second : Z := 10 ^ 9.
Definition minute : Z := 60 * second.

Definition default_plain (getenv : string → string) : Plain :=
  let envStr := envStr getenv in let envInt := envInt getenv in
  let envBool := envBool getenv in let envDuration := envDuration getenv in
  {| ListenAddr := envStr "LISTEN_ADDR" "[::]"; UDPListenPort := envInt "UDP_LISTEN_PORT" 8725;
     EgressPort := envInt "EGRESS_PORT" 9001; EgressHopLimit := envInt "EGRESS_HOPLIMIT" 1;
     EgressLoop := envBool "EGRESS_MULTICAST_LOOP" false;
     RequireBlockPoW := envBool "REQUIRE_BLOCK_POW" true; RequireEF := envBool "REQUIRE_EF" false;
     AllowStampedIngress := envBool "ALLOW_STAMPED_INGRESS" false;
     VerifySubtreeRoot := envBool "VERIFY_SUBTREE_ROOT" true;
     VerifyPayloadHash := envBool "VERIFY_PAYLOAD_HASH" false; StampSource := envBool "STAMP_SOURCE" true;
     Debug := envBool "DEBUG" false; LogFormat := envStr "LOG_FORMAT" "text"; LogLevel := envStr "LOG_LEVEL" "info";
     TraceSampling := envFloat getenv "TRACE_SAMPLING" float_0; DrainTimeout := envDuration "DRAIN_TIMEOUT" 0;
     FragMTU := envInt "FRAG_MTU" 1500; Coalesce := envBool "COALESCE" false;
     CoalesceMaxBytes := envInt "COALESCE_MAX_BYTES" 1500; CoalesceMaxMembers := envInt "COALESCE_MAX_MEMBERS" 0;
     CoalesceCarryTxid := envBool "COALESCE_CARRY_TXID" false; RetryTee := envStr "BSP_RETRY_TEE" "";
     RecvBufBytes := envInt "BSP_RECV_BUF_BYTES" 0; PprofEnabled := envBool "BSP_PPROF" false;
     TxidDedupEnabled := envBool "INGRESS_DEDUP" true;
     TxidDedupAeroNamespace := envStr "TXID_DEDUP_AEROSPIKE_NAMESPACE" "cache";
     TxidDedupAeroSet := envStr "TXID_DEDUP_AEROSPIKE_SET" "bsp";
     MetricsAddr := envStr "METRICS_ADDR" ":9100"; InstanceID := envStr "INSTANCE_ID" "";
     OTLPEndpoint := envStr "OTLP_ENDPOINT" ""; OTLPInterval := envDuration "OTLP_INTERVAL" (30 * second);
     AutoConfigEnabled := envBool "MANIFEST_CONSUMER_ENABLED" false;
     AutoConfigHysteresis := envDuration "PILOT_HYSTERESIS" 0;
     AutoConfigBeaconPort := envInt "MANIFEST_BEACON_PORT" 9001;
     AutoConfigLiveResharding := envBool "LIVE_RESHARDING" false;
     AutoConfigBridgingWindow := envDuration "BRIDGING_WINDOW" 0 |}.

Definition default_flags (getenv : string → string) : Flags :=
  let envStr := envStr getenv in let envInt := envInt getenv in
  {| fl_plain := default_plain getenv;
     fl_TCPListenPort := envInt "TCP_LISTEN_PORT" 0; fl_SubtreeListenPort := envInt "SUBTREE_LISTEN_PORT" 0;
     fl_BlockListenPort := envInt "BLOCK_LISTEN_PORT" 0; fl_BEEFListenPort := envInt "BEEF_LISTEN_PORT" 0;
     fl_ShardBits := u64 (envInt "SHARD_BITS" 2); fl_BEEFShardBits := u64 (envInt "BEEF_SHARD_BITS" 0);
     fl_BEEFMaxObjectBytes := envInt "BEEF_MAX_OBJECT_BYTES" (2 ^ 20);
     fl_MinPoWBits := envStr "MIN_POW_BITS" "0"; fl_SourceMode := envStr "SOURCE_MODE" "asm";
     fl_MCScope := envStr "MC_SCOPE" "site"; fl_BindSource := envStr "BIND_SOURCE" "";
     fl_GroupID := envStr "MC_GROUP_ID" "0x000B"; fl_NumWorkers := envInt "NUM_WORKERS" NumCPU;
     fl_RecvBatch := envInt "BSP_RECV_BATCH" 32; fl_Iface := envStr "MULTICAST_IF" "eth0";
     fl_AeroHosts := envStr "TXID_DEDUP_AEROSPIKE_HOSTS" ""; fl_DedupBackend := envStr "TXID_DEDUP_BACKEND" "";
     fl_DedupRedisAddr := envStr "TXID_DEDUP_REDIS_ADDR" "";
     fl_DedupTTL := envDuration getenv "TXID_DEDUP_TTL" (10 * minute);
     fl_DedupPrefix := envStr "TXID_DEDUP_PREFIX" "bsp:tx:";
     fl_DedupLocalCap := envInt "TXID_DEDUP_LOCAL_CAP" (2 ^ 20);
     fl_Bootstrap := envStr "MANIFEST_BOOTSTRAP" "optional"; fl_PilotQuorum := envInt "PILOT_QUORUM" 2;
     fl_BeaconScope := envStr "MANIFEST_BEACON_SCOPE" ""; fl_Compat := envStr "CONTROL_GROUP_COMPAT" "both" |}.

(** Scope and source mode to the prefix. *)
Definition resolve_prefix (f : Flags) : Res (string * Z) :=
  let mode := ToLower (fl_SourceMode f) in
  if String.eqb mode "asm" then
    match Scopes (fl_MCScope f) with
    | Some p => mret ("asm", p)
    | None => fail (ErrScope (fl_MCScope f))
    end
  else if String.eqb mode "ssm" then
    match ParseScope (fl_MCScope f) with
    | None => fail (ErrSSMScope (fl_MCScope f))
    | Some sc =>
        match PrefixSSM sc with
        | None => fail ErrSSMPrefix
        | Some p =>
            require (negb (String.eqb (fl_BindSource f) "")) ErrBindSourceMissing;;
            require (bool_decide (is_Some (ParseIPv6 (fl_BindSource f)))) (ErrBindSource (fl_BindSource f));;
            mret ("ssm", p)
        end
    end
  else fail (ErrSourceMode (fl_SourceMode f)).

(** The egress interfaces: every named one must exist. *)
Fixpoint parse_ifaces (names : list string) : Res (list string) :=
  match names with
  | [] => mret []
  | n :: names =>
      let n := TrimSpace n in
      if String.eqb n "" then parse_ifaces names
      else
        require (InterfaceByName n) (ErrInterface n);;
        rest ← parse_ifaces names; mret (n :: rest)
  end.

Definition nonblank (names : list string) : list string :=
  filter (λ s, s ≠ "") (TrimSpace <$> names).

(** The dedup checks, with the inferred backend. *)
Definition check_dedup (f : Flags) (backend : string) (hosts : list string) : Res () :=
  if 0 <? fl_DedupLocalCap f then
    require (0 <? fl_DedupTTL f) ErrDedupTTL;;
    require (negb (String.eqb (fl_DedupPrefix f) "")) ErrDedupPrefix;;
    require (bool_decide (backend ∈ ["redis"; "aerospike"; "memory"; "none"])) (ErrDedupBackend backend);;
    require (negb (String.eqb backend "redis" && String.eqb (fl_DedupRedisAddr f) "")) ErrDedupRedis;;
    require (negb (String.eqb backend "aerospike" && bool_decide (hosts = []))) ErrDedupAerospike
  else mret ().

(** The manifest consumer's flags, and the scope of its beacon. *)
Definition check_manifest (f : Flags) : Res string :=
  require (bool_decide (fl_Bootstrap f ∈ ["optional"; "required"])) (ErrBootstrap (fl_Bootstrap f));;
  require (1 <=? fl_PilotQuorum f) (ErrPilotQuorum (fl_PilotQuorum f));;
  let beacon := if String.eqb (fl_BeaconScope f) "" then fl_MCScope f else fl_BeaconScope f in
  require (bool_decide (is_Some (Scopes beacon))) (ErrBeaconScope beacon);;
  mret beacon.

Definition tcp_ports (f : Flags) : list (Z * string) :=
  [(fl_TCPListenPort f, "tcp-listen-port"); (fl_SubtreeListenPort f, "subtree-listen-port");
   (fl_BlockListenPort f, "block-listen-port"); (fl_BEEFListenPort f, "beef-listen-port")].

Definition Load (f : Flags) : Res Config :=
  require ((1 <=? fl_ShardBits f) && (fl_ShardBits f <=? 12)) (ErrShardBits (fl_ShardBits f));;
  require (fl_BEEFShardBits f <=? 12) (ErrBEEFShardBits (fl_BEEFShardBits f));;
  require (1 <=? fl_BEEFMaxObjectBytes f) (ErrBEEFMaxObject (fl_BEEFMaxObjectBytes f));;
  check_ports [] (tcp_ports f);;
  pow ← match parseMinPoWBits (fl_MinPoWBits f) with Some v => mret v | None => fail (ErrMinPoWBits (fl_MinPoWBits f)) end;
  mp ← resolve_prefix f;
  gid ← match parseGroupID (fl_GroupID f) with Some v => mret v | None => fail (ErrGroupID (fl_GroupID f)) end;
  ifaces ← parse_ifaces (Split (fl_Iface f));
  require (negb (bool_decide (ifaces = []))) ErrNoInterface;;
  let hosts := nonblank (Split (fl_AeroHosts f)) in
  let backend :=
    if String.eqb (fl_DedupBackend f) "" then (if String.eqb (fl_DedupRedisAddr f) "" then "none" else "redis")
    else fl_DedupBackend f in
  check_dedup f backend hosts;;
  beacon ← check_manifest f;
  mret {| c_plain := fl_plain f;
          c_TCPPorts := fst <$> tcp_ports f;
          c_ShardBits := fl_ShardBits f; c_NumGroups := Z.shiftl 1 (fl_ShardBits f);
          c_BEEFShardBits := fl_BEEFShardBits f; c_BEEFMaxObjectBytes := fl_BEEFMaxObjectBytes f;
          c_MinPoWBits := pow; c_SourceMode := mp.1; c_MCScope := fl_MCScope f; c_MCPrefix := mp.2;
          c_BindSource := fl_BindSource f; c_MCGroupID := gid;
          c_NumWorkers := (if fl_NumWorkers f <=? 0 then NumCPU else fl_NumWorkers f);
          c_RecvBatch := (if fl_RecvBatch f <? 1 then 1 else fl_RecvBatch f); c_EgressIfaces := ifaces;
          c_DedupBackend := backend; c_DedupRedisAddr := fl_DedupRedisAddr f; c_DedupAeroHosts := hosts;
          c_DedupTTL := fl_DedupTTL f; c_DedupPrefix := fl_DedupPrefix f; c_DedupLocalCap := fl_DedupLocalCap f;
          c_Bootstrap := fl_Bootstrap f; c_PilotQuorum := fl_PilotQuorum f; c_BeaconScope := beacon;
          c_Compat := fl_Compat f |}.

(** ** The control-plane groups *)

Definition ControlGroupPrefixes (compat sourceMode scopeName : string) : Res (list Z) :=
  match Scopes scopeName with
  | None => fail (ErrScope scopeName)
  | Some asm =>
      if String.eqb compat "asm-only" then mret [asm]
      else if String.eqb compat "both" || String.eqb compat "derived" then
        derived ← (
          if EqualFold sourceMode "ssm" then
            match ParseScope scopeName with
            | None => if String.eqb compat "derived" then fail (ErrDerivedScope scopeName) else mret asm
            | Some sc => match PrefixSSM sc with Some p => mret p | None => fail ErrSSMPrefix end
            end
          else mret asm);
        mret (if String.eqb compat "derived" || (derived =? asm) then [derived] else [asm; derived])
      else fail (ErrCompat compat)
  end.

Definition ManifestBeaconGroupPrefixes (c : Config) : Res (list Z) :=
  ControlGroupPrefixes (c_Compat c) (c_SourceMode c) (c_BeaconScope c).
End Load.
