(* ===== verification/ConfigProps.v ===== *)
(** * Properties of the configuration *)

From S2P Require Import Prelude Config.

(** What [shard.ParseScope] and [shard.Prefix] document of the four scope
    names: source-specific groups exist at site (FF35) and global (FF3E)
    scope only. *)
Class OutsideLaws `{Outside} : Prop := {
  ssm_site : ∃ sc, ParseScope "site" = Some sc ∧ PrefixSSM sc = Some 0xFF35;
  ssm_global : ∃ sc, ParseScope "global" = Some sc ∧ PrefixSSM sc = Some 0xFF3E;
  ssm_link : ParseScope "link" = None;
  ssm_org : ParseScope "org" = None;
  NumCPU_pos : 1 ≤ NumCPU }.

(** What the rest of the program relies on of a configuration. *)
Record config_ok `{Outside} (c : Config) : Prop := mkConfigOk {
  ok_bits : 1 ≤ c_ShardBits c ≤ 12;
  ok_groups : c_NumGroups c = 2 ^ c_ShardBits c ∧ c_NumGroups c ≤ 4096;
  ok_beef : c_BEEFShardBits c ≤ 12 ∧ 1 ≤ c_BEEFMaxObjectBytes c;
  ok_ports : NoDup (filter (λ p, p ≠ 0) (c_TCPPorts c));
  ok_pow : 0 ≤ c_MinPoWBits c < 2 ^ 32;
  ok_prefix : c_SourceMode c = "asm" ∧ Scopes (c_MCScope c) = Some (c_MCPrefix c) ∨
    c_SourceMode c = "ssm" ∧ (∃ sc, ParseScope (c_MCScope c) = Some sc ∧ PrefixSSM sc = Some (c_MCPrefix c)) ∧
      is_Some (ParseIPv6 (c_BindSource c));
  ok_gid : 0 ≤ c_MCGroupID c < 2 ^ 16;
  ok_workers : 1 ≤ c_NumWorkers c ∧ 1 ≤ c_RecvBatch c;
  ok_ifaces : c_EgressIfaces c ≠ [] ∧ Forall (λ n, n ≠ "" ∧ InterfaceByName n = true) (c_EgressIfaces c);
  ok_dedup : 0 < c_DedupLocalCap c →
    0 < c_DedupTTL c ∧ c_DedupPrefix c ≠ "" ∧ c_DedupBackend c ∈ ["redis"; "aerospike"; "memory"; "none"] ∧
    (c_DedupBackend c = "redis" → c_DedupRedisAddr c ≠ "") ∧
    (c_DedupBackend c = "aerospike" → c_DedupAeroHosts c ≠ []);
  ok_manifest : c_Bootstrap c ∈ ["optional"; "required"] ∧ 1 ≤ c_PilotQuorum c ∧ is_Some (Scopes (c_BeaconScope c)) }.

(** ** Parsing *)

Lemma digit_range base a d : digit base a = Some d → 0 ≤ d < base.
Proof.
  unfold digit. cbv zeta. pose proof (Nat2Z.is_nonneg (Ascii.nat_of_ascii a)).
  repeat match goal with |- context [if ?b then _ else _] => destruct b eqn:? end; intros [= <-]; lia.
Qed.

Lemma digits_nonneg base acc s n : 0 < base → 0 ≤ acc → digits base acc s = Some n → 0 ≤ n.
Proof.
  intros Hb. revert acc. induction s as [|a s IH]; intros acc Ha; simpl; [congruence|].
  destruct (digit base a) as [d|] eqn:Ed; [|done]. apply digit_range in Ed. apply IH. nia.
Qed.

Lemma ParseUint_range s base bits n : 0 < base → ParseUint s base bits = Some n → 0 ≤ n < 2 ^ bits.
Proof.
  intros Hb. unfold ParseUint. destruct s; [done|]. destruct (digits base 0 _) as [m|] eqn:Ed; [|done].
  cbn [mbind option_bind]. destruct (Z.ltb_spec m (2 ^ bits)); [|done]. intros [= <-].
  split; [|done]. by eapply (digits_nonneg base 0).
Qed.

Lemma parseGroupID_range s n : parseGroupID s = Some n → 0 ≤ n < 2 ^ 16.
Proof.
  unfold parseGroupID. cbv zeta. destruct (String.eqb _ _); [done|]. destruct (has_0x _); [by apply ParseUint_range|].
  destruct (ParseUint _ 10 16) eqn:E; [|by apply ParseUint_range]. intros [= <-]. by apply ParseUint_range in E.
Qed.

Lemma parseMinPoWBits_range s n : parseMinPoWBits s = Some n → 0 ≤ n < 2 ^ 32.
Proof. unfold parseMinPoWBits. cbv zeta. destruct (has_0x _); by apply ParseUint_range. Qed.

(** ** Steps of [Load] *)

Lemma bind_inr {A B} (m : Res A) (f : A → Res B) y : m ≫= f = inr y → ∃ x, m = inr x ∧ f x = inr y.
Proof. destruct m; [done|]. intros E. eauto. Qed.

Lemma require_inr b e x : require b e = inr x → b = true.
Proof. by destruct b. Qed.

(** Peel the binds off a successful run. *)
Ltac peel E :=
  lazymatch type of E with
  | _ ≫= _ = inr _ =>
      let x := fresh "x" in let E1 := fresh "E" in apply bind_inr in E as (x & E1 & E); peel E
  | _ => idtac
  end.

Lemma check_ports_nodup seen ports u :
  check_ports seen ports = inr u → NoDup (fst <$> seen) →
  NoDup (filter (λ p, p ≠ 0) (fst <$> ports)) ∧ (∀ p, p ∈ filter (λ p, p ≠ 0) (fst <$> ports) → p ∉ fst <$> seen).
Proof.
  revert seen. induction ports as [|[v name] ports IH]; intros seen; cbn [check_ports].
  { intros _ _. split; [constructor|]. intros p Hp. by apply elem_of_nil in Hp. }
  destruct (Z.eqb_spec v 0) as [->|Hv].
  { intros Hc Hn. rewrite fmap_cons, filter_cons_False by (simpl; lia). by apply IH. }
  rewrite fmap_cons, filter_cons_True by done. cbn [fst].
  destruct (list_find (λ p, p.1 = v) seen) as [[i [q prev]]|] eqn:Ef; [done|]. intros Hc Hn.
  assert (Hnin : v ∉ fst <$> seen).
  { intros ([q nm] & -> & Hin)%list_elem_of_fmap. apply list_find_None in Ef.
    rewrite list.Forall_forall in Ef. by apply (Ef _ Hin). }
  destruct (IH ((v, name) :: seen) Hc) as [Hd Hs].
  { rewrite fmap_cons. by constructor. }
  split.
  - constructor; [|done]. intros Hin. apply Hs in Hin. apply Hin. rewrite fmap_cons. left.
  - intros p [-> | Hin]%elem_of_cons; [done|]. apply Hs in Hin. rewrite fmap_cons, not_elem_of_cons in Hin. by destruct Hin.
Qed.

Section Load.
Context `{OutsideLaws}.

Lemma parse_ifaces_ok names l :
  parse_ifaces names = inr l → Forall (λ n, n ≠ "" ∧ InterfaceByName n = true) l.
Proof.
  revert l. induction names as [|n names IH]; intros l; simpl; [by intros [= <-]|].
  destruct (String.eqb_spec (TrimSpace n) ""); [apply IH|]. intros E. peel E. injection E as <-.
  apply require_inr in E0. constructor; [done|auto].
Qed.

Lemma resolve_prefix_ok f mode p :
  resolve_prefix f = inr (mode, p) →
  mode = "asm" ∧ Scopes (fl_MCScope f) = Some p ∨
  mode = "ssm" ∧ (∃ sc, ParseScope (fl_MCScope f) = Some sc ∧ PrefixSSM sc = Some p) ∧ is_Some (ParseIPv6 (fl_BindSource f)).
Proof.
  unfold resolve_prefix. cbv zeta. destruct (String.eqb _ "asm").
  { destruct (Scopes _); [|done]. intros [= <- <-]. by left. }
  destruct (String.eqb _ "ssm"); [|done]. destruct (ParseScope _) as [sc|]; [|done].
  destruct (PrefixSSM sc) as [q|] eqn:Eq; [|done]. intros E. peel E. injection E as <- <-. right.
  apply require_inr, bool_decide_eq_true in E1. eauto.
Qed.

Lemma check_dedup_ok f backend hosts u :
  check_dedup f backend hosts = inr u → 0 < fl_DedupLocalCap f →
  0 < fl_DedupTTL f ∧ fl_DedupPrefix f ≠ "" ∧ backend ∈ ["redis"; "aerospike"; "memory"; "none"] ∧
  (backend = "redis" → fl_DedupRedisAddr f ≠ "") ∧ (backend = "aerospike" → hosts ≠ []).
Proof.
  intros E Hc. unfold check_dedup in E. rewrite (proj2 (Z.ltb_lt _ _) Hc) in E. peel E.
  apply require_inr in E0, E1, E2, E3, E. apply bool_decide_eq_true in E2. split_and!; try done.
  - lia.
  - intros Hp. by rewrite Hp in E1.
  - intros -> Hr. by rewrite Hr in E3.
  - intros -> ->. done.
Qed.

Lemma check_manifest_ok f beacon :
  check_manifest f = inr beacon →
  fl_Bootstrap f ∈ ["optional"; "required"] ∧ 1 ≤ fl_PilotQuorum f ∧ is_Some (Scopes beacon).
Proof.
  intros E. unfold check_manifest in E. peel E. injection E as <-.
  repeat match goal with H : require _ _ = inr _ |- _ => apply require_inr in H end.
  repeat match goal with H : bool_decide _ = true |- _ => apply bool_decide_eq_true in H end. split_and!; [done|lia|done].
Qed.

Lemma Load_ok f c : Load f = inr c → config_ok c.
Proof.
  intros E. unfold Load in E. peel E.
  repeat match goal with H : require _ _ = inr _ |- _ => apply require_inr in H end.
  repeat match goal with H : bool_decide _ = true |- _ => apply bool_decide_eq_true in H end.
  match goal with H : check_ports _ _ = inr _ |- _ => apply check_ports_nodup in H as [Hports _]; [|constructor] end.
  match goal with H : resolve_prefix _ = inr ?mp |- _ => destruct mp as [mode p]; apply resolve_prefix_ok in H as Hmp end.
  match goal with H : parse_ifaces _ = inr _ |- _ => apply parse_ifaces_ok in H as Hifs end.
  match goal with H : check_dedup _ _ _ = inr _ |- _ => pose proof (check_dedup_ok _ _ _ _ H) as Hded end.
  match goal with H : check_manifest _ = inr _ |- _ => apply check_manifest_ok in H as (Hboot & Hquorum & Hbeacon) end.
  destruct (parseMinPoWBits _) as [pow|] eqn:Epow; [|done]. destruct (parseGroupID _) as [gid|] eqn:Egid; [|done].
  unfold mret, Res_ret in *. simplify_eq. apply parseMinPoWBits_range in Epow. apply parseGroupID_range in Egid.
  assert (Hbits : 1 ≤ fl_ShardBits f ≤ 12) by lia.
  split; cbn [c_ShardBits c_NumGroups c_BEEFShardBits c_BEEFMaxObjectBytes c_TCPPorts c_MinPoWBits c_SourceMode
    c_MCScope c_MCPrefix c_BindSource c_MCGroupID c_NumWorkers c_RecvBatch c_EgressIfaces c_DedupLocalCap c_DedupTTL
    c_DedupPrefix c_DedupBackend c_DedupRedisAddr c_DedupAeroHosts c_Bootstrap c_PilotQuorum c_BeaconScope fst snd];
    try done; try lia.
  - rewrite Z.shiftl_1_l. split; [done|]. change 4096 with (2 ^ 12). apply Z.pow_le_mono_r; lia.
  - pose proof NumCPU_pos. destruct (Z.leb_spec (fl_NumWorkers f) 0), (Z.ltb_spec (fl_RecvBatch f) 1); lia.
  - split; [|done]. intros ->. done.
Qed.

Lemma Load_ports f c : Load f = inr c → c_TCPPorts c = fst <$> tcp_ports f.
Proof. intros E. unfold Load in E. peel E. by injection E as <-. Qed.

End Load.

Section ControlGroups.
Context `{OutsideLaws}.

Lemma Scopes_names s p :
  Scopes s = Some p → (s = "link" ∧ p = 0xFF02) ∨ (s = "site" ∧ p = 0xFF05) ∨ (s = "org" ∧ p = 0xFF08) ∨
    (s = "global" ∧ p = 0xFF0E).
Proof.
  unfold Scopes. repeat match goal with
  | |- context [String.eqb s ?t] => destruct (String.eqb_spec s t); [intros [= <-]; subst; tauto|]
  end. done.
Qed.

(** Which of the scopes have a source-specific control group, and its
    prefix. *)
Definition has_ssm (scope : string) : bool := String.eqb scope "site" || String.eqb scope "global".

Lemma ssm_prefix s asm :
  Scopes s = Some asm →
  if has_ssm s then ∃ sc, ParseScope s = Some sc ∧ PrefixSSM sc = Some (asm + 0x30) else ParseScope s = None.
Proof.
  intros [[-> ->]|[[-> ->]|[[-> ->]|[-> ->]]]]%Scopes_names; simpl.
  - apply ssm_link.
  - apply ssm_site.
  - apply ssm_org.
  - apply ssm_global.
Qed.

(** The control-plane groups per compatibility mode, source mode and
    scope.  asm-only keeps the legacy prefix whatever the source mode; with
    any-source addressing every mode gives the legacy prefix alone; with
    source-specific addressing "derived" gives the FF3x prefix alone, and is
    an error where none exists, while "both" gives the legacy prefix first
    and then the FF3x one, or the legacy one alone where none exists. *)
Theorem ControlGroupPrefixes_spec mode scope asm :
  Scopes scope = Some asm →
  let ssm := EqualFold mode "ssm" in
  ControlGroupPrefixes "asm-only" mode scope = inr [asm] ∧
  ControlGroupPrefixes "both" mode scope = inr (if ssm && has_ssm scope then [asm; asm + 0x30] else [asm]) ∧
  ControlGroupPrefixes "derived" mode scope =
    (if ssm then (if has_ssm scope then inr [asm + 0x30] else inl (ErrDerivedScope scope)) else inr [asm]).
Proof.
  intros Hs ssm. pose proof (ssm_prefix scope asm Hs) as Hp. unfold ControlGroupPrefixes. rewrite Hs. fold ssm.
  split_and!; [done|..]; cbn [String.eqb Ascii.eqb Bool.eqb orb]; destruct ssm; simpl; rewrite ?Z.eqb_refl; try done.
  all: destruct (has_ssm scope); [destruct Hp as (sc & -> & ->)|rewrite Hp]; simpl; rewrite ?Z.eqb_refl; try done.
  by rewrite (proj2 (Z.eqb_neq _ _)) by lia.
Qed.

(** Upgrading a receiver can never stop it.  Any configuration that
    loads with the default compatibility mode has a beacon join list, it
    starts with the legacy group an un-upgraded sender uses, and it contains
    the source-specific group whenever the fabric is source-specific at a
    scope that has one. *)
Theorem loaded_receiver_joins_beacon f c :
  Load f = inr c → fl_Compat f = "both" →
  ∃ asm rest, Scopes (c_BeaconScope c) = Some asm ∧ ManifestBeaconGroupPrefixes c = inr (asm :: rest) ∧
    (c_SourceMode c = "ssm" → has_ssm (c_BeaconScope c) = true → asm + 0x30 ∈ rest).
Proof.
  intros E Hc. assert (Hcc : c_Compat c = fl_Compat f ∧ is_Some (Scopes (c_BeaconScope c))).
  { unfold Load in E. peel E. injection E as <-. split; [done|].
    by match goal with H : check_manifest _ = inr _ |- _ => apply check_manifest_ok in H as (_ & _ & ?) end. }
  destruct Hcc as [Hcc [asm Ha]]. unfold ManifestBeaconGroupPrefixes, ControlGroupPrefixes. rewrite Hcc, Hc, Ha.
  pose proof (ssm_prefix _ asm Ha) as Hp. cbn [String.eqb Ascii.eqb Bool.eqb orb]. exists asm.
  destruct (EqualFold (c_SourceMode c) "ssm") eqn:Em; simpl.
  - destruct (has_ssm (c_BeaconScope c)); [destruct Hp as (sc & -> & ->)|rewrite Hp]; simpl.
    + rewrite (proj2 (Z.eqb_neq _ _)) by lia. eexists. split_and!; [done..|]. intros _ _. left.
    + rewrite Z.eqb_refl. by eexists.
  - rewrite Z.eqb_refl. eexists. split_and!; [done..|]. intros Hm. by rewrite Hm in Em.
Qed.
End ControlGroups.

(** ** Witnesses *)

#[local] Instance toyOutside : Outside := {|
  ShardScope := Z;
  ParseScope s := if String.eqb s "site" then Some 5 else if String.eqb s "global" then Some 14 else None;
  PrefixSSM sc := Some (0xFF30 + sc);
  ParseIPv6 s := if String.prefix "fd" s then Some (zeros 16) else None;
  InterfaceByName s := bool_decide (s ∈ ["eth0"; "eth1"]);
  NumCPU := 4;
  Float := Z; float_0 := 0; ParseFloat := Atoi; ParseDuration := Atoi |}.

#[local] Instance toyOutsideLaws : OutsideLaws.
Proof. split; simpl; try done; by eexists. Qed.

(** An environment that sets a few variables. *)
Definition toy_env (key : string) : string :=
  default "" (list_to_map (M := gmap string string)
    [("TCP_LISTEN_PORT", "8725"); ("SUBTREE_LISTEN_PORT", "8726"); ("SHARD_BITS", "8"); ("MIN_POW_BITS", " 0x1d00ffff");
     ("SOURCE_MODE", "SSM"); ("BIND_SOURCE", "fd00::1"); ("MC_GROUP_ID", "000B"); ("NUM_WORKERS", "0");
     ("MULTICAST_IF", "eth0, eth1,"); ("TXID_DEDUP_REDIS_ADDR", "[::1]:6379"); ("STAMP_SOURCE", "no")] !! key).

Definition toy_flags : Flags := Eval vm_compute in default_flags toy_env.

Definition toy_config : Config :=
  Eval vm_compute in match Load toy_flags with
  | inr c => c
  | inl _ => mkConfig _ (fl_plain toy_flags) [] 0 0 0 0 0 "" "" 0 "" 0 0 0 [] "" "" [] 0 "" 0 "" 0 "" ""
  end.


Lemma ControlGroupPrefixes_spec_witness :
  ControlGroupPrefixes "both" "ssm" "site" = inr [0xFF05; 0xFF35].
Proof. exact (proj1 (proj2 (ControlGroupPrefixes_spec "ssm" "site" 0xFF05 eq_refl))). Defined.

Lemma loaded_receiver_joins_beacon_witness :
  ∃ asm rest, ManifestBeaconGroupPrefixes toy_config = inr (asm :: rest) ∧ asm + 0x30 ∈ rest.
Proof.
  destruct (loaded_receiver_joins_beacon toy_flags toy_config) as (asm & rest & _ & E & Hs).
  - reflexivity.
  - reflexivity.
  - exists asm, rest. split; [exact E|]. by apply Hs.
Defined.
