(* ===== verification/Manifest.v ===== *)
(** * The manifest consumer (manifest/applier.go, manifest/listener.go, main.go)

    The applier compares each adopted view with the previous one and fires
    the hooks of what changed; the hooks main installs request a restart or
    install a bridging engine; the listener feeds manifests to the registry.
    The registry and the evaluator are outside the repository: an adopted
    view is an input. *)

From S2P Require Import Prelude.

(** ** Restart requests *)

Record RestartRequest := mkRestart { rr_requested : bool; rr_reason : option string }.

(** [Request] by a single caller. *)
Definition Request (reason : string) (r : RestartRequest) : RestartRequest :=
  if rr_requested r then r else mkRestart true (Some reason).

Definition Requested (r : RestartRequest) : bool := rr_requested r.
Definition Reason (r : RestartRequest) : string := default "" (rr_reason r).

(** Callers racing: each is before its compare-and-swap, between winning it
    and storing its reason, or done. *)
Inductive Caller := Calling (reason : string) | Storing (reason : string) | Returned.

Inductive request_step : RestartRequest * list Caller → RestartRequest * list Caller → Prop :=
| StepWin i reason reqr cs :
    cs !! i = Some (Calling reason) → rr_requested reqr = false →
    request_step (reqr, cs) (mkRestart true (rr_reason reqr), <[i := Storing reason]> cs)
| StepLose i reason reqr cs :
    cs !! i = Some (Calling reason) → rr_requested reqr = true →
    request_step (reqr, cs) (reqr, <[i := Returned]> cs)
| StepStore i reason reqr cs :
    cs !! i = Some (Storing reason) →
    request_step (reqr, cs) (mkRestart (rr_requested reqr) (Some reason), <[i := Returned]> cs).

(** ** Adopted views *)

(** A successor: its width and transition time, and the fields that are
    compared but not read. *)
Record SuccessorView := mkSuccessor { sv_ShardBits : Z; sv_TransitionEpoch : Z; sv_rest : list Z }.

#[export] Instance SuccessorView_eq_dec : EqDecision SuccessorView.
Proof. solve_decision. Defined.

Record Adopted := mkAdopted {
  ad_ShardBits : Z; ad_SourceModeSSM : bool; ad_Successor : option SuccessorView;
  ad_Domains : gmap Z Z; ad_PilotsKnown : Z; ad_QuorumMet : gmap string bool;
  ad_DivergenceFields : list string }.

(** The zero value the applier starts from. *)
Definition noAdopted : Adopted := mkAdopted 0 false None ∅ 0 ∅ [].

(** The metrics of the manifest consumer. *)
Inductive ManifestEvent :=
| MSetPilotsKnown (n : Z) | MSetQuorumMetBits (bits : Z) | MSetReshardState (state : Z)
| MSetReshardWindowSeconds (n : Z) | MAdoption (field reason : string)
| MDivergence (field reason : string) | MReceived.

Definition quorum_bit (v : Adopted) (field : string) (k : Z) : Z :=
  if default false (ad_QuorumMet v !! field) then Z.shiftl 1 k else 0.

Definition publishMetrics (now : Z) (v : Adopted) : list ManifestEvent :=
  let bits := Z.lor (Z.lor (quorum_bit v "shard_bits" 0) (quorum_bit v "source_mode" 1)) (quorum_bit v "successor" 2) in
  let window := match ad_Successor v with Some s => sv_TransitionEpoch s - now | None => 0 end in
  let state := match ad_Successor v with Some _ => if 0 <? window then 1 else 2 | None => 0 end in
  [MSetPilotsKnown (ad_PilotsKnown v); MSetQuorumMetBits bits; MSetReshardState state; MSetReshardWindowSeconds window].

Definition reasonForChange (hadPrev : bool) : string := if hadPrev then "quorum-shift" else "bootstrap".

Record domainChange := mkDomainChange { dc_domain : Z; dc_prev : Z; dc_next : Z }.

Definition domain_bits (m : gmap Z Z) (id : Z) : Z := default 0 (m !! id).

(** [domainShardBitsChanges]: the loop over the object planes 0 to 0x0E. *)
Definition domainShardBitsChanges (prev next : gmap Z Z) : list domainChange :=
  omap (λ id, let pv := domain_bits prev id in let nv := domain_bits next id in
    if pv =? nv then None else Some (mkDomainChange id pv nv)) (seqZ 0 15).

(** ** The applier *)

Record Hooks (S : Type) := mkHooks {
  OnShardBitsChange : option (Z → Z → S → S);
  OnSourceModeChange : option (bool → bool → S → S);
  OnSuccessorChange : option (option SuccessorView → option SuccessorView → S → S);
  OnDomainShardBitsChange : option (Z → Z → Z → S → S) }.
Arguments OnShardBitsChange {S}. Arguments OnSourceModeChange {S}.
Arguments OnSuccessorChange {S}. Arguments OnDomainShardBitsChange {S}. Arguments mkHooks {S}.

Section Applier.
Context {S : Type} (h : Hooks S).

(** What one hook's check does: its metric, then the hook. *)
Definition fire (changed : bool) (evs : list ManifestEvent) (hook : S → S) (s : S) : S * list ManifestEvent :=
  if changed then (hook s, evs) else (s, []).

Definition fire_shard (prev next : Adopted) (s : S) : S * list ManifestEvent :=
  match OnShardBitsChange h with
  | None => (s, [])
  | Some f => fire (negb (ad_ShardBits prev =? ad_ShardBits next))
      [MAdoption "shard_bits" (reasonForChange (negb (ad_ShardBits prev =? 0)))]
      (f (ad_ShardBits prev) (ad_ShardBits next)) s
  end.

Definition fire_source (prev next : Adopted) (s : S) : S * list ManifestEvent :=
  match OnSourceModeChange h with
  | None => (s, [])
  | Some f => fire (negb (eqb (ad_SourceModeSSM prev) (ad_SourceModeSSM next)))
      [MAdoption "source_mode" (reasonForChange (0 <? ad_PilotsKnown prev))]
      (f (ad_SourceModeSSM prev) (ad_SourceModeSSM next)) s
  end.

Definition fire_successor (prev next : Adopted) (s : S) : S * list ManifestEvent :=
  match OnSuccessorChange h with
  | None => (s, [])
  | Some f => fire (negb (bool_decide (ad_Successor prev = ad_Successor next))) []
      (f (ad_Successor prev) (ad_Successor next)) s
  end.

Fixpoint fire_domains (f : Z → Z → Z → S → S) (ds : list domainChange) (s : S) : S * list ManifestEvent :=
  match ds with
  | [] => (s, [])
  | d :: ds =>
      let r := fire_domains f ds (f (dc_domain d) (dc_prev d) (dc_next d) s) in
      (r.1, MAdoption "domain_shard_bits" (reasonForChange (negb (dc_prev d =? 0))) :: r.2)
  end.

(** One tick of [Run], with the evaluation of the registry. *)
Definition applier_tick (now : Z) (prev next : Adopted) (s : S) : S * list ManifestEvent :=
  let a := fire_shard prev next s in
  let b := fire_source prev next a.1 in
  let c := fire_successor prev next b.1 in
  let d := match OnDomainShardBitsChange h with
           | None => (c.1, [])
           | Some f => fire_domains f (domainShardBitsChanges (ad_Domains prev) (ad_Domains next)) c.1
           end in
  (d.1, publishMetrics now next ++ a.2 ++ b.2 ++ c.2 ++ d.2 ++
    ((λ f, MDivergence f "peer-disagree") <$> ad_DivergenceFields next)).

(** [Run] over the views its ticks evaluate to. *)
Fixpoint applier_run (ticks : list (Z * Adopted)) (prev : Adopted) (s : S) : S * list ManifestEvent :=
  match ticks with
  | [] => (s, [])
  | (now, next) :: ticks =>
      let r := applier_tick now prev next s in
      let r' := applier_run ticks next r.1 in
      (r'.1, r.2 ++ r'.2)
  end.
End Applier.

(** ** The hooks main installs *)

(** What they act on: the restart request, the restart signal (a channel of
    one slot) and the forwarder's bridging engine, as the width and the
    transition time it is built from. *)
Record ProxyState := mkProxy {
  px_restart : RestartRequest; px_signal : bool; px_bridging : option (Z * Z) }.

Definition startState : ProxyState := mkProxy (mkRestart false None) false None.

Definition request_restart (reason : string) (s : ProxyState) : ProxyState :=
  mkProxy (Request reason (px_restart s)) true (px_bridging s).

Definition set_bridging (b : option (Z * Z)) (s : ProxyState) : ProxyState :=
  mkProxy (px_restart s) (px_signal s) b.

Definition main_hooks (liveResharding : bool) : Hooks ProxyState := {|
  OnShardBitsChange := Some (λ _ _ s, if liveResharding then s else request_restart "shard_bits change" s);
  OnSourceModeChange := Some (λ _ _ s, if liveResharding then s else request_restart "source_mode change" s);
  OnSuccessorChange :=
    if liveResharding then
      Some (λ _ after, set_bridging ((λ sv, (sv_ShardBits sv, sv_TransitionEpoch sv)) <$> after))
    else None;
  OnDomainShardBitsChange := Some (λ _ _ _ s, request_restart "domain_shard_bits change" s) |}.

(** ** The listener *)

Definition MsgTypeShardManifest : Z := 0x40.

Section Listener.
(** [frame.DecodeShardManifest], the address type of a source
    ([netip.AddrFromSlice]) and [Registry.Upsert] are outside. *)
Context {M Reg : Type} (DecodeShardManifest : bytes → option M) (AddrFromSlice : bytes → option bytes)
  (Upsert : bytes → M → Reg → Reg).

(** What a read of the socket gives: a datagram and its source address. *)
Definition listener_datagram (src data : bytes) (reg : Reg) : Reg * list ManifestEvent :=
  if Zlen data <? 7 then (reg, [])
  else if negb (byte_at 6 data =? MsgTypeShardManifest) then (reg, [])
  else
    match DecodeShardManifest data with
    | None => (reg, [])
    | Some m =>
        match AddrFromSlice src with
        | None => (reg, [])
        | Some a => (Upsert a m reg, [MReceived])
        end
    end.

(** One turn of [Start]'s loop: whether the context is cancelled when it is
    tested, and what the read then gives: nothing within two seconds, an
    error (with the context cancelled by then or not), or a datagram. *)
Inductive LRead := LTimeout | LError (cancelled : bool) | LDatagram (src data : bytes).
Record LTurn := mkLTurn { lt_cancelled : bool; lt_read : LRead }.

(** The loop; the result says whether it returned. *)
Fixpoint listener_loop (turns : list LTurn) (reg : Reg) (evs : list ManifestEvent) : bool * (Reg * list ManifestEvent) :=
  match turns with
  | [] => (false, (reg, evs))
  | t :: turns =>
      if lt_cancelled t then (true, (reg, evs))
      else match lt_read t with
           | LTimeout => listener_loop turns reg evs
           | LError cancelled => if cancelled then (true, (reg, evs)) else listener_loop turns reg evs
           | LDatagram src data =>
               let r := listener_datagram src data reg in listener_loop turns r.1 (evs ++ r.2)
           end
  end.
End Listener.

(** The groups to join. *)
Definition listener_groups {A} (group : A) (groups : list A) : list A :=
  match groups with [] => [group] | _ => groups end.

Definition posture {A} (sources : list A) : string := match sources with [] => "asm" | _ => "ssm" end.
