(* ===== verification/ManifestProps.v ===== *)
(** * Properties of the manifest consumer *)

From Stdlib Require Import Sorting.Sorted.
From stdpp Require Import relations.
From S2P Require Import Prelude Manifest.

(** ** Racing restart requests *)

Definition storing (c : Caller) : bool := match c with Storing _ => true | _ => false end.
Definition reason_of (c : Caller) : option string :=
  match c with Calling r | Storing r => Some r | Returned => None end.

(** The number of callers that have won and not yet stored. *)
Definition winners (cs : list Caller) : nat := length (filter (λ c, storing c = true) cs).

Definition race_ok (rs : list string) (st : RestartRequest * list Caller) : Prop :=
  (winners st.2 + (match rr_reason st.1 with Some _ => 1 | None => 0 end) = (if rr_requested st.1 then 1 else 0))%nat ∧
  (∀ c r, c ∈ st.2 → reason_of c = Some r → r ∈ rs) ∧
  (∀ r, rr_reason st.1 = Some r → r ∈ rs) ∧
  (rr_requested st.1 = false → Forall (λ c, is_Some (reason_of c)) st.2).

Lemma winners_insert i c c' cs :
  cs !! i = Some c →
  (winners (<[i := c']> cs) + (if storing c then 1 else 0) = winners cs + (if storing c' then 1 else 0))%nat.
Proof.
  unfold winners. revert i. induction cs as [|x cs IH]; intros [|i]; simpl; try done.
  - intros [= ->]. rewrite !filter_cons. destruct (storing c) eqn:E1, (storing c') eqn:E2;
      repeat case_decide; simpl; (congruence || lia).
  - intros Hi. specialize (IH i Hi). rewrite !filter_cons. repeat case_decide; simpl; lia.
Qed.

Lemma elem_insert_caller {A} (i : nat) (c x : A) (cs : list A) : x ∈ <[i := c]> cs → x = c ∨ x ∈ cs.
Proof.
  intros [j Hj]%list_elem_of_lookup. apply list_lookup_insert_Some in Hj as [(_ & -> & _)|[_ Hj]]; [by left|].
  right. by eapply list_elem_of_lookup_2.
Qed.

Lemma race_step rs st st' : request_step st st' → race_ok rs st → race_ok rs st'.
Proof.
  intros Hs (Hw & Hin & Hr & Hc). destruct Hs as [i r q cs Hi Hq|i r q cs Hi Hq|i r q cs Hi]; cbn [fst snd] in *.
  - pose proof (winners_insert i _ (Storing r) cs Hi) as Hn. rewrite Hq in Hw. simpl in *. split_and!; simpl; try done.
    + destruct (rr_reason q); simpl in *; lia.
    + intros c r' [-> | Hc']%elem_insert_caller; [|eauto]. intros [= <-]. eapply Hin; [by eapply list_elem_of_lookup_2|done].
  - pose proof (winners_insert i _ Returned cs Hi) as Hn. simpl in *. split_and!; simpl; try done.
    + destruct (rr_reason q); simpl in *; rewrite Hq in *; lia.
    + intros c r' [-> | Hc']%elem_insert_caller; [done|eauto].
    + congruence.
  - pose proof (winners_insert i _ Returned cs Hi) as Hn. simpl in *.
    assert (Hwin : (1 ≤ winners cs)%nat) by lia. split_and!; simpl.
    + destruct (rr_reason q), (rr_requested q); simpl in *; lia.
    + intros c r' [-> | Hc']%elem_insert_caller; [done|eauto].
    + intros r' [= <-]. eapply Hin; [by eapply list_elem_of_lookup_2|done].
    + intros Hq. rewrite Hq in Hw. destruct (rr_reason q); lia.
Qed.

Lemma race_start rs : race_ok rs (mkRestart false None, Calling <$> rs).
Proof.
  split_and!; cbn [fst snd rr_requested rr_reason]; try done.
  - assert (Hw : winners (Calling <$> rs) = 0%nat); [|by rewrite Hw].
    unfold winners. induction rs as [|r rs IH]; [done|]. rewrite fmap_cons, filter_cons_False by done. exact IH.
  - intros c r (r' & -> & Hr)%list_elem_of_fmap [= <-]. done.
  - intros _. rewrite Forall_fmap. apply Forall_true. by eexists.
Qed.

Lemma race_reach rs st st' : rtc request_step st st' → race_ok rs st → race_ok rs st'.
Proof. induction 1; eauto using race_step. Qed.

Lemma reason_sticks rs st st' r :
  rtc request_step st st' → race_ok rs st → rr_reason st.1 = Some r → rr_reason st'.1 = Some r.
Proof.
  induction 1 as [|x y z Hxy Hyz IH]; intros Hx Hr; [done|]. apply IH; [by eapply race_step|].
  destruct Hx as (Hw & _). destruct Hxy as [i r' q cs Hi Hq|i r' q cs Hi Hq|i r' q cs Hi]; cbn [fst snd] in *; try done.
  pose proof (winners_insert i _ Returned cs Hi). simpl in *. rewrite Hr in Hw. destruct (rr_requested q); lia.
Qed.

(** Racing restart requests settle on one reason.  However any number of
    callers interleave, the reason recorded is one of theirs, it never
    changes once recorded, it is recorded only if a restart was requested,
    and once all callers have returned (there being one) the restart is
    requested with a reason. *)
Theorem restart_reason_settles rs st :
  rtc request_step (mkRestart false None, Calling <$> rs) st →
  (∀ r, rr_reason st.1 = Some r → r ∈ rs ∧ Requested st.1 = true) ∧
  (∀ st' r, rtc request_step st st' → rr_reason st.1 = Some r → rr_reason st'.1 = Some r) ∧
  (rs ≠ [] → Forall (λ c, c = Returned) st.2 → length st.2 = length rs →
     Requested st.1 = true ∧ Reason st.1 ∈ rs).
Proof.
  intros Hreach. pose proof (race_reach rs _ _ Hreach (race_start rs)) as Hok. split_and!.
  - intros r Hr. destruct Hok as (Hw & _ & Hin & _). split; [auto|]. unfold Requested. rewrite Hr in Hw.
    destruct (rr_requested st.1); [done|lia].
  - intros st' r Hst Hr. by eapply (reason_sticks rs st).
  - intros Hne Hall Hlen. destruct Hok as (Hw & _ & Hin & Hc).
    assert (H0 : winners st.2 = 0%nat).
    { unfold winners. clear -Hall. induction Hall as [|c cs -> Hcs IH]; [done|]. by rewrite filter_cons_False by done. }
    unfold Requested, Reason. destruct (rr_requested st.1) eqn:Eq.
    + split; [done|]. destruct (rr_reason st.1) as [r|] eqn:Er; [by apply Hin|lia].
    + specialize (Hc eq_refl). destruct st.2 as [|c cs]; [by destruct rs|].
      apply list.Forall_cons in Hc as [[x Hx] _]. apply list.Forall_cons in Hall as [-> _]. done.
Qed.

(** ** Per-domain changes *)

Definition domain_change (prev next : gmap Z Z) (id : Z) : option domainChange :=
  let pv := domain_bits prev id in let nv := domain_bits next id in
  if pv =? nv then None else Some (mkDomainChange id pv nv).

Lemma omap_domain_sorted prev next l :
  StronglySorted Z.lt l → StronglySorted Z.lt (dc_domain <$> omap (domain_change prev next) l).
Proof.
  intros Hl. induction Hl as [|x l Hl IH Hx]; [constructor|]. cbn [omap list_omap]. unfold domain_change at 1. cbv zeta.
  destruct (_ =? _); [done|]. rewrite fmap_cons. constructor; [done|]. rewrite list.Forall_forall in Hx |- *.
  intros y (c & -> & (z & Hz & Ec)%list_elem_of_omap)%list_elem_of_fmap. unfold domain_change in Ec.
  destruct (_ =? _); [done|]. injection Ec as <-. by apply Hx.
Qed.

(** The per-domain diff is exact: it reports, in ascending order and
    once, exactly the object planes (0 to 0x0E) whose adopted width differs
    between the two views, an absent plane counting as width zero. *)
Theorem domainShardBitsChanges_spec prev next :
  (∀ d p n, mkDomainChange d p n ∈ domainShardBitsChanges prev next ↔
     0 ≤ d ≤ 0x0E ∧ p = domain_bits prev d ∧ n = domain_bits next d ∧ p ≠ n) ∧
  StronglySorted Z.lt (dc_domain <$> domainShardBitsChanges prev next).
Proof.
  change (domainShardBitsChanges prev next) with (omap (domain_change prev next) (seqZ 0 15)). split.
  - intros d p n. rewrite list_elem_of_omap. split.
    + intros (x & Hx%elem_of_seqZ & Ec). unfold domain_change in Ec. cbv zeta in Ec.
      destruct (Z.eqb_spec (domain_bits prev x) (domain_bits next x)); [done|]. injection Ec as <- <- <-. split_and!; try done; lia.
    + intros (Hd & -> & -> & Hne). exists d. split; [apply elem_of_seqZ; lia|]. unfold domain_change. cbv zeta.
      by rewrite (proj2 (Z.eqb_neq _ _)).
  - apply omap_domain_sorted. vm_compute. repeat constructor.
Qed.

(** ** The hooks over a run *)

Inductive HookCall :=
| CallShard (prev next : Z) | CallSource (prev next : bool)
| CallSuccessor (prev next : option SuccessorView) | CallDomain (d prev next : Z).

(** Hooks that write down their calls. *)
Definition log_hooks : Hooks (list HookCall) := {|
  OnShardBitsChange := Some (λ p n l, l ++ [CallShard p n]);
  OnSourceModeChange := Some (λ p n l, l ++ [CallSource p n]);
  OnSuccessorChange := Some (λ p n l, l ++ [CallSuccessor p n]);
  OnDomainShardBitsChange := Some (λ d p n l, l ++ [CallDomain d p n]) |}.

(** The calls of one tick. *)
Definition tick_calls (prev next : Adopted) : list HookCall :=
  (if ad_ShardBits prev =? ad_ShardBits next then [] else [CallShard (ad_ShardBits prev) (ad_ShardBits next)]) ++
  (if eqb (ad_SourceModeSSM prev) (ad_SourceModeSSM next) then [] else [CallSource (ad_SourceModeSSM prev) (ad_SourceModeSSM next)]) ++
  (if bool_decide (ad_Successor prev = ad_Successor next) then [] else [CallSuccessor (ad_Successor prev) (ad_Successor next)]) ++
  ((λ c, CallDomain (dc_domain c) (dc_prev c) (dc_next c)) <$> domainShardBitsChanges (ad_Domains prev) (ad_Domains next)).

Fixpoint run_calls (ticks : list (Z * Adopted)) (prev : Adopted) : list HookCall :=
  match ticks with
  | [] => []
  | (_, next) :: ticks => tick_calls prev next ++ run_calls ticks next
  end.

Lemma fire_domains_log ds l :
  (fire_domains (λ d p n l, l ++ [CallDomain d p n]) ds l).1 =
  l ++ ((λ c, CallDomain (dc_domain c) (dc_prev c) (dc_next c)) <$> ds).
Proof.
  revert l. induction ds as [|d ds IH]; intros l; [by rewrite app_nil_r|]. simpl. rewrite IH. by rewrite <- app_assoc.
Qed.

Lemma applier_tick_log now prev next l :
  (applier_tick log_hooks now prev next l).1 = l ++ tick_calls prev next.
Proof.
  unfold applier_tick. cbv zeta. cbn [fst snd log_hooks OnDomainShardBitsChange]. rewrite fire_domains_log.
  unfold fire_shard, fire_source, fire_successor, fire, tick_calls. cbn [log_hooks OnShardBitsChange OnSourceModeChange OnSuccessorChange].
  destruct (_ =? _), (eqb _ _), (bool_decide _); cbn [negb fst app]; rewrite <- ?app_assoc; done.
Qed.

Lemma applier_run_log ticks prev l : (applier_run log_hooks ticks prev l).1 = l ++ run_calls ticks prev.
Proof.
  revert prev l. induction ticks as [|[now next] ticks IH]; intros prev l; [by rewrite app_nil_r|].
  cbn [applier_run run_calls fst]. by rewrite IH, applier_tick_log, app_assoc.
Qed.

(** A sequence of transitions from [a] to [b], each a real change and each
    starting where the last one ended. *)
Fixpoint chain {A} (a : A) (l : list (A * A)) (b : A) : Prop :=
  match l with
  | [] => a = b
  | (p, n) :: l => p = a ∧ p ≠ n ∧ chain n l b
  end.

Lemma chain_app {A} (a b c : A) l l' : chain a l b → chain b l' c → chain a (l ++ l') c.
Proof.
  revert a. induction l as [|[p n] l IH]; intros a; simpl; [by intros ->|]. intros (-> & Hne & Hl) Hl'. auto.
Qed.

Definition shard_call (c : HookCall) : option (Z * Z) := match c with CallShard p n => Some (p, n) | _ => None end.
Definition source_call (c : HookCall) : option (bool * bool) := match c with CallSource p n => Some (p, n) | _ => None end.
Definition successor_call (c : HookCall) : option (option SuccessorView * option SuccessorView) :=
  match c with CallSuccessor p n => Some (p, n) | _ => None end.
Definition domain_call (d : Z) (c : HookCall) : option (Z * Z) :=
  match c with CallDomain d' p n => if decide (d' = d) then Some (p, n) else None | _ => None end.

Lemma omap_none {A B} (f : A → option B) l : (∀ x, x ∈ l → f x = None) → omap f l = [].
Proof.
  induction l as [|x l IH]; intros Hf; [done|]. cbn [omap list_omap]. rewrite (Hf x) by left. apply IH. intros. apply Hf. by right.
Qed.

(** The calls for domain [d] of one tick. *)
Lemma domain_calls prev next d l :
  NoDup l →
  omap (domain_call d) ((λ c, CallDomain (dc_domain c) (dc_prev c) (dc_next c)) <$> omap (domain_change prev next) l) =
  if decide (d ∈ l) then
    (if domain_bits prev d =? domain_bits next d then [] else [(domain_bits prev d, domain_bits next d)])
  else [].
Proof.
  intros Hnd. induction Hnd as [|x l Hx Hnd IH]; [done|]. cbn [omap list_omap].
  destruct (decide (x = d)) as [->|Hne].
  - rewrite decide_True by left. rewrite decide_False in IH by done. unfold domain_change at 1. cbv zeta.
    destruct (_ =? _); [done|]. rewrite fmap_cons. cbn. rewrite decide_True by done. f_equal. exact IH.
  - assert (Hin : d ∈ x :: l ↔ d ∈ l) by (rewrite elem_of_cons; naive_solver).
    transitivity (omap (domain_call d) ((λ c, CallDomain (dc_domain c) (dc_prev c) (dc_next c)) <$>
      omap (domain_change prev next) l)).
    + destruct (domain_change prev next x) as [c|] eqn:Ec; [|done]. unfold domain_change in Ec. cbv zeta in Ec.
      destruct (domain_bits prev x =? domain_bits next x); [done|]. injection Ec as <-. rewrite fmap_cons. cbn. by rewrite decide_False.
    + rewrite IH. destruct (decide (d ∈ l)), (decide (d ∈ x :: l)); tauto.
Qed.

(** The view a run ends with. *)
Definition final_view (ticks : list (Z * Adopted)) (prev : Adopted) : Adopted := default prev (snd <$> list.last ticks).

Lemma final_view_cons now next ticks prev : final_view ((now, next) :: ticks) prev = final_view ticks next.
Proof. unfold final_view. rewrite list.last_cons. by destruct (list.last ticks). Qed.

(** Chaining over a run, from chaining over a tick. *)
Lemma run_chain {A} (call : HookCall → option (A * A)) (view : Adopted → A) ticks prev :
  (∀ p n, chain (view p) (omap call (tick_calls p n)) (view n)) →
  chain (view prev) (omap call (run_calls ticks prev)) (view (final_view ticks prev)).
Proof.
  intros Htick. revert prev. induction ticks as [|[now next] ticks IH]; intros prev; [done|].
  cbn [run_calls]. rewrite omap_app. eapply chain_app; [apply Htick|]. by rewrite final_view_cons.
Qed.

Lemma tick_chains p n :
  chain (ad_ShardBits p) (omap shard_call (tick_calls p n)) (ad_ShardBits n) ∧
  chain (ad_SourceModeSSM p) (omap source_call (tick_calls p n)) (ad_SourceModeSSM n) ∧
  chain (ad_Successor p) (omap successor_call (tick_calls p n)) (ad_Successor n) ∧
  (∀ d, 0 ≤ d ≤ 0x0E → chain (domain_bits (ad_Domains p) d) (omap (domain_call d) (tick_calls p n)) (domain_bits (ad_Domains n) d)).
Proof.
  assert (Hd : ∀ {B} (f : HookCall → option B), (∀ d p n, f (CallDomain d p n) = None) →
    omap f ((λ c, CallDomain (dc_domain c) (dc_prev c) (dc_next c)) <$> domainShardBitsChanges (ad_Domains p) (ad_Domains n)) = []).
  { intros B f Hf. apply omap_none. by intros x (c & -> & _)%list_elem_of_fmap. }
  unfold tick_calls. split_and!; [..|intros d Hr]; rewrite !omap_app.
  1-3: rewrite Hd by done.
  - destruct (Z.eqb_spec (ad_ShardBits p) (ad_ShardBits n)), (eqb _ _), (bool_decide _); simpl; auto.
  - destruct (_ =? _), (eqb (ad_SourceModeSSM p) (ad_SourceModeSSM n)) eqn:E, (bool_decide _); simpl; auto.
    all: first [by apply eqb_prop in E | split_and!; [done| |done]; intros E'; by rewrite E', eqb_reflx in E].
  - destruct (_ =? _), (eqb _ _); case_bool_decide; simpl; auto.
  - change (domainShardBitsChanges (ad_Domains p) (ad_Domains n))
      with (omap (domain_change (ad_Domains p) (ad_Domains n)) (seqZ 0 15)).
    rewrite domain_calls by apply NoDup_seqZ. rewrite decide_True by (apply elem_of_seqZ; lia).
    destruct (_ =? ad_ShardBits n), (eqb _ _), (bool_decide _); simpl;
      destruct (Z.eqb_spec (domain_bits (ad_Domains p) d) (domain_bits (ad_Domains n) d)); simpl; auto.
Qed.


(** ** The hooks of main *)

Definition bridging_of (v : Adopted) : option (Z * Z) :=
  (λ sv, (sv_ShardBits sv, sv_TransitionEpoch sv)) <$> ad_Successor v.

Lemma main_domains live ds s :
  let s' := (fire_domains (λ _ _ _ s, request_restart "domain_shard_bits change" s) ds s).1 in
  px_bridging s' = px_bridging s ∧ (live = true → ds = [] → s' = s).
Proof.
  cbv zeta. revert s. induction ds as [|d ds IH]; intros s; [done|]. split; [|done]. simpl. by rewrite (proj1 (IH _)).
Qed.

Lemma main_tick_bridging now prev next s :
  px_bridging s = bridging_of prev →
  px_bridging (applier_tick (main_hooks true) now prev next s).1 = bridging_of next.
Proof.
  intros Hs. unfold applier_tick. cbv zeta. cbn [fst main_hooks OnDomainShardBitsChange].
  rewrite (proj1 (main_domains true _ _)). unfold fire_successor, fire. cbn [main_hooks OnSuccessorChange].
  case_bool_decide as E; cbn [negb fst]; [|done].
  unfold fire_source, fire_shard, fire. cbn [main_hooks OnSourceModeChange OnShardBitsChange].
  unfold bridging_of in *. rewrite <- E, <- Hs. by repeat case_match.
Qed.

(** Live resharding follows the adopted successor.  In live-resharding
    mode, after any sequence of evaluations, the bridging engine is exactly
    the one of the successor in the view last adopted, and there is none when
    that view has none: the forwarder is set to emit into both shard layouts
    precisely while a successor is adopted. *)
Theorem bridging_tracks_successor ticks :
  px_bridging (applier_run (main_hooks true) ticks noAdopted startState).1 =
  bridging_of (final_view ticks noAdopted).
Proof.
  assert (Hg : ∀ prev s, px_bridging s = bridging_of prev →
    px_bridging (applier_run (main_hooks true) ticks prev s).1 = bridging_of (final_view ticks prev)).
  { induction ticks as [|[now next] ticks IH]; intros prev s Hs; [done|]. cbn [applier_run fst].
    rewrite (IH next) by (by eapply main_tick_bridging). by rewrite final_view_cons. }
  by apply Hg.
Qed.

Lemma main_tick_live now prev next s :
  let s' := (applier_tick (main_hooks true) now prev next s).1 in
  domainShardBitsChanges (ad_Domains prev) (ad_Domains next) = [] →
  px_restart s' = px_restart s ∧ px_signal s' = px_signal s.
Proof.
  cbv zeta. intros Hd. unfold applier_tick. cbv zeta. cbn [fst main_hooks OnDomainShardBitsChange]. rewrite Hd. cbn [fire_domains fst].
  unfold fire_successor, fire_source, fire_shard, fire. cbn [main_hooks OnSuccessorChange OnSourceModeChange OnShardBitsChange].
  by repeat case_match.
Qed.

(** The object-plane widths adopted by a run never change. *)
Fixpoint domains_steady (ticks : list (Z * Adopted)) (prev : Adopted) : Prop :=
  match ticks with
  | [] => True
  | (_, next) :: ticks => domainShardBitsChanges (ad_Domains prev) (ad_Domains next) = [] ∧ domains_steady ticks next
  end.

(** Live resharding never finishes by itself.  In live-resharding mode no
    sequence of evaluations, whatever widths, source modes and successors it
    adopts and clears, requests a restart unless an object-plane width
    changes: the bridging engine is dropped with the successor, and the
    process goes on with the engine it started with. *)
Theorem live_resharding_never_restarts ticks :
  domains_steady ticks noAdopted →
  let s := (applier_run (main_hooks true) ticks noAdopted startState).1 in
  Requested (px_restart s) = false ∧ px_signal s = false.
Proof.
  assert (Hg : ∀ prev s, domains_steady ticks prev →
    let s' := (applier_run (main_hooks true) ticks prev s).1 in px_restart s' = px_restart s ∧ px_signal s' = px_signal s).
  { induction ticks as [|[now next] ticks IH]; intros prev s Hd; [done|]. destruct Hd as [H1 H2]. cbn [applier_run fst].
    destruct (IH next (applier_tick (main_hooks true) now prev next s).1 H2) as [-> ->]. by apply main_tick_live. }
  intros Hd. destruct (Hg noAdopted startState Hd) as [H1 H2]. cbv zeta in *. unfold Requested. by rewrite H1, H2.
Qed.

(** In the default mode the first adoption already asks for a restart.
    The applier starts from the zero view, so the first evaluation that
    adopts any shard width reports a change from width 0, and main's hook
    requests a restart even when the adopted width is the one the proxy is
    running with. *)
Theorem first_adoption_requests_restart now v :
  ad_ShardBits v ≠ 0 →
  let s := (applier_run (main_hooks false) [(now, v)] noAdopted startState).1 in
  Requested (px_restart s) = true ∧ Reason (px_restart s) = "shard_bits change" ∧ px_signal s = true.
Proof.
  intros Hv. cbn [applier_run fst]. unfold applier_tick. cbv zeta. cbn [fst main_hooks OnDomainShardBitsChange].
  assert (Hk : ∀ ds s, px_restart s = mkRestart true (Some "shard_bits change") → px_signal s = true →
    let s' := (fire_domains (λ _ _ _ s, request_restart "domain_shard_bits change" s) ds s).1 in
    px_restart s' = mkRestart true (Some "shard_bits change") ∧ px_signal s' = true).
  { induction ds as [|d ds IH]; intros s H1 H2; [done|]. cbn [fire_domains fst]. apply IH; [|done]. simpl. by rewrite H1. }
  match goal with |- context [fire_domains _ ?ds ?s0] => destruct (Hk ds s0) as [Hr Hs] end.
  - unfold fire_successor, fire_source, fire_shard, fire.
    cbn [main_hooks OnSuccessorChange OnSourceModeChange OnShardBitsChange fst ad_ShardBits noAdopted].
    rewrite (proj2 (Z.eqb_neq 0 _)) by done. cbn. by case_match.
  - unfold fire_successor, fire_source, fire_shard, fire.
    cbn [main_hooks OnSuccessorChange OnSourceModeChange OnShardBitsChange fst ad_ShardBits noAdopted].
    rewrite (proj2 (Z.eqb_neq 0 _)) by done. cbn. by case_match.
  - unfold Requested, Reason. by rewrite Hr.
Qed.

(** ** Witnesses *)

Lemma restart_reason_settles_witness :
  Requested (mkRestart true (Some "b")) = true ∧ Reason (mkRestart true (Some "b")) ∈ ["a"; "b"].
Proof.
  assert (Hr : rtc request_step (mkRestart false None, Calling <$> ["a"; "b"]) (mkRestart true (Some "b"), [Returned; Returned])).
  { eapply rtc_l; [by apply (StepWin 1 "b")|]. eapply rtc_l; [by apply (StepLose 0 "a")|].
    eapply rtc_l; [by apply (StepStore 1 "b")|]. apply rtc_refl. }
  destruct (restart_reason_settles ["a"; "b"] _ Hr) as (_ & _ & Hf). apply Hf; [discriminate|by repeat constructor|reflexivity].
Defined.

Lemma live_resharding_never_restarts_witness :
  let v := mkAdopted 8 false (Some (mkSuccessor 9 100 [])) ∅ 2 ∅ [] in
  let w := mkAdopted 9 true None ∅ 2 ∅ [] in
  let s := (applier_run (main_hooks true) [(0, v); (1, w)] noAdopted startState).1 in
  px_signal s = false.
Proof. intros v w. apply (live_resharding_never_restarts [(0, v); (1, w)]). repeat split. Defined.

Lemma first_adoption_requests_restart_witness :
  let s := (applier_run (main_hooks false) [(0, mkAdopted 8 false None ∅ 2 ∅ [])] noAdopted startState).1 in
  Reason (px_restart s) = "shard_bits change".
Proof. apply (first_adoption_requests_restart 0 (mkAdopted 8 false None ∅ 2 ∅ [])). discriminate. Defined.

(** ** The listener *)

Section Listener.
Context {M Reg : Type} (Decode : bytes → option M) (AddrOf : bytes → option bytes) (Upsert : bytes → M → Reg → Reg).

(** The manifest a datagram carries, with its sender: at least a header, the
    manifest type, a body that decodes, and a source address. *)
Definition manifest_of (src data : bytes) : option (bytes * M) :=
  if (7 <=? Zlen data) && (byte_at 6 data =? MsgTypeShardManifest)
  then m ← Decode data; a ← AddrOf src; Some (a, m) else None.

(** Whether a turn ends the loop, and the turns before that. *)
Definition ends (t : LTurn) : bool :=
  lt_cancelled t || match lt_read t with LError c => c | _ => false end.

Fixpoint served (turns : list LTurn) : list (bytes * M) :=
  match turns with
  | [] => []
  | t :: turns =>
      if ends t then []
      else match lt_read t with
           | LDatagram src data => option_list (manifest_of src data) ++ served turns
           | _ => served turns
           end
  end.

Definition upserts (ms : list (bytes * M)) (reg : Reg) : Reg := fold_left (λ r am, Upsert am.1 am.2 r) ms reg.

Lemma listener_datagram_spec src data reg :
  listener_datagram Decode AddrOf Upsert src data reg =
  (upserts (option_list (manifest_of src data)) reg, replicate (length (option_list (manifest_of src data))) MReceived).
Proof.
  unfold listener_datagram, manifest_of. rewrite Z.ltb_antisym. destruct (7 <=? Zlen data); [|done]. cbn [negb andb].
  destruct (byte_at 6 data =? MsgTypeShardManifest); [|done]. cbn [negb].
  destruct (Decode data) as [m|]; [|done]. cbn. by destruct (AddrOf src).
Qed.

(** The listener registers exactly the manifests it receives.  Until the
    context is cancelled, every well-formed manifest is upserted under its
    sender, in order, and counted once; short datagrams, other message types,
    undecodable bodies, timeouts and read errors change nothing and do not
    stop the loop; and the loop returns at the first turn that finds the
    context cancelled. *)
Theorem listener_registers_manifests turns reg evs :
  listener_loop Decode AddrOf Upsert turns reg evs =
  (existsb ends turns, (upserts (served turns) reg, evs ++ replicate (length (served turns)) MReceived)).
Proof.
  revert reg evs. induction turns as [|[c rd] turns IH]; intros reg evs; cbn [listener_loop served existsb].
  { cbn. by rewrite app_nil_r. }
  destruct c; [cbn; by rewrite app_nil_r|]. cbn [lt_cancelled lt_read].
  destruct rd as [|[]|src data]; [by rewrite IH|cbn; by rewrite app_nil_r|by rewrite IH|].
  rewrite listener_datagram_spec. cbv zeta. cbn [fst snd]. rewrite IH.
  change (ends (mkLTurn false (LDatagram src data))) with false. cbn [orb]. do 2 f_equal.
  - unfold upserts. by rewrite fold_left_app.
  - by rewrite length_app, replicate_add, app_assoc.
Qed.
End Listener.
