(* ===== verification/Latstamp.v ===== *)
(** * Latency stamps (cmd/internal/latstamp)

    The stamp perf-test writes at the head of a payload and latency-sink
    reads back: magic, send time, sequence number. *)

From S2P Require Import Prelude.

(** "1BSVLAT1". *)
Definition Magic : bytes := [0x31; 0x42; 0x53; 0x56; 0x4C; 0x41; 0x54; 0x31].
Definition Size : nat := 20.

(** A 64-bit two's complement integer from its unsigned bits. *)
Definition s64 (x : Z) : Z := if x <? 2 ^ 63 then x else x - 2 ^ 64.

(** [Put]: [None] when the buffer is too short. *)
Definition Put (p : bytes) (txNanos seq : Z) : option bytes :=
  if (length p <? Size)%nat then None
  else Some (Magic ++ be_put 8 (u64 txNanos) ++ be_put 4 (u32 seq) ++ drop Size p).

Definition Get (p : bytes) : option (Z * Z) :=
  if (length p <? Size)%nat || negb (bool_decide (take 8 p = Magic)) then None
  else Some (s64 (be_get (slice 8 16 p)), be_get (slice 16 20 p)).

(** [bytes.Index] of the magic. *)
Fixpoint Index (b : bytes) : option nat :=
  if bool_decide (take 8 b = Magic) then Some O
  else match b with [] => None | _ :: b => S <$> Index b end.

Definition Scan (b : bytes) : option (Z * Z) :=
  i ← Index b;
  if (length b <? i + Size)%nat then None else Get (drop i b).

(** ** Round trip *)

Lemma Index_first pre b :
  take 8 b = Magic → (∀ i, (i < length pre)%nat → take 8 (drop i (pre ++ b)) ≠ Magic) → Index (pre ++ b) = Some (length pre).
Proof.
  intros Hb. induction pre as [|x pre IH]; intros Hn.
  - cbn [app]. destruct b; [done|]. cbn [Index]. by rewrite bool_decide_true.
  - cbn [app Index]. rewrite bool_decide_false by (specialize (Hn 0%nat); simpl in Hn; apply Hn; lia).
    rewrite IH; [done|]. intros i Hi. apply (Hn (S i)). simpl. lia.
Qed.

Lemma be_put_lengths t s rest :
  slice 8 16 (Magic ++ be_put 8 t ++ be_put 4 s ++ rest) = be_put 8 t ∧
  slice 16 20 (Magic ++ be_put 8 t ++ be_put 4 s ++ rest) = be_put 4 s.
Proof. done. Qed.

(** A stamp is read back as written.  A payload of at least the stamp's
    size takes any 64-bit time and 32-bit sequence number; [Get] at its head
    returns exactly them, the bytes after the stamp are untouched, and [Scan]
    finds the stamp behind any prefix in which the magic does not occur
    earlier. *)
Theorem latstamp_roundtrip p t s pre :
  (Size ≤ length p)%nat → - 2 ^ 63 ≤ t < 2 ^ 63 → 0 ≤ s < 2 ^ 32 →
  ∃ p', Put p t s = Some p' ∧ Get p' = Some (t, s) ∧ length p' = length p ∧ drop Size p' = drop Size p ∧
    ((∀ i, (i < length pre)%nat → take 8 (drop i (pre ++ p')) ≠ Magic) → Scan (pre ++ p') = Some (t, s)).
Proof.
  intros Hl Ht Hs. unfold Put. rewrite (proj2 (Nat.ltb_ge _ _)) by done. eexists. split; [reflexivity|].
  set (p' := Magic ++ _). assert (Hlen : length p' = length p).
  { unfold p'. rewrite !length_app, !length_be_put, length_drop. unfold Size in *. simpl. lia. }
  assert (Hget : Get p' = Some (t, s)).
  { unfold Get. rewrite Hlen, (proj2 (Nat.ltb_ge _ _)) by done. rewrite bool_decide_true by done. cbn [orb negb].
    destruct (be_put_lengths (u64 t) (u32 s) (drop Size p)) as [E1 E2].
    fold p' in E1, E2. rewrite E1, E2, !be_get_put. f_equal. f_equal.
    - unfold s64. change (8 * Z.of_nat 8) with 64. unfold u64. rewrite Z.mod_mod by done.
      destruct (Z.ltb_spec (t mod 2 ^ 64) (2 ^ 63)); zlia.
    - change (8 * Z.of_nat 4) with 32. unfold u32. rewrite Z.mod_mod by done. by apply Z.mod_small. }
  split_and!; [done|done|done|]. intros Hpre. unfold Scan. rewrite (Index_first pre p') by done.
  cbn [mbind option_bind]. rewrite length_app, (proj2 (Nat.ltb_ge _ _)) by lia. by rewrite drop_app_length.
Qed.

Lemma latstamp_roundtrip_witness :
  ∃ p', Put (zeros 24) (-5) 7 = Some p' ∧ Get p' = Some (-5, 7).
Proof.
  destruct (latstamp_roundtrip (zeros 24) (-5) 7 []) as (p' & E & G & _); [unfold Size; simpl; lia|lia|lia|].
  exists p'. split; [exact E|exact G].
Defined.
