(* ===== verification/Recorder.v ===== *)
(** * The metrics recorder (metrics/metrics.go: Recorder)

    What the recorder keeps itself: the per-interface handles and flow
    counters of the hot path, the coalescing series cache, the readiness
    flags and the manifest gauges.  A measurement handed to the Prometheus or
    OpenTelemetry client libraries is a [Sample] (the instrument, its labels,
    the amount), appended to [r_samples]: aggregating and exporting samples is
    the libraries' business.  A method that would panic returns [None]. *)

From stdpp Require Import pretty.
From S2P Require Import Prelude Common.

(** ** Instruments and samples *)

(** A metric vector: its name and label names.  [WithLabelValues] pairs
    values with names by position and panics when their numbers differ. *)
Record MetricVec := mkVec { v_name : string; v_labels : list string }.

(** A bound series: an instrument's name and its labels. *)
Record Handle := mkHandle { hd_name : string; hd_labels : list (string * string) }.

Record Sample := mkSample { sm_series : Handle; sm_value : Z }.

#[export] Instance Handle_eq_dec : EqDecision Handle.
Proof. solve_decision. Defined.
#[export] Instance Sample_eq_dec : EqDecision Sample.
Proof. solve_decision. Defined.

Definition WithLabelValues (v : MetricVec) (vals : list string) : option Handle :=
  if decide (length vals = length (v_labels v)) then Some (mkHandle (v_name v) (zip (v_labels v) vals))
  else None.

(** [strconv.Itoa]. *)
Definition Itoa (n : Z) : string := pretty n.

(** [fmt.Sprintf("%x", n)] of a non-negative integer; 16 digits hold any
    64-bit value. *)
Definition hex_digit (d : Z) : string :=
  nth (Z.to_nat d) ["0"; "1"; "2"; "3"; "4"; "5"; "6"; "7"; "8"; "9"; "a"; "b"; "c"; "d"; "e"; "f"] "".

Fixpoint hex_digits (fuel : nat) (n : Z) : string :=
  match fuel with
  | O => ""
  | S fuel => (if n <? 16 then "" else hex_digits fuel (n / 16)) +:+ hex_digit (n mod 16)
  end.

Definition hex (n : Z) : string := hex_digits 16 n.

(** ["%04x"]: padded with zeros to four digits. *)
Definition hex4 (n : Z) : string :=
  let s := hex n in
  (if n <? 16 then "000" else if n <? 256 then "00" else if n <? 4096 then "0" else "") +:+ s.

(** ["%t"]. *)
Definition bool_str (b : bool) : string := if b then "true" else "false".

Definition worker_iface : list string := ["worker"; "network_interface_name"].

Definition promRxPackets : MetricVec := mkVec "bsp_packets_received_total" worker_iface.
Definition promRxBytes : MetricVec := mkVec "bsp_bytes_received_total" worker_iface.
Definition promRxDrops : MetricVec := mkVec "bsp_packets_dropped_total" (worker_iface ++ ["reason"]).
Definition promRxSize : MetricVec := mkVec "bsp_packet_size_bytes" worker_iface.
Definition promTxPackets : MetricVec := mkVec "bsp_packets_forwarded_total" worker_iface.
Definition promTxBytes : MetricVec := mkVec "bsp_bytes_forwarded_total" worker_iface.
Definition promTxEgressErrs : MetricVec := mkVec "bsp_egress_errors_total" worker_iface.
Definition promTxIngressErrs : MetricVec := mkVec "bsp_ingress_errors_total" worker_iface.
Definition promIngressBytes : MetricVec := mkVec "bsp_ingress_class_bytes_total" ["class"; "tier"].
Definition promIngressPackets : MetricVec := mkVec "bsp_ingress_class_packets_total" ["class"; "tier"].
Definition promTxidClaimLocalHit : MetricVec := mkVec "bsp_txid_claim_local_hit_total" ["prefix"].
Definition promTxidClaimWon : MetricVec := mkVec "bsp_txid_claim_won_total" ["prefix"].
Definition promTxidClaimLost : MetricVec := mkVec "bsp_txid_claim_lost_total" ["prefix"].
Definition promTxidClaimError : MetricVec := mkVec "bsp_txid_claim_errors_total" ["prefix"].

(** The vectors [New] registers directly with Prometheus, in order; the flow
    counters are registered as a collector. *)
Definition promVecs : list MetricVec :=
  [promRxPackets; promRxBytes; promRxDrops; promRxSize; promTxPackets; promTxBytes;
   promTxEgressErrs; promTxIngressErrs; promIngressBytes; promIngressPackets;
   mkVec "bsp_flow_packets_total" ["network_interface_name"; "group"];
   mkVec "bsp_flow_bytes_total" ["network_interface_name"; "group"];
   promTxidClaimLocalHit; promTxidClaimWon; promTxidClaimLost; promTxidClaimError].

(** The OpenTelemetry instruments [New] creates, in order.  They declare no
    label names: each measurement brings its attributes. *)
Definition otelInstruments : list string :=
  ["multicast_manifest_divergence_total";
   "multicast_manifest_adoption_total";
   "multicast_manifest_resharding_emit_duplicates_total";
   "bsp_frames_fragmented_total";
   "bsp_fragments_emitted_total";
   "bsp_coalesce_bundles_total";
   "bsp_coalesce_members_total";
   "bsp_coalesce_flush_total";
   "bsp_coalesce_members_per_bundle";
   "bsp_tee_failed_total";
   "bsp_control_frames_forwarded_total";
   "bsp_tcp_connections_total";
   "bsp_tcp_bytes_received_total";
   "bsp_ingress_deduped_total";
   "bsp_privileged_frame_rejected_total";
   "bsp_block_pow_rejected_total";
   "bsp_subtree_root_checks_total";
   "bsp_beef_submissions_total";
   "bsp_beef_topics_total"].

(** ** Hot-path state *)

(** One (group, worker) pair of counters, 64-bit. *)
Record flowCell := mkCell { fc_packets : Z; fc_bytes : Z }.

#[export] Instance eta_flowCell : EtaExpand flowCell :=
  {| eta_of := λ x, mkCell (fc_packets x) (fc_bytes x) |}.
#[export] Instance flowCell_eq_dec : EqDecision flowCell.
Proof. solve_decision. Defined.

Record hotPathCounters := mkHot {
  hp_rxPackets : Handle; hp_rxBytes : Handle; hp_txPackets : Handle; hp_txBytes : Handle; hp_rxSize : Handle }.

(** The state of one egress interface.  [is_flows] is the current
    copy-on-write table; its entries are pointers to group shards, which are
    shared by successive tables: [is_shards] is the store they point into. *)
Record ifaceState := mkIfaceState {
  is_iface : string;
  is_numWorkers : Z;
  is_workers : list (option hotPathCounters);
  is_flows : list (option nat);
  is_shards : list (list flowCell) }.

#[export] Instance eta_ifaceState : EtaExpand ifaceState :=
  {| eta_of := λ x, mkIfaceState (is_iface x) (is_numWorkers x) (is_workers x) (is_flows x) (is_shards x) |}.

Record coalesceOpts := mkCoalesceOpts { co_flush : list (string * string); co_bundle : list (string * string) }.

(** [coalesceKey]: interface, worker and reason. *)
Abbreviation coalesceKey := (string * Z * string)%type.

Record Recorder := mkRecorder {
  r_numWorkers : Z;
  r_startTime : Z;
  r_readyCount : Z;
  r_ifaceStates : gmap string ifaceState;
  r_coalesceSeries : gmap coalesceKey coalesceOpts;
  r_draining : bool;
  r_tcpIngressRequired : bool;
  r_tcpIngressReady : bool;
  r_manifestReceived : Z;
  r_manifestPilotsKnown : Z;
  r_manifestQuorumMetBits : Z;
  r_manifestReshardState : Z;
  r_manifestReshardWindow : Z;
  r_lastDivergence : gmap string Z;
  r_samples : list Sample }.

#[export] Instance eta_Recorder : EtaExpand Recorder := {| eta_of := λ x,
  mkRecorder (r_numWorkers x) (r_startTime x) (r_readyCount x) (r_ifaceStates x) (r_coalesceSeries x)
    (r_draining x) (r_tcpIngressRequired x) (r_tcpIngressReady x)
    (r_manifestReceived x) (r_manifestPilotsKnown x) (r_manifestQuorumMetBits x)
    (r_manifestReshardState x) (r_manifestReshardWindow x) (r_lastDivergence x) (r_samples x) |}.

(** The recorder [New] returns, at time [now]. *)
Definition NewRecorder (numWorkers now : Z) : Recorder :=
  mkRecorder numWorkers now 0 ∅ ∅ false false false 0 0 0 0 0 ∅ [].

(** One measurement through a bound series. *)
Definition add_sample (h : Handle) (v : Z) (r : Recorder) : Recorder :=
  r <| r_samples ::= λ l, l ++ [mkSample h v] |>.

(** [counter.WithLabelValues(vals...).Add(v)]. *)
Definition add_to (m : MetricVec) (vals : list string) (v : Z) (r : Recorder) : option Recorder :=
  h ← WithLabelValues m vals; Some (add_sample h v r).

(** [counter.Add(ctx, v, metric.WithAttributes(...))]. *)
Definition otel_add (name : string) (attrs : list (string * string)) (v : Z) (r : Recorder) : Recorder :=
  add_sample (mkHandle name attrs) v r.

Definition ifaceAttr (iface : string) : string * string := ("network.interface.name", iface).

(** ** Interface states *)

Definition newIfaceState (iface : string) (numWorkers : Z) : ifaceState :=
  let nw := if numWorkers <? 1 then 1 else numWorkers in
  mkIfaceState iface nw (replicate (Z.to_nat nw) None) [] [].

(** [Recorder.ifaceState]: the state of an interface, bound on first sight. *)
Definition ifaceState_get (iface : string) (r : Recorder) : ifaceState * Recorder :=
  match r_ifaceStates r !! iface with
  | Some st => (st, r)
  | None =>
      let st := newIfaceState iface (r_numWorkers r) in
      (st, r <| r_ifaceStates ::= <[iface := st]> |>)
  end.

(** Storing back what a pointer to an interface state was used to change. *)
Definition put_ifaceState (st : ifaceState) (r : Recorder) : Recorder :=
  r <| r_ifaceStates ::= <[is_iface st := st]> |>.

Definition bind_hot (iface : string) (workerID : Z) : option hotPathCounters :=
  let vals := [Itoa workerID; iface] in
  a ← WithLabelValues promRxPackets vals;
  b ← WithLabelValues promRxBytes vals;
  c ← WithLabelValues promTxPackets vals;
  d ← WithLabelValues promTxBytes vals;
  e ← WithLabelValues promRxSize vals;
  Some (mkHot a b c d e).

Definition in_range (workerID : Z) {A} (l : list A) : bool := (0 <=? workerID) && (workerID <? Zlen l).

(** [ifaceState.worker]: the handles of a worker, bound on first use; a
    worker id outside the table is bound anew on every call. *)
Definition worker_hot (workerID : Z) (st : ifaceState) : option (hotPathCounters * ifaceState) :=
  let known := if in_range workerID (is_workers st) then mjoin (is_workers st !! Z.to_nat workerID) else None in
  match known with
  | Some hp => Some (hp, st)
  | None =>
      hp ← bind_hot (is_iface st) workerID;
      Some (hp, if in_range workerID (is_workers st)
                then st <| is_workers ::= <[Z.to_nat workerID := Some hp]> |> else st)
  end.

(** ** Flow counters *)

(** The shard of a group in the current table; [None] is nil. *)
Definition flow_lookup (groupIdx : Z) (st : ifaceState) : option nat :=
  if groupIdx <? Zlen (is_flows st) then mjoin (is_flows st !! Z.to_nat groupIdx) else None.

(** [bindFlow]: install the shard of a group by copying the table; the
    pointers are copied, not the cells. *)
Definition bindFlow (groupIdx : Z) (st : ifaceState) : nat * ifaceState :=
  match flow_lookup groupIdx st with
  | Some p => (p, st)
  | None =>
      let n := Z.to_nat (Z.max (Zlen (is_flows st)) (groupIdx + 1)) in
      let ng := is_flows st ++ replicate (n - length (is_flows st)) None in
      let p := length (is_shards st) in
      (p, st <| is_shards ::= λ l, l ++ [replicate (Z.to_nat (is_numWorkers st)) (mkCell 0 0)] |>
             <| is_flows := <[Z.to_nat groupIdx := Some p]> ng |>)
  end.

(** An atomic add to one cell of a shard; nothing when the worker id is
    outside the shard. *)
Definition cell_update (p : nat) (workerID : Z) (f : flowCell → flowCell) (st : ifaceState) : ifaceState :=
  let shard := default [] (is_shards st !! p) in
  if in_range workerID shard
  then st <| is_shards ::= alter (alter f (Z.to_nat workerID)) p |> else st.

Definition inc_packets (c : flowCell) : flowCell := c <| fc_packets ::= λ n, u64 (n + 1) |>.
Definition add_bytes (size : Z) (c : flowCell) : flowCell := c <| fc_bytes ::= λ n, u64 (n + size) |>.

(** [addFlow]. *)
Definition addFlow (workerID groupIdx size : Z) (st : ifaceState) : ifaceState :=
  let r := match flow_lookup groupIdx st with Some p => (p, st) | None => bindFlow groupIdx st end in
  cell_update r.1 workerID (add_bytes size) (cell_update r.1 workerID inc_packets r.2).

(** [float64(n)] of an unsigned integer: the nearest multiple of the spacing
    of 53-bit significands, ties to even. *)
Definition float64_of (n : Z) : Z :=
  let e := Z.log2 n - 52 in
  if e <=? 0 then n
  else
    let q := n / 2 ^ e in
    let r := n mod 2 ^ e in
    let up := (2 ^ (e - 1) <? r) || ((r =? 2 ^ (e - 1)) && Z.odd q) in
    (if up then q + 1 else q) * 2 ^ e.

(** One exported flow series: interface, group label, packets and bytes. *)
Record FlowSeries := mkFlowSeries { fs_iface : string; fs_group : string; fs_packets : Z; fs_bytes : Z }.

Definition sum_cells (shard : list flowCell) : Z * Z :=
  fold_left (λ acc c, (u64 (acc.1 + fc_packets c), u64 (acc.2 + fc_bytes c))) shard (0, 0).

(** The groups of one interface, in table order. *)
Fixpoint collect_groups (iface : string) (shards : list (list flowCell)) (g : Z) (groups : list (option nat))
    : list FlowSeries :=
  match groups with
  | [] => []
  | None :: groups => collect_groups iface shards (g + 1) groups
  | Some p :: groups =>
      let s := sum_cells (default [] (shards !! p)) in
      mkFlowSeries iface (hex4 g) (float64_of s.1) (float64_of s.2) :: collect_groups iface shards (g + 1) groups
  end.

Definition collect_iface (st : ifaceState) : list FlowSeries :=
  collect_groups (is_iface st) (is_shards st) 0 (is_flows st).

(** [flowCollector.Collect], over the interfaces (in key order; the code
    ranges over a map). *)
Definition Collect (r : Recorder) : list FlowSeries :=
  map_to_list (r_ifaceStates r) ≫= λ kv, collect_iface kv.2.

(** The bsp_active_groups gauge of one interface. *)
Definition active_groups (st : ifaceState) : Z := Zlen (omap id (is_flows st)).

(** ** Record methods *)

Definition PacketReceived (iface : string) (workerID size : Z) (r : Recorder) : option Recorder :=
  let s := ifaceState_get iface r in
  c ← worker_hot workerID s.1;
  Some (add_sample (hp_rxSize c.1) size (add_sample (hp_rxBytes c.1) size
    (add_sample (hp_rxPackets c.1) 1 (put_ifaceState c.2 s.2)))).

Definition PacketDropped (iface : string) (workerID : Z) (reason : string) (r : Recorder) : option Recorder :=
  add_to promRxDrops [Itoa workerID; iface; reason] 1 r.

Definition PacketForwarded (iface : string) (workerID groupIdx size : Z) (r : Recorder) : option Recorder :=
  let s := ifaceState_get iface r in
  c ← worker_hot workerID s.1;
  Some (add_sample (hp_txBytes c.1) size (add_sample (hp_txPackets c.1) 1
    (put_ifaceState (addFlow workerID groupIdx (u64 size) c.2) s.2))).

Definition FrameFragmented (workerID k : Z) (r : Recorder) : Recorder :=
  let attrs := [("worker", Itoa workerID); ifaceAttr ""] in
  otel_add "bsp_fragments_emitted_total" attrs k (otel_add "bsp_frames_fragmented_total" attrs 1 r).

(** [coalesceOptions]: the cached options of a series, built on first
    sight. *)
Definition coalesceOptions (iface : string) (workerID : Z) (reason : string) (r : Recorder)
    : coalesceOpts * Recorder :=
  let k : coalesceKey := (iface, workerID, reason) in
  match r_coalesceSeries r !! k with
  | Some o => (o, r)
  | None =>
      let bundle := [("worker", Itoa workerID); ifaceAttr iface] in
      let o := mkCoalesceOpts (bundle ++ [("reason", reason)]) bundle in
      (o, r <| r_coalesceSeries ::= <[k := o]> |>)
  end.

Definition CoalesceFlushed (iface : string) (workerID n : Z) (reason : string) (r : Recorder) : Recorder :=
  let o := coalesceOptions iface workerID reason r in
  let r := otel_add "bsp_coalesce_flush_total" (co_flush o.1) 1 o.2 in
  if 0 <? n then
    otel_add "bsp_coalesce_members_per_bundle" (co_bundle o.1) n
      (otel_add "bsp_coalesce_members_total" (co_bundle o.1) n
        (otel_add "bsp_coalesce_bundles_total" (co_bundle o.1) 1 r))
  else r.

Definition TeeFailed (kind : string) (n : Z) (r : Recorder) : Recorder :=
  if n <=? 0 then r else otel_add "bsp_tee_failed_total" [("kind", kind)] n r.

Definition ControlFrameForwarded (ctrlGroup : string) (r : Recorder) : Recorder :=
  otel_add "bsp_control_frames_forwarded_total" [("ctrl_group", ctrlGroup)] 1 r.

Definition IngressDeduped (iface : string) (workerID : Z) (frameType : string) (r : Recorder) : Recorder :=
  otel_add "bsp_ingress_deduped_total"
    [("worker", Itoa workerID); ifaceAttr iface; ("frame_type", frameType)] 1 r.

(** [IngressFrameClass.String]. *)
Definition class_String (c : IngressFrameClass) : string :=
  match c with
  | IngressClassBlock => "block"
  | IngressClassCoinbase => "coinbase"
  | IngressClassSubtree => "subtree"
  | IngressClassAnchor => "anchor"
  | IngressClassBEEF => "beef"
  | IngressClassTx => "tx"
  end.

Definition tier_String (privileged : bool) : string := if privileged then "privileged" else "transaction".

(** [IngressMetered]: every class and tier has a handle bound by [New]; the
    guard on the class never fires for a class of the type. *)
Definition IngressMetered (class : IngressFrameClass) (privileged : bool) (size : Z) (r : Recorder)
    : option Recorder :=
  let vals := [class_String class; tier_String privileged] in
  r ← add_to promIngressBytes vals size r; add_to promIngressPackets vals 1 r.

Definition PrivilegedFrameRejected (frameType : string) (r : Recorder) : Recorder :=
  otel_add "bsp_privileged_frame_rejected_total" [("frame_type", frameType)] 1 r.
Definition BlockPoWRejected (r : Recorder) : Recorder := otel_add "bsp_block_pow_rejected_total" [] 1 r.
Definition SubtreeRootCheck (result : string) (r : Recorder) : Recorder :=
  otel_add "bsp_subtree_root_checks_total" [("result", result)] 1 r.
Definition BEEFSubmission (result : string) (r : Recorder) : Recorder :=
  otel_add "bsp_beef_submissions_total" [("result", result)] 1 r.

Definition BEEFTopics (named deliverable : Z) (r : Recorder) : Recorder :=
  let r := otel_add "bsp_beef_topics_total" [("topic_role", "deliverable")] deliverable r in
  let labels := named - deliverable in
  if 0 <? labels then otel_add "bsp_beef_topics_total" [("topic_role", "label")] labels r else r.

Definition TxidClaimLocalHit (prefix : string) : Recorder → option Recorder := add_to promTxidClaimLocalHit [prefix] 1.
Definition TxidClaimWon (prefix : string) : Recorder → option Recorder := add_to promTxidClaimWon [prefix] 1.
Definition TxidClaimLost (prefix : string) : Recorder → option Recorder := add_to promTxidClaimLost [prefix] 1.
Definition TxidClaimError (prefix : string) : Recorder → option Recorder := add_to promTxidClaimError [prefix] 1.

Definition TCPConnectionAccepted (r : Recorder) : Recorder := otel_add "bsp_tcp_connections_total" [] 1 r.
Definition TCPBytesReceived (n : Z) (r : Recorder) : Recorder := otel_add "bsp_tcp_bytes_received_total" [] n r.
Definition IngressError (iface : string) (workerID : Z) : Recorder → option Recorder :=
  add_to promTxIngressErrs [Itoa workerID; iface] 1.
Definition EgressError (iface : string) (workerID : Z) : Recorder → option Recorder :=
  add_to promTxEgressErrs [Itoa workerID; iface] 1.

(** ** Manifest gauges

    These methods accept a nil recorder ([None]) and then do nothing. *)

Definition ManifestReceived (r : option Recorder) : option Recorder :=
  fmap (λ r, r <| r_manifestReceived ::= Z.add 1 |>) r.
Definition ManifestSetPilotsKnown (n : Z) (r : option Recorder) : option Recorder :=
  fmap (λ r, r <| r_manifestPilotsKnown := n |>) r.
Definition ManifestSetQuorumMetBits (bits : Z) (r : option Recorder) : option Recorder :=
  fmap (λ r, r <| r_manifestQuorumMetBits := bits |>) r.
Definition ManifestSetReshardState (state : Z) (r : option Recorder) : option Recorder :=
  fmap (λ r, r <| r_manifestReshardState := state |>) r.
Definition ManifestSetReshardWindowSeconds (s : Z) (r : option Recorder) : option Recorder :=
  fmap (λ r, r <| r_manifestReshardWindow := s |>) r.

Definition ManifestDivergence (field kind : string) (now : Z) (r : option Recorder) : option Recorder :=
  fmap (λ r, otel_add "multicast_manifest_divergence_total" [("field", field); ("kind", kind)] 1 r
    <| r_lastDivergence ::= <[field := now]> |>) r.
Definition ManifestAdoption (field reason : string) (r : option Recorder) : option Recorder :=
  fmap (otel_add "multicast_manifest_adoption_total" [("field", field); ("reason", reason)] 1) r.
Definition ManifestReshardEmitDuplicate (r : option Recorder) : option Recorder :=
  fmap (otel_add "multicast_manifest_resharding_emit_duplicates_total" [] 1) r.

(** ** Readiness *)

(** A 32-bit signed counter. *)
Definition i32 (x : Z) : Z := (x + 2 ^ 31) mod 2 ^ 32 - 2 ^ 31.

Definition WorkerReady (r : Recorder) : Recorder := r <| r_readyCount ::= λ n, i32 (n + 1) |>.
Definition WorkerDone (r : Recorder) : Recorder := r <| r_readyCount ::= λ n, i32 (n - 1) |>.
Definition SetDraining (r : Recorder) : Recorder := r <| r_draining := true |>.
Definition RequireTCPIngress (r : Recorder) : Recorder := r <| r_tcpIngressRequired := true |>.
Definition TCPIngressReady (r : Recorder) : Recorder := r <| r_tcpIngressReady := true |>.

Definition StatusOK : Z := 200.
Definition StatusServiceUnavailable : Z := 503.

Definition quoted (s : string) : string :=
  let q := String (Ascii.ascii_of_nat 34) EmptyString in q +:+ s +:+ q.

Definition readyz_body (status : string) (r : Recorder) : string :=
  "{" +:+ quoted "status" +:+ ":" +:+ quoted status +:+
  "," +:+ quoted "workers_ready" +:+ ":" +:+ Itoa (r_readyCount r) +:+
  "," +:+ quoted "workers_total" +:+ ":" +:+ Itoa (r_numWorkers r) +:+
  "," +:+ quoted "tcp_ingress_required" +:+ ":" +:+ bool_str (r_tcpIngressRequired r) +:+
  "," +:+ quoted "tcp_ingress_ready" +:+ ":" +:+ bool_str (r_tcpIngressReady r) +:+ "}".

(** [handleReadyz]: the HTTP status and the body. *)
Definition handleReadyz (r : Recorder) : Z * string :=
  let ready := r_readyCount r in
  let total := r_numWorkers r in
  if r_draining r then (StatusServiceUnavailable, readyz_body "draining" r)
  else if (total <=? ready) && (0 <? total) && (negb (r_tcpIngressRequired r) || r_tcpIngressReady r)
  then (StatusOK, readyz_body "ready" r)
  else (StatusServiceUnavailable, readyz_body "starting" r).

(** ** Gauges read at scrape time *)

(** The observable integer gauges [New] registers, as the callbacks report
    them; the uptime gauge is the clock's. *)
Definition gauges (r : Recorder) : list Sample :=
  ((λ kv : string * ifaceState, mkSample (mkHandle "bsp_active_groups" [ifaceAttr kv.1]) (active_groups kv.2)) <$> map_to_list (r_ifaceStates r)) ++
  [mkSample (mkHandle "bsp_workers_active" []) (r_readyCount r);
   mkSample (mkHandle "multicast_manifest_received_total" []) (r_manifestReceived r);
   mkSample (mkHandle "multicast_manifest_pilots_known" []) (r_manifestPilotsKnown r);
   mkSample (mkHandle "multicast_manifest_quorum_met_bits" []) (r_manifestQuorumMetBits r)] ++
  ((λ kv : string * Z, mkSample (mkHandle "multicast_manifest_last_divergence_epoch" [("field", kv.1)]) kv.2) <$> map_to_list (r_lastDivergence r)) ++
  [mkSample (mkHandle "multicast_manifest_resharding_state" []) (r_manifestReshardState r);
   mkSample (mkHandle "multicast_manifest_resharding_window_seconds" []) (r_manifestReshardWindow r)].

(** ** Host facts (metrics/hostinfo.go) *)

(** What is read of the host inventory. *)
Record HostIface := mkHostIface {
  hi_Name : string; hi_OperState : string; hi_IPv4 : list string; hi_IPv6 : list string; hi_SpeedMbps : Z }.

Record Inventory := mkInventory {
  in_Hostname : string; in_KernelVersion : string; in_CPULogical : Z; in_MemTotalBytes : Z;
  in_Sysctl : gmap string string; in_Interfaces : list HostIface; in_Version : string }.

Definition host_info_vec : MetricVec := mkVec "bsp_host_info"
  ["hostname"; "kernel_version"; "cpu_logical"; "mem_bytes"; "rmem_max"; "nic"; "speed_mbps"; "version"].

(** The first interface that is up and has an address: its name, and its
    speed when known. *)
Fixpoint host_nic (ifs : list HostIface) : string * string :=
  match ifs with
  | [] => ("", "")
  | i :: ifs =>
      if String.eqb (hi_OperState i) "up" && (bool_decide (hi_IPv4 i ≠ []) || bool_decide (hi_IPv6 i ≠ []))
      then (hi_Name i, if 0 <? hi_SpeedMbps i then Itoa (hi_SpeedMbps i) else "")
      else host_nic ifs
  end.

(** [SetHostInfo]; [registered] says whether the registry took the gauge. *)
Definition SetHostInfo (inv : Inventory) (registered : bool) (r : Recorder) : option Recorder :=
  if registered then
    let n := host_nic (in_Interfaces inv) in
    add_to host_info_vec [in_Hostname inv; in_KernelVersion inv; Itoa (in_CPULogical inv); Itoa (in_MemTotalBytes inv);
      default "" (in_Sysctl inv !! "net.core.rmem_max"); n.1; n.2; in_Version inv] 1 r
  else Some r.

(** ** The recorder as the data path's observer *)

(** What the recorder does with an event of the data path. *)
Definition record_event (ev : Event) (r : Recorder) : option Recorder :=
  match ev with
  | EvPacketReceived iface w size => PacketReceived iface w size r
  | EvPacketDropped iface w reason => PacketDropped iface w reason r
  | EvPacketForwarded iface w g size => PacketForwarded iface w g size r
  | EvControlFrameForwarded label => Some (ControlFrameForwarded label r)
  | EvEgressError iface w => EgressError iface w r
  | EvIngressError iface w => IngressError iface w r
  | EvFrameFragmented w k => Some (FrameFragmented w k r)
  | EvCoalesceFlushed iface w n reason => Some (CoalesceFlushed iface w n reason r)
  | EvIngressDeduped iface w t => Some (IngressDeduped iface w t r)
  | EvIngressMetered class privileged size => IngressMetered class privileged size r
  | EvPrivilegedFrameRejected t => Some (PrivilegedFrameRejected t r)
  | EvBlockPoWRejected => Some (BlockPoWRejected r)
  | EvSubtreeRootCheck result => Some (SubtreeRootCheck result r)
  | EvBEEFSubmission result => Some (BEEFSubmission result r)
  | EvBEEFTopics named deliverable => Some (BEEFTopics named deliverable r)
  | EvTeeFailed kind n => Some (TeeFailed kind n r)
  | EvTCPBytesReceived n => Some (TCPBytesReceived n r)
  | EvTCPConnectionAccepted => Some (TCPConnectionAccepted r)
  end.

Fixpoint record_events (evs : list Event) (r : Recorder) : option Recorder :=
  match evs with
  | [] => Some r
  | ev :: evs => r ← record_event ev r; record_events evs r
  end.
