(* ===== verification/FlowCounters.v ===== *)
(** * Flow counters under concurrency (metrics/metrics.go: addFlow, bindFlow)

    Every worker adds to its own cell of a group's shard while other workers
    bind new groups by replacing the copy-on-write table and a scrape reads.
    Threads here interleave at the granularity of the code's atomic
    operations: the load of the table, the binding under the mutex, and the
    two atomic adds. *)

From S2P Require Import Prelude Common Recorder.

Record Call := mkCall { c_worker : Z; c_group : Z; c_size : Z }.

(** Where a goroutine is inside [addFlow]: about to bind a group it found
    nil, or holding the shard pointer before one of the two adds. *)
Inductive FlowPC := FIdle | FBind (c : Call) | FAdd (p : nat) (c : Call) | FAddBytes (p : nat) (c : Call).

Record Thread := mkThread { t_todo : list Call; t_pc : FlowPC }.

Definition thread_step (st : ifaceState) (t : Thread) : ifaceState * Thread :=
  match t_pc t with
  | FIdle =>
      match t_todo t with
      | [] => (st, t)
      | c :: todo =>
          (st, mkThread todo (match flow_lookup (c_group c) st with Some p => FAdd p c | None => FBind c end))
      end
  | FBind c => let r := bindFlow (c_group c) st in (r.2, mkThread (t_todo t) (FAdd r.1 c))
  | FAdd p c => (cell_update p (c_worker c) inc_packets st, mkThread (t_todo t) (FAddBytes p c))
  | FAddBytes p c => (cell_update p (c_worker c) (add_bytes (c_size c)) st, mkThread (t_todo t) FIdle)
  end.

(** The scheduler picks a thread; one that is done, or does not exist,
    leaves the system as it is. *)
Definition sys_step (i : nat) (s : ifaceState * list Thread) : ifaceState * list Thread :=
  match s.2 !! i with
  | Some t => let r := thread_step s.1 t in (r.1, <[i := r.2]> s.2)
  | None => s
  end.

Definition sys_run (sched : list nat) (s : ifaceState * list Thread) : ifaceState * list Thread :=
  fold_left (λ s i, sys_step i s) sched s.

Definition start (calls : list (list Call)) : list Thread := (λ cs, mkThread cs FIdle) <$> calls.

Definition finished (t : Thread) : Prop := t_todo t = [] ∧ t_pc t = FIdle.

(** ** Sums *)

Definition Zsum (l : list Z) : Z := foldr Z.add 0 l.

Lemma Zsum_app a b : Zsum (a ++ b) = Zsum a + Zsum b.
Proof. induction a as [|x a IH]; simpl; lia. Qed.

Lemma Zsum_alter f l i x :
  l !! i = Some x → Zsum (alter f i l) = Zsum l - x + f x.
Proof.
  revert i. induction l as [|y l IH]; intros [|i]; intros E; simplify_eq/=; [lia|].
  rewrite (IH _ E). lia.
Qed.

Lemma Zsum_insert l i x y : l !! i = Some x → Zsum (<[i := y]> l) = Zsum l - x + y.
Proof.
  revert i. induction l as [|z l IH]; intros [|i] E; simplify_eq/=; [lia|].
  rewrite (IH _ E). lia.
Qed.

Lemma Zsum_zero l : Forall (λ x, x = 0) l → Zsum l = 0.
Proof. induction 1; simpl; lia. Qed.

Lemma u64_add_r x y : u64 (x + u64 y) = u64 (x + y).
Proof. rewrite Z.add_comm, u64_add_l. f_equal. lia. Qed.

Lemma sum_cells_spec shard acc :
  fold_left (λ acc c, (u64 (acc.1 + fc_packets c), u64 (acc.2 + fc_bytes c))) shard (u64 acc.1, u64 acc.2) =
  (u64 (acc.1 + Zsum (fc_packets <$> shard)), u64 (acc.2 + Zsum (fc_bytes <$> shard))).
Proof.
  revert acc. induction shard as [|c shard IH]; intros [a b]; simpl.
  - by rewrite !Z.add_0_r.
  - rewrite !u64_add_l. specialize (IH (a + fc_packets c, b + fc_bytes c)). simpl in IH.
    rewrite IH. by rewrite <- !Z.add_assoc.
Qed.

Lemma sum_cells_Zsum shard :
  sum_cells shard = (u64 (Zsum (fc_packets <$> shard)), u64 (Zsum (fc_bytes <$> shard))).
Proof. unfold sum_cells. exact (sum_cells_spec shard (0, 0)). Qed.

Lemma u64_shift a a' d d' o : u64 (a' + d') = u64 (a + d) → u64 (a' + (o - d + d')) = u64 (a + o).
Proof.
  intros E. replace (a' + (o - d + d')) with ((a' + d') + (o - d)) by lia.
  rewrite <- u64_add_l, E, u64_add_l. f_equal. lia.
Qed.

(** ** The invariant of an interface's table *)

Record iface_ok (st : ifaceState) : Prop := {
  io_workers : 0 ≤ is_numWorkers st;
  io_shards : Forall (λ sh, Zlen sh = is_numWorkers st) (is_shards st);
  io_ptr : ∀ g p, is_flows st !! g = Some (Some p) → (p < length (is_shards st))%nat;
  io_inj : ∀ g g' p, is_flows st !! g = Some (Some p) → is_flows st !! g' = Some (Some p) → g = g' }.

Lemma flow_lookup_Some g st p :
  0 ≤ g → flow_lookup g st = Some p ↔ is_flows st !! Z.to_nat g = Some (Some p).
Proof.
  intros Hg. unfold flow_lookup. destruct (Z.ltb_spec g (Zlen (is_flows st))) as [Hlt|Hge].
  - destruct (is_flows st !! Z.to_nat g) as [[q|]|]; simpl; naive_solver.
  - rewrite (proj2 (lookup_ge_None _ _)); [naive_solver|]. unfold Zlen in Hge. lia.
Qed.

Lemma flow_lookup_inj g g' st p :
  iface_ok st → 0 ≤ g → 0 ≤ g' → flow_lookup g st = Some p → flow_lookup g' st = Some p → g = g'.
Proof.
  intros Hok Hg Hg' E E'. rewrite flow_lookup_Some in E, E' by done.
  pose proof (io_inj _ Hok _ _ _ E E'). lia.
Qed.

(** The exact sum of a field of a group's cells. *)
Definition flow_sum (f : flowCell → Z) (st : ifaceState) (g : Z) : Z :=
  match flow_lookup g st with Some p => Zsum (f <$> default [] (is_shards st !! p)) | None => 0 end.

Lemma new_iface_ok iface nw : iface_ok (newIfaceState iface nw).
Proof.
  split; simpl.
  - destruct (Z.ltb_spec nw 1); lia.
  - done.
  - intros g p. by rewrite lookup_nil.
  - intros g g' p. by rewrite lookup_nil.
Qed.

(** ** Binding a group *)

Lemma bindFlow_table g st :
  0 ≤ g → flow_lookup g st = None →
  let ng := is_flows st ++ replicate (Z.to_nat (Z.max (Zlen (is_flows st)) (g + 1)) - length (is_flows st)) None in
  ∀ i, is_flows (bindFlow g st).2 !! i =
    if decide (i = Z.to_nat g) then Some (Some (length (is_shards st))) else ng !! i.
Proof.
  intros Hg E ng i. unfold bindFlow. rewrite E. simpl. fold ng.
  assert ((Z.to_nat g < length ng)%nat).
  { unfold ng, Zlen. rewrite length_app, length_replicate. lia. }
  destruct (decide (i = Z.to_nat g)) as [-> | Hne].
  - by apply list_lookup_insert_eq.
  - by rewrite list_lookup_insert_ne by done.
Qed.

Lemma lookup_app_None {A} (l : list (option A)) n i x :
  (l ++ replicate n None) !! i = Some (Some x) ↔ l !! i = Some (Some x).
Proof.
  split; intros E.
  - apply lookup_app_Some in E as [E | [_ E]]; [done|].
    by apply lookup_replicate in E as [[=] _].
  - by apply lookup_app_l_Some.
Qed.

(** Binding keeps every group's shard and sums, and gives the group one. *)
Lemma bindFlow_spec g st :
  iface_ok st → 0 ≤ g →
  let r := bindFlow g st in
  iface_ok r.2 ∧ flow_lookup g r.2 = Some r.1 ∧
  (∀ g' p, 0 ≤ g' → flow_lookup g' st = Some p → flow_lookup g' r.2 = Some p) ∧
  (∀ g', 0 ≤ g' → g' ≠ g → flow_lookup g' r.2 = flow_lookup g' st) ∧
  (∀ g' f, 0 ≤ g' → (f (mkCell 0 0) = 0) → flow_sum f r.2 g' = flow_sum f st g') ∧
  is_numWorkers r.2 = is_numWorkers st ∧ is_iface r.2 = is_iface st.
Proof.
  intros Hok Hg. cbv zeta. destruct (flow_lookup g st) as [p|] eqn:E.
  { unfold bindFlow. rewrite E. simpl. split_and!; auto. }
  pose proof (bindFlow_table g st Hg E) as T. cbv zeta in T.
  assert (Hr1 : (bindFlow g st).1 = length (is_shards st)) by (unfold bindFlow; by rewrite E).
  assert (Hsh : is_shards (bindFlow g st).2 =
            is_shards st ++ [replicate (Z.to_nat (is_numWorkers st)) (mkCell 0 0)])
    by (unfold bindFlow; by rewrite E).
  assert (Hnw : is_numWorkers (bindFlow g st).2 = is_numWorkers st) by (unfold bindFlow; by rewrite E).
  assert (Hif : is_iface (bindFlow g st).2 = is_iface st) by (unfold bindFlow; by rewrite E).
  set (st' := (bindFlow g st).2) in *. rewrite Hr1. clear Hr1.
  assert (Old : ∀ i p, i ≠ Z.to_nat g → is_flows st' !! i = Some (Some p) ↔ is_flows st !! i = Some (Some p)).
  { intros i p Hi. rewrite T, decide_False by done. apply lookup_app_None. }
  assert (Hgl : flow_lookup g st' = Some (length (is_shards st))).
  { apply flow_lookup_Some; [done|]. by rewrite T, decide_True. }
  assert (Hne : ∀ g', 0 ≤ g' → g' ≠ g → flow_lookup g' st' = flow_lookup g' st).
  { intros g' Hg' Hn. apply option_eq. intros p. rewrite !flow_lookup_Some by done. apply Old. lia. }
  split_and!; [|done| | done | |done|done].
  - split; rewrite ?Hnw, ?Hsh.
    + apply Hok.
    + apply Forall_app. split; [apply Hok|]. apply Forall_singleton.
      unfold Zlen. rewrite length_replicate. pose proof (io_workers _ Hok). lia.
    + intros i p Ei. rewrite length_app. simpl. destruct (decide (i = Z.to_nat g)) as [-> | Hi].
      * rewrite T, decide_True in Ei by done. injection Ei as <-. lia.
      * apply Old in Ei; [|done]. pose proof (io_ptr _ Hok _ _ Ei). lia.
    + intros i i' p Ei Ei'.
      destruct (decide (i = Z.to_nat g)) as [-> | Hi], (decide (i' = Z.to_nat g)) as [-> | Hi']; [done| | |].
      * rewrite T, decide_True in Ei by done. injection Ei as <-. apply Old in Ei'; [|done].
        pose proof (io_ptr _ Hok _ _ Ei'). lia.
      * rewrite T, decide_True in Ei' by done. injection Ei' as <-. apply Old in Ei; [|done].
        pose proof (io_ptr _ Hok _ _ Ei). lia.
      * apply Old in Ei, Ei'; [|done..]. by apply (io_inj _ Hok _ _ p).
  - intros g' p Hg' Ep. rewrite Hne; [done|done|]. intros ->. by rewrite E in Ep.
  - intros g' f Hg' Hf. unfold flow_sum. destruct (decide (g' = g)) as [-> | Hn].
    + rewrite Hgl, E, Hsh, list_lookup_middle by done. simpl.
      apply Zsum_zero. rewrite fmap_replicate. rewrite Hf. apply Forall_replicate. done.
    + rewrite Hne by done. destruct (flow_lookup g' st) as [p|] eqn:Ep; [|done].
      rewrite flow_lookup_Some in Ep by done. pose proof (io_ptr _ Hok _ _ Ep).
      by rewrite Hsh, lookup_app_l by lia.
Qed.

(** ** Adding to a cell *)

Lemma cell_update_spec p w f st :
  iface_ok st →
  iface_ok (cell_update p w f st) ∧ is_flows (cell_update p w f st) = is_flows st ∧
  is_numWorkers (cell_update p w f st) = is_numWorkers st ∧ is_iface (cell_update p w f st) = is_iface st.
Proof.
  intros Hok. unfold cell_update. destruct (in_range w _); [|done]. split; [|done].
  split; simpl; [apply Hok| | |apply Hok].
  - apply Forall_alter; [apply Hok|]. intros sh _ Hsh. unfold Zlen in *. by rewrite length_alter.
  - intros g q. rewrite length_alter. apply Hok.
Qed.

Lemma flow_lookup_flows g st st' : is_flows st' = is_flows st → flow_lookup g st' = flow_lookup g st.
Proof. intros E. unfold flow_lookup. by rewrite E. Qed.

(** An update of one worker's cell of group [g] by a function that adds [d]
    modulo 2^64 adds [d] to the group's sum, when the worker has a cell, and
    changes no other group's. *)
Lemma cell_update_sum proj (f : flowCell → flowCell) d p w st g g' :
  iface_ok st → 0 ≤ g → 0 ≤ g' → flow_lookup g st = Some p →
  (∀ c, u64 (proj (f c)) = u64 (proj c + d)) →
  u64 (flow_sum proj (cell_update p w f st) g') =
  u64 (flow_sum proj st g' +
       (if bool_decide (g' = g) && (0 <=? w) && (w <? is_numWorkers st) then d else 0)).
Proof.
  intros Hok Hg Hg' El Hf.
  destruct (cell_update_spec p w f st Hok) as (_ & Hfl & _).
  unfold flow_sum. rewrite (flow_lookup_flows _ _ _ Hfl).
  pose proof El as El'. rewrite flow_lookup_Some in El' by done.
  pose proof (io_ptr _ Hok _ _ El') as Hp.
  destruct (lookup_lt_is_Some_2 _ _ Hp) as [sh Esh].
  assert (Hlen : Zlen sh = is_numWorkers st) by exact (Forall_lookup_1 _ _ _ _ (io_shards _ Hok) Esh).
  unfold cell_update. rewrite Esh. simpl. unfold in_range. rewrite Hlen.
  destruct (flow_lookup g' st) as [q|] eqn:Eq.
  2:{ rewrite bool_decide_eq_false_2 by (intros ->; congruence). done. }
  destruct ((0 <=? w) && (w <? is_numWorkers st)) eqn:Hr.
  2:{ rewrite <- andb_assoc, Hr, andb_false_r, Z.add_0_r. done. }
  rewrite <- andb_assoc, Hr, andb_true_r. simpl.
  case_bool_decide as Hgg.
  - subst g'. assert (q = p) as -> by congruence.
    rewrite list_lookup_alter_eq, Esh. simpl.
    assert (Hw : (Z.to_nat w < length sh)%nat) by (unfold Zlen in Hlen; lia).
    destruct (lookup_lt_is_Some_2 _ _ Hw) as [c Ec].
    assert (Efm : proj <$> alter f (Z.to_nat w) sh = <[Z.to_nat w := proj (f c)]> (proj <$> sh)).
    { apply list_eq. intros i. rewrite list_lookup_fmap. destruct (decide (i = Z.to_nat w)) as [-> | Hi].
      - rewrite list_lookup_alter_eq, Ec, list_lookup_insert_eq by (by rewrite length_fmap). done.
      - rewrite list_lookup_alter_ne, list_lookup_insert_ne, list_lookup_fmap by done. done. }
    rewrite Efm, (Zsum_insert _ _ (proj c)) by (by rewrite list_lookup_fmap, Ec).
    replace (Zsum (proj <$> sh) - proj c + proj (f c)) with ((Zsum (proj <$> sh) - proj c) + proj (f c)) by lia.
    rewrite <- u64_add_r, Hf, u64_add_r. f_equal. lia.
  - assert (q ≠ p).
    { intros ->. apply Hgg. by apply (flow_lookup_inj g' g st p). }
    rewrite list_lookup_alter_ne by done. by rewrite Z.add_0_r.
Qed.

(** ** Threads *)

Definition call_ok (c : Call) : Prop := 0 ≤ c_group c.

(** A thread that holds a pointer holds the shard of its call's group. *)
Definition pc_ok (st : ifaceState) (pc : FlowPC) : Prop :=
  match pc with
  | FIdle => True
  | FBind c => call_ok c
  | FAdd p c | FAddBytes p c => call_ok c ∧ flow_lookup (c_group c) st = Some p
  end.

Definition thread_ok (st : ifaceState) (t : Thread) : Prop := Forall call_ok (t_todo t) ∧ pc_ok st (t_pc t).

(** What a call adds to the counters of group [g]: nothing for another group
    or for a worker without a cell. *)
Definition counts (nw g : Z) (c : Call) : bool := bool_decide (g = c_group c) && (0 <=? c_worker c) && (c_worker c <? nw).
Definition call_packets (nw g : Z) (c : Call) : Z := if counts nw g c then 1 else 0.
Definition call_bytes (nw g : Z) (c : Call) : Z := if counts nw g c then c_size c else 0.

(** What a thread has not added yet. *)
Definition pc_packets (nw g : Z) (pc : FlowPC) : Z :=
  match pc with FBind c | FAdd _ c => call_packets nw g c | _ => 0 end.
Definition pc_bytes (nw g : Z) (pc : FlowPC) : Z :=
  match pc with FBind c | FAdd _ c | FAddBytes _ c => call_bytes nw g c | FIdle => 0 end.

Definition due_packets (nw g : Z) (t : Thread) : Z := pc_packets nw g (t_pc t) + Zsum (call_packets nw g <$> t_todo t).
Definition due_bytes (nw g : Z) (t : Thread) : Z := pc_bytes nw g (t_pc t) + Zsum (call_bytes nw g <$> t_todo t).

(** The groups a thread still has to bind. *)
Definition due_groups (t : Thread) : list Z :=
  (match t_pc t with FBind c => [c_group c] | _ => [] end) ++ (c_group <$> t_todo t).

(** An add through a thread's pointer moves [dp] packets and [db] bytes to
    the counters of its call's group and nothing else. *)
Lemma cell_update_adds f dp db p c st :
  iface_ok st → call_ok c → flow_lookup (c_group c) st = Some p →
  (∀ x, u64 (fc_packets (f x)) = u64 (fc_packets x + dp)) →
  (∀ x, u64 (fc_bytes (f x)) = u64 (fc_bytes x + db)) →
  let st' := cell_update p (c_worker c) f st in
  iface_ok st' ∧ (∀ g, flow_lookup g st' = flow_lookup g st) ∧
  is_numWorkers st' = is_numWorkers st ∧ is_iface st' = is_iface st ∧
  ∀ g rest, 0 ≤ g →
    u64 (flow_sum fc_packets st' g + rest) =
      u64 (flow_sum fc_packets st g + ((if counts (is_numWorkers st) g c then dp else 0) + rest)) ∧
    u64 (flow_sum fc_bytes st' g + rest) =
      u64 (flow_sum fc_bytes st g + ((if counts (is_numWorkers st) g c then db else 0) + rest)).
Proof.
  intros Hok Hc Hl Hp Hb. cbv zeta.
  destruct (cell_update_spec p (c_worker c) f st Hok) as (Hok' & Hfl & Hnw & Hif).
  split_and!; [done|intros; by apply flow_lookup_flows|done|done|].
  intros g rest Hg.
  split; (rewrite <- u64_add_l, (cell_update_sum _ f _ p (c_worker c) st (c_group c) g Hok Hc Hg Hl) by eassumption;
          rewrite u64_add_l; f_equal; unfold counts; lia).
Qed.

(** One step of a thread: the table keeps its invariant and every shard its
    place, what the thread had due moves to the counters, and the groups it
    names are bound when it stops owing them. *)
Lemma thread_step_spec st t :
  iface_ok st → thread_ok st t →
  let r := thread_step st t in
  let nw := is_numWorkers st in
  iface_ok r.1 ∧ thread_ok r.1 r.2 ∧
  (∀ g p, 0 ≤ g → flow_lookup g st = Some p → flow_lookup g r.1 = Some p) ∧
  is_numWorkers r.1 = nw ∧ is_iface r.1 = is_iface st ∧
  (∀ g, 0 ≤ g →
    u64 (flow_sum fc_packets r.1 g + due_packets nw g r.2) = u64 (flow_sum fc_packets st g + due_packets nw g t) ∧
    u64 (flow_sum fc_bytes r.1 g + due_bytes nw g r.2) = u64 (flow_sum fc_bytes st g + due_bytes nw g t) ∧
    (is_Some (flow_lookup g r.1) ∨ g ∈ due_groups r.2 ↔ is_Some (flow_lookup g st) ∨ g ∈ due_groups t)).
Proof.
  destruct t as [todo pc]. intros Hok [Htodo Hpc]. cbv zeta. unfold thread_step. simpl in *.
  destruct pc as [|c|p c|p c]; simpl in *.
  - destruct todo as [|c todo]; simpl.
    + split_and!; try done.
    + inversion Htodo as [|? ? Hc Htodo']; subst.
      destruct (flow_lookup (c_group c) st) as [p|] eqn:E; simpl;
        (split_and!; [done|by split|auto|done|done|]);
        unfold due_packets, due_bytes, due_groups; simpl; intros g Hg; (split_and!; [f_equal; lia..|]).
      * rewrite elem_of_cons. split; [tauto|]. intros [?|[-> |?]]; eauto.
      * done.
  - destruct (bindFlow_spec (c_group c) st Hok Hpc) as (Hok' & Hl & Hkeep & Hne & Hs & Hnw & Hif).
    split_and!; [done|by split|auto|done|done|].
    intros g Hg. unfold due_packets, due_bytes, due_groups; simpl.
    rewrite !Hs by done. split_and!; [done..|].
    rewrite elem_of_cons. destruct (decide (g = c_group c)) as [-> | Hn].
    + rewrite Hl. split; [auto|]. intros _. left. eauto.
    + rewrite (Hne g Hg Hn). tauto.
  - destruct Hpc as [Hc Hl].
    destruct (cell_update_adds inc_packets 1 0 p c st Hok Hc Hl) as (Hok' & L & Hnw & Hif & Hs);
      [by intros; simpl; rewrite u64_idemp|by intros; simpl; rewrite Z.add_0_r|].
    split_and!; [done|split; [done|]; simpl; by rewrite L|intros; by rewrite L|done|done|].
    intros g Hg. rewrite L. unfold due_packets, due_bytes, due_groups; simpl.
    split_and!; [| |done]; [rewrite (proj1 (Hs _ _ Hg))|rewrite (proj2 (Hs _ _ Hg))]; [done|].
    f_equal. destruct (counts _ _ _); lia.
  - destruct Hpc as [Hc Hl].
    destruct (cell_update_adds (add_bytes (c_size c)) 0 (c_size c) p c st Hok Hc Hl) as (Hok' & L & Hnw & Hif & Hs);
      [by intros; simpl; rewrite Z.add_0_r|by intros; simpl; rewrite u64_idemp|].
    split_and!; [done|by split|intros; by rewrite L|done|done|].
    intros g Hg. rewrite L. unfold due_packets, due_bytes, due_groups; simpl.
    split_and!; [| |done]; [rewrite (proj1 (Hs _ _ Hg))|rewrite (proj2 (Hs _ _ Hg))]; [|done].
    f_equal. destruct (counts _ _ _); lia.
Qed.

(** ** The system *)

Definition sys_ok (s : ifaceState * list Thread) : Prop := iface_ok s.1 ∧ Forall (thread_ok s.1) s.2.

Definition owed (f : Thread → Z) (ts : list Thread) : Z := Zsum (f <$> ts).

(** A thread's state survives another thread's step. *)
Lemma thread_ok_mono st st' t :
  (∀ g p, 0 ≤ g → flow_lookup g st = Some p → flow_lookup g st' = Some p) → thread_ok st t → thread_ok st' t.
Proof.
  intros Hm [Ht Hp]. split; [done|]. destruct (t_pc t); simpl in *; try done; destruct Hp; auto.
Qed.

Lemma owed_insert f ts i t t' : ts !! i = Some t → owed f (<[i := t']> ts) = owed f ts - f t + f t'.
Proof.
  intros E. unfold owed. rewrite list_fmap_insert, (Zsum_insert _ _ (f t)); [done|].
  by rewrite list_lookup_fmap, E.
Qed.

(** What a run conserves: the counters plus what is still owed, and the set
    of groups bound or about to be. *)
Definition same_flows (s s' : ifaceState * list Thread) : Prop :=
  is_numWorkers s'.1 = is_numWorkers s.1 ∧ is_iface s'.1 = is_iface s.1 ∧
  ∀ g, 0 ≤ g →
    let nw := is_numWorkers s.1 in
    u64 (flow_sum fc_packets s'.1 g + owed (due_packets nw g) s'.2) =
      u64 (flow_sum fc_packets s.1 g + owed (due_packets nw g) s.2) ∧
    u64 (flow_sum fc_bytes s'.1 g + owed (due_bytes nw g) s'.2) =
      u64 (flow_sum fc_bytes s.1 g + owed (due_bytes nw g) s.2) ∧
    (is_Some (flow_lookup g s'.1) ∨ g ∈ mjoin (due_groups <$> s'.2) ↔
     is_Some (flow_lookup g s.1) ∨ g ∈ mjoin (due_groups <$> s.2)).

Lemma same_flows_refl s : same_flows s s.
Proof. unfold same_flows. split_and!; [done|done|]. intros. by split_and!. Qed.

Lemma same_flows_trans s1 s2 s3 : same_flows s1 s2 → same_flows s2 s3 → same_flows s1 s3.
Proof.
  intros (N1 & I1 & F1) (N2 & I2 & F2). split_and!; [congruence..|].
  intros g Hg. destruct (F1 g Hg) as (P1 & B1 & G1), (F2 g Hg) as (P2 & B2 & G2).
  cbv zeta in *. rewrite N1 in P2, B2. rewrite P2, B2. split_and!; [done..|]. by rewrite G2.
Qed.

Lemma elem_of_due (g : Z) (ts : list Thread) :
  g ∈ mjoin (due_groups <$> ts) ↔ ∃ i t, ts !! i = Some t ∧ g ∈ due_groups t.
Proof.
  rewrite list_elem_of_join. split.
  - intros (l & Hg & Hl). apply list_elem_of_fmap in Hl as (t & -> & Ht).
    apply list_elem_of_lookup in Ht as [i Hi]. eauto.
  - intros (i & t & Hi & Hg). exists (due_groups t). split; [done|].
    apply list_elem_of_fmap. exists t. split; [done|]. by apply list_elem_of_lookup_2 in Hi.
Qed.

Lemma sys_step_same i s : sys_ok s → sys_ok (sys_step i s) ∧ same_flows s (sys_step i s).
Proof.
  intros [Hok Hts]. unfold sys_step. destruct (s.2 !! i) as [t|] eqn:E; [|split; [done|apply same_flows_refl]].
  assert (Ht : thread_ok s.1 t) by exact (Forall_lookup_1 _ _ _ _ Hts E).
  destruct (thread_step_spec s.1 t Hok Ht) as (Hok' & Ht' & Hkeep & Hnw & Hif & Hg). split.
  - split; [done|]. simpl. apply Forall_insert; [|done].
    revert Hts. apply Forall_impl. intros u. by apply thread_ok_mono.
  - split_and!; [done..|]. simpl. intros g Hg0. destruct (Hg g Hg0) as (HP & HB & HG).
    split_and!.
    + rewrite (owed_insert _ _ _ _ _ E). by apply u64_shift.
    + rewrite (owed_insert _ _ _ _ _ E). by apply u64_shift.
    + assert (Hlt : (i < length s.2)%nat) by (by eapply lookup_lt_Some).
      rewrite !elem_of_due. split.
      * intros [Hs|(j & u & Ej & Hu)].
        { destruct (proj1 HG (or_introl Hs)) as [?|?]; [by left|right; eauto]. }
        destruct (decide (i = j)) as [<- | Hij].
        { rewrite list_lookup_insert_eq in Ej by done. injection Ej as <-.
          destruct (proj1 HG (or_intror Hu)) as [?|?]; [by left|right; eauto]. }
        rewrite list_lookup_insert_ne in Ej by done. right; eauto.
      * intros [[p Hs]|(j & u & Ej & Hu)]; [left; eauto|].
        destruct (decide (i = j)) as [<- | Hij].
        { rewrite E in Ej. injection Ej as <-.
          destruct (proj2 HG (or_intror Hu)) as [?|?]; [by left|right].
          exists i, (thread_step s.1 t).2. split; [by apply list_lookup_insert_eq|done]. }
        right. exists j, u. by rewrite list_lookup_insert_ne.
Qed.

Lemma sys_run_same sched s : sys_ok s → sys_ok (sys_run sched s) ∧ same_flows s (sys_run sched s).
Proof.
  revert s. induction sched as [|i sched IH]; intros s Hs; [split; [done|apply same_flows_refl]|].
  destruct (sys_step_same i s Hs) as [Hs' H1]. simpl. destruct (IH _ Hs') as [H2 H3].
  split; [done|]. by eapply same_flows_trans.
Qed.

(** ** Progress *)

Definition pc_fuel (pc : FlowPC) : nat := match pc with FIdle => 0 | FBind _ => 3 | FAdd _ _ => 2 | FAddBytes _ _ => 1 end.
Definition thread_fuel (t : Thread) : nat := 4 * length (t_todo t) + pc_fuel (t_pc t).

Lemma thread_step_fuel st t : ¬ finished t → (thread_fuel (thread_step st t).2 < thread_fuel t)%nat.
Proof.
  destruct t as [[|c todo] []]; unfold finished, thread_fuel, thread_step; simpl; intros Hf; try lia.
  - naive_solver.
  - destruct (flow_lookup _ _); simpl; lia.
Qed.

#[export] Instance finished_dec t : Decision (finished t).
Proof.
  destruct t as [[|c todo] [| | |]]; [left; done|right; by intros []..].
Defined.

Lemma sys_can_finish s : ∃ rest, Forall finished (sys_run rest s).2.
Proof.
  remember (sum_list_with thread_fuel s.2) as n eqn:En. revert s En.
  induction n as [n IH] using lt_wf_ind. intros s En.
  destruct (decide (Forall finished s.2)) as [Hd|Hd]; [by exists []|].
  apply not_Forall_Exists in Hd; [|apply _].
  apply list.Exists_exists in Hd as (t & Ht & Hnf). apply list_elem_of_lookup in Ht as [i Ei].
  assert (Hlt : (sum_list_with thread_fuel (sys_step i s).2 < n)%nat).
  { unfold sys_step. rewrite Ei. simpl. pose proof (thread_step_fuel s.1 t Hnf).
    rewrite En, insert_take_drop by (by eapply lookup_lt_Some).
    rewrite <- (take_drop_middle _ _ _ Ei) at 3. rewrite !sum_list_with_app. simpl. lia. }
  destruct (IH _ Hlt _ eq_refl) as [rest Hr]. by exists (i :: rest).
Qed.

(** ** Export *)

(** The conversion is exact up to 2^53, and off by at most one part in 2^53
    above. *)
Lemma float64_of_exact n : 0 ≤ n ≤ 2 ^ 53 → float64_of n = n.
Proof.
  intros [H0 H1]. unfold float64_of. destruct (Z.leb_spec (Z.log2 n - 52) 0) as [|He]; [done|].
  assert (n = 2 ^ 53) as ->; [|reflexivity].
  destruct (Z.eq_dec n (2 ^ 53)) as [|Hne]; [done|]. assert (Hlt : n < 2 ^ 53) by lia.
  destruct (Z.eq_dec n 0) as [-> |Hn0]; [done|].
  apply Z.log2_lt_pow2 in Hlt; lia.
Qed.

Lemma float64_of_near n : 0 ≤ n → 2 ^ 53 * Z.abs (float64_of n - n) ≤ n.
Proof.
  intros H0. unfold float64_of. destruct (Z.leb_spec (Z.log2 n - 52) 0) as [|He]; [rewrite Z.sub_diag; lia|].
  set (e := Z.log2 n - 52) in *. cbv zeta. assert (Hn : 2 ^ (52 + e) ≤ n).
  { replace (52 + e) with (Z.log2 n) by lia. apply Z.log2_spec. destruct (Z.eq_dec n 0) as [->|]; [done|lia]. }
  rewrite Z.pow_add_r in Hn by lia. assert (He1 : 2 ^ e = 2 * 2 ^ (e - 1)) by (rewrite <-Z.pow_succ_r by lia; f_equal; lia).
  pose proof (Z.div_mod n (2 ^ e) ltac:(pose proof (Z.pow_pos_nonneg 2 e); lia)) as Hd.
  pose proof (Z.mod_pos_bound n (2 ^ e) ltac:(apply Z.pow_pos_nonneg; lia)) as Hm.
  set (q := n / 2 ^ e) in *. set (r := n mod 2 ^ e) in *. set (h := 2 ^ (e - 1)) in *.
  assert (Hr : 2 * Z.abs ((if (h <? r) || ((r =? h) && Z.odd q) then q + 1 else q) * 2 ^ e - n) ≤ 2 ^ e).
  { destruct (Z.ltb_spec h r); cbn [orb].
    - replace ((q + 1) * 2 ^ e - n) with (2 ^ e - r) by lia. lia.
    - destruct (Z.eqb_spec r h); cbn [andb]; [destruct (Z.odd q)|].
      + replace ((q + 1) * 2 ^ e - n) with (2 ^ e - r) by lia. lia.
      + replace (q * 2 ^ e - n) with (- r) by lia. lia.
      + replace (q * 2 ^ e - n) with (- r) by lia. lia. }
  replace (2 ^ 53) with (2 ^ 52 * 2) by reflexivity. nia.
Qed.

Definition bound_groups (st : ifaceState) : list Z :=
  filter (λ g, is_Some (flow_lookup g st)) (seqZ 0 (Zlen (is_flows st))).

Lemma collect_groups_from iface st groups g0 :
  iface_ok st → 0 ≤ g0 →
  (∀ i, flow_lookup (g0 + Z.of_nat i) st = mjoin (groups !! i)) →
  collect_groups iface (is_shards st) g0 groups =
  (λ g, mkFlowSeries iface (hex4 g) (float64_of (u64 (flow_sum fc_packets st g))) (float64_of (u64 (flow_sum fc_bytes st g)))) <$>
    filter (λ g, is_Some (flow_lookup g st)) (seqZ g0 (Zlen groups)).
Proof.
  intros Hok. revert g0. induction groups as [|e groups IH]; intros g0 Hg0 Hl; [done|].
  assert (E0 : flow_lookup g0 st = e) by (specialize (Hl 0%nat); rewrite Z.add_0_r in Hl; done).
  rewrite Zlen_cons, seqZ_cons by (pose proof (Zlen_nonneg groups); lia).
  replace (Z.pred (1 + Zlen groups)) with (Zlen groups) by lia. unfold Z.succ.
  rewrite filter_cons. specialize (IH (g0 + 1) ltac:(lia)).
  assert (Hl' : ∀ i, flow_lookup (g0 + 1 + Z.of_nat i) st = mjoin (groups !! i)).
  { intros i. specialize (Hl (S i)). simpl in Hl. rewrite <- Hl. f_equal. lia. }
  destruct e as [p|]; simpl.
  - rewrite decide_True by (rewrite E0; eauto). simpl. rewrite IH by done. f_equal.
    unfold flow_sum. rewrite E0, sum_cells_Zsum. done.
  - rewrite decide_False by (rewrite E0; by intros []). by apply IH.
Qed.

Lemma collect_iface_spec st :
  iface_ok st →
  collect_iface st =
  (λ g, mkFlowSeries (is_iface st) (hex4 g) (float64_of (u64 (flow_sum fc_packets st g))) (float64_of (u64 (flow_sum fc_bytes st g)))) <$>
    bound_groups st.
Proof.
  intros Hok. apply collect_groups_from; [done|lia|]. intros i. rewrite Z.add_0_l. unfold flow_lookup.
  rewrite Nat2Z.id. destruct (Z.ltb_spec (Z.of_nat i) (Zlen (is_flows st))) as [H|H]; [done|].
  rewrite (proj2 (lookup_ge_None _ _)); [done|]. unfold Zlen in H. lia.
Qed.

(** The groups a list of calls names, in order. *)
Definition named_groups (calls : list Call) : list Z :=
  filter (λ g, g ∈ c_group <$> calls) (seqZ 0 (foldr Z.max 0 ((λ c, c_group c + 1) <$> calls))).

Lemma filter_none {A} (P : A → Prop) `{∀ x, Decision (P x)} (l : list A) : (∀ x, x ∈ l → ¬ P x) → filter P l = [].
Proof.
  induction l as [|x l IH]; intros HP; [done|]. rewrite filter_cons, decide_False by (apply HP; set_solver).
  apply IH. set_solver.
Qed.

Lemma filter_ext_in {A} (P Q : A → Prop) `{∀ x, Decision (P x), ∀ x, Decision (Q x)} (l : list A) :
  (∀ x, x ∈ l → P x ↔ Q x) → filter P l = filter Q l.
Proof.
  induction l as [|x l IH]; intros HPQ; [done|]. rewrite !filter_cons, IH by set_solver.
  pose proof (HPQ x ltac:(set_solver)). by repeat case_decide; try tauto.
Qed.

Lemma filter_seqZ_cut (P : Z → Prop) `{∀ x, Decision (P x)} k l :
  0 ≤ k ≤ l → (∀ g, 0 ≤ g → P g → g < k) → filter P (seqZ 0 l) = filter P (seqZ 0 k).
Proof.
  intros Hkl HP. replace l with (k + (l - k)) by lia. rewrite seqZ_app, list.filter_app by lia.
  rewrite (filter_none P (seqZ (0 + k) _)), app_nil_r; [done|].
  intros g Hg HPg. apply elem_of_seqZ in Hg. specialize (HP g ltac:(lia) HPg). lia.
Qed.

Lemma filter_seqZ_ext (P Q : Z → Prop) `{∀ x, Decision (P x), ∀ x, Decision (Q x)} n m :
  0 ≤ n → 0 ≤ m → (∀ g, 0 ≤ g → P g ↔ Q g) → (∀ g, 0 ≤ g → P g → g < n) → (∀ g, 0 ≤ g → Q g → g < m) →
  filter P (seqZ 0 n) = filter Q (seqZ 0 m).
Proof.
  intros Hn Hm HPQ HP HQ.
  rewrite <- (filter_seqZ_cut P n (Z.max n m)), <- (filter_seqZ_cut Q m (Z.max n m)) by (done || lia).
  apply filter_ext_in. intros g Hg. apply elem_of_seqZ in Hg. apply HPQ. lia.
Qed.

Lemma max_groups calls c : c ∈ calls → c_group c < foldr Z.max 0 ((λ c, c_group c + 1) <$> calls).
Proof.
  induction calls as [|d calls IH]; [set_solver|]. rewrite fmap_cons, elem_of_cons. cbn [foldr].
  intros [-> | H]; [|specialize (IH H)]; lia.
Qed.

Lemma max_groups_nonneg calls : 0 ≤ foldr Z.max 0 ((λ c, c_group c + 1) <$> calls).
Proof. induction calls; [done|]. rewrite fmap_cons. cbn [foldr]. lia. Qed.

(** ** What the run ends with *)

Lemma owed_start (f : Z → Z → Call → Z) (due : Z → Z → Thread → Z) nw g calls :
  (∀ cs, due nw g (mkThread cs FIdle) = Zsum (f nw g <$> cs)) →
  owed (due nw g) (start calls) = Zsum (f nw g <$> mjoin calls).
Proof.
  intros Hd. unfold owed, start. induction calls as [|cs calls IH]; [done|].
  simpl. rewrite Hd, fmap_app, Zsum_app. f_equal. done.
Qed.

Lemma due_groups_start g calls : g ∈ mjoin (due_groups <$> start calls) ↔ g ∈ c_group <$> mjoin calls.
Proof. unfold start. induction calls as [|cs calls IH]; [done|]. simpl. rewrite fmap_app, !elem_of_app, IH. done. Qed.

Lemma finished_due ts nw g :
  Forall finished ts →
  owed (due_packets nw g) ts = 0 ∧ owed (due_bytes nw g) ts = 0 ∧ mjoin (due_groups <$> ts) = [].
Proof.
  unfold owed. induction 1 as [|[todo pc] ts [Ht Hp] Hts (H1 & H2 & H3)]; [done|]. simpl in Ht, Hp. subst.
  rewrite !fmap_cons. split_and!; [exact H1|exact H2|exact H3].
Qed.

(** Once every thread is done, the table holds exactly the calls made. *)
Lemma flows_after_run iface nw calls sched :
  let s := sys_run sched (newIfaceState iface nw, start calls) in
  let n := if nw <? 1 then 1 else nw in
  Forall call_ok (mjoin calls) → Forall finished s.2 →
  iface_ok s.1 ∧ is_iface s.1 = iface ∧
  ∀ g, 0 ≤ g →
    u64 (flow_sum fc_packets s.1 g) = u64 (Zsum (call_packets n g <$> mjoin calls)) ∧
    u64 (flow_sum fc_bytes s.1 g) = u64 (Zsum (call_bytes n g <$> mjoin calls)) ∧
    (is_Some (flow_lookup g s.1) ↔ g ∈ c_group <$> mjoin calls).
Proof.
  intros s n Hcs Hfin.
  assert (H0 : sys_ok (newIfaceState iface nw, start calls)).
  { split; [apply new_iface_ok|]. apply list.Forall_forall. intros t Ht. simpl in Ht.
    apply list_elem_of_fmap in Ht as (cs & -> & Hin). split; [|done]. simpl.
    rewrite list.Forall_forall in Hcs. apply list.Forall_forall. intros c Hc. apply Hcs.
    apply list_elem_of_join. eauto. }
  destruct (sys_run_same sched _ H0) as [[Hok _] (Hnw & Hif & Hg)]. fold s in Hok, Hnw, Hif, Hg.
  split_and!; [done|done|]. intros g Hg0. destruct (Hg g Hg0) as (HP & HB & HG). cbv zeta in *.
  destruct (finished_due s.2 n g Hfin) as (D1 & D2 & D3).
  change (is_numWorkers (newIfaceState iface nw, start calls).1) with n in *. simpl in HP, HB, HG.
  rewrite D1, Z.add_0_r in HP. rewrite D2, Z.add_0_r in HB. rewrite D3 in HG.
  rewrite (owed_start call_packets due_packets) in HP by done.
  rewrite (owed_start call_bytes due_bytes) in HB by done.
  assert (Hn : flow_lookup g (newIfaceState iface nw) = None).
  { apply eq_None_not_Some. intros [p Hp]. apply flow_lookup_Some in Hp; [|done]. simpl in Hp. by rewrite lookup_nil in Hp. }
  unfold flow_sum in HP at 2, HB at 2. rewrite Hn in HP, HB, HG. rewrite due_groups_start in HG.
  split_and!; [done..|]. split.
  - intros Hs. destruct (proj1 HG (or_introl Hs)) as [Hx|Hx]; [by destruct Hx|done].
  - intros Hs. destruct (proj2 HG (or_intror Hs)) as [Hx|Hx]; [done|]. by apply elem_of_nil in Hx.
Qed.
