(* ===== verification/RecorderProps.v ===== *)
(** * Properties of the metrics recorder

    The caches of the hot path are transparent (every event produces the
    samples of a recorder without them, under declared instruments and
    without a panic), and the concurrent flow counters export exactly what
    was recorded. *)

From S2P Require Import Prelude Common Recorder FlowCounters.

(** ** The samples of an event, with no cache *)

Definition hot_labels (iface : string) (w : Z) : list (string * string) :=
  [("worker", Itoa w); ("network_interface_name", iface)].

Definition otel_worker (iface : string) (w : Z) : list (string * string) :=
  [("worker", Itoa w); ("network.interface.name", iface)].

Definition series (name : string) (labels : list (string * string)) (v : Z) : Sample :=
  mkSample (mkHandle name labels) v.

Definition event_samples (ev : Event) : list Sample :=
  match ev with
  | EvPacketReceived iface w size =>
      let l := hot_labels iface w in
      [series "bsp_packets_received_total" l 1; series "bsp_bytes_received_total" l size;
       series "bsp_packet_size_bytes" l size]
  | EvPacketDropped iface w reason =>
      [series "bsp_packets_dropped_total" (hot_labels iface w ++ [("reason", reason)]) 1]
  | EvPacketForwarded iface w _ size =>
      let l := hot_labels iface w in
      [series "bsp_packets_forwarded_total" l 1; series "bsp_bytes_forwarded_total" l size]
  | EvControlFrameForwarded label => [series "bsp_control_frames_forwarded_total" [("ctrl_group", label)] 1]
  | EvEgressError iface w => [series "bsp_egress_errors_total" (hot_labels iface w) 1]
  | EvIngressError iface w => [series "bsp_ingress_errors_total" (hot_labels iface w) 1]
  | EvFrameFragmented w k =>
      [series "bsp_frames_fragmented_total" (otel_worker "" w) 1;
       series "bsp_fragments_emitted_total" (otel_worker "" w) k]
  | EvCoalesceFlushed iface w n reason =>
      let l := otel_worker iface w in
      series "bsp_coalesce_flush_total" (l ++ [("reason", reason)]) 1 ::
      (if 0 <? n then
         [series "bsp_coalesce_bundles_total" l 1; series "bsp_coalesce_members_total" l n;
          series "bsp_coalesce_members_per_bundle" l n]
       else [])
  | EvIngressDeduped iface w t =>
      [series "bsp_ingress_deduped_total" (otel_worker iface w ++ [("frame_type", t)]) 1]
  | EvIngressMetered class privileged size =>
      let l := [("class", class_String class); ("tier", tier_String privileged)] in
      [series "bsp_ingress_class_bytes_total" l size; series "bsp_ingress_class_packets_total" l 1]
  | EvPrivilegedFrameRejected t => [series "bsp_privileged_frame_rejected_total" [("frame_type", t)] 1]
  | EvBlockPoWRejected => [series "bsp_block_pow_rejected_total" [] 1]
  | EvSubtreeRootCheck result => [series "bsp_subtree_root_checks_total" [("result", result)] 1]
  | EvBEEFSubmission result => [series "bsp_beef_submissions_total" [("result", result)] 1]
  | EvBEEFTopics named deliverable =>
      series "bsp_beef_topics_total" [("topic_role", "deliverable")] deliverable ::
      (if 0 <? named - deliverable
       then [series "bsp_beef_topics_total" [("topic_role", "label")] (named - deliverable)] else [])
  | EvTeeFailed kind n => if n <=? 0 then [] else [series "bsp_tee_failed_total" [("kind", kind)] n]
  | EvTCPBytesReceived n => [series "bsp_tcp_bytes_received_total" [] n]
  | EvTCPConnectionAccepted => [series "bsp_tcp_connections_total" [] 1]
  end.

(** The attribute names the measurements of each OpenTelemetry instrument
    carry. *)
Definition otel_schema : list MetricVec :=
  zip_with mkVec otelInstruments
    [["field"; "kind"];
     ["field"; "reason"];
     [];
     ["worker"; "network.interface.name"];
     ["worker"; "network.interface.name"];
     ["worker"; "network.interface.name"];
     ["worker"; "network.interface.name"];
     ["worker"; "network.interface.name"; "reason"];
     ["worker"; "network.interface.name"];
     ["kind"];
     ["ctrl_group"];
     [];
     [];
     ["worker"; "network.interface.name"; "frame_type"];
     ["frame_type"];
     [];
     ["result"];
     ["result"];
     ["topic_role"]].

(** A series of an instrument [New] made, with exactly its label names. *)
Definition declared (s : Sample) : bool :=
  existsb (λ v, String.eqb (v_name v) (hd_name (sm_series s)) &&
                bool_decide (v_labels v = (hd_labels (sm_series s)).*1)) (promVecs ++ otel_schema).

Lemma event_samples_declared ev : Forall (λ s, declared s = true) (event_samples ev).
Proof.
  destruct ev; simpl; repeat case_match; repeat apply Forall_cons_2; try apply Forall_nil_2; reflexivity.
Qed.

(** ** The caches *)

Record iface_cache_ok (iface : string) (st : ifaceState) : Prop := {
  ic_name : is_iface st = iface;
  ic_flows : iface_ok st;
  ic_hot : ∀ w hp, is_workers st !! w = Some (Some hp) → bind_hot iface (Z.of_nat w) = Some hp }.

Definition fresh_opts (k : coalesceKey) : coalesceOpts :=
  let '(iface, w, reason) := k in
  mkCoalesceOpts (otel_worker iface w ++ [("reason", reason)]) (otel_worker iface w).

Record recorder_ok (r : Recorder) : Prop := {
  ro_ifaces : map_Forall iface_cache_ok (r_ifaceStates r);
  ro_series : map_Forall (λ k o, o = fresh_opts k) (r_coalesceSeries r) }.

Lemma NewRecorder_ok n now : recorder_ok (NewRecorder n now).
Proof. split; apply map_Forall_empty. Qed.

Lemma add_sample_ok h v r : recorder_ok r → recorder_ok (add_sample h v r).
Proof. intros []. by split. Qed.

Lemma ifaceState_get_ok iface r :
  recorder_ok r →
  iface_cache_ok iface (ifaceState_get iface r).1 ∧ recorder_ok (ifaceState_get iface r).2 ∧
  r_samples (ifaceState_get iface r).2 = r_samples r.
Proof.
  intros [Hi Hs]. unfold ifaceState_get. destruct (r_ifaceStates r !! iface) as [st|] eqn:E; simpl.
  - split_and!; [by apply (Hi iface)|by split|done].
  - assert (iface_cache_ok iface (newIfaceState iface (r_numWorkers r))) as Hn.
    { split; [done|apply new_iface_ok|]. intros w hp Hw. simpl in Hw.
      apply lookup_replicate in Hw as [[=] _]. }
    split_and!; [done| |done]. split; [|done]. simpl. by apply map_Forall_insert_2.
Qed.

Lemma put_ifaceState_ok iface st r :
  iface_cache_ok iface st → recorder_ok r → recorder_ok (put_ifaceState st r).
Proof.
  intros Hst [Hi Hs]. split; [|done]. simpl. rewrite (ic_name _ _ Hst). by apply map_Forall_insert_2.
Qed.

(** The handles of a worker are the fresh ones, cached or not. *)
Lemma worker_hot_ok iface w st :
  iface_cache_ok iface st →
  ∃ hp st', worker_hot w st = Some (hp, st') ∧ bind_hot iface w = Some hp ∧ iface_cache_ok iface st'.
Proof.
  intros Hst. unfold worker_hot. rewrite (ic_name _ _ Hst).
  destruct (in_range w (is_workers st)) eqn:Hr.
  2:{ simpl. eexists _, st. by split_and!. }
  unfold in_range in Hr. apply andb_true_iff in Hr as [H0%Z.leb_le H1%Z.ltb_lt].
  destruct (is_workers st !! Z.to_nat w) as [[hp|]|] eqn:E; simpl.
  - exists hp, st. split_and!; [done| |done]. pose proof (ic_hot _ _ Hst _ _ E) as Hb.
    by rewrite Z2Nat.id in Hb.
  - eexists _, _. split_and!; [done|done|]. split; simpl; [apply Hst|destruct (ic_flows _ _ Hst); by split|].
    intros i hp. destruct (decide (i = Z.to_nat w)) as [-> | Hne].
    + rewrite list_lookup_insert_eq by (by eapply lookup_lt_Some). intros [= <-]. by rewrite Z2Nat.id.
    + rewrite list_lookup_insert_ne by done. apply Hst.
  - apply lookup_ge_None in E. unfold Zlen in H1. lia.
Qed.

Lemma addFlow_cache_ok iface w g size st :
  0 ≤ g → iface_cache_ok iface st → iface_cache_ok iface (addFlow w g size st).
Proof.
  intros Hg [Hn Hf Hh]. unfold addFlow.
  set (b := match flow_lookup g st with Some p => (p, st) | None => bindFlow g st end).
  assert (Hb : iface_ok b.2 ∧ is_iface b.2 = iface ∧ is_workers b.2 = is_workers st).
  { unfold b. destruct (flow_lookup g st) eqn:E; [done|].
    destruct (bindFlow_spec g st Hf Hg) as (? & _ & _ & _ & _ & _ & ?).
    split_and!; [done|congruence|]. unfold bindFlow. by rewrite E. }
  destruct Hb as (H1 & H2 & H3).
  destruct (cell_update_spec b.1 w inc_packets b.2 H1) as (K1 & _ & _ & K2).
  destruct (cell_update_spec b.1 w (add_bytes size) (cell_update b.1 w inc_packets b.2) K1) as (L1 & _ & _ & L2).
  split; [congruence|done|]. intros i hp.
  replace (is_workers _) with (is_workers st); [apply Hh|].
  unfold cell_update. by repeat case_match.
Qed.

(** Group indices are unsigned in the code. *)
Definition event_ok (ev : Event) : Prop :=
  match ev with EvPacketForwarded _ _ g _ => 0 ≤ g | _ => True end.

Lemma record_event_spec ev r :
  recorder_ok r → event_ok ev →
  ∃ r', record_event ev r = Some r' ∧ recorder_ok r' ∧ r_samples r' = r_samples r ++ event_samples ev.
Proof.
  intros Hr He.
  destruct ev; simpl in He |- *;
    try (eexists; split_and!; [reflexivity|by repeat apply add_sample_ok|by simpl; rewrite <- ?app_assoc]).
  - destruct (ifaceState_get_ok iface r Hr) as (H1 & H2 & H3).
    destruct (worker_hot_ok iface worker _ H1) as (hp & st' & E & Hb & H4).
    unfold PacketReceived. rewrite E. injection Hb as <-. simpl.
    eexists. split_and!; [reflexivity|by repeat apply add_sample_ok; eapply put_ifaceState_ok|].
    simpl. by rewrite H3, <- !app_assoc.
  - destruct (ifaceState_get_ok iface r Hr) as (H1 & H2 & H3).
    destruct (worker_hot_ok iface worker _ H1) as (hp & st' & E & Hb & H4).
    unfold PacketForwarded. rewrite E. injection Hb as <-. simpl.
    eexists. split_and!; [reflexivity| |by simpl; rewrite H3, <- !app_assoc].
    repeat apply add_sample_ok. eapply put_ifaceState_ok; [by apply addFlow_cache_ok|done].
  - unfold CoalesceFlushed, coalesceOptions.
    set (k := (iface, worker, reason) : coalesceKey).
    destruct Hr as [Hi Hs]. destruct (r_coalesceSeries r !! k) as [o|] eqn:E; simpl.
    + rewrite (Hs k o E). destruct (0 <? n); eexists; (split_and!; [reflexivity|by split|]);
        simpl; by rewrite <- ?app_assoc.
    + assert (map_Forall (λ k o, o = fresh_opts k) (<[k := fresh_opts k]> (r_coalesceSeries r)))
        by (by apply map_Forall_insert_2).
      destruct (0 <? n); eexists; (split_and!; [reflexivity|by split|]); simpl; by rewrite <- ?app_assoc.
  - unfold BEEFTopics. destruct (0 <? _);
      (eexists; split_and!; [reflexivity|by repeat apply add_sample_ok|by simpl; rewrite <- ?app_assoc]).
  - unfold TeeFailed. destruct (n <=? 0);
      (eexists; split_and!; [reflexivity|by repeat apply add_sample_ok|by simpl; rewrite ?app_nil_r]).
Qed.

Lemma record_events_spec evs r :
  recorder_ok r → Forall event_ok evs →
  ∃ r', record_events evs r = Some r' ∧ recorder_ok r' ∧ r_samples r' = r_samples r ++ (evs ≫= event_samples).
Proof.
  intros Hr He. revert r Hr. induction He as [|ev evs Hev _ IH]; intros r Hr.
  - exists r. split_and!; [done|done|]. by rewrite app_nil_r.
  - destruct (record_event_spec ev r Hr Hev) as (r1 & E1 & Hr1 & S1).
    destruct (IH r1 Hr1) as (r2 & E2 & Hr2 & S2). exists r2. split_and!; [|done|].
    + simpl. by rewrite E1.
    + rewrite S2, S1, <- app_assoc. done.
Qed.

(** C26: whatever the data path reports, the recorder never panics (no
    method binds a series with the wrong number of labels), its caches are
    invisible (the measurements it hands over are, in order, those of a
    recorder that binds every series afresh), and every measurement belongs
    to an instrument New created, under exactly the label names declared
    there. *)
Theorem recorder_caches_transparent evs numWorkers now :
  Forall event_ok evs →
  ∃ r, record_events evs (NewRecorder numWorkers now) = Some r ∧
    r_samples r = evs ≫= event_samples ∧ Forall (λ s, declared s = true) (r_samples r).
Proof.
  intros He. destruct (record_events_spec evs _ (NewRecorder_ok numWorkers now) He) as (r & E & _ & S).
  exists r. split_and!; [done|done|]. rewrite S. simpl.
  apply list.Forall_forall. intros s Hs. apply list_elem_of_bind in Hs as (ev & Hin & _).
  pose proof (event_samples_declared ev) as F. rewrite list.Forall_forall in F. auto.
Qed.

Lemma recorder_caches_transparent_witness :
  let evs := [EvPacketReceived "eth0" 1 300; EvPacketForwarded "eth0" 1 7 300; EvPacketForwarded "eth0" (-1) 7 90;
              EvCoalesceFlushed "eth0" 0 3 "batch"; EvCoalesceFlushed "eth0" 0 0 "batch"; EvBEEFTopics 3 1] in
  ∃ r, record_events evs (NewRecorder 2 0) = Some r ∧
    r_samples r = evs ≫= event_samples ∧ Forall (λ s, declared s = true) (r_samples r).
Proof.
  apply recorder_caches_transparent. repeat apply Forall_cons_2; try apply Forall_nil_2; simpl; lia.
Defined.

(** A call of [addFlow] is its thread run to the end. *)
Lemma addFlow_thread w g size st :
  ∃ n, sys_run (replicate n 0%nat) (st, [mkThread [mkCall w g size] FIdle]) =
       (addFlow w g size st, [mkThread [] FIdle]).
Proof.
  destruct (flow_lookup g st) as [p|] eqn:E; [exists 3%nat|exists 4%nat];
    unfold sys_run, sys_step, thread_step, addFlow; simpl; rewrite E; done.
Qed.

(** What [n] workers' calls to a group amount to. *)
Definition group_series (iface : string) (nw : Z) (calls : list Call) (g : Z) : FlowSeries :=
  let n := if nw <? 1 then 1 else nw in
  mkFlowSeries iface (hex4 g) (float64_of (u64 (Zsum (call_packets n g <$> calls))))
    (float64_of (u64 (Zsum (call_bytes n g <$> calls)))).

Lemma collect_after_run iface nw calls sched :
  let s := sys_run sched (newIfaceState iface nw, start calls) in
  Forall call_ok (mjoin calls) → Forall finished s.2 →
  collect_iface s.1 = group_series iface nw (mjoin calls) <$> named_groups (mjoin calls).
Proof.
  intros s Hcs Hfin. destruct (flows_after_run iface nw calls sched Hcs Hfin) as (Hok & Hif & Hg).
  fold s in Hok, Hif, Hg. rewrite collect_iface_spec by done. unfold bound_groups, named_groups.
  rewrite (filter_seqZ_ext _ (λ g, g ∈ c_group <$> mjoin calls) _
             (foldr Z.max 0 ((λ c, c_group c + 1) <$> mjoin calls))).
  - apply list_fmap_ext. intros i g Hi. apply list_elem_of_lookup_2, list_elem_of_filter in Hi as [_ Hi].
    apply elem_of_seqZ in Hi. destruct (Hg g ltac:(lia)) as (P & B & _).
    unfold group_series. by rewrite Hif, P, B.
  - apply Zlen_nonneg.
  - apply max_groups_nonneg.
  - intros g Hg0. apply Hg. done.
  - intros g Hg0 [p Hp]. unfold flow_lookup in Hp. destruct (Z.ltb_spec g (Zlen (is_flows s.1))); done.
  - intros g Hg0 Hin. apply list_elem_of_fmap in Hin as (c & -> & Hc). by apply max_groups.
Qed.


(** Two workers race to bind group 5 and one of them also sends to group 2. *)
Definition race_calls : list (list Call) :=
  [[mkCall 0 5 100; mkCall 0 2 10]; [mkCall 1 5 200; mkCall 1 5 50]].
Definition race_sched : list nat := [0; 1; 1; 0; 0; 1; 0; 1; 1; 0; 0; 1; 0; 1; 0]%nat.


(** A forwarded datagram recorded under a worker id that owns no cell
    (the TCP and push lanes record -1) binds its group, which is exported and
    counted as active, but never raises its packet or byte counter: traffic
    of those lanes reads zero in the per-group flow series. *)
Theorem flows_without_worker_invisible iface nw calls sched :
  let s := sys_run sched (newIfaceState iface nw, start calls) in
  Forall call_ok (mjoin calls) → Forall (λ c, c_worker c < 0) (mjoin calls) → Forall finished s.2 →
  collect_iface s.1 = (λ g, mkFlowSeries iface (hex4 g) 0 0) <$> named_groups (mjoin calls).
Proof.
  intros s Hcs Hw Hfin. etransitivity; [exact (collect_after_run iface nw calls sched Hcs Hfin)|].
  apply list_fmap_ext. intros _ g _. unfold group_series.
  assert (Z0 : ∀ f : Z → Z → Call → Z, (∀ n c, c_worker c < 0 → f n g c = 0) → ∀ n, Zsum (f n g <$> mjoin calls) = 0).
  { intros f Hf n. apply Zsum_zero, list.Forall_fmap. revert Hw. apply Forall_impl. intros c. apply Hf. }
  rewrite !Z0; [done| |]; intros n c Hc; unfold call_packets, call_bytes, counts;
    rewrite (proj2 (Z.leb_gt 0 (c_worker c))) by lia; by rewrite andb_false_r.
Qed.

Lemma flows_without_worker_invisible_witness :
  let calls := [[mkCall (-1) 5 100; mkCall (-1) 5 70]; [mkCall (-1) 2 10]] in
  collect_iface (sys_run [0; 1; 1; 1; 1; 0; 0; 0; 0; 0; 0]%nat (newIfaceState "eth0" 4, start calls)).1 =
  [mkFlowSeries "eth0" "0002" 0 0; mkFlowSeries "eth0" "0005" 0 0].
Proof.
  intros calls.
  assert (H : Forall call_ok (mjoin calls)).
  { repeat apply Forall_cons_2; try apply Forall_nil_2; unfold call_ok; simpl; lia. }
  etransitivity; [apply (flows_without_worker_invisible "eth0" 4 calls); [exact H| | ]|vm_compute; reflexivity].
  - repeat apply Forall_cons_2; try apply Forall_nil_2; simpl; lia.
  - vm_compute. repeat apply Forall_cons_2; try apply Forall_nil_2; done.
Defined.
