(* ===== verification/Logging.v ===== *)
(** * Logging and claims (forwarder/egress.go: logWriteError, main.go)

    What the egress logs about a failed write and whether it agrees with what
    the recorder counts; the log level main starts with; and the adapter that
    turns the dedup store's callbacks into counters.  The throttle is the
    logging package's: its answer, whether to log and how many lines were
    suppressed, is an argument. *)

From S2P Require Import Prelude Common BatchWriter RetryTee Coal Egress Config Recorder.

(** ** Write errors *)

(** A warning about a write: its message, the interface, datagrams queued and
    dropped, the errno when there is one, and the lines suppressed before. *)
Record WriteWarning := mkWriteWarning {
  ww_msg : string; ww_iface : string; ww_queued : Z; ww_dropped : Z; ww_errno : option Errno; ww_suppressed : Z }.

(** [errnoOf]: [errors.As] finds an errno only in an error that is one. *)
Definition errnoOf (err : SendErr) : option Errno :=
  match err with ErrErrno e => Some e | _ => None end.

Definition logWriteError (throttle : bool * Z) (iface : string) (queued sent : Z) (err : SendErr) : option WriteWarning :=
  if throttle.1 then
    let dropped := if 0 <? sent then queued - sent else queued in
    let msg := match errnoOf err with
               | Some ENOBUFS => "egress ENOBUFS: kernel send buffer / qdisc backpressure"
               | _ => "egress write error"
               end in
    Some (mkWriteWarning msg iface queued dropped (errnoOf err) throttle.2)
  else None.

(** [recordWrite]: the metrics of a drain of the egress's own queue. *)
Definition recordWrite (e : Egress) (targetIdx : nat) (sent : Z) (err : option SendErr) : option (list Event) :=
  iface ← e_targets e !! targetIdx; Some (recordMeta (e_rec e) iface sent err (e_meta e)).

(** One target of [Flush] without the reliable lane: what it logs and what it
    records. *)
Definition flush_target `{Kernel} (throttle : bool * Z) (rec : bool) (i : nat) (iface : string) (k : KState)
    (msgs : list Message) (meta : list msgMeta) : option WriteWarning * list Event :=
  let w := writeBatchAll (WTarget i) k msgs in
  (match w.1.2 with Some err => logWriteError throttle iface (Zlen msgs) w.1.1 err | None => None end,
   recordMeta rec iface w.1.1 w.1.2 meta).

(** The reliable lane logs what it surrenders after its retries. *)
Definition flush_reliable_target `{Kernel} (throttle : bool * Z) (rec : bool) (i : nat) (iface : string) (k : KState)
    (msgs : list Message) (meta : list msgMeta) : option WriteWarning * list Event :=
  let w := (reliableLoop (reliable_fuel msgs 0) (WTarget i) k msgs 0).1 in
  (match w.2 with Some err => logWriteError throttle iface (Zlen msgs) w.1 err | None => None end,
   recordMeta rec iface w.1 w.2 meta).

Definition is_drop (e : Event) : bool := match e with EvPacketDropped _ _ _ => true | _ => false end.

(** Datagrams recorded as dropped. *)
Definition dropped_count (evs : list Event) : Z := Zlen (filter (λ e, is_drop e = true) evs).

Lemma dropped_count_app a b : dropped_count (a ++ b) = dropped_count a + dropped_count b.
Proof. unfold dropped_count. by rewrite list.filter_app, Zlen_app. Qed.

Lemma forwarded_not_dropped iface meta : dropped_count (meta_forwarded iface <$> meta) = 0.
Proof.
  unfold dropped_count. induction meta as [|m meta IH]; [done|]. rewrite fmap_cons, filter_cons.
  rewrite decide_False by (unfold meta_forwarded; by destruct (String.eqb _ _)). done.
Qed.

Lemma dropped_all iface meta : dropped_count (meta_dropped iface <$> meta) = Zlen meta.
Proof.
  unfold dropped_count. induction meta as [|m meta IH]; [done|]. rewrite fmap_cons, filter_cons, decide_True by done.
  by rewrite !Zlen_cons, IH.
Qed.

Lemma recordMeta_dropped iface sent err meta :
  0 ≤ sent ≤ Zlen meta → dropped_count (recordMeta true iface sent err meta) = Zlen meta - sent.
Proof.
  intros Hs. unfold recordMeta. rewrite (proj2 (Z.ltb_ge sent 0)), (proj2 (Z.ltb_ge (Zlen meta) sent)) by lia.
  rewrite !dropped_count_app, forwarded_not_dropped, dropped_all.
  replace (dropped_count _) with 0 by (by destruct err). unfold Zlen in *. rewrite length_drop. lia.
Qed.

Lemma reliable_range `{Kernel} fuel w k ms attempts : 0 ≤ (reliableLoop fuel w k ms attempts).1.1 ≤ Zlen ms.
Proof.
  revert k ms attempts. induction fuel as [|fuel IH]; intros k ms attempts; [destruct ms; cbn; unfold Zlen; lia|].
  destruct ms as [|m ms]; [done|]. cbn [reliableLoop]. cbv zeta. pose proof (writeBatchAll_range w k (m :: ms)) as Hr.
  destruct (writeBatchAll w k (m :: ms)) as [[sent err] k']. cbn [fst snd] in *.
  destruct (_ && _); [done|]. destruct (is_hard err); [done|]. destruct (_ <=? _); [done|]. cbn [fst snd].
  specialize (IH k' (drop (Z.to_nat sent) (m :: ms)) ((if 0 <? sent then 0 else attempts) + 1)).
  unfold Zlen in *. rewrite length_drop in IH. lia.
Qed.

Lemma warning_dropped suppressed iface queued sent err :
  0 ≤ sent → ww_dropped <$> logWriteError (true, suppressed) iface queued sent err = Some (queued - sent).
Proof. intros Hs. unfold logWriteError. cbn. destruct (Z.ltb_spec 0 sent); do 2 f_equal; lia. Qed.

(** What is logged is what is counted.  When a drain of a target ends in an
    error and the throttle lets it be logged, the number of datagrams the
    warning says were dropped is the number the recorder counts as dropped,
    on the plain and on the reliable lane. *)
Theorem warning_agrees_with_metrics `{Kernel} (reliable : bool) suppressed i iface k msgs meta :
  length meta = length msgs →
  let r := (if reliable then flush_reliable_target else flush_target) (true, suppressed) true i iface k msgs meta in
  is_Some r.1 → ww_dropped <$> r.1 = Some (dropped_count r.2).
Proof.
  intros Hlen r. assert (Hz : Zlen meta = Zlen msgs) by (unfold Zlen; by rewrite Hlen). unfold r.
  destruct reliable; unfold flush_reliable_target, flush_target; cbv zeta; cbn [fst snd].
  - pose proof (reliable_range (reliable_fuel msgs 0) (WTarget i) k msgs 0) as Hr.
    destruct (reliableLoop _ _ _ _ _).1 as [sent [err|]]; [|by intros []]. intros _. cbn [fst snd] in *.
    rewrite warning_dropped, recordMeta_dropped, Hz by lia. done.
  - pose proof (writeBatchAll_range (WTarget i) k msgs) as Hr.
    destruct (writeBatchAll _ _ _).1 as [sent [err|]]; [|by intros []]. intros _. cbn [fst snd] in *.
    rewrite warning_dropped, recordMeta_dropped, Hz by lia. done.
Qed.

(** ** The process's own log level and the dedup store's callbacks *)

Section Process.
Context {Level : Type} (ParseLevel : string → Level) (LevelDebug : Level).

(** -debug forces the debug level. *)
Definition log_level (logLevel : string) (debug : bool) : Level :=
  if debug then LevelDebug else ParseLevel logLevel.
End Process.

(** [txidsetRecorder]: claims are counted, marks are not. *)
Inductive StoreCallback :=
| ClaimLocalHit (p : string) | ClaimWon (p : string) | ClaimLost (p : string) | ClaimError (p : string)
| MarkSet (p : string) | MarkExisted (p : string) | MarkError (p : string) | MarkDropped (p : string).

Definition txidsetRecorder (c : StoreCallback) (r : Recorder) : option Recorder :=
  match c with
  | ClaimLocalHit p => TxidClaimLocalHit p r
  | ClaimWon p => TxidClaimWon p r
  | ClaimLost p => TxidClaimLost p r
  | ClaimError p => TxidClaimError p r
  | MarkSet _ | MarkExisted _ | MarkError _ | MarkDropped _ => Some r
  end.

Definition is_claim (c : StoreCallback) : bool :=
  match c with ClaimLocalHit _ | ClaimWon _ | ClaimLost _ | ClaimError _ => true | _ => false end.

(** Whatever the store reports, the adapter does not panic and adds one
    sample per claim. *)
Theorem store_callbacks_counted cs r :
  ∃ r', foldl (λ r c, r ← r; txidsetRecorder c r) (Some r) cs = Some r' ∧
    Zlen (r_samples r') = Zlen (r_samples r) + Zlen (filter (λ c, is_claim c = true) cs).
Proof.
  revert r. induction cs as [|c cs IH]; intros r; [exists r; split; [done|]; cbn; unfold Zlen; cbn; lia|].
  assert (Hc : ∃ r1, txidsetRecorder c r = Some r1 ∧ Zlen (r_samples r1) = Zlen (r_samples r) + if is_claim c then 1 else 0).
  { destruct c; eexists; (split; [reflexivity|]); cbn [is_claim]; try lia; cbn [r_samples add_sample set_field]; 
      unfold add_sample, set_field; cbn; rewrite Zlen_app; unfold Zlen; cbn; lia. }
  destruct Hc as (r1 & E & H1). destruct (IH r1) as (r' & E' & H2). exists r'. cbn [foldl mbind option_bind]. rewrite E. split; [done|].
  rewrite H2, H1, filter_cons. destruct (is_claim c).
  - rewrite decide_True, Zlen_cons by done. lia.
  - rewrite decide_False by done. lia.
Qed.
