(* ===== verification/Admin.v ===== *)
(** * Telemetry and the admin server (metrics/metrics.go: New, Serve,
    handleHealthz, Shutdown)

    How the recorder's telemetry is assembled (resource identity, exporters,
    what is registered in which order and which failure stops it), what the
    HTTP server answers on every path, and what its shutdown does.  The
    OpenTelemetry SDK, the Prometheus client and net/http are libraries: the
    outcomes of what they are asked are arguments. *)

From Stdlib Require Import Ascii.
From stdpp Require Import pretty.
From S2P Require Import Prelude Common RateLimit Recorder.

Definition ServiceName : string := "shard-proxy".

(** ** Construction *)

(** Where measurements are read from: the Prometheus registry, or a periodic
    push to an endpoint. *)
Inductive Reader := PromReader | PeriodicReader (endpoint : string) (interval : Z).

(** What [Shutdown] calls, in order. *)
Inductive ShutdownFn := ExporterShutdown | ProviderShutdown.

Record Telemetry := mkTelemetry {
  tl_attrs : list (string * string); tl_readers : list Reader; tl_shutdown : list ShutdownFn }.

Inductive NewError := BuildResource | PrometheusExporter | OTLPExporter | Instrument (name : string).

(** What the libraries answer: whether the resource and the two exporters can
    be made, and whether an instrument of a name can be registered. *)
Record NewEnv := mkNewEnv { ne_resource : bool; ne_prom : bool; ne_otlp : bool; ne_register : string → bool }.

(** The instance: the flag, or the host name, or a placeholder. *)
Definition instance_id (flag : string) (hostname : option string) : string :=
  if String.eqb flag "" then default "unknown" hostname else flag.

Definition resource_attrs (instance version : string) : list (string * string) :=
  [("service.name", ServiceName); ("service.instance.id", instance); ("service.version", version)].

(** The first name that cannot be registered, in the order of the code. *)
Definition register_all (ok : string → bool) (names : list string) : option string :=
  list.head (filter (λ n, ok n = false) names).

(** The order of the code: the hot-path vectors and the flow collector, the
    process gauges, the manifest counters and gauges, the other counters, then
    the claim counters. *)
Definition process_gauges : list string := ["bsp_active_groups"; "bsp_workers_active"; "bsp_uptime_seconds"].

Definition manifest_gauges : list string :=
  ["multicast_manifest_received_total"; "multicast_manifest_pilots_known"; "multicast_manifest_quorum_met_bits";
   "multicast_manifest_last_divergence_epoch"; "multicast_manifest_resharding_state";
   "multicast_manifest_resharding_window_seconds"].

Definition registered : list string :=
  (v_name <$> take 12 promVecs) ++ process_gauges ++
  take 3 otelInstruments ++ manifest_gauges ++ drop 3 otelInstruments ++
  (v_name <$> drop 12 promVecs).

Definition metrics_New (instanceID version otlpEndpoint : string) (hostname : option string)
    (numWorkers otlpInterval now : Z) (e : NewEnv) : NewError + (Recorder * Telemetry) :=
  let attrs := resource_attrs (instance_id instanceID hostname) version in
  if negb (ne_resource e) then inl BuildResource
  else if negb (ne_prom e) then inl PrometheusExporter
  else
    let otlp := negb (String.eqb otlpEndpoint "") in
    if otlp && negb (ne_otlp e) then inl OTLPExporter
    else
      let tl := mkTelemetry attrs
        ([PromReader] ++ (if otlp then [PeriodicReader otlpEndpoint otlpInterval] else []))
        ((if otlp then [ExporterShutdown] else []) ++ [ProviderShutdown]) in
      match register_all (ne_register e) registered with
      | Some name => inl (Instrument name)
      | None => inr (NewRecorder numWorkers now, tl)
      end.

(** ** The HTTP server *)

Inductive Handler := HMetrics | HHealthz | HReadyz | HLogLevel | HPprof.

#[export] Instance Handler_eq_dec : EqDecision Handler.
Proof. solve_decision. Defined.

(** The patterns [Serve] mounts. *)
Definition routes (levelVar pprof : bool) : list (string * Handler) :=
  [("/metrics", HMetrics); ("/healthz", HHealthz); ("/readyz", HReadyz)] ++
  (if levelVar then [("/loglevel", HLogLevel)] else []) ++
  (if pprof then [("/debug/pprof/", HPprof)] else []).

(** The last character of a string. *)
Fixpoint ends_in_slash (s : string) : bool :=
  match s with
  | EmptyString => false
  | String a EmptyString => Ascii.eqb a "/"
  | String _ s => ends_in_slash s
  end.

(** [http.ServeMux] on a clean path, for patterns without hosts, methods or
    wildcards: a pattern that ends in a slash matches the paths below it, any
    other only itself, and the longest match wins; a path that lacks only the
    final slash of a pattern is redirected to it. *)
Inductive Routed := Served (h : Handler) | Redirected | NotFound.

Definition pattern_matches (path pattern : string) : bool :=
  if ends_in_slash pattern then String.prefix pattern path else String.eqb pattern path.

Definition longer (best : option (string * Handler)) (p : string * Handler) : option (string * Handler) :=
  match best with
  | Some q => if (String.length q.1 <? String.length p.1)%nat then Some p else Some q
  | None => Some p
  end.

Definition mux (rs : list (string * Handler)) (path : string) : Routed :=
  match foldl longer None (filter (λ p, pattern_matches path p.1 = true) rs) with
  | Some p => Served p.2
  | None => if existsb (λ p, String.eqb p.1 (path +:+ "/")) rs then Redirected else NotFound
  end.

(** [handleHealthz]: the uptime, with one decimal. *)
Definition handleHealthz `{GoRuntime} (fmt_f1 : F64 → string) (now : Z) (r : Recorder) : Z * string :=
  (StatusOK, "{" +:+ quoted "status" +:+ ":" +:+ quoted "ok" +:+ "," +:+ quoted "uptime_seconds" +:+ ":" +:+
     fmt_f1 (f_seconds (time_sub now (r_startTime r))) +:+ "}").

(** What a request gets: an answer of the recorder, or one of a library. *)
Inductive Response := Answer (status : Z) (body : string) | Library (h : Handler) | Moved | Missing.

Definition Serve `{GoRuntime} (fmt_f1 : F64 → string) (levelVar pprof : bool) (now : Z) (r : Recorder) (path : string) : Response :=
  match mux (routes levelVar pprof) path with
  | Served HHealthz => let a := handleHealthz fmt_f1 now r in Answer a.1 a.2
  | Served HReadyz => let a := handleReadyz r in Answer a.1 a.2
  | Served h => Library h
  | Redirected => Moved
  | NotFound => Missing
  end.

(** ** Shutdown *)

Section Shutdown.
(** The state of the telemetry SDK: [shutdown_fn] runs one of the functions
    and says whether it failed. *)
Context {Sdk : Type} (shutdown_fn : ShutdownFn → Sdk → bool * Sdk).

(** [Recorder.Shutdown]: every function is called, in order; the result says
    whether a warning is logged. *)
Definition Shutdown (fns : list ShutdownFn) (sdk : Sdk) : bool * Sdk :=
  foldl (λ acc f, let r := shutdown_fn f acc.2 in (acc.1 || r.1, r.2)) (false, sdk) fns.
End Shutdown.

(** * Properties *)

(** ** The admin surface *)

Lemma slash_end path : ends_in_slash (path +:+ "/") = true.
Proof.
  induction path as [|a path IH]; [done|]. change (String a path +:+ "/") with (String a (path +:+ "/")).
  cbn [ends_in_slash]. destruct (path +:+ "/") eqn:E; [by destruct path|done].
Qed.

Lemma not_redirect pat path : ends_in_slash pat = false → String.eqb pat (path +:+ "/") = false.
Proof. intros Hp. apply String.eqb_neq. intros ->. by rewrite slash_end in Hp. Qed.

Lemma slash_inj a b : a +:+ "/" = b +:+ "/" → a = b.
Proof.
  revert b. induction a as [|x a IH]; intros [|y b]; cbn; try done.
  - injection 1 as -> E. by destruct b.
  - injection 1 as -> E. by destruct a.
  - intros E. injection E as -> E. f_equal. by apply IH.
Qed.

Lemma redirect_pprof path : String.eqb "/debug/pprof/" (path +:+ "/") = String.eqb "/debug/pprof" path.
Proof.
  apply eq_true_iff_eq. rewrite !String.eqb_eq. split; [|by intros <-]. intros E. by apply (slash_inj "/debug/pprof" path).
Qed.

(** The admin server answers exactly these paths.  Liveness is answered whatever the
    process is doing, readiness is the recorder's; the log level can be
    changed only when a level variable was registered, and the profiler is
    reachable only when it was asked for: without it nothing below
    /debug/pprof is. *)
Theorem admin_surface `{GoRuntime} fmt levelVar pprof now r path :
  Serve fmt levelVar pprof now r path =
  if String.eqb "/metrics" path then Library HMetrics
  else if String.eqb "/healthz" path then Answer StatusOK (handleHealthz fmt now r).2
  else if String.eqb "/readyz" path then Answer (handleReadyz r).1 (handleReadyz r).2
  else if levelVar && String.eqb "/loglevel" path then Library HLogLevel
  else if pprof && String.prefix "/debug/pprof/" path then Library HPprof
  else if pprof && String.eqb "/debug/pprof" path then Moved
  else Missing.
Proof.
  destruct (String.eqb_spec "/metrics" path) as [<-|N1]; [by destruct levelVar, pprof|].
  destruct (String.eqb_spec "/healthz" path) as [<-|N2]; [by destruct levelVar, pprof|].
  destruct (String.eqb_spec "/readyz" path) as [<-|N3]; [by destruct levelVar, pprof|].
  destruct (String.eqb_spec "/loglevel" path) as [<-|N4]; [by destruct levelVar, pprof|]. rewrite andb_false_r.
  apply String.eqb_neq in N1, N2, N3, N4. unfold Serve, mux, routes.
  assert (Hm : ∀ pat, ends_in_slash pat = false → String.eqb pat path = false → ¬ (pattern_matches path pat = true)).
  { intros pat Hp Hn. unfold pattern_matches. rewrite Hp, Hn. done. }
  rewrite !list.filter_app, !existsb_app. cbn [existsb app fst].
  rewrite 3!filter_cons, !decide_False by (apply Hm; [done|assumption]).
  rewrite !(not_redirect _ path) by done. cbn [orb].
  assert (Hl : filter (λ p : string * Handler, pattern_matches path p.1 = true) (if levelVar then [("/loglevel", HLogLevel)] else []) = []).
  { destruct levelVar; [|done]. rewrite filter_cons, decide_False by (apply Hm; [done|assumption]). done. }
  assert (He : existsb (λ p : string * Handler, String.eqb p.1 (path +:+ "/")) (if levelVar then [("/loglevel", HLogLevel)] else []) = false).
  { destruct levelVar; [|done]. cbn [existsb fst]. by rewrite not_redirect. }
  rewrite Hl, He. cbn [app orb]. destruct pprof; [|done]. cbn [andb existsb fst]. rewrite redirect_pprof, orb_false_r.
  rewrite filter_cons. cbn [fst]. change (pattern_matches path "/debug/pprof/") with (String.prefix "/debug/pprof/" path).
  destruct (String.prefix "/debug/pprof/" path); [by rewrite decide_True|]. rewrite decide_False by done.
  by destruct (String.eqb "/debug/pprof" path).
Qed.

(** ** Construction *)

(** No two instruments share a name, so no registration fails for being a
    duplicate of another. *)
Theorem registered_distinct : NoDup registered.
Proof. apply (bool_decide_unpack _). vm_compute. exact I. Qed.

(** The recorder is built exactly when the libraries grant everything it asks
    for; an endpoint adds one push reader and one function to shut down. *)
Theorem metrics_New_iff inst ver ep host n iv now e :
  (∃ tl, metrics_New inst ver ep host n iv now e = inr (NewRecorder n now, tl) ∧
     tl_readers tl = PromReader :: (if String.eqb ep "" then [] else [PeriodicReader ep iv])) ↔
  ne_resource e = true ∧ ne_prom e = true ∧ (ep ≠ "" → ne_otlp e = true) ∧
  Forall (λ name, ne_register e name = true) registered.
Proof.
  assert (Hr : register_all (ne_register e) registered = None ↔ Forall (λ name, ne_register e name = true) registered).
  { unfold register_all. generalize registered as l. intros l. induction l as [|x l IH]; [split; [constructor|done]|].
    rewrite filter_cons, list.Forall_cons. destruct (ne_register e x).
    - rewrite decide_False by done. naive_solver.
    - rewrite decide_True by done. cbn. naive_solver. }
  rewrite <-Hr. unfold metrics_New. destruct (ne_resource e), (ne_prom e); cbn [negb]; [|naive_solver..].
  destruct (String.eqb_spec ep "") as [->|Hep]; cbn [negb andb].
  - destruct (register_all _ _); naive_solver.
  - destruct (ne_otlp e); cbn [negb]; [destruct (register_all _ _); naive_solver|naive_solver].
Qed.

(** ** Shutdown *)

Section Shutdown.
(** What the SDK documents: an exporter that was shut down receives nothing
    any more and refuses what it is given; shutting the provider down gives
    its exporter what was measured since the last push. *)
Context {M Sdk : Type} (shutdown_fn : ShutdownFn → Sdk → bool * Sdk).
Context (closed : Sdk → bool) (pending received : Sdk → list M).
Hypothesis exporter_closes : ∀ s, let r := shutdown_fn ExporterShutdown s in
  closed r.2 = true ∧ received r.2 = received s ∧ pending r.2 = pending s.
Hypothesis provider_flushes : ∀ s, let r := shutdown_fn ProviderShutdown s in
  closed s = false → received r.2 = received s ++ pending s.
Hypothesis provider_refused : ∀ s, let r := shutdown_fn ProviderShutdown s in
  closed s = true → r.1 = true ∧ received r.2 = received s.

(** C40: the last measurements are lost.  With a push endpoint the exporter is
    shut down before the provider that would flush into it: nothing measured
    since the last push is received, and a warning is logged.  In the other
    order all of it would be received. *)
Theorem shutdown_drops_last_interval inst ver ep host n iv now e r tl s :
  metrics_New inst ver ep host n iv now e = inr (r, tl) → ep ≠ "" → closed s = false →
  Shutdown shutdown_fn (tl_shutdown tl) s = (true, (Shutdown shutdown_fn (tl_shutdown tl) s).2) ∧
  received (Shutdown shutdown_fn (tl_shutdown tl) s).2 = received s ∧
  received (Shutdown shutdown_fn (rev (tl_shutdown tl)) s).2 = received s ++ pending s.
Proof.
  intros E Hep Hc. assert (Htl : tl_shutdown tl = [ExporterShutdown; ProviderShutdown]).
  { revert E. unfold metrics_New. apply String.eqb_neq in Hep as ->. cbn [negb andb app].
    destruct (ne_resource e), (ne_prom e), (ne_otlp e); cbn [negb]; try done. destruct (register_all _ _); [done|]. by intros [= _ <-]. }
  rewrite Htl. destruct (exporter_closes s) as (H1 & H2 & _). destruct (provider_refused _ H1) as (H3 & H4).
  pose proof (provider_flushes s Hc) as H5. destruct (exporter_closes (shutdown_fn ProviderShutdown s).2) as (_ & H6 & _).
  unfold Shutdown. cbn [rev app foldl fst snd orb]. rewrite H3, orb_true_r, H4, H2, H6, H5. done.
Qed.
End Shutdown.

(** An SDK with these laws: whether the exporter is closed, what is pending
    and what was received. *)
Definition toy_shutdown (f : ShutdownFn) (s : bool * list Z * list Z) : bool * (bool * list Z * list Z) :=
  match f with
  | ExporterShutdown => (false, (true, s.1.2, s.2))
  | ProviderShutdown => if s.1.1 then (true, s) else (false, (true, [], s.2 ++ s.1.2))
  end.

Lemma shutdown_drops_last_interval_witness :
  (Shutdown toy_shutdown [ExporterShutdown; ProviderShutdown] (false, [7], [1])).2.2 = [1].
Proof.
  apply (shutdown_drops_last_interval toy_shutdown (λ s, s.1.1) (λ s, s.1.2) (λ s, s.2)
    ltac:(done) ltac:(by intros [[[] ?] ?]) ltac:(by intros [[[] ?] ?])
    "n1" "dev" "otlp:4317" None 1 10 0 (mkNewEnv true true true (λ _, true)) (NewRecorder 1 0)
    (mkTelemetry (resource_attrs "n1" "dev") [PromReader; PeriodicReader "otlp:4317" 10] [ExporterShutdown; ProviderShutdown]));
    [vm_compute; reflexivity|done|done].
Defined.
