(* ===== verification/Sockets.v ===== *)
(** * Opening and closing sockets

    The socket phases of the program: the egress targets of a forwarder
    (forwarder.go: OpenTargets), the ingress socket of a UDP worker
    (worker.go: Run), the listener, egress pool and shared tee sockets of the
    TCP lane (tcp.go: Run), the tee sockets (retrytee.go) and the beacon
    socket of the manifest listener (manifest/listener.go).  The operating
    system is a parameter: [fate n] says whether and how the [n]-th system
    call fails.  What is modelled is the descriptors each path opens, the
    options it sets on them and the order in which it closes them. *)

From S2P Require Import Prelude Common Chains BatchWriter RetryTee Coal Egress RateLimit Machine Forwarder Beef Coalesce Dispatch Lane Worker Stream TcpIngress.

(** ** The operating system *)

(** An open descriptor: the local address it is bound to, if any, the socket
    options set on it, and the group memberships it holds. *)
Record Sock := mkSock { sk_bind : option (bytes * Z); sk_opts : gmap string Z; sk_groups : list bytes }.

#[export] Instance eta_Sock : EtaExpand Sock :=
  {| eta_of := λ x, mkSock (sk_bind x) (sk_opts x) (sk_groups x) |}.

Record OS := mkOS { os_calls : nat; os_next : nat; os_open : gmap nat Sock }.

#[export] Instance eta_OS : EtaExpand OS := {| eta_of := λ x, mkOS (os_calls x) (os_next x) (os_open x) |}.

(** Descriptors are fresh: none open is at or above [os_next]. *)
Definition os_ok (s : OS) : Prop := map_Forall (λ fd _, (fd < os_next s)%nat) (os_open s).

(** Operations that succeed or fail with an error. *)
Definition O (A : Type) : Type := OS → (A + GoErr) * OS.

#[export] Instance O_ret : MRet O := λ A x s, (inl x, s).
#[export] Instance O_bind : MBind O := λ A B f m s,
  match m s with (inl x, s') => f x s' | (inr e, s') => (inr e, s') end.

Definition fail {A} (e : GoErr) : O A := λ s, (inr e, s).

(** [if err := m; err != nil { cleanup; return err }]. *)
Definition or_cleanup {A} (m : O A) (cleanup : O ()) : O A := λ s,
  match m s with
  | (inl x, s') => (inl x, s')
  | (inr e, s') => (inr e, (cleanup s').2)
  end.

(** A call whose error is only logged. *)
Definition ignore (m : O ()) : O () := λ s, (inl (), (m s).2).

(** A loop that opens one thing after another: when one fails, those opened
    so far are closed. *)
Fixpoint open_all {A} (close_all : list A → O ()) (opened : list A) (ms : list (O A)) : O (list A) :=
  match ms with
  | [] => mret opened
  | m :: ms => x ← or_cleanup m (close_all opened); open_all close_all (opened ++ [x]) ms
  end.

Record Iface := mkIface { if_name : string; if_index : Z }.

(** [Target]: an interface and its egress connection. *)
Record Target := mkTarget { tg_iface : Iface; tg_conn : nat }.

Section Sockets.
Context (fate : nat → option GoErr).

(** One system call with the effect [f] when it succeeds. *)
Definition syscall (f : OS → OS) : O () := λ s,
  let s := s <| os_calls ::= S |> in
  match fate (os_calls s) with Some e => (inr e, s) | None => (inl (), f s) end.

(** A call that makes a descriptor. *)
Definition sys_open (sk : Sock) : O nat := λ s,
  match syscall (λ s, s <| os_next ::= S |> <| os_open ::= <[os_next s := sk]> |>) s with
  | (inl _, s') => (inl (os_next s), s')
  | (inr e, s') => (inr e, s')
  end.

Definition sys_setsockopt (opt : string) (v : Z) (fd : nat) : O () :=
  syscall (λ s, s <| os_open ::= alter (λ sk, sk <| sk_opts ::= <[opt := v]> |>) fd |>).

Definition sys_bind (a : bytes * Z) (fd : nat) : O () :=
  syscall (λ s, s <| os_open ::= alter (λ sk, sk <| sk_bind := Some a |>) fd |>).

Definition sys_join (group : bytes) (fd : nat) : O () :=
  syscall (λ s, s <| os_open ::= alter (λ sk, sk <| sk_groups ::= λ l, l ++ [group] |>) fd |>).

(** A call on a descriptor that leaves it as it is. *)
Definition sys_touch : O () := syscall id.

(** [Close]: the descriptor is gone whatever it returns; closing it twice
    fails and changes nothing. *)
Definition close (fd : nat) : O () := λ s, (inl (), s <| os_open ::= delete fd |>).

(** ** Egress targets *)

Definition unspecified : bytes := zeros 16.
Definition EPERM : Z := 1.
Definition EADDRNOTAVAIL : Z := 99.

(** [net.ListenPacket("udp6", host:0)]. *)
Definition ListenPacket (host : bytes) (port : Z) : O nat := sys_open (mkSock (Some (host, port)) ∅ []).

(** [openEgressSocket]. *)
Definition openEgressSocket (iface : Iface) (loopback : Z) (bindSource : option bytes) (hopLimit : Z) : O nat :=
  fd ← ListenPacket (default unspecified bindSource) 0;
  or_cleanup
    (sys_touch;; (* SyscallConn *)
     sys_touch;; (* Control *)
     sys_setsockopt "IPV6_MULTICAST_IF" (if_index iface) fd;;
     ignore (sys_setsockopt "IPV6_MULTICAST_LOOP" loopback fd);;
     (if 0 <? hopLimit then sys_setsockopt "IPV6_MULTICAST_HOPS" hopLimit fd else mret ());;
     mret fd)
    (close fd).

(** [probeEgressSocket]: only EPERM and EADDRNOTAVAIL are fatal. *)
Definition probeEgressSocket : O () := λ s,
  match sys_touch s with
  | (inl _, s') => (inl (), s')
  | (inr e, s') => if isErrno e EPERM || isErrno e EADDRNOTAVAIL then (inr (GWrap e), s') else (inl (), s')
  end.

Definition closeTargets (targets : list Target) : O () :=
  foldr (λ t k, close (tg_conn t);; k) (mret ()) targets.

(** The loop of [OpenTargets]: [opened] are the targets so far, closed when
    one more fails. *)
Fixpoint openTargets_from (loopback : Z) (bindSource : option bytes) (hopLimit : Z) (probe : bool)
    (opened : list Target) (ifaces : list Iface) : O (list Target) :=
  match ifaces with
  | [] => mret opened
  | iface :: ifaces =>
      conn ← or_cleanup (openEgressSocket iface loopback bindSource hopLimit) (closeTargets opened);
      (if probe then or_cleanup probeEgressSocket (close conn;; closeTargets opened) else mret ());;
      openTargets_from loopback bindSource hopLimit probe (opened ++ [mkTarget iface conn]) ifaces
  end.

Definition OpenTargets `{ShardCommon} (fw : Settings) (ifaces : list Iface) (probe : bool) : O (list Target) :=
  let loopback := if s_debug fw || s_egressLoop fw then 1 else 0 in
  openTargets_from loopback (s_bindSource fw) (s_hopLimit fw) probe [] ifaces.

(** ** The UDP worker's sockets *)

(** [setReusePortLB]: the option differs on FreeBSD. *)
Definition setReusePortLB (freebsd : bool) (fd : nat) : O () :=
  sys_setsockopt (if freebsd then "SO_REUSEPORT_LB" else "SO_REUSEPORT") 1 fd.

(** [os.NewFile], [net.FilePacketConn] and [file.Close]: the descriptor is
    duplicated and the original is closed whether that succeeds or not. *)
Definition FilePacketConn (fd : nat) : O nat := λ s,
  let sk := default (mkSock None ∅ []) (os_open s !! fd) in
  let r := sys_open sk s in (r.1, (close fd r.2).2).

(** The ingress half of [Worker.Run]: the raw socket, its options and
    bind. *)
Definition worker_socket (freebsd : bool) (recvBufBytes listenPort : Z) : O nat :=
  fd ← sys_open (mkSock None ∅ []);
  or_cleanup (setReusePortLB freebsd fd) (close fd);;
  ignore (sys_setsockopt "SO_RCVBUF" recvBufBytes fd);;
  ignore sys_touch;; (* GetsockoptInt *)
  or_cleanup (sys_bind (unspecified, listenPort) fd) (close fd);;
  FilePacketConn fd.

(** [Worker.Run] up to its receive loop, and the deferred closes. *)
Definition worker_open `{ShardCommon} (fw : Settings) (wk : Worker) (freebsd : bool) (ifaces : list Iface)
    (listenPort : Z) : O (nat * list Target) :=
  conn ← worker_socket freebsd (wk_recvBufBytes wk) listenPort;
  targets ← or_cleanup (OpenTargets fw ifaces (wk_id wk =? 0)) (close conn);
  mret (conn, targets).

Definition worker_close (r : nat * list Target) : O () := closeTargets r.2;; close r.1.

(** ** Tee sockets *)

(** [NewTeeSocket]: [resolved] is what [ResolveUDPAddr] made of the text. *)
Definition NewTeeSocket (resolved : UDPAddr + GoErr) : O (nat * UDPAddr) :=
  match resolved with
  | inr e => fail (GWrap e)
  | inl ua => fd ← ListenPacket unspecified 0; mret (fd, ua)
  end.

Definition closeTees (socks : list (nat * UDPAddr)) : O () :=
  foldr (λ t k, close t.1;; k) (mret ()) socks.

(** [dialTeeSocks]: one socket per pool slot, or nil when the tee is off or
    one of them could not be dialed. *)
Definition dialTeeSocks (resolved : option (UDPAddr + GoErr)) (poolN : nat) : O (list (nat * UDPAddr)) :=
  match resolved with
  | None => mret []
  | Some a => λ s, match open_all closeTees [] (replicate poolN (NewTeeSocket a)) s with
                   | (inl l, s') => (inl l, s')
                   | (inr _, s') => (inl [], s')
                   end
  end.

(** ** The TCP lane's sockets *)

Definition closePools (pools : list (list Target)) : O () :=
  foldr (λ p k, closeTargets p;; k) (mret ()) pools.

(** The pool's target sets; only the first is probed. *)
Definition openPools `{ShardCommon} (fw : Settings) (ifaces : list Iface) (n : nat) : O (list (list Target)) :=
  open_all closePools [] ((λ k, OpenTargets fw ifaces (k =? 0)) <$> seqZ 0 (Z.of_nat n)).

(** What [TCPIngress.Run] holds when it starts accepting. *)
Record TcpSockets := mkTcpSockets {
  ts_ln : nat; ts_pools : list (list Target); ts_tees : list (nat * UDPAddr); ts_mirrors : list (nat * UDPAddr) }.

(** [TCPIngress.Run] up to its accept loop.  The listener is closed by the
    goroutine that watches [done], not by the error paths. *)
Definition tcp_open `{ShardCommon} (fw : Settings) (ifaces : list Iface) (procs listenPort : Z)
    (tee mirror : option (UDPAddr + GoErr)) : O TcpSockets :=
  ln ← sys_open (mkSock (Some (unspecified, listenPort)) ∅ []);
  pools ← openPools fw ifaces (Z.to_nat (poolSize procs));
  tees ← dialTeeSocks tee (Z.to_nat (poolSize procs));
  mirrors ← dialTeeSocks mirror (Z.to_nat (poolSize procs));
  mret (mkTcpSockets ln pools tees mirrors).

(** The deferred closes of [TCPIngress.Run], after its connections. *)
Definition tcp_close (t : TcpSockets) : O () :=
  closeTees (ts_tees t);; closeTees (ts_mirrors t);; closePools (ts_pools t).

(** ** The push lanes' sockets *)

Definition obj_open `{ShardCommon} (fw : Settings) (ifaces : list Iface) (listenPort : Z) : O (nat * list Target) :=
  ln ← sys_open (mkSock (Some (unspecified, listenPort)) ∅ []);
  targets ← OpenTargets fw ifaces true;
  mret (ln, targets).

(** ** The manifest listener's socket *)

(** [openGroupConn]: one group with no sources uses the standard library's
    multicast listener; otherwise one socket joins every group.  [joined]
    fails on an address that is neither 4 nor 16 bytes. *)
Fixpoint joinGroups (fd : nat) (groups : list bytes) : O () :=
  match groups with
  | [] => mret ()
  | g :: groups =>
      (match To16 g with [] => fail (GLeaf "bad group address") | ip => sys_touch;; sys_join ip fd end);;
      joinGroups fd groups
  end.

Definition openGroupConn (groups : list bytes) (port : Z) (sources : list bytes) : O nat :=
  match groups, sources with
  | [g], [] => sys_open (mkSock (Some (g, port)) ∅ [g])
  | _, _ =>
      fd ← ListenPacket unspecified port;
      or_cleanup (sys_touch;; joinGroups fd groups;; mret fd) (close fd)
  end.
End Sockets.
