(* ===== verification/SocketProps.v ===== *)
(** * No socket is leaked

    Whatever system calls fail, every opening path of the program ends with
    exactly the descriptors it returns, or with none it opened; closing what
    was opened restores the table.  The exception is the listener of a TCP or
    push lane whose egress sockets cannot be opened. *)

From S2P Require Import Prelude Common Toy Chains BatchWriter RetryTee Coal Egress RateLimit Machine Forwarder Beef Coalesce Dispatch Lane Worker Stream TcpIngress Sockets.

Section Rules.
Context (fate : nat → option GoErr).

(** [opens m Q]: [m] adds to the open descriptors a map [new] with [Q x new],
    disjoint from what was open, or fails and leaves them as they were. *)
Definition opens {A} (m : O A) (Q : A → gmap nat Sock → Prop) : Prop :=
  ∀ s, os_ok s →
  match m s with
  | (inl x, s') => os_ok s' ∧ ∃ new, Q x new ∧ new ##ₘ os_open s ∧ os_open s' = new ∪ os_open s
  | (inr _, s') => os_ok s' ∧ os_open s' = os_open s
  end.

(** [closes c fds]: [c] closes the descriptors [fds] and cannot fail. *)
Definition closes (c : O ()) (fds : list nat) : Prop :=
  ∀ s, c s = (inl (), s <| os_open ::= λ m, foldr delete m fds |>).

(** [shapes clean fd m P Q]: [m] works on the descriptor [fd] alone, taking a
    socket with [P] to one with [Q]; when it fails the socket is still open,
    or closed when [clean]. *)
Definition shapes {A} (clean : bool) (fd : nat) (m : O A) (P : Sock → Prop) (Q : A → Sock → Prop) : Prop :=
  ∀ s sk base, os_ok s → os_open s = <[fd := sk]> base → base !! fd = None → P sk →
  match m s with
  | (inl x, s') => os_ok s' ∧ ∃ sk', Q x sk' ∧ os_open s' = <[fd := sk']> base
  | (inr _, s') => os_ok s' ∧ if clean then os_open s' = base else ∃ sk', os_open s' = <[fd := sk']> base
  end.

Lemma os_ok_open s m n :
  os_ok s → (os_next s ≤ n)%nat → (∀ fd sk, m !! fd = Some sk → is_Some (os_open s !! fd) ∨ fd = os_next s ∧ (os_next s < n)%nat) →
  os_ok (mkOS (os_calls s) n m).
Proof.
  intros Hok Hn Hm fd sk E. simpl in *. destruct (Hm fd sk E) as [[sk' E']|[-> ?]]; [|done].
  pose proof (Hok fd sk' E'). simpl in *. lia.
Qed.

Lemma os_ok_shrink s s' :
  os_ok s → os_next s' = os_next s → (∀ fd, is_Some (os_open s' !! fd) → is_Some (os_open s !! fd)) → os_ok s'.
Proof.
  intros Hok Hn Hm fd sk E. destruct (Hm fd) as [sk' E']; [by rewrite E|].
  pose proof (Hok fd sk' E'). by rewrite Hn.
Qed.

Lemma closes_ret : closes (mret ()) [].
Proof. intros s. by destruct s. Qed.

Lemma closes_close fd : closes (close fd) [fd].
Proof. intros s. done. Qed.

Lemma closes_seq c1 c2 f1 f2 : closes c1 f1 → closes c2 f2 → closes (c1;; c2) (f2 ++ f1).
Proof.
  intros H1 H2 s. unfold mbind, O_bind. rewrite H1, H2. f_equal.
  unfold set_field. simpl. by rewrite foldr_app.
Qed.

Lemma closes_foldr {A} (c : A → O ()) (f : A → list nat) l :
  (∀ x, closes (c x) (f x)) →
  closes (foldr (λ x k, c x;; k) (mret ()) l) (rev l ≫= f).
Proof.
  intros Hc. induction l as [|x l IH]; [apply closes_ret|]. simpl.
  rewrite bind_app. simpl. rewrite app_nil_r. by apply closes_seq.
Qed.

Lemma closes_targets ts : closes (closeTargets ts) (rev (tg_conn <$> ts)).
Proof.
  unfold closeTargets. pose proof (closes_foldr (λ t, close (tg_conn t)) (λ t, [tg_conn t]) ts) as H.
  replace (rev (tg_conn <$> ts)) with (rev ts ≫= λ t, [tg_conn t]); [apply H; intros; apply closes_close|].
  clear. induction ts as [|t ts IH]; [done|]. simpl. rewrite bind_app, IH. done.
Qed.

Lemma lookup_foldr_delete fds (m : gmap nat Sock) fd :
  foldr delete m fds !! fd = if decide (fd ∈ fds) then None else m !! fd.
Proof.
  induction fds as [|x fds IH]; simpl; [done|].
  destruct (decide (fd = x)) as [-> | Hne].
  - rewrite lookup_delete_eq. by rewrite decide_True by set_solver.
  - rewrite lookup_delete_ne, IH by done. repeat case_decide; set_solver.
Qed.

(** Closing exactly what was opened gives back the rest. *)
Lemma foldr_delete_new (new base : gmap nat Sock) fds :
  (∀ fd, fd ∈ fds ↔ is_Some (new !! fd)) → new ##ₘ base → foldr delete (new ∪ base) fds = base.
Proof.
  intros Hd Hdisj. apply map_eq. intros fd. rewrite lookup_foldr_delete.
  case_decide as H; rewrite Hd in H.
  - destruct H as [sk E]. symmetry. by apply (map_disjoint_Some_l new base fd sk).
  - apply eq_None_not_Some in H. by rewrite lookup_union_r.
Qed.

Lemma closes_ok c fds s : closes c fds → os_ok s → os_ok (c s).2.
Proof.
  intros Hc Hok. rewrite Hc. simpl. apply (os_ok_shrink s); [done|done|].
  simpl. intros fd. rewrite lookup_foldr_delete. case_decide; [by intros []|done].
Qed.

Lemma closes_opened c fds (new base : gmap nat Sock) s :
  closes c fds → (∀ fd, fd ∈ fds ↔ is_Some (new !! fd)) → new ##ₘ base → os_open s = new ∪ base →
  os_open (c s).2 = base.
Proof. intros Hc Hf Hd Hs. rewrite Hc. simpl. rewrite Hs. by apply foldr_delete_new. Qed.

Lemma opens_ret {A} (x : A) Q : Q x ∅ → opens (mret x) Q.
Proof. intros HQ s Hok. split; [done|]. exists ∅. split_and!; [done|apply map_disjoint_empty_l|by rewrite map_empty_union]. Qed.

Lemma opens_fail {A} e (Q : A → gmap nat Sock → Prop) : opens (fail e) Q.
Proof. by intros s Hok. Qed.

Lemma opens_mono {A} (m : O A) (Q Q' : A → gmap nat Sock → Prop) :
  opens m Q → (∀ x new, Q x new → Q' x new) → opens m Q'.
Proof.
  intros Hm HQ s Hok. specialize (Hm s Hok). destruct (m s) as [[x|e] s']; [|done].
  destruct Hm as (H1 & new & H2 & H3). split; [done|]. exists new. split; [by apply HQ|done].
Qed.

(** [opened] descriptors [n0] were opened by this function before; one more
    opening, or all of them are closed. *)
Lemma opens_step {A B} (m : O A) (c : O ()) fds (f : A → O B) Q n0 s :
  os_ok s → opens m Q → closes c fds → (∀ fd, fd ∈ fds ↔ is_Some (n0 !! fd)) →
  ∀ base, n0 ##ₘ base → os_open s = n0 ∪ base →
  ∀ R : (B + GoErr) * OS → Prop,
  (∀ e s', os_ok s' → os_open s' = base → R (inr e, s')) →
  (∀ x new s', os_ok s' → Q x new → new ##ₘ (n0 ∪ base) → os_open s' = new ∪ (n0 ∪ base) → R (f x s')) →
  R ((x ← or_cleanup m c; f x) s).
Proof.
  intros Hok Hm Hc Hfds base Hdisj Hs R Herr Hk. unfold mbind, O_bind, or_cleanup.
  specialize (Hm s Hok). destruct (m s) as [[x|e] s'].
  - destruct Hm as (H1 & new & H2 & H3 & H4). rewrite Hs in H3, H4. by eapply Hk.
  - destruct Hm as (H1 & H2). apply Herr; [by eapply closes_ok|].
    rewrite Hc. simpl. rewrite H2, Hs. by apply foldr_delete_new.
Qed.

(** ** One descriptor *)

Lemma syscall_open s f e s' : syscall fate f s = (inr e, s') → os_open s' = os_open s ∧ os_next s' = os_next s.
Proof. unfold syscall. destruct (fate _); intros [= <- <-]; done. Qed.

Lemma opens_sys_open sk : opens (sys_open fate sk) (λ fd new, new = {[fd := sk]}).
Proof.
  intros s Hok. unfold sys_open, syscall. simpl. destruct (fate _) as [e|]; simpl; [done|].
  assert (Hf : os_open s !! os_next s = None).
  { destruct (os_open s !! os_next s) as [sk'|] eqn:E; [|done]. pose proof (Hok _ _ E). simpl in *. lia. }
  split.
  - intros fd sk' E. simpl in *. apply lookup_insert_Some in E as [[<- _]|[_ E]]; [lia|].
    pose proof (Hok _ _ E). simpl in *. lia.
  - exists {[os_next s := sk]}. split_and!; [done|by apply map_disjoint_singleton_l_2|].
    simpl. by rewrite insert_union_singleton_l.
Qed.

Lemma shapes_ret {A} clean fd (x : A) P (Q : A → Sock → Prop) :
  (∀ sk, P sk → Q x sk) → shapes clean fd (mret x) P Q.
Proof. intros HPQ s sk base Hok Hs Hb HP. split; [done|]. exists sk. auto. Qed.

Lemma shapes_bind {A B} clean fd (m : O A) (f : A → O B) P Q R :
  shapes clean fd m P Q → (∀ x, shapes clean fd (f x) (Q x) R) → shapes clean fd (m ≫= f) P R.
Proof.
  intros Hm Hf s sk base Hok Hs Hb HP. unfold mbind, O_bind.
  specialize (Hm s sk base Hok Hs Hb HP). destruct (m s) as [[x|e] s']; [|done].
  destruct Hm as (H1 & sk' & HQ & H2). exact (Hf x s' sk' base H1 H2 Hb HQ).
Qed.

Lemma alter_insert_same (f : Sock → Sock) fd sk (base : gmap nat Sock) :
  alter f fd (<[fd := sk]> base) = <[fd := f sk]> base.
Proof.
  apply map_eq. intros i. destruct (decide (i = fd)) as [-> | Hne].
  - by rewrite lookup_alter_eq, !lookup_insert_eq.
  - by rewrite lookup_alter_ne, !lookup_insert_ne.
Qed.

(** A system call that alters the descriptor. *)
Lemma shapes_alter fd (g : Sock → Sock) P (Q : Sock → Prop) :
  (∀ sk, P sk → Q (g sk)) →
  shapes false fd (syscall fate (λ s, s <| os_open ::= alter g fd |>)) P (λ _, Q).
Proof.
  intros HPQ s sk base Hok Hs Hb HP. unfold syscall. simpl. destruct (fate _) as [e|].
  - split; [done|]. exists sk. done.
  - assert (E : alter g fd (os_open s) = <[fd := g sk]> base) by (rewrite Hs; apply alter_insert_same).
    split; [|exists (g sk); split; [auto|exact E]].
    apply (os_ok_shrink s); [done|done|]. simpl. intros i. rewrite E, Hs.
    destruct (decide (i = fd)) as [-> | Hne]; [rewrite !lookup_insert_eq; eauto|].
    rewrite !lookup_insert_ne by done. auto.
Qed.

Lemma shapes_touch fd P : shapes false fd (sys_touch fate) P (λ _, P).
Proof.
  intros s sk base Hok Hs Hb HP. unfold sys_touch, syscall, id. simpl. destruct (fate _) as [e|]; (split; [done|]); eauto.
Qed.

(** A logged failure: the socket is either altered or not. *)
Lemma shapes_ignore clean fd m P Q :
  shapes false fd m P (λ _, Q) → (∀ s sk base e s', os_open s = <[fd := sk]> base → m s = (inr e, s') → os_open s' = os_open s) →
  (∀ sk, P sk → Q sk) → shapes clean fd (ignore m) P (λ _, Q).
Proof.
  intros Hm He HPQ s sk base Hok Hs Hb HP. unfold ignore.
  pose proof (Hm s sk base Hok Hs Hb HP) as H. destruct (m s) as [[[]|e] s'] eqn:E; simpl.
  - done.
  - destruct H as [H1 _]. split; [done|]. exists sk. split; [auto|]. rewrite <- Hs. by eapply He.
Qed.

Lemma shapes_ignore_sys clean fd (g : Sock → Sock) P Q :
  (∀ sk, P sk → Q sk) → (∀ sk, P sk → Q (g sk)) →
  shapes clean fd (ignore (syscall fate (λ s, s <| os_open ::= alter g fd |>))) P (λ _, Q).
Proof.
  intros H1 H2. apply shapes_ignore; [by apply shapes_alter| |done].
  intros s sk base e s' _ E. by apply syscall_open in E as [? _].
Qed.

Lemma shapes_cleanup {A} fd (m : O A) P Q : shapes false fd m P Q → shapes true fd (or_cleanup m (close fd)) P Q.
Proof.
  intros Hm s sk base Hok Hs Hb HP. unfold or_cleanup.
  specialize (Hm s sk base Hok Hs Hb HP). destruct (m s) as [[x|e] s']; [done|].
  destruct Hm as (H1 & sk' & H2). split.
  - by apply (closes_ok (close fd) [fd]); [apply closes_close|].
  - simpl. rewrite H2. by apply delete_insert_id.
Qed.

(** A socket made and then shaped, cleaned up on failure. *)
Lemma opens_socket {A} sk0 (body : nat → O A) Q :
  (∀ fd, shapes true fd (body fd) (eq sk0) (Q fd)) →
  opens (fd ← sys_open fate sk0; body fd) (λ x new, ∃ fd sk, new = {[fd := sk]} ∧ Q fd x sk).
Proof.
  intros Hb s Hok. unfold mbind, O_bind. pose proof (opens_sys_open sk0 s Hok) as Ho.
  destruct (sys_open fate sk0 s) as [[fd|e] s']; [|done].
  destruct Ho as (Hok' & new & -> & Hdisj & Hs). rewrite <- insert_union_singleton_l in Hs.
  apply map_disjoint_singleton_l in Hdisj.
  specialize (Hb fd s' sk0 (os_open s) Hok' Hs Hdisj eq_refl).
  destruct (body fd s') as [[x|e] s'']; [|done].
  destruct Hb as (H1 & sk' & H2 & H3). split; [done|]. exists {[fd := sk']}.
  split_and!; [by exists fd, sk'|by apply map_disjoint_singleton_l_2|]. by rewrite H3, insert_union_singleton_l.
Qed.

(** ** Egress sockets *)

(** An egress socket sends on its interface, from the configured source and
    with the configured hop limit. *)
Definition egress_sock_ok (bindSource : option bytes) (hopLimit : Z) (iface : Iface) (sk : Sock) : Prop :=
  sk_bind sk = Some (default unspecified bindSource, 0) ∧
  sk_opts sk !! "IPV6_MULTICAST_IF" = Some (if_index iface) ∧
  (0 < hopLimit → sk_opts sk !! "IPV6_MULTICAST_HOPS" = Some hopLimit).

Lemma openEgressSocket_spec iface loopback src hop :
  opens (openEgressSocket fate iface loopback src hop)
    (λ fd new, ∃ sk, new = {[fd := sk]} ∧ egress_sock_ok src hop iface sk).
Proof.
  eapply opens_mono.
  - apply (opens_socket (mkSock (Some (default unspecified src, 0)) ∅ []) _ (λ fd x sk, x = fd ∧ egress_sock_ok src hop iface sk)).
    intros fd. apply shapes_cleanup.
    do 2 (apply (shapes_bind _ _ _ _ _ (λ _, eq (mkSock (Some (default unspecified src, 0)) ∅ []))); [apply shapes_touch|intros _]).
    pose (P := λ sk : Sock, sk_bind sk = Some (default unspecified src, 0) ∧
                 sk_opts sk !! "IPV6_MULTICAST_IF" = Some (if_index iface)).
    apply (shapes_bind _ _ _ _ _ (λ _, P)).
    { apply shapes_alter. intros sk <-. split; [done|]. apply lookup_insert_eq. }
    intros _. apply (shapes_bind _ _ _ _ _ (λ _, P)).
    { apply shapes_ignore_sys; [done|]. intros sk [H1 H2]. split; [done|]. simpl. by rewrite lookup_insert_ne. }
    intros _. apply (shapes_bind _ _ _ _ _ (λ _, egress_sock_ok src hop iface)).
    { destruct (Z.ltb_spec 0 hop).
      - apply shapes_alter. intros sk [H1 H2]. split_and!; [done|by simpl; rewrite lookup_insert_ne|].
        intros _. apply lookup_insert_eq.
      - apply shapes_ret. intros sk [H1 H2]. split_and!; [done|done|lia]. }
    intros _. by apply shapes_ret.
  - intros x new (fd & sk & -> & -> & Hsk). by exists sk.
Qed.

Lemma probe_spec : opens (probeEgressSocket fate) (λ _ new, new = ∅).
Proof.
  intros s Hok. unfold probeEgressSocket, sys_touch, syscall. simpl. destruct (fate _) as [e|].
  - destruct (_ || _); [done|]. split; [done|]. exists ∅.
    split_and!; [done|apply map_disjoint_empty_l|by rewrite map_empty_union].
  - split; [done|]. exists ∅. split_and!; [done|apply map_disjoint_empty_l|by rewrite map_empty_union].
Qed.

(** A list of targets owns exactly the descriptors [new]. *)
Definition owns_targets (src : option bytes) (hop : Z) (ts : list Target) (new : gmap nat Sock) : Prop :=
  NoDup (tg_conn <$> ts) ∧ (∀ fd, fd ∈ tg_conn <$> ts ↔ is_Some (new !! fd)) ∧
  Forall (λ t, ∃ sk, new !! tg_conn t = Some sk ∧ egress_sock_ok src hop (tg_iface t) sk) ts.

Lemma owns_snoc src hop ts new iface fd sk :
  owns_targets src hop ts new → new !! fd = None → egress_sock_ok src hop iface sk →
  owns_targets src hop (ts ++ [mkTarget iface fd]) ({[fd := sk]} ∪ new).
Proof.
  intros (H1 & H2 & H3) Hf Hsk. unfold owns_targets. rewrite fmap_app. simpl. split_and!.
  - apply list.NoDup_app. split_and!; [done| |apply NoDup_singleton].
    intros x Hx ->%list_elem_of_singleton. apply H2 in Hx as [? Hx]. congruence.
  - intros x. rewrite elem_of_app, list_elem_of_singleton, H2, <- insert_union_singleton_l.
    destruct (decide (x = fd)) as [-> | Hne]; [rewrite lookup_insert_eq; split; eauto|].
    rewrite lookup_insert_ne by done. split; [intros [?|?]; done|by left].
  - apply Forall_app. split.
    + revert H3. apply Forall_impl. intros t (sk' & E & Hok). exists sk'. split; [|done].
      rewrite <- insert_union_singleton_l, lookup_insert_ne; [done|]. intros ->. congruence.
    + apply Forall_singleton. exists sk. split; [|done]. simpl.
      by rewrite <- insert_union_singleton_l, lookup_insert_eq.
Qed.

Lemma openTargets_from_spec loopback src hop probe ifaces opened n0 base s :
  os_ok s → owns_targets src hop opened n0 → n0 ##ₘ base → os_open s = n0 ∪ base →
  match openTargets_from fate loopback src hop probe opened ifaces s with
  | (inl ts, s') => os_ok s' ∧ tg_iface <$> ts = (tg_iface <$> opened) ++ ifaces ∧
      ∃ new, owns_targets src hop ts new ∧ new ##ₘ base ∧ os_open s' = new ∪ base
  | (inr _, s') => os_ok s' ∧ os_open s' = base
  end.
Proof.
  revert opened n0 s. induction ifaces as [|iface ifaces IH]; intros opened n0 s Hok Hown Hdisj Hs; simpl.
  { split_and!; [done|by rewrite app_nil_r|]. by exists n0. }
  assert (Hfds : ∀ fd, fd ∈ rev (tg_conn <$> opened) ↔ is_Some (n0 !! fd)).
  { intros fd. rewrite <- (proj1 (proj2 Hown)), !list_elem_of_In. symmetry. apply in_rev. }
  eapply (opens_step _ _ _ _ _ n0 s Hok (openEgressSocket_spec iface loopback src hop) (closes_targets opened) Hfds
            base Hdisj Hs); [done|].
  intros conn new s1 Hok1 (sk & -> & Hsk) Hd1 Hs1.
  assert (Hn0 : n0 !! conn = None ∧ base !! conn = None).
  { apply map_disjoint_singleton_l in Hd1. by apply lookup_union_None in Hd1. }
  destruct Hn0 as [Hn0 Hb0].
  assert (Hdn : ({[conn := sk]} ∪ n0) ##ₘ base).
  { apply map_disjoint_union_l. split; [by apply map_disjoint_singleton_l_2|done]. }
  rewrite map_union_assoc in Hs1.
  assert (Hnext : ∀ s2, os_ok s2 → os_open s2 = {[conn := sk]} ∪ n0 ∪ base →
    match openTargets_from fate loopback src hop probe (opened ++ [mkTarget iface conn]) ifaces s2 with
    | (inl ts, s') => os_ok s' ∧ tg_iface <$> ts = (tg_iface <$> opened) ++ iface :: ifaces ∧
        ∃ new, owns_targets src hop ts new ∧ new ##ₘ base ∧ os_open s' = new ∪ base
    | (inr _, s') => os_ok s' ∧ os_open s' = base
    end).
  { intros s2 Hok2 Hs2. pose proof (IH (opened ++ [mkTarget iface conn]) _ s2 Hok2
      (owns_snoc _ _ _ _ iface _ _ Hown Hn0 Hsk) Hdn Hs2) as H.
    destruct (openTargets_from _ _ _ _ _ _ _ s2) as [[ts|e] s']; [|done].
    rewrite fmap_app, <- app_assoc in H. exact H. }
  destruct probe; [|by apply Hnext].
  assert (Hc : closes (close conn;; closeTargets opened) (rev (tg_conn <$> opened) ++ [conn])).
  { apply closes_seq; [apply closes_close|apply closes_targets]. }
  eapply (opens_step _ _ _ (λ _, _) _ ({[conn := sk]} ∪ n0) s1 Hok1 probe_spec Hc); [|exact Hdn|exact Hs1|done|].
  - intros fd. rewrite elem_of_app, list_elem_of_singleton, Hfds, <- insert_union_singleton_l.
    destruct (decide (fd = conn)) as [-> | Hne]; [rewrite lookup_insert_eq; split; eauto|].
    rewrite lookup_insert_ne by done. split; [intros [?|?]; done|by left].
  - intros _ new s2 Hok2 -> _ Hs2. rewrite map_empty_union in Hs2. by apply Hnext.
Qed.

Context `{ShardCommon}.

Lemma OpenTargets_spec fw ifaces probe :
  opens (OpenTargets fate fw ifaces probe)
    (λ ts new, tg_iface <$> ts = ifaces ∧ owns_targets (s_bindSource fw) (s_hopLimit fw) ts new).
Proof.
  intros s Hok. unfold OpenTargets.
  pose proof (openTargets_from_spec (if s_debug fw || s_egressLoop fw then 1 else 0) (s_bindSource fw)
    (s_hopLimit fw) probe ifaces [] ∅ (os_open s) s Hok) as Hp.
  destruct (openTargets_from _ _ _ _ _ _ _ s) as [[ts|e] s'].
  - destruct Hp as (H1 & H2 & new & H3 & H4 & H5).
    + split_and!; [apply NoDup_nil_2| |done]. intros fd. simpl. rewrite elem_of_nil, lookup_empty.
      split; [done|by intros []].
    + apply map_disjoint_empty_l.
    + by rewrite map_empty_union.
    + split; [done|]. exists new. done.
  - apply Hp; [|apply map_disjoint_empty_l|by rewrite map_empty_union].
    split_and!; [apply NoDup_nil_2| |done]. intros fd. simpl. rewrite elem_of_nil, lookup_empty.
    split; [done|by intros []].
Qed.

(** ** Worker sockets *)

Lemma shapes_then {A B} fd (m : O A) (f : A → O B) P Q s sk base :
  shapes true fd m P Q → os_ok s → os_open s = <[fd := sk]> base → base !! fd = None → P sk →
  ∀ R : (B + GoErr) * OS → Prop,
  (∀ e s', os_ok s' → os_open s' = base → R (inr e, s')) →
  (∀ x sk' s', os_ok s' → Q x sk' → os_open s' = <[fd := sk']> base → R (f x s')) →
  R ((m ≫= f) s).
Proof.
  intros Hm Hok Hs Hb HP R Herr Hk. unfold mbind, O_bind.
  specialize (Hm s sk base Hok Hs Hb HP). destruct (m s) as [[x|e] s'].
  - destruct Hm as (H1 & sk' & H2 & H3). by eapply Hk.
  - destruct Hm. by apply Herr.
Qed.

Lemma FilePacketConn_spec fd sk base s :
  os_ok s → os_open s = <[fd := sk]> base → base !! fd = None →
  match FilePacketConn fate fd s with
  | (inl x, s') => os_ok s' ∧ base !! x = None ∧ os_open s' = <[x := sk]> base
  | (inr _, s') => os_ok s' ∧ os_open s' = base
  end.
Proof.
  intros Hok Hs Hb. unfold FilePacketConn. rewrite Hs, lookup_insert_eq. simpl.
  pose proof (opens_sys_open sk s Hok) as Ho. destruct (sys_open fate sk s) as [[x|e] s']; simpl.
  - destruct Ho as (Hok' & new & -> & Hd & Hs'). apply map_disjoint_singleton_l in Hd.
    rewrite Hs in Hd, Hs'. apply lookup_insert_None in Hd as [Hd Hne].
    split_and!; [by apply (closes_ok (close fd) [fd]); [apply closes_close|]|done|].
    rewrite Hs', <- insert_union_singleton_l, delete_insert_ne by done. by rewrite delete_insert_id.
  - destruct Ho as [Hok' Hs']. split; [by apply (closes_ok (close fd) [fd]); [apply closes_close|]|].
    rewrite Hs', Hs. by apply delete_insert_id.
Qed.

(** A worker's ingress socket shares its port. *)
Definition ingress_sock_ok (freebsd : bool) (port : Z) (sk : Sock) : Prop :=
  sk_bind sk = Some (unspecified, port) ∧
  sk_opts sk !! (if freebsd then "SO_REUSEPORT_LB" else "SO_REUSEPORT")%string = Some 1.

Lemma worker_socket_spec freebsd buf port :
  opens (worker_socket fate freebsd buf port)
    (λ fd new, ∃ sk, new = {[fd := sk]} ∧ ingress_sock_ok freebsd port sk).
Proof.
  intros s Hok. unfold worker_socket at 1.
  pose proof (opens_sys_open (mkSock None ∅ []) s Hok) as Ho.
  unfold mbind at 1, O_bind at 1. destruct (sys_open fate (mkSock None ∅ []) s) as [[fd|e] s1]; [|done].
  destruct Ho as (Hok1 & new & -> & Hd & Hs1). apply map_disjoint_singleton_l in Hd.
  rewrite <- insert_union_singleton_l in Hs1.
  set (opt := (if freebsd then "SO_REUSEPORT_LB" else "SO_REUSEPORT")%string).
  set (P := λ sk : Sock, sk_opts sk !! opt = Some 1).
  assert (Hopt : opt ≠ "SO_RCVBUF") by (unfold opt; by destruct freebsd).
  eapply (shapes_then fd _ _ (λ _, True) (λ _, P)); [|done..|].
  { apply shapes_cleanup, shapes_alter. intros sk _. apply lookup_insert_eq. }
  intros _ sk2 s2 Hok2 HP2 Hs2.
  eapply (shapes_then fd _ _ P (λ _, P)); [|done..|].
  { apply shapes_ignore_sys; [done|]. intros sk HP. unfold P. simpl. by rewrite lookup_insert_ne. }
  intros _ sk3 s3 Hok3 HP3 Hs3.
  eapply (shapes_then fd _ _ P (λ _, P)); [|done..|].
  { apply shapes_ignore; [apply shapes_touch| |done]. intros ? ? ? ? ? _ E. by apply syscall_open in E as [? _]. }
  intros _ sk4 s4 Hok4 HP4 Hs4.
  eapply (shapes_then fd _ _ P (λ _, ingress_sock_ok freebsd port)); [|done..|].
  { apply shapes_cleanup, shapes_alter. intros sk HP. by split. }
  intros _ sk5 s5 Hok5 HP5 Hs5.
  pose proof (FilePacketConn_spec fd sk5 (os_open s) s5 Hok5 Hs5 Hd) as Hf.
  destruct (FilePacketConn fate fd s5) as [[x|e] s6]; [|done].
  destruct Hf as (H1 & H2 & H3). split; [done|]. exists {[x := sk5]}.
  split_and!; [by exists sk5|by apply map_disjoint_singleton_l_2|]. by rewrite H3, insert_union_singleton_l.
Qed.

(** Everything a worker opens, as one map. *)
Definition owns_worker (fw : Settings) (freebsd : bool) (port : Z) (ifaces : list Iface)
    (r : nat * list Target) (new : gmap nat Sock) : Prop :=
  ∃ sk nt, new = {[r.1 := sk]} ∪ nt ∧ nt !! r.1 = None ∧ ingress_sock_ok freebsd port sk ∧
    tg_iface <$> r.2 = ifaces ∧ owns_targets (s_bindSource fw) (s_hopLimit fw) r.2 nt.

Lemma worker_open_spec fw wk freebsd ifaces port :
  opens (worker_open fate fw wk freebsd ifaces port) (owns_worker fw freebsd port ifaces).
Proof.
  intros s Hok. unfold worker_open. unfold mbind at 1, O_bind at 1.
  pose proof (worker_socket_spec freebsd (wk_recvBufBytes wk) port s Hok) as Hw.
  destruct (worker_socket _ _ _ _ s) as [[conn|e] s1]; [|done].
  destruct Hw as (Hok1 & new & (sk & -> & Hsk) & Hd & Hs1).
  eapply (opens_step _ _ _ _ _ {[conn := sk]} s1 Hok1 (OpenTargets_spec fw ifaces _) (closes_close conn));
    [|exact Hd|exact Hs1|done|].
  - intros fd. rewrite list_elem_of_singleton. destruct (decide (fd = conn)) as [-> | Hne].
    + rewrite lookup_singleton_eq. split; eauto.
    + rewrite lookup_singleton_ne by done. split; [done|by intros []].
  - intros ts nt s2 Hok2 (Hi & Ho) Hd2 Hs2. split; [done|]. exists ({[conn := sk]} ∪ nt).
    apply map_disjoint_union_r in Hd2 as [Hd2 Hd3].
    assert (Hc : nt !! conn = None) by (by apply map_disjoint_singleton_r in Hd2).
    split_and!.
    + exists sk, nt. by split_and!.
    + by apply map_disjoint_union_l.
    + rewrite Hs2, map_union_assoc, (map_union_comm nt) by done. done.
Qed.

Lemma worker_close_spec fw freebsd port ifaces r new base s :
  owns_worker fw freebsd port ifaces r new → new ##ₘ base → os_open s = new ∪ base →
  os_open (worker_close r s).2 = base.
Proof.
  intros (sk & nt & -> & Hn & _ & _ & Ho) Hd Hs.
  assert (Hc : closes (worker_close r) ([r.1] ++ rev (tg_conn <$> r.2))).
  { apply closes_seq; [apply closes_targets|apply closes_close]. }
  eapply closes_opened; [exact Hc| |exact Hd|exact Hs].
  intros fd. rewrite elem_of_app, list_elem_of_singleton, list_elem_of_In, <- in_rev, <- list_elem_of_In.
  rewrite (proj1 (proj2 Ho)), <- insert_union_singleton_l. destruct (decide (fd = r.1)) as [-> | Hne].
  - rewrite lookup_insert_eq. split; eauto.
  - rewrite lookup_insert_ne by done. split; [intros [?|?]; done|by right].
Qed.

(** ** Pools and tees *)

Definition owns_fds (fds : list nat) (new : gmap nat Sock) : Prop := ∀ fd, fd ∈ fds ↔ is_Some (new !! fd).

Lemma owns_fds_union f1 f2 n1 n2 : owns_fds f1 n1 → owns_fds f2 n2 → owns_fds (f1 ++ f2) (n2 ∪ n1).
Proof.
  intros H1 H2 fd. rewrite elem_of_app, (H1 fd), (H2 fd).
  destruct (n2 !! fd) as [x|] eqn:E.
  - rewrite (lookup_union_Some_l _ _ _ _ E). split; eauto.
  - rewrite lookup_union_r by done. split; [intros [?|[? [=]]]|left]; done.
Qed.

Lemma open_all_spec {A} (close_all : list A → O ()) (fds : A → list nat) (P : A → Prop) ms opened n0 base s :
  (∀ l, ∃ cf, closes (close_all l) cf ∧ ∀ fd, fd ∈ cf ↔ fd ∈ l ≫= fds) →
  Forall (λ m, opens m (λ x new, owns_fds (fds x) new ∧ P x)) ms →
  os_ok s → owns_fds (opened ≫= fds) n0 → Forall P opened → n0 ##ₘ base → os_open s = n0 ∪ base →
  match open_all close_all opened ms s with
  | (inl l, s') => os_ok s' ∧ (length l = length opened + length ms)%nat ∧ Forall P l ∧
      ∃ new, owns_fds (l ≫= fds) new ∧ new ##ₘ base ∧ os_open s' = new ∪ base
  | (inr _, s') => os_ok s' ∧ os_open s' = base
  end.
Proof.
  intros Hca Hms. revert opened n0 s. induction Hms as [|m ms Hm _ IH]; intros opened n0 s Hok Ho HP Hd Hs; simpl.
  { split_and!; [done|lia|done|]. by exists n0. }
  destruct (Hca opened) as (cf & Hcf & Hcf').
  eapply (opens_step _ _ _ _ _ n0 s Hok Hm Hcf); [|exact Hd|exact Hs|done|].
  { intros fd. by rewrite Hcf'. }
  intros x new s1 Hok1 [Hown HPx] Hd1 Hs1. apply map_disjoint_union_r in Hd1 as [Hd1 Hd2].
  assert (G : match open_all close_all (opened ++ [x]) ms s1 with
    | (inl l, s') => os_ok s' ∧ (length l = length (opened ++ [x]) + length ms)%nat ∧ Forall P l ∧
        ∃ new, owns_fds (l ≫= fds) new ∧ new ##ₘ base ∧ os_open s' = new ∪ base
    | (inr _, s') => os_ok s' ∧ os_open s' = base end).
  { apply (IH _ (new ∪ n0)); [done| | | |by rewrite <- map_union_assoc].
    - rewrite bind_app. simpl. rewrite app_nil_r. by apply owns_fds_union.
    - apply Forall_app. split; [done|]. by apply Forall_singleton.
    - by apply map_disjoint_union_l. }
  destruct (open_all close_all (opened ++ [x]) ms s1) as [[l|e] s']; [|done].
  destruct G as (G1 & G2 & G3). split; [done|]. split; [|done]. rewrite G2, length_app. simpl. lia.
Qed.

Lemma open_all_opens {A} (close_all : list A → O ()) (fds : A → list nat) (P : A → Prop) ms :
  (∀ l, ∃ cf, closes (close_all l) cf ∧ ∀ fd, fd ∈ cf ↔ fd ∈ l ≫= fds) →
  Forall (λ m, opens m (λ x new, owns_fds (fds x) new ∧ P x)) ms →
  opens (open_all close_all [] ms) (λ l new, owns_fds (l ≫= fds) new ∧ length l = length ms ∧ Forall P l).
Proof.
  intros Hca Hms s Hok.
  pose proof (open_all_spec close_all fds P ms [] ∅ (os_open s) s Hca Hms Hok) as H1.
  assert (E : owns_fds (([] : list A) ≫= fds) ∅).
  { intros fd. simpl. rewrite elem_of_nil, lookup_empty. split; [done|by intros []]. }
  specialize (H1 E (Forall_nil_2 _) (map_disjoint_empty_l _) (eq_sym (map_empty_union _))).
  destruct (open_all close_all [] ms s) as [[l|e] s']; [|done].
  destruct H1 as (H1 & H2 & H3 & new & H4). split; [done|]. exists new. by destruct H4.
Qed.

Lemma closes_perm {A} (c : A → O ()) (cf fds : A → list nat) l :
  (∀ x, closes (c x) (cf x)) → (∀ x fd, fd ∈ cf x ↔ fd ∈ fds x) →
  ∃ f, closes (foldr (λ x k, c x;; k) (mret ()) l) f ∧ ∀ fd, fd ∈ f ↔ fd ∈ l ≫= fds.
Proof.
  intros Hc Hf. exists (rev l ≫= cf). split; [by apply closes_foldr|].
  intros fd. rewrite !list_elem_of_bind. split; intros (x & H1 & H2); exists x; split; try (by apply Hf);
    rewrite list_elem_of_In in *; [by apply in_rev|by rewrite <- in_rev].
Qed.

Definition pool_fds (p : list Target) : list nat := tg_conn <$> p.

Lemma closePools_spec l : ∃ f, closes (closePools l) f ∧ ∀ fd, fd ∈ f ↔ fd ∈ l ≫= pool_fds.
Proof.
  apply (closes_perm closeTargets (λ p, rev (tg_conn <$> p)) pool_fds); [apply closes_targets|].
  intros p fd. unfold pool_fds. by rewrite !list_elem_of_In, <- in_rev.
Qed.

Lemma closeTees_spec l : ∃ f, closes (closeTees l) f ∧ ∀ fd, fd ∈ f ↔ fd ∈ l ≫= (λ t, [t.1]).
Proof. apply (closes_perm (λ t, close t.1) (λ t, [t.1])); [intros; apply closes_close|done]. Qed.

Lemma openPools_spec fw ifaces n :
  opens (openPools fate fw ifaces n)
    (λ l new, owns_fds (l ≫= pool_fds) new ∧ length l = n ∧ Forall (λ p, tg_iface <$> p = ifaces) l).
Proof.
  eapply opens_mono.
  - apply (open_all_opens _ pool_fds (λ p, tg_iface <$> p = ifaces)); [apply closePools_spec|].
    apply list.Forall_fmap, list.Forall_forall. intros k _. simpl.
    eapply opens_mono; [apply OpenTargets_spec|]. intros ts new (H1 & _ & H2 & _). by split.
  - intros l new (H1 & H2 & H3). split_and!; [done| |done]. rewrite H2, length_fmap, length_seqZ. lia.
Qed.

Lemma NewTeeSocket_spec a : opens (NewTeeSocket fate a) (λ t new, owns_fds [t.1] new ∧ a = inl t.2).
Proof.
  destruct a as [ua|e]; [|apply opens_fail]. intros s Hok. unfold NewTeeSocket, mbind, O_bind, ListenPacket.
  pose proof (opens_sys_open (mkSock (Some (unspecified, 0)) ∅ []) s Hok) as Ho.
  destruct (sys_open fate _ s) as [[fd|e] s']; [|done]. destruct Ho as (Hok' & new & -> & Ho). simpl.
  split; [done|]. exists {[fd := mkSock (Some (unspecified, 0)) ∅ []]}. split; [|done]. split; [|done].
  intros x. rewrite list_elem_of_singleton. destruct (decide (x = fd)) as [-> | Hne].
  - rewrite lookup_singleton_eq. split; eauto.
  - rewrite lookup_singleton_ne by done. split; [done|by intros []].
Qed.

(** The shared tee sockets: one per slot, or none; they never fail the lane. *)
Lemma dialTeeSocks_spec a n s :
  os_ok s →
  ∃ l s' new, dialTeeSocks fate a n s = (inl l, s') ∧ os_ok s' ∧ owns_fds (l ≫= (λ t, [t.1])) new ∧
    new ##ₘ os_open s ∧ os_open s' = new ∪ os_open s ∧ (l = [] ∨ length l = n).
Proof.
  intros Hok.
  assert (Hnone : ∀ s', os_ok s' → os_open s' = os_open s → ∃ new : gmap nat Sock,
    owns_fds (([] : list (nat * UDPAddr)) ≫= (λ t, [t.1])) new ∧ new ##ₘ os_open s ∧ os_open s' = new ∪ os_open s).
  { intros s' _ E. exists ∅. split_and!; [|apply map_disjoint_empty_l|by rewrite map_empty_union].
    intros fd. simpl. rewrite elem_of_nil, lookup_empty. split; [done|by intros []]. }
  destruct a as [a|]; simpl.
  2:{ destruct (Hnone s Hok eq_refl) as (new & H1 & H2 & H3). eexists [], s, new. split_and!; auto. }
  pose proof (open_all_opens closeTees (λ t, [t.1]) (λ t, a = inl t.2) (replicate n (NewTeeSocket fate a)) closeTees_spec) as Ho.
  specialize (Ho ltac:(apply Forall_replicate, NewTeeSocket_spec) s Hok).
  destruct (open_all closeTees [] (replicate n (NewTeeSocket fate a)) s) as [[l|e] s'].
  - destruct Ho as (H1 & new & (H2 & H3 & _) & H4 & H5). exists l, s', new.
    split_and!; try done. right. by rewrite H3, length_replicate.
  - destruct Ho as (H1 & H2). destruct (Hnone s' H1 H2) as (new & H3 & H4 & H5).
    exists [], s', new. split_and!; auto.
Qed.

(** ** The listener lanes *)

Definition tcp_fds (t : TcpSockets) : list nat :=
  (ts_pools t ≫= pool_fds) ++ (ts_tees t ≫= (λ t, [t.1])) ++ (ts_mirrors t ≫= (λ t, [t.1])).

(** What the TCP lane holds next to its listener: a full pool, each set on
    every interface, and per tee a socket for each slot or none. *)
Definition tcp_full (ifaces : list Iface) (procs : Z) (t : TcpSockets) : Prop :=
  let n := Z.to_nat (poolSize procs) in
  length (ts_pools t) = n ∧ Forall (λ p, tg_iface <$> p = ifaces) (ts_pools t) ∧
  (ts_tees t = [] ∨ length (ts_tees t) = n) ∧ (ts_mirrors t = [] ∨ length (ts_mirrors t) = n).

Lemma tcp_open_spec fw ifaces procs port tee mirror s :
  os_ok s →
  match tcp_open fate fw ifaces procs port tee mirror s with
  | (inl t, s') => os_ok s' ∧ tcp_full ifaces procs t ∧
      ∃ sk new, os_open s !! ts_ln t = None ∧ owns_fds (tcp_fds t) new ∧
        new ##ₘ <[ts_ln t := sk]> (os_open s) ∧ os_open s' = new ∪ <[ts_ln t := sk]> (os_open s)
  | (inr _, s') => os_ok s' ∧
      (os_open s' = os_open s ∨
       ∃ ln sk, os_open s !! ln = None ∧ sk_bind sk = Some (unspecified, port) ∧ os_open s' = <[ln := sk]> (os_open s))
  end.
Proof.
  intros Hok. unfold tcp_open, mbind, O_bind.
  set (sk := mkSock (Some (unspecified, port)) ∅ []).
  pose proof (opens_sys_open sk s Hok) as Ho. destruct (sys_open fate sk s) as [[ln|e] s1].
  2:{ destruct Ho as [H1 H2]. split; [done|by left]. }
  destruct Ho as (Hok1 & new1 & -> & Hd1 & Hs1). apply map_disjoint_singleton_l in Hd1.
  rewrite <- insert_union_singleton_l in Hs1.
  pose proof (openPools_spec fw ifaces (Z.to_nat (poolSize procs)) s1 Hok1) as Hp.
  destruct (openPools fate fw ifaces _ s1) as [[pools|e] s2].
  2:{ destruct Hp as [H1 H2]. split; [done|]. right. exists ln, sk. rewrite H2, Hs1. done. }
  destruct Hp as (Hok2 & np & (Hp1 & Hp2 & Hp3) & Hd2 & Hs2).
  destruct (dialTeeSocks_spec tee (Z.to_nat (poolSize procs)) s2 Hok2)
    as (tees & s3 & nt & -> & Hok3 & Ht1 & Hd3 & Hs3 & Ht2).
  destruct (dialTeeSocks_spec mirror (Z.to_nat (poolSize procs)) s3 Hok3)
    as (mirs & s4 & nm & -> & Hok4 & Hm1 & Hd4 & Hs4 & Hm2).
  simpl. split; [done|]. split; [by split_and!|].
  rewrite Hs1 in Hd2, Hs2. rewrite Hs2 in Hd3, Hs3. rewrite Hs3 in Hd4, Hs4.
  exists sk, (nm ∪ (nt ∪ np)). split; [done|].
  apply map_disjoint_union_r in Hd3 as [Hd3 Hd3']. apply map_disjoint_union_r in Hd4 as [Hd4 Hd4'].
  apply map_disjoint_union_r in Hd4' as [Hd4' Hd4''].
  split_and!.
  - unfold tcp_fds. simpl. rewrite app_assoc. apply owns_fds_union; [|done]. by apply owns_fds_union.
  - rewrite !map_disjoint_union_l. by split_and!.
  - by rewrite Hs4, !map_union_assoc.
Qed.

Lemma tcp_close_spec t new base s :
  owns_fds (tcp_fds t) new → new ##ₘ base → os_open s = new ∪ base → os_open (tcp_close t s).2 = base.
Proof.
  intros Ho Hd Hs.
  destruct (closeTees_spec (ts_tees t)) as (f1 & C1 & F1), (closeTees_spec (ts_mirrors t)) as (f2 & C2 & F2),
    (closePools_spec (ts_pools t)) as (f3 & C3 & F3).
  eapply (closes_opened (tcp_close t)); [by apply closes_seq; [|apply closes_seq]| |exact Hd|exact Hs].
  intros fd. rewrite <- (Ho fd). unfold tcp_fds. rewrite !elem_of_app, F1, F2, F3. tauto.
Qed.

(** ** The beacon socket *)

Lemma joinGroups_shapes fd groups :
  shapes false fd (joinGroups fate fd groups) (λ _, True) (λ _ _, True).
Proof.
  induction groups as [|g groups IH]; simpl; [by apply shapes_ret|].
  apply (shapes_bind _ _ _ _ _ (λ _ _, True)); [|intros _; done].
  destruct (To16 g) as [|x ip].
  - intros s sk base Hok Hs Hb _. split; [done|]. by exists sk.
  - apply (shapes_bind _ _ _ _ _ (λ _ _, True)); [apply shapes_touch|intros _]. by apply shapes_alter.
Qed.

Lemma openGroupConn_spec groups port sources :
  opens (openGroupConn fate groups port sources) (λ fd new, ∃ sk, new = {[fd := sk]}).
Proof.
  assert (Hm : opens (fd ← ListenPacket fate unspecified port;
      or_cleanup (sys_touch fate;; joinGroups fate fd groups;; mret fd) (close fd)) (λ fd new, ∃ sk, new = {[fd := sk]})).
  { eapply opens_mono.
    - apply (opens_socket _ _ (λ fd x _, x = fd)). intros fd. apply shapes_cleanup.
      apply (shapes_bind _ _ _ _ _ (λ _ _, True)); [|intros _].
      { intros s sk base Hok Hs Hb _. apply (shapes_touch fd (λ _, True) s sk base); done. }
      apply (shapes_bind _ _ _ _ _ (λ _ _, True)); [apply joinGroups_shapes|intros _]. by apply shapes_ret.
    - intros x new (fd & sk & -> & ->). eauto. }
  destruct groups as [|g [|g' groups]]; [exact Hm| |exact Hm]. destruct sources; [|exact Hm].
  eapply opens_mono; [apply opens_sys_open|]. intros fd new ->. eauto.
Qed.
End Rules.

Section Theorems.
Context `{ShardCommon}.

(** C24: no socket is leaked, whichever system calls fail and whatever was
    open before.  A UDP worker that starts holds one ingress socket sharing
    its port and one socket per egress interface, set to that interface, the
    bound source and the hop limit; closing them gives back the table, and a
    worker that fails to start leaves nothing open.  The TCP lane that starts
    holds, besides its listener, a target set per pool slot and a tee socket
    per slot or none, and closing them leaves only the listener (which the
    shutdown watcher closes); when it fails, at most the listener is left.
    The beacon socket is one descriptor or none. *)
Theorem sockets_never_leak (fate : nat → option GoErr) fw wk freebsd ifaces procs port tee mirror groups sources s :
  os_ok s →
  (match worker_open fate fw wk freebsd ifaces port s with
   | (inl r, s') => os_open (worker_close r s').2 = os_open s ∧
       ∃ new, owns_worker fw freebsd port ifaces r new ∧ new ##ₘ os_open s ∧ os_open s' = new ∪ os_open s
   | (inr _, s') => os_open s' = os_open s
   end) ∧
  (match tcp_open fate fw ifaces procs port tee mirror s with
   | (inl t, s') => tcp_full ifaces procs t ∧
       ∃ sk, os_open s !! ts_ln t = None ∧ os_open (tcp_close t s').2 = <[ts_ln t := sk]> (os_open s)
   | (inr _, s') => os_open s' = os_open s ∨
       ∃ ln sk, os_open s !! ln = None ∧ sk_bind sk = Some (unspecified, port) ∧ os_open s' = <[ln := sk]> (os_open s)
   end) ∧
  (match openGroupConn fate groups port sources s with
   | (inl fd, s') => os_open s !! fd = None ∧ ∃ sk, os_open s' = <[fd := sk]> (os_open s)
   | (inr _, s') => os_open s' = os_open s
   end).
Proof.
  intros Hok. split_and!.
  - pose proof (worker_open_spec fate fw wk freebsd ifaces port s Hok) as Hw.
    destruct (worker_open _ _ _ _ _ _ s) as [[r|e] s']; [|apply Hw].
    destruct Hw as (_ & new & H1 & H2 & H3). split; [|by exists new].
    by apply (worker_close_spec fate fw freebsd port ifaces r new).
  - pose proof (tcp_open_spec fate fw ifaces procs port tee mirror s Hok) as Ht.
    destruct (tcp_open _ _ _ _ _ _ _ s) as [[t|e] s']; [|apply Ht].
    destruct Ht as (_ & H1 & sk & new & H2 & H3 & H4 & H5). split; [done|]. exists sk. split; [done|].
    by apply (tcp_close_spec fate t new).
  - pose proof (openGroupConn_spec fate groups port sources s Hok) as Hg.
    destruct (openGroupConn _ _ _ _ s) as [[fd|e] s']; [|apply Hg].
    destruct Hg as (_ & new & (sk & ->) & H1 & H2). apply map_disjoint_singleton_l in H1.
    split; [done|]. exists sk. by rewrite H2, insert_union_singleton_l.
Qed.
End Theorems.

(** Two interfaces; the probe of the second one is refused, after the first
    egress socket and the ingress socket were opened. *)
Definition refused_probe (n : nat) : option GoErr := if bool_decide (n = 18%nat) then Some (GErrno EPERM) else None.
Definition two_ifaces : list Iface := [mkIface "eth0" 2; mkIface "eth1" 3].
Definition plain_fw : Settings := New (H := toy) 8 0xff05 0xb 9001 false true 4.

Lemma sockets_never_leak_witness :
  let s := mkOS 0 3 ∅ in
  (∃ e s', worker_open refused_probe plain_fw (NewWorker 0 true) false two_ifaces 8725 s = (inr e, s') ∧
     os_open s' = ∅ ∧ os_next s' = 7%nat) ∧
  (∃ r s', worker_open (λ _, None) plain_fw (NewWorker 0 true) false two_ifaces 8725 s = (inl r, s') ∧
     size (os_open s') = 3%nat ∧ os_open (worker_close r s').2 = ∅).
Proof.
  intros s. assert (Hok : os_ok s) by apply map_Forall_empty. split.
  - destruct (sockets_never_leak refused_probe plain_fw (NewWorker 0 true) false two_ifaces 4 8725 None None [] [] s Hok)
      as [Hw _].
    destruct (worker_open refused_probe plain_fw (NewWorker 0 true) false two_ifaces 8725 s) as [[r|e] s'] eqn:E;
      vm_compute in E; [discriminate E|]. injection E as Ee Es.
    eexists _, _. split; [reflexivity|]. split; [exact Hw|]. rewrite <- Es. reflexivity.
  - destruct (sockets_never_leak (λ _, None) plain_fw (NewWorker 0 true) false two_ifaces 4 8725 None None [] [] s Hok)
      as [Hw _].
    destruct (worker_open (λ _, None) plain_fw (NewWorker 0 true) false two_ifaces 8725 s) as [[r|e] s'] eqn:E;
      vm_compute in E; [|discriminate E]. injection E as Er Es.
    eexists _, _. split; [reflexivity|]. split; [rewrite <- Es; reflexivity|exact (proj1 Hw)].
Defined.
