(* ===== verification/Lifecycle.v ===== *)
(** * Goroutines, readiness and shutdown (main.go, worker/*.go Run)

    The process as a state machine.  Main starts its goroutines one after
    another (UDP workers, the TCP lane, the push lanes, the manifest
    consumer), waits for a signal or a restart request, marks the recorder as
    draining, closes [done], and waits for every goroutine.  Each lane
    accepts connections and serves each in a goroutine of its own; watcher
    goroutines close sockets when [done] is closed.  What the goroutines do
    with the data they read is modelled elsewhere; here only what starts,
    blocks and stops them matters.

    [act] is one atomic step; [program] tells the steps the process takes by
    itself from those of its environment (signals, peers, kernel failures). *)

From S2P Require Import Prelude Common Recorder.

(** ** Goroutines *)

(** A UDP worker: starting, with its ingress socket open, with its egress
    sockets open and reported ready (dialing its tees and setting up its
    buffers), in its receive loop, running its deferred calls (closing the
    tees and flushing its tail, then reported done), or returned, with an
    error or not; and whether its ingress and its egress sockets are open. *)
Inductive WPC := WStart | WOpen | WReady | WLoop | WDrain | WClose | WDone (err : bool).
Record WorkerG := mkWorkerG { wg_pc : WPC; wg_conn : bool; wg_egress : bool }.

(** A connection: being served, flushing its tail, or finished. *)
Inductive CPC := CServe | CFlush | CDone.
Record ConnG := mkConnG { cg_pc : CPC; cg_open : bool }.

(** A listener lane: starting, listening, accepting, waiting for its
    connections, or returned; whether it is the TCP lane (which reports its
    readiness), whether its listener and its egress sockets are open, how
    many connections the kernel holds for it, and those it accepted. *)
Inductive LPC := LStart | LListen | LAccept | LWait | LDone (err : bool).
Record LaneG := mkLaneG {
  lg_tcp : bool; lg_pc : LPC; lg_ln : bool; lg_egress : bool; lg_backlog : nat; lg_conns : list ConnG }.

(** A goroutine of the manifest consumer and the context adapted from
    [done]. *)
Record MfG := mkMfG { mf_cancelled : bool; mf_done : bool }.

#[export] Instance eta_WorkerG : EtaExpand WorkerG := {| eta_of := λ x,
  mkWorkerG (wg_pc x) (wg_conn x) (wg_egress x) |}.
#[export] Instance eta_ConnG : EtaExpand ConnG := {| eta_of := λ x, mkConnG (cg_pc x) (cg_open x) |}.
#[export] Instance eta_LaneG : EtaExpand LaneG := {| eta_of := λ x,
  mkLaneG (lg_tcp x) (lg_pc x) (lg_ln x) (lg_egress x) (lg_backlog x) (lg_conns x) |}.
#[export] Instance eta_MfG : EtaExpand MfG := {| eta_of := λ x, mkMfG (mf_cancelled x) (mf_done x) |}.

(** What main starts, in the order of its source. *)
Inductive StartOp := SpawnWorker | RequireTCP | SpawnLane (tcp : bool) | SpawnManifest.

#[export] Instance StartOp_eq_dec : EqDecision StartOp.
Proof. solve_decision. Defined.

Record Plan := mkPlan { pl_workers : nat; pl_tcp : bool; pl_push : nat; pl_manifest : bool }.

Definition startup (p : Plan) : list StartOp :=
  replicate (pl_workers p) SpawnWorker ++
  (if pl_tcp p then [RequireTCP; SpawnLane true] else []) ++
  replicate (pl_push p) (SpawnLane false) ++
  (if pl_manifest p then [SpawnManifest; SpawnManifest] else []).

(** Main: starting goroutines, in the select, past it, draining, after
    [close(done)], waiting for the goroutines, returned. *)
Inductive MainPC := MStart (todo : list StartOp) | MSelect | MStop | MDrain | MClosed | MWait | MExit.

Record Proc := mkProc {
  p_rec : Recorder; p_main : MainPC; p_done : bool; p_sig : bool; p_restart : bool;
  p_workers : list WorkerG; p_lanes : list LaneG; p_mfs : list MfG }.

#[export] Instance eta_Proc : EtaExpand Proc := {| eta_of := λ x,
  mkProc (p_rec x) (p_main x) (p_done x) (p_sig x) (p_restart x) (p_workers x) (p_lanes x) (p_mfs x) |}.

Definition init (p : Plan) (now : Z) : Proc :=
  mkProc (NewRecorder (Z.of_nat (pl_workers p)) now) (MStart (startup p)) false false false [] [] [].

(** ** Steps *)

Inductive Act :=
(* main *)
| AMain | ASelectSig | ASelectRestart
(* a worker: socket opened or not, targets opened or not, loop entered and
   left, tail flushed, sockets closed, watcher *)
| AWorkerSocket (i : nat) (ok : bool) | AWorkerTargets (i : nat) (ok : bool) | AWorkerSetup (i : nat)
| AWorkerExit (i : nat) | AWorkerDrain (i : nat) | AWorkerClose (i : nat) | AWorkerWatch (i : nat)
(* a lane *)
| ALaneListen (i : nat) (ok : bool) | ALaneTargets (i : nat) (ok : bool) | ALaneAccept (i : nat) | ALaneStop (i : nat)
| ALaneClose (i : nat) | ALaneWatch (i : nat)
(* connection j of lane i *)
| AConnEnd (i j : nat) | AConnFlush (i j : nat) | AConnWatch (i j : nat)
(* the manifest consumer *)
| AMfCancel (i : nat) | AMfExit (i : nat)
(* the environment *)
| ESignal | ERestart (i : nat) | EConnect (i : nat) | EPeerClose (i j : nat)
| EWorkerBreak (i : nat) | ELaneBreak (i : nat) | EMfFail (i : nat).

Definition program (a : Act) : bool :=
  match a with
  | ESignal | ERestart _ | EConnect _ | EPeerClose _ _ | EWorkerBreak _ | ELaneBreak _ | EMfFail _ => false
  | _ => true
  end.

Definition spawn (op : StartOp) (s : Proc) : Proc :=
  match op with
  | SpawnWorker => s <| p_workers ::= λ l, l ++ [mkWorkerG WStart false false] |>
  | RequireTCP => s <| p_rec ::= RequireTCPIngress |>
  | SpawnLane tcp => s <| p_lanes ::= λ l, l ++ [mkLaneG tcp LStart false false 0 []] |>
  | SpawnManifest => s <| p_mfs ::= λ l, l ++ [mkMfG false false] |>
  end.

Definition worker_done (w : WorkerG) : bool := match wg_pc w with WDone _ => true | _ => false end.
Definition conn_done (c : ConnG) : bool := match cg_pc c with CDone => true | _ => false end.
Definition lane_done (l : LaneG) : bool := match lg_pc l with LDone _ => true | _ => false end.

(** [wg.Wait] returns: every goroutine main waits for has returned. *)
Definition all_returned (s : Proc) : bool :=
  forallb worker_done (p_workers s) && forallb lane_done (p_lanes s) && forallb mf_done (p_mfs s).

(** Main's own steps.  [MDrain] is entered once the recorder is draining; the
    drain sleep is the time spent there. *)
Definition main_step (s : Proc) : option Proc :=
  match p_main s with
  | MStart (op :: todo) => Some (spawn op (s <| p_main := MStart todo |>))
  | MStart [] => Some (s <| p_main := MSelect |>)
  | MSelect => None
  | MStop => Some (s <| p_rec ::= SetDraining |> <| p_main := MDrain |>)
  | MDrain => Some (s <| p_done := true |> <| p_main := MClosed |>)
  | MClosed => Some (s <| p_main := MWait |>)
  | MWait => if all_returned s then Some (s <| p_main := MExit |>) else None
  | MExit => None
  end.

(** A signal that arrives before [signal.Notify] ends the process outright;
    those modelled arrive once main is past its startup. *)
Definition starting (s : Proc) : bool := match p_main s with MStart _ => true | _ => false end.
Definition in_select (s : Proc) : bool := match p_main s with MSelect => true | _ => false end.

(** A step of worker [i], with its effect on the recorder. *)
Definition on_worker (i : nat) (f : WorkerG → option (WorkerG * (Recorder → Recorder))) (s : Proc) : option Proc :=
  w ← p_workers s !! i;
  '(w', g) ← f w;
  Some (s <| p_workers := <[i := w']> (p_workers s) |> <| p_rec ::= g |>).

Definition on_lane (i : nat) (f : LaneG → option (LaneG * (Recorder → Recorder))) (s : Proc) : option Proc :=
  l ← p_lanes s !! i;
  '(l', g) ← f l;
  Some (s <| p_lanes := <[i := l']> (p_lanes s) |> <| p_rec ::= g |>).

Definition on_conn (i j : nat) (f : ConnG → option ConnG) (s : Proc) : option Proc :=
  on_lane i (λ l, c ← lg_conns l !! j; c' ← f c;
    Some (l <| lg_conns := <[j := c']> (lg_conns l) |>, id)) s.

Definition on_mf (i : nat) (f : MfG → option MfG) (s : Proc) : option Proc :=
  m ← p_mfs s !! i; m' ← f m; Some (s <| p_mfs := <[i := m']> (p_mfs s) |>).

Definition guard {A} (b : bool) (x : A) : option A := if b then Some x else None.

(** [Worker.Run]. *)
Definition worker_socket_step (ok : bool) (w : WorkerG) : option (WorkerG * (Recorder → Recorder)) :=
  match wg_pc w with
  | WStart => Some (if ok then mkWorkerG WOpen true false else mkWorkerG (WDone true) false false, id)
  | _ => None
  end.

Definition worker_targets_step (ok : bool) (w : WorkerG) : option (WorkerG * (Recorder → Recorder)) :=
  match wg_pc w with
  | WOpen => Some (if ok then (w <| wg_pc := WReady |> <| wg_egress := true |>, WorkerReady)
                   else (mkWorkerG (WDone true) false false, id))
  | _ => None
  end.

(** The tee and the mirror are dialed and the receive buffers made; neither
    can fail the worker. *)
Definition worker_setup_step (w : WorkerG) : option (WorkerG * (Recorder → Recorder)) :=
  match wg_pc w with WReady => Some (w <| wg_pc := WLoop |>, id) | _ => None end.

(** [ReadBatch] fails because the ingress socket is closed. *)
Definition worker_exit_step (closed : WorkerG → bool) (w : WorkerG) : option (WorkerG * (Recorder → Recorder)) :=
  match wg_pc w with
  | WLoop => guard (closed w) (w <| wg_pc := WDrain |>, id)
  | _ => None
  end.

(** The deferred calls, last first: the tees closed and the tail flushed,
    [WorkerDone], then [CloseTargets] and the ingress socket. *)
Definition worker_drain_step (w : WorkerG) : option (WorkerG * (Recorder → Recorder)) :=
  match wg_pc w with WDrain => Some (w <| wg_pc := WClose |>, WorkerDone) | _ => None end.

Definition worker_close_step (w : WorkerG) : option (WorkerG * (Recorder → Recorder)) :=
  match wg_pc w with WClose => Some (mkWorkerG (WDone false) false false, id) | _ => None end.

(** [TCPIngress.Run] and [ObjectIngress.Run]. *)
Definition lane_listen_step (ok : bool) (l : LaneG) : option (LaneG * (Recorder → Recorder)) :=
  match lg_pc l with
  | LStart => Some (if ok then (l <| lg_pc := LListen |> <| lg_ln := true |>,
                                if lg_tcp l then TCPIngressReady else id)
                    else (l <| lg_pc := LDone true |>, id))
  | _ => None
  end.

Definition lane_targets_step (ok : bool) (l : LaneG) : option (LaneG * (Recorder → Recorder)) :=
  match lg_pc l with
  | LListen => Some (if ok then l <| lg_pc := LAccept |> <| lg_egress := true |> else l <| lg_pc := LDone true |>, id)
  | _ => None
  end.

Definition lane_accept_step (l : LaneG) : option (LaneG * (Recorder → Recorder)) :=
  match lg_pc l, lg_backlog l with
  | LAccept, S n => guard (lg_ln l) (l <| lg_backlog := n |> <| lg_conns ::= λ cs, cs ++ [mkConnG CServe true] |>,
                                     if lg_tcp l then TCPConnectionAccepted else id)
  | _, _ => None
  end.

(** [Accept] fails because the listener is closed. *)
Definition lane_stop_step (closed : LaneG → bool) (l : LaneG) : option (LaneG * (Recorder → Recorder)) :=
  match lg_pc l with
  | LAccept => guard (closed l) (l <| lg_pc := LWait |>, id)
  | _ => None
  end.

(** [connWG.Wait], then the deferred closes of the tee and egress sockets. *)
Definition lane_close_step (l : LaneG) : option (LaneG * (Recorder → Recorder)) :=
  match lg_pc l with
  | LWait => guard (forallb conn_done (lg_conns l)) (l <| lg_pc := LDone false |> <| lg_egress := false |>, id)
  | _ => None
  end.

Definition listening (l : LaneG) : bool := match lg_pc l with LStart => false | _ => lg_ln l end.

Definition act (a : Act) (s : Proc) : option Proc :=
  match a with
  | AMain => main_step s
  | ASelectSig => guard (in_select s && p_sig s) (s <| p_main := MStop |> <| p_sig := false |>)
  | ASelectRestart => guard (in_select s && p_restart s) (s <| p_main := MStop |> <| p_restart := false |>)
  | AWorkerSocket i ok => on_worker i (worker_socket_step ok) s
  | AWorkerTargets i ok => on_worker i (worker_targets_step ok) s
  | AWorkerSetup i => on_worker i worker_setup_step s
  | AWorkerExit i => on_worker i (worker_exit_step (λ w, negb (wg_conn w))) s
  | AWorkerDrain i => on_worker i worker_drain_step s
  | AWorkerClose i => on_worker i worker_close_step s
  | AWorkerWatch i => on_worker i (λ w, guard (p_done s && wg_conn w) (w <| wg_conn := false |>, id)) s
  | ALaneListen i ok => on_lane i (lane_listen_step ok) s
  | ALaneTargets i ok => on_lane i (lane_targets_step ok) s
  | ALaneAccept i => on_lane i lane_accept_step s
  | ALaneStop i => on_lane i (lane_stop_step (λ l, negb (lg_ln l))) s
  | ALaneClose i => on_lane i lane_close_step s
  | ALaneWatch i => on_lane i (λ l, guard (p_done s && listening l) (l <| lg_ln := false |> <| lg_backlog := 0%nat |>, id)) s
  | AConnEnd i j => on_conn i j (λ c, match cg_pc c with CServe => guard (negb (cg_open c)) (mkConnG CFlush false) | _ => None end) s
  | AConnFlush i j => on_conn i j (λ c, match cg_pc c with CFlush => Some (c <| cg_pc := CDone |>) | _ => None end) s
  | AConnWatch i j => on_conn i j (λ c, guard (p_done s && cg_open c) (c <| cg_open := false |>)) s
  | AMfCancel i => on_mf i (λ m, guard (p_done s && negb (mf_cancelled m)) (m <| mf_cancelled := true |>)) s
  | AMfExit i => on_mf i (λ m, guard (mf_cancelled m && negb (mf_done m)) (m <| mf_done := true |>)) s
  | ESignal => guard (negb (starting s)) (s <| p_sig := true |>)
  | ERestart i => m ← p_mfs s !! i; guard (negb (mf_done m)) (s <| p_restart := true |>)
  | EConnect i => on_lane i (λ l, guard (listening l) (l <| lg_backlog ::= S |>, id)) s
  | EPeerClose i j => on_conn i j (λ c, match cg_pc c with CServe => Some (mkConnG CFlush false) | _ => None end) s
  | EWorkerBreak i => on_worker i (worker_exit_step (λ _, true)) s
  | ELaneBreak i => on_lane i (lane_stop_step (λ _, true)) s
  | EMfFail i => on_mf i (λ m, guard (negb (mf_done m)) (m <| mf_done := true |>)) s
  end.

(** ** Executions *)

Definition run (acts : list Act) (s : Proc) : option Proc :=
  foldl (λ o a, o ≫= act a) (Some s) acts.

Inductive reachable (p : Plan) (now : Z) : Proc → Prop :=
| reach_init : reachable p now (init p now)
| reach_step a s s' : reachable p now s → act a s = Some s' → reachable p now s'.

(** A run of the program's own steps, of the given length. *)
Inductive program_run : nat → Proc → Proc → Prop :=
| run_nil s : program_run 0 s s
| run_cons a n s1 s2 s3 : program a = true → act a s1 = Some s2 → program_run n s2 s3 → program_run (S n) s1 s3.
