(* ===== verification/LifecycleFacts.v ===== *)
(** * Invariants of the process

    What every reachable state of the process satisfies: readiness counts
    the workers between [WorkerReady] and [WorkerDone], [done] is closed only after the recorder is
    draining, sockets are closed only after [done], and egress sockets
    outlive the connections that use them. *)

From S2P Require Import Prelude Common Recorder Lifecycle.

Definition todo_of (m : MainPC) : list StartOp := match m with MStart todo => todo | _ => [] end.

(** Between [WorkerReady] and [WorkerDone]. *)
Definition counted_ready (w : WorkerG) : bool := match wg_pc w with WReady | WLoop | WDrain => true | _ => false end.

Fixpoint count {A} (f : A → bool) (l : list A) : nat :=
  match l with [] => 0 | x :: l => (if f x then 1 else 0) + count f l end%nat.

Definition draining_pc (m : MainPC) : bool := match m with MDrain | MClosed | MWait | MExit => true | _ => false end.
Definition done_pc (m : MainPC) : bool := match m with MClosed | MWait | MExit => true | _ => false end.

Definition worker_ok (done : bool) (w : WorkerG) : Prop :=
  match wg_pc w with
  | WStart | WDone _ => wg_conn w = false ∧ wg_egress w = false
  | WOpen => wg_egress w = false ∧ (wg_conn w = true ∨ done = true)
  | WReady | WLoop | WDrain | WClose => wg_egress w = true ∧ (wg_conn w = true ∨ done = true)
  end.

Definition conn_ok (done egress : bool) (c : ConnG) : Prop :=
  match cg_pc c with
  | CServe => egress = true ∧ (cg_open c = true ∨ done = true)
  | CFlush => egress = true ∧ cg_open c = false
  | CDone => cg_open c = false
  end.

Definition lane_ok (done : bool) (l : LaneG) : Prop :=
  Forall (conn_ok done (lg_egress l)) (lg_conns l) ∧
  match lg_pc l with
  | LStart => lg_ln l = false ∧ lg_egress l = false ∧ lg_conns l = [] ∧ lg_backlog l = 0%nat
  | LListen => lg_egress l = false ∧ lg_conns l = [] ∧ (lg_ln l = true ∨ done = true)
  | LAccept | LWait => lg_egress l = true ∧ (lg_ln l = true ∨ done = true)
  | LDone _ => lg_egress l = false
  end ∧ (lg_ln l = false → lg_backlog l = 0%nat).

Record inv (p : Plan) (s : Proc) : Prop := {
  i_suffix : ∃ pre, startup p = pre ++ todo_of (p_main s);
  i_count : (length (p_workers s) + count (λ op, bool_decide (op = SpawnWorker)) (todo_of (p_main s)) = pl_workers p)%nat;
  i_req : r_tcpIngressRequired (p_rec s) = pl_tcp p && negb (bool_decide (RequireTCP ∈ todo_of (p_main s)));
  i_num : r_numWorkers (p_rec s) = Z.of_nat (pl_workers p);
  i_ready : r_readyCount (p_rec s) = Z.of_nat (count counted_ready (p_workers s));
  i_drain : r_draining (p_rec s) = draining_pc (p_main s);
  i_done : p_done s = done_pc (p_main s);
  i_workers : Forall (worker_ok (p_done s)) (p_workers s);
  i_lanes : Forall (lane_ok (p_done s)) (p_lanes s);
  i_tcp : r_tcpIngressReady (p_rec s) = true → p_done s = true ∨ ∃ l, l ∈ p_lanes s ∧ lg_tcp l = true ∧ lg_ln l = true;
  i_exit : p_main s = MExit → all_returned s = true }.

(** ** Lists *)

Lemma count_app {A} (f : A → bool) a b : count f (a ++ b) = (count f a + count f b)%nat.
Proof. induction a as [|x a IH]; simpl; [done|]. rewrite IH. lia. Qed.

Lemma count_insert {A} (f : A → bool) l i x y :
  l !! i = Some x →
  (count f (<[i := y]> l) + (if f x then 1 else 0) = count f l + (if f y then 1 else 0))%nat.
Proof.
  revert i. induction l as [|z l IH]; intros [|i] E; simplify_eq/=; [lia|]. specialize (IH _ E). lia.
Qed.

Lemma count_le {A} (f : A → bool) l : (count f l ≤ length l)%nat.
Proof. induction l as [|x l IH]; simpl; [lia|]. destruct (f x); lia. Qed.

Lemma count_full {A} (f : A → bool) l : count f l = length l → Forall (λ x, f x = true) l.
Proof.
  induction l as [|x l IH]; simpl; intros E; [by apply Forall_nil_2|].
  pose proof (count_le f l). destruct (f x) eqn:Ef; [|lia]. apply Forall_cons_2; [done|apply IH; lia].
Qed.

Lemma forallb_insert {A} (f : A → bool) l i y : forallb f l = true → f y = true → forallb f (<[i := y]> l) = true.
Proof.
  intros Hl Hy. revert i. induction l as [|x l IH]; intros [|i]; simpl in *; [done..| |].
  - apply andb_true_iff in Hl as [_ Hl]. by rewrite Hy, Hl.
  - apply andb_true_iff in Hl as [-> Hl]. by apply IH.
Qed.

Lemma forallb_lookup {A} (f : A → bool) l i x : forallb f l = true → l !! i = Some x → f x = true.
Proof.
  revert i. induction l as [|y l IH]; intros [|i] Hl E; simplify_eq/=; apply andb_true_iff in Hl as [H1 H2]; eauto.
Qed.

(** ** Inversion of steps *)

Lemma on_worker_inv i f s s' :
  on_worker i f s = Some s' →
  ∃ w w' g, p_workers s !! i = Some w ∧ f w = Some (w', g) ∧
    s' = s <| p_workers := <[i := w']> (p_workers s) |> <| p_rec ::= g |>.
Proof.
  unfold on_worker. intros E. apply bind_Some in E as (w & Ew & E). apply bind_Some in E as ([w' g] & Ef & E).
  injection E as <-. eauto 10.
Qed.

Lemma on_lane_inv i f s s' :
  on_lane i f s = Some s' →
  ∃ l l' g, p_lanes s !! i = Some l ∧ f l = Some (l', g) ∧
    s' = s <| p_lanes := <[i := l']> (p_lanes s) |> <| p_rec ::= g |>.
Proof.
  unfold on_lane. intros E. apply bind_Some in E as (w & Ew & E). apply bind_Some in E as ([w' g] & Ef & E).
  injection E as <-. eauto 10.
Qed.

Lemma on_conn_inv i j f s s' :
  on_conn i j f s = Some s' →
  ∃ l c c', p_lanes s !! i = Some l ∧ lg_conns l !! j = Some c ∧ f c = Some c' ∧
    s' = s <| p_lanes := <[i := l <| lg_conns := <[j := c']> (lg_conns l) |>]> (p_lanes s) |> <| p_rec ::= id |>.
Proof.
  intros E. apply on_lane_inv in E as (l & l' & g & El & Ef & ->).
  apply bind_Some in Ef as (c & Ec & Ef). apply bind_Some in Ef as (c' & Ef & E).
  injection E as <- <-. eauto 10.
Qed.

Lemma on_mf_inv i f s s' :
  on_mf i f s = Some s' →
  ∃ m m', p_mfs s !! i = Some m ∧ f m = Some m' ∧ s' = s <| p_mfs := <[i := m']> (p_mfs s) |>.
Proof.
  unfold on_mf. intros E. apply bind_Some in E as (m & Em & E). apply bind_Some in E as (m' & Ef & E).
  injection E as <-. eauto 10.
Qed.

Lemma guard_Some {A} b (x y : A) : guard b x = Some y → b = true ∧ x = y.
Proof. unfold guard. destruct b; naive_solver. Qed.

(** ** Preservation *)

Lemma i32_small n : - 2 ^ 31 ≤ n < 2 ^ 31 → i32 n = n.
Proof. intros. unfold i32. rewrite Z.mod_small by lia. lia. Qed.

Section Preservation.
Context (p : Plan) (Hsmall : Z.of_nat (pl_workers p) < 2 ^ 31).

(** The recorder after a worker's step, given whether it was and is counted
    as ready. *)
Definition ready_effect (g : Recorder → Recorder) (was after : bool) : Prop :=
  (g = id ∧ was = after) ∨ (g = WorkerReady ∧ was = false ∧ after = true) ∨ (g = WorkerDone ∧ was = true ∧ after = false).

Lemma inv_worker s i w w' g :
  inv p s → p_workers s !! i = Some w → worker_ok (p_done s) w' → ready_effect g (counted_ready w) (counted_ready w') →
  (worker_done w = true → worker_done w' = true) →
  inv p (s <| p_workers := <[i := w']> (p_workers s) |> <| p_rec ::= g |>).
Proof.
  intros [] Ei Hok Hg Hd.
  assert (Hfix : ∀ r, r_tcpIngressRequired (g r) = r_tcpIngressRequired r ∧ r_numWorkers (g r) = r_numWorkers r ∧
    r_draining (g r) = r_draining r ∧ r_tcpIngressReady (g r) = r_tcpIngressReady r).
  { intros r. by destruct Hg as [[-> _]|[[-> _]|[-> _]]]. }
  destruct (Hfix (p_rec s)) as (F1 & F2 & F3 & F4).
  split; simpl; rewrite ?length_insert, ?F1, ?F2, ?F3, ?F4; try done.
  - pose proof (count_insert counted_ready _ _ _ w' Ei) as C.
    pose proof (count_le counted_ready (p_workers s)). pose proof (count_le counted_ready (<[i := w']> (p_workers s))).
    rewrite length_insert in *.
    destruct Hg as [[-> E]|[[-> [E1 E2]]|[-> [E1 E2]]]]; unfold id, WorkerReady, WorkerDone; simpl.
    + rewrite E in C. destruct (counted_ready w'); lia.
    + rewrite E1, E2 in C. rewrite i_ready0, i32_small; lia.
    + rewrite E1, E2 in C. rewrite i_ready0, i32_small; lia.
  - by apply Forall_insert.
  - intros E. specialize (i_exit0 E). unfold all_returned in *. simpl.
    rewrite !andb_true_iff in *. destruct i_exit0 as [[W L] M]. split_and!; [|done|done].
    apply forallb_insert; [done|]. apply Hd. by eapply forallb_lookup.
Qed.

Lemma inv_lane s i l l' g :
  inv p s → p_lanes s !! i = Some l → lane_ok (p_done s) l' → lg_tcp l' = lg_tcp l →
  (lg_ln l = true → lg_ln l' = true ∨ p_done s = true) → (lane_done l = true → lane_done l' = true) →
  (g = id ∨ g = TCPConnectionAccepted ∨ g = TCPIngressReady ∧ lg_tcp l' = true ∧ lg_ln l' = true) →
  inv p (s <| p_lanes := <[i := l']> (p_lanes s) |> <| p_rec ::= g |>).
Proof.
  intros [] Ei Hok Ht Hln Hd Hg.
  assert (Hfix : ∀ r, r_tcpIngressRequired (g r) = r_tcpIngressRequired r ∧ r_numWorkers (g r) = r_numWorkers r ∧
    r_draining (g r) = r_draining r ∧ r_readyCount (g r) = r_readyCount r).
  { intros r. by destruct Hg as [-> |[-> |[-> _]]]. }
  destruct (Hfix (p_rec s)) as (F1 & F2 & F3 & F4).
  assert (Hlt : (i < length (p_lanes s))%nat) by (by eapply lookup_lt_Some).
  split; simpl; rewrite ?F1, ?F2, ?F3, ?F4; try done.
  - by apply Forall_insert.
  - intros Hr.
    assert (Hcase : r_tcpIngressReady (p_rec s) = true ∨ lg_tcp l' = true ∧ lg_ln l' = true).
    { destruct Hg as [-> |[-> |[-> ?]]]; [by left..|by right]. }
    destruct Hcase as [Hc|[H1 H2]].
    + destruct (i_tcp0 Hc) as [?|(l0 & Hin & Ht0 & Hl0)]; [by left|].
      apply list_elem_of_lookup in Hin as [j Ej]. destruct (decide (i = j)) as [<- |Hne].
      * rewrite Ei in Ej. injection Ej as <-. destruct (Hln Hl0); [|by left]. right.
        exists l'. split_and!; [|congruence|done]. apply (list_elem_of_lookup_2 _ i). by apply list_lookup_insert_eq.
      * right. exists l0. split_and!; [|done|done]. apply (list_elem_of_lookup_2 _ j). by rewrite list_lookup_insert_ne.
    + right. exists l'. split_and!; [|done|done]. apply (list_elem_of_lookup_2 _ i). by apply list_lookup_insert_eq.
  - intros E. specialize (i_exit0 E). unfold all_returned in *. simpl.
    rewrite !andb_true_iff in *. destruct i_exit0 as [[W L] M]. split_and!; [done| |done].
    apply forallb_insert; [done|]. apply Hd. by eapply forallb_lookup.
Qed.

Lemma inv_conn s i j l c c' :
  inv p s → p_lanes s !! i = Some l → lg_conns l !! j = Some c →
  (conn_ok (p_done s) (lg_egress l) c → conn_ok (p_done s) (lg_egress l) c') →
  inv p (s <| p_lanes := <[i := l <| lg_conns := <[j := c']> (lg_conns l) |>]> (p_lanes s) |> <| p_rec ::= id |>).
Proof.
  intros Hinv El Ec Hc. pose proof (Forall_lookup_1 _ _ _ _ (i_lanes _ _ Hinv) El) as (H1 & H2 & H3).
  apply (inv_lane s i l); [done|done| |done|by left|done|by left].
  split_and!; simpl; [|  |done].
  - apply Forall_insert; [done|]. apply Hc. exact (Forall_lookup_1 _ _ _ _ H1 Ec).
  - destruct (lg_pc l); try done.
    + destruct H2 as (? & ? & E & ?). rewrite E in Ec. by rewrite lookup_nil in Ec.
    + destruct H2 as (? & E & ?). rewrite E in Ec. by rewrite lookup_nil in Ec.
Qed.

Lemma inv_mf s i m m' :
  inv p s → p_mfs s !! i = Some m → (mf_done m = true → mf_done m' = true) →
  inv p (s <| p_mfs := <[i := m']> (p_mfs s) |>).
Proof.
  intros [] Ei Hd. split; simpl; try done.
  intros E. specialize (i_exit0 E). unfold all_returned in *. simpl.
  rewrite !andb_true_iff in *. destruct i_exit0 as [[W L] M]. split_and!; [done|done|].
  apply forallb_insert; [done|]. apply Hd. by eapply forallb_lookup.
Qed.

(** Setting a buffered channel changes nothing the invariant mentions. *)
Lemma inv_channels s a b : inv p s → inv p (s <| p_sig := a |> <| p_restart := b |>).
Proof. by intros []. Qed.

(** Main moves between points with the same goroutines. *)
Lemma worker_ok_done w : worker_ok false w → worker_ok true w.
Proof. unfold worker_ok. destruct (wg_pc w); intuition. Qed.

Lemma lane_ok_done l : lane_ok false l → lane_ok true l.
Proof.
  intros (H1 & H2 & H3). split_and!; [| |done].
  - revert H1. apply Forall_impl. intros c. unfold conn_ok. destruct (cg_pc c); intuition.
  - destruct (lg_pc l); intuition.
Qed.

Lemma inv_init now : inv p (init p now).
Proof.
  split; simpl; try done.
  - by exists [].
  - unfold startup. rewrite !count_app.
    assert (C : ∀ n, count (λ op, bool_decide (op = SpawnWorker)) (replicate n SpawnWorker) = n).
    { induction n as [|n IH]; [done|]. simpl. rewrite IH. lia. }
    assert (D : ∀ n, count (λ op, bool_decide (op = SpawnWorker)) (replicate n (SpawnLane false)) = 0%nat).
    { induction n as [|n IH]; [done|]. simpl. by rewrite IH. }
    rewrite C, D. destruct (pl_tcp p), (pl_manifest p); simpl; lia.
  - destruct (pl_tcp p) eqn:E; [|done]. rewrite bool_decide_eq_true_2; [done|].
    unfold startup. rewrite E, elem_of_app. right. by left.
Qed.

(** A RequireTCP is executed once. *)
Lemma require_once pre todo :
  startup p = pre ++ RequireTCP :: todo → pl_tcp p = true ∧ RequireTCP ∉ todo.
Proof.
  intros E.
  assert (C : (count (λ op, bool_decide (op = RequireTCP)) (startup p) = if pl_tcp p then 1 else 0)%nat).
  { unfold startup. rewrite !count_app.
    assert (R : ∀ n o, o ≠ RequireTCP → count (λ op, bool_decide (op = RequireTCP)) (replicate n o) = 0%nat).
    { intros n o Ho. induction n as [|n IH]; [done|]. simpl. rewrite IH, bool_decide_eq_false_2 by done. done. }
    rewrite !R by done. destruct (pl_tcp p), (pl_manifest p); done. }
  rewrite E, count_app in C. simpl in C. destruct (pl_tcp p); [|lia]. split; [done|].
  assert (Z0 : count (λ op, bool_decide (op = RequireTCP)) todo = 0%nat) by lia. clear -Z0.
  induction todo as [|o todo IH]; [set_solver|]. simpl in Z0. rewrite elem_of_cons. intros [<- | Hin].
  - rewrite bool_decide_eq_true_2 in Z0 by done. lia.
  - apply IH; [lia|done].
Qed.

Lemma inv_main s s' : inv p s → main_step s = Some s' → inv p s'.
Proof.
  intros Hinv. unfold main_step. destruct (p_main s) as [[|op todo]| | | | | |] eqn:Em; intros E; simplify_eq.
  - destruct Hinv. rewrite Em in *. split; simpl in *; done.
  - destruct Hinv. rewrite Em in *. simpl in *. destruct i_suffix0 as [pre Hpre].
    assert (Hpre' : ∃ pre, startup p = pre ++ todo) by (exists (pre ++ [op]); by rewrite <- app_assoc).
    destruct op; split; simpl; try done.
    + rewrite length_app. simpl. rewrite bool_decide_eq_true_2 in i_count0 by done. simpl in i_count0. lia.
    + by rewrite i_req0, (bool_decide_ext (RequireTCP ∈ SpawnWorker :: todo) (RequireTCP ∈ todo)) by set_solver.
    + rewrite count_app. simpl. by rewrite Nat.add_0_r.
    + apply Forall_app. split; [done|]. by apply Forall_singleton.
    + destruct (require_once _ _ Hpre) as [-> Hn]. by rewrite bool_decide_eq_false_2.
    + by rewrite i_req0, (bool_decide_ext (RequireTCP ∈ SpawnLane tcp :: todo) (RequireTCP ∈ todo)) by set_solver.
    + apply Forall_app. split; [done|]. apply Forall_singleton. by split_and!.
    + intros Hr. destruct (i_tcp0 Hr) as [?|(l & ? & ?)]; [by left|right]. exists l. set_solver.
    + by rewrite i_req0, (bool_decide_ext (RequireTCP ∈ SpawnManifest :: todo) (RequireTCP ∈ todo)) by set_solver.
  - destruct Hinv. rewrite Em in *. split; simpl in *; try done.
  - destruct Hinv. rewrite Em in *. simpl in *. rewrite i_done0 in *. split; simpl; try done.
    + revert i_workers0. apply Forall_impl. apply worker_ok_done.
    + revert i_lanes0. apply Forall_impl. apply lane_ok_done.
    + intros _. by left.
  - destruct Hinv. rewrite Em in *. split; simpl in *; done.
  - destruct (all_returned s) eqn:Ea; [|done]. simplify_eq.
    destruct Hinv. rewrite Em in *. split; simpl in *; done.
Qed.

Lemma inv_select s a b : inv p s → in_select s = true → inv p (s <| p_main := MStop |> <| p_sig := a |> <| p_restart := b |>).
Proof.
  intros []. unfold in_select. by destruct (p_main s) eqn:Em.
Qed.

(** What a step of one goroutine has to respect. *)
Definition worker_safe (done : bool) (f : WorkerG → option (WorkerG * (Recorder → Recorder))) : Prop :=
  ∀ w w' g, worker_ok done w → f w = Some (w', g) →
    worker_ok done w' ∧ ready_effect g (counted_ready w) (counted_ready w') ∧ worker_done w = false.

Definition lane_safe (done : bool) (f : LaneG → option (LaneG * (Recorder → Recorder))) : Prop :=
  ∀ l l' g, lane_ok done l → f l = Some (l', g) →
    lane_ok done l' ∧ lg_tcp l' = lg_tcp l ∧ (lg_ln l = true → lg_ln l' = true ∨ done = true) ∧
    (lane_done l = true → lane_done l' = true) ∧
    (g = id ∨ g = TCPConnectionAccepted ∨ g = TCPIngressReady ∧ lg_tcp l' = true ∧ lg_ln l' = true).

Definition conn_safe (done : bool) (f : ConnG → option ConnG) : Prop :=
  ∀ e c c', conn_ok done e c → f c = Some c' → conn_ok done e c'.

Lemma inv_worker_step s i f s' : inv p s → on_worker i f s = Some s' → worker_safe (p_done s) f → inv p s'.
Proof.
  intros Hinv (w & w' & g & Ew & Ef & ->)%on_worker_inv Hf.
  destruct (Hf w w' g (Forall_lookup_1 _ _ _ _ (i_workers _ _ Hinv) Ew) Ef) as (H1 & H2 & H3).
  apply (inv_worker s i w); [done|done|done|done|]. by rewrite H3.
Qed.

Lemma inv_lane_step s i f s' : inv p s → on_lane i f s = Some s' → lane_safe (p_done s) f → inv p s'.
Proof.
  intros Hinv (l & l' & g & El & Ef & ->)%on_lane_inv Hf.
  destruct (Hf l l' g (Forall_lookup_1 _ _ _ _ (i_lanes _ _ Hinv) El) Ef) as (H1 & H2 & H3 & H4 & H5).
  by apply (inv_lane s i l).
Qed.

Lemma inv_conn_step s i j f s' : inv p s → on_conn i j f s = Some s' → conn_safe (p_done s) f → inv p s'.
Proof.
  intros Hinv (l & c & c' & El & Ec & Ef & ->)%on_conn_inv Hf.
  apply (inv_conn s i j l c c'); [done..|]. intros Hc. by apply (Hf _ c).
Qed.

Lemma worker_socket_safe done ok : worker_safe done (worker_socket_step ok).
Proof.
  intros [pc conn egr] w' g Hw Ef. unfold worker_socket_step in Ef. simpl in Ef.
  destruct pc; simplify_eq. unfold ready_effect, worker_ok. destruct ok; simpl; split_and!; auto.
Qed.

Lemma worker_targets_safe done ok : worker_safe done (worker_targets_step ok).
Proof.
  intros [pc conn egr] w' g Hw Ef. unfold worker_targets_step in Ef. simpl in Ef. destruct pc; simplify_eq.
  unfold ready_effect, worker_ok in *. destruct ok; simplify_eq; simpl in *; split_and!; intuition.
Qed.

(** Steps that leave the sockets as they are. *)
Lemma worker_setup_safe done : worker_safe done worker_setup_step.
Proof.
  intros [pc conn egr] w' g Hw Ef. unfold worker_setup_step in Ef. simpl in Ef. destruct pc; simplify_eq.
  unfold ready_effect, worker_ok in *. simpl in *. split_and!; intuition.
Qed.

Lemma worker_drain_safe done : worker_safe done worker_drain_step.
Proof.
  intros [pc conn egr] w' g Hw Ef. unfold worker_drain_step in Ef. simpl in Ef. destruct pc; simplify_eq.
  unfold ready_effect, worker_ok in *. simpl in *. split_and!; intuition.
Qed.

Lemma worker_close_safe done : worker_safe done worker_close_step.
Proof.
  intros [pc conn egr] w' g Hw Ef. unfold worker_close_step in Ef. simpl in Ef. destruct pc; simplify_eq.
  unfold ready_effect, worker_ok in *. simpl in *. split_and!; intuition.
Qed.

Lemma worker_exit_safe done closed : worker_safe done (worker_exit_step closed).
Proof.
  intros [pc conn egr] w' g Hw Ef. unfold worker_exit_step in Ef. simpl in Ef. destruct pc; try done.
  apply guard_Some in Ef as [Ec Ef]. simplify_eq. unfold ready_effect, worker_ok in *. simpl in *. split_and!; intuition.
Qed.

Lemma worker_watch_safe done :
  worker_safe done (λ w, guard (done && wg_conn w) (w <| wg_conn := false |>, id)).
Proof.
  intros [pc conn egr] w' g Hw Ef. apply guard_Some in Ef as [Ec Ef]. apply andb_true_iff in Ec as [-> Hc].
  simpl in *. simplify_eq. unfold ready_effect, worker_ok in *; simpl in *. destruct pc; intuition congruence.
Qed.

Lemma lane_listen_safe done ok : lane_safe done (lane_listen_step ok).
Proof.
  intros [tcp pc ln egr bl cs] l' g (H1 & H2 & H3) Ef. unfold lane_listen_step in Ef. simpl in *.
  destruct pc; simplify_eq. destruct H2 as (-> & -> & -> & ->).
  unfold lane_ok. destruct ok; simplify_eq; simpl; split_and!; try done; auto. destruct tcp; auto 6.
Qed.

Lemma lane_targets_safe done ok : lane_safe done (lane_targets_step ok).
Proof.
  intros [tcp pc ln egr bl cs] l' g (H1 & H2 & H3) Ef. unfold lane_targets_step in Ef. simpl in *.
  destruct pc; simplify_eq. destruct H2 as (-> & -> & ?). unfold lane_ok. destruct ok; simpl; split_and!; auto.
Qed.

Lemma lane_accept_safe done : lane_safe done lane_accept_step.
Proof.
  intros [tcp pc ln egr bl cs] l' g (H1 & H2 & H3) Ef. unfold lane_accept_step in Ef. simpl in *.
  destruct pc, bl; try done. apply guard_Some in Ef as [Ec Ef]. simplify_eq. destruct H2 as (-> & ?).
  unfold lane_ok. simpl. split_and!; auto; [|done|destruct tcp; auto].
  apply Forall_app. split; [done|]. apply Forall_singleton. split; auto.
Qed.

Lemma lane_stop_safe done closed : lane_safe done (lane_stop_step closed).
Proof.
  intros [tcp pc ln egr bl cs] l' g (H1 & H2 & H3) Ef. unfold lane_stop_step in Ef. simpl in *.
  destruct pc; try done. apply guard_Some in Ef as [Ec Ef]. simplify_eq.
  unfold lane_ok. simpl. split_and!; auto; naive_solver.
Qed.

Lemma lane_close_safe done : lane_safe done lane_close_step.
Proof.
  intros [tcp pc ln egr bl cs] l' g (H1 & H2 & H3) Ef. unfold lane_close_step in Ef. simpl in *.
  destruct pc; try done. apply guard_Some in Ef as [Ec Ef]. simplify_eq.
  unfold lane_ok. simpl. split_and!; auto. apply list.Forall_forall. intros c Hc.
  apply list_elem_of_lookup in Hc as [j Ej]. pose proof (Forall_lookup_1 _ _ _ _ H1 Ej) as Hk.
  pose proof (forallb_lookup _ _ _ _ Ec Ej) as Hd. unfold conn_done, conn_ok in *. by destruct (cg_pc c).
Qed.

Lemma lane_watch_safe done :
  lane_safe done (λ l, guard (done && listening l) (l <| lg_ln := false |> <| lg_backlog := 0%nat |>, id)).
Proof.
  intros [tcp pc ln egr bl cs] l' g (H1 & H2 & H3) Ef. apply guard_Some in Ef as [Ec Ef].
  apply andb_true_iff in Ec as [-> Hc]. simplify_eq. unfold lane_ok in *. simpl in *.
  split_and!; auto. destruct pc; naive_solver.
Qed.

Lemma lane_connect_safe done : lane_safe done (λ l, guard (listening l) (l <| lg_backlog ::= S |>, id)).
Proof.
  intros [tcp pc ln egr bl cs] l' g (H1 & H2 & H3) Ef. apply guard_Some in Ef as [Ec Ef]. simplify_eq.
  unfold lane_ok, listening in *. simpl in *. destruct pc, ln; try done; split_and!; auto; naive_solver.
Qed.

Lemma conn_end_safe done (closed : ConnG → bool) :
  conn_safe done (λ c, match cg_pc c with CServe => guard (closed c) (mkConnG CFlush false) | _ => None end).
Proof.
  intros e [pc o] c' Hc Ef. simpl in Ef. destruct pc; try done. apply guard_Some in Ef as [_ <-]. by destruct Hc.
Qed.

Lemma conn_flush_safe done :
  conn_safe done (λ c, match cg_pc c with CFlush => Some (c <| cg_pc := CDone |>) | _ => None end).
Proof. intros e [pc o] c' Hc Ef. simpl in Ef. destruct pc; simplify_eq. by destruct Hc. Qed.

Lemma conn_watch_safe done : conn_safe done (λ c, guard (done && cg_open c) (c <| cg_open := false |>)).
Proof.
  intros e [pc o] c' Hc Ef. apply guard_Some in Ef as [Ec <-]. apply andb_true_iff in Ec as [-> Ho].
  unfold conn_ok in *. simpl in *. destruct pc; naive_solver.
Qed.

Lemma inv_mf_step s i f s' :
  inv p s → on_mf i f s = Some s' → (∀ m m', f m = Some m' → mf_done m = true → mf_done m' = true) → inv p s'.
Proof. intros Hinv (m & m' & Em & Ef & ->)%on_mf_inv Hf. apply (inv_mf s i m); eauto. Qed.

Lemma inv_act a s s' : inv p s → act a s = Some s' → inv p s'.
Proof.
  intros Hinv. destruct a; simpl; intros E.
  - by apply (inv_main s).
  - apply guard_Some in E as [E <-]. apply andb_true_iff in E as [E _]. by apply (inv_select s false (p_restart s)).
  - apply guard_Some in E as [E <-]. apply andb_true_iff in E as [E _]. by apply (inv_select s (p_sig s) false).
  - eapply inv_worker_step; [done|exact E|apply worker_socket_safe].
  - eapply inv_worker_step; [done|exact E|apply worker_targets_safe].
  - eapply inv_worker_step; [done|exact E|apply worker_setup_safe].
  - eapply inv_worker_step; [done|exact E|apply worker_exit_safe].
  - eapply inv_worker_step; [done|exact E|apply worker_drain_safe].
  - eapply inv_worker_step; [done|exact E|apply worker_close_safe].
  - eapply inv_worker_step; [done|exact E|apply worker_watch_safe].
  - eapply inv_lane_step; [done|exact E|apply lane_listen_safe].
  - eapply inv_lane_step; [done|exact E|apply lane_targets_safe].
  - eapply inv_lane_step; [done|exact E|apply lane_accept_safe].
  - eapply inv_lane_step; [done|exact E|apply lane_stop_safe].
  - eapply inv_lane_step; [done|exact E|apply lane_close_safe].
  - eapply inv_lane_step; [done|exact E|apply lane_watch_safe].
  - eapply inv_conn_step; [done|exact E|apply conn_end_safe].
  - eapply inv_conn_step; [done|exact E|apply conn_flush_safe].
  - eapply inv_conn_step; [done|exact E|apply conn_watch_safe].
  - eapply inv_mf_step; [done|exact E|]. by intros m m' [_ <-]%guard_Some.
  - eapply inv_mf_step; [done|exact E|]. by intros m m' [_ <-]%guard_Some.
  - apply guard_Some in E as [_ <-]. by apply (inv_channels s true (p_restart s)).
  - apply bind_Some in E as (m & Em & E). apply guard_Some in E as [_ <-]. by apply (inv_channels s (p_sig s) true).
  - eapply inv_lane_step; [done|exact E|apply lane_connect_safe].
  - eapply inv_conn_step; [done|exact E|apply (conn_end_safe _ (λ _, true))].
  - eapply inv_worker_step; [done|exact E|apply worker_exit_safe].
  - eapply inv_lane_step; [done|exact E|apply lane_stop_safe].
  - eapply inv_mf_step; [done|exact E|]. by intros m m' [_ <-]%guard_Some.
Qed.

Lemma reachable_inv now s : reachable p now s → inv p s.
Proof. induction 1 as [|a s s' _ IH E]; [apply inv_init|by apply (inv_act a s)]. Qed.
End Preservation.
