(* ===== verification/LifecycleProps.v ===== *)
(** * Properties of the process: readiness and shutdown *)

From S2P Require Import Prelude Common Recorder Lifecycle LifecycleFacts.

(** ** Progress *)

Definition worker_fuel (w : WorkerG) : nat :=
  ((match wg_pc w with WStart => 8 | WOpen => 6 | WReady => 5 | WLoop => 4 | WDrain => 3 | WClose => 2 | WDone _ => 0 end) + (if wg_conn w then 1 else 0))%nat.
Definition conn_fuel (c : ConnG) : nat :=
  ((match cg_pc c with CServe => 3 | CFlush => 1 | CDone => 0 end) + (if cg_open c then 1 else 0))%nat.
Definition lane_fuel (l : LaneG) : nat :=
  ((match lg_pc l with LStart => 6 | LListen => 4 | LAccept => 3 | LWait => 2 | LDone _ => 0 end) +
   (if lg_ln l then 1 else 0) + 5 * lg_backlog l + sum_list_with conn_fuel (lg_conns l))%nat.
Definition mf_fuel (m : MfG) : nat := ((if mf_cancelled m then 0 else 1) + (if mf_done m then 0 else 1))%nat.
Definition main_fuel (m : MainPC) : nat :=
  match m with
  | MStart todo => 10 * length todo + 6
  | MSelect => 5 | MStop => 4 | MDrain => 3 | MClosed => 2 | MWait => 1 | MExit => 0
  end%nat.

(** Bounds the program's own steps left before it blocks. *)
Definition fuel (s : Proc) : nat :=
  (main_fuel (p_main s) + sum_list_with worker_fuel (p_workers s) + sum_list_with lane_fuel (p_lanes s) +
   sum_list_with mf_fuel (p_mfs s))%nat.

Lemma sum_insert {A} (f : A → nat) l i x y :
  l !! i = Some x → (sum_list_with f (<[i := y]> l) + f x = sum_list_with f l + f y)%nat.
Proof. revert i. induction l as [|z l IH]; intros [|i] E; simplify_eq/=; [lia|]. specialize (IH _ E). lia. Qed.

Lemma fuel_worker s i f s' :
  on_worker i f s = Some s' → (∀ w w' g, f w = Some (w', g) → (worker_fuel w' < worker_fuel w)%nat) → (fuel s' < fuel s)%nat.
Proof.
  intros (w & w' & g & Ew & Ef & ->)%on_worker_inv Hf. specialize (Hf _ _ _ Ef).
  pose proof (sum_insert worker_fuel _ _ _ w' Ew). unfold fuel. simpl. lia.
Qed.

Lemma fuel_lane s i f s' :
  on_lane i f s = Some s' → (∀ l l' g, f l = Some (l', g) → (lane_fuel l' < lane_fuel l)%nat) → (fuel s' < fuel s)%nat.
Proof.
  intros (l & l' & g & El & Ef & ->)%on_lane_inv Hf. specialize (Hf _ _ _ Ef).
  pose proof (sum_insert lane_fuel _ _ _ l' El). unfold fuel. simpl. lia.
Qed.

Lemma fuel_conn s i j f s' :
  on_conn i j f s = Some s' → (∀ c c', f c = Some c' → (conn_fuel c' < conn_fuel c)%nat) → (fuel s' < fuel s)%nat.
Proof.
  intros (l & c & c' & El & Ec & Ef & ->)%on_conn_inv Hf. specialize (Hf _ _ Ef).
  pose proof (sum_insert conn_fuel _ _ _ c' Ec).
  pose proof (sum_insert lane_fuel _ _ _ (l <| lg_conns := <[j := c']> (lg_conns l) |>) El) as H1.
  unfold lane_fuel in H1 at 2 4. simpl in H1. unfold fuel. simpl. lia.
Qed.

Lemma fuel_mf s i f s' :
  on_mf i f s = Some s' → (∀ m m', f m = Some m' → (mf_fuel m' < mf_fuel m)%nat) → (fuel s' < fuel s)%nat.
Proof.
  intros (m & m' & Em & Ef & ->)%on_mf_inv Hf. specialize (Hf _ _ Ef).
  pose proof (sum_insert mf_fuel _ _ _ m' Em). unfold fuel. simpl. lia.
Qed.

Lemma fuel_main s s' : main_step s = Some s' → (fuel s' < fuel s)%nat.
Proof.
  unfold main_step, fuel. destruct (p_main s) as [[|op todo]| | | | | |] eqn:Em; intros E; simplify_eq; simpl; try lia.
  - destruct op; simpl; rewrite ?sum_list_with_app; simpl; lia.
  - destruct (all_returned s); simplify_eq. simpl. lia.
Qed.

Ltac step_fuel :=
  match goal with
  | H : guard ?b _ = Some _ |- _ => apply guard_Some in H as [? H]; simplify_eq/=
  | H : ?b && _ = true |- _ => apply andb_true_iff in H as [? ?]
  | H : negb _ = true |- _ => apply negb_true_iff in H; simplify_eq/=
  end.

(** Every step of the program uses up some of its fuel. *)
Lemma program_fuel a s s' : program a = true → act a s = Some s' → (fuel s' < fuel s)%nat.
Proof.
  destruct a; simpl; intros Hp E; try discriminate Hp.
  - by apply fuel_main.
  - apply guard_Some in E as [Hc <-]. unfold fuel, in_select in *. simpl. destruct (p_main s); simpl in *; try done; lia.
  - apply guard_Some in E as [Hc <-]. unfold fuel, in_select in *. simpl. destruct (p_main s); simpl in *; try done; lia.
  - eapply fuel_worker; [exact E|]. intros [[] [] egr] w' g Ef; unfold worker_socket_step in Ef; simplify_eq/=; destruct ok; unfold worker_fuel; simpl; lia.
  - eapply fuel_worker; [exact E|]. intros [[] [] egr] w' g Ef; unfold worker_targets_step in Ef; simplify_eq/=;
      destruct ok; simplify_eq/=; unfold worker_fuel; simpl; lia.
  - eapply fuel_worker; [exact E|]. intros [[] [] egr] w' g Ef; unfold worker_setup_step in Ef; simplify_eq/=; unfold worker_fuel; simpl; lia.
  - eapply fuel_worker; [exact E|]. intros [[] [] egr] w' g Ef; unfold worker_exit_step in Ef; simplify_eq/=; unfold worker_fuel; simpl; lia.
  - eapply fuel_worker; [exact E|]. intros [[] [] egr] w' g Ef; unfold worker_drain_step in Ef; simplify_eq/=; unfold worker_fuel; simpl; lia.
  - eapply fuel_worker; [exact E|]. intros [[] [] egr] w' g Ef; unfold worker_close_step in Ef; simplify_eq/=; unfold worker_fuel; simpl; lia.
  - eapply fuel_worker; [exact E|]. intros [pc [] egr] w' g Ef; repeat step_fuel; unfold worker_fuel; simpl; lia.
  - eapply fuel_lane; [exact E|]. intros [tcp [] ln egr bl cs] l' g Ef; unfold lane_listen_step in Ef; simplify_eq/=;
      destruct ok; simplify_eq/=; unfold lane_fuel; simpl; destruct ln; lia.
  - eapply fuel_lane; [exact E|]. intros [tcp [] ln egr bl cs] l' g Ef; unfold lane_targets_step in Ef; simplify_eq/=;
      destruct ok; simplify_eq/=; unfold lane_fuel; simpl; destruct ln; lia.
  - eapply fuel_lane; [exact E|]. intros [tcp [] ln egr [|bl] cs] l' g Ef; unfold lane_accept_step in Ef; simplify_eq/=.
    step_fuel. unfold lane_fuel; simpl. rewrite sum_list_with_app. unfold conn_fuel. simpl. lia.
  - eapply fuel_lane; [exact E|]. intros [tcp [] ln egr bl cs] l' g Ef; unfold lane_stop_step in Ef; simplify_eq/=.
    repeat step_fuel. unfold lane_fuel; simpl. lia.
  - eapply fuel_lane; [exact E|]. intros [tcp [] ln egr bl cs] l' g Ef; unfold lane_close_step in Ef; simplify_eq/=.
    step_fuel. unfold lane_fuel; simpl. lia.
  - eapply fuel_lane; [exact E|]. intros [tcp pc ln egr bl cs] l' g Ef. repeat step_fuel.
    unfold lane_fuel, listening in *; simpl in *. destruct pc, ln; simplify_eq; lia.
  - eapply fuel_conn; [exact E|]. intros [[] []] c' Ef; simplify_eq/=; unfold conn_fuel; simpl; lia.
  - eapply fuel_conn; [exact E|]. intros [[] o] c' Ef; simplify_eq/=; unfold conn_fuel; simpl; lia.
  - eapply fuel_conn; [exact E|]. intros [pc []] c' Ef; repeat step_fuel; unfold conn_fuel; simpl; lia.
  - eapply fuel_mf; [exact E|]. intros [[] d] m' Ef; repeat step_fuel; unfold mf_fuel; simpl; lia.
  - eapply fuel_mf; [exact E|]. intros [c []] m' Ef; repeat step_fuel; unfold mf_fuel; simpl; destruct c; lia.
Qed.

(** ** No deadlock *)

Lemma forallb_false {A} (f : A → bool) l : forallb f l = false → ∃ i x, l !! i = Some x ∧ f x = false.
Proof.
  induction l as [|x l IH]; simpl; [done|]. destruct (f x) eqn:E; simpl.
  - intros Hl. destruct (IH Hl) as (i & y & Hi). by exists (S i), y.
  - intros _. by exists 0%nat, x.
Qed.

Definition enabled (s : Proc) : Prop := ∃ a s', program a = true ∧ act a s = Some s'.

Lemma enabled_intro a s : program a = true → is_Some (act a s) → enabled s.
Proof. intros Hp [s' E]. by exists a, s'. Qed.

(** With [done] closed, a worker that has not returned can move. *)
Lemma worker_enabled s i w :
  p_done s = true → p_workers s !! i = Some w → worker_done w = false → enabled s.
Proof.
  intros Hd Ew Hw. destruct w as [pc conn egr]. unfold worker_done in Hw. simpl in Hw.
  destruct pc; try done.
  - apply (enabled_intro (AWorkerSocket i true)); [done|]. simpl. unfold on_worker. rewrite Ew. eauto.
  - apply (enabled_intro (AWorkerTargets i true)); [done|]. simpl. unfold on_worker. rewrite Ew. eauto.
  - apply (enabled_intro (AWorkerSetup i)); [done|]. simpl. unfold on_worker. rewrite Ew. eauto.
  - destruct conn.
    + apply (enabled_intro (AWorkerWatch i)); [done|]. simpl. unfold on_worker. rewrite Ew. simpl. rewrite Hd. eauto.
    + apply (enabled_intro (AWorkerExit i)); [done|]. simpl. unfold on_worker. rewrite Ew. eauto.
  - apply (enabled_intro (AWorkerDrain i)); [done|]. simpl. unfold on_worker. rewrite Ew. eauto.
  - apply (enabled_intro (AWorkerClose i)); [done|]. simpl. unfold on_worker. rewrite Ew. eauto.
Qed.

Lemma conn_enabled s i j l c :
  p_done s = true → p_lanes s !! i = Some l → lg_conns l !! j = Some c → conn_done c = false → enabled s.
Proof.
  intros Hd El Ec Hc. destruct c as [pc o]. unfold conn_done in Hc. simpl in Hc.
  destruct pc; try done.
  - destruct o; [apply (enabled_intro (AConnWatch i j))|apply (enabled_intro (AConnEnd i j))]; try done;
      simpl; unfold on_conn, on_lane; rewrite El; simpl; rewrite Ec; simpl; rewrite ?Hd; eauto.
  - apply (enabled_intro (AConnFlush i j)); [done|]. simpl. unfold on_conn, on_lane. rewrite El. simpl. rewrite Ec. eauto.
Qed.

Lemma lane_enabled s i l :
  p_done s = true → p_lanes s !! i = Some l → lane_done l = false → enabled s.
Proof.
  intros Hd El Hl. destruct (lg_pc l) eqn:Epc; unfold lane_done in Hl; rewrite Epc in Hl; try done.
  - apply (enabled_intro (ALaneListen i true)); [done|]. simpl. unfold on_lane. rewrite El. simpl.
    unfold lane_listen_step. rewrite Epc. eauto.
  - apply (enabled_intro (ALaneTargets i true)); [done|]. simpl. unfold on_lane. rewrite El. simpl.
    unfold lane_targets_step. rewrite Epc. eauto.
  - destruct (lg_ln l) eqn:Eln.
    + apply (enabled_intro (ALaneWatch i)); [done|]. simpl. unfold on_lane, listening. rewrite El. simpl.
      rewrite Epc, Eln, Hd. eauto.
    + apply (enabled_intro (ALaneStop i)); [done|]. simpl. unfold on_lane, lane_stop_step. rewrite El. simpl.
      rewrite Epc, Eln. eauto.
  - destruct (forallb conn_done (lg_conns l)) eqn:Ef.
    + apply (enabled_intro (ALaneClose i)); [done|]. simpl. unfold on_lane, lane_close_step. rewrite El. simpl.
      rewrite Epc, Ef. eauto.
    + apply forallb_false in Ef as (j & c & Ec & Hc). by apply (conn_enabled s i j l c).
Qed.

Lemma mf_enabled s i m : p_done s = true → p_mfs s !! i = Some m → mf_done m = false → enabled s.
Proof.
  intros Hd Em Hm. destruct m as [c d]. simpl in Hm. subst d. destruct c.
  - apply (enabled_intro (AMfExit i)); [done|]. simpl. unfold on_mf. rewrite Em. eauto.
  - apply (enabled_intro (AMfCancel i)); [done|]. simpl. unfold on_mf. rewrite Em. simpl. rewrite Hd. eauto.
Qed.

(** The program is never stuck, except in its select with nothing to
    receive, or when it has exited. *)
Lemma progress p s :
  inv p s →
  p_main s = MExit ∨ (p_main s = MSelect ∧ p_sig s = false ∧ p_restart s = false) ∨ enabled s.
Proof.
  intros Hinv. destruct (p_main s) eqn:Em; [right; right..| |right; right|right; right|right; right|right; right|by left].
  - destruct todo as [|op todo]; (apply (enabled_intro AMain); [done|]); simpl; unfold main_step; rewrite Em; eauto.
  - destruct (p_sig s) eqn:Es.
    { right; right. apply (enabled_intro ASelectSig); [done|]. simpl. unfold in_select. rewrite Em, Es. eauto. }
    destruct (p_restart s) eqn:Er; [|right; by left].
    right; right. apply (enabled_intro ASelectRestart); [done|]. simpl. unfold in_select. rewrite Em, Er. eauto.
  - apply (enabled_intro AMain); [done|]. simpl. unfold main_step. rewrite Em. eauto.
  - apply (enabled_intro AMain); [done|]. simpl. unfold main_step. rewrite Em. eauto.
  - apply (enabled_intro AMain); [done|]. simpl. unfold main_step. rewrite Em. eauto.
  - assert (Hd : p_done s = true) by (by rewrite (i_done _ _ Hinv), Em).
    destruct (all_returned s) eqn:Ea.
    + apply (enabled_intro AMain); [done|]. simpl. unfold main_step. rewrite Em, Ea. eauto.
    + unfold all_returned in Ea. apply andb_false_iff in Ea as [Ea|Ea]; [apply andb_false_iff in Ea as [Ea|Ea]|];
        apply forallb_false in Ea as (i & x & Ex & Hx);
        [by apply (worker_enabled s i x)|by apply (lane_enabled s i x)|by apply (mf_enabled s i x)].
Qed.

(** ** Stopping *)

(** A stop has been asked for, or main is past its select. *)
Definition stopping (s : Proc) : Prop :=
  p_sig s = true ∨ p_restart s = true ∨ (starting s = false ∧ in_select s = false).

Lemma on_worker_main i f s s' : on_worker i f s = Some s' → p_main s' = p_main s ∧ p_sig s' = p_sig s ∧ p_restart s' = p_restart s.
Proof. by intros (? & ? & ? & _ & _ & ->)%on_worker_inv. Qed.
Lemma on_lane_main i f s s' : on_lane i f s = Some s' → p_main s' = p_main s ∧ p_sig s' = p_sig s ∧ p_restart s' = p_restart s.
Proof. by intros (? & ? & ? & _ & _ & ->)%on_lane_inv. Qed.
Lemma on_mf_main i f s s' : on_mf i f s = Some s' → p_main s' = p_main s ∧ p_sig s' = p_sig s ∧ p_restart s' = p_restart s.
Proof. by intros (? & ? & _ & _ & ->)%on_mf_inv. Qed.

Lemma main_step_stopping s s' : stopping s → main_step s = Some s' → stopping s'.
Proof.
  unfold stopping, main_step, starting, in_select. intros Hs.
  destruct (p_main s) as [[|op todo]| | | | | |] eqn:Em; intros E; simplify_eq; simpl; rewrite ?Em; auto; try tauto.
  - destruct op; simpl; destruct Hs as [?|[?|[? _]]]; auto; discriminate.
  - destruct (all_returned s); simplify_eq; simpl. auto.
Qed.

(** No step of the program withdraws a stop. *)
Lemma program_stopping a s s' : program a = true → stopping s → act a s = Some s' → stopping s'.
Proof.
  assert (Frame : ∀ s', p_main s' = p_main s ∧ p_sig s' = p_sig s ∧ p_restart s' = p_restart s → stopping s → stopping s').
  { intros s0 (E1 & E2 & E3). unfold stopping, starting, in_select. by rewrite E1, E2, E3. }
  destruct a; simpl; intros Hp Hs E; try discriminate Hp;
    try (apply on_worker_main in E; by eapply Frame);
    try (apply on_lane_main in E; by eapply Frame);
    try (apply on_mf_main in E; by eapply Frame).
  - by eapply main_step_stopping.
  - apply guard_Some in E as [_ <-]. unfold stopping. simpl. right; right. done.
  - apply guard_Some in E as [_ <-]. unfold stopping. simpl. right; right. done.
Qed.

Lemma program_run_keeps p n s s' :
  Z.of_nat (pl_workers p) < 2 ^ 31 → inv p s → stopping s → program_run n s s' →
  inv p s' ∧ stopping s' ∧ (n + fuel s' ≤ fuel s)%nat.
Proof.
  intros Hw Hinv Hst Hr. induction Hr as [s|a n s1 s2 s3 Hp E _ IH]; [by split_and!|].
  pose proof (program_fuel a s1 s2 Hp E).
  destruct IH as (H1 & H2 & H3); [by apply (inv_act p Hw a s1)|by eapply program_stopping|].
  split_and!; [done|done|lia].
Qed.

Lemma program_reaches_exit p s :
  Z.of_nat (pl_workers p) < 2 ^ 31 → inv p s → stopping s → ∃ n s', program_run n s s' ∧ p_main s' = MExit.
Proof.
  intros Hw. remember (fuel s) as k eqn:Ek. revert s Ek. induction k as [k IH] using lt_wf_ind.
  intros s -> Hinv Hst. destruct (progress p s Hinv) as [He|[(Hm & Hs & Hr)|(a & s1 & Hp & E)]].
  - exists 0%nat, s. split; [constructor|done].
  - exfalso. unfold stopping, in_select in Hst. rewrite Hs, Hr, Hm in Hst. naive_solver.
  - destruct (IH (fuel s1) (program_fuel a s s1 Hp E) s1 eq_refl) as (n & s' & Hr & He);
      [by apply (inv_act p Hw a s)|by eapply program_stopping|].
    exists (S n), s'. split; [by econstructor|done].
Qed.

Lemma readyz_ok r :
  (handleReadyz r).1 = StatusOK →
  r_draining r = false ∧ r_numWorkers r ≤ r_readyCount r ∧ 0 < r_numWorkers r ∧
  (r_tcpIngressRequired r = true → r_tcpIngressReady r = true).
Proof.
  unfold handleReadyz. destruct (r_draining r); [done|].
  destruct ((r_numWorkers r <=? r_readyCount r) && (0 <? r_numWorkers r) &&
            (negb (r_tcpIngressRequired r) || r_tcpIngressReady r)) eqn:E; [|done].
  rewrite !andb_true_iff in E. destruct E as [[H1 H2] H3]. intros _. split_and!; [done|lia|lia|].
  intros Ht. by rewrite Ht in H3.
Qed.


(** Shutdown is announced before it happens: whenever a listening,
    ingress or connection socket of a running goroutine has been closed by
    the shutdown watchers, [done] is closed, and from before [done] is closed
    until the process exits /readyz answers 503 and says it is draining,
    whatever steps follow. *)
Theorem drain_precedes_close p now s :
  Z.of_nat (pl_workers p) < 2 ^ 31 → reachable p now s →
  (∀ w, w ∈ p_workers s → wg_conn w = false → wg_pc w ≠ WStart → worker_done w = false → p_done s = true) ∧
  (∀ l, l ∈ p_lanes s → lg_ln l = false → lg_pc l = LListen ∨ lg_pc l = LAccept ∨ lg_pc l = LWait → p_done s = true) ∧
  (∀ l c, l ∈ p_lanes s → c ∈ lg_conns l → cg_pc c = CServe → cg_open c = false → p_done s = true) ∧
  (p_done s = true → handleReadyz (p_rec s) = (StatusServiceUnavailable, readyz_body "draining" (p_rec s))) ∧
  (∀ a s', r_draining (p_rec s) = true → act a s = Some s' →
     handleReadyz (p_rec s') = (StatusServiceUnavailable, readyz_body "draining" (p_rec s'))).
Proof.
  intros Hw Hr. pose proof (reachable_inv p Hw now s Hr) as Hinv.
  pose proof (i_workers _ _ Hinv) as Wok. pose proof (i_lanes _ _ Hinv) as Lok. rewrite list.Forall_forall in Wok. rewrite list.Forall_forall in Lok.
  split_and!.
  - intros w Hin Hc Hpc Hwd. specialize (Wok w Hin). unfold worker_ok, worker_done in *.
    destruct (wg_pc w); intuition congruence.
  - intros l Hin Hc Hpc. destruct (Lok l Hin) as (_ & Hl & _).
    destruct Hpc as [E|[E|E]]; rewrite E in Hl; intuition congruence.
  - intros l c Hin Hc Epc Ho. destruct (Lok l Hin) as (Hcs & _). rewrite list.Forall_forall in Hcs.
    specialize (Hcs c Hc). unfold conn_ok in Hcs. rewrite Epc in Hcs. intuition congruence.
  - intros Hd. assert (Hdr : r_draining (p_rec s) = true).
    { rewrite (i_done _ _ Hinv) in Hd. rewrite (i_drain _ _ Hinv). by destruct (p_main s). }
    unfold handleReadyz. by rewrite Hdr.
  - intros a s' Hdr E. pose proof (inv_act p Hw a s s' Hinv E) as Hinv'.
    assert (Hdr' : r_draining (p_rec s') = true); [|unfold handleReadyz; by rewrite Hdr'].
    rewrite (i_drain _ _ Hinv) in Hdr. rewrite (i_drain _ _ Hinv').
    assert (Hm : a = AMain ∨ p_main s' = p_main s).
    { destruct a; simpl in E; auto; right;
        try (apply on_worker_main in E; naive_solver); try (apply on_lane_main in E; naive_solver);
        try (apply on_mf_main in E; naive_solver);
        try (apply guard_Some in E as [Hg <-]; try done; unfold in_select in Hg; by destruct (p_main s)).
      apply bind_Some in E as (m & _ & E). by apply guard_Some in E as [_ <-]. }
    destruct Hm as [-> | ->]; [|done]. simpl in E. unfold main_step in E.
    destruct (p_main s) as [| | | | | |]; simplify_eq/=; try done. by destruct (all_returned s); simplify_eq/=.
Qed.

(** C25: workers and connections are served to the end: while a worker is in
    its receive loop or flushing its tail its own egress sockets are open, and
    while a connection's goroutine has not finished (its tail flush included)
    those of its lane are; when the process exits every worker, lane,
    connection and manifest goroutine has returned, with the egress and
    ingress sockets of every worker, the egress sockets of every lane and
    every connection closed. *)
Theorem exit_is_clean p now s :
  Z.of_nat (pl_workers p) < 2 ^ 31 → reachable p now s →
  (∀ w, w ∈ p_workers s → counted_ready w = true → wg_egress w = true) ∧
  (∀ l c, l ∈ p_lanes s → c ∈ lg_conns l → cg_pc c ≠ CDone → lg_egress l = true) ∧
  (p_main s = MExit →
   Forall (λ w, worker_done w = true ∧ wg_conn w = false ∧ wg_egress w = false) (p_workers s) ∧
   Forall (λ l, lane_done l = true ∧ lg_egress l = false ∧ Forall (λ c, c = mkConnG CDone false) (lg_conns l)) (p_lanes s) ∧
   Forall (λ m, mf_done m = true) (p_mfs s)).
Proof.
  intros Hw Hr. pose proof (reachable_inv p Hw now s Hr) as Hinv.
  pose proof (i_workers _ _ Hinv) as Wok. pose proof (i_lanes _ _ Hinv) as Lok. rewrite list.Forall_forall in Wok. rewrite list.Forall_forall in Lok.
  assert (Hegr : ∀ l c, l ∈ p_lanes s → c ∈ lg_conns l → cg_pc c ≠ CDone → lg_egress l = true).
  { intros l c Hin Hc Hn. destruct (Lok l Hin) as (Hcs & _). rewrite list.Forall_forall in Hcs.
    specialize (Hcs c Hc). unfold conn_ok in Hcs. destruct (cg_pc c); naive_solver. }
  split; [intros w Hin; specialize (Wok w Hin); unfold worker_ok, counted_ready in *; destruct (wg_pc w); intuition congruence|].
  split; [done|]. intros He. pose proof (i_exit _ _ Hinv He) as Ha. unfold all_returned in Ha.
  rewrite !andb_true_iff in Ha. destruct Ha as [[Wd Ld] Md].
  split_and!; apply list.Forall_forall.
  - intros w Hin. pose proof Hin as [i Ei]%list_elem_of_lookup. pose proof (forallb_lookup _ _ _ _ Wd Ei) as Hd.
    split; [done|]. specialize (Wok w Hin). unfold worker_ok, worker_done in *. by destruct (wg_pc w).
  - intros l Hin. pose proof Hin as [i Ei]%list_elem_of_lookup. pose proof (forallb_lookup _ _ _ _ Ld Ei) as Hd.
    destruct (Lok l Hin) as (Hcs & Hl & _).
    assert (Hg : lg_egress l = false) by (unfold lane_done in Hd; by destruct (lg_pc l)).
    split_and!; [done|done|]. rewrite list.Forall_forall in Hcs. apply list.Forall_forall. intros [pc o] Hc.
    specialize (Hcs _ Hc). unfold conn_ok in Hcs. rewrite Hg in Hcs. simpl in Hcs. destruct pc; naive_solver.
  - intros m Hin. apply list_elem_of_lookup in Hin as [i Ei]. by apply (forallb_lookup _ _ _ _ Md Ei).
Qed.

(** C19: once a signal or a restart request is pending, or main is past its
    select, the process terminates by its own steps: no run of them is longer
    than a bound computed from the state, none gets stuck before main has
    returned, and one that returns exists. *)
Theorem shutdown_terminates p now s :
  Z.of_nat (pl_workers p) < 2 ^ 31 → reachable p now s → stopping s →
  (∀ n s', program_run n s s' → (n ≤ fuel s)%nat ∧ (p_main s' = MExit ∨ enabled s')) ∧
  ∃ n s', program_run n s s' ∧ p_main s' = MExit.
Proof.
  intros Hw Hr Hst. pose proof (reachable_inv p Hw now s Hr) as Hinv. split; [|by apply (program_reaches_exit p)].
  intros n s' Hrun. destruct (program_run_keeps p n s s' Hw Hinv Hst Hrun) as (Hinv' & Hst' & Hf).
  split; [lia|]. destruct (progress p s' Hinv') as [?|[(Hm & Hs & Hre)|?]]; [by left| |by right].
  exfalso. unfold stopping, in_select in Hst'. rewrite Hs, Hre, Hm in Hst'. naive_solver.
Qed.

(** ** Executions *)

Lemma run_reachable p now acts s : run acts (init p now) = Some s → reachable p now s.
Proof.
  revert s. induction acts as [|a acts IH] using rev_ind; intros s E; [injection E as <-; constructor|].
  unfold run in *. rewrite foldl_app in E. simpl in E. apply bind_Some in E as (s1 & E1 & E2).
  eapply reach_step; [by apply IH|exact E2].
Qed.

(** Two workers, the TCP lane, a push lane and the manifest consumer. *)
Definition demo_plan : Plan := mkPlan 2 true 1 true.

Definition workers_up : list Act :=
  [AWorkerSocket 0 true; AWorkerSocket 1 true; AWorkerTargets 1 true; AWorkerTargets 0 true; AWorkerSetup 1].

Definition demo_acts : list Act :=
  replicate 8 AMain ++ workers_up ++
  [ALaneListen 0 true; ALaneTargets 0 true; EConnect 0; EConnect 0; ALaneAccept 0; ALaneAccept 0; EPeerClose 0 1].

(** The process serving two connections, one of which has just ended. *)
Definition demo : Proc := default (init demo_plan 0) (run demo_acts (init demo_plan 0)).

Lemma demo_reachable : reachable demo_plan 0 demo.
Proof. apply (run_reachable demo_plan 0 demo_acts). vm_compute. reflexivity. Qed.

(** The same process after a signal, with [done] closed and the first
    connection's socket closed by its watcher. *)
Definition stop_acts : list Act := demo_acts ++ [ESignal; ASelectSig; AMain; AMain; AConnWatch 0 0].
Definition demo_stop : Proc := default demo (run stop_acts (init demo_plan 0)).

Lemma demo_stop_reachable : reachable demo_plan 0 demo_stop.
Proof. apply (run_reachable demo_plan 0 stop_acts). vm_compute. reflexivity. Qed.


Lemma drain_precedes_close_witness :
  p_done demo_stop = true ∧
  handleReadyz (p_rec demo_stop) = (StatusServiceUnavailable, readyz_body "draining" (p_rec demo_stop)).
Proof.
  assert (H : p_done demo_stop = true) by (vm_compute; reflexivity). split; [exact H|].
  exact (proj1 (proj2 (proj2 (proj2
    (drain_precedes_close demo_plan 0 demo_stop ltac:(vm_compute; reflexivity) demo_stop_reachable)))) H).
Defined.

Lemma exit_is_clean_witness :
  ∃ l, p_lanes demo_stop !! 0%nat = Some l ∧ length (lg_conns l) = 2%nat ∧ lg_egress l = true.
Proof.
  destruct (p_lanes demo_stop !! 0%nat) as [l|] eqn:E; [|vm_compute in E; discriminate E].
  pose proof E as E'. vm_compute in E'. injection E' as El. exists l. split; [reflexivity|].
  split; [rewrite <- El; reflexivity|].
  apply (proj1 (proj2 (exit_is_clean demo_plan 0 demo_stop ltac:(vm_compute; reflexivity) demo_stop_reachable)) l (mkConnG CServe false)).
  - apply (list_elem_of_lookup_2 _ 0%nat). exact E.
  - rewrite <- El. apply list_elem_of_here.
  - discriminate.
Defined.

Lemma shutdown_terminates_witness :
  fuel demo_stop = 31%nat ∧ ∃ n s', program_run n demo_stop s' ∧ p_main s' = MExit.
Proof.
  split; [vm_compute; reflexivity|].
  apply (shutdown_terminates demo_plan 0 demo_stop ltac:(vm_compute; reflexivity) demo_stop_reachable).
  right; right. split; vm_compute; reflexivity.
Defined.

(** /readyz can answer 200 while a worker has not entered its receive loop
    (it is reported ready before it dials its tee and its mirror), and while
    TCP submissions are not served, in two ways.  The lane reports itself ready before it opens its egress sockets:
    if that fails its goroutine returns, the listener stays open and peers
    connect to a backlog nobody accepts from.  And main starts the workers
    before it registers the TCP lane as a prerequisite: if they are all up by
    then, readiness is reported with no TCP listener at all. *)
Theorem readyz_gaps :
  (∃ s w, reachable demo_plan 0 s ∧ (handleReadyz (p_rec s)).1 = StatusOK ∧ w ∈ p_workers s ∧ wg_pc w = WReady) ∧
  (∃ s l, reachable demo_plan 0 s ∧ (handleReadyz (p_rec s)).1 = StatusOK ∧
     l ∈ p_lanes s ∧ lg_tcp l = true ∧ lg_pc l = LDone true ∧ lg_ln l = true ∧ lg_backlog l = 1%nat) ∧
  (∃ s, reachable demo_plan 0 s ∧ (handleReadyz (p_rec s)).1 = StatusOK ∧ pl_tcp demo_plan = true ∧ p_lanes s = []).
Proof.
  split_and!.
  - exists demo, (mkWorkerG WReady true true). split; [exact demo_reachable|]. split; [vm_compute; reflexivity|].
    split; [|done]. apply (list_elem_of_lookup_2 _ 0%nat). vm_compute. reflexivity.
  - set (acts := replicate 8 AMain ++ workers_up ++ [ALaneListen 0 true; ALaneTargets 0 false; EConnect 0]).
    destruct (run acts (init demo_plan 0)) as [s|] eqn:E; [|vm_compute in E; discriminate E].
    pose proof (run_reachable _ _ _ _ E) as Hr. vm_compute in E. injection E as <-.
    eexists _, _. split; [exact Hr|]. split; [vm_compute; reflexivity|]. split; [apply list_elem_of_here|]. done.
  - set (acts := replicate 2 AMain ++ workers_up).
    destruct (run acts (init demo_plan 0)) as [s|] eqn:E; [|vm_compute in E; discriminate E].
    pose proof (run_reachable _ _ _ _ E) as Hr. vm_compute in E. injection E as <-.
    eexists. split; [exact Hr|]. split; [vm_compute; reflexivity|]. done.
Qed.
