(* ===== verification/Wiring.v ===== *)
(** * Wiring (main.go: main)

    How main turns a configuration into a running process: the interfaces,
    the shard engines, the forwarder and its settings, ingress dedup, then
    the goroutines it starts, in order, with the class, tee and port each is
    given.  What it calls outside the repository is the class [MainDeps].
    Logging, tracing and the host inventory change nothing here and are left
    out; the steps after the goroutines are started are in Lifecycle. *)

From S2P Require Import Prelude Common Chains BatchWriter RetryTee Coal Egress RateLimit Machine Forwarder Beef Coalesce Dispatch Lane Worker Stream TcpIngress ObjectIngress Config ConfigProps Manifest ManifestProps Recorder Sockets SocketProps Lifecycle.

(** What main uses from outside: the host's interfaces, the metrics client
    library, the shard engines, the dedup cache backends and the number of
    processors.  [None] and [false] are errors. *)
Class MainDeps `{Outside, ShardCommon} := {
  net_InterfaceByName : string → option Iface;
  metrics_New_ok : bool;
  shard_New : Z → Z → Z → Engine;
  shard_NewPlane : Z → Z → Z → Z → option PlaneEngine;
  DomainBEEF : Z;
  GroupBeacon : Z;
  Backend : Type;
  cache_Open : string → string → list string → string → string → option Backend;
  txidset_New : Backend → Z → Z → option StoreId;
  GOMAXPROCS : nat }.

(** Why main calls [os.Exit(1)] after its configuration has loaded. *)
Inductive Fatal :=
| NoInterface (name : string) | MetricsFailed | PlaneFailed | BadBindSource (s : string)
| BackendFailed (backend : string) | DedupFailed | BeaconFailed (e : ConfigError).

Section Main.
Context {OU : Outside} {SC : ShardCommon} {MD : MainDeps}.

(** A goroutine main starts, with what it was built with: the metrics server,
    a UDP worker, the TCP lane, a push lane, the manifest listener and the
    applier.  [tee] is the retry tee address, empty when none was set. *)
Inductive Goroutine :=
| GServe (addr : string) (pprof : bool)
| GWorker (wk : Worker) (tee addr : string) (port : Z)
| GTCP (ti : TCPIngress) (tee addr : string) (port : Z)
| GPush (oi : ObjectIngress) (tee addr : string) (port : Z)
| GListener (groups : list UDPAddr) (iface : option Iface) (debug : bool)
| GApplier (live : bool).

(** The process main waits on: its forwarder, egress interfaces, recorder
    and goroutines. *)
Record Process := mkProcess {
  pr_fw : Settings; pr_ifaces : list Iface; pr_rec : Recorder; pr_goroutines : list Goroutine }.

(** Main either reaches its select, or exits with what it had started. *)
Inductive Outcome := Exits (why : Fatal) (started : list Goroutine) | Runs (p : Process).

Definition Try (A : Type) : Type := Fatal + A.
#[export] Instance Try_ret : MRet Try := λ A x, inr x.
#[export] Instance Try_bind : MBind Try := λ A B f m, match m with inl e => inl e | inr x => f x end.
Definition or_exit {A} (o : option A) (why : Fatal) : Try A := match o with Some x => mret x | None => inl why end.

Context (c : Config).

Definition TCPListenPort : Z := nth 0 (c_TCPPorts c) 0.
Definition SubtreeListenPort : Z := nth 1 (c_TCPPorts c) 0.
Definition BlockListenPort : Z := nth 2 (c_TCPPorts c) 0.
Definition BEEFListenPort : Z := nth 3 (c_TCPPorts c) 0.

(** The egress interfaces, resolved in order. *)
Fixpoint resolve_ifaces (names : list string) : Try (list Iface) :=
  match names with
  | [] => mret []
  | name :: names =>
      iface ← or_exit (net_InterfaceByName name) (NoInterface name);
      rest ← resolve_ifaces names; mret (iface :: rest)
  end.

(** The forwarder's settings that need nothing but the configuration. *)
Definition build_forwarder (engine : Engine) (beef : PlaneEngine) : Settings :=
  let p := c_plain c in
  let fwd := New engine (c_MCPrefix c) (c_MCGroupID c) (EgressPort p) (Debug p) true GOMAXPROCS in
  let fwd := SetEgressHopLimit (EgressHopLimit p) fwd in
  let fwd := SetEgressLoop (EgressLoop p) fwd in
  let fwd := SetRequireEF (RequireEF p) fwd in
  let fwd := SetVerifyPayloadHash (VerifyPayloadHash p) fwd in
  let fwd := SetAllowStampedIngress (AllowStampedIngress p) fwd in
  let fwd := SetVerifySubtreeRoot (VerifySubtreeRoot p) fwd in
  let fwd := SetBEEF (Some beef) (c_BEEFMaxObjectBytes c) fwd in
  let fwd := if RequireBlockPoW p then SetBlockPoW true (c_MinPoWBits c) fwd else fwd in
  let fwd := if 0 <? FragMTU p then SetFragMTU (FragMTU p) fwd else fwd in
  if Coalesce p then SetCoalesce true (CoalesceMaxBytes p) (CoalesceMaxMembers p) (CoalesceCarryTxid p) fwd else fwd.

(** The bind source, checked again here, and source stamping. *)
Definition bind_source (fwd : Settings) : Try Settings :=
  fwd ← (if String.eqb (c_BindSource c) "" then mret fwd
         else ip ← or_exit (ParseIPv6 (c_BindSource c)) (BadBindSource (c_BindSource c));
              mret (SetBindSource (Some ip) fwd));
  mret (SetStampSource (StampSource (c_plain c)) fwd).

(** Ingress dedup: the cache backend and the store over it. *)
Definition dedup_on : bool := TxidDedupEnabled (c_plain c) && (0 <? c_DedupLocalCap c).

Definition open_dedup (fwd : Settings) : Try Settings :=
  if dedup_on then
    let p := c_plain c in
    backend ← or_exit (cache_Open (c_DedupBackend c) (c_DedupRedisAddr c) (c_DedupAeroHosts c)
                         (TxidDedupAeroNamespace p) (TxidDedupAeroSet p)) (BackendFailed (c_DedupBackend c));
    store ← or_exit (txidset_New backend (c_DedupTTL c) (c_DedupLocalCap c)) DedupFailed;
    mret (SetTxidDedup (Some store) (c_DedupPrefix c) fwd)
  else mret fwd.

(** Main up to the first goroutine. *)
Definition prepare (now : Z) : Try (list Iface * Recorder * Settings) :=
  ifaces ← resolve_ifaces (c_EgressIfaces c);
  rec ← or_exit (if metrics_New_ok then Some (NewRecorder (c_NumWorkers c) now) else None) MetricsFailed;
  let engine := shard_New (c_MCPrefix c) (c_MCGroupID c) (c_ShardBits c) in
  beef ← or_exit (shard_NewPlane (c_MCPrefix c) (c_MCGroupID c) (c_BEEFShardBits c) DomainBEEF) PlaneFailed;
  fwd ← bind_source (build_forwarder engine beef);
  fwd ← open_dedup fwd;
  mret (ifaces, rec, fwd).

(** ** The goroutines *)

Definition userClass : IngressClass := IngressTransaction.

Definition start_worker (i : Z) : Goroutine :=
  let w := NewWorker i true in
  let w := SetRecvBatch (c_RecvBatch c) w in
  let w := SetRecvBufBytes (RecvBufBytes (c_plain c)) w in
  let w := SetIngressClass userClass w in
  GWorker w (RetryTee (c_plain c)) (ListenAddr (c_plain c)) (UDPListenPort (c_plain c)).

Definition start_tcp : list Goroutine :=
  if 0 <? TCPListenPort
  then [GTCP (tcp_SetIngressClass userClass (NewTCPIngress true)) (RetryTee (c_plain c)) (ListenAddr (c_plain c)) TCPListenPort]
  else [].

(** A push lane on its port, when it has one. *)
Definition start_push (class : ObjClass) (tee : string) (port : Z) : list Goroutine :=
  if 0 <? port then [GPush (NewObjectIngress true class) tee (ListenAddr (c_plain c)) port] else [].

Definition start_ingress : list Goroutine :=
  [GServe (MetricsAddr (c_plain c)) (PprofEnabled (c_plain c))] ++
  (start_worker <$> seqZ 0 (c_NumWorkers c)) ++ start_tcp ++
  start_push ClassSubtree (RetryTee (c_plain c)) SubtreeListenPort ++
  start_push ClassBlock "" BlockListenPort ++
  start_push ClassBEEF "" BEEFListenPort.

(** The manifest consumer: the beacon groups it joins.  [beaconGroups[0]]
    panics on an empty list: [None]. *)
Definition beacon_groups (prefixes : list Z) : list UDPAddr :=
  (λ p, mkUDPAddr (GroupAddr p (c_MCGroupID c) GroupBeacon) (AutoConfigBeaconPort (c_plain c)) "") <$> prefixes.

Definition start_manifest (ifaces : list Iface) : option (ConfigError + list Goroutine) :=
  if AutoConfigEnabled (c_plain c) then
    match ManifestBeaconGroupPrefixes c with
    | inl e => Some (inl e)
    | inr prefixes =>
        let groups := beacon_groups prefixes in
        _ ← head groups;
        Some (inr [GListener groups (head ifaces) (Debug (c_plain c));
                   GApplier (AutoConfigLiveResharding (c_plain c))])
    end
  else Some (inr []).

Definition wire_main (now : Z) : option Outcome :=
  match prepare now with
  | inl why => Some (Exits why [])
  | inr (ifaces, rec, fwd) =>
      mf ← start_manifest ifaces;
      Some match mf with
           | inl e => Exits (BeaconFailed e) start_ingress
           | inr gs =>
               let rec := if 0 <? TCPListenPort then RequireTCPIngress rec else rec in
               Runs (mkProcess fwd ifaces rec (start_ingress ++ gs))
           end
  end.

(** ** The process as Lifecycle sees it *)

Definition start_ops (g : Goroutine) : list StartOp :=
  match g with
  | GServe _ _ => []
  | GWorker _ _ _ _ => [SpawnWorker]
  | GTCP _ _ _ _ => [RequireTCP; SpawnLane true]
  | GPush _ _ _ _ => [SpawnLane false]
  | GListener _ _ _ | GApplier _ => [SpawnManifest]
  end.

Definition plan_of : Plan :=
  mkPlan (Z.to_nat (c_NumWorkers c)) (0 <? TCPListenPort)
    (length (filter (λ p, 0 < p) [SubtreeListenPort; BlockListenPort; BEEFListenPort]))
    (AutoConfigEnabled (c_plain c)).

(** The stream ports the process listens on. *)
Definition stream_port (g : Goroutine) : option Z :=
  match g with GTCP _ _ _ port | GPush _ _ _ port => Some port | _ => None end.

(** The class of what strangers may submit to, and its tee; [None] for the
    push lanes and the goroutines that take no submissions. *)
Definition user_class (g : Goroutine) : option IngressClass :=
  match g with
  | GWorker wk _ _ _ => Some (wk_class wk)
  | GTCP ti _ _ _ => Some (ti_class ti)
  | _ => None
  end.

Definition tee_of (g : Goroutine) : option string :=
  match g with GWorker _ tee _ _ | GTCP _ tee _ _ | GPush _ tee _ _ => Some tee | _ => None end.
End Main.

(** ** The manifest consumer (main.go: main, manifest/listener.go: Start)

    The evaluator main builds, with the widths it pins, and the listener
    from its socket to its return. *)

(** *** The evaluator *)

Record EvaluatorConfig := mkEvaluatorConfig {
  ec_Quorum : Z; ec_Hysteresis : Z; ec_ShardBits : Z; ec_HasShardBitsPin : bool; ec_DomainShardBits : gmap Z Z }.

Definition evaluator_config `{Outside} (DomainBEEF : Z) (c : Config) : EvaluatorConfig :=
  mkEvaluatorConfig (c_PilotQuorum c) (AutoConfigHysteresis (c_plain c)) (u8 (c_ShardBits c)) true
    {[ DomainBEEF := u8 (c_BEEFShardBits c) ]}.

(** The pins are the widths the process runs with: narrowing them to eight
    bits changes nothing for a configuration that loads. *)
Theorem evaluator_pins_running_widths `{Outside} DomainBEEF c :
  config_ok c → 0 ≤ c_BEEFShardBits c →
  let e := evaluator_config DomainBEEF c in
  ec_HasShardBitsPin e = true ∧ ec_ShardBits e = c_ShardBits c ∧
  ec_DomainShardBits e !! DomainBEEF = Some (c_BEEFShardBits c) ∧ 1 ≤ ec_Quorum e.
Proof.
  intros Hc Hb e. destruct (ok_bits c Hc), (ok_beef c Hc), (ok_manifest c Hc) as (_ & ? & _).
  assert (Hu : ∀ x, 0 ≤ x ≤ 12 → u8 x = x) by (intros x ?; apply Z.mod_small; lia).
  unfold e, evaluator_config. cbn [ec_HasShardBitsPin ec_ShardBits ec_DomainShardBits ec_Quorum].
  rewrite lookup_singleton_eq, !Hu by lia. done.
Qed.

(** *** The listener *)

Section Listener.
Context (fate : nat → option GoErr).
Context {M Reg : Type} (Decode : bytes → option M) (AddrOf : bytes → option bytes) (Upsert : bytes → M → Reg → Reg).

(** [Listener.Start]: [None] while it is still reading. *)
Definition listener_Start (groups : list bytes) (port : Z) (sources : list bytes) (turns : list LTurn) (reg : Reg)
    : O (option (Reg * list ManifestEvent)) := λ s,
  match openGroupConn fate groups port sources s with
  | (inr e, s) => (inr (GWrap e), s)
  | (inl conn, s) =>
      let s := (ignore (sys_setsockopt fate "SO_RCVBUF" (2 ^ 16) conn) s).2 in
      match listener_loop Decode AddrOf Upsert turns reg [] with
      | (false, _) => (inl None, s)
      | (true, r) => let s := (close conn s).2 in (inl (Some r), s)
      end
  end.

(** A listener that returns, with an error or after its context was
    cancelled, leaves the open sockets as they were; without an error it has
    registered exactly the manifests of the datagrams it served. *)
Theorem listener_returns_clean groups port sources turns reg s r s' :
  os_ok s → listener_Start groups port sources turns reg s = (r, s') → r ≠ inl None →
  os_open s' = os_open s ∧
  ∀ reg' evs, r = inl (Some (reg', evs)) → reg' = upserts Upsert (served Decode AddrOf turns) reg.
Proof.
  intros Hok E Hr. unfold listener_Start in E. pose proof (openGroupConn_spec fate groups port sources s Hok) as Ho.
  destruct (openGroupConn fate groups port sources s) as [[conn|e] s1]; [|injection E as <- <-; split; [apply Ho|done]].
  destruct Ho as (Hok1 & new & (sk & ->) & Hd & Hs1). apply map_disjoint_singleton_l in Hd. rewrite <-insert_union_singleton_l in Hs1.
  pose proof (shapes_ignore_sys fate false conn (λ sk, sk <| sk_opts ::= <["SO_RCVBUF" := 2 ^ 16]> |>) (λ _, True) (λ _, True)
    ltac:(done) ltac:(done) s1 sk (os_open s) Hok1 Hs1 Hd I) as Hi.
  destruct Hi as (Hok2 & sk2 & _ & Hs2). cbv zeta in E. rewrite listener_registers_manifests in E.
  destruct (existsb _ turns); injection E as <- <-; [|done]. split.
  - change (delete conn (os_open (ignore (sys_setsockopt fate "SO_RCVBUF" (2 ^ 16) conn) s1).2) = os_open s).
    unfold sys_setsockopt, ignore. cbn [snd]. rewrite Hs2. by apply delete_insert_id.
  - by intros reg' evs [= <- _].
Qed.
End Listener.
