(* ===== verification/WiringProps.v ===== *)
(** * Properties of the wiring

    What main builds from a configuration that loads: the reasons for which
    it gives up, the shape of the process it leaves running, which sockets
    strangers can reach and what they may submit there, and where the retry
    tee reaches. *)

From S2P Require Import Prelude Common Toy Chains BatchWriter RetryTee Coal Egress RateLimit Machine Forwarder Beef Coalesce Dispatch ForwarderFacts ToyLaws DispatchProps Lane Worker Stream TcpIngress ObjectIngress Config ConfigProps Recorder Sockets Lifecycle Wiring.

Section Wiring.
Context {SC : ShardCommon} {SL : ShardLaws} {RT : GoRuntime} {OU : Outside} {OL : OutsideLaws} {MD : MainDeps}.

(** ** Reasons to exit *)

Inductive exit_cause (c : Config) : Fatal → Prop :=
| cause_iface n : n ∈ c_EgressIfaces c → net_InterfaceByName n = None → exit_cause c (NoInterface n)
| cause_metrics : metrics_New_ok = false → exit_cause c MetricsFailed
| cause_plane : shard_NewPlane (c_MCPrefix c) (c_MCGroupID c) (c_BEEFShardBits c) DomainBEEF = None → exit_cause c PlaneFailed
| cause_bind :
    c_SourceMode c = "asm" → c_BindSource c ≠ "" → ParseIPv6 (c_BindSource c) = None →
    exit_cause c (BadBindSource (c_BindSource c))
| cause_backend :
    dedup_on c = true →
    cache_Open (c_DedupBackend c) (c_DedupRedisAddr c) (c_DedupAeroHosts c)
      (TxidDedupAeroNamespace (c_plain c)) (TxidDedupAeroSet (c_plain c)) = None →
    exit_cause c (BackendFailed (c_DedupBackend c))
| cause_dedup b :
    dedup_on c = true →
    cache_Open (c_DedupBackend c) (c_DedupRedisAddr c) (c_DedupAeroHosts c)
      (TxidDedupAeroNamespace (c_plain c)) (TxidDedupAeroSet (c_plain c)) = Some b →
    txidset_New b (c_DedupTTL c) (c_DedupLocalCap c) = None →
    exit_cause c DedupFailed
| cause_compat :
    AutoConfigEnabled (c_plain c) = true → c_Compat c ∉ ["asm-only"; "both"; "derived"] →
    exit_cause c (BeaconFailed (ErrCompat (c_Compat c)))
| cause_scope :
    AutoConfigEnabled (c_plain c) = true → c_Compat c = "derived" → c_SourceMode c = "ssm" →
    has_ssm (c_BeaconScope c) = false →
    exit_cause c (BeaconFailed (ErrDerivedScope (c_BeaconScope c))).

(** [resolve_ifaces] stops at the first name that is not found. *)
Lemma resolve_ifaces_spec names :
  match resolve_ifaces names with
  | inl why => ∃ n, why = NoInterface n ∧ n ∈ names ∧ net_InterfaceByName n = None
  | inr l => Forall2 (λ n i, net_InterfaceByName n = Some i) names l
  end.
Proof.
  induction names as [|n names IH]; cbn [resolve_ifaces]; [by constructor|].
  destruct (net_InterfaceByName n) as [i|] eqn:E; cbn.
  - destruct (resolve_ifaces names) as [why|l]; cbn.
    + destruct IH as (n' & -> & Hin & He). exists n'. split_and!; [done|by right|done].
    + by constructor.
  - exists n. split_and!; [done|left|done].
Qed.

Lemma bind_source_spec c fw :
  config_ok c →
  match bind_source c fw with
  | inl why => exit_cause c why
  | inr fw' => ¬ exit_cause c (BadBindSource (c_BindSource c)) ∧
      fw' = fw <| s_bindSource := (if String.eqb (c_BindSource c) "" then s_bindSource fw else ParseIPv6 (c_BindSource c)) |>
               <| s_stampSource := StampSource (c_plain c) |>
  end.
Proof.
  intros Hok. unfold bind_source. destruct (String.eqb_spec (c_BindSource c) "") as [E|E].
  { cbn. split; [inversion 1; congruence|]. by destruct fw. }
  destruct (ParseIPv6 (c_BindSource c)) as [ip|] eqn:Ei; cbn.
  - split; [inversion 1; congruence|done].
  - apply cause_bind; [|done|done].
    destruct (ok_prefix _ Hok) as [[Hm _]|(_ & _ & Hs)]; [done|]. rewrite Ei in Hs. by destruct Hs.
Qed.

Lemma open_dedup_spec c fw :
  match open_dedup c fw with
  | inl why => exit_cause c why
  | inr fw' => ¬ exit_cause c (BackendFailed (c_DedupBackend c)) ∧ ¬ exit_cause c DedupFailed ∧
      (dedup_on c = false ∧ fw' = fw ∨ dedup_on c = true ∧ ∃ st, fw' = SetTxidDedup (Some st) (c_DedupPrefix c) fw)
  end.
Proof.
  unfold open_dedup. destruct (dedup_on c) eqn:Ed.
  2: { cbn. split_and!; [inversion 1; congruence|inversion 1; congruence|by left]. }
  cbv zeta. destruct (cache_Open _ _ _ _ _) as [b|] eqn:Eb; cbn; [|by apply cause_backend].
  destruct (txidset_New _ _ _) as [st|] eqn:Es; cbn; [|by eapply cause_dedup].
  split_and!; [inversion 1; congruence|inversion 1; congruence|]. right. eauto.
Qed.

(** The reasons that can stop main before its first goroutine. *)
Definition early (why : Fatal) : Prop := ∀ e, why ≠ BeaconFailed e.

Lemma prepare_spec c now :
  config_ok c →
  match prepare c now with
  | inl why => exit_cause c why
  | inr (ifaces, rec, fw) => (∀ why, early why → ¬ exit_cause c why) ∧
      Forall2 (λ n i, net_InterfaceByName n = Some i) (c_EgressIfaces c) ifaces ∧
      rec = NewRecorder (c_NumWorkers c) now ∧ s_beefEngine fw ≠ None ∧
      s_beefMaxObject fw = c_BEEFMaxObjectBytes c ∧ (is_Some (s_txDedup fw) ↔ dedup_on c = true)
  end.
Proof.
  intros Hok. unfold prepare. pose proof (resolve_ifaces_spec (c_EgressIfaces c)) as Hr.
  destruct (resolve_ifaces _) as [why|ifaces]; cbn.
  { destruct Hr as (n & -> & Hn & He). by apply (cause_iface c n). }
  destruct metrics_New_ok eqn:Em; cbn; [|by constructor].
  destruct (shard_NewPlane _ _ _ _) as [beef|] eqn:Ep; cbn; [|by constructor].
  set (fw0 := build_forwarder c _ beef).
  assert (H0 : s_beefEngine fw0 = Some beef ∧ s_beefMaxObject fw0 = c_BEEFMaxObjectBytes c ∧ s_txDedup fw0 = None).
  { unfold fw0, build_forwarder. cbv zeta. by destruct (RequireBlockPoW _), (0 <? FragMTU _), (Coalesce _). }
  pose proof (bind_source_spec c fw0 Hok) as Hb. destruct (bind_source c fw0) as [why|fw1]; cbn; [done|].
  destruct Hb as [Hb ->]. match goal with |- context [open_dedup c ?f] => set (fw1 := f) end.
  pose proof (open_dedup_spec c fw1) as Hd. destruct (open_dedup c fw1) as [why|fw2]; cbn; [done|].
  destruct Hd as (Hd1 & Hd2 & Hd). destruct H0 as (H1 & H2 & H3). split_and!.
  - intros why Hw Hc. destruct Hc; try congruence; try (by eapply Hw).
    + apply list_elem_of_lookup in H as [i Hi]. destruct (Forall2_lookup_l _ _ _ i n Hr Hi) as (x & _ & Hx). congruence.
    + by apply Hb, cause_bind.
    + by apply Hd1, cause_backend.
    + by eapply Hd2, cause_dedup.
  - done.
  - done.
  - destruct Hd as [[_ ->]|(_ & st & ->)]; cbn; by rewrite H1.
  - by destruct Hd as [[_ ->]|(_ & st & ->)].
  - destruct Hd as [[-> ->]|(-> & st & ->)]; cbn; [|by split; eauto].
    rewrite H3. split; [by intros []|done].
Qed.

Lemma prepare_early c now why : prepare c now = inl why → early why.
Proof.
  unfold prepare. pose proof (resolve_ifaces_spec (c_EgressIfaces c)) as Hr. destruct (resolve_ifaces _) as [w|l]; cbn.
  { intros [= <-]. destruct Hr as (n & -> & _). done. }
  destruct metrics_New_ok; cbn; [|by intros [= <-]]. destruct (shard_NewPlane _ _ _ _); cbn; [|by intros [= <-]].
  unfold bind_source. destruct (String.eqb _ ""); cbn; [|destruct (ParseIPv6 _); cbn; [|by intros [= <-]]].
  all: unfold open_dedup; destruct (dedup_on c); cbn; [|done].
  all: destruct (cache_Open _ _ _ _ _); cbn; [|by intros [= <-]].
  all: destruct (txidset_New _ _ _); cbn; [done|by intros [= <-]].
Qed.

Lemma EqualFold_mode c : config_ok c → EqualFold (c_SourceMode c) "ssm" = bool_decide (c_SourceMode c = "ssm").
Proof. intros Hok. destruct (ok_prefix _ Hok) as [[-> _]|[-> _]]; reflexivity. Qed.

Lemma ManifestBeaconGroupPrefixes_spec c :
  config_ok c → AutoConfigEnabled (c_plain c) = true →
  match ManifestBeaconGroupPrefixes c with
  | inl e => exit_cause c (BeaconFailed e)
  | inr l => l ≠ [] ∧ ∀ e, ¬ exit_cause c (BeaconFailed e)
  end.
Proof.
  intros Hok Hon. destruct (ok_manifest _ Hok) as (_ & _ & asm & Ha). unfold ManifestBeaconGroupPrefixes, ControlGroupPrefixes.
  rewrite Ha, (EqualFold_mode c Hok). pose proof (ssm_prefix _ asm Ha) as Hp.
  destruct (String.eqb_spec (c_Compat c) "asm-only") as [E1|E1].
  { cbn. split; [done|]. intros e. inversion 1 as [| | | | | |? Hn|]; [|congruence]. apply Hn. rewrite E1. left. }
  destruct (String.eqb_spec (c_Compat c) "both") as [E2|E2]; [|destruct (String.eqb_spec (c_Compat c) "derived") as [E3|E3]].
  - rewrite E2. cbn [orb String.eqb Ascii.eqb Bool.eqb].
    assert (Hno : ∀ e, ¬ exit_cause c (BeaconFailed e)).
    { intros e. inversion 1 as [| | | | | |? Hn|]; [|congruence]. apply Hn. rewrite E2. right. left. }
    case_bool_decide; [destruct (has_ssm _); [destruct Hp as (sc & -> & ->)|rewrite Hp]|]; cbn; split; try done; by destruct (_ =? _).
  - cbn [orb]. case_bool_decide as Hm.
    2: { cbn. split; [done|]. intros e. inversion 1 as [| | | | | |? Hn|]; [|congruence]. apply Hn. rewrite E3. right. right. left. }
    destruct (has_ssm _) eqn:Eh; [destruct Hp as (sc & -> & ->)|rewrite Hp]; cbn; [|by apply cause_scope].
    split; [done|]. intros e. inversion 1 as [| | | | | |? Hn|]; [|congruence]. apply Hn. rewrite E3. right. right. left.
  - cbn. apply cause_compat; [done|]. rewrite !not_elem_of_cons. split_and!; [done..|apply not_elem_of_nil].
Qed.

Lemma start_manifest_spec c ifaces :
  config_ok c →
  match start_manifest c ifaces with
  | None => False
  | Some (inl e) => exit_cause c (BeaconFailed e)
  | Some (inr gs) => (∀ e, ¬ exit_cause c (BeaconFailed e)) ∧
      if AutoConfigEnabled (c_plain c) then
        ∃ groups, groups ≠ [] ∧ gs = [GListener groups (head ifaces) (Debug (c_plain c)); GApplier (AutoConfigLiveResharding (c_plain c))]
      else gs = []
  end.
Proof.
  intros Hok. unfold start_manifest. destruct (AutoConfigEnabled (c_plain c)) eqn:Eon.
  2: { split; [|done]. intros e. inversion 1; congruence. }
  pose proof (ManifestBeaconGroupPrefixes_spec c Hok Eon) as Hm.
  destruct (ManifestBeaconGroupPrefixes c) as [e|[|p l]]; [done|by destruct Hm|]. destruct Hm as [_ Hm].
  cbn. split; [done|]. exists (beacon_groups c (p :: l)). split; [by rewrite <-length_zero_iff_nil|done].
Qed.

(** C32: main gives up only for a reason of its environment, and never
    panics.  From any configuration that loads, main either reaches its
    select, and then none of the causes below holds, or exits for one of
    them: a named interface that is gone, a metrics, BEEF plane or dedup
    initialisation that failed, a bind source that is not IPv6 (which only
    any-source mode leaves unchecked until here), or a beacon group that
    cannot be derived.  Every exit comes before the first goroutine is
    started, but for the last, which comes after all of the ingress is
    running. *)
Theorem main_exits_only f c now :
  Load f = inr c →
  (∃ p, wire_main c now = Some (Runs p) ∧ ∀ why, ¬ exit_cause c why) ∨
  (∃ why started, wire_main c now = Some (Exits why started) ∧ exit_cause c why ∧
     (started = [] ∧ early why ∨ started = start_ingress c ∧ ∃ e, why = BeaconFailed e)).
Proof.
  intros HL. pose proof (Load_ok f c HL) as Hok. unfold wire_main. pose proof (prepare_spec c now Hok) as Hp.
  destruct (prepare c now) as [why|[[ifaces rec] fw]] eqn:Ep.
  { right. exists why, []. split_and!; [done..|]. left. split; [done|]. by eapply prepare_early. }
  destruct Hp as (Hearly & _). pose proof (start_manifest_spec c ifaces Hok) as Hm.
  destruct (start_manifest c ifaces) as [[e|gs]|]; [| |done]; cbn.
  - right. eexists _, _. split_and!; [done..|]. right. eauto.
  - left. eexists. split; [done|]. destruct Hm as [Hm _]. intros why Hc.
    destruct why; try (eapply Hm; exact Hc); (eapply Hearly; [|exact Hc]); done.
Qed.

(** ** The process main leaves running *)

Lemma wire_main_runs c now p :
  config_ok c → wire_main c now = Some (Runs p) →
  ∃ ifaces rec fw gs, prepare c now = inr (ifaces, rec, fw) ∧ start_manifest c ifaces = Some (inr gs) ∧
    p = mkProcess fw ifaces (if 0 <? TCPListenPort c then RequireTCPIngress rec else rec) (start_ingress c ++ gs).
Proof.
  intros Hok. unfold wire_main. destruct (prepare c now) as [why|[[ifaces rec] fw]]; [done|].
  destruct (start_manifest c ifaces) as [[e|gs]|] eqn:Em; cbn; [done| |done]. intros [= <-]. by eexists _, _, _, _.
Qed.

Lemma ops_workers c (l : list Z) : (start_worker c <$> l) ≫= start_ops = replicate (length l) SpawnWorker.
Proof. induction l as [|i l IH]; [done|]. rewrite fmap_cons, bind_cons, IH. done. Qed.

Lemma ops_push c class tee port :
  start_push c class tee port ≫= start_ops = if 0 <? port then [SpawnLane false] else [].
Proof. unfold start_push. by destruct (0 <? port). Qed.

(** The goroutines of the ingress start what Lifecycle's plan says. *)
Lemma ops_ingress c :
  start_ingress c ≫= start_ops = replicate (pl_workers (plan_of c)) SpawnWorker ++
    (if pl_tcp (plan_of c) then [RequireTCP; SpawnLane true] else []) ++ replicate (pl_push (plan_of c)) (SpawnLane false).
Proof.
  unfold start_ingress. rewrite !bind_app, ops_workers, !ops_push, length_seqZ. cbn [mbind list_bind start_ops app].
  f_equal. unfold start_tcp, plan_of. cbn [pl_tcp pl_push]. f_equal; [by destruct (0 <? TCPListenPort c)|].
  rewrite !filter_cons, filter_nil.
  repeat match goal with |- context [0 <? ?p] => destruct (Z.ltb_spec 0 p) end;
    repeat case_decide; try lia; done.
Qed.

Definition worker_id (g : Goroutine) : option Z := match g with GWorker wk _ _ _ => Some (wk_id wk) | _ => None end.
Definition is_tcp (g : Goroutine) : bool := match g with GTCP _ _ _ _ => true | _ => false end.

(** A well-formed process: its goroutines are those of the plan; the workers
    are numbered as the recorder expects them, so that each has a flow cell
    and readiness can be reached; the recorder waits for the TCP lane exactly
    when there is one; the stream ports are positive and distinct; the user
    sockets take transactions only; every worker can receive; there is an
    egress interface for every configured name; the BEEF plane is on with a
    positive bound; and the beacon listener has a group to join. *)
Record process_ok (c : Config) (p : Process) : Prop := mkProcessOk {
  po_plan : pr_goroutines p ≫= start_ops = startup (plan_of c);
  po_ids : omap worker_id (pr_goroutines p) = seqZ 0 (r_numWorkers (pr_rec p)) ∧ 1 ≤ r_numWorkers (pr_rec p);
  po_tcp : r_tcpIngressRequired (pr_rec p) = existsb is_tcp (pr_goroutines p);
  po_ports : NoDup (omap stream_port (pr_goroutines p)) ∧ Forall (λ n, 0 < n) (omap stream_port (pr_goroutines p));
  po_class : ∀ g class, g ∈ pr_goroutines p → user_class g = Some class → class = IngressTransaction;
  po_recv : ∀ wk tee addr port, GWorker wk tee addr port ∈ pr_goroutines p → 1 ≤ wk_recvBatch wk ∧ 1 ≤ wk_recvBufBytes wk;
  po_ifaces : pr_ifaces p ≠ [] ∧ Forall2 (λ n i, net_InterfaceByName n = Some i) (c_EgressIfaces c) (pr_ifaces p);
  po_beef : is_Some (s_beefEngine (pr_fw p)) ∧ 0 < s_beefMaxObject (pr_fw p);
  po_dedup : is_Some (s_txDedup (pr_fw p)) ↔ dedup_on c = true;
  po_beacon : ∀ groups iface debug, GListener groups iface debug ∈ pr_goroutines p → groups ≠ [] ∧ is_Some iface }.

(** What main can start, and with which tee. *)
Inductive started_as (c : Config) : Goroutine → Prop :=
| as_serve addr pprof : started_as c (GServe addr pprof)
| as_worker i : started_as c (start_worker c i)
| as_tcp : started_as c (GTCP (tcp_SetIngressClass userClass (NewTCPIngress true)) (RetryTee (c_plain c)) (ListenAddr (c_plain c)) (TCPListenPort c))
| as_push class tee port :
    tee = (if bool_decide (class = ClassSubtree) then RetryTee (c_plain c) else "") →
    started_as c (GPush (NewObjectIngress true class) tee (ListenAddr (c_plain c)) port).

Lemma start_ingress_as c g : g ∈ start_ingress c → started_as c g.
Proof.
  unfold start_ingress. rewrite !elem_of_app, list_elem_of_singleton. intros [->|[Hw|[Ht|Hp]]].
  - constructor.
  - apply list_elem_of_fmap in Hw as (i & -> & _). constructor.
  - unfold start_tcp in Ht. destruct (0 <? _); [|by apply elem_of_nil in Ht]. apply list_elem_of_singleton in Ht as ->. constructor.
  - unfold start_push in Hp. destruct Hp as [Hp|[Hp|Hp]]; destruct (0 <? _); try (by apply elem_of_nil in Hp);
      apply list_elem_of_singleton in Hp as ->; by constructor.
Qed.

Lemma omap_workers {A} (f : Goroutine → option A) c (l : list Z) :
  (∀ i, f (start_worker c i) = None) → omap f (start_worker c <$> l) = [].
Proof. intros Hf. induction l as [|i l IH]; [done|]. rewrite fmap_cons. cbn. by rewrite Hf. Qed.

Lemma omap_worker_ids c (l : list Z) : omap worker_id (start_worker c <$> l) = l.
Proof.
  induction l as [|i l IH]; [done|]. rewrite fmap_cons. cbn. rewrite IH. f_equal.
  unfold SetRecvBufBytes. by destruct (_ <? 1).
Qed.

Lemma ports_push c class tee port :
  omap stream_port (start_push c class tee port) = filter (λ n, 0 < n) [port].
Proof. unfold start_push. rewrite filter_cons, filter_nil. destruct (Z.ltb_spec 0 port); case_decide; done || lia. Qed.

(** The stream ports are the positive ones of the configuration. *)
Lemma ports_ingress c :
  omap stream_port (start_ingress c) =
  filter (λ n, 0 < n) [TCPListenPort c; SubtreeListenPort c; BlockListenPort c; BEEFListenPort c].
Proof.
  unfold start_ingress. rewrite !omap_app, (omap_workers _ c), !ports_push by done. cbn [omap list_omap stream_port app].
  assert (Ht : omap stream_port (start_tcp c) = filter (λ n, 0 < n) [TCPListenPort c]).
  { unfold start_tcp. rewrite filter_cons, filter_nil. destruct (Z.ltb_spec 0 (TCPListenPort c)); case_decide; done || lia. }
  rewrite Ht, <-!list.filter_app. done.
Qed.

Lemma ports_distinct f c : Load f = inr c → NoDup (omap stream_port (start_ingress c)).
Proof.
  intros HL. pose proof (ok_ports _ (Load_ok f c HL)) as Hn. rewrite ports_ingress.
  assert (E : [TCPListenPort c; SubtreeListenPort c; BlockListenPort c; BEEFListenPort c] = c_TCPPorts c).
  { unfold TCPListenPort, SubtreeListenPort, BlockListenPort, BEEFListenPort. by rewrite (Load_ports f c HL). }
  rewrite E. rewrite <-(list_filter_iff (λ n, 0 < n ∧ n ≠ 0) _ (c_TCPPorts c)) by lia.
  rewrite <-list_filter_filter. by apply list.NoDup_filter.
Qed.

Lemma manifest_goroutines c ifaces gs :
  config_ok c → start_manifest c ifaces = Some (inr gs) →
  gs ≫= start_ops = (if pl_manifest (plan_of c) then [SpawnManifest; SpawnManifest] else []) ∧
  omap worker_id gs = [] ∧ existsb is_tcp gs = false ∧ omap stream_port gs = [] ∧
  ∀ g, g ∈ gs → (∃ live, g = GApplier live) ∨ ∃ groups debug, g = GListener groups (head ifaces) debug ∧ groups ≠ [].
Proof.
  intros Hok Em. pose proof (start_manifest_spec c ifaces Hok) as Hm. rewrite Em in Hm. destruct Hm as [_ Hm].
  unfold plan_of. cbn [pl_manifest]. destruct (AutoConfigEnabled _).
  - destruct Hm as (groups & Hg & ->). split_and!; [done..|]. intros g.
    rewrite !elem_of_cons, elem_of_nil. intros [->|[->|[]]]; [right|left]; eauto.
  - subst gs. split_and!; [done..|]. intros g Hg. by apply elem_of_nil in Hg.
Qed.

Lemma existsb_tcp c : existsb is_tcp (start_ingress c) = (0 <? TCPListenPort c).
Proof.
  unfold start_ingress. rewrite !existsb_app. cbn [existsb is_tcp orb].
  assert (E : existsb is_tcp (start_worker c <$> seqZ 0 (c_NumWorkers c)) = false).
  { induction (seqZ 0 (c_NumWorkers c)) as [|i l IH]; [done|]. rewrite fmap_cons. exact IH. }
  assert (Hp : ∀ class tee port, existsb is_tcp (start_push c class tee port) = false).
  { intros. unfold start_push. by destruct (0 <? port). }
  rewrite E, !Hp. unfold start_tcp. by destruct (0 <? TCPListenPort c).
Qed.

Lemma wired_process_ok f c now p : Load f = inr c → wire_main c now = Some (Runs p) → process_ok c p.
Proof.
  intros HL HR. pose proof (Load_ok f c HL) as Hok.
  destruct (wire_main_runs c now p Hok HR) as (ifaces & rec & fw & gs & Ep & Em & ->).
  pose proof (prepare_spec c now Hok) as Hp. rewrite Ep in Hp. destruct Hp as (_ & Hi & -> & Hbe & Hbm & Hd).
  destruct (manifest_goroutines c ifaces gs Hok Em) as (Go & Gw & Gt & Gp & Gk).
  destruct (ok_workers _ Hok) as [Hnw Hrb]. set (rec := if 0 <? TCPListenPort c then _ else _).
  assert (Hn : r_numWorkers rec = c_NumWorkers c) by (unfold rec; by destruct (0 <? _)).
  split; cbn [pr_goroutines pr_rec pr_ifaces pr_fw].
  - rewrite bind_app, Go, ops_ingress. unfold startup. by rewrite <-!app_assoc.
  - rewrite omap_app, Gw, app_nil_r, Hn. split; [|done]. unfold start_ingress. rewrite !omap_app, omap_worker_ids.
    cbn [omap list_omap worker_id app].
    assert (Ht : omap worker_id (start_tcp c) = []) by (unfold start_tcp; by destruct (0 <? _)).
    assert (Hpu : ∀ class tee port, omap worker_id (start_push c class tee port) = []).
    { intros class tee port. unfold start_push. by destruct (0 <? port). }
    rewrite Ht, !Hpu. by rewrite !app_nil_r.
  - rewrite existsb_app, Gt, orb_false_r, existsb_tcp. unfold rec. by destruct (0 <? _).
  - rewrite omap_app, Gp, app_nil_r. split; [by eapply ports_distinct|]. rewrite ports_ingress.
    apply list.Forall_forall. intros n Hn'. by apply list_elem_of_filter in Hn' as [].
  - intros g class Hg Hc. apply elem_of_app in Hg as [Hg|Hg].
    + apply start_ingress_as in Hg. revert Hc. destruct Hg; [done| |by intros [= <-]|done]. by intros [= <-].
    + apply Gk in Hg as [[live ->]|(groups & debug & -> & _)]; done.
  - intros wk tee addr port Hg. apply elem_of_app in Hg as [Hg|Hg].
    + apply start_ingress_as in Hg. inversion Hg; subst. unfold SetIngressClass, SetRecvBufBytes, SetRecvBatch, NewWorker. cbn.
      destruct (Z.ltb_spec (RecvBufBytes (c_plain c)) 1); destruct (Z.ltb_spec (c_RecvBatch c) 1); cbn; unfold DefaultRecvBufBytes; lia.
    + apply Gk in Hg as [[live ?]|(groups & debug & ? & _)]; done.
  - split; [|done]. destruct (ok_ifaces _ Hok) as [Hne _]. intros ->. by inversion Hi as [E|]; rewrite <-E in Hne.
  - split; [by apply not_eq_None_Some|]. rewrite Hbm. destruct (ok_beef _ Hok). lia.
  - done.
  - intros groups iface debug Hg. apply elem_of_app in Hg as [Hg|Hg].
    + apply start_ingress_as in Hg. inversion Hg.
    + apply Gk in Hg as [[live ?]|(groups' & debug' & Eg & Hne)]; [done|]. injection Eg as -> -> ->. split; [done|].
      destruct (ok_ifaces _ Hok) as [Hni _]. destruct ifaces; [|by eexists]. inversion Hi as [E|]. by rewrite <-E in Hni.
Qed.

(** C21: main builds a well-formed process from every configuration that
    loads.  If it reaches its select then the goroutines it started are
    those of the plan its lifecycle is reasoned about with; the workers are
    numbered 0 to n-1 where n is what the recorder expects, so each has its
    own flow cells and readiness can be reached; readiness waits for the TCP
    lane exactly when there is one; the stream lanes listen on distinct
    positive ports; the UDP and TCP user sockets take transactions only;
    every worker receives at least one datagram at a time into a socket
    buffer of positive size; every configured egress interface was resolved,
    and there is one; the BEEF plane is on with a positive object bound;
    dedup is on exactly when configured; and the beacon listener has a group
    and an interface to join on. *)
Theorem main_builds_process_ok f c now p : Load f = inr c → wire_main c now = Some (Runs p) → process_ok c p.
Proof. apply wired_process_ok. Qed.

(** C22: nobody can submit blocks or subtrees over a user socket.  In any
    process main builds, a datagram or stream frame with a block, coinbase or
    subtree header that reaches a UDP worker or the TCP lane, from any source
    and in any state of the pipeline, is counted under its frame type's
    label and dropped, without a panic: no dedup claim, no sequence number,
    no queue and no coalescing buffer changes. *)
Theorem user_sockets_refuse_privileged f c now p g class raw src worker w :
  Load f = inr c → wire_main c now = Some (Runs p) →
  g ∈ pr_goroutines p → user_class g = Some class →
  be_get (slice 0 4 raw) = MagicBSV → byte_at 6 raw = FrameVerV4 ∨ byte_at 6 raw = FrameVerV5 → 8 ≤ Zlen raw →
  ∃ label, privileged_label raw = Some label ∧
    DispatchClass (pr_fw p) raw src worker class w =
      Some ((), w <| w_events := if s_rec (pr_fw p) then w_events w ++ [EvPrivilegedFrameRejected label] else w_events w |>).
Proof.
  intros HL HR Hg Hc Hm Hv Hn. pose proof (wired_process_ok f c now p HL HR) as Hok.
  destruct (privileged_label_some raw) as [label El]. exists label. split; [done|].
  assert (Hf : framed raw = true) by (unfold framed; rewrite Hm, (proj2 (Z.leb_le 4 _)) by lia; reflexivity).
  rewrite (po_class _ _ Hok g class Hg Hc). unfold DispatchClass, rejectPrivileged. cbv zeta.
  rewrite not_framed_some, record_tagged_some, !byte_is_some, !need_some, Hf, El, need_some. cbn [negb].
  rewrite bool_decide_eq_false_2 by done. cbn [negb]. rewrite <- !(byte_at_has 6 _ raw) in Hv by lia.
  destruct (has_byte 6 FrameVerV4 raw) eqn:E4; [|destruct Hv as [Hv|Hv]; [done|]; rewrite Hv].
  all: unfold record; destruct (s_rec (pr_fw p)); [done|by destruct w].
Qed.

(** Where the retry tee reaches.  Every UDP worker, the TCP lane and
    the subtree lane mirror what they send to the configured retry cache; the
    block and BEEF push lanes are built without a tee, whatever is
    configured. *)
Theorem retry_tee_reach f c now p g tee :
  Load f = inr c → wire_main c now = Some (Runs p) → g ∈ pr_goroutines p → tee_of g = Some tee →
  tee = match g with
        | GPush oi _ _ _ => if bool_decide (oi_class oi = ClassSubtree) then RetryTee (c_plain c) else ""
        | _ => RetryTee (c_plain c)
        end.
Proof.
  intros HL HR Hg Ht. pose proof (Load_ok f c HL) as Hok.
  destruct (wire_main_runs c now p Hok HR) as (ifaces & rec & fw & gs & Ep & Em & ->).
  destruct (manifest_goroutines c ifaces gs Hok Em) as (_ & _ & _ & _ & Gk).
  cbn [pr_goroutines] in Hg. apply elem_of_app in Hg as [Hg|Hg].
  - apply start_ingress_as in Hg. revert Ht. destruct Hg; cbn; congruence.
  - apply Gk in Hg as [[live ->]|(groups & debug & -> & _)]; done.
Qed.
End Wiring.

(** ** Witnesses *)

#[local] Existing Instance toyOutside.
#[local] Existing Instance toyOutsideLaws.
#[local] Existing Instance exactRuntime.

(** A host with two interfaces, engines that remember their width, and a
    single in-memory dedup store. *)
#[local] Instance toyMain : MainDeps := {|
  net_InterfaceByName n := if String.eqb n "eth0" then Some (mkIface n 2)
    else if String.eqb n "eth1" then Some (mkIface n 3) else None;
  metrics_New_ok := true;
  shard_New _ _ bits := bits;
  shard_NewPlane _ _ bits _ := if bits <=? 12 then Some bits else None;
  DomainBEEF := 1; GroupBeacon := 0xFFFD;
  Backend := string;
  cache_Open kind _ _ _ _ := Some kind;
  txidset_New _ ttl cap := if (0 <? ttl) && (0 <? cap) then Some 0%nat else None;
  GOMAXPROCS := 4 |}.

Definition wired_env (key : string) : string :=
  default "" (list_to_map (M := gmap string string)
    [("TCP_LISTEN_PORT", "8725"); ("SUBTREE_LISTEN_PORT", "8726"); ("BLOCK_LISTEN_PORT", "8727");
     ("NUM_WORKERS", "2"); ("MULTICAST_IF", "eth0, eth1"); ("BSP_RETRY_TEE", "[::1]:9001");
     ("MANIFEST_CONSUMER_ENABLED", "true")] !! key).

(** The same with a beacon compatibility mode that does not exist. *)
Definition wrong_env (key : string) : string :=
  if String.eqb key "CONTROL_GROUP_COMPAT" then "none" else wired_env key.

Definition wired_flags : Flags := Eval vm_compute in default_flags wired_env.
Definition wrong_flags : Flags := Eval vm_compute in default_flags wrong_env.

Definition config_of (f : Flags) : Config :=
  match Load f with
  | inr c => c
  | inl _ => mkConfig _ (fl_plain f) [] 0 0 0 0 0 "" "" 0 "" 0 0 0 [] "" "" [] 0 "" 0 "" 0 "" ""
  end.

Definition wired_config : Config := Eval vm_compute in config_of wired_flags.
Definition wrong_config : Config := Eval vm_compute in config_of wrong_flags.

Definition wired_process : Process :=
  match wire_main wired_config 0 with
  | Some (Runs p) => p
  | _ => mkProcess (New 0 0 0 0 false false 0) [] (NewRecorder 0 0) []
  end.

Lemma wired_loads : Load wired_flags = inr wired_config.
Proof. reflexivity. Qed.

Lemma wrong_loads : Load wrong_flags = inr wrong_config.
Proof. reflexivity. Qed.

Lemma wired_runs : wire_main wired_config 0 = Some (Runs wired_process).
Proof. reflexivity. Qed.

Lemma main_exits_only_witness :
  (∃ p, wire_main wired_config 0 = Some (Runs p)) ∧
  ∃ started, wire_main wrong_config 0 = Some (Exits (BeaconFailed (ErrCompat "none")) started) ∧
    started = start_ingress wrong_config.
Proof.
  split.
  - destruct (main_exits_only _ _ 0 wired_loads) as [(p & E & _)|(why & started & E & _)]; [by exists p|].
    rewrite wired_runs in E. discriminate E.
  - destruct (main_exits_only _ _ 0 wrong_loads) as [(p & E & H)|(why & started & E & _ & [[_ He]|[Hs _]])].
    + exfalso. apply (H (BeaconFailed (ErrCompat "none"))). apply (cause_compat wrong_config); [reflexivity|].
      by apply (bool_decide_eq_false_1 ("none" ∈ ["asm-only"; "both"; "derived"])).
    + exfalso. apply (He (ErrCompat "none")). assert (E2 : wire_main wrong_config 0 = Some (Exits (BeaconFailed (ErrCompat "none")) (start_ingress wrong_config))) by reflexivity. congruence.
    + exists started. split; [|exact Hs]. rewrite Hs. reflexivity.
Defined.

Lemma main_builds_process_ok_witness :
  process_ok wired_config wired_process ∧
  omap stream_port (pr_goroutines wired_process) = [8725; 8726; 8727] ∧
  length (pr_goroutines wired_process) = 8%nat.
Proof.
  split_and!; [exact (main_builds_process_ok _ _ 0 _ wired_loads wired_runs)|reflexivity|reflexivity].
Defined.

(** A subtree frame header. *)
Definition privileged_frame : bytes := toy_frame FrameVerV5 1 (zeros 32) (zeros 32) [1; 2; 3].

Lemma user_sockets_refuse_privileged_witness :
  let g := start_worker wired_config 1 in
  let fw := pr_fw wired_process in
  let w := newWorld ∅ (Some (NewEgress None ["eth0"] 8 true)) 0 in
  g ∈ pr_goroutines wired_process ∧
  DispatchClass fw privileged_frame None 1 IngressTransaction w =
    Some ((), w <| w_events := w_events w ++ [EvPrivilegedFrameRejected "brc132"] |>).
Proof.
  intros g fw w. assert (Hg : g ∈ pr_goroutines wired_process) by (right; right; left).
  split; [exact Hg|].
  destruct (user_sockets_refuse_privileged _ _ 0 _ g IngressTransaction privileged_frame None 1 w wired_loads wired_runs Hg)
    as (label & [= <-] & E); [reflexivity|reflexivity|by right|by vm_compute|exact E].
Defined.

Lemma retry_tee_reach_witness :
  let gs := pr_goroutines wired_process in
  omap tee_of gs = ["[::1]:9001"; "[::1]:9001"; "[::1]:9001"; "[::1]:9001"; ""] ∧
  ∀ oi tee addr port, GPush oi tee addr port ∈ gs → oi_class oi = ClassBlock → tee = "".
Proof.
  intros gs. split; [reflexivity|]. intros oi tee addr port Hg Hc.
  rewrite (retry_tee_reach _ _ 0 _ (GPush oi tee addr port) tee wired_loads wired_runs Hg eq_refl).
  by rewrite Hc.
Defined.
