(* ===== verification/Floats.v ===== *)
(** * float64 arithmetic of the tools

    What the traffic tools use of float64 beyond the limiter's [GoRuntime]:
    division, conversion to an integer (which truncates), literals and the
    square root; the laws their theorems rely on; and exact rationals as an
    instance (with the square root left as the identity, which the laws do
    not constrain). *)

From Stdlib Require Import QArith Lqa.
From S2P Require Import Prelude Common RateLimit.
#[local] Open Scope Z_scope.

Class ToolFloat `{GoRuntime} := {
  f_div : F64 → F64 → F64;
  f_trunc : F64 → Z;                (* int64(x) *)
  f_lit : Z → Z → F64;              (* the literal num/den *)
  f_sqrt : F64 → F64 }.

(** Numbers whose conversion to int64 is specified, from above. *)
Definition f_int64 `{ToolFloat} (x : F64) : bool := f_lt x (f_lit (2 ^ 63) 1).

(** IEEE-754 behaviour on numbers: conversion is monotone from zero up to the
    int64 range; a product with zero converts to zero; multiplication by a non-negative number is monotone, and by
    a number of at most one does not increase; division is monotone; integers up to 2^53 are in
    range; a quotient of integers a and b with 0 ≤ a ≤ b lies in [0, 1]. *)
Class ToolFloatLaws `{ToolFloat} : Prop := {
  f_trunc_mono x y : f_le f_zero x = true → f_le x y = true → f_int64 y = true → f_trunc x ≤ f_trunc y;
  f_trunc_zero : f_trunc f_zero = 0;
  f_trunc_mul_zero x : f_trunc (f_mul x (f_of_int 0)) = 0;
  f_mul_mono x y z : f_le f_zero z = true → f_le x y = true → f_le (f_mul x z) (f_mul y z) = true;
  f_mul_shrink q x : f_le f_zero x = true → f_le q (f_lit 1 1) = true → f_le (f_mul q x) x = true;
  f_seconds_mono d e : d ≤ e → f_le (f_seconds d) (f_seconds e) = true;
  f_of_int_int64 n : n ≤ 2 ^ 53 → f_int64 (f_of_int n) = true;
  f_div_mono a b c : a ≤ b → 0 < c → f_le (f_div (f_of_int a) (f_lit c 1)) (f_div (f_of_int b) (f_lit c 1)) = true;
  f_unit a b : 0 ≤ a ≤ b → 0 < b ≤ 2 ^ 53 →
    (f_le f_zero (f_lit a b) = true ∧ f_le (f_lit a b) (f_lit 1 1) = true) ∧
    (f_le f_zero (f_div (f_of_int a) (f_lit b 1)) = true ∧ f_le (f_div (f_of_int a) (f_lit b 1)) (f_lit 1 1) = true) }.

Section Facts.
Context {RT : GoRuntime} {RL : RuntimeLaws} {TF : ToolFloat} {TL : ToolFloatLaws}.

Lemma f_le_lt_trans x y z : f_le x y = true → f_lt y z = true → f_lt x z = true.
Proof.
  intros Hxy Hyz. destruct (f_lt x z) eqn:E; [done|]. exfalso.
  assert (Hzx : f_le z x = true) by (unfold f_le; by rewrite E).
  pose proof (f_le_trans _ _ _ Hzx Hxy) as Hzy. unfold f_le in Hzy. by rewrite Hyz in Hzy.
Qed.

Lemma f_trunc_nonneg x : f_le f_zero x = true → f_int64 x = true → 0 ≤ f_trunc x.
Proof. intros H1 H2. rewrite <-f_trunc_zero. apply f_trunc_mono; [apply f_le_refl|done|done]. Qed.
End Facts.

Definition exactToolFloat : @ToolFloat exactRuntime := {|
  f_div := (Qdiv : @F64 exactRuntime → @F64 exactRuntime → @F64 exactRuntime);
  f_trunc := λ x : Q, Z.quot (Qnum x) (Zpos (Qden x));
  f_lit := λ a d, (inject_Z a / inject_Z d)%Q;
  f_sqrt := λ x : Q, x |}.

Lemma exactToolFloatLaws : @ToolFloatLaws exactRuntime exactToolFloat.
Proof.
  split.
  - intros x y _. rewrite exact_le. destruct x as [a b], y as [c d]. unfold Qle. cbn [f_trunc exactToolFloat Qnum Qden]. intros Hle _.
    rewrite <-(Z.quot_mul_cancel_r a (Z.pos b) (Z.pos d)) by done.
    rewrite <-(Z.quot_mul_cancel_r c (Z.pos d) (Z.pos b)) by done.
    rewrite (Z.mul_comm (Z.pos d) (Z.pos b)). apply Z.quot_le_mono; [lia|done].
  - done.
  - intros [a b]. cbn. by rewrite Z.mul_0_r.
  - intros x y z. rewrite !exact_le. cbn. intros. apply Qmult_le_compat_r; done.
  - intros q x. rewrite !exact_le. cbn. intros Hx Hq. assert (Hq1 : (q <= 1)%Q) by (unfold Qle in *; cbn in *; lia). nra.
  - intros d e Hde. rewrite exact_le. cbn. unfold Qle. cbn. lia.
  - intros n Hn. unfold f_int64. rewrite exact_lt. cbn. unfold Qlt. cbn. lia.
  - intros a b c Hab Hc. rewrite exact_le. cbn [f_lit f_div f_of_int exactRuntime exactToolFloat]. unfold Qdiv.
    apply Qmult_le_compat_r; [unfold Qle; cbn; lia|]. apply Qinv_le_0_compat. unfold Qle. cbn. lia.
  - intros a b Ha [Hb _]. destruct b as [|b|]; [lia| |lia]. rewrite !exact_le.
    cbn [f_zero f_lit f_div f_of_int exactRuntime exactToolFloat].
    assert (E : ∀ x, (inject_Z x / inject_Z (Z.pos b) == x # b)%Q).
    { intros x. rewrite Qmake_Qdiv. reflexivity. }
    assert (E1 : (inject_Z 1 / inject_Z 1 == 1)%Q) by reflexivity.
    assert (E2 : (inject_Z a / (inject_Z (Z.pos b) / inject_Z 1) == a # b)%Q).
    { rewrite <-(E a). apply Qdiv_comp; [reflexivity|]. unfold Qdiv, Qmult, Qinv, Qeq. cbn. lia. }
    rewrite E2, E, E1. unfold Qle. cbn. lia.
Qed.
