(* ===== verification/LatencySink.v ===== *)
(** * The latency sink (cmd/latency-sink)

    The probe's rolling window of one-way latencies, the receive loop that
    tells stamped, duplicate and undecodable datagrams apart, the percentiles
    of the report and of the probe's metrics, and the source-group request it
    hands to the kernel.  Opening and joining the socket and the texts it
    prints are in ToolMain. *)

From stdpp Require Import sorting.
From S2P Require Import Prelude Common RateLimit Floats Latstamp.

(** ** The probe's window *)

Record probeState := mkProbe { ps_window : Z; ps_ts : list Z; ps_lat : list Z; ps_total : Z }.

#[export] Instance eta_probeState : EtaExpand probeState :=
  {| eta_of := λ x, mkProbe (ps_window x) (ps_ts x) (ps_lat x) (ps_total x) |}.

Definition newProbeState (w : Z) : probeState := mkProbe w [] [] 0.

(** How many leading arrival times are before [cut]. *)
Fixpoint expired (cut : Z) (ts : list Z) : nat :=
  match ts with
  | [] => O
  | t :: ts => if t <? cut then S (expired cut ts) else O
  end.

Definition probe_record (nowNs latNs : Z) (p : probeState) : probeState :=
  let p := p <| ps_total ::= λ n, u64 (n + 1) |> <| ps_ts ::= λ l, l ++ [nowNs] |> <| ps_lat ::= λ l, l ++ [latNs] |> in
  let i := expired (nowNs - ps_window p) (ps_ts p) in
  p <| ps_ts ::= drop i |> <| ps_lat ::= drop i |>.

(** [sort.Slice] in ascending order. *)
Definition sorted_copy (l : list Z) : list Z := merge_sort Z.le l.

Definition snapshot (p : probeState) : list Z * Z := (sorted_copy (ps_lat p), ps_total p).

(** ** The receive loop *)

Record report := mkReport { rp_Datagrams : Z; rp_Stamped : Z; rp_Unique : Z; rp_Dups : Z; rp_DecodeErr : Z }.

#[export] Instance eta_report : EtaExpand report :=
  {| eta_of := λ x, mkReport (rp_Datagrams x) (rp_Stamped x) (rp_Unique x) (rp_Dups x) (rp_DecodeErr x) |}.

Record Sink := mkSink { sk_rep : report; sk_seen : gset Z; sk_lats : list Z; sk_probe : option probeState }.

#[export] Instance eta_Sink : EtaExpand Sink :=
  {| eta_of := λ x, mkSink (sk_rep x) (sk_seen x) (sk_lats x) (sk_probe x) |}.

Definition newSink (probe : option probeState) : Sink := mkSink (mkReport 0 0 0 0 0) ∅ [] probe.

(** One iteration: the clock at the loop's test, and what the receive
    returned: an error (a timeout tick), or a datagram and the clock after
    it. *)
Record Tick := mkTick { tk_clock : Z; tk_recv : option (bytes * Z) }.

Section Sink.
Context `{ShardCommon}.

(** The stamp of a datagram: at the head of a decoded payload, or anywhere in
    a datagram that does not decode. *)
Definition stamp_of (raw : bytes) : option (Z * Z) :=
  match Decode raw with
  | Some f => Get (f_payload f)
  | None => Scan raw
  end.

Definition sink_datagram (raw : bytes) (now : Z) (s : Sink) : Sink :=
  let s := s <| sk_rep ::= λ r, r <| rp_Datagrams ::= Z.add 1 |> |> in
  let s := if bool_decide (Decode raw = None) then s <| sk_rep ::= λ r, r <| rp_DecodeErr ::= Z.add 1 |> |> else s in
  match stamp_of raw with
  | None => s
  | Some (txNs, seq) =>
      let s := s <| sk_rep ::= λ r, r <| rp_Stamped ::= Z.add 1 |> |> in
      if bool_decide (seq ∈ sk_seen s) then s <| sk_rep ::= λ r, r <| rp_Dups ::= Z.add 1 |> |>
      else s <| sk_seen ::= union {[ seq ]} |>
             <| sk_lats ::= λ l, l ++ [s64 (u64 (now - txNs))] |>
             <| sk_probe ::= fmap (probe_record now (s64 (u64 (now - txNs)))) |>
  end.

Definition sink_tick (t : Tick) (s : Sink) : Sink :=
  match tk_recv t with None => s | Some (raw, now) => sink_datagram raw now s end.

(** The loop: it runs while [forever] or before the deadline; the result says
    whether it has stopped. *)
Fixpoint sink_loop (forever : bool) (deadline : Z) (ts : list Tick) (s : Sink) : bool * Sink :=
  match ts with
  | [] => (false, s)
  | t :: ts =>
      if forever || (tk_clock t <? deadline) then sink_loop forever deadline ts (sink_tick t s)
      else (true, s)
  end.

(** [rep.Unique = len(seen)], after the loop. *)
Definition sink_report (s : Sink) : report := (sk_rep s) <| rp_Unique := Z.of_nat (size (sk_seen s)) |>.
End Sink.

(** ** Percentiles *)

Section Percentiles.
Context `{ToolFloat}.

(** The sample at quantile [q] of a sorted, non-empty list: the index is
    truncated and clamped to the last sample.  [None] is an index out of
    range. *)
Definition quantile (v : list Z) (q : F64) : option Z :=
  let i := f_trunc (f_mul q (f_of_int (Zlen v))) in
  let i := if Zlen v <=? i then Zlen v - 1 else i in
  if i <? 0 then None else v !! Z.to_nat i.

(** The gauges the probe serves (seconds): 0.5, 0.95, 0.99, the maximum, the
    number of samples and the all-time count. *)
Definition probe_quantile (v : list Z) (q : F64) : option F64 :=
  match v with
  | [] => Some f_zero
  | _ => (λ x, f_div (f_of_int x) (f_lit (10 ^ 9) 1)) <$> quantile v q
  end.

Definition probe_metrics (p : probeState) : option (list F64 * F64 * Z * Z) :=
  let v := (snapshot p).1 in
  qs ← mapM (probe_quantile v) [f_lit 1 2; f_lit 95 100; f_lit 99 100];
  let maxS := match list.last v with Some x => f_div (f_of_int x) (f_lit (10 ^ 9) 1) | None => f_zero end in
  Some (qs, maxS, Zlen v, (snapshot p).2).

(** The latencies of the report (microseconds): 50, 95, 99, min and max. *)
Definition report_latencies (lats : list Z) : option (list F64) :=
  let v := sorted_copy lats in
  match list.head v, list.last v with
  | Some lo, Some hi =>
      let us x := f_div (f_of_int x) (f_lit 1000 1) in
      ps ← mapM (λ p, us <$> quantile v (f_div (f_of_int p) (f_lit 100 1))) [50; 95; 99];
      Some (ps ++ [us lo; us hi])
  | _, _ => Some (replicate 5 f_zero)
  end.
End Percentiles.

(** ** The kernel's group_source_req (Linux) *)

(** [binary.NativeEndian] is little-endian on the supported machines. *)
Definition AF_INET6 : Z := 10.

Definition sockaddr_storage (ip : bytes) : bytes :=
  let b := le_put 2 AF_INET6 ++ zeros 126 in
  take 8 b ++ take 16 (To16 ip ++ drop (8 + length (To16 ip)) b) ++ drop 24 b.

Definition groupSourceReq (ifindex : Z) (group source : bytes) : bytes :=
  (le_put 4 ifindex ++ zeros 4) ++ sockaddr_storage group ++ sockaddr_storage source.
