(* ===== verification/LatencySinkProps.v ===== *)
(** * Properties of the latency sink *)

From stdpp Require Import sorting.
From S2P Require Import Prelude Common Toy RateLimit Floats Latstamp LatencySink.

(** ** The window *)

Abbreviation by_time := (λ a b : Z * Z, a.1 ≤ b.1).

Definition record_all (rs : list (Z * Z)) (p : probeState) : probeState :=
  fold_left (λ p r, probe_record r.1 r.2 p) rs p.

(** What a window of length [w] keeps at time [now]. *)
Definition within (w now : Z) (rs : list (Z * Z)) : list (Z * Z) := filter (λ r, now - w ≤ r.1) rs.

Lemma record_all_snoc rs r p : record_all (rs ++ [r]) p = probe_record r.1 r.2 (record_all rs p).
Proof. unfold record_all. by rewrite fold_left_app. Qed.

Lemma filter_all {A} (P : A → Prop) `{∀ x, Decision (P x)} (l : list A) : Forall P l → filter P l = l.
Proof. induction 1; [done|]. rewrite filter_cons_True by done. by f_equal. Qed.

(** On records in time order, dropping the expired prefix is filtering. *)
Lemma drop_expired cut (rs : list (Z * Z)) :
  StronglySorted by_time rs → drop (expired cut rs.*1) rs = filter (λ r, cut ≤ r.1) rs.
Proof.
  induction 1 as [|r rs Hs IH Hr]; [done|]. rewrite fmap_cons. cbn [expired].
  destruct (Z.ltb_spec r.1 cut).
  - rewrite filter_cons_False by lia. exact IH.
  - rewrite filter_cons_True by done. cbn [drop]. f_equal. symmetry. apply filter_all.
    revert Hr. apply Forall_impl. cbn. lia.
Qed.

(** Arrival times and latencies stay aligned, as the records of a list. *)
Definition holds (p : probeState) (rs : list (Z * Z)) : Prop := ps_ts p = rs.*1 ∧ ps_lat p = rs.*2.

Lemma probe_record_holds p rs r :
  holds p rs → StronglySorted by_time (rs ++ [r]) →
  holds (probe_record r.1 r.2 p) (within (ps_window p) r.1 (rs ++ [r])).
Proof.
  intros [Ht Hl] Hs. unfold holds, probe_record, within. cbn. rewrite Ht, Hl.
  assert (E1 : rs.*1 ++ [r.1] = (rs ++ [r]).*1) by (by rewrite fmap_app).
  assert (E2 : rs.*2 ++ [r.2] = (rs ++ [r]).*2) by (by rewrite fmap_app).
  rewrite E1, E2, <-!fmap_drop, (drop_expired _ _ Hs). done.
Qed.

Lemma sorted_filter (P : Z * Z → Prop) `{∀ x, Decision (P x)} rs k :
  StronglySorted by_time (rs ++ k) → StronglySorted by_time (filter P rs ++ k).
Proof.
  induction rs as [|x rs IH]; [done|]. inversion 1 as [|? ? Hs Hx]; subst. rewrite filter_cons.
  case_decide; [|auto]. cbn. constructor; [auto|]. apply Forall_app in Hx as [Hr Hk].
  apply Forall_app. split; [|done]. rewrite list.Forall_forall in *. intros y [_ Hy]%list_elem_of_filter. auto.
Qed.

(** A window over a window that began earlier. *)
Lemma within_within w t now rs k :
  t ≤ now → within w now (within w t rs ++ k) = within w now (rs ++ k).
Proof.
  intros Ht. unfold within. rewrite !list.filter_app. f_equal.
  rewrite list_filter_filter. apply list_filter_iff. intros x. lia.
Qed.

Lemma window_holds w rs r :
  StronglySorted by_time (rs ++ [r]) →
  holds (record_all (rs ++ [r]) (newProbeState w)) (within w r.1 (rs ++ [r])) ∧
  ps_window (record_all (rs ++ [r]) (newProbeState w)) = w ∧
  ps_total (record_all (rs ++ [r]) (newProbeState w)) = u64 (Zlen (rs ++ [r])).
Proof.
  revert r. induction rs as [|r0 rs IH] using rev_ind; intros r Hs.
  - split_and!; [|done|done]. apply (probe_record_holds (newProbeState w) [] r); done.
  - destruct (IH r0 (StronglySorted_app_1_l _ _ _ Hs)) as (Hh & Hw & Ht). rewrite record_all_snoc.
    assert (Hle : r0.1 ≤ r.1).
    { apply (StronglySorted_app_1_elem_of by_time _ _ r0 r Hs); [apply elem_of_app; right|]; by apply list_elem_of_singleton. }
    split_and!.
    + rewrite <-(within_within w r0.1 r.1 (rs ++ [r0]) [r]) by done.
      rewrite <-Hw at 2. apply probe_record_holds; [done|]. by apply sorted_filter.
    + done.
    + cbn. rewrite Ht. unfold u64. rewrite Zplus_mod_idemp_l. by rewrite (Zlen_app (rs ++ [r0]) [r]).
Qed.

(** The probe's window holds exactly the samples of the last window.
    Whatever is recorded in time order, the window holds the records whose
    arrival is within the window of the latest one, oldest first and with
    their latencies aligned; the all-time count is the number of records; and
    a snapshot is those latencies in ascending order. *)
Theorem probe_window_exact w rs r :
  StronglySorted by_time (rs ++ [r]) →
  let p := record_all (rs ++ [r]) (newProbeState w) in
  let kept := filter (λ x, r.1 - w ≤ x.1) (rs ++ [r]) in
  ps_ts p = kept.*1 ∧ ps_lat p = kept.*2 ∧
  (snapshot p).2 = u64 (Zlen (rs ++ [r])) ∧ (snapshot p).1 ≡ₚ kept.*2 ∧ StronglySorted Z.le (snapshot p).1.
Proof.
  intros Hs p kept. destruct (window_holds w rs r Hs) as ([Ht Hl] & _ & Hn). split_and!; [done|done|done| |].
  - cbn. unfold sorted_copy. rewrite merge_sort_Permutation. fold p in Hl. by rewrite Hl.
  - cbn. apply StronglySorted_merge_sort; apply _.
Qed.

(** ** Percentiles *)

Section Quantiles.
Context {RT : GoRuntime} {RL : RuntimeLaws} {TF : ToolFloat} {TL : ToolFloatLaws}.

Lemma sorted_lookup (v : list Z) i j x y :
  StronglySorted Z.le v → v !! i = Some x → v !! j = Some y → (i < j)%nat → x ≤ y.
Proof.
  intros Hs Hx Hy Hij. rewrite <-(take_drop j v) in Hs.
  apply (StronglySorted_app_1_elem_of Z.le _ _ x y Hs).
  - apply (list_elem_of_lookup_2 _ i). by rewrite lookup_take_lt.
  - apply (list_elem_of_lookup_2 _ 0). by rewrite lookup_drop, Nat.add_0_r.
Qed.

Lemma quantile_index_ok n q :
  0 ≤ n ≤ 2 ^ 53 → f_le f_zero q = true → f_le q (f_lit 1 1) = true →
  0 ≤ f_trunc (f_mul q (f_of_int n)) ∧ f_int64 (f_mul q (f_of_int n)) = true.
Proof.
  intros Hn Hq0 Hq1. assert (Hi : f_int64 (f_mul q (f_of_int n)) = true).
  { eapply f_le_lt_trans; [apply f_mul_shrink|apply f_of_int_int64]; [by apply f_of_int_nonneg; lia|done|lia]. }
  split; [|done]. apply f_trunc_nonneg; [|done]. apply f_mul_nonneg; [done|]. apply f_of_int_nonneg. lia.
Qed.

Lemma quantile_in (v : list Z) q :
  v ≠ [] → Zlen v ≤ 2 ^ 53 → f_le f_zero q = true → f_le q (f_lit 1 1) = true →
  ∃ x, quantile v q = Some x ∧ x ∈ v.
Proof.
  intros Hv Hn Hq0 Hq1. pose proof (Zlen_nonneg v) as Hz.
  destruct (quantile_index_ok (Zlen v) q) as [Hi _]; [done..|]. unfold quantile. cbv zeta.
  set (i := f_trunc _) in *. assert (Hl : 0 < Zlen v) by (destruct v; [done|rewrite Zlen_cons; pose proof (Zlen_nonneg v); lia]).
  set (j := if Zlen v <=? i then Zlen v - 1 else i). assert (Hj : 0 ≤ j < Zlen v) by (unfold j; destruct (Z.leb_spec (Zlen v) i); lia).
  rewrite (proj2 (Z.ltb_ge j 0)) by lia. destruct (lookup_lt_is_Some_2 v (Z.to_nat j)) as [x Hx]; [unfold Zlen in Hj; lia|].
  exists x. split; [done|]. by eapply list_elem_of_lookup_2.
Qed.

Lemma quantile_mono (v : list Z) q r x y :
  StronglySorted Z.le v → Zlen v ≤ 2 ^ 53 →
  f_le f_zero q = true → f_le q r = true → f_le r (f_lit 1 1) = true →
  quantile v q = Some x → quantile v r = Some y → x ≤ y.
Proof.
  intros Hs Hn Hq0 Hqr Hq1. pose proof (Zlen_nonneg v) as Hz. unfold quantile. cbv zeta.
  assert (Hle : f_trunc (f_mul q (f_of_int (Zlen v))) ≤ f_trunc (f_mul r (f_of_int (Zlen v)))).
  { apply f_trunc_mono.
    - apply f_mul_nonneg; [done|]. by apply f_of_int_nonneg.
    - apply f_mul_mono; [by apply f_of_int_nonneg|done].
    - apply (quantile_index_ok (Zlen v) r); [done| |done]. by eapply f_le_trans. }
  set (i := f_trunc (f_mul q _)) in *. set (j := f_trunc (f_mul r _)) in *.
  set (i' := if Zlen v <=? i then Zlen v - 1 else i). set (j' := if Zlen v <=? j then Zlen v - 1 else j).
  assert (Hij : i' ≤ j') by (unfold i', j'; destruct (Z.leb_spec (Zlen v) i), (Z.leb_spec (Zlen v) j); lia).
  destruct (Z.ltb_spec i' 0); [done|]. destruct (Z.ltb_spec j' 0); [done|]. intros Hx Hy.
  destruct (decide (i' = j')) as [E|Hne]; [rewrite E in Hx; assert (x = y) by congruence; lia|].
  apply (sorted_lookup v (Z.to_nat i') (Z.to_nat j')); [done|done|done|lia].
Qed.

Definition micros (x : Z) : F64 := f_div (f_of_int x) (f_lit 1000 1).

Lemma last_elem (v : list Z) hi : list.last v = Some hi → hi ∈ v.
Proof. rewrite last_lookup. apply list_elem_of_lookup_2. Qed.

Lemma sorted_bounds v lo hi x :
  StronglySorted Z.le v → list.head v = Some lo → list.last v = Some hi → x ∈ v → lo ≤ x ≤ hi.
Proof.
  intros Hs Hlo Hhi [i Hi]%list_elem_of_lookup. rewrite head_lookup in Hlo. rewrite last_lookup in Hhi.
  apply lookup_lt_Some in Hi as Hlt. split.
  - destruct (decide (i = 0%nat)) as [->|]; [assert (lo = x) by congruence; lia|].
    apply (sorted_lookup v 0 i); [done|done|done|lia].
  - destruct (decide (i = pred (length v))) as [->|]; [assert (hi = x) by congruence; lia|].
    apply (sorted_lookup v i (pred (length v))); [done|done|done|lia].
Qed.

(** The reported percentiles are latencies that were measured, in
    order.  For any non-empty list of fewer than 2^53 latencies, no index is
    out of range, the 50th, 95th and 99th percentiles are samples of the list
    with p50 ≤ p95 ≤ p99, and every sample, those three included, lies between
    the reported minimum and maximum. *)
Theorem percentiles_ordered lats :
  lats ≠ [] → Zlen lats ≤ 2 ^ 53 →
  ∃ p50 p95 p99 lo hi,
    report_latencies lats = Some (micros <$> [p50; p95; p99; lo; hi]) ∧
    p50 ≤ p95 ≤ p99 ∧ Forall (λ x, x ∈ lats) [p50; p95; p99; lo; hi] ∧ Forall (λ x, lo ≤ x ≤ hi) lats.
Proof.
  intros Hne Hn. unfold report_latencies. cbv zeta. set (v := sorted_copy lats).
  assert (Hp : v ≡ₚ lats) by apply merge_sort_Permutation.
  assert (Hs : StronglySorted Z.le v) by (apply StronglySorted_merge_sort; apply _).
  assert (Hv : v ≠ []) by (intros E; rewrite E in Hp; by apply Permutation_nil in Hp).
  assert (Hl : Zlen v ≤ 2 ^ 53) by (unfold Zlen in *; by rewrite Hp).
  destruct (list.head v) as [lo|] eqn:Elo; [|by destruct v].
  destruct (list.last v) as [hi|] eqn:Ehi; [|by apply last_None in Ehi].
  assert (Hq : ∀ p, 0 ≤ p ≤ 100 → ∃ x, quantile v (f_div (f_of_int p) (f_lit 100 1)) = Some x ∧ x ∈ v).
  { intros p Hp100. destruct (f_unit p 100) as [_ [? ?]]; [lia|lia|]. by apply quantile_in. }
  assert (Hm : ∀ p q x y, 0 ≤ p → p ≤ q → q ≤ 100 → quantile v (f_div (f_of_int p) (f_lit 100 1)) = Some x →
    quantile v (f_div (f_of_int q) (f_lit 100 1)) = Some y → x ≤ y).
  { intros p q x y Hp0 Hpq Hq100. destruct (f_unit p 100) as [_ [? _]]; [lia|lia|]. destruct (f_unit q 100) as [_ [_ ?]]; [lia|lia|].
    apply quantile_mono; try done. apply f_div_mono; lia. }
  destruct (Hq 50) as (p50 & E50 & H50); [lia|]. destruct (Hq 95) as (p95 & E95 & H95); [lia|].
  destruct (Hq 99) as (p99 & E99 & H99); [lia|]. exists p50, p95, p99, lo, hi.
  cbn. rewrite E50, E95, E99. cbn. split_and!; [done|by eapply (Hm 50 95)|by eapply (Hm 95 99)| |].
  - assert (Hlo : lo ∈ v) by (destruct v; [done|]; injection Elo as <-; left).
    apply last_elem in Ehi as Hhi.
    assert (Hin : ∀ x, x ∈ v → x ∈ lats) by (intros x; by rewrite Hp). repeat constructor; by apply Hin.
  - rewrite <-Hp. apply list.Forall_forall. intros x Hx. by apply (sorted_bounds v).
Qed.
End Quantiles.

(** ** The receive loop *)

Section Accounting.
Context `{ShardCommon}.

Definition sink_all (ds : list (bytes * Z)) (s : Sink) : Sink :=
  fold_left (λ s d, sink_datagram d.1 d.2 s) ds s.

(** The ticks the loop takes before it stops. *)
Fixpoint before (forever : bool) (deadline : Z) (ts : list Tick) : list Tick :=
  match ts with
  | [] => []
  | t :: ts => if forever || (tk_clock t <? deadline) then t :: before forever deadline ts else []
  end.

(** A stamped datagram: send time, sequence number and arrival. *)
Definition stamped (ds : list (bytes * Z)) : list (Z * Z * Z) :=
  omap (λ d, (λ st, (st, d.2)) <$> stamp_of d.1) ds.

(** The first datagram of each sequence number. *)
Fixpoint firsts (seen : gset Z) (l : list (Z * Z * Z)) : list (Z * Z * Z) :=
  match l with
  | [] => []
  | x :: l => if bool_decide (x.1.2 ∈ seen) then firsts seen l else x :: firsts ({[ x.1.2 ]} ∪ seen) l
  end.

Definition latency (x : Z * Z * Z) : Z := s64 (u64 (x.2 - x.1.1)).

Definition seqs (l : list (Z * Z * Z)) : gset Z := list_to_set ((λ x, x.1.2) <$> l).

Lemma seqs_cons x l : seqs (x :: l) = {[ x.1.2 ]} ∪ seqs l.
Proof. done. Qed.

Lemma firsts_size seen l :
  Z.of_nat (size (seen ∪ seqs l)) = Z.of_nat (size seen) + Zlen (firsts seen l).
Proof.
  revert seen. induction l as [|x l IH]; intros seen; cbn [firsts].
  { rewrite Zlen_nil. unfold seqs. cbn. rewrite (right_id_L ∅ _). lia. }
  rewrite seqs_cons. case_bool_decide as Hx.
  - rewrite <-IH. do 2 f_equal. set_solver.
  - rewrite Zlen_cons. pose proof (IH ({[x.1.2]} ∪ seen)) as E. rewrite (size_union {[x.1.2]} seen) in E by set_solver.
    rewrite size_singleton in E. replace (seen ∪ ({[x.1.2]} ∪ seqs l)) with ({[x.1.2]} ∪ seen ∪ seqs l) by set_solver. lia.
Qed.

Lemma firsts_app seen l k : firsts seen (l ++ k) = firsts seen l ++ firsts (seen ∪ seqs l) k.
Proof.
  revert seen. induction l as [|x l IH]; intros seen; cbn [firsts app].
  { f_equal. unfold seqs. cbn. set_solver. }
  rewrite seqs_cons. case_bool_decide as Hx; rewrite IH; [|cbn [app]]; do 2 f_equal; [set_solver|]. f_equal. set_solver.
Qed.

(** The state after some datagrams, from the one before. *)
Record accounts (s s' : Sink) (ds : list (bytes * Z)) : Prop := mkAccounts {
  ac_datagrams : rp_Datagrams (sk_rep s') = rp_Datagrams (sk_rep s) + Zlen ds;
  ac_errors : rp_DecodeErr (sk_rep s') = rp_DecodeErr (sk_rep s) + Zlen (filter (λ d, Decode d.1 = None) ds);
  ac_stamped : rp_Stamped (sk_rep s') = rp_Stamped (sk_rep s) + Zlen (stamped ds);
  ac_dups : rp_Dups (sk_rep s') = rp_Dups (sk_rep s) + Zlen (stamped ds) - Zlen (firsts (sk_seen s) (stamped ds));
  ac_seen : sk_seen s' = sk_seen s ∪ seqs (stamped ds);
  ac_lats : sk_lats s' = sk_lats s ++ (latency <$> firsts (sk_seen s) (stamped ds));
  ac_probe : sk_probe s' = record_all ((λ x, (x.2, latency x)) <$> firsts (sk_seen s) (stamped ds)) <$> sk_probe s }.

Lemma accounts_refl s : accounts s s [].
Proof.
  split; cbn; rewrite ?Zlen_nil; try lia; [unfold seqs; set_solver|by rewrite app_nil_r|].
  by destruct (sk_probe s).
Qed.

Lemma accounts_trans s1 s2 s3 ds ds' : accounts s1 s2 ds → accounts s2 s3 ds' → accounts s1 s3 (ds ++ ds').
Proof.
  intros [A1 A2 A3 A4 A5 A6 A7] [B1 B2 B3 B4 B5 B6 B7].
  assert (Es : stamped (ds ++ ds') = stamped ds ++ stamped ds') by apply omap_app.
  assert (Eq : seqs (stamped ds ++ stamped ds') = seqs (stamped ds) ∪ seqs (stamped ds')).
  { unfold seqs. by rewrite fmap_app, list_to_set_app_L. }
  split; rewrite ?Es, ?Eq, ?firsts_app, ?list.filter_app, ?Zlen_app, <-?A5; try lia.
  - rewrite B5, A5. set_solver.
  - rewrite B6, A6, fmap_app. by rewrite app_assoc.
  - rewrite B7, A7, fmap_app. destruct (sk_probe s1); cbn; [|done]. unfold record_all. by rewrite fold_left_app.
Qed.

Lemma sink_datagram_accounts raw now s : accounts s (sink_datagram raw now s) [(raw, now)].
Proof.
  unfold sink_datagram. cbv zeta.
  assert (Es : stamped [(raw, now)] = match stamp_of raw with Some st => [(st, now)] | None => [] end).
  { unfold stamped. cbn. by destruct (stamp_of raw). }
  assert (Ef : Zlen (filter (λ d : bytes * Z, Decode d.1 = None) [(raw, now)]) = if bool_decide (Decode raw = None) then 1 else 0).
  { rewrite filter_cons, filter_nil. cbn. by case_bool_decide; case_decide. }
  assert (E1 : Zlen [(raw, now)] = 1) by done.
  split; rewrite ?Es, ?Ef, ?E1; clear Es Ef E1; destruct (stamp_of raw) as [[tx seq]|]; cbn [firsts fst snd];
    destruct (bool_decide (Decode raw = None)); cbn; try case_bool_decide; cbn; rewrite ?Zlen_nil, ?Zlen_cons, ?Zlen_nil; try lia.
  all: unfold seqs; cbn; rewrite ?app_nil_r; try done; try set_solver.
  all: by destruct (sk_probe s).
Qed.

Lemma sink_all_accounts ds s : accounts s (sink_all ds s) ds.
Proof.
  revert s. induction ds as [|[raw now] ds IH]; intros s; [apply accounts_refl|].
  apply (accounts_trans _ (sink_datagram raw now s) _ [(raw, now)]); [apply sink_datagram_accounts|apply IH].
Qed.

Lemma sink_loop_before forever deadline ts s :
  sink_loop forever deadline ts s =
  (negb forever && existsb (λ t, deadline <=? tk_clock t) ts, sink_all (omap tk_recv (before forever deadline ts)) s).
Proof.
  revert s. induction ts as [|t ts IH]; intros s; cbn [sink_loop before existsb].
  { by rewrite andb_false_r. }
  destruct (forever || (tk_clock t <? deadline)) eqn:E.
  - rewrite IH. f_equal.
    + destruct forever; [done|]. cbn [orb negb andb] in *. rewrite (proj2 (Z.leb_gt _ _)) by lia. done.
    + unfold sink_tick. cbn. destruct (tk_recv t) as [[raw now]|]; done.
  - apply orb_false_iff in E as [-> E]. cbn. rewrite (proj2 (Z.leb_le _ _)) by lia. done.
Qed.

(** The sink's report accounts for every datagram.  Whatever arrives,
    the loop stops at the first test at or after the deadline (never, when it
    runs forever), having counted each datagram received before it; the
    decode errors are the datagrams that do not decode; the stamped ones
    split into the distinct sequence numbers and the duplicates; there is one
    latency per distinct sequence number, that of its first datagram, in
    order of arrival; and the probe has recorded exactly those. *)
Theorem sink_accounts forever deadline ts probe :
  let ds := omap tk_recv (before forever deadline ts) in
  let r := sink_loop forever deadline ts (newSink probe) in
  let rep := sink_report r.2 in
  r.1 = negb forever && existsb (λ t, deadline <=? tk_clock t) ts ∧
  rp_Datagrams rep = Zlen ds ∧
  rp_DecodeErr rep = Zlen (filter (λ d, Decode d.1 = None) ds) ∧
  rp_Stamped rep = Zlen (stamped ds) ∧ rp_Stamped rep = rp_Unique rep + rp_Dups rep ∧
  rp_Unique rep = Zlen (firsts ∅ (stamped ds)) ∧
  sk_seen r.2 = list_to_set ((λ x, x.1.2) <$> stamped ds) ∧
  sk_lats r.2 = latency <$> firsts ∅ (stamped ds) ∧
  sk_probe r.2 = record_all ((λ x, (x.2, latency x)) <$> firsts ∅ (stamped ds)) <$> probe.
Proof.
  intros ds r rep. subst rep r. rewrite sink_loop_before. fold ds. cbn [fst snd].
  destruct (sink_all_accounts ds (newSink probe)) as [E1 E2 E3 E4 E5 E6 E7]. cbn in E1, E2, E3, E4, E5, E6, E7.
  unfold sink_report. cbn. pose proof (firsts_size ∅ (stamped ds)) as Hf. rewrite (left_id_L ∅ _), size_empty in Hf.
  rewrite (left_id_L ∅ _) in E5. rewrite E5. split_and!; try done; lia.
Qed.
End Accounting.

(** ** Witnesses *)

Lemma probe_window_exact_witness :
  ps_lat (record_all [(10, 7); (25, 3); (30, 5)] (newProbeState 10)) = [3; 5] ∧
  (snapshot (record_all [(10, 7); (25, 3); (30, 5)] (newProbeState 10))).2 = 3.
Proof.
  destruct (probe_window_exact 10 [(10, 7); (25, 3)] (30, 5)) as (_ & Hl & Ht & _).
  - repeat constructor; cbn; lia.
  - split; [exact Hl|exact Ht].
Defined.

Lemma percentiles_ordered_witness :
  ∃ p50 p95 p99 lo hi, p50 ≤ p95 ≤ p99 ∧ Forall (λ x, x ∈ [40; 10; 30; 20]) [p50; p95; p99; lo; hi] ∧
    Forall (λ x, lo ≤ x ≤ hi) [40; 10; 30; 20].
Proof.
  destruct (@percentiles_ordered exactRuntime exactLaws exactToolFloat exactToolFloatLaws [40; 10; 30; 20])
    as (p50 & p95 & p99 & lo & hi & _ & Hp & Hin & Hb).
  - discriminate.
  - by vm_compute.
  - exists p50, p95, p99, lo, hi. split_and!; [apply Hp|apply Hp|exact Hin|exact Hb].
Defined.
