(* ===== verification/PerfText.v ===== *)
(** * Text handling of the load tool (cmd/perf-test)

    What perf-test reads back: the receivers' output counted line by line as
    it arrives in chunks, the proxy's metrics in Prometheus text format, the
    group label of a flow series and the address shown for it, interface
    counters from [ip -s link], and the per-group counts of a capture.
    Strings are read as ASCII. *)

From Stdlib Require Import Ascii.
From stdpp Require Import fin_maps.
From S2P Require Import Prelude Common RateLimit Floats Config Recorder.
#[local] Open Scope Z_scope.

(** ** Lines *)

Definition newline : ascii := ascii_of_nat 10.
Definition quote : ascii := ascii_of_nat 34.

(** [strings.Split(s, "\n")], as the complete lines and the last piece. *)
Fixpoint split_lines (s : string) : list string * string :=
  match s with
  | EmptyString => ([], EmptyString)
  | String a s =>
      let (ls, rest) := split_lines s in
      if Ascii.eqb a newline then (EmptyString :: ls, rest)
      else match ls with
           | [] => ([], String a rest)
           | l :: ls => (String a l :: ls, rest)
           end
  end.

(** [strings.Split(s, "\n")]. *)
Definition Lines (s : string) : list string := let r := split_lines s in r.1 ++ [r.2].

(** [strings.Fields]. *)
Fixpoint fields_from (cur : string) (s : string) : list string :=
  let flush := if String.eqb cur "" then [] else [string_rev "" cur] in
  match s with
  | EmptyString => flush
  | String a s => if is_space a then flush ++ fields_from "" s else fields_from (String a cur) s
  end.

Definition Fields (s : string) : list string := fields_from "" s.

(** ** Counting received frames *)

(** [recvProc]: what was written so far, the unfinished line, the count. *)
Record recvProc := mkRecvProc { rv_out : string; rv_partial : string; rv_count : Z }.

Definition counts_as_frame (line : string) : bool := String.prefix "recv " (TrimSpace line).

Definition count_frames (lines : list string) : Z := Zlen (filter (λ l, counts_as_frame l = true) lines).

(** [recvWriter.Write]. *)
Definition recvWriter_Write (p : string) (rp : recvProc) : recvProc :=
  let r := split_lines (rv_partial rp +:+ p) in
  mkRecvProc (rv_out rp +:+ p) r.2 (rv_count rp + count_frames r.1).

(** ** Metrics *)

Definition is_alpha (a : ascii) : bool :=
  let n := nat_of_ascii a in ((65 <=? n) && (n <=? 90) || (97 <=? n) && (n <=? 122))%nat.
Definition is_digit (a : ascii) : bool := let n := nat_of_ascii a in ((48 <=? n) && (n <=? 57))%nat.
Definition is_name_start (a : ascii) : bool := is_alpha a || Ascii.eqb a "_" || Ascii.eqb a ":".
Definition is_name_char (a : ascii) : bool := is_name_start a || is_digit a.
Definition is_number_char (a : ascii) : bool :=
  is_digit a || Ascii.eqb a "e" || Ascii.eqb a "E" || Ascii.eqb a "." || Ascii.eqb a "+" || Ascii.eqb a "-".

(** The regular expression class \s. *)
Definition is_re_space (a : ascii) : bool :=
  let n := nat_of_ascii a in ((n =? 9) || (n =? 10) || (n =? 12) || (n =? 13) || (n =? 32))%nat.

(** The longest prefix of characters of a class, and the rest. *)
Fixpoint span (c : ascii → bool) (s : string) : string * string :=
  match s with
  | EmptyString => (EmptyString, EmptyString)
  | String a s' => if c a then let r := span c s' in (String a r.1, r.2) else (EmptyString, s)
  end.

(** [({[^}]*})?]: the labels with their braces; an unclosed brace matches
    nothing. *)
Definition match_labels (s : string) : string * string :=
  match s with
  | String a s' =>
      if Ascii.eqb a "{" then
        let r := span (λ b, negb (Ascii.eqb b "}")) s' in
        match r.2 with
        | String b rest => (String a (r.1 +:+ String b EmptyString), rest)
        | EmptyString => (EmptyString, s)
        end
      else (EmptyString, s)
  | EmptyString => (EmptyString, s)
  end.

(** [lineRe]: name, labels and number of a metric line.  The classes that
    follow one another are disjoint, so the greedy match is the only one. *)
Definition match_line (line : string) : option (string * string * string) :=
  match line with
  | String a _ =>
      if is_name_start a then
        let n := span is_name_char line in
        let l := match_labels n.2 in
        let sp := span is_re_space l.2 in
        let v := span is_number_char sp.2 in
        if String.eqb sp.1 "" || String.eqb v.1 "" then None else Some (n.1, l.1, v.1)
      else None
  | EmptyString => None
  end.

Section Metrics.
Context `{GoRuntime} (ParseF64 : string → option F64).

Record metricsSnapshot := mkSnapshot {
  ms_Counters : gmap string F64; ms_Labeled : gmap string (gmap string F64) }.

Definition simpleMetrics : list string :=
  ["bsp_packets_received_total"; "bsp_packets_forwarded_total"; "bsp_packets_dropped_total";
   "bsp_bytes_received_total"; "bsp_bytes_forwarded_total"; "bsp_egress_errors_total";
   "bsp_ingress_errors_total"; "bsp_active_groups"].

Definition labeledMetrics : list string := ["bsp_flow_packets_total"; "bsp_flow_bytes_total"].

(** [m[k] += v] on a map of numbers. *)
Definition add_at (k : string) (v : F64) (m : gmap string F64) : gmap string F64 :=
  <[k := f_add (default f_zero (m !! k)) v]> m.

Definition add_series (name labels : string) (v : F64) (snap : metricsSnapshot) : metricsSnapshot :=
  mkSnapshot
    (if bool_decide (name ∈ simpleMetrics) then add_at name v (ms_Counters snap) else ms_Counters snap)
    (if bool_decide (name ∈ labeledMetrics) && negb (String.eqb labels "")
     then <[name := add_at labels v (default ∅ (ms_Labeled snap !! name))]> (ms_Labeled snap)
     else ms_Labeled snap).

Definition scrape_line (line : string) (snap : metricsSnapshot) : metricsSnapshot :=
  if String.prefix "#" line then snap
  else match match_line line with
       | None => snap
       | Some (name, labels, num) =>
           match ParseF64 num with None => snap | Some v => add_series name labels v snap end
       end.

(** The lines of a body, as [bufio.Scanner] yields them (a final empty piece
    is no line; a trailing carriage return is dropped). *)
Fixpoint drop_cr (s : string) : string :=
  match s with
  | EmptyString => EmptyString
  | String a EmptyString => if (nat_of_ascii a =? 13)%nat then EmptyString else s
  | String a s => String a (drop_cr s)
  end.

Definition scan_lines (body : string) : list string :=
  let r := split_lines body in drop_cr <$> (r.1 ++ if String.eqb r.2 "" then [] else [r.2]).

(** [scrapeMetrics]: [None] is a failed request or a status that is not 200. *)
Definition scrapeMetrics (response : option (Z * string)) : option metricsSnapshot :=
  '(status, body) ← response;
  if status =? 200 then Some (fold_left (λ snap l, scrape_line l snap) (scan_lines body) (mkSnapshot ∅ ∅)) else None.

Definition metricsDelta (before after : metricsSnapshot) : gmap string F64 :=
  map_imap (λ k v, Some (f_sub v (default f_zero (ms_Counters before !! k)))) (ms_Counters after).

Definition flowDelta (before after : metricsSnapshot) (metric : string) : gmap string F64 :=
  match ms_Labeled after !! metric with
  | None => ∅
  | Some afterMap =>
      match ms_Labeled before !! metric with
      | None => afterMap
      | Some beforeMap => map_imap (λ k v, Some (f_sub v (default f_zero (beforeMap !! k)))) afterMap
      end
  end.
End Metrics.

(** ** Group labels *)

(** The group label, a non-empty quoted value, at the head of a string. *)
Definition match_group (s : string) : option string :=
  if String.prefix ("group=" +:+ String quote EmptyString) s then
    let r := span (λ b, negb (Ascii.eqb b quote)) (String.substring 7 (String.length s - 7) s) in
    match r.2 with
    | String _ _ => if String.eqb r.1 "" then None else Some r.1
    | EmptyString => None
    end
  else None.

(** The leftmost match. *)
Fixpoint find_group (s : string) : option string :=
  match match_group s with
  | Some g => Some g
  | None => match s with EmptyString => None | String _ s => find_group s end
  end.

Definition extractGroupFromLabels (labels : string) : string := default labels (find_group labels).

Definition groupIndexToAddr (groupHex : string) : string :=
  match ParseUint groupHex 16 32 with
  | None => "ff05::" +:+ groupHex
  | Some idx => "ff05::" +:+ hex idx
  end.

(** ** Interface counters *)

Record ifaceStats := mkIfaceStats {
  RXPackets : Z; RXBytes : Z; RXErrors : Z; RXDropped : Z; TXPackets : Z; TXBytes : Z; TXErrors : Z; TXDropped : Z }.

#[export] Instance eta_ifaceStats : EtaExpand ifaceStats := {| eta_of := λ x,
  mkIfaceStats (RXPackets x) (RXBytes x) (RXErrors x) (RXDropped x) (TXPackets x) (TXBytes x) (TXErrors x) (TXDropped x) |}.

(** [strconv.ParseUint(s, 10, 64)] with its error ignored: zero for a syntax
    error, the largest value when out of range. *)
Definition parse_u64 (s : string) : Z :=
  match s with
  | EmptyString => 0
  | _ => match digits 10 0 s with Some n => Z.min n (2 ^ 64 - 1) | None => 0 end
  end.

Definition set_rx (fs : list string) (s : ifaceStats) : ifaceStats :=
  match fs with
  | b :: p :: e :: d :: _ =>
      s <| RXBytes := parse_u64 b |> <| RXPackets := parse_u64 p |> <| RXErrors := parse_u64 e |> <| RXDropped := parse_u64 d |>
  | _ => s
  end.

Definition set_tx (fs : list string) (s : ifaceStats) : ifaceStats :=
  match fs with
  | b :: p :: e :: d :: _ =>
      s <| TXBytes := parse_u64 b |> <| TXPackets := parse_u64 p |> <| TXErrors := parse_u64 e |> <| TXDropped := parse_u64 d |>
  | _ => s
  end.

Fixpoint parse_stat_lines (lines : list string) (s : ifaceStats) : ifaceStats :=
  match lines with
  | [] => s
  | line :: lines =>
      let trimmed := TrimSpace line in
      let next f s := match lines with l :: _ => f (Fields (TrimSpace l)) s | [] => s end in
      let s := if String.prefix "RX:" trimmed then next set_rx s else s in
      let s := if String.prefix "TX:" trimmed then next set_tx s else s in
      parse_stat_lines lines s
  end.

Definition parseIfaceStats (output : string) : ifaceStats :=
  parse_stat_lines (Lines output) (mkIfaceStats 0 0 0 0 0 0 0 0).

Definition saturatingSub (a b : Z) : Z := if a <? b then 0 else a - b.

Definition ifaceStatsDelta (before after : ifaceStats) : ifaceStats :=
  mkIfaceStats (saturatingSub (RXPackets after) (RXPackets before)) (saturatingSub (RXBytes after) (RXBytes before))
    (saturatingSub (RXErrors after) (RXErrors before)) (saturatingSub (RXDropped after) (RXDropped before))
    (saturatingSub (TXPackets after) (TXPackets before)) (saturatingSub (TXBytes after) (TXBytes before))
    (saturatingSub (TXErrors after) (TXErrors before)) (saturatingSub (TXDropped after) (TXDropped before)).

(** ** Capture counts *)

(** [tsharkGroupCounts]: the lines of the output that name an address,
    counted by address; [None] when the command failed. *)
Definition count_at (k : string) (m : gmap string Z) : gmap string Z := <[k := default 0 (m !! k) + 1]> m.

Definition tsharkGroupCounts (output : option string) : option (gmap string Z) :=
  (λ out, fold_left (λ m l, let addr := TrimSpace l in if String.eqb addr "" then m else count_at addr m) (scan_lines out) ∅) <$> output.

Definition sumCounts (m : gmap string Z) : Z := map_fold (λ _ v acc, acc + v) 0 m.

(** ** Receivers *)

Definition parse_receivers (flag : string) : list string := nonblank (Split flag).

Definition knownGroupMembership (vm : string) : option (list string) :=
  if String.eqb vm "recv1" then Some ["ff05::"; "ff05::1"; "ff05::2"; "ff05::3"]
  else if String.eqb vm "recv2" then Some ["ff05::2"]
  else if String.eqb vm "recv3" then Some ["ff05::1"; "ff05::3"]
  else None.

Definition groupsForReceiver (vm : string) : list string := default [] (knownGroupMembership vm).

(** [checkHealth]: the two endpoints in order; each answers with a status, or
    fails. *)
Definition checkHealth (get : string → option Z) : bool :=
  forallb (λ ep, bool_decide (get ep = Some 200)) ["/healthz"; "/readyz"].
