(* ===== verification/PerfTextProps.v ===== *)
(** * Properties of the load tool's text handling *)

From Stdlib Require Import Ascii.
From stdpp Require Import fin_maps.
From S2P Require Import Prelude Common RateLimit Floats Config Recorder PerfText.
#[local] Open Scope Z_scope.

(** ** Strings *)

Lemma string_app_cons a s t : String a s +:+ t = String a (s +:+ t).
Proof. done. Qed.

Lemma string_app_nil_r s : s +:+ "" = s.
Proof. induction s as [|a s IH]; [done|]. by rewrite string_app_cons, IH. Qed.

Lemma string_app_assoc s t u : (s +:+ t) +:+ u = s +:+ (t +:+ u).
Proof. induction s as [|a s IH]; [done|]. by rewrite !string_app_cons, IH. Qed.

(** Every character of a string satisfies [c]. *)
Fixpoint all_chars (c : ascii → bool) (s : string) : bool :=
  match s with EmptyString => true | String a s => c a && all_chars c s end.

(** A string that does not begin with a character of [c]. *)
Definition starts_outside (c : ascii → bool) (s : string) : Prop :=
  match s with EmptyString => True | String a _ => c a = false end.

Lemma span_app c s t : all_chars c s = true → starts_outside c t → span c (s +:+ t) = (s, t).
Proof.
  induction s as [|a s IH]; intros Hs Ht.
  - destruct t as [|b t]; [done|]. change ("" +:+ String b t) with (String b t). cbn [starts_outside span] in *. by rewrite Ht.
  - apply andb_true_iff in Hs as [Ha Hs]. rewrite string_app_cons. cbn [span]. rewrite Ha, (IH Hs Ht). done.
Qed.

Lemma all_chars_app c s t : all_chars c (s +:+ t) = all_chars c s && all_chars c t.
Proof. induction s as [|a s IH]; [done|]. rewrite string_app_cons. cbn [all_chars]. by rewrite IH, andb_assoc. Qed.

Lemma all_chars_impl (c d : ascii → bool) s : (∀ a, c a = true → d a = true) → all_chars c s = true → all_chars d s = true.
Proof. intros Hcd. induction s as [|a s IH]; cbn; [done|]. rewrite !andb_true_iff. naive_solver. Qed.

(** ** Lines across chunks *)

Lemma split_lines_app s t :
  split_lines (s +:+ t) =
  ((split_lines s).1 ++ (split_lines ((split_lines s).2 +:+ t)).1, (split_lines ((split_lines s).2 +:+ t)).2).
Proof.
  induction s as [|a s IH].
  { change (split_lines t = ([] ++ (split_lines t).1, (split_lines t).2)). by destruct (split_lines t). }
  rewrite string_app_cons. cbn [split_lines]. rewrite IH.
  destruct (split_lines s) as [ls rest] eqn:E. cbn [fst snd]. destruct (Ascii.eqb a newline) eqn:En; [done|].
  destruct ls as [|l ls]; [|done]. cbn [fst snd app]. rewrite string_app_cons. cbn [split_lines].
  destruct (split_lines (rest +:+ t)) as [ls' rest']. cbn [fst snd].
  rewrite En. by destruct ls'.
Qed.

Lemma count_frames_app l k : count_frames (l ++ k) = count_frames l + count_frames k.
Proof. unfold count_frames. by rewrite list.filter_app, Zlen_app. Qed.

Definition write_all (chunks : list string) (rp : recvProc) : recvProc :=
  fold_left (λ rp p, recvWriter_Write p rp) chunks rp.

Definition concat_all (chunks : list string) : string := foldr String.append "" chunks.

(** The reader's state after a stream was read. *)
Definition read_state (s : string) : recvProc :=
  mkRecvProc s (split_lines s).2 (count_frames (split_lines s).1).

Lemma recvWriter_Write_state s p : recvWriter_Write p (read_state s) = read_state (s +:+ p).
Proof.
  unfold recvWriter_Write, read_state. cbn [rv_partial rv_out rv_count].
  rewrite (split_lines_app s p). cbn [fst snd]. by rewrite count_frames_app.
Qed.

Lemma write_all_state s chunks : write_all chunks (read_state s) = read_state (s +:+ concat_all chunks).
Proof.
  revert s. induction chunks as [|p chunks IH]; intros s.
  - cbn [concat_all foldr]. by rewrite string_app_nil_r.
  - change (write_all chunks (recvWriter_Write p (read_state s)) = read_state (s +:+ (p +:+ concat_all chunks))).
    by rewrite recvWriter_Write_state, IH, string_app_assoc.
Qed.

(** Counting does not depend on how the output is cut up.  However a
    receiver's output arrives in chunks, after the last one the count is the
    number of complete lines of the whole output that report a frame, the
    carried piece is what follows its last line break, and nothing is lost
    or counted twice at a chunk boundary. *)
Theorem recv_count_chunk_invariant chunks :
  let out := concat_all chunks in
  let rp := write_all chunks (mkRecvProc "" "" 0) in
  rv_out rp = out ∧ rv_count rp = count_frames (split_lines out).1 ∧ rv_partial rp = (split_lines out).2.
Proof. intros out rp. unfold rp, out. change (mkRecvProc "" "" 0) with (read_state ""). rewrite write_all_state. done. Qed.

(** ** Reading an exposition *)

(** A line of the text format: a comment, or a series with its labels (with
    braces, or none) and value. *)
Inductive Item := Comment (text : string) | Series (name labels num : string).

Definition print_item (i : Item) : string :=
  match i with
  | Comment text => "#" +:+ text
  | Series name labels num => name +:+ labels +:+ " " +:+ num
  end.

Definition no_newline (a : ascii) : bool := negb (Ascii.eqb a newline).
Definition no_cr (a : ascii) : bool := negb (nat_of_ascii a =? 13)%nat.

Definition name_ok (name : string) : bool :=
  match name with String a _ => is_name_start a | EmptyString => false end && all_chars is_name_char name.

(** Label values with no closing brace in them, on one line. *)
Definition labels_ok (labels : string) : Prop :=
  labels = "" ∨ ∃ body, labels = String "{" (body +:+ "}") ∧ all_chars (λ a, negb (Ascii.eqb a "}") && no_newline a) body = true.

Definition num_ok (num : string) : bool := negb (String.eqb num "") && all_chars is_number_char num.

Definition item_ok (i : Item) : Prop :=
  match i with
  | Comment text => all_chars (λ a, no_newline a && no_cr a) text = true
  | Series name labels num => name_ok name = true ∧ labels_ok labels ∧ num_ok num = true
  end.

(** A property of every character, by cases on its bits. *)
Ltac by_char := intros [[] [] [] [] [] [] [] []]; vm_compute; try done.

Lemma name_char_class a : is_name_char a = true → no_newline a = true ∧ is_re_space a = false ∧ Ascii.eqb a "{" = false.
Proof. revert a. by_char. Qed.

Lemma number_char_class a : is_number_char a = true → no_newline a = true ∧ no_cr a = true ∧ is_re_space a = false.
Proof. revert a. by_char. Qed.

Lemma match_labels_print labels rest :
  labels_ok labels → match_labels (labels +:+ String " " rest) = (labels, String " " rest).
Proof.
  intros [->|(body & -> & Hb)]; [done|]. rewrite string_app_cons, string_app_assoc.
  unfold match_labels. rewrite Ascii.eqb_refl. cbv zeta. rewrite span_app; [done| |done]. revert Hb. apply all_chars_impl. intros a. rewrite andb_true_iff. tauto.
Qed.

Lemma match_line_print name labels num :
  name_ok name = true → labels_ok labels → num_ok num = true →
  match_line (name +:+ labels +:+ " " +:+ num) = Some (name, labels, num).
Proof.
  intros Hn Hl Hv. apply andb_true_iff in Hn as [Hs Hc]. apply andb_true_iff in Hv as [Hv Hd].
  change (" " +:+ num) with (String " " num).
  assert (E1 : span is_name_char (name +:+ (labels +:+ String " " num)) = (name, labels +:+ String " " num)).
  { apply span_app; [done|]. destruct Hl as [->|(body & -> & _)]; done. }
  assert (E2 : span is_re_space (String " " num) = (" ", num)).
  { apply (span_app is_re_space " " num); [done|]. destruct num as [|a num]; [done|]. cbn in Hd.
    apply andb_true_iff in Hd as [Ha _]. by apply number_char_class in Ha as (_ & _ & ?). }
  assert (E3 : span is_number_char num = (num, "")).
  { rewrite <-(string_app_nil_r num) at 1. by apply span_app. }
  unfold match_line. destruct name as [|a name]; [done|]. rewrite string_app_cons, Hs. cbv zeta.
  rewrite <-string_app_cons, E1. cbn [fst snd]. rewrite (match_labels_print labels num Hl). cbn [fst snd]. rewrite E2. cbn [fst snd].
  rewrite E3. cbn [fst snd]. apply negb_true_iff in Hv. rewrite Hv. done.
Qed.

Lemma split_lines_line l s :
  all_chars no_newline l = true →
  split_lines (l +:+ String newline s) = (l :: (split_lines s).1, (split_lines s).2).
Proof.
  induction l as [|a l IH]; intros Hl.
  - change ("" +:+ String newline s) with (String newline s). cbn [split_lines]. by destruct (split_lines s).
  - apply andb_true_iff in Hl as [Ha Hl]. rewrite string_app_cons. cbn [split_lines]. rewrite (IH Hl).
    apply negb_true_iff in Ha. by rewrite Ha.
Qed.

Lemma drop_cr_app s t : t ≠ "" → drop_cr (s +:+ t) = s +:+ drop_cr t.
Proof.
  intros Ht. induction s as [|a s IH]; [done|]. rewrite !string_app_cons, <-IH.
  destruct (s +:+ t) eqn:E; [|done]. by destruct s; [|discriminate E].
Qed.

Lemma drop_cr_id s : all_chars no_cr s = true → drop_cr s = s.
Proof.
  induction s as [|a s IH]; [done|]. intros Hs. apply andb_true_iff in Hs as [Ha Hs]. cbn [drop_cr].
  destruct s as [|b s]; [by apply negb_true_iff in Ha; rewrite Ha|]. by rewrite (IH Hs).
Qed.

Definition expose (items : list Item) : string :=
  foldr (λ i s, print_item i +:+ String newline s) "" items.

Lemma print_item_line i : item_ok i → all_chars no_newline (print_item i) = true ∧ drop_cr (print_item i) = print_item i.
Proof.
  destruct i as [text|name labels num]; cbn [item_ok print_item].
  - intros Ht. assert (H1 : all_chars no_newline text = true).
    { revert Ht. apply all_chars_impl. intros a. rewrite andb_true_iff. tauto. }
    assert (H2 : all_chars no_cr text = true).
    { revert Ht. apply all_chars_impl. intros a. rewrite andb_true_iff. tauto. }
    split; [by rewrite all_chars_app, H1|]. apply drop_cr_id. by rewrite all_chars_app, H2.
  - intros (Hn & Hl & Hv). apply andb_true_iff in Hn as [_ Hn]. apply andb_true_iff in Hv as [Hne Hv].
    assert (Hv1 : all_chars no_newline num = true) by (revert Hv; apply all_chars_impl; intros a Ha; by apply number_char_class).
    assert (Hv2 : all_chars no_cr num = true) by (revert Hv; apply all_chars_impl; intros a Ha; by apply number_char_class).
    assert (Hn1 : all_chars no_newline name = true) by (revert Hn; apply all_chars_impl; intros a Ha; by apply name_char_class).
    assert (Hl1 : all_chars no_newline labels = true).
    { destruct Hl as [->|(body & -> & Hb)]; [done|]. change (all_chars no_newline (body +:+ "}") = true).
      rewrite all_chars_app. apply andb_true_iff. split; [|done]. revert Hb. apply all_chars_impl. intros a.
      rewrite andb_true_iff. tauto. }
    split; [by rewrite !all_chars_app, Hn1, Hl1, Hv1|].
    rewrite <-!string_app_assoc, drop_cr_app, (drop_cr_id num); [done|done|]. intros ->. done.
Qed.

Lemma scan_lines_expose items : Forall item_ok items → scan_lines (expose items) = print_item <$> items.
Proof.
  intros Hok. assert (E : split_lines (expose items) = (print_item <$> items, "")).
  { induction Hok as [|i items Hi Hok IH]; [done|]. cbn [expose foldr]. fold (expose items).
    rewrite split_lines_line by (by apply print_item_line). by rewrite IH. }
  unfold scan_lines. rewrite E. cbv zeta. cbn [fst snd]. rewrite String.eqb_refl, app_nil_r.
  clear E. induction Hok as [|i items Hi Hok IH]; [done|]. rewrite !fmap_cons, IH. f_equal. by apply print_item_line.
Qed.

Section Exposition.
Context `{GoRuntime} (ParseF64 : string → option F64).

(** What an item adds to a snapshot. *)
Definition add_item (snap : metricsSnapshot) (i : Item) : metricsSnapshot :=
  match i with
  | Comment _ => snap
  | Series name labels num => match ParseF64 num with Some v => add_series name labels v snap | None => snap end
  end.

Lemma scrape_line_item i snap : item_ok i → scrape_line ParseF64 (print_item i) snap = add_item snap i.
Proof.
  destruct i as [text|name labels num]; intros Hok; [by destruct text|]. destruct Hok as (Hn & Hl & Hv).
  unfold scrape_line. cbn [print_item]. rewrite match_line_print by done.
  assert (Hp : String.prefix "#" (name +:+ labels +:+ " " +:+ num) = false); [|by rewrite Hp].
  destruct name as [|a name]; [done|]. rewrite string_app_cons. apply andb_true_iff in Hn as [Ha _]. revert Ha.
  generalize (name +:+ (labels +:+ (" " +:+ num))). clear. intros s. revert a. by_char.
Qed.

(** Scraping reads an exposition exactly.  For every body in the text
    format, any sequence of comments and of series whose label values hold no
    closing brace, the snapshot is that of the series taken one after the
    other: each counter is the sum of its values over all label sets, each
    flow series is kept under its labels, and nothing else is recorded. *)
Theorem scrape_reads_exposition items :
  Forall item_ok items →
  scrapeMetrics ParseF64 (Some (200, expose items)) = Some (fold_left add_item items (mkSnapshot ∅ ∅)).
Proof.
  intros Hok. unfold scrapeMetrics. cbn [mbind option_bind]. rewrite Z.eqb_refl, (scan_lines_expose items Hok). f_equal.
  generalize (mkSnapshot ∅ ∅). induction Hok as [|i items Hi Hok IH]; intros snap; [done|].
  rewrite fmap_cons. cbn [fold_left]. by rewrite (scrape_line_item i snap Hi), IH.
Qed.
End Exposition.

(** ** Group labels *)

Lemma digits_app base acc s t : digits base acc (s +:+ t) = digits base acc s ≫= λ a, digits base a t.
Proof.
  revert acc. induction s as [|a s IH]; intros acc; [done|]. rewrite string_app_cons. cbn [digits].
  destruct (digit base a) as [d|]; [|done]. cbn [mbind option_bind]. apply IH.
Qed.

Lemma digits_hex_digit acc d : 0 ≤ d < 16 → digits 16 acc (hex_digit d) = Some (acc * 16 + d).
Proof.
  intros Hd. destruct d as [|p|p]; [done| |lia].
  do 4 (destruct p as [p|p|]; try lia; try reflexivity).
Qed.

Lemma digits_hex fuel n : 0 ≤ n < 16 ^ Z.of_nat (S fuel) → digits 16 0 (hex_digits (S fuel) n) = Some n.
Proof.
  revert n. induction fuel as [|fuel IH]; intros n Hn.
  - change (16 ^ Z.of_nat 1) with 16 in Hn. cbn [hex_digits]. rewrite (proj2 (Z.ltb_lt _ _)) by lia.
    change ("" +:+ hex_digit (n mod 16)) with (hex_digit (n mod 16)). rewrite digits_hex_digit by (apply Z.mod_pos_bound; lia).
    rewrite Z.mod_small by lia. done.
  - change (hex_digits (S (S fuel)) n) with ((if n <? 16 then "" else hex_digits (S fuel) (n / 16)) +:+ hex_digit (n mod 16)).
    rewrite digits_app. destruct (Z.ltb_spec n 16).
    + cbn [digits mbind option_bind]. rewrite digits_hex_digit by (apply Z.mod_pos_bound; lia). rewrite Z.mod_small by lia. done.
    + rewrite IH.
      * cbn [mbind option_bind]. rewrite digits_hex_digit by (apply Z.mod_pos_bound; lia). f_equal.
        rewrite (Z.div_mod n 16) at 3 by lia. lia.
      * split; [apply Z.div_pos; lia|]. apply Z.div_lt_upper_bound; [lia|].
        rewrite <-Z.pow_succ_r by lia. rewrite <-Nat2Z.inj_succ. lia.
Qed.

Lemma ParseUint_hex4 g : 0 ≤ g < 2 ^ 32 → ParseUint (hex4 g) 16 32 = Some g.
Proof.
  intros Hg. assert (E : digits 16 0 (hex4 g) = Some g).
  { unfold hex4, hex. rewrite digits_app. pose proof (digits_hex 15 g) as Hd.
    destruct (g <? 16), (g <? 256), (g <? 4096); cbn [digits mbind option_bind digit]; apply Hd; cbn; lia. }
  unfold ParseUint. destruct (hex4 g) eqn:Eh.
  - exfalso. assert (g = 0) as -> by (cbn in E; congruence). discriminate Eh.
  - rewrite E. cbn [mbind option_bind]. rewrite (proj2 (Z.ltb_lt _ _)) by lia. done.
Qed.

Lemma substring_all s : String.substring 0 (String.length s) s = s.
Proof. induction s as [|a s IH]; [done|]. cbn. by rewrite IH. Qed.

(** The labels of a flow series, in the order the client library prints them. *)
Definition flow_labels (iface group : string) : string :=
  let q := String quote EmptyString in
  "{group=" +:+ q +:+ group +:+ q +:+ ",network_interface_name=" +:+ q +:+ iface +:+ q +:+ "}".

Lemma match_group_print g rest :
  g ≠ "" → all_chars (λ b, negb (Ascii.eqb b quote)) g = true →
  match_group ("group=" +:+ String quote (g +:+ String quote rest)) = Some g.
Proof.
  intros Hg Hq. unfold match_group. set (s := g +:+ String quote rest).
  assert (Hp : String.prefix ("group=" +:+ String quote "") ("group=" +:+ String quote s) = true) by (by destruct s).
  rewrite Hp. cbv zeta.
  assert (Hs : String.substring 7 (String.length ("group=" +:+ String quote s) - 7) ("group=" +:+ String quote s) = s).
  { cbn [String.length]. change (String.length ("group=" +:+ String quote s) - 7)%nat with (String.length s - 0)%nat.
    rewrite Nat.sub_0_r. change (String.substring 7 (String.length s) ("group=" +:+ String quote s)) with (String.substring 0 (String.length s) s).
    apply substring_all. }
  rewrite Hs. unfold s. rewrite span_app; [|done|done]. cbn [fst snd].
  destruct (String.eqb_spec g ""); done.
Qed.

Abbreviation unquoted := (all_chars (λ b, negb (Ascii.eqb b quote))).

Lemma hex_digit_unquoted d : unquoted (hex_digit d) = true.
Proof. unfold hex_digit. generalize (Z.to_nat d). intros n. do 16 (destruct n as [|n]; [reflexivity|]). by destruct n. Qed.

Lemma hex4_unquoted g : unquoted (hex4 g) = true.
Proof.
  assert (Hh : ∀ fuel n, unquoted (hex_digits fuel n) = true).
  { induction fuel as [|fuel IH]; intros n; [done|]. cbn [hex_digits]. rewrite all_chars_app, hex_digit_unquoted, andb_true_r.
    destruct (n <? 16); [done|apply IH]. }
  unfold hex4, hex. rewrite all_chars_app, Hh, andb_true_r. by destruct (g <? 16), (g <? 256), (g <? 4096).
Qed.

(** The report names the group a flow series belongs to.  The group
    label of the flow counters the proxy exports for group g, printed with
    its interface, is found in the label set whatever the interface is
    called, and reads back as g: the address shown is ff05:: followed by g in
    hexadecimal without leading zeros. *)
Theorem flow_group_roundtrip iface g :
  0 ≤ g < 2 ^ 32 →
  extractGroupFromLabels (flow_labels iface (hex4 g)) = hex4 g ∧
  ParseUint (hex4 g) 16 32 = Some g ∧
  groupIndexToAddr (extractGroupFromLabels (flow_labels iface (hex4 g))) = "ff05::" +:+ hex g.
Proof.
  intros Hg. pose proof (ParseUint_hex4 g Hg) as Hp.
  assert (E : extractGroupFromLabels (flow_labels iface (hex4 g)) = hex4 g).
  { unfold extractGroupFromLabels, flow_labels. cbv zeta.
    set (rest := ",network_interface_name=" +:+ String quote "" +:+ iface +:+ String quote "" +:+ "}").
    change (default (String "{" ("group=" +:+ String quote (hex4 g +:+ String quote rest)))
      (find_group ("group=" +:+ String quote (hex4 g +:+ String quote rest))) = hex4 g).
    assert (Hm : match_group ("group=" +:+ String quote (hex4 g +:+ String quote rest)) = Some (hex4 g)).
    { apply match_group_print; [|apply hex4_unquoted]. intros E. rewrite E in Hp. discriminate Hp. }
    change (find_group ("group=" +:+ String quote (hex4 g +:+ String quote rest))) with
      (match match_group ("group=" +:+ String quote (hex4 g +:+ String quote rest)) with
       | Some g => Some g
       | None => find_group ("roup=" +:+ String quote (hex4 g +:+ String quote rest)) end).
    by rewrite Hm. }
  rewrite E. split_and!; [done|done|]. unfold groupIndexToAddr. by rewrite Hp.
Qed.

(** ** Witnesses *)

Lemma scrape_reads_exposition_witness :
  let items := [Comment " TYPE bsp_packets_received_total counter";
                Series "bsp_packets_received_total" "{worker=0}" "12"; Series "bsp_packets_received_total" "{worker=1}" "30";
                Series "bsp_flow_packets_total" "{group=0002}" "7"; Series "go_threads" "" "9"] in
  match @scrapeMetrics exactRuntime (λ s, QArith_base.inject_Z <$> Atoi s) (Some (200, expose items)) with
  | Some snap => (ms_Counters snap !! "bsp_packets_received_total", size (ms_Counters snap))
  | None => (None, 0%nat)
  end = (Some (QArith_base.inject_Z 42), 1%nat).
Proof.
  intros items. rewrite (@scrape_reads_exposition exactRuntime (λ s, QArith_base.inject_Z <$> Atoi s) items).
  - vm_compute. reflexivity.
  - constructor; [reflexivity|].
    constructor; [split_and!; [reflexivity|right; by exists "worker=0"|reflexivity]|].
    constructor; [split_and!; [reflexivity|right; by exists "worker=1"|reflexivity]|].
    constructor; [split_and!; [reflexivity|right; by exists "group=0002"|reflexivity]|].
    constructor; [split_and!; [reflexivity|by left|reflexivity]|constructor].
Defined.

Lemma flow_group_roundtrip_witness :
  extractGroupFromLabels (flow_labels "eth0" (hex4 31)) = "001f" ∧
  groupIndexToAddr (extractGroupFromLabels (flow_labels "eth0" (hex4 31))) = "ff05::1f".
Proof. destruct (flow_group_roundtrip "eth0" 31) as (E1 & _ & E2); [lia|]. split; [exact E1|exact E2]. Defined.
