(* ===== verification/PerfSend.v ===== *)
(** * The load generator (cmd/perf-test: sendFrames)

    Senders that pace themselves against the clock: an iteration computes how
    many frames should have been sent by now and sends one when it is behind.
    An iteration's inputs (the clock, the context, the random draws, whether
    the write succeeds) are a [Draw]; [None] is a panic.  The senders run
    concurrently and share only the stamp counter; a run is a sequence of
    iterations of any senders, in any order. *)

From S2P Require Import Prelude Common RateLimit Floats Latstamp.

Record sendConfig := mkSendConfig {
  cf_PPS : Z; cf_Duration : Z; cf_PayloadMin : Z; cf_PayloadMax : Z; cf_Senders : Z;
  cf_LatencyStamp : bool; cf_StampEvery : Z }.

(** ** Random bytes *)

(** [fillRand]: 8-byte words of the generator, then the head of one more. *)
Fixpoint fill_words (rnd : nat → Z) (k words : nat) : bytes :=
  match words with
  | O => []
  | S words => le_put 8 (rnd k) ++ fill_words rnd (S k) words
  end.

Definition fillRand (rnd : nat → Z) (n : nat) : bytes :=
  let words := (n / 8)%nat in
  fill_words rnd 0 words ++
  (if (8 * words <? n)%nat then take (n - 8 * words) (le_put 8 (rnd words)) else []).

(** ** One iteration *)

Record Draw := mkDraw {
  dr_now : Z; dr_cancelled : bool; dr_txid : nat → Z; dr_size : Z; dr_payload : nat → Z; dr_stampTime : Z;
  dr_write_ok : bool }.

(** A sender: its counters, whether it has returned, and what it wrote, each
    datagram with the number of its stamp. *)
Record Sender := mkSender { sn_frames : Z; sn_bytes : Z; sn_done : bool; sn_sent : list (bytes * option Z) }.

#[export] Instance eta_Sender : EtaExpand Sender :=
  {| eta_of := λ x, mkSender (sn_frames x) (sn_bytes x) (sn_done x) (sn_sent x) |}.

Definition newSender : Sender := mkSender 0 0 false [].

Section Send.
Context {RT : GoRuntime} {TF : ToolFloat} (frame_Encode : bytes → bytes → option bytes).
Context (cfg : sendConfig).

(** [int64(elapsedSec * float64(targetPPS))]. *)
Definition target (pps elapsed : Z) : Z := f_trunc (f_mul (f_seconds elapsed) (f_of_int pps)).

Definition payloadRange : Z := cf_PayloadMax cfg - cf_PayloadMin cfg + 1.

Definition payload_size (d : Draw) : Z :=
  cf_PayloadMin cfg + (if 1 <? payloadRange then dr_size d else 0).

(** Whether the next frame is stamped; the remainder by zero panics. *)
Definition stamp_due (frames : Z) : option bool :=
  if cf_LatencyStamp cfg then
    if cf_StampEvery cfg =? 0 then None else Some (Z.rem frames (cf_StampEvery cfg) =? 0)
  else Some false.

(** The frame of an iteration: its stamp number, if any, and its encoding.
    The payload is a slice of a buffer sized for the largest one. *)
Definition build_frame (d : Draw) (seq frames : Z) : option (Z * option Z * option bytes) :=
  let size := payload_size d in
  if (size <? 0) || (cf_PayloadMax cfg <? size) then None
  else
    let txid := fillRand (dr_txid d) 32 in
    let payload := fillRand (dr_payload d) (Z.to_nat size) in
    due ← stamp_due frames;
    if due : bool then
      let seq := u32 (seq + 1) in
      Some (seq, Some seq, frame_Encode txid (default payload (Put payload (dr_stampTime d) seq)))
    else Some (seq, None, frame_Encode txid payload).

(** [sendFramesWorker], one iteration of its loop, with the shared stamp
    counter. *)
Definition send_iteration (pps start : Z) (d : Draw) (seq : Z) (s : Sender) : option (Z * Sender) :=
  if sn_done s then Some (seq, s)
  else if (start + cf_Duration cfg <? dr_now d) || dr_cancelled d then Some (seq, s <| sn_done := true |>)
  else if target pps (dr_now d - start) <=? sn_frames s then Some (seq, s)
  else
    '(seq, stamp, enc) ← build_frame d seq (sn_frames s);
    match enc with
    | None => Some (seq, s)
    | Some buf =>
        if dr_write_ok d then
          if pps =? 0 then None
          else Some (seq, s <| sn_frames ::= Z.add 1 |> <| sn_bytes ::= Z.add (Zlen buf) |>
                            <| sn_sent ::= λ l, l ++ [(buf, stamp)] |>)
        else Some (seq, s)
    end.

(** ** All senders *)

Record Load := mkLoad { ld_stampSeq : Z; ld_senders : list Sender }.

(** How many senders run, and each one's rate. *)
Definition senders : nat := if cf_Senders cfg <=? 1 then 1 else Z.to_nat (cf_Senders cfg).
Definition pps_each : Z := if cf_Senders cfg <=? 1 then cf_PPS cfg else Z.quot (cf_PPS cfg) (cf_Senders cfg).

Definition newLoad : Load := mkLoad 0 (replicate senders newSender).

(** One iteration of sender [i]; [starts] are the senders' start times. *)
Definition load_step (starts : list Z) (i : nat) (d : Draw) (l : Load) : option Load :=
  match ld_senders l !! i, starts !! i with
  | Some s, Some start =>
      '(seq, s') ← send_iteration pps_each start d (ld_stampSeq l) s;
      Some (mkLoad seq (<[i := s']> (ld_senders l)))
  | _, _ => Some l
  end.

Fixpoint load_run (starts : list Z) (steps : list (nat * Draw)) (l : Load) : option Load :=
  match steps with
  | [] => Some l
  | (i, d) :: steps => l ← load_step starts i d l; load_run starts steps l
  end.

(** ** The result *)

Record sendResult := mkSendResult {
  sr_FramesSent : Z; sr_BytesSent : Z; sr_Elapsed : Z; sr_ActualPPS : F64; sr_Mbps : F64 }.

Definition rates (frames bytes elapsed : Z) : sendResult :=
  let secs := f_seconds elapsed in
  if 0 <? elapsed then
    mkSendResult frames bytes elapsed (f_div (f_of_int frames) secs)
      (f_div (f_div (f_mul (f_of_int bytes) (f_lit 8 1)) secs) (f_lit (10 ^ 6) 1))
  else mkSendResult frames bytes elapsed f_zero f_zero.

Definition sender_result (elapsed : Z) (s : Sender) : sendResult := rates (sn_frames s) (sn_bytes s) elapsed.

(** The aggregate of [sendFrames]: one sender's result as it is, otherwise
    the totals over the longest run. *)
Definition aggregate (rs : list sendResult) : sendResult :=
  match rs with
  | [r] => r
  | _ => rates (foldl (λ a r, a + sr_FramesSent r) 0 rs) (foldl (λ a r, a + sr_BytesSent r) 0 rs)
           (foldl (λ a r, if a <? sr_Elapsed r then sr_Elapsed r else a) 0 rs)
  end.
End Send.
