(* ===== verification/PerfSendProps.v ===== *)
(** * Properties of the load generator *)

From S2P Require Import Prelude Common RateLimit Floats Latstamp PerfSend.

(** ** Random bytes *)

Lemma length_le_put n v : length (le_put n v) = n.
Proof. unfold le_put. by rewrite length_rev, length_be_put. Qed.

Lemma length_fill_words rnd k words : length (fill_words rnd k words) = (8 * words)%nat.
Proof. revert k. induction words as [|words IH]; intros k; [done|]. cbn [fill_words]. rewrite length_app, length_le_put, IH. lia. Qed.

Lemma length_fillRand rnd n : length (fillRand rnd n) = n.
Proof.
  unfold fillRand. cbv zeta. pose proof (Nat.div_mod_eq n 8). pose proof (Nat.mod_upper_bound n 8).
  rewrite length_app, length_fill_words. destruct (Nat.ltb_spec (8 * (n / 8)) n).
  - rewrite length_take, length_le_put. lia.
  - change (length (@nil Z)) with 0%nat. lia.
Qed.

Lemma Put_length p t s p' : Put p t s = Some p' → length p' = length p.
Proof.
  unfold Put. destruct (Nat.ltb_spec (length p) Size); [done|]. intros E. assert (E' : p' = Magic ++ be_put 8 (u64 t) ++ be_put 4 (u32 s) ++ drop Size p) by congruence.
  rewrite E', !length_app, !length_be_put, length_drop. unfold Size in *. simpl. lia.
Qed.

Section Send.
Context {RT : GoRuntime} {RL : RuntimeLaws} {TF : ToolFloat} {TL : ToolFloatLaws}.
Context (frame_Encode : bytes → bytes → option bytes).
Context (Encode_length : ∀ txid p buf, frame_Encode txid p = Some buf → Zlen buf = HeaderSize + Zlen p).
Context (cfg : sendConfig).

(** A configuration whose sizes and sampling make sense, at a rate whose
    frame count fits an int64. *)
Record config_ok : Prop := mkConfigOk {
  co_sizes : 0 ≤ cf_PayloadMin cfg ≤ cf_PayloadMax cfg;
  co_every : cf_LatencyStamp cfg = true → cf_StampEvery cfg ≠ 0;
  co_rate : 0 ≤ cf_PPS cfg;
  co_fits : f_int64 (f_mul (f_seconds (cf_Duration cfg)) (f_of_int (pps_each cfg))) = true }.

(** Draws of the random source and of a clock that does not run backwards. *)
Definition draw_ok (start : Z) (d : Draw) : Prop :=
  start ≤ dr_now d ∧ (1 < payloadRange cfg → 0 ≤ dr_size d < payloadRange cfg).

(** What a sender may have sent when [elapsed] has passed since its start: the
    whole frames of its rate for that time, and none after the duration. *)
Definition schedule (elapsed : Z) : Z :=
  Z.max 0 (f_trunc (f_mul (f_seconds (Z.min elapsed (cf_Duration cfg))) (f_of_int (pps_each cfg)))).

(** The time sender [i] has been seen to run for after some steps. *)
Definition elapsed_of (starts : list Z) (steps : list (nat * Draw)) (i : nat) : Z :=
  foldl (λ m x, if decide (x.1 = i) then Z.max m (dr_now x.2 - default 0 (starts !! i)) else m) 0 steps.

Definition total (l : list (bytes * option Z)) : Z := foldr (λ x a, Zlen x.1 + a) 0 l.

Record sender_ok (elapsed : Z) (s : Sender) : Prop := mkSenderOk {
  so_frames : sn_frames s = Zlen (sn_sent s);
  so_bytes : sn_bytes s = total (sn_sent s);
  so_paced : sn_frames s ≤ schedule elapsed;
  so_sizes : Forall (λ x, HeaderSize + cf_PayloadMin cfg ≤ Zlen x.1 ≤ HeaderSize + cf_PayloadMax cfg) (sn_sent s) }.

Lemma total_snoc l x : total (l ++ [x]) = total l + Zlen x.1.
Proof. unfold total. induction l as [|y l IH]; cbn [foldr app]; [lia|]. rewrite IH. lia. Qed.

Lemma pps_each_nonneg : config_ok → 0 ≤ pps_each cfg.
Proof. intros Hc. pose proof (co_rate Hc). unfold pps_each. destruct (Z.leb_spec (cf_Senders cfg) 1); [done|]. apply Z.quot_pos; lia. Qed.

Lemma schedule_mono e e' : config_ok → 0 ≤ e ≤ e' → schedule e ≤ schedule e'.
Proof.
  intros Hc He. pose proof (f_of_int_nonneg _ (pps_each_nonneg Hc)) as Hp. unfold schedule.
  destruct (Z.lt_ge_cases (cf_Duration cfg) 0) as [Hd|Hd]; [rewrite !(Z.min_r _ (cf_Duration cfg)) by lia; lia|].
  assert (f_trunc (f_mul (f_seconds (Z.min e (cf_Duration cfg))) (f_of_int (pps_each cfg))) ≤
    f_trunc (f_mul (f_seconds (Z.min e' (cf_Duration cfg))) (f_of_int (pps_each cfg)))); [|lia].
  apply f_trunc_mono.
  - apply f_mul_nonneg; [|done]. apply f_seconds_nonneg. lia.
  - apply f_mul_mono; [done|]. apply f_seconds_mono. lia.
  - eapply f_le_lt_trans; [|apply (co_fits Hc)]. apply f_mul_mono; [done|]. apply f_seconds_mono. lia.
Qed.

Lemma sender_ok_later e e' s : config_ok → 0 ≤ e ≤ e' → sender_ok e s → sender_ok e' s.
Proof. intros Hc He [H1 H2 H3 H4]. split; [done|done| |done]. pose proof (schedule_mono e e' Hc He). lia. Qed.

Lemma elapsed_nonneg starts steps i : 0 ≤ elapsed_of starts steps i.
Proof.
  unfold elapsed_of. induction steps as [|x steps IH] using rev_ind; [done|]. rewrite foldl_app. cbn [foldl].
  destruct (decide _); [|exact IH]. lia.
Qed.

Lemma elapsed_snoc starts steps i d j :
  elapsed_of starts steps j ≤ elapsed_of starts (steps ++ [(i, d)]) j ∧
  (j = i → dr_now d - default 0 (starts !! i) ≤ elapsed_of starts (steps ++ [(i, d)]) j).
Proof.
  unfold elapsed_of. rewrite foldl_app. cbn [foldl fst snd]. destruct (decide (i = j)) as [<-|Hne].
  - split; [apply Z.le_max_l|intros _; apply Z.le_max_r].
  - split; [apply Z.le_refl|by intros ->].
Qed.

(** A frame is built for every draw, with the size drawn; the stamp counter
    moves when it is stamped. *)
Lemma build_frame_spec start d seq frames :
  config_ok → draw_ok start d →
  ∃ seq' stamp enc, build_frame frame_Encode cfg d seq frames = Some (seq', stamp, enc) ∧
    (stamp = None ∧ seq' = seq ∨ stamp = Some seq' ∧ seq' = u32 (seq + 1)) ∧
    ∀ buf, enc = Some buf → HeaderSize + cf_PayloadMin cfg ≤ Zlen buf ≤ HeaderSize + cf_PayloadMax cfg.
Proof.
  intros Hc [_ Hd]. pose proof (co_sizes Hc) as Hs. unfold build_frame. cbv zeta. set (size := payload_size cfg d).
  assert (Hsz : cf_PayloadMin cfg ≤ size ≤ cf_PayloadMax cfg).
  { unfold size, payload_size, payloadRange in *. destruct (Z.ltb_spec 1 (cf_PayloadMax cfg - cf_PayloadMin cfg + 1)); lia. }
  assert (Hlen : ∀ r, Zlen (fillRand r (Z.to_nat size)) = size) by (intros r; unfold Zlen; rewrite length_fillRand; lia).
  rewrite (proj2 (Z.ltb_ge size 0)), (proj2 (Z.ltb_ge (cf_PayloadMax cfg) size)) by lia. cbn [orb].
  assert (Hdue : ∃ b, stamp_due cfg frames = Some b).
  { unfold stamp_due. destruct (cf_LatencyStamp cfg) eqn:El; [|eauto].
    destruct (Z.eqb_spec (cf_StampEvery cfg) 0); [by destruct (co_every Hc El)|eauto]. }
  destruct Hdue as [[] ->]; cbn [mbind option_bind]; eexists _, _, _; (split; [reflexivity|]).
  - split; [by right|]. intros buf Hb. apply Encode_length in Hb. rewrite Hb.
    assert (Hp : Zlen (default (fillRand (dr_payload d) (Z.to_nat size)) (Put (fillRand (dr_payload d) (Z.to_nat size)) (dr_stampTime d) (u32 (seq + 1)))) = size).
    { destruct (Put _ _ _) as [p|] eqn:Ep; [|apply Hlen]. apply Put_length in Ep. change (Zlen p = size).
      unfold Zlen. rewrite Ep. apply Hlen. }
    rewrite Hp. lia.
  - split; [by left|]. intros buf Hb. apply Encode_length in Hb. rewrite Hb, Hlen. lia.
Qed.

(** How an iteration may end: nothing sent, with the stamp counter moved or
    not, or one frame sent. *)
Lemma send_iteration_spec start d seq s e :
  config_ok → draw_ok start d → dr_now d - start ≤ e → sender_ok e s →
  ∃ seq' s', send_iteration frame_Encode cfg (pps_each cfg) start d seq s = Some (seq', s') ∧ sender_ok e s' ∧
    (seq' = seq ∨ seq' = u32 (seq + 1)) ∧
    (sn_sent s' = sn_sent s ∨
     ∃ buf stamp, sn_sent s' = sn_sent s ++ [(buf, stamp)] ∧ (stamp = None ∨ stamp = Some seq' ∧ seq' = u32 (seq + 1))).
Proof.
  intros Hc Hd He Hs. unfold send_iteration. destruct (sn_done s); [eexists _, _; split; [done|]; split_and!; [done|by left..]|].
  destruct (_ || _) eqn:Edl.
  { eexists _, _. split; [done|]. destruct Hs. split_and!; [by split|by left|by left]. }
  apply orb_false_iff in Edl as [Edl _]. destruct (Z.leb_spec (target (pps_each cfg) (dr_now d - start)) (sn_frames s)) as [|Hlt].
  { eexists _, _. split; [done|]. split_and!; [done|by left..]. }
  assert (Hq : target (pps_each cfg) (dr_now d - start) ≤ schedule e).
  { etransitivity; [|apply (schedule_mono (dr_now d - start) e); [done|destruct Hd; lia]].
    unfold schedule. rewrite Z.min_l by lia. apply Z.le_max_r. }
  destruct (build_frame_spec start d seq (sn_frames s) Hc Hd) as (seq' & stamp & enc & -> & Hst & Hsz).
  cbn [mbind option_bind]. assert (Hseq : seq' = seq ∨ seq' = u32 (seq + 1)) by (destruct Hst as [[_ ->]|[_ ->]]; auto).
  destruct enc as [buf|]; [|eexists _, _; split; [done|]; split_and!; [done|done|by left]].
  destruct (dr_write_ok d); [|eexists _, _; split; [done|]; split_and!; [done|done|by left]].
  destruct (Z.eqb_spec (pps_each cfg) 0) as [E0|_].
  { exfalso. unfold target in Hlt. rewrite E0, f_trunc_mul_zero in Hlt. pose proof (so_frames _ _ Hs). pose proof (Zlen_nonneg (sn_sent s)). lia. }
  eexists _, _. split; [done|]. destruct Hs as [H1 H2 H3 H4]. split_and!.
  - split.
    + change (1 + sn_frames s = Zlen (sn_sent s ++ [(buf, stamp)])). rewrite Zlen_app, H1. change (Zlen [(buf, stamp)]) with 1. lia.
    + change (Zlen buf + sn_bytes s = total (sn_sent s ++ [(buf, stamp)])). rewrite total_snoc, H2. cbn [fst]. lia.
    + change (1 + sn_frames s ≤ schedule e). lia.
    + apply Forall_app. split; [done|]. apply Forall_singleton. by apply Hsz.
  - done.
  - right. exists buf, stamp. split; [done|]. destruct Hst as [[-> _]|Hst]; [by left|by right].
Qed.

(** ** All senders *)

Definition all_sent (l : Load) : list (bytes * option Z) := ld_senders l ≫= sn_sent.
Definition stamps (l : Load) : list Z := omap snd (all_sent l).

Lemma all_sent_insert (l : list Sender) i s s' new :
  l !! i = Some s → sn_sent s' = sn_sent s ++ new → (<[i := s']> l) ≫= sn_sent ≡ₚ new ++ (l ≫= sn_sent).
Proof.
  intros Hi Hs. rewrite <-(take_drop_middle l i s Hi) at 2.
  rewrite insert_take_drop by (by eapply lookup_lt_Some). rewrite !bind_app, !bind_cons, Hs.
  rewrite <-!app_assoc, (Permutation_app_swap_app (sn_sent s) new). apply Permutation_app_swap_app.
Qed.

(** The invariant after some steps. *)
Record load_ok (starts : list Z) (steps : list (nat * Draw)) (l : Load) : Prop := mkLoadOk {
  lo_senders : ∀ i s, ld_senders l !! i = Some s → sender_ok (elapsed_of starts steps i) s;
  lo_count : length (ld_senders l) = senders cfg;
  lo_seq : 0 ≤ ld_stampSeq l ≤ Zlen steps;
  lo_stamps : NoDup (stamps l) ∧ Forall (λ x, x ≤ ld_stampSeq l) (stamps l) }.

Lemma load_step_ok starts i d steps l :
  config_ok → (∀ start, starts !! i = Some start → draw_ok start d) → Zlen steps + 1 < 2 ^ 32 → load_ok starts steps l →
  ∃ l', load_step frame_Encode cfg starts i d l = Some l' ∧ load_ok starts (steps ++ [(i, d)]) l'.
Proof.
  intros Hc Hd Hn Hl. pose proof Hl as [Hs Hk Hq [Hnd Hle]]. unfold load_step.
  assert (Hz : Zlen (steps ++ [(i, d)]) = Zlen steps + 1) by (rewrite Zlen_app; done).
  pose proof (elapsed_snoc starts steps i d) as He.
  assert (Hs2 : ∀ j s, ld_senders l !! j = Some s → sender_ok (elapsed_of starts (steps ++ [(i, d)]) j) s).
  { intros j s Ej. eapply sender_ok_later; [done| |by apply Hs]. split; [apply elapsed_nonneg|apply He]. }
  assert (Hskip : load_ok starts (steps ++ [(i, d)]) l) by (split; [done|done|lia|done]).
  destruct (ld_senders l !! i) as [s|] eqn:Ei; [|by exists l]. destruct (starts !! i) as [start|] eqn:Es; [|by exists l].
  destruct (send_iteration_spec start d (ld_stampSeq l) s _ Hc (Hd _ eq_refl) (proj2 (He i) eq_refl) (Hs2 i s Ei))
    as (seq' & s' & -> & Hs' & Hseq & Hsent).
  cbn [mbind option_bind]. eexists. split; [done|].
  assert (Hu : u32 (ld_stampSeq l + 1) = ld_stampSeq l + 1) by (unfold u32; apply Z.mod_small; lia). rewrite Hu in *.
  assert (Hle' : ∀ x, x ∈ stamps l → x ≤ seq') by (intros x Hx; rewrite list.Forall_forall in Hle; specialize (Hle x Hx); lia).
  split; cbn [ld_senders ld_stampSeq]; [|by rewrite length_insert|lia|].
  { intros j sj Ej. apply list_lookup_insert_Some in Ej as [(<- & <- & _)|[_ Ej]]; [done|by apply Hs2]. }
  assert (Hp : ∃ new, stamps (mkLoad seq' (<[i:=s']> (ld_senders l))) ≡ₚ new ++ stamps l ∧
    (new = [] ∨ new = [seq'] ∧ seq' = ld_stampSeq l + 1)).
  { destruct Hsent as [E|(buf & stamp & E & Hst)].
    - exists []. split; [|by left]. unfold stamps, all_sent. cbn [ld_senders].
      rewrite (all_sent_insert _ i s s' [] Ei) by (by rewrite app_nil_r). done.
    - exists (option_list stamp). split; [|destruct Hst as [->|[-> ?]]; [by left|by right]].
      unfold stamps, all_sent. cbn [ld_senders]. rewrite (all_sent_insert _ i s s' [(buf, stamp)] Ei E). by destruct stamp. }
  destruct Hp as (new & Hp & Hnew). rewrite Hp. destruct Hnew as [->|[-> E]].
  - split; [done|]. apply list.Forall_forall. auto.
  - split.
    + cbn [app]. constructor; [|done]. intros Hin. rewrite list.Forall_forall in Hle. specialize (Hle _ Hin). lia.
    + cbn [app]. constructor; [lia|]. apply list.Forall_forall. auto.
Qed.

Definition steps_ok (starts : list Z) (steps : list (nat * Draw)) : Prop :=
  Forall (λ x, ∀ start, starts !! x.1 = Some start → draw_ok start x.2) steps.

Lemma load_run_ok starts before steps l :
  config_ok → steps_ok starts steps → Zlen before + Zlen steps < 2 ^ 32 → load_ok starts before l →
  ∃ l', load_run frame_Encode cfg starts steps l = Some l' ∧ load_ok starts (before ++ steps) l'.
Proof.
  intros Hc Hst. revert before l. induction Hst as [|[i d] steps Hd Hst IH]; intros before l Hn Hl; cbn [load_run].
  { exists l. split; [done|]. by rewrite app_nil_r. }
  rewrite Zlen_cons in *. pose proof (Zlen_nonneg steps).
  destruct (load_step_ok starts i d before l Hc Hd) as (l1 & -> & Hl1); [lia|done|]. cbn [mbind option_bind].
  destruct (IH (before ++ [(i, d)]) l1) as (l2 & E & Hl2); [rewrite Zlen_app; change (Zlen [(i, d)]) with 1; lia|done|].
  exists l2. split; [done|]. by rewrite <- app_assoc in Hl2.
Qed.

Lemma newLoad_ok starts : load_ok starts [] (newLoad cfg).
Proof.
  assert (E : all_sent (newLoad cfg) = []) by (unfold all_sent, newLoad; cbn [ld_senders]; by induction (senders cfg)).
  split.
  - intros i s Hi. apply lookup_replicate in Hi as [-> _]. split; cbn; rewrite ?Zlen_nil; [done|done| |constructor]. unfold schedule. lia.
  - apply length_replicate.
  - split; [done|apply Zlen_nonneg].
  - unfold stamps. rewrite E. split; constructor.
Qed.

(** C38: the load generator keeps to its rate at every moment and never
    panics.  For any sensible configuration, however the senders' iterations
    interleave, whatever is drawn and whichever writes fail: no sender panics;
    at every point of the run each has sent at most the whole frames of its
    rate for the time it has been running for (and for the configured duration
    when that is over), so none runs ahead of its schedule; its counters are
    the number and the size of the datagrams it wrote, every datagram has a
    payload within the configured sizes, and no two datagrams of any senders
    carry the same stamp number (as long as fewer than 2^32 iterations were
    made). *)
Theorem senders_on_schedule starts steps :
  config_ok → steps_ok starts steps → Zlen steps < 2 ^ 32 →
  ∃ l, load_run frame_Encode cfg starts steps (newLoad cfg) = Some l ∧
    length (ld_senders l) = senders cfg ∧
    (∀ i s, ld_senders l !! i = Some s →
      sn_frames s ≤ schedule (elapsed_of starts steps i) ∧
      sn_frames s = Zlen (sn_sent s) ∧ sn_bytes s = total (sn_sent s) ∧
      Forall (λ x, HeaderSize + cf_PayloadMin cfg ≤ Zlen x.1 ≤ HeaderSize + cf_PayloadMax cfg) (sn_sent s)) ∧
    NoDup (omap snd (ld_senders l ≫= sn_sent)).
Proof.
  intros Hc Hst Hn. destruct (load_run_ok starts [] steps (newLoad cfg) Hc Hst) as (l & E & [Hs Hk _ [Hnd _]]);
    [rewrite Zlen_nil; lia|apply newLoad_ok|]. exists l. split_and!; [done|done| |done].
  intros i s Hi. by destruct (Hs i s Hi).
Qed.
End Send.

(** ** Configurations the flags accept and the sender does not survive *)

(** Sampling every zeroth frame divides by zero, and a smallest payload above
    the largest one slices past the buffer, in the first iteration that is
    behind schedule; nothing checks either flag. *)
Lemma unchecked_flags_panic {RT : GoRuntime} {TF : ToolFloat} enc cfg pps start d seq s :
  cf_LatencyStamp cfg = true ∧ cf_StampEvery cfg = 0 ∨ cf_PayloadMax cfg < cf_PayloadMin cfg →
  sn_done s = false → dr_now d ≤ start + cf_Duration cfg → dr_cancelled d = false →
  sn_frames s < target pps (dr_now d - start) →
  send_iteration enc cfg pps start d seq s = None.
Proof.
  intros Hbad Hd Hnow Hcan Hlate. unfold send_iteration. rewrite Hd, Hcan, (proj2 (Z.ltb_ge _ _)) by lia. cbn [orb].
  rewrite (proj2 (Z.leb_gt _ _)) by lia. unfold build_frame. cbv zeta.
  destruct (_ || _) eqn:E; [done|]. destruct Hbad as [[Hs He]|Hm].
  - unfold stamp_due. by rewrite Hs, He.
  - exfalso. unfold payload_size, payloadRange in E. destruct (Z.ltb_spec 1 (cf_PayloadMax cfg - cf_PayloadMin cfg + 1)); lia.
Qed.

(** ** Witnesses *)

Definition toy_Encode (txid p : bytes) : option bytes := Some (zeros 92 ++ p).

Lemma toy_Encode_length txid p buf : toy_Encode txid p = Some buf → Zlen buf = HeaderSize + Zlen p.
Proof. unfold toy_Encode. intros E. assert (buf = zeros 92 ++ p) as -> by congruence. rewrite Zlen_app. done. Qed.

Definition toy_send : sendConfig := mkSendConfig 10 (10 ^ 9) 24 24 2 true 1.

Definition toy_draw (now : Z) : Draw := mkDraw now false (λ _, 7) 0 (λ _, 9) now true.

Definition toy_steps : list (nat * Draw) :=
  [(0%nat, toy_draw (5 * 10 ^ 8)); (1%nat, toy_draw (5 * 10 ^ 8)); (0%nat, toy_draw (6 * 10 ^ 8)); (0%nat, toy_draw (7 * 10 ^ 8))].

Lemma senders_on_schedule_witness :
  ∃ l, @load_run exactRuntime exactToolFloat toy_Encode toy_send [0; 1000000] toy_steps (newLoad toy_send) = Some l ∧
    (sn_frames <$> ld_senders l) = [3; 1] ∧ NoDup (omap snd (ld_senders l ≫= sn_sent)).
Proof.
  destruct (@senders_on_schedule exactRuntime exactLaws exactToolFloat exactToolFloatLaws toy_Encode
    toy_Encode_length toy_send [0; 1000000] toy_steps)
    as (l & E & _ & Hp & Hn).
  - split; [cbn; lia|by intros _|cbn; lia|by vm_compute].
  - repeat (constructor; [intros start [= <-]; split; unfold payloadRange; cbn; lia|]). constructor.
  - vm_compute. reflexivity.
  - exists l. split_and!; [exact E| |exact Hn].
    assert (E2 : (λ l, sn_frames <$> ld_senders l) <$>
      @load_run exactRuntime exactToolFloat toy_Encode toy_send [0; 1000000] toy_steps (newLoad toy_send) = Some [3; 1])
      by (vm_compute; reflexivity).
    rewrite E in E2. by injection E2.
Defined.
