(* ===== verification/PerfReport.v ===== *)
(** * The load tool's report (cmd/perf-test: generateReport)

    The Markdown report as the sequence of its blocks (text and tables) and
    the text they print as.  Numbers are printed by [fmt]: [%d] in decimal,
    while the printing of floats, dates and durations is a parameter, as is
    the order in which Go ranges over a map ([map_range]). *)

From Stdlib Require Import Ascii.
From stdpp Require Import fin_maps pretty.
From S2P Require Import Prelude Common RateLimit Floats Config Recorder PerfText PerfSend.
#[local] Open Scope Z_scope.

(** ** Blocks *)

(** A table row is kept as the text between its bars, spaces included. *)
Inductive Block := Text (s : string) | Table (header rule : list string) (rows : list (list string)).

Definition nl : string := String newline EmptyString.

Definition print_row (cells : list string) : string :=
  "|" +:+ foldr (λ c rest, c +:+ "|" +:+ rest) nl cells.

Definition print_block (b : Block) : string :=
  match b with
  | Text s => s
  | Table h r rows => foldr (λ row rest, print_row row +:+ rest) "" (h :: r :: rows)
  end.

Definition print_report (bs : list Block) : string := foldr (λ b rest, print_block b +:+ rest) "" bs.

(** [w(" %s |", x)]. *)
Definition cell (s : string) : string := " " +:+ s +:+ " ".
Definition row (cells : list string) : list string := cell <$> cells.
Definition par (s : string) : Block := Text (s +:+ nl +:+ nl).

(** [int64(x)] of a uint64. *)
Definition s64 (x : Z) : Z := (x + 2 ^ 63) mod 2 ^ 64 - 2 ^ 63.

(** [strings.Join(l, ", ")]. *)
Fixpoint Join (l : list string) : string :=
  match l with
  | [] => ""
  | [s] => s
  | s :: l => s +:+ ", " +:+ Join l
  end.

(** [sort.Strings] and [sort.Slice] by a string key. *)
Section Sort.
Context {A : Type} (key : A → string).

Fixpoint insert_by (x : A) (l : list A) : list A :=
  match l with
  | [] => [x]
  | y :: l' => if String.leb (key x) (key y) then x :: l else y :: insert_by x l'
  end.

Definition sort_by (l : list A) : list A := foldr insert_by [] l.
End Sort.

(** ** Inputs *)

Record config := mkPerfConfig {
  pc_ProxyAddr : string; pc_MetricsURL : string; pc_ShardBits : Z; pc_LXD : bool;
  pc_Receivers : list string; pc_Output : string; pc_send : sendConfig }.

(** The flags as parsed, with their defaults. *)
Record perfFlags := mkPerfFlags {
  fl_proxyAddr : string; fl_metricsURL : string; fl_shardBits : Z; fl_pps : Z; fl_duration : Z;
  fl_payloadMin : Z; fl_payloadMax : Z; fl_lxd : bool; fl_receivers : string; fl_output : string;
  fl_senders : Z; fl_latencyStamp : bool; fl_stampEvery : Z }.

Definition perf_defaults : perfFlags :=
  mkPerfFlags "[::1]:8725" "http://192.0.2.20:9100" 2 10000 (300 * 10 ^ 9) 256 512 false "recv1,recv2,recv3"
    "report.md" 1 false 1.

Definition parseFlags (f : perfFlags) : config :=
  mkPerfConfig (fl_proxyAddr f) (fl_metricsURL f) (fl_shardBits f) (fl_lxd f) (parse_receivers (fl_receivers f))
    (fl_output f)
    (mkSendConfig (fl_pps f) (fl_duration f) (fl_payloadMin f) (fl_payloadMax f) (fl_senders f)
       (fl_latencyStamp f) (fl_stampEvery f)).

(** [uint32(1) << cfg.ShardBits]: zero from 32 bits on. *)
Definition num_groups (c : config) : Z := if pc_ShardBits c <? 32 then 2 ^ pc_ShardBits c else 0.

Section Report.
Context {RT : GoRuntime} {TF : ToolFloat}.
Context (fmt_f : nat → F64 → string) (fmt_date fmt_duration : Z → string).

(** A nil map and an empty one are alike to the report; [MetricsDelta] is
    tested for nil. *)
Record testResults := mkResults {
  tr_Config : config; tr_NumGroups : Z; tr_StartTime : Z; tr_Send : sendResult;
  tr_MetricsDelta : option (gmap string F64);
  tr_FlowPktDelta : gmap string F64; tr_FlowByteDelta : gmap string F64;
  tr_IfaceBefore : gmap string ifaceStats; tr_IfaceAfter : gmap string ifaceStats;
  tr_RecvCounts : gmap string Z; tr_TsharkCounts : gmap string (gmap string Z) }.

Implicit Types (r : testResults).

(** ** Numbers *)

Definition fmt_bool (b : bool) : string := if b then "true" else "false".

Definition humanBytes (b : Z) : string :=
  let scaled u name := fmt_f 2 (f_div (f_of_int b) (f_of_int u)) +:+ name in
  if 2 ^ 30 <=? b then scaled (2 ^ 30) " GiB"
  else if 2 ^ 20 <=? b then scaled (2 ^ 20) " MiB"
  else if 2 ^ 10 <=? b then scaled (2 ^ 10) " KiB"
  else pretty b +:+ " B".

(** [stats]: minimum, maximum, mean and standard deviation. *)
Definition stats (vals : list F64) : F64 * F64 * F64 * F64 :=
  match vals with
  | [] => (f_zero, f_zero, f_zero, f_zero)
  | v0 :: _ =>
      let mn := foldl (λ m v, if f_lt v m then v else m) v0 vals in
      let mx := foldl (λ m v, if f_lt m v then v else m) v0 vals in
      let n := f_of_int (Zlen vals) in
      let mean := f_div (foldl f_add f_zero vals) n in
      let sq v := let d := f_sub v mean in f_mul d d in
      (mn, mx, mean, f_sqrt (f_div (foldl (λ s v, f_add s (sq v)) f_zero vals) n))
  end.

Definition hundred : F64 := f_lit 100 1.

(** [x / y * 100], zero unless [y] is positive. *)
Definition percent (x y : F64) : F64 := if f_lt f_zero y then f_mul (f_div x y) hundred else f_zero.

(** [m[k]] of a nil or present map. *)
Definition metric (d : gmap string F64) (k : string) : F64 := default f_zero (d !! k).

(** ** Sections *)

Definition report_configuration r : list Block :=
  let c := tr_Config r in
  let s := pc_send c in
  [par "# Throughput Performance Report"; par "## Test Configuration";
   Table (row ["Parameter"; "Value"]) ["-----------"; "-------"]
     (row <$>
      [["Date"; fmt_date (tr_StartTime r)]; ["Proxy address"; "`" +:+ pc_ProxyAddr c +:+ "`"];
       ["Metrics URL"; "`" +:+ pc_MetricsURL c +:+ "`"]; ["Shard bits"; pretty (pc_ShardBits c)];
       ["Num groups"; pretty (tr_NumGroups r)];
       ["Payload range"; pretty (cf_PayloadMin s) +:+ "–" +:+ pretty (cf_PayloadMax s) +:+ " bytes"];
       ["Target PPS"; pretty (cf_PPS s)]; ["Senders"; pretty (cf_Senders s)];
       ["Duration"; fmt_duration (cf_Duration s)]; ["LXD collection"; fmt_bool (pc_LXD c)];
       ["Receivers"; Join (pc_Receivers c)]]);
   Text nl].

(** [r.Send.Elapsed.Round(time.Millisecond)], which rounds half away from
    zero. *)
Definition round_ms (d : Z) : Z :=
  let half := 500000 in let ms := 1000000 in
  if 0 <=? d then (d + half) / ms * ms else - ((- d + half) / ms * ms).

Definition report_results r : list Block :=
  let s := tr_Send r in
  let proxy :=
    match tr_MetricsDelta r with
    | None => []
    | Some d =>
        let m := metric d in
        let rx := m "bsp_packets_received_total" in
        let dropped := m "bsp_packets_dropped_total" in
        [["Proxy RX packets"; fmt_f 0 rx]; ["Proxy RX bytes"; humanBytes (f_trunc (m "bsp_bytes_received_total"))];
         ["Proxy forwarded packets"; fmt_f 0 (m "bsp_packets_forwarded_total")];
         ["Proxy forwarded bytes"; humanBytes (f_trunc (m "bsp_bytes_forwarded_total"))];
         ["Proxy dropped packets"; fmt_f 0 dropped]; ["Drop rate"; fmt_f 2 (percent dropped rx) +:+ "%"];
         ["Egress errors"; fmt_f 0 (m "bsp_egress_errors_total")];
         ["Ingress errors"; fmt_f 0 (m "bsp_ingress_errors_total")]]
    end in
  [par "## Results";
   Table (row ["Metric"; "Value"]) ["--------"; "-------"]
     ((row <$>
      [["Target PPS"; pretty (cf_PPS (pc_send (tr_Config r)))]; ["Actual PPS"; fmt_f 0 (sr_ActualPPS s)];
       ["Frames sent"; pretty (sr_FramesSent s)]; ["Bytes sent"; humanBytes (sr_BytesSent s)];
       ["TX throughput"; fmt_f 2 (sr_Mbps s) +:+ " Mbps"]; ["Duration"; fmt_duration (round_ms (sr_Elapsed s))]]) ++
      (row <$> proxy));
   Text nl].

Definition report_summary r : list Block :=
  let s := tr_Send r in
  let item name v := Text ("- **" +:+ name +:+ ":** " +:+ v +:+ nl) in
  let sent := item "Frames sent" (pretty (sr_FramesSent s)) in
  let rate := item "Achieved throughput" (fmt_f 0 (sr_ActualPPS s) +:+ " pps / " +:+ fmt_f 2 (sr_Mbps s) +:+ " Mbps") in
  [par "## Summary"] ++
  match tr_MetricsDelta r with
  | Some d =>
      let rx := metric d "bsp_packets_received_total" in
      let dropped := metric d "bsp_packets_dropped_total" in
      [sent; item "Proxy received" (fmt_f 0 rx); item "Proxy forwarded" (fmt_f 0 (metric d "bsp_packets_forwarded_total"));
       item "Proxy dropped" (fmt_f 0 dropped +:+ " (" +:+ fmt_f 2 (percent dropped rx) +:+ "%)"); rate]
  | None => [sent; rate]
  end ++ [Text nl].

(** The flow series by group: label, packets and bytes. *)
Definition flow_groups r : list (string * F64 * F64) :=
  (λ kv, (extractGroupFromLabels kv.1, kv.2, metric (tr_FlowByteDelta r) kv.1)) <$>
    map_range (map_to_list (tr_FlowPktDelta r)).

Definition report_groups r : list Block :=
  par "## Multicast Group Distribution (Proxy Egress)" ::
  if bool_decide (tr_FlowPktDelta r = ∅) then
    [par "*No flow metrics available (proxy metrics not scraped or no traffic forwarded).*"]
  else
      let gs := flow_groups r in
      let total := foldl (λ a g, f_add a g.1.2) f_zero gs in
      let totalBytes := foldl (λ a g, f_add a g.2) f_zero gs in
      let groups := sort_by (λ g : string * F64 * F64, g.1.1) gs in
      let '(mn, mx, mean, dev) := stats ((λ g, g.1.2) <$> groups) in
      [par "Packets sent by proxy per shard group (from `bsp_flow_packets_total`):";
       Table (row ["Group"; "Packets"; "Bytes"; "% of Total"]) ["-------"; "---------"; "-------"; "------------"]
         (((λ g : string * F64 * F64, row
             [groupIndexToAddr g.1.1; fmt_f 0 g.1.2; humanBytes (f_trunc g.2); fmt_f 1 (percent g.1.2 total) +:+ "%"]) <$> groups) ++
          [row ["**Total**"; "**" +:+ fmt_f 0 total +:+ "**"; "**" +:+ humanBytes (f_trunc totalBytes) +:+ "**"; "**100%**"]]);
       Text nl;
       par ("**Distribution stats:** min=" +:+ fmt_f 0 mn +:+ ", max=" +:+ fmt_f 0 mx +:+ ", mean=" +:+ fmt_f 0 mean +:+
            ", stddev=" +:+ fmt_f 0 dev)].

(** ** The delivery matrix *)

(** [r.TsharkCounts[recv][g]]. *)
Definition tshark_count r (recv g : string) : Z :=
  default 0 (default ∅ (tr_TsharkCounts r !! recv) !! g).

(** The groups any receiver saw, sorted. *)
Definition seen_groups r : list string :=
  sort_by id (elements (⋃ (dom <$> (map_to_list (tr_TsharkCounts r)).*2) : gset string)).

(** The counts of one group, and the receivers that saw it. *)
Definition matrix_row r (g : string) : list string :=
  let receivers := pc_Receivers (tr_Config r) in
  let seen recv := 0 <? tshark_count r recv g in
  cell g :: ((λ recv, if seen recv then cell (pretty (tshark_count r recv g)) else cell "—") <$> receivers) ++
  [cell (Join (filter (λ recv, seen recv = true) receivers))].

(** [totals[recv] += count], over the groups and, for each, the receivers. *)
Definition matrix_totals r : gmap string Z :=
  foldl (λ m g, foldl (λ m recv, <[recv := default 0 (m !! recv) + tshark_count r recv g]> m) m (pc_Receivers (tr_Config r)))
    ∅ (seen_groups r).

Definition total_of r (recv : string) : Z := default 0 (matrix_totals r !! recv).

(** [float64(len(groups)) / float64(numGroups) * 100]. *)
Definition expected_share r (recv : string) : F64 :=
  f_mul (f_div (f_of_int (Zlen (groupsForReceiver recv))) (f_of_int (tr_NumGroups r))) hundred.

Definition share_row r (recv : string) : list string :=
  let fwd := match tr_MetricsDelta r with Some d => metric d "bsp_packets_forwarded_total" | None => f_zero end in
  let actual := total_of r recv in
  row [recv; pretty (Zlen (groupsForReceiver recv)) +:+ "/" +:+ pretty (tr_NumGroups r);
       fmt_f 0 (expected_share r recv) +:+ "%"; pretty actual; fmt_f 1 (percent (f_of_int actual) fwd) +:+ "%"].

Definition lxd_note r (missing : string) : string :=
  if pc_LXD (tr_Config r) then missing else "*LXD collection disabled (`-lxd` not set).*".

Definition report_matrix r : list Block :=
  let receivers := pc_Receivers (tr_Config r) in
  par "## Per-Group Per-Receiver Delivery Matrix" ::
  if bool_decide (tr_TsharkCounts r = ∅) then
    [par (if pc_LXD (tr_Config r) then "*tshark data not available. Ensure tshark is installed on receiver VMs.*"
          else "*LXD collection disabled (`-lxd` not set). No per-group per-receiver data.*")]
  else
    [par "Packets received at each receiver, broken down by destination multicast group (from `tshark` post-processing):";
     Table (row (["Group"] ++ receivers ++ ["Subscribed receivers"]))
       ("-------" :: ((λ _, "--------") <$> receivers) ++ ["------------------------"])
       ((matrix_row r <$> seen_groups r) ++
        [cell "**Total**" :: ((λ recv, cell ("**" +:+ pretty (total_of r recv) +:+ "**")) <$> receivers) ++ [" "]]);
     Text nl; par "**Expected vs actual traffic share** (due to uneven group subscriptions):";
     Table (row ["Receiver"; "Groups"; "Expected share"; "Actual packets"; "Actual share"])
       ["----------"; "--------"; "----------------"; "----------------"; "--------------"]
       (share_row r <$> receivers);
     Text nl].

(** ** Interfaces and receivers *)

Definition iface_rows r (vm : string) : list (list string) :=
  match tr_IfaceBefore r !! vm, tr_IfaceAfter r !! vm with
  | Some before, Some after =>
      let d := ifaceStatsDelta before after in
      [row [vm; "RX"; pretty (RXPackets d); humanBytes (s64 (RXBytes d)); pretty (RXErrors d); pretty (RXDropped d)];
       row [vm; "TX"; pretty (TXPackets d); humanBytes (s64 (TXBytes d)); pretty (TXErrors d); pretty (TXDropped d)]]
  | _, _ => []
  end.

Definition report_interfaces r : list Block :=
  par "## Interface Statistics" ::
  if bool_decide (tr_IfaceBefore r = ∅) || bool_decide (tr_IfaceAfter r = ∅) then
    [par (lxd_note r "*Interface stats collection failed.*")]
  else
    [par "Delta of `ip -s link show enp6s0` before and after test:";
     Table (row ["VM"; "Direction"; "Packets"; "Bytes"; "Errors"; "Dropped"])
       ["----"; "-----------"; "---------"; "-------"; "--------"; "---------"]
       (("proxy" :: pc_Receivers (tr_Config r)) ≫= iface_rows r);
     Text nl].

Definition report_receivers r : list Block :=
  (if bool_decide (tr_RecvCounts r = ∅) then []
   else
     [par "## Receiver Delivery (recv-test-frames)";
      Table (row ["Receiver"; "Frames received"]) ["----------"; "-----------------"]
        ((λ recv, row [recv; pretty (default 0 (tr_RecvCounts r !! recv))]) <$> pc_Receivers (tr_Config r));
      Text nl]) ++
  [par "## Node Group Membership";
   Table (row ["Receiver"; "Groups joined"; "Expected share"]) ["----------"; "---------------"; "----------------"]
     ((λ recv, row [recv; Join (groupsForReceiver recv); fmt_f 0 (expected_share r recv) +:+ "%"]) <$> pc_Receivers (tr_Config r));
   Text nl].

Definition report_blocks r : list Block :=
  report_configuration r ++ report_results r ++ report_summary r ++ report_groups r ++ report_matrix r ++
  report_interfaces r ++ report_receivers r.

Definition generateReport r : string := print_report (report_blocks r).
End Report.
