(* ===== verification/PerfMain.v ===== *)
(** * The load tool's run (cmd/perf-test: main)

    What a test run does, in order: the health check, the captures and
    receivers it starts on the virtual machines, the scrapes around the
    transmission, the collection afterwards and the report.  The outcomes of
    what it calls (requests, commands, the transmission) are a [PerfEnv]; the
    run is the list of things done and the results gathered, unless it ends
    early.  Progress messages are left out. *)

From stdpp Require Import fin_maps pretty.
From S2P Require Import Prelude Common RateLimit Floats Config Recorder PerfText PerfSend PerfReport.
#[local] Open Scope Z_scope.

Inductive PerfAct :=
| ARun (cmd : list string)               (* a command run to its end *)
| AStart (cmd : list string)             (* a command left running *)
| AWait (cmd : list string)              (* waiting for one to end *)
| AGet (url : string)
| ASendFrames
| ASleep (ns : Z)
| AWriteFile (path text : string)
| AFatal (why : string).

#[export] Instance PerfAct_eq_dec : EqDecision PerfAct.
Proof. solve_decision. Defined.

Definition lxc (vm : string) (args : list string) : list string := ["lxc"; "exec"; vm; "--"] ++ args.

(** [lxcExec]. *)
Definition lxcExec (vm : string) (args : list string) : list PerfAct := [ARun (lxc vm args)].

(** ** Captures *)

Definition tcpdump_cmd (vm iface : string) : list string :=
  lxc vm ["tcpdump"; "-p"; "-i"; iface; "-n"; "ip6 and udp"; "-w"; "/tmp/perf-capture.pcap"].

(** [startTcpdump]: whether the pipe and the start succeed. *)
Definition startTcpdump (ok : bool) (vm iface : string) : list PerfAct :=
  lxcExec vm ["rm"; "-f"; "/tmp/perf-capture.pcap"] ++ (if ok then [AStart (tcpdump_cmd vm iface)] else []).

Definition stopTcpdump (vm iface : string) : list PerfAct :=
  lxcExec vm ["pkill"; "-f"; "tcpdump.*perf-capture"] ++ [AWait (tcpdump_cmd vm iface)].

(** ** Receivers *)

(** [strings.Join(groups, ",")]. *)
Fixpoint comma (l : list string) : string :=
  match l with [] => "" | [s] => s | s :: l => s +:+ "," +:+ comma l end.

Definition recv_cmd (vm iface : string) (groups : list string) (port : Z) : list string :=
  lxc vm ["recv-test-frames"; "-iface"; iface; "-port"; Itoa port; "-groups"; comma groups].

Definition startRecvTestFrames (ok : bool) (vm iface : string) (groups : list string) (port : Z) : list PerfAct :=
  if ok then [AStart (recv_cmd vm iface groups port)] else [].

Definition stopRecvTestFrames (vm iface : string) (groups : list string) (port : Z) : list PerfAct :=
  lxcExec vm ["pkill"; "-f"; "recv-test-frames"] ++ [AWait (recv_cmd vm iface groups port)].

(** What a receiver printed, counted as it arrived. *)
Definition recv_count (chunks : list string) : Z :=
  rv_count (foldl (λ rp p, recvWriter_Write p rp) (mkRecvProc "" "" 0) chunks).

Definition collect_cmd (iface : string) : list string := ["ip"; "-s"; "link"; "show"; iface].

Definition tshark_cmd : list string :=
  ["tshark"; "-r"; "/tmp/perf-capture.pcap"; "-T"; "fields"; "-e"; "ipv6.dst"; "-Y"; "udp"].

(** ** The run *)

(** Outcomes, by the position of the machine in the list of receivers (the
    proxy is machine 0 of the interface statistics).  [pe_send] is [None]
    when a sender cannot dial the proxy. *)
Record PerfEnv `{GoRuntime} := mkPerfEnv {
  pe_start : Z;
  pe_health : string → option Z;
  pe_statsBefore : nat → option string; pe_statsAfter : nat → option string;
  pe_tcpdump : nat → bool; pe_recv : nat → bool;
  pe_scrapeBefore : option (Z * string); pe_scrapeAfter : option (Z * string);
  pe_send : option sendResult;
  pe_output : nat → list string;
  pe_tshark : nat → option string;
  pe_write : bool }.

Section Main.
Context {RT : GoRuntime} {TF : ToolFloat} (ParseF64 : string → option F64).
Context (fmt_f : nat → F64 → string) (fmt_date fmt_duration : Z → string).
Context (cfg : config) (env : PerfEnv).

Definition enp : string := "enp6s0".
Definition recvPort : Z := 9001.

Definition receivers : list (nat * string) := imap pair (pc_Receivers cfg).
Definition machines : list (nat * string) := imap pair ("proxy" :: pc_Receivers cfg).

(** [checkHealth] as requests: it stops at the first endpoint that fails. *)
Definition health_requests : list PerfAct :=
  let get ep := AGet (pc_MetricsURL cfg +:+ ep) in
  if bool_decide (pe_health env "/healthz" = Some 200) then [get "/healthz"; get "/readyz"] else [get "/healthz"].

(** [collectIfaceStats] on every machine; a failure leaves its entry out. *)
Definition collect_stats (outcome : nat → option string) : list PerfAct * gmap string ifaceStats :=
  (machines ≫= λ m, lxcExec m.2 (collect_cmd enp),
   foldl (λ acc m, match outcome m.1 with Some out => <[m.2 := parseIfaceStats out]> acc | None => acc end) ∅ machines).

(** The captures and the receivers that start. *)
Definition captures : list (nat * string) := filter (λ m, pe_tcpdump env m.1 = true) receivers.

Definition listeners : list (nat * string) :=
  filter (λ m, pe_recv env m.1 = true) (filter (λ m, groupsForReceiver m.2 ≠ []) receivers).

Definition preflight : list PerfAct :=
  (collect_stats (pe_statsBefore env)).1 ++
  (receivers ≫= λ m, startTcpdump (pe_tcpdump env m.1) m.2 enp) ++
  [ASleep (2 * 10 ^ 9)] ++
  (filter (λ m, groupsForReceiver m.2 ≠ []) receivers ≫= λ m,
     startRecvTestFrames (pe_recv env m.1) m.2 enp (groupsForReceiver m.2) recvPort) ++
  [ASleep (10 ^ 9)].

Definition scrape : PerfAct := AGet (pc_MetricsURL cfg +:+ "/metrics").

Definition collection : list PerfAct :=
  (listeners ≫= λ m, stopRecvTestFrames m.2 enp (groupsForReceiver m.2) recvPort) ++
  (captures ≫= λ m, stopTcpdump m.2 enp) ++
  [ASleep (10 ^ 9)] ++
  (receivers ≫= λ m, lxcExec m.2 tshark_cmd) ++
  (collect_stats (pe_statsAfter env)).1.

Definition recv_counts : gmap string Z :=
  foldl (λ acc m, <[m.2 := recv_count (pe_output env m.1)]> acc) ∅ listeners.

Definition tshark_counts : gmap string (gmap string Z) :=
  foldl (λ acc m, match tsharkGroupCounts (pe_tshark env m.1) with Some c => <[m.2 := c]> acc | None => acc end)
    ∅ receivers.

(** What needs both scrapes, and what needs [-lxd]. *)
Definition with_scrapes {A} (f : metricsSnapshot → metricsSnapshot → A) : option A :=
  b ← scrapeMetrics ParseF64 (pe_scrapeBefore env); a ← scrapeMetrics ParseF64 (pe_scrapeAfter env); Some (f b a).

Definition if_lxd {A} (m : gmap string A) : gmap string A := if pc_LXD cfg then m else ∅.

(** The results of a run whose transmission ended. *)
Definition gathered (send : sendResult) : testResults :=
  mkResults cfg (num_groups cfg) (pe_start env) send
    (with_scrapes metricsDelta)
    (default ∅ (with_scrapes (λ b a, flowDelta b a "bsp_flow_packets_total")))
    (default ∅ (with_scrapes (λ b a, flowDelta b a "bsp_flow_bytes_total")))
    (if_lxd (collect_stats (pe_statsBefore env)).2) (if_lxd (collect_stats (pe_statsAfter env)).2)
    (if_lxd recv_counts) (if_lxd tshark_counts).

Definition perf_main : list PerfAct * option testResults :=
  if negb (checkHealth (pe_health env)) then (health_requests ++ [AFatal "pre-flight health check failed"], None)
  else
    let lxd (acts : list PerfAct) := if pc_LXD cfg then acts else [] in
    let start := health_requests ++ lxd preflight ++ [scrape; ASendFrames] in
    match pe_send env with
    | None => (start ++ [AFatal "dial"], None)
    | Some send =>
        let r := gathered send in
        (start ++ [ASleep (2 * 10 ^ 9); scrape] ++ lxd collection ++
         [AWriteFile (pc_Output cfg) (generateReport fmt_f fmt_date fmt_duration r)] ++
         (if pe_write env then [] else [AFatal "write report"]), Some r)
    end.
End Main.
