(* ===== verification/PerfMainProps.v ===== *)
(** * Properties of the load tool's run and report

    What a run starts it stops; the report's tables are rectangular, its
    totals are sums of what was captured, and its statistics bound their
    values. *)

From stdpp Require Import fin_maps pretty.
From S2P Require Import Prelude Common RateLimit Floats Config Recorder PerfText PerfSend PerfReport PerfMain.
#[local] Open Scope Z_scope.

(** ** Sorting *)

Section Sort.
Context {A : Type} (key : A → string).

Lemma insert_by_perm x l : insert_by key x l ≡ₚ x :: l.
Proof.
  induction l as [|y l IH]; [done|]. cbn. destruct (String.leb _ _); [done|]. rewrite IH. apply perm_swap.
Qed.

Lemma sort_by_perm l : sort_by key l ≡ₚ l.
Proof. induction l as [|x l IH]; [done|]. cbn. by rewrite insert_by_perm, IH. Qed.
End Sort.

(** ** The report *)

(** A Markdown table whose rows are as wide as its header. *)
Definition rectangular (b : Block) : Prop :=
  match b with
  | Text _ => True
  | Table h r rows => length r = length h ∧ Forall (λ x, length x = length h) rows
  end.

Lemma rect_fmap {A} (f : A → list string) n l : (∀ x, length (f x) = n) → Forall (λ x, length x = n) (f <$> l).
Proof. intros Hf. apply Forall_fmap, Forall_true. auto. Qed.

Section Report.
Context {RT : GoRuntime} {TF : ToolFloat}.
Context (fmt_f : nat → F64 → string) (fmt_date fmt_duration : Z → string).
Implicit Types (r : testResults).

Lemma matrix_rect r :
  rectangular (Table (row (["Group"] ++ pc_Receivers (tr_Config r) ++ ["Subscribed receivers"]))
       ("-------" :: ((λ _, "--------") <$> pc_Receivers (tr_Config r)) ++ ["------------------------"])
       ((matrix_row r <$> seen_groups r) ++
        [cell "**Total**" :: ((λ recv, cell ("**" +:+ pretty (total_of r recv) +:+ "**")) <$> pc_Receivers (tr_Config r)) ++ [" "]])).
Proof.
  assert (Hw : ∀ X (f : string → X), length (f <$> pc_Receivers (tr_Config r)) = length (pc_Receivers (tr_Config r)))
    by (intros; apply length_fmap).
  unfold row. cbn [rectangular]. split.
  - cbn. rewrite fmap_app, !length_app, !Hw. done.
  - apply Forall_app. split.
    + apply rect_fmap. intros g. unfold matrix_row. cbn. rewrite fmap_app, !length_app, !Hw. done.
    + constructor; [|constructor]. cbn. rewrite fmap_app, !length_app, !Hw. done.
Qed.

Ltac rect :=
  repeat first
    [ apply Forall_nil_2
    | apply Forall_cons_2
    | apply matrix_rect
    | apply rect_fmap; intros; reflexivity
    | apply Forall_app; split
    | exact I
    | reflexivity
    | split ].

Lemma iface_rows_width r vm : Forall (λ x, length x = 6%nat) (iface_rows fmt_f r vm).
Proof. unfold iface_rows. destruct (tr_IfaceBefore r !! vm), (tr_IfaceAfter r !! vm); rect. Qed.

(** Every table of the report is rectangular, whatever was measured. *)
Theorem report_tables_rectangular r : Forall rectangular (report_blocks fmt_f fmt_date fmt_duration r).
Proof.
  unfold report_blocks. rewrite !Forall_app. split_and!.
  - unfold report_configuration. rect.
  - unfold report_results. destruct (tr_MetricsDelta r); rect.
  - unfold report_summary. destruct (tr_MetricsDelta r); rect.
  - unfold report_groups. destruct (bool_decide _); [rect|]. destruct (stats _) as [[[? ?] ?] ?]. rect.
  - unfold report_matrix. destruct (bool_decide _); rect.
  - unfold report_interfaces. destruct (_ || _); [rect|]. constructor; [exact I|]. constructor; [exact I|].
    constructor; [|rect]. split; [done|]. apply list.Forall_bind, Forall_true, iface_rows_width.
  - unfold report_receivers. destruct (bool_decide _); rect.
Qed.

(** *** Totals *)

(** The sum of a map over any duplicate-free list that covers its keys. *)
Definition sum_over (m : gmap string Z) (l : list string) : Z := foldl (λ a g, a + default 0 (m !! g)) 0 l.

Lemma foldl_sum {X} (f : X → Z) a l : foldl (λ a x, a + f x) a l = a + foldl (λ a x, a + f x) 0 l.
Proof.
  revert a. induction l as [|x l IH]; intros a; cbn [foldl]; [lia|]. rewrite IH, (IH (0 + f x)). lia.
Qed.

Lemma sum_over_cons m g l : sum_over m (g :: l) = default 0 (m !! g) + sum_over m l.
Proof. unfold sum_over. cbn [foldl]. rewrite (foldl_sum (λ g, default 0 (m !! g))). lia. Qed.

Lemma sum_over_insert m g v l : m !! g = None → NoDup l →
  sum_over (<[g := v]> m) l = sum_over m l + (if decide (g ∈ l) then v else 0).
Proof.
  intros Hg Hl. induction Hl as [|x l Hx Hl IH]; [done|]. rewrite !sum_over_cons, IH.
  destruct (decide (x = g)) as [->|Hne].
  - rewrite lookup_insert_eq, Hg. rewrite (decide_False (P := g ∈ l)) by done. rewrite decide_True by set_solver. cbn. lia.
  - rewrite lookup_insert_ne by done. destruct (decide (g ∈ l)).
    + rewrite decide_True by set_solver. lia.
    + rewrite decide_False by set_solver. lia.
Qed.

Lemma sumCounts_over m l : NoDup l → (∀ g, g ∈ dom m → g ∈ l) → sumCounts m = sum_over m l.
Proof.
  intros Hl. unfold sumCounts. induction m as [|g v m Hg Hfold IH] using map_first_key_ind; intros Hd.
  - rewrite map_fold_empty. clear. unfold sum_over. induction l as [|x l IH]; [done|]. cbn. rewrite lookup_empty. cbn. exact IH.
  - rewrite map_fold_insert_first_key by done. rewrite sum_over_insert by done.
    rewrite decide_True by (apply Hd; set_solver). rewrite IH by set_solver. lia.
Qed.

(** The inner loop of the totals touches each receiver once. *)
Lemma totals_row (f : string → Z) (l : list string) (m : gmap string Z) recv :
  NoDup l →
  default 0 (foldl (λ m x, <[x := default 0 (m !! x) + f x]> m) m l !! recv) =
  default 0 (m !! recv) + (if decide (recv ∈ l) then f recv else 0).
Proof.
  intros Hl. revert m. induction Hl as [|x l Hx Hl IH]; intros m; cbn [foldl].
  - rewrite decide_False by set_solver. lia.
  - rewrite IH. destruct (decide (x = recv)) as [->|Hne].
    + rewrite lookup_insert_eq, (decide_False (P := recv ∈ l)), decide_True by set_solver. cbn. lia.
    + rewrite lookup_insert_ne by done. destruct (decide (recv ∈ l)).
      * rewrite decide_True by set_solver. lia.
      * rewrite decide_False by set_solver. lia.
Qed.

Lemma seen_groups_spec r : NoDup (seen_groups r) ∧
  ∀ recv c g, tr_TsharkCounts r !! recv = Some c → g ∈ dom c → g ∈ seen_groups r.
Proof.
  unfold seen_groups. split.
  - rewrite sort_by_perm. apply NoDup_elements.
  - intros recv c g Hc Hg. rewrite sort_by_perm. apply elem_of_elements, elem_of_union_list. exists (dom c). split; [|done].
    apply list_elem_of_fmap. exists c. split; [done|]. apply list_elem_of_fmap. exists (recv, c). split; [done|].
    by apply elem_of_map_to_list.
Qed.

(** The total row of the delivery matrix is, for each receiver, the number of
    packets its capture holds, whichever groups they were sent to. *)
Theorem matrix_totals_are_captures r recv :
  NoDup (pc_Receivers (tr_Config r)) → recv ∈ pc_Receivers (tr_Config r) →
  total_of r recv = sumCounts (default ∅ (tr_TsharkCounts r !! recv)).
Proof.
  intros Hnd Hin. destruct (seen_groups_spec r) as [Hs Hcov]. unfold total_of, matrix_totals.
  assert (Hsum : ∀ l (m : gmap string Z), default 0 (foldl (λ m g, foldl (λ m recv, <[recv := default 0 (m !! recv) + tshark_count r recv g]> m) m
      (pc_Receivers (tr_Config r))) m l !! recv) = default 0 (m !! recv) + sum_over (default ∅ (tr_TsharkCounts r !! recv)) l).
  { induction l as [|g l IH]; intros m; cbn [foldl]; [unfold sum_over; cbn; lia|].
    rewrite IH, (totals_row (λ x, tshark_count r x g)), decide_True, sum_over_cons by done. unfold tshark_count. lia. }
  rewrite Hsum, lookup_empty. cbn [default]. symmetry. rewrite Z.add_0_l. apply sumCounts_over; [done|].
  intros g. destruct (tr_TsharkCounts r !! recv) as [c|] eqn:E; [by apply (Hcov recv c)|]. cbn. set_solver.
Qed.

(** *** Statistics *)

Context {RL : RuntimeLaws}.

Lemma fold_min_le vals m : f_le (foldl (λ m v, if f_lt v m then v else m) m vals) m = true ∧
  Forall (λ v, f_le (foldl (λ m v, if f_lt v m then v else m) m vals) v = true) vals.
Proof.
  revert m. induction vals as [|v vals IH]; intros m; cbn [foldl]; [split; [apply f_le_refl|constructor]|].
  destruct (f_lt v m) eqn:E.
  - destruct (IH v) as [H1 H2]. split; [|by constructor]. eapply f_le_trans; [exact H1|]. by apply f_lt_le.
  - destruct (IH m) as [H1 H2]. split; [done|]. constructor; [|done]. eapply f_le_trans; [exact H1|].
    unfold f_le. by rewrite E.
Qed.

Lemma fold_max_ge vals m : f_le m (foldl (λ m v, if f_lt m v then v else m) m vals) = true ∧
  Forall (λ v, f_le v (foldl (λ m v, if f_lt m v then v else m) m vals) = true) vals.
Proof.
  revert m. induction vals as [|v vals IH]; intros m; cbn [foldl]; [split; [apply f_le_refl|constructor]|].
  destruct (f_lt m v) eqn:E.
  - destruct (IH v) as [H1 H2]. split; [|by constructor]. eapply f_le_trans; [|exact H1]. by apply f_lt_le.
  - destruct (IH m) as [H1 H2]. split; [done|]. constructor; [|done]. eapply f_le_trans; [|exact H1].
    unfold f_le. by rewrite E.
Qed.

(** The minimum and maximum the report prints bound every value. *)
Theorem stats_bound vals :
  Forall (λ v, f_le (stats vals).1.1.1 v = true ∧ f_le v (stats vals).1.1.2 = true) vals.
Proof.
  destruct vals as [|v0 vals]; [constructor|]. unfold stats. cbv zeta. cbn [fst snd].
  apply list.Forall_and. split; [apply fold_min_le|apply fold_max_ge].
Qed.
End Report.

(** ** The run *)

(** The commands a trace leaves running and those it waits for. *)
Definition started (acts : list PerfAct) : list (list string) :=
  omap (λ a, match a with AStart c => Some c | _ => None end) acts.

Definition awaited (acts : list PerfAct) : list (list string) :=
  omap (λ a, match a with AWait c => Some c | _ => None end) acts.

Definition quiet (acts : list PerfAct) : Prop := started acts = [] ∧ awaited acts = [].

Lemma started_app a b : started (a ++ b) = started a ++ started b.
Proof. apply omap_app. Qed.

Lemma awaited_app a b : awaited (a ++ b) = awaited a ++ awaited b.
Proof. apply omap_app. Qed.

Lemma omap_bind {A B C} (f : B → option C) (g : A → list B) l : omap f (l ≫= g) = l ≫= λ x, omap f (g x).
Proof. induction l as [|x l IH]; [done|]. rewrite !bind_cons, omap_app. by rewrite IH. Qed.

Lemma bind_nil_all {A B} (g : A → list B) l : (∀ x, g x = []) → l ≫= g = [].
Proof. intros Hg. induction l as [|x l IH]; [done|]. by rewrite bind_cons, Hg, IH. Qed.

(** Starting where the outcome allows is starting on the filtered list. *)
Lemma bind_if_filter {A B} (p : A → bool) (f : A → B) l :
  (l ≫= λ x, if p x then [f x] else []) = f <$> filter (λ x, p x = true) l.
Proof.
  induction l as [|x l IH]; [done|]. rewrite bind_cons, IH, filter_cons. by destruct (p x).
Qed.

Lemma bind_single {A B} (f : A → B) l : (l ≫= λ x, [f x]) = f <$> l.
Proof. induction l as [|x l IH]; [done|]. by rewrite bind_cons, IH. Qed.

Section Run.
Context {RT : GoRuntime} {TF : ToolFloat} (ParseF64 : string → option F64).
Context (fmt_f : nat → F64 → string) (fmt_date fmt_duration : Z → string).
Implicit Types (cfg : config) (env : PerfEnv).

Lemma stats_quiet cfg outcome : quiet (collect_stats cfg outcome).1.
Proof. unfold quiet, started, awaited. cbn [collect_stats fst]. rewrite !omap_bind. split; by apply bind_nil_all. Qed.

Lemma health_quiet cfg env : quiet (health_requests cfg env).
Proof. unfold quiet, health_requests. by destruct (bool_decide _). Qed.

Definition running cfg env : list (list string) :=
  ((λ m, tcpdump_cmd m.2 enp) <$> captures cfg env) ++
  ((λ m, recv_cmd m.2 enp (groupsForReceiver m.2) recvPort) <$> listeners cfg env).

Lemma preflight_starts cfg env : started (preflight cfg env) = running cfg env ∧ awaited (preflight cfg env) = [].
Proof.
  destruct (stats_quiet cfg (pe_statsBefore env)) as [H1 H2]. unfold preflight, running.
  rewrite !started_app, !awaited_app, H1, H2. unfold started, awaited. rewrite !omap_bind. cbn [omap list_omap app].
  rewrite app_nil_r. split.
  - f_equal.
    + unfold captures. rewrite <-(bind_if_filter (λ m, pe_tcpdump env m.1)). apply list_bind_ext; [|done]. intros m. by destruct (pe_tcpdump env m.1).
    + unfold listeners. rewrite <-(bind_if_filter (λ m, pe_recv env m.1)). apply list_bind_ext; [|done]. intros m. by destruct (pe_recv env m.1).
  - rewrite app_nil_r, !bind_nil_all; [done|intros m..].
    + by destruct (pe_recv env m.1).
    + by destruct (pe_tcpdump env m.1).
Qed.

Lemma collection_stops cfg env : started (collection cfg env) = [] ∧ awaited (collection cfg env) ≡ₚ running cfg env.
Proof.
  destruct (stats_quiet cfg (pe_statsAfter env)) as [H1 H2]. unfold collection, running.
  rewrite !started_app, !awaited_app, H1, H2. unfold started, awaited. rewrite !omap_bind. cbn [omap list_omap app].
  rewrite !app_nil_r. split.
  - by rewrite !bind_nil_all.
  - rewrite (bind_nil_all _ (receivers cfg)) by done. rewrite app_nil_r. cbn. rewrite !bind_single. apply Permutation_app_comm.
Qed.

(** A run whose transmission ends waits for exactly the captures and the
    receivers it started; one that cannot dial the proxy leaves every one of
    them running. *)
Theorem run_stops_what_it_starts cfg env :
  let acts := (perf_main ParseF64 fmt_f fmt_date fmt_duration cfg env).1 in
  match pe_send env with
  | Some _ => awaited acts ≡ₚ started acts
  | None => awaited acts = [] ∧
      started acts = (if checkHealth (pe_health env) && pc_LXD cfg then running cfg env else [])
  end.
Proof.
  cbv zeta. destruct (health_quiet cfg env) as [H1 H2], (preflight_starts cfg env) as [H3 H4], (collection_stops cfg env) as [H5 H6].
  unfold perf_main. destruct (checkHealth _); cbn [negb andb].
  - destruct (pe_send env), (pc_LXD cfg); [| destruct (pe_write env) | |]; cbn [fst snd]; rewrite ?started_app, ?awaited_app, ?H1, ?H2, ?H3, ?H4, ?H5, ?H6;
      cbn; rewrite ?app_nil_r; try done.
    destruct (pe_write env); by rewrite ?app_nil_r.
  - cbn [fst]. rewrite started_app, awaited_app, H1, H2. by destruct (pe_send env).
Qed.
End Run.
