(* ===== verification/TestFrames.v ===== *)
(** * The integration-test tools (cmd/send-test-frames, cmd/recv-test-frames)

    The sender's three modes as the list of things it does: datagrams
    written, pauses, and the fatal exits; and the receiver's loop with its
    frame limit.  A write that fails ends the process there, after a prefix of
    that list.  [count] is how many rounds are run (the flag's zero, which
    never ends, is every prefix of them). *)

From S2P Require Import Prelude Common Sha256 Toy Chains BatchWriter RetryTee Coal Egress EgressFacts RateLimit Machine Forwarder ForwarderFacts Fragmentation.

Inductive TAct := TSend (d : bytes) | TSleep (ns : Z) | TFatal (what : string).

(** What reaches the network: everything up to the first fatal exit. *)
Fixpoint performed (acts : list TAct) : list TAct :=
  match acts with
  | [] => []
  | TFatal w :: _ => [TFatal w]
  | a :: acts => a :: performed acts
  end.

Definition sent_datagrams (acts : list TAct) : list bytes :=
  omap (λ a, match a with TSend d => Some d | _ => None end) (performed acts).

Definition sha256dOf (data : bytes) : bytes := Sum256 (Sum256 data).

(** [payload[i] = byte(i)]. *)
Definition ramp (n : nat) : bytes := u8 <$> seqZ 0 (Z.of_nat n).

Definition test_overhead : Z := 40 + 8 + 104.

Definition fragSize (mtu : Z) : Z := if test_overhead <? mtu then mtu - test_overhead else 0.

Definition testHashKey : Z := 0xDEADBEEF01020304.

Section Tools.
Context `{ShardCommon}.
(** [frame.Encode], [frame.EncodeBlockAnnounce] and [frame.EncodeBlock]. *)
Context (frame_Encode : bytes → bytes → option bytes).
Context (EncodeBlockAnnounce : bytes → bytes → bytes) (EncodeBlock : BlockFrame → Z → Z → option bytes).

Definition pause (interval : Z) : list TAct := if 0 <? interval then [TSleep interval] else [].

(** ** Sending *)

(** Fragment [i] of [k]. *)
Definition test_fragment (txID payload : bytes) (dataSize seqBase k i : Z) : TAct :=
  match EncodeFragment (HeaderSizeV3 + dataSize)
          (mkFragArgs txID (zeros 32) testHashKey (u64 (seqBase + i)) (u32 (Zlen payload)) (u16 i) (u16 k) 0
             (frag_data payload dataSize i)) with
  | Some d => TSend d
  | None => TFatal "EncodeFragment"
  end.

Definition sendFragments (txID payload : bytes) (dataSize seqBase : Z) : list TAct :=
  let k := (Zlen payload + dataSize - 1) / dataSize in
  test_fragment txID payload dataSize seqBase k <$> seqZ 0 k.

Definition sendFrame (txID payload : bytes) (interval : Z) : list TAct :=
  match frame_Encode txID payload with
  | Some buf => TSend buf :: pause interval
  | None => [TFatal "encode frame"]
  end.

(** One frame, fragmented or whole, and the caller's pause. *)
Definition sendOne (txID payload : bytes) (fragDataSize seq interval : Z) : list TAct :=
  (if (0 <? fragDataSize) && (fragDataSize <? Zlen payload)
   then sendFragments txID payload fragDataSize seq
   else sendFrame txID payload interval) ++ pause interval.

(** A double hash with its first four bytes replaced. *)
Definition routedTxID (payload : bytes) (prefix : Z) : bytes := be_put 4 (u32 prefix) ++ drop 4 (sha256dOf payload).

(** [-spread]: one frame per group and cycle, at maximally spaced ids.
    [uint32(1) << 32] is zero. *)
Definition step (shardBits : Z) : Z := u32 (Z.shiftl 1 (32 - shardBits)).

Definition spreadTxID (payload : bytes) (shardBits g : Z) : bytes := routedTxID payload (u32 (u32 g * step shardBits)).

Definition spread_cycle (payload : bytes) (shardBits numGroups fragDataSize interval cycle : Z) : list TAct :=
  seqZ 0 numGroups ≫= λ g,
    sendOne (spreadTxID payload shardBits g) payload fragDataSize (u64 (cycle * numGroups + g + 1)) interval.

Definition spread (payload : bytes) (shardBits numGroups fragDataSize interval : Z) (count : nat) : list TAct :=
  seqZ 0 (Z.of_nat count) ≫= spread_cycle payload shardBits numGroups fragDataSize interval.

(** The default mode: the id's prefix counts the frames. *)
Definition sequential (payload : bytes) (fragDataSize interval : Z) (count : nat) : list TAct :=
  seqZ 0 (Z.of_nat count) ≫= λ i, sendOne (routedTxID payload i) payload fragDataSize (u64 (i + 1)) interval.

(** [-block-announce]: a header with the round as its nonce; no pause after
    the last round of a bounded run. *)
Definition announceHeader (i : Z) : bytes := be_put 4 0x20000000 ++ zeros 72 ++ be_put 4 (u32 i).

Definition blockAnnounce (countFlag interval : Z) (i : Z) : list TAct :=
  let announceBuf := EncodeBlockAnnounce (announceHeader i) (u8 i :: zeros 31) in
  match EncodeBlock (mkBlockFrame BlockMsgAnnounce (sha256dOf (announceHeader i)) announceBuf) testHashKey (u64 (i + 1)) with
  | None => [TFatal "EncodeBlock"]
  | Some d => TSend d :: if (countFlag =? 0) || (i <? countFlag - 1) then pause interval else []
  end.

Definition block_announces (countFlag interval : Z) (count : nat) : list TAct :=
  seqZ 0 (Z.of_nat count) ≫= blockAnnounce countFlag interval.

(** ** Receiving *)

(** What a receive returned: an error, or a datagram, from an IPv6 sender or
    not. *)
Inductive TRecv := TErr | TDatagram (ipv6 : bool) (raw : bytes).

(** The loop's state: frames counted, frames printed, and whether it is still
    running, has closed [done], or returned without closing it. *)
Inductive LoopEnd := Running | ClosedDone | ReturnedOnError.
Record RecvLoop := mkRecvLoop { rl_received : Z; rl_printed : list Frame; rl_end : LoopEnd }.

Fixpoint recvLoop (limit : Z) (rs : list TRecv) (received : Z) (printed : list Frame) : RecvLoop :=
  match rs with
  | [] => mkRecvLoop received printed Running
  | TErr :: _ => mkRecvLoop received printed ReturnedOnError
  | TDatagram false _ :: rs => recvLoop limit rs received printed
  | TDatagram true raw :: rs =>
      match Decode raw with
      | None => recvLoop limit rs received printed
      | Some f =>
          if 0 <? limit then
            if limit <=? received + 1 then mkRecvLoop (received + 1) (printed ++ [f]) ClosedDone
            else recvLoop limit rs (received + 1) (printed ++ [f])
          else recvLoop limit rs received (printed ++ [f])
      end
  end.
End Tools.

(** ** Properties *)

Section ToolProps.
Context `{ShardCommon} (frame_Encode : bytes → bytes → option bytes).

(** ** The spread mode *)

Lemma step_pow bits : 1 ≤ bits ≤ 32 → step bits = 2 ^ (32 - bits).
Proof.
  intros Hb. unfold step. rewrite Z.shiftl_1_l. unfold u32. apply Z.mod_small. split; [lia|].
  apply Z.pow_lt_mono_r; lia.
Qed.

(** The group a spread id routes to is its own: its top bits. *)
Lemma spreadTxID_group payload bits g :
  1 ≤ bits ≤ 32 → 0 ≤ g < 2 ^ bits → Z.shiftr (be_get (take 4 (spreadTxID payload bits g))) (32 - bits) = g.
Proof.
  intros Hb Hg. unfold spreadTxID, routedTxID. rewrite step_pow by done.
  assert (Hp : 2 ^ bits * 2 ^ (32 - bits) = 2 ^ 32) by (rewrite <-Z.pow_add_r by lia; f_equal; lia).
  assert (H32 : 2 ^ bits ≤ 2 ^ 32) by (apply Z.pow_le_mono_r; lia).
  assert (Hpos : 0 < 2 ^ (32 - bits)) by (apply Z.pow_pos_nonneg; lia).
  assert (Eg : u32 g = g) by (unfold u32; apply Z.mod_small; lia). rewrite Eg.
  assert (Em : ∀ x, u32 (u32 x) = u32 x) by (intros; unfold u32; by rewrite Z.mod_mod).
  assert (E : u32 (g * 2 ^ (32 - bits)) = g * 2 ^ (32 - bits)) by (unfold u32; apply Z.mod_small; nia).
  rewrite Em, E. rewrite take_app_le by (by rewrite length_be_put). rewrite take_ge by (by rewrite length_be_put).
  rewrite be_get_put. change (8 * Z.of_nat 4) with 32. rewrite Z.mod_small by nia.
  rewrite Z.shiftr_div_pow2 by lia. by apply Z.div_mul; lia.
Qed.

Definition encodes (txid payload : bytes) : Prop := is_Some (frame_Encode txid payload).

Lemma seqZ_bind_ext {B} (f f' : Z → list B) m n :
  (∀ g, m ≤ g < m + n → f g = f' g) → seqZ m n ≫= f = seqZ m n ≫= f'.
Proof. intros E. apply list.Forall_bind_ext, list.Forall_forall. intros g Hg%elem_of_seqZ. apply E. lia. Qed.

(** A cycle of the spread mode writes one frame per group, in group order,
    routed by the engine to exactly that group, and pauses twice after
    each. *)
Theorem spread_cycle_one_per_group e payload bits interval cycle :
  1 ≤ bits ≤ 12 → 0 < interval →
  (∀ id, GroupIndex e id = Z.shiftr (be_get (take 4 id)) (32 - bits)) →
  (∀ g, 0 ≤ g < 2 ^ bits → encodes (spreadTxID payload bits g) payload) →
  ∃ buf : Z → bytes,
    spread_cycle frame_Encode payload bits (2 ^ bits) 0 interval cycle =
      (seqZ 0 (2 ^ bits) ≫= λ g, [TSend (buf g); TSleep interval; TSleep interval]) ∧
    ∀ g, 0 ≤ g < 2 ^ bits →
      frame_Encode (spreadTxID payload bits g) payload = Some (buf g) ∧ GroupIndex e (spreadTxID payload bits g) = g.
Proof.
  intros Hb Hi He Henc. exists (λ g, default [] (frame_Encode (spreadTxID payload bits g) payload)). split.
  - unfold spread_cycle. apply seqZ_bind_ext. intros g Hg. destruct (Henc g) as [buf Eb]; [lia|].
    unfold sendOne. cbn [Z.ltb Z.compare andb]. unfold sendFrame, pause. rewrite Eb, (proj2 (Z.ltb_lt _ _)) by done. done.
  - intros g Hg. destruct (Henc g Hg) as [buf Eb]. rewrite Eb. split; [done|]. rewrite He. apply spreadTxID_group; lia.
Qed.

(** The fragments of a payload, when they can be encoded: one per data-size
    piece, numbered from zero, whose data are the proxy's own cuts and
    together the payload. *)
Theorem sendFragments_reassemble txID payload dataSize seqBase :
  0 < dataSize < Zlen payload →
  let k := frag_count payload dataSize in
  let args i := mkFragArgs txID (zeros 32) testHashKey (u64 (seqBase + i)) (u32 (Zlen payload)) (u16 i) (u16 k) 0
    (frag_data payload dataSize i) in
  (∀ i, 0 ≤ i < k → is_Some (EncodeFragment (HeaderSizeV3 + dataSize) (args i))) →
  (∃ ds, sendFragments txID payload dataSize seqBase = TSend <$> ds ∧ Zlen ds = k ∧
     ∀ i d, 0 ≤ i → ds !! Z.to_nat i = Some d → EncodeFragment (HeaderSizeV3 + dataSize) (args i) = Some d) ∧
  concat (frag_data payload dataSize <$> seqZ 0 k) = payload.
Proof.
  intros Hs k args Hok. pose proof (frag_count_bounds payload dataSize ltac:(lia) ltac:(lia)) as [Hk _]. fold k in Hk. split.
  - exists ((λ i, default [] (EncodeFragment (HeaderSizeV3 + dataSize) (args i))) <$> seqZ 0 k). split_and!.
    + unfold sendFragments. fold k. change ((Zlen payload + dataSize - 1) / dataSize) with k. rewrite <-list_fmap_compose.
      apply list_fmap_ext. intros j i Hj%lookup_seqZ. destruct (Hok i) as [d Ed]; [lia|].
      unfold test_fragment. fold (args i). cbn. by rewrite Ed.
    + unfold Zlen. rewrite length_fmap, length_seqZ. lia.
    + intros i d Hi. rewrite list_lookup_fmap. destruct (seqZ 0 k !! Z.to_nat i) as [j|] eqn:Ej; [|done].
      apply lookup_seqZ in Ej as [-> Hj]. rewrite Z.add_0_l, Z2Nat.id by lia. intros [= <-].
      destruct (Hok i) as [d Ed]; [lia|]. by rewrite Ed.
  - rewrite <-(frag_data_all payload dataSize) at 2 by lia. fold k. do 2 f_equal. unfold seqZ. apply list_fmap_ext. intros ? ? _. lia.
Qed.

(** ** The receiver *)

(** The frames received before the first error, and whether there is one. *)
Fixpoint good_frames (rs : list TRecv) : list Frame :=
  match rs with
  | [] | TErr :: _ => []
  | TDatagram true raw :: rs => option_list (Decode raw) ++ good_frames rs
  | TDatagram false _ :: rs => good_frames rs
  end.

Definition has_error (rs : list TRecv) : bool := existsb (λ r, match r with TErr => true | _ => false end) rs.

Lemma recvLoop_from limit rs n printed :
  0 < limit → 0 ≤ n < limit →
  recvLoop limit rs n printed =
  if limit - n <=? Zlen (good_frames rs)
  then mkRecvLoop limit (printed ++ take (Z.to_nat (limit - n)) (good_frames rs)) ClosedDone
  else mkRecvLoop (n + Zlen (good_frames rs)) (printed ++ good_frames rs) (if has_error rs then ReturnedOnError else Running).
Proof.
  intros Hl. revert n printed. induction rs as [|[|[] raw] rs IH]; intros n printed Hn; cbn [recvLoop good_frames has_error existsb].
  - rewrite Zlen_nil, (proj2 (Z.leb_gt _ _)) by lia. by rewrite Z.add_0_r, app_nil_r.
  - rewrite Zlen_nil, (proj2 (Z.leb_gt _ _)) by lia. by rewrite Z.add_0_r, app_nil_r.
  - destruct (Decode raw) as [f|]; [|by apply IH].
    change (option_list (Some f) ++ good_frames rs) with (f :: good_frames rs). rewrite (proj2 (Z.ltb_lt _ _)) by done.
    pose proof (Zlen_nonneg (good_frames rs)). rewrite Zlen_cons. destruct (Z.leb_spec limit (n + 1)).
    + replace limit with (n + 1) by lia. rewrite (proj2 (Z.leb_le _ _)) by lia.
      replace (n + 1 - n) with 1 by lia. by destruct (good_frames rs).
    + rewrite IH by lia. destruct (Z.leb_spec (limit - (n + 1)) (Zlen (good_frames rs))).
      * rewrite (proj2 (Z.leb_le _ _)) by lia. f_equal. rewrite <-app_assoc. f_equal. cbn [app].
        replace (Z.to_nat (limit - n)) with (S (Z.to_nat (limit - (n + 1)))) by lia. done.
      * rewrite (proj2 (Z.leb_gt _ _)) by lia. rewrite <-app_assoc. f_equal. lia.
  - by apply IH.
Qed.

(** The receiver stops at its limit, having printed exactly that many frames;
    with fewer it never closes [done]: it is still receiving, or a receive
    failed and its goroutine is gone while main waits. *)
Theorem recvLoop_stops_at_limit limit rs :
  0 < limit →
  let r := recvLoop limit rs 0 [] in
  if limit <=? Zlen (good_frames rs)
  then rl_end r = ClosedDone ∧ rl_printed r = take (Z.to_nat limit) (good_frames rs) ∧ rl_received r = limit
  else rl_end r = (if has_error rs then ReturnedOnError else Running) ∧ rl_printed r = good_frames rs.
Proof.
  intros Hl r. unfold r. rewrite recvLoop_from by lia. rewrite Z.sub_0_r. by destruct (limit <=? _).
Qed.
End ToolProps.
