(* ===== verification/ToolMain.v ===== *)
(** * The runs of the receiving and sending tools (cmd/latency-sink,
    cmd/recv-test-frames, cmd/send-test-frames: main)

    The socket both receivers open, the groups they join, what ends their
    runs and what they print; and the sender's choice of mode and transport.
    A [log.Fatalf] is an error of the opening phase; the kernel closes the
    descriptors of a process that ends. *)

From Stdlib Require Import Ascii.
From stdpp Require Import pretty.
From S2P Require Import Prelude Common Sha256 Chains BatchWriter RetryTee Coal Egress RateLimit Machine Forwarder Beef Coalesce Dispatch Lane Worker Stream TcpIngress Config Recorder Sockets Floats Latstamp LatencySink PerfText TestFrames.

(** ** The receivers' socket *)

(** An [IPv6Mreq]: the group address and the interface. *)
Definition ipv6_mreq (ifindex : Z) (ip : bytes) : bytes :=
  take 16 (To16 ip ++ drop (length (To16 ip)) (zeros 16)) ++ le_put 4 ifindex.

Section Joining.
Context (fate : nat → option GoErr) (ParseIP : string → option bytes).

(** One socket that shares its port. *)
Definition shared_socket (port : Z) : O nat :=
  fd ← sys_open fate (mkSock None ∅ []);
  sys_setsockopt fate "SO_REUSEADDR" 1 fd;;
  sys_setsockopt fate "SO_REUSEPORT" 1 fd;;
  sys_bind fate (unspecified, port) fd;;
  mret fd.

(** [latency-sink]: an empty entry is skipped, a bad one is fatal; with a
    source the membership is of the source and group. *)
Definition membership (ifindex : Z) (source : option bytes) (ip : bytes) : bytes :=
  match source with
  | Some src => groupSourceReq ifindex ip src
  | None => ipv6_mreq ifindex ip
  end.

Fixpoint sink_join (ifindex : Z) (source : option bytes) (fd : nat) (groups : list string) : O () :=
  match groups with
  | [] => mret ()
  | g :: groups =>
      let g := TrimSpace g in
      (if String.eqb g "" then mret ()
       else match ParseIP g with
            | None => fail (GLeaf "invalid group")
            | Some ip => sys_join fate (membership ifindex source ip) fd
            end);;
      sink_join ifindex source fd groups
  end.

Definition sink_open (ifi : option Iface) (port : Z) (groups source : string) : O nat :=
  match ifi with
  | None => fail (GLeaf "interface")
  | Some ifi =>
      fd ← shared_socket port;
      if negb (String.eqb source "") && bool_decide (ParseIP source = None) then fail (GLeaf "invalid -source")
      else sink_join (if_index ifi) (ParseIP source) fd (Split groups);; mret fd
  end.

(** [recv-test-frames]: what is not an address is skipped. *)
Fixpoint recv_join (ifindex : Z) (fd : nat) (groups : list string) : O () :=
  match groups with
  | [] => mret ()
  | g :: groups =>
      (match ParseIP (TrimSpace g) with
       | None => mret ()
       | Some ip => sys_join fate (ipv6_mreq ifindex ip) fd
       end);;
      recv_join ifindex fd groups
  end.

Definition recv_open (ifi : option Iface) (port : Z) (groups : string) : O nat :=
  match ifi with
  | None => fail (GLeaf "interface")
  | Some ifi =>
      fd ← shared_socket port;
      recv_join (if_index ifi) fd (Split groups);; mret fd
  end.
End Joining.

(** ** The latency sink's run *)

Definition eol (s : string) : string := s +:+ String newline EmptyString.
Definition quoted (s : string) : string := String quote (s +:+ String quote EmptyString).

Definition note : string := "one-way; requires disciplined clocks (chrony/NTP) or same host".

(** [json.MarshalIndent] of an object with an indent of two spaces. *)
Fixpoint json_fields (fs : list (string * string)) : string :=
  match fs with
  | [] => ""
  | [(k, v)] => eol ("  " +:+ quoted k +:+ ": " +:+ v)
  | (k, v) :: fs => eol ("  " +:+ quoted k +:+ ": " +:+ v +:+ ",") +:+ json_fields fs
  end.

Definition json_object (fs : list (string * string)) : string := eol "{" +:+ json_fields fs +:+ "}".

Section Sink.
Context `{ShardCommon} {RT : GoRuntime} {TF : ToolFloat}.
(** Number formats: [%.0f], [%g] and the JSON encoder's. *)
Context (fmt_f0 fmt_g fmt_json : F64 → string).

Record sinkFlags := mkSinkFlags {
  sf_iface : option Iface; sf_port : Z; sf_groups : string; sf_source : string; sf_duration : Z;
  sf_json : string; sf_metrics : string; sf_window : Z }.

(** The two lines of the summary; the second only with samples. *)
Definition sink_line (r : report) : string :=
  eol ("SINK datagrams=" +:+ pretty (rp_Datagrams r) +:+ " stamped=" +:+ pretty (rp_Stamped r) +:+
       " unique=" +:+ pretty (rp_Unique r) +:+ " dups=" +:+ pretty (rp_Dups r) +:+
       " decode_err=" +:+ pretty (rp_DecodeErr r)).

Definition lat_line (n : Z) (lat : list F64) : string :=
  match lat with
  | [p50; p95; p99; _; hi] =>
      eol ("LAT n=" +:+ pretty n +:+ " p50=" +:+ fmt_f0 p50 +:+ "us p95=" +:+ fmt_f0 p95 +:+ "us p99=" +:+
           fmt_f0 p99 +:+ "us max=" +:+ fmt_f0 hi +:+ "us (" +:+ note +:+ ")")
  | _ => ""
  end.

(** [json.MarshalIndent(&rep)], fields in the order of the struct. *)
Definition report_json (r : report) (lat : list F64) : string :=
  match lat with
  | [p50; p95; p99; lo; hi] => json_object
      [("datagrams", pretty (rp_Datagrams r)); ("stamped", pretty (rp_Stamped r)); ("unique", pretty (rp_Unique r));
       ("dups", pretty (rp_Dups r)); ("decode_errors", pretty (rp_DecodeErr r));
       ("p50_us", fmt_json p50); ("p95_us", fmt_json p95); ("p99_us", fmt_json p99);
       ("max_us", fmt_json hi); ("min_us", fmt_json lo); ("note", quoted note)]
  | _ => ""
  end.

(** What a finished run leaves: its standard output, the file it wrote and
    whether that failed. *)
Record SinkDone := mkSinkDone { sd_stdout : string; sd_json : option string; sd_fatal : bool }.

Definition sink_finish (f : sinkFlags) (writeOK : bool) (s : Sink) : option SinkDone :=
  let r := sink_report s in
  lat ← report_latencies (sk_lats s);
  let out := sink_line r +:+ (if bool_decide (sk_lats s = []) then "" else lat_line (Zlen (sk_lats s)) lat) in
  Some (if String.eqb (sf_json f) "" then mkSinkDone out None false
        else mkSinkDone out (if writeOK then Some (report_json r lat) else None) (negb writeOK)).

(** [main]: the socket, the receive timeout, the loop until its deadline and
    the report.  [start] is the clock when the loop begins; [None] is a run
    that is still receiving. *)
Definition sink_main (fate : nat → option GoErr) (ParseIP : string → option bytes) (f : sinkFlags)
    (start : Z) (ticks : list Tick) (writeOK : bool) : O (option SinkDone) :=
  fd ← sink_open fate ParseIP (sf_iface f) (sf_port f) (sf_groups f) (sf_source f);
  let probe := if String.eqb (sf_metrics f) "" then None else Some (newProbeState (sf_window f)) in
  ignore (sys_setsockopt fate "SO_RCVTIMEO" 1 fd);;
  match sink_loop (sf_duration f =? 0) (start + sf_duration f) ticks (newSink probe) with
  | (false, _) => mret None
  | (true, s) =>
      match sink_finish f writeOK s with
      | None => fail (GLeaf "index out of range")
      | Some d => (if sd_fatal d then mret () else close fd);; mret (Some d)
      end
  end.

(** [serveMetrics]: the exposition of the probe; the quantiles are ranged over
    a map. *)
Definition probe_exposition (p : probeState) : option string :=
  '(qs, maxS, n, total) ← probe_metrics p;
  let lines := zip_with (λ q v, eol ("bsl_probe_latency_seconds{quantile=" +:+ quoted q +:+ "} " +:+ fmt_g v))
                 ["0.5"; "0.95"; "0.99"] qs in
  Some (eol "# TYPE bsl_probe_latency_seconds gauge" +:+
        foldr String.append "" (map_range lines) +:+
        eol "# TYPE bsl_probe_latency_max_seconds gauge" +:+ eol ("bsl_probe_latency_max_seconds " +:+ fmt_g maxS) +:+
        eol "# TYPE bsl_probe_window_samples gauge" +:+ eol ("bsl_probe_window_samples " +:+ pretty n) +:+
        eol "# TYPE bsl_probe_stamped_total counter" +:+ eol ("bsl_probe_stamped_total " +:+ pretty total)).
End Sink.

(** ** The receiver's run *)

Fixpoint spaces (n : nat) : string := match n with 0%nat => "" | S n => String " " (spaces n) end.

(** [%-26s] and [%08X]. *)
Definition pad_right (n : nat) (s : string) : string := s +:+ spaces (n - String.length s).

Definition HEX_digit (d : Z) : string :=
  nth (Z.to_nat d) ["0"; "1"; "2"; "3"; "4"; "5"; "6"; "7"; "8"; "9"; "A"; "B"; "C"; "D"; "E"; "F"] "".

Fixpoint HEX (width : nat) (n : Z) : string :=
  match width with 0%nat => "" | S w => HEX w (n / 16) +:+ HEX_digit (n mod 16) end.

(** The line printed for a frame; [src] is the sender's address and port. *)
Definition recv_line (src : string) (f : Frame) : string :=
  "recv  src=" +:+ pad_right 26 src +:+ "  txid[0:4]=" +:+ HEX 8 (be_get (take 4 (f_txid f))) +:+
  "  payload_len=" +:+ pretty (Zlen (f_payload f)).

(** What can happen to the process while it waits. *)
Inductive RecvEvent := EvRecv (r : TRecv) | EvTimer.

Inductive ToolExit := ExitOK | ExitFailure | StillRunning.

(** The receives served before the timer, and whether it fired.  Without a
    timeout there is no timer. *)
Fixpoint until_timer (timeout : Z) (evs : list RecvEvent) : list TRecv * bool :=
  match evs with
  | [] => ([], false)
  | EvRecv r :: evs => let x := until_timer timeout evs in (r :: x.1, x.2)
  | EvTimer :: evs => if 0 <? timeout then ([], true) else until_timer timeout evs
  end.

(** [main] after joining: the first of [done] and the timer ends it. *)
Definition recv_main `{ShardCommon} (limit timeout : Z) (evs : list RecvEvent) : RecvLoop * ToolExit :=
  let x := until_timer timeout evs in
  let l := recvLoop limit x.1 0 [] in
  (l, match rl_end l with
      | ClosedDone => ExitOK
      | _ => if x.2 then ExitFailure else StillRunning
      end).

(** ** The sender's run *)

Record sendFlags := mkSendFlags {
  tf_count : Z; tf_intervalMs : Z; tf_shardBits : Z; tf_spread : bool; tf_fragMTU : Z; tf_payloadSize : Z;
  tf_tcp : bool; tf_blockAnnounce : bool }.

Definition send_defaults : sendFlags := mkSendFlags 16 200 2 false 0 28 false false.

Section Sender.
Context `{ShardCommon}.
Context (frame_Encode : bytes → bytes → option bytes).
Context (EncodeBlockAnnounce : bytes → bytes → bytes) (EncodeBlock : BlockFrame → Z → Z → option bytes).

(** What the modes send over an open connection; [rounds] stands for a count
    of zero, which never ends. *)
Definition send_frames (f : sendFlags) (numGroups : Z) (rounds : nat) : list TAct :=
  let n := if tf_count f =? 0 then rounds else Z.to_nat (tf_count f) in
  let interval := s64 (u64 (tf_intervalMs f * 10 ^ 6)) in
  let payload := ramp (Z.to_nat (tf_payloadSize f)) in
  let size := fragSize (tf_fragMTU f) in
  if tf_payloadSize f <? 0 then [TFatal "makeslice: len out of range"]
  else if tf_blockAnnounce f then block_announces EncodeBlockAnnounce EncodeBlock (tf_count f) interval n
  else if tf_spread f then spread frame_Encode payload (tf_shardBits f) numGroups size interval n
  else sequential frame_Encode payload size interval n.

(** [main]: the network it dials and what it does. *)
Definition send_main (f : sendFlags) (dial : string → bool) (numGroups : Z) (rounds : nat) : string * list TAct :=
  let network := if tf_tcp f then "tcp6" else "udp6" in
  (network, if dial network then send_frames f numGroups rounds else [TFatal "dial"]).
End Sender.
