(* ===== verification/ToolMainProps.v ===== *)
(** * Properties of the tools' runs

    A receiver that gets as far as receiving holds exactly the memberships it
    was asked for; the latency sink's report never fails to be made; and the
    load tool counts exactly the frames the receiver printed, as long as no
    line is cut between the receiver's two output streams. *)

From Stdlib Require Import Ascii.
From stdpp Require Import pretty.
From S2P Require Import Prelude Common Toy Sha256 Chains BatchWriter RetryTee Coal Egress RateLimit Machine Forwarder Beef Coalesce Dispatch Lane Worker Stream TcpIngress Config Recorder Sockets SocketProps Floats Latstamp LatencySink LatencySinkProps PerfText PerfTextProps PerfSend PerfReport PerfMain TestFrames ToolMain.

(** ** Joining *)

Section Joining.
Context (fate : nat → option GoErr) (ParseIP : string → option bytes).

(** The socket of a receiver before it joins. *)
Definition plain_sock (port : Z) : Sock :=
  mkSock (Some (unspecified, port)) (<["SO_REUSEPORT" := 1]> {["SO_REUSEADDR" := 1]}) [].

Definition with_groups (sk : Sock) (reqs : list bytes) : Sock := sk <| sk_groups ::= λ l, l ++ reqs |>.

Lemma with_groups_nil sk : with_groups sk [] = sk.
Proof. destruct sk. unfold with_groups, set_field. cbn. by rewrite app_nil_r. Qed.

Lemma with_groups_app sk a b : with_groups (with_groups sk a) b = with_groups sk (a ++ b).
Proof. destruct sk. unfold with_groups, set_field. cbn. by rewrite <-app_assoc. Qed.

(** A call that takes the socket [sk] to [sk'], when it succeeds. *)
Lemma shapes_eq fd (g : Sock → Sock) sk sk' : g sk = sk' →
  shapes false fd (syscall fate (λ s, s <| os_open ::= alter g fd |>)) (eq sk) (λ _, eq sk').
Proof. intros E. apply shapes_alter. by intros ? <-. Qed.

Lemma shapes_fail {A} fd e P (Q : A → Sock → Prop) : shapes false fd (fail e) P Q.
Proof. intros s sk base Hok Hs Hb HP. split; [done|]. by exists sk. Qed.

Definition named (groups : list string) : list string := filter (λ g, g ≠ "") (TrimSpace <$> groups).

Lemma sink_join_shape ifindex source fd groups sk :
  shapes false fd (sink_join fate ParseIP ifindex source fd groups) (eq sk)
    (λ _ sk', ∃ ips, mapM ParseIP (named groups) = Some ips ∧ sk' = with_groups sk (membership ifindex source <$> ips)).
Proof.
  revert sk. induction groups as [|g groups IH]; intros sk; cbn [sink_join].
  { apply shapes_ret. intros ? <-. exists []. by rewrite with_groups_nil. }
  unfold named. rewrite fmap_cons, filter_cons. destruct (String.eqb_spec (TrimSpace g) "") as [Eg|Eg].
  - rewrite decide_False by tauto. apply (shapes_bind _ _ _ _ _ (λ _, eq sk)); [by apply shapes_ret|]. intros _. apply IH.
  - rewrite decide_True by done. destruct (ParseIP (TrimSpace g)) as [ip|] eqn:Ep.
    + apply (shapes_bind _ _ _ _ _ (λ _, eq (with_groups sk [membership ifindex source ip]))); [by apply shapes_eq|].
      intros _ s sk' base Hok Hs Hb <-. specialize (IH (with_groups sk [membership ifindex source ip]) s _ base Hok Hs Hb eq_refl).
      destruct (sink_join _ _ _ _ _ _ s) as [[x|e] s']; [|done]. destruct IH as (H1 & sk2 & (ips & E & ->) & H2).
      split; [done|]. eexists. split; [|exact H2]. exists (ip :: ips). rewrite with_groups_app. change (filter (λ g0, g0 ≠ "") (TrimSpace <$> groups)) with (named groups).
      cbn [mapM]. by rewrite Ep, E.
    + apply (shapes_bind _ _ _ _ _ (λ _ _, False)); [apply shapes_fail|]. by intros _ ? ? ? ? ? ? [].
Qed.

Lemma recv_join_shape ifindex fd groups sk :
  shapes false fd (recv_join fate ParseIP ifindex fd groups) (eq sk)
    (λ _, eq (with_groups sk (ipv6_mreq ifindex <$> omap ParseIP (TrimSpace <$> groups)))).
Proof.
  revert sk. induction groups as [|g groups IH]; intros sk; cbn [recv_join fmap list_fmap omap list_omap].
  { apply shapes_ret. intros ? <-. by rewrite with_groups_nil. }
  destruct (ParseIP (TrimSpace g)) as [ip|].
  - apply (shapes_bind _ _ _ _ _ (λ _, eq (with_groups sk [ipv6_mreq ifindex ip]))); [by apply shapes_eq|].
    intros _. pose proof (IH (with_groups sk [ipv6_mreq ifindex ip])) as H. rewrite with_groups_app in H. exact H.
  - apply (shapes_bind _ _ _ _ _ (λ _, eq sk)); [by apply shapes_ret|]. intros _. apply IH.
Qed.

Lemma shared_socket_spec port s fd s' :
  os_ok s → shared_socket fate port s = (inl fd, s') →
  os_ok s' ∧ os_open s !! fd = None ∧ os_open s' = <[fd := plain_sock port]> (os_open s).
Proof.
  intros Hok E. unfold shared_socket in E. unfold mbind at 1, O_bind at 1 in E.
  pose proof (opens_sys_open fate (mkSock None ∅ []) s Hok) as Ho.
  destruct (sys_open fate (mkSock None ∅ []) s) as [[fd1|e] s1]; [|done].
  destruct Ho as (Hok1 & new & -> & Hd & Hs1). apply map_disjoint_singleton_l in Hd. rewrite <-insert_union_singleton_l in Hs1.
  assert (Hset : shapes false fd1 (sys_setsockopt fate "SO_REUSEADDR" 1 fd1;; sys_setsockopt fate "SO_REUSEPORT" 1 fd1;;
      sys_bind fate (unspecified, port) fd1;; mret fd1) (eq (mkSock None ∅ [])) (λ x sk, x = fd1 ∧ sk = plain_sock port)).
  { apply (shapes_bind _ _ _ _ _ (λ _, eq (mkSock None {["SO_REUSEADDR" := 1]} []))); [by apply shapes_eq|intros _].
    apply (shapes_bind _ _ _ _ _ (λ _, eq (mkSock None (sk_opts (plain_sock port)) []))); [by apply shapes_eq|intros _].
    apply (shapes_bind _ _ _ _ _ (λ _, eq (plain_sock port))); [by apply shapes_eq|intros _]. by apply shapes_ret. }
  specialize (Hset s1 _ _ Hok1 Hs1 Hd eq_refl). rewrite E in Hset. destruct Hset as (Hok2 & sk2 & [-> ->] & Hs2). done.
Qed.

(** A shared socket and what is done with it, when it all succeeds. *)
Lemma shared_socket_then {A} port (body : nat → O A) Q s x s' :
  os_ok s → (∀ fd, shapes false fd (body fd) (eq (plain_sock port)) (Q fd)) →
  (fd ← shared_socket fate port; body fd) s = (inl x, s') →
  ∃ fd sk, Q fd x sk ∧ os_open s !! fd = None ∧ os_open s' = <[fd := sk]> (os_open s).
Proof.
  intros Hok Hbody. unfold mbind, O_bind. destruct (shared_socket fate port s) as [[fd|e] s1] eqn:E1; [|done]. intros E.
  apply shared_socket_spec in E1 as (Hok1 & Hd & Hs1); [|done]. specialize (Hbody fd s1 _ _ Hok1 Hs1 Hd eq_refl).
  rewrite E in Hbody. destruct Hbody as (_ & sk & HQ & Hs'). by exists fd, sk.
Qed.

(** A latency sink that starts receiving listens on its port and is a member
    of every group named, with the source when one is given: no entry was
    dropped.  An address that cannot be parsed, or a call that fails, ends
    the process instead. *)
Theorem sink_joins_every_group ifi port groups source fd s s' :
  os_ok s → sink_open fate ParseIP (Some ifi) port groups source s = (inl fd, s') →
  (source = "" ∨ is_Some (ParseIP source)) ∧
  ∃ ips, mapM ParseIP (named (Split groups)) = Some ips ∧ os_open s !! fd = None ∧
    os_open s' = <[fd := with_groups (plain_sock port) (membership (if_index ifi) (ParseIP source) <$> ips)]> (os_open s).
Proof.
  intros Hok E. unfold sink_open in E.
  destruct (negb (String.eqb source "") && bool_decide (ParseIP source = None)) eqn:Eb.
  { apply (shared_socket_then port _ (λ _ _ _, False)) in E; [|done|intros; apply shapes_fail]. naive_solver. }
  split.
  { apply andb_false_iff in Eb as [Eb|Eb].
    - left. apply negb_false_iff in Eb. by apply String.eqb_eq.
    - right. apply bool_decide_eq_false in Eb. by apply not_eq_None_Some. }
  apply (shared_socket_then port _ (λ fd x sk, x = fd ∧ ∃ ips, mapM ParseIP (named (Split groups)) = Some ips ∧
    sk = with_groups (plain_sock port) (membership (if_index ifi) (ParseIP source) <$> ips))) in E; [|done|].
  - destruct E as (fd' & sk & (-> & ips & Em & ->) & Hf & Hs'). by exists ips.
  - intros fd'. eapply shapes_bind; [apply sink_join_shape|]. intros ?. apply shapes_ret. intros sk Hsk. done.
Qed.

(** A test receiver joins every address it can parse and skips the others. *)
Theorem recv_joins_parsed_groups ifi port groups fd s s' :
  os_ok s → recv_open fate ParseIP (Some ifi) port groups s = (inl fd, s') →
  os_open s !! fd = None ∧
  os_open s' = <[fd := with_groups (plain_sock port)
                   (ipv6_mreq (if_index ifi) <$> omap ParseIP (TrimSpace <$> Split groups))]> (os_open s).
Proof.
  intros Hok E. apply (shared_socket_then port _ (λ fd x sk, x = fd ∧ sk = with_groups (plain_sock port)
    (ipv6_mreq (if_index ifi) <$> omap ParseIP (TrimSpace <$> Split groups)))) in E; [|done|].
  - destruct E as (fd' & sk & [-> ->] & Hf & Hs'). done.
  - intros fd'. eapply shapes_bind; [apply recv_join_shape|]. intros ?. apply shapes_ret. by intros sk <-.
Qed.
End Joining.

(** ** Counting what the receiver printed *)

Definition one_line (s : string) : Prop := all_chars no_newline s = true.

Lemma one_line_app s t : one_line s → one_line t → one_line (s +:+ t).
Proof. unfold one_line. rewrite all_chars_app. by intros -> ->. Qed.

Lemma pretty_N_char_ok x : no_newline (pretty_N_char x) = true.
Proof. unfold pretty_N_char. repeat case_match; reflexivity. Qed.

Lemma pretty_N_line (n : N) : one_line (pretty n).
Proof.
  unfold pretty, pretty_N. destruct (decide (n = 0)%N) as [->|Hn]; [done|].
  assert (H : ∀ s, one_line s → one_line (pretty_N_go n s)); [|by apply H].
  clear Hn. induction n as [n IH] using (well_founded_induction N.lt_wf_0). intros s Hs.
  destruct (decide (n = 0)%N) as [->|Hn]; [by rewrite pretty_N_go_0|]. rewrite pretty_N_go_step by lia.
  apply IH; [apply N.div_lt; lia|]. unfold one_line. cbn [all_chars]. by rewrite pretty_N_char_ok.
Qed.

Lemma pretty_Z_line (n : Z) : one_line (pretty n).
Proof. destruct n as [|p|p]; [done|apply (pretty_N_line (N.pos p))|]. apply (pretty_N_line (N.pos p)). Qed.

Lemma HEX_line w n : one_line (HEX w n).
Proof.
  revert n. induction w as [|w IH]; intros n; [done|]. apply one_line_app; [apply IH|]. unfold HEX_digit.
  generalize (Z.to_nat (n mod 16)) as k. intros k. do 16 (destruct k as [|k]; [done|]). cbn [nth]. by destruct k.
Qed.

Lemma spaces_line n : one_line (spaces n).
Proof. induction n as [|n IH]; [done|]. exact IH. Qed.

Lemma recv_line_one src f : one_line src → one_line (recv_line src f).
Proof.
  intros Hs. unfold recv_line, pad_right.
  apply one_line_app; [done|]. apply one_line_app; [apply one_line_app; [done|apply spaces_line]|].
  apply one_line_app; [done|]. apply one_line_app; [apply HEX_line|]. apply one_line_app; [done|apply pretty_Z_line].
Qed.

(** Trimming keeps a prefix that begins and ends outside the spaces. *)
Lemma string_rev_app acc s t : string_rev acc (s +:+ t) = string_rev (string_rev acc s) t.
Proof. revert acc. induction s as [|a s IH]; intros acc; [done|]. rewrite string_app_cons. cbn [string_rev]. apply IH. Qed.

Lemma string_rev_acc acc s : string_rev acc s = string_rev "" s +:+ acc.
Proof.
  revert acc. induction s as [|a s IH]; intros acc; [done|]. cbn [string_rev]. rewrite IH, (IH (String a "")).
  by rewrite string_app_assoc.
Qed.

Lemma trim_left_app_tail s b t : is_space b = false → ∃ s', trim_left (s +:+ String b t) = s' +:+ String b t.
Proof.
  intros Hb. induction s as [|a s [s' IH]].
  - exists "". change ("" +:+ String b t) with (String b t). cbn [trim_left]. by rewrite Hb.
  - rewrite string_app_cons. cbn [trim_left]. destruct (is_space a); [by exists s'|]. by exists (String a s).
Qed.

Lemma TrimSpace_recv t : ∃ u, TrimSpace ("recv  s" +:+ t) = "recv  s" +:+ u.
Proof.
  unfold TrimSpace. change (trim_left ("recv  s" +:+ t)) with ("recv  s" +:+ t).
  rewrite string_rev_app, (string_rev_acc (string_rev "" "recv  s") t).
  change (string_rev "" "recv  s") with (String "s" (string_rev "" "recv  ")).
  destruct (trim_left_app_tail (string_rev "" t) "s" (string_rev "" "recv  ")) as [s' ->]; [done|].
  exists (string_rev "" s'). by rewrite string_rev_app, string_rev_acc.
Qed.

Definition unlines (ls : list string) : string := foldr (λ l s, l +:+ String newline s) "" ls.

Lemma split_unlines ls : Forall one_line ls → split_lines (unlines ls) = (ls, "").
Proof.
  induction 1 as [|l ls Hl _ IH]; [done|]. change (unlines (l :: ls)) with (l +:+ String newline (unlines ls)).
  by rewrite split_lines_line, IH.
Qed.

Lemma recv_line_counts src f : counts_as_frame (recv_line src f) = true.
Proof.
  unfold counts_as_frame. destruct (TrimSpace_recv ("rc=" +:+ pad_right 26 src +:+ "  txid[0:4]=" +:+
    HEX 8 (be_get (take 4 (f_txid f))) +:+ "  payload_len=" +:+ pretty (Zlen (f_payload f)))) as [u E].
  change (recv_line src f) with ("recv  s" +:+ ("rc=" +:+ pad_right 26 src +:+ "  txid[0:4]=" +:+
    HEX 8 (be_get (take 4 (f_txid f))) +:+ "  payload_len=" +:+ pretty (Zlen (f_payload f)))). rewrite E. done.
Qed.

(** Chunks of whole lines are counted one by one. *)
Lemma count_whole_lines chunks n :
  Forall (Forall one_line) chunks → rv_partial n = "" →
  rv_count (foldl (λ rp p, recvWriter_Write p rp) n (unlines <$> chunks)) = rv_count n + count_frames (mjoin chunks).
Proof.
  intros Hc. revert n. induction Hc as [|c chunks Hl _ IH]; intros n E.
  { cbn [fmap list_fmap foldl mjoin list_join]. change (count_frames []) with 0. lia. }
  assert (Ew : split_lines (rv_partial n +:+ unlines c) = (c, "")) by (rewrite E; by apply split_unlines).
  rewrite fmap_cons. cbn [foldl]. rewrite IH; unfold recvWriter_Write; rewrite Ew; [|done].
  cbn [rv_count fst]. change (mjoin (c :: chunks)) with (c ++ mjoin chunks). rewrite count_frames_app. lia.
Qed.

Lemma Forall_join_inv {A} (P : A → Prop) ls : Forall P (mjoin ls) → Forall (Forall P) ls.
Proof. induction ls as [|l ls IH]; [constructor|]. cbn. rewrite Forall_app. intros [? ?]. constructor; auto. Qed.

Lemma count_frames_all ls : Forall (λ l, counts_as_frame l = true) ls → count_frames ls = Zlen ls.
Proof. intros Hl. unfold count_frames. by rewrite filter_all. Qed.

Lemma count_frames_none ls : Forall (λ l, counts_as_frame l = false) ls → count_frames ls = 0.
Proof.
  intros Hl. unfold count_frames. induction Hl as [|l ls El _ IH]; [done|]. rewrite filter_cons, decide_False by congruence. done.
Qed.

(** The load tool counts the frames its receivers printed.  A receiver writes
    a line per frame to its standard output and log lines to its standard
    error, and both reach the same counter in chunks; whatever the order of
    the chunks of the two streams, as long as each is made of whole lines the
    count is the number of frames printed. *)
Theorem counter_agrees_with_receiver (frames : list (string * Frame)) (out err chunks : list (list string)) :
  mjoin out = (λ p, recv_line p.1 p.2) <$> frames →
  Forall (λ p, one_line p.1) frames →
  Forall (Forall (λ l, one_line l ∧ counts_as_frame l = false)) err →
  chunks ≡ₚ out ++ err →
  recv_count (unlines <$> chunks) = Zlen frames.
Proof.
  intros Hout Hsrc Herr Hp.
  assert (Hframes : Forall (λ l, one_line l ∧ counts_as_frame l = true) (mjoin out)).
  { rewrite Hout. apply Forall_fmap. revert Hsrc. apply Forall_impl. intros [src f] Hs. cbn in *.
    split; [by apply recv_line_one|apply recv_line_counts]. }
  assert (Hlines : Forall (Forall one_line) chunks).
  { rewrite Hp. apply Forall_app. split.
    - apply Forall_join_inv. revert Hframes. apply Forall_impl. by intros l [? _].
    - revert Herr. apply Forall_impl. intros c. apply Forall_impl. by intros l [? _]. }
  unfold recv_count. rewrite count_whole_lines by done. cbn [rv_count].
  assert (E : count_frames (mjoin chunks) = count_frames (mjoin (out ++ err))).
  { unfold count_frames, Zlen. f_equal. apply Permutation_length. by rewrite Hp. }
  rewrite E, join_app, count_frames_app, (count_frames_all (mjoin out)), (count_frames_none (mjoin err)), Hout.
  - unfold Zlen. rewrite length_fmap. lia.
  - apply Forall_join. revert Herr. apply Forall_impl. intros c. apply Forall_impl. by intros l [_ ?].
  - revert Hframes. apply Forall_impl. by intros l [_ ?].
Qed.

(** The unfinished line is shared by the two streams: a log line cut in two
    around a frame's line swallows that frame. *)
Theorem cut_line_loses_frame :
  let frame_line := unlines [recv_line "[fd00::1]:9" (mkFrame 2 (zeros 32) 0 (zeros 32) [])] in
  recv_count ["2026/01/02 03:04:05 decode err"; frame_line; "or" +:+ String newline ""] = 0 ∧
  recv_count ["2026/01/02 03:04:05 decode err" +:+ "or" +:+ String newline ""; frame_line] = 1.
Proof. vm_compute. done. Qed.

(** ** How the receiver's run ends *)

(** With a limit the run ends well exactly when that many frames were
    decoded before the timer and before a receive failed; otherwise the
    timer, when there is one, ends it with a failure. *)
Theorem recv_main_exit `{ShardCommon} limit timeout evs :
  0 < limit →
  (recv_main limit timeout evs).2 =
  if limit <=? Zlen (good_frames (until_timer timeout evs).1) then ExitOK
  else if (until_timer timeout evs).2 then ExitFailure else StillRunning.
Proof.
  intros Hl. unfold recv_main. rewrite recvLoop_from by lia. rewrite Z.sub_0_r. destruct (limit <=? _); [done|].
  cbn [rl_end]. by destruct (has_error _).
Qed.

(** ** The sink's report *)

Section Report.
Context {SC : ShardCommon} {RT : GoRuntime} {RL : RuntimeLaws} {TF : ToolFloat} {TL : ToolFloatLaws}.
Context (fmt_f0 fmt_json : F64 → string).

Lemma report_latencies_total lats : Zlen lats ≤ 2 ^ 53 → ∃ lat, report_latencies lats = Some lat ∧ length lat = 5%nat.
Proof.
  intros Hn. destruct (decide (lats = [])) as [->|Hne].
  - exists (replicate 5 f_zero). done.
  - destruct (percentiles_ordered lats Hne Hn) as (p50 & p95 & p99 & lo & hi & E & _). by eexists.
Qed.

(** A run whose deadline passed makes its report: no percentile is out of
    range, and its JSON file is written unless that fails. *)
Theorem sink_finish_total f writeOK s :
  Zlen (sk_lats s) ≤ 2 ^ 53 →
  ∃ d, sink_finish fmt_f0 fmt_json f writeOK s = Some d ∧
    (sd_fatal d = false → sf_json f ≠ "" → is_Some (sd_json d)) ∧ (sf_json f = "" → sd_json d = None ∧ sd_fatal d = false).
Proof.
  intros Hn. unfold sink_finish. destruct (report_latencies_total (sk_lats s) Hn) as (lat & -> & _). cbn [mbind option_bind].
  destruct (String.eqb_spec (sf_json f) "") as [E|E]; eexists; (split; [done|]); cbn [sd_fatal sd_json].
  - done.
  - destruct writeOK; cbn [negb]; (split; [|done]); [eauto|done].
Qed.
End Report.

(** ** Witness *)

Lemma counter_agrees_with_receiver_witness :
  recv_count (unlines <$> [["2026/01/02 03:04:05 joined ff02::1"];
    [recv_line "[fd00::1]:9" (mkFrame 2 (zeros 32) 0 (zeros 32) [1; 2])]]) = 1.
Proof.
  apply (counter_agrees_with_receiver [("[fd00::1]:9", mkFrame 2 (zeros 32) 0 (zeros 32) [1; 2])]
    [[recv_line "[fd00::1]:9" (mkFrame 2 (zeros 32) 0 (zeros 32) [1; 2])]] [["2026/01/02 03:04:05 joined ff02::1"]]).
  - reflexivity.
  - repeat constructor.
  - repeat constructor.
  - apply Permutation_cons_append.
Defined.
